(* ===== verification/_CoqProject ===== *)
-Q . S2P
Prelude.v
Json.v
Glob.v
Ids.v
Constraint.v
CoreError.v
AuthKeys.v
Crypto.v
AuthError.v
Replay.v
Dpop.v
Delegation.v
DelegationExamples.v
Trace.v
Request.v
DecisionRecord.v
HashChain.v
Canonical.v
AuditFs.v
ApiKey.v
AuditLog.v
AuditExamples.v
Cache.v
Engine.v
EngineExamples.v
Text.v
Rotation.v
RotationFaults.v
Metrics.v
Semaphore.v
AuthLayer.v
PolicyStore.v
AuthZen.v
Pdp.v
AuditPort.v
Grpc.v
ChainSecret.v
Server.v
Lifecycle.v
Jwt.v
Redis.v
Formatter.v
Sinks.v
Watcher.v
PolicyOps.v
Oidc.v
CliKeys.v
CliAudit.v
CliDelegate.v
CliPolicy.v
CliGen.v
CliMain.v
ServerExamples.v
CliExamples.v
