(* ===== verification/Prelude.v ===== *)
(** * AgentGuard: a verification library for the authorization boundary of AI agents

    AgentGuard is a Rust workspace ([src/crates/]) that decides what an agent may do.
    A caller presents a credential (an API key, a JWT, a DPoP proof) and perhaps a
    delegation token; a server (the AuthZEN HTTP API and a gRPC mirror of it) binds the
    request to its caller and maps it to a Cedar request; an [Authorizer], built from a
    store of policy files, evaluates it behind a decision cache; each decision is written
    to a hash-chained audit log before it is answered.  Policies and keys are watched and
    reloaded while the server runs, and a command line manages the store, the keys, the
    tokens and the log, and decides single requests.  This library models those parts as executable
    functions and proves what makes them correct.

    ** Conventions

    - A Rust integer is a [Z] in the range of its type, with wrap-around, saturation and
      checked arithmetic written out; a [String] or byte vector is a [string] of bytes; a
      [HashMap] is a [gmap]; an [IndexMap] or JSON object is an association list.
    - [Result] is [result] with its monad; a method that changes state returns the new
      state; a whole handler is one definition.
    - Clock readings, uuids and random bytes are arguments, as are the outcomes of network
      exchanges and the order in which a directory or a hash map is iterated.  Third-party
      code (base64, JSON text, Ed25519, SHA-256, HMAC, Argon2, the [lru] crate, Cedar, the
      derived codecs, the Redis service, the HTTP and gRPC servers, [f64]) is a class of operations with a class of
      laws that states its documented behaviour; each has a concrete instance for which the
      laws are proved, and the witnesses of the theorems run on those.
    - File-system calls run on a directory with an arbitrary schedule of faults.
    - Concurrent requests are step relations over the shared state ([Engine], [AuthLayer],
      [Pdp], [Lifecycle]); a sequential handler is shown to be a run of them.

    ** Files

    - [Prelude], [Text]: results, tactics ([res_inv], [res_intro], [bool_inv]), integers,
      strings ([str::trim] on UTF-8, [split], [parse], [strip_prefix], [Path]), lists.
    - [Json]: [serde_json::Value] with [get], [==] and maps in insertion order.
    - [Glob], [Constraint]: [glob_match] and [ConstraintExpr] of
      [agentguard-core/src/delegation.rs].
    - [Ids]: the identifier types of [ids.rs], and the clocks and duration texts of [ttl.rs].
    - [CoreError], [AuthError]: the error enums of the two crates.
    - [AuthKeys]: [KeyRegistry] of [agentguard-core/src/auth_keys.rs].
    - [Crypto]: the third-party codecs and primitives.
    - [Replay], [Dpop]: [JtiTracker] ([agentguard-auth/src/jti.rs]), and [DpopVerifier]
      ([dpop.rs], [agentguard-core/src/jwk.rs]), which is proved against the interface
      [DpopReplayStore]; [JtiTracker] is its instance.
    - [Delegation], [DelegationExamples]: the rest of [delegation.rs]: claims, minting,
      attenuation, parsing, verification, decisions and the revocation store interface.
    - [Redis]: [agentguard-redis-store/src/lib.rs], the other implementation of that
      interface, over a service and a network that may lose exchanges.
    - [Trace], [Request], [DecisionRecord]: [observability/span.rs] with the middleware that
      continues a trace; the parts of a request ([principal.rs], [action.rs], [resource.rs],
      [context.rs], [request.rs]); and [decision/record.rs].
    - [HashChain], [Canonical]: [decision/chain.rs] and [decision/canonical.rs].
    - [AuditFs], [AuditLog], [AuditExamples]: the directory with faults, all of
      [decision/log.rs] on top of it, and runs of it.
    - [Rotation]: the rotating log across restarts, as a refinement of one list of records.
    - [RotationFaults]: the same log when the storage fails at any point of an append or a
      rotation.
    - [Formatter]: [decision/formatter.rs]; the program has no reader of the two line formats,
      so the one here serves only to show that a line determines its fields.
    - [ChainSecret]: [chain_secret.rs].
    - [ApiKey]: [agentguard-auth/src/api_key.rs], its key file in the same directory.
    - [Jwt], [Oidc]: [agentguard-auth/src/jwt.rs] with the JWKS refresh; [oidc.rs] and
      [spiffe.rs].
    - [Cache], [Engine], [EngineExamples]: [decision/cache.rs], and the [Authorizer] of
      [authorize/engine.rs] with [AgentRequest::to_cedar_request].
    - [PolicyStore]: [policy/store.rs], [policy/types.rs], [schema.rs] and
      [Authorizer::new] over a directory tree.
    - [PolicyOps], [Watcher]: the crate [agentguard-policy]: bundles, versions, diffs and
      blast radius; the watcher and the server loop that drains it.
    - [Metrics], [Sinks]: [agentguard-telemetry/src/metrics.rs]; [sink.rs] and [sinks/].
    - [Semaphore]: tokio's semaphore as the server uses it, the interface both bounds on
      concurrent work are proved against.
    - [AuthLayer]: [agentguard-server/src/auth_layer.rs].
    - [AuthZen], [Pdp]: [agentguard-server/src/authzen.rs]: the operations, and the
      theorems about the server as a step relation.
    - [AuditPort]: [agentguard-server/src/audit.rs], with [DecisionLog] as the instance of
      the audit interface that [Pdp] is proved against.
    - [Grpc]: [agentguard-server/src/grpc.rs].
    - [Server]: [listener.rs], [main.rs] and [server.rs]: configuration, the checks of
      [run], [build_router] and the reload loops.
    - [Lifecycle]: the rest of [run]: the signals, what the two servers are told, and the
      return, over any servers that keep the laws of [TransportLaws].
    - [ServerExamples]: a concrete server, with its policies, keys and log, on which the
      theorems of the server files are applied.
    - [CliKeys], [CliAudit], [CliDelegate], [CliPolicy], [CliGen], [CliMain]: the crate
      [agentguard-cli]: [commands/apikey.rs]; [audit.rs] and [log.rs]; [delegate.rs];
      [init.rs], [validate.rs], [schema.rs] and [doctor.rs] with
      [agentguard-core/src/policy/init.rs]; [gen.rs]; [authorize.rs], [sim.rs] and [main.rs].
      [CliExamples] applies their theorems.

    ** What is proved

    - Delegation: acceptance of a token is characterised exactly; a minted token verifies
      and allows what it was minted for; along any chain of attenuations authority only
      shrinks; a revoked token is never accepted again, over any store that keeps the
      contract of the trait; what Redis acknowledged holds until its retention ends; the
      revocation check fails closed; the glob matcher never indexes out of range and agrees
      with its declarative meaning; a constraint never holds for lack of a fact.
    - Keys: the registry's invariant, and what [get] returns after [add] and [rotate].
    - Audit: canonical bytes identify a JSON value up to member order; the head of a chain
      commits to its records, up to a break of the MAC; under any storage faults a log that
      does not rotate holds the records whose append succeeded, and a part of another only
      when the append reports that it could not be undone; it verifies, and resumes; with
      rotation and restarts its segments read back as the records appended and verify as one
      chain, also when the clock stands still; with rotation and storage faults no accepted
      record is lost while the clock moves on; CEF and LEEF lines determine the fields of
      the record up to line feeds.
    - Decisions: cache keys identify requests; the cache answers only fresh decisions of the
      current policy version within its capacity; [authorize] behind the cache refines
      Cedar's evaluation under every interleaving; invalidation forces evaluation.
    - Credentials: a DPoP proof is accepted at most once in the window of any store that
      keeps its contract, and only when signed by the key the token is bound to; the replay
      tracker refuses exactly the replays, in bounded memory; an API key verifies until it
      expires or is revoked; saving keys is atomic and reloading loses nothing; acceptance
      of a JWT is characterised exactly; discovery sends at most three requests and trusts
      only the configured issuer and the keys it received.
    - Server: an evaluation needs a live, scoped and bound key, and is about that key's
      identity; every answered decision is durable, on the server's own log, rotating or not,
      a record of its chain; work and verification permits are never leaked and all work
      ends; a batch answers as its semantics says, by the policies it began with, whatever
      is reloaded meanwhile; HTTP and gRPC agree; a failed reload changes nothing;
      [run] serves only what its guards allow; it returns only after a signal, with nothing
      under way, and stopping ends, with both servers told to stop and awaited.
    - Command line: the exit code of [authorize] is Cedar's decision, and the decision is on
      disk before anything is printed, under any storage faults; a created or revoked key is
      durable; [delegate] and [verify] round-trip through files; erasure pseudonymises
      exactly the records of the subject; the name given to [init] stays in its comment, and
      what [init] installs loads; a diagnosis without failures means a store that serves;
      a generated policy is written only when it parses and validates; asking the language
      model ends unless requests time out.
    - Policies: a load takes every policy file whole or fails, whatever the order of the
      walk; the watchers lose no change while storage works, and serve the last one; a
      blast-radius report counts exactly the decisions that change.
    - Metrics: label maps stay within their cap, all counters and histograms are exact; label values read
      back; buckets are cumulative.  Events read back from the JSONL file; the OpenTelemetry
      sink stops after five failed flushes in a row and resumes after a good one.
    - Where the code differs from what it says, a theorem shows it: keys that [rotate]
      revives or a JWKS refresh keeps, two rotations of the log that break its chain,
      a clock set back that makes the log refuse to open, a failed check that replaces a
      rotated segment, a refused record that stays on the chain,
      truncation that verifies, records without trace ids, proofs that do not expire, a
      blank secret file that is the empty key, a key file that is never read again after a
      fault, a store that [validate] rejects and the server serves, a change that came before
      the watch, a signal loop that parks itself, TLS requests that are dropped on a stop, a
      key file or a log that the command line can lose, a language model that is asked
      forever, a store of the tests that forgets a revocation, a carriage return that stays in
      a line for a SIEM.

    ** Bounds and fuel

    [trim] runs with the length of the string as fuel, which is enough since each round
    strips a byte ([trim_fuel_done]).  The glob matcher runs with the number of stars and
    the length of the value; it never runs out ([glob_match_checked_spec]).  The search for
    the name of a rotated log runs with one more than the number of files, which is enough
    as the candidates are distinct ([candidates_NoDup]).  Discovery takes
    its fuel as an argument: the loop ends after three requests by its own test, and three
    are enough ([discovery_loop_ends]).  The loop of [gen] has no bound in the code and takes
    its fuel as an argument ([send_loop_terminates] says when there is enough).
    Everything else is structural.

    ** What is not modelled

    Sockets and TLS themselves, the spans that are only logged, requests that are dropped
    because their client has gone, the argument parser of the command line and what it
    writes to standard error.  [delegation/claims.rs] and
    [delegation/glob.rs] are not part of the crate (no [mod] names them).  Log
    messages are left out everywhere.  Floating point is a parameter.  The order of Cedar's
    diagnostics is that of its function.  File permissions and symbolic-link races are those
    of one directory entry kind.  A lock makes the calls under
    it atomic, and a clock that is read just before a lock is taken counts as read under it;
    the authorizer's calls interleave at the cache accesses, the server's requests at the
    evaluation and at the audit write, the items of a batch with everything else.  A deadline
    [Instant + Duration] is taken not to overflow.

    ** Plan

    Nothing of the plan is left: what remains of the sources is accessors, log messages,
    tests and the third-party code listed above. *)

From stdpp Require Export base strings list gmap sorting pretty.
From Stdlib Require Export Ascii ZArith Lia.

#[global] Open Scope string_scope.
#[global] Open Scope list_scope.
#[global] Open Scope Z_scope.

(** The hint database of the library: invariant-preservation lemmas. *)
Create HintDb agentguard.

(** ** Fallible code: [std::result::Result] *)

Inductive result (E A : Type) : Type :=
| Ok (a : A)
| Err (e : E).
Arguments Ok {E A} a.
Arguments Err {E A} e.

#[export] Instance result_ret {E} : MRet (result E) := λ A a, Ok a.
#[export] Instance result_bind {E} : MBind (result E) := λ A B f r,
  match r with Ok a => f a | Err e => Err e end.
#[export] Instance result_fmap {E} : FMap (result E) := λ A B f r,
  match r with Ok a => Ok (f a) | Err e => Err e end.

#[export] Instance result_eq_dec {E A} `{EqDecision E, EqDecision A} :
  EqDecision (result E A).
Proof. solve_decision. Defined.

(** [r.map_err(f)], [o.ok_or(e)], [r.ok()], [r.is_ok()] *)
Definition map_err {E F A} (f : E → F) (r : result E A) : result F A :=
  match r with Ok a => Ok a | Err e => Err (f e) end.

Definition ok_or {E A} (o : option A) (e : E) : result E A :=
  match o with Some a => Ok a | None => Err e end.

Definition to_ok {E A} (r : result E A) : option A :=
  match r with Ok a => Some a | Err _ => None end.

Definition is_ok {E A} (r : result E A) : bool :=
  match r with Ok _ => true | Err _ => false end.

(** An early return [if c { return Err(e) }]. *)
Definition bail_if {E} (c : bool) (e : E) : result E unit :=
  if c then Err e else Ok tt.

(** The [?] operator over a whole iterator:
    [iter.map(f).collect::<Result<Vec<_>, _>>()]. *)
Fixpoint try_map {E A B} (f : A → result E B) (l : list A) : result E (list B) :=
  match l with
  | [] => Ok []
  | x :: l => y ← f x; ys ← try_map f l; Ok (y :: ys)
  end.

Section result_lemmas.
Context {E A B : Type}.

Lemma bind_Ok (r : result E A) (k : A → result E B) b :
  (r ≫= k) = Ok b ↔ ∃ a, r = Ok a ∧ k a = Ok b.
Proof. destruct r; naive_solver. Qed.

Lemma bind_Err (r : result E A) (k : A → result E B) e :
  (r ≫= k) = Err e ↔ r = Err e ∨ ∃ a, r = Ok a ∧ k a = Err e.
Proof. destruct r; naive_solver. Qed.

Lemma map_err_Ok {F} (f : E → F) (r : result E A) a :
  map_err f r = Ok a ↔ r = Ok a.
Proof. destruct r; naive_solver. Qed.

Lemma ok_or_Ok (o : option A) (e : E) a : ok_or o e = Ok a ↔ o = Some a.
Proof. destruct o; naive_solver. Qed.

Lemma bail_if_Ok c (e : E) u : bail_if c e = Ok u ↔ c = false.
Proof. destruct c, u; naive_solver. Qed.

Lemma bail_if_pass c (e : E) : c = false → bail_if c e = Ok tt.
Proof. by intros ->. Qed.

Lemma bail_if_Err c (e e' : E) : bail_if c e = Err e' ↔ c = true ∧ e = e'.
Proof. destruct c; naive_solver. Qed.

Lemma try_map_Ok (f : A → result E B) l k :
  try_map f l = Ok k ↔ Forall2 (λ x y, f x = Ok y) l k.
Proof.
  revert k; induction l as [|x l IH]; intros k; simpl.
  - split; [intros [= <-]; constructor | inversion 1; done].
  - split.
    + destruct (f x) as [y|] eqn:Hx, (try_map f l) as [ys|] eqn:Hl; simpl; try done.
      intros [= <-]. constructor; [done | by apply IH].
    + inversion 1 as [|? y ? ys Hx Hl]; subst. apply IH in Hl.
      by rewrite Hx, Hl.
Qed.
End result_lemmas.

(** [res_inv] turns a hypothesis [c1; c2; ... = Ok v] into the facts that each
    step succeeded, one after the other. *)
Ltac res_step :=
  match goal with
  | H : (mbind _ _) = Ok _ |- _ => apply bind_Ok in H as (? & ? & H)
  | H : map_err _ _ = Ok _ |- _ => apply map_err_Ok in H
  | H : ok_or _ _ = Ok _ |- _ => apply ok_or_Ok in H
  | H : bail_if _ _ = Ok _ |- _ => apply bail_if_Ok in H
  | H : Ok _ = Ok _ |- _ => injection H as H
  | H : Err _ = Ok _ |- _ => discriminate H
  | H : Ok _ = Err _ |- _ => discriminate H
  | u : unit |- _ => destruct u
  end.
Ltac res_inv := repeat res_step.

(** The dual: [res_intro] reduces a goal [c1; c2; ... = Ok v] to the success of its
    first step and of the rest. *)
Ltac res_intro :=
  apply bind_Ok; eexists; split;
  [first [apply map_err_Ok | apply ok_or_Ok | apply bail_if_pass | idtac] |].

(** Boolean guards as propositions. *)
Ltac bool_step :=
  match goal with
  | H : (_ && _) = true |- _ => apply andb_true_iff in H as [? ?]
  | H : (_ || _) = false |- _ => apply orb_false_iff in H as [? ?]
  | H : negb _ = true |- _ => apply negb_true_iff in H
  | H : negb _ = false |- _ => apply negb_false_iff in H
  | H : bool_decide _ = true |- _ => apply bool_decide_eq_true in H
  | H : bool_decide _ = false |- _ => apply bool_decide_eq_false in H
  | H : ¬ (_ ≠ _) |- _ => apply dec_stable in H
  | H : (_ <? _)%Z = true |- _ => apply Z.ltb_lt in H
  | H : (_ <? _)%Z = false |- _ => apply Z.ltb_ge in H
  | H : (_ <=? _)%Z = true |- _ => apply Z.leb_le in H
  | H : (_ <=? _)%Z = false |- _ => apply Z.leb_gt in H
  | H : (_ <? _)%nat = true |- _ => apply Nat.ltb_lt in H
  | H : (_ <? _)%nat = false |- _ => apply Nat.ltb_ge in H
  | H : (_ <=? _)%nat = true |- _ => apply Nat.leb_le in H
  | H : (_ <=? _)%nat = false |- _ => apply Nat.leb_gt in H
  | H : (_ =? _)%nat = true |- _ => apply Nat.eqb_eq in H
  | H : (_ =? _)%nat = false |- _ => apply Nat.eqb_neq in H
  | H : (_ =? _)%Z = true |- _ => apply Z.eqb_eq in H
  | H : (_ =? _)%Z = false |- _ => apply Z.eqb_neq in H
  end.
Ltac bool_inv := repeat bool_step.

(** ** Machine integers

    A Rust integer is a [Z] kept in the range of its width; the operations that
    leave the range are written out. *)

Definition i64_min : Z := - 2 ^ 63.
Definition i64_max : Z := 2 ^ 63 - 1.
Definition u64_max : Z := 2 ^ 64 - 1.
Definition usize_max : Z := 2 ^ 64 - 1.

Definition in_i64 (z : Z) : Prop := i64_min ≤ z ≤ i64_max.
Definition in_u64 (z : Z) : Prop := 0 ≤ z ≤ u64_max.
#[export] Instance in_i64_dec z : Decision (in_i64 z).
Proof. unfold in_i64. apply _. Defined.
#[export] Instance in_u64_dec z : Decision (in_u64 z).
Proof. unfold in_u64. apply _. Defined.

(** [i64::saturating_add], [i64::checked_add], [i64::try_from(u64)] *)
Definition i64_saturating_add (a b : Z) : Z := Z.max i64_min (Z.min i64_max (a + b)).
Definition i64_checked_add (a b : Z) : option Z :=
  if bool_decide (in_i64 (a + b)) then Some (a + b) else None.
Definition i64_try_from (u : Z) : option Z :=
  if bool_decide (in_i64 u) then Some u else None.

(** Two's-complement reduction: [x as i64], and [+] on [i64] in a build without
    overflow checks (the release profile). *)
Definition i64_wrap (z : Z) : Z := (z + 2 ^ 63) mod 2 ^ 64 - 2 ^ 63.
(** [fetch_add] on an [AtomicU64] wraps around. *)
Definition u64_wrap (z : Z) : Z := z mod 2 ^ 64.

Ltac unfold_ints :=
  unfold i64_checked_add, i64_try_from, i64_saturating_add, in_i64, in_u64,
    i64_min, i64_max, u64_max, usize_max in *.

Lemma i64_saturating_add_range a b : in_i64 (i64_saturating_add a b).
Proof. unfold_ints. lia. Qed.

Lemma i64_saturating_add_mono a b c : a ≤ b → i64_saturating_add a c ≤ i64_saturating_add b c.
Proof. unfold_ints. lia. Qed.

Lemma i64_checked_add_Some a b c :
  i64_checked_add a b = Some c ↔ c = a + b ∧ in_i64 (a + b).
Proof. unfold i64_checked_add. case_bool_decide; naive_solver. Qed.

Lemma i64_try_from_Some u c : i64_try_from u = Some c ↔ c = u ∧ in_i64 u.
Proof. unfold i64_try_from. case_bool_decide; naive_solver. Qed.

Lemma i64_wrap_id z : in_i64 z → i64_wrap z = z.
Proof. unfold i64_wrap. unfold_ints. intros. rewrite Z.mod_small; lia. Qed.

Lemma i64_wrap_range z : in_i64 (i64_wrap z).
Proof. unfold i64_wrap. unfold_ints. pose proof (Z.mod_pos_bound (z + 2 ^ 63) (2 ^ 64)). lia. Qed.

(** ** Strings

    A Rust [String], [&str], [Vec<u8>] or [[u8; N]] is the sequence of its
    bytes. *)

Abbreviation bytes := string (only parsing).

(** [s.len()] counts bytes. *)
Definition len (s : string) : Z := Z.of_nat (String.length s).

(** [s.contains(c)] for a single ASCII character. *)
Fixpoint str_contains (c : ascii) (s : string) : bool :=
  match s with
  | EmptyString => false
  | String d s => bool_decide (c = d) || str_contains c s
  end.

(** [s.split(c).collect::<Vec<_>>()]: never empty, and [n] separators give
    [n + 1] parts. *)
Fixpoint split (c : ascii) (s : string) : list string :=
  match s with
  | EmptyString => [EmptyString]
  | String d s =>
      let rest := split c s in
      if bool_decide (c = d) then EmptyString :: rest
      else match rest with
           | part :: parts => String d part :: parts
           | [] => [String d EmptyString]
           end
  end.

(** [parts.join(c)] *)
Fixpoint join (sep : string) (parts : list string) : string :=
  match parts with
  | [] => EmptyString
  | [p] => p
  | p :: parts => p +:+ sep +:+ join sep parts
  end.

(** [s.strip_prefix(p)] *)
Fixpoint strip_prefix (p s : string) : option string :=
  match p, s with
  | EmptyString, _ => Some s
  | String a p, String b s => if bool_decide (a = b) then strip_prefix p s else None
  | String _ _, EmptyString => None
  end.

Definition starts_with (p s : string) : bool := bool_decide (is_Some (strip_prefix p s)).

(** [s.split_once(sep)]: split at the first occurrence. *)
Fixpoint split_once (sep s : string) : option (string * string) :=
  match strip_prefix sep s with
  | Some rest => Some (EmptyString, rest)
  | None =>
      match s with
      | EmptyString => None
      | String c s => prod_map (String c) id <$> split_once sep s
      end
  end.

(** [str::trim]: the characters with the Unicode [White_Space] property, in their
    UTF-8 encoding. *)
Definition byte_of (n : nat) : ascii := ascii_of_nat n.
Definition utf8_whitespace : list (list nat) :=
  [[9]; [10]; [11]; [12]; [13]; [32]; [194; 133]; [194; 160]; [225; 154; 128];
   [226; 128; 128]; [226; 128; 129]; [226; 128; 130]; [226; 128; 131];
   [226; 128; 132]; [226; 128; 133]; [226; 128; 134]; [226; 128; 135];
   [226; 128; 136]; [226; 128; 137]; [226; 128; 138]; [226; 128; 168];
   [226; 128; 169]; [226; 128; 175]; [226; 129; 159]; [227; 128; 128]]%nat.

Definition string_of_bytes (l : list nat) : string :=
  String.string_of_list_ascii (byte_of <$> l).

(** Remove the first of the given prefixes that matches. *)
Definition strip_any (ps : list string) (s : string) : option string :=
  head (omap (λ p, strip_prefix p s) ps).

Fixpoint trim_fuel (ps : list string) (fuel : nat) (s : string) : string :=
  match fuel with
  | O => s
  | S fuel => match strip_any ps s with Some s' => trim_fuel ps fuel s' | None => s end
  end.

Definition str_rev (s : string) : string :=
  String.string_of_list_ascii (reverse (String.list_ascii_of_string s)).

(** Each round strips at least one byte, so [String.length s] rounds suffice. *)
Definition trim_start (s : string) : string :=
  trim_fuel (string_of_bytes <$> utf8_whitespace) (String.length s) s.
Definition trim_end (s : string) : string :=
  str_rev (trim_fuel ((λ w, string_of_bytes (reverse w)) <$> utf8_whitespace)
             (String.length s) (str_rev s)).
Definition trim (s : string) : string := trim_end (trim_start s).

(** [s.trim().is_empty()] *)
Definition is_blank (s : string) : bool := bool_decide (trim s = EmptyString).

(** [str::parse] for an unsigned type with the given maximum: an optional ['+'], then
    decimal digits only. *)
Definition digit_of (c : ascii) : option Z :=
  let n := Z.of_nat (nat_of_ascii c) in
  if (48 <=? n) && (n <=? 57) then Some (n - 48) else None.

Fixpoint parse_digits (acc : Z) (s : string) : option Z :=
  match s with
  | EmptyString => Some acc
  | String c s => d ← digit_of c; parse_digits (acc * 10 + d) s
  end.

Definition parse_unsigned (max : Z) (s : string) : option Z :=
  let digits := default s (strip_prefix "+" s) in
  if bool_decide (digits = EmptyString) then None
  else n ← parse_digits 0 digits; if bool_decide (n ≤ max) then Some n else None.

Definition u32_max : Z := 2 ^ 32 - 1.

(** [std::str::from_utf8] succeeds: no stray or missing continuation byte, no
    over-long form, no surrogate, nothing above U+10FFFF. *)
Fixpoint utf8_valid (s : string) : bool :=
  let cont c := let n := nat_of_ascii c in ((128 <=? n) && (n <=? 191))%nat in
  match s with
  | EmptyString => true
  | String a s =>
      let n := nat_of_ascii a in
      if (n <? 128)%nat then utf8_valid s
      else if ((194 <=? n) && (n <=? 223))%nat then
        match s with String b s => cont b && utf8_valid s | _ => false end
      else if ((224 <=? n) && (n <=? 239))%nat then
        match s with
        | String b (String c s) =>
            let m := nat_of_ascii b in
            cont b && cont c
            && (if (n =? 224)%nat then (160 <=? m)%nat
                else if (n =? 237)%nat then (m <=? 159)%nat else true)
            && utf8_valid s
        | _ => false
        end
      else if ((240 <=? n) && (n <=? 244))%nat then
        match s with
        | String b (String c (String d s)) =>
            let m := nat_of_ascii b in
            cont b && cont c && cont d
            && (if (n =? 240)%nat then (144 <=? m)%nat
                else if (n =? 244)%nat then (m <=? 143)%nat else true)
            && utf8_valid s
        | _ => false
        end
      else false
  end.

(** [{:?}] of a [str]: quotes, and the escapes of [char::escape_debug] for ASCII;
    a printable character outside ASCII stands for itself. *)
Definition hex_digit (n : nat) : string :=
  String.substring n 1 "0123456789abcdef".

Definition escape_debug (c : ascii) : string :=
  let n := nat_of_ascii c in
  let bs := String "\"%char in
  if (n =? 0)%nat then bs "0"
  else if (n =? 9)%nat then bs "t"
  else if (n =? 10)%nat then bs "n"
  else if (n =? 13)%nat then bs "r"
  else if (n =? 34)%nat || (n =? 92)%nat then bs (String c "")
  else if (n <? 16)%nat then bs "u{" +:+ hex_digit n +:+ "}"
  else if (n <? 32)%nat || (n =? 127)%nat then
    bs "u{" +:+ hex_digit (n / 16) +:+ hex_digit (n mod 16) +:+ "}"
  else String c "".

Definition double_quote : string := String (ascii_of_nat 34) "".
Definition debug_str (s : string) : string :=
  double_quote +:+ String.concat "" (escape_debug <$> String.list_ascii_of_string s)
    +:+ double_quote.

#[global] Arguments String.append !_ _ / : simpl nomatch.

Section string_lemmas.
Implicit Types s t u v w : string.

Lemma string_app_assoc u v w : u +:+ (v +:+ w) = (u +:+ v) +:+ w.
Proof. induction u as [|c u IH]; [done|]. exact (f_equal (String c) IH). Qed.

Lemma string_app_nil_r u : u +:+ "" = u.
Proof. induction u as [|c u IH]; [done|]. exact (f_equal (String c) IH). Qed.

Lemma string_length_app u v :
  String.length (u +:+ v) = (String.length u + String.length v)%nat.
Proof. induction u; simpl; congruence. Qed.

Lemma string_length_0 u : String.length u = 0%nat ↔ u = "".
Proof. destruct u; naive_solver. Qed.

Lemma string_app_inv_l u v w : u +:+ v = u +:+ w → v = w.
Proof. induction u as [|c u IH]; simpl; [done|]. intros [= Heq]. auto. Qed.

Lemma string_app_inj_1 u v x y :
  String.length u = String.length v → u +:+ x = v +:+ y → u = v ∧ x = y.
Proof.
  revert v. induction u as [|c u IH]; intros [|d v]; simpl; try done.
  intros [= Hl] [= -> Heq]. destruct (IH v Hl Heq) as [-> ->]. done.
Qed.

Lemma substring_prefix v w : String.substring 0 (String.length v) (v +:+ w) = v.
Proof. induction v as [|c v IH]; [by destruct w|]. exact (f_equal (String c) IH). Qed.

Lemma substring_middle u v w :
  String.substring (String.length u) (String.length v) (u +:+ v +:+ w) = v.
Proof. induction u as [|c u IH]; [exact (substring_prefix v w)|exact IH]. Qed.

Lemma substring_suffix u v : String.substring (String.length u) (String.length v) (u +:+ v) = v.
Proof. rewrite <-(string_app_nil_r v) at 2. apply substring_middle. Qed.

Lemma str_contains_app c u v : str_contains c (u +:+ v) = str_contains c u || str_contains c v.
Proof. induction u as [|d u IH]; simpl; [done|]. by rewrite IH, orb_assoc. Qed.

Lemma split_nonempty c s : split c s ≠ [].
Proof. destruct s; simpl; [done|]. case_bool_decide; [done|]. by destruct (split c s). Qed.

(** The first part of a split ends at the first separator. *)
Lemma split_app c u v : str_contains c u = false →
  split c (u +:+ String c v) = u :: split c v.
Proof.
  induction u as [|d u IH]; simpl.
  - intros _. by rewrite bool_decide_eq_true_2.
  - intros [? Hu]%orb_false_iff. rewrite IH by done. by case_bool_decide.
Qed.

Lemma split_none c u : str_contains c u = false → split c u = [u].
Proof.
  induction u as [|d u IH]; simpl; [done|].
  intros [? Hu]%orb_false_iff. rewrite IH by done. by case_bool_decide.
Qed.

Lemma split_join c parts :
  parts ≠ [] → Forall (λ p, str_contains c p = false) parts →
  split c (join (String c "") parts) = parts.
Proof.
  intros Hne Hall. induction Hall as [|p parts Hp Hall IH]; [done|].
  destruct parts as [|q parts]; simpl; [by apply split_none|].
  rewrite split_app by done. f_equal. by apply IH.
Qed.

Lemma join_split c s : join (String c "") (split c s) = s.
Proof.
  induction s as [|d s IH]; [done|]. simpl.
  pose proof (split_nonempty c s). destruct (split c s) as [|p ps]; [done|].
  case_bool_decide as Hcd.
  - subst d. change (String c (join (String c "") (p :: ps)) = String c s). by rewrite IH.
  - rewrite <-IH. by destruct ps.
Qed.

Lemma split_parts c s : Forall (λ p, str_contains c p = false) (split c s).
Proof.
  induction s as [|d s IH]; simpl; [by constructor|].
  case_bool_decide; [by constructor|].
  destruct IH as [|p ps Hp Hps]; constructor; simpl; try done;
    by rewrite bool_decide_eq_false_2.
Qed.

Lemma strip_prefix_Some p s t : strip_prefix p s = Some t ↔ s = p +:+ t.
Proof.
  revert s; induction p as [|a p IH]; intros s; simpl; [naive_solver|].
  destruct s as [|b s]; [naive_solver|]. case_bool_decide as Hab.
  - subst. rewrite IH. naive_solver.
  - naive_solver.
Qed.
End string_lemmas.

(** *** [Ord] on [str]: lexicographic by bytes *)

Fixpoint str_leb (a b : string) : bool :=
  match a, b with
  | EmptyString, _ => true
  | String _ _, EmptyString => false
  | String c a, String d b =>
      (nat_of_ascii c <? nat_of_ascii d)%nat
      || (nat_of_ascii c =? nat_of_ascii d)%nat && str_leb a b
  end.

Definition str_le (a b : string) : Prop := str_leb a b = true.
#[export] Instance str_le_dec a b : Decision (str_le a b).
Proof. unfold str_le. apply _. Defined.

Lemma str_le_cons c a d b :
  str_le (String c a) (String d b) ↔
  (nat_of_ascii c < nat_of_ascii d)%nat ∨ c = d ∧ str_le a b.
Proof.
  unfold str_le. simpl. rewrite orb_true_iff, andb_true_iff, Nat.ltb_lt, Nat.eqb_eq.
  assert (nat_of_ascii c = nat_of_ascii d ↔ c = d) as ->; [|done].
  split; [|by intros ->]. intros Heq.
  by rewrite <-(ascii_nat_embedding c), Heq, ascii_nat_embedding.
Qed.

#[export] Instance str_le_total : Total str_le.
Proof.
  intros a. induction a as [|c a IH]; [by left|]. intros [|d b]; [by right|].
  rewrite !str_le_cons. destruct (IH b), (decide (c = d)) as [->|Hne]; [auto| |auto|].
  all: destruct (Nat.lt_trichotomy (nat_of_ascii c) (nat_of_ascii d)) as [|[Heq|]]; auto.
  all: destruct Hne; by rewrite <-(ascii_nat_embedding c), Heq, ascii_nat_embedding.
Qed.

#[export] Instance str_le_trans : Transitive str_le.
Proof.
  intros a. induction a as [|c a IH]; [done|]. intros [|d b] [|e f]; try done.
  rewrite !str_le_cons. intros [?|[-> ?]] [?|[-> ?]]; [left; lia|auto|auto|].
  right. split; [done|]. by apply (IH b).
Qed.

#[export] Instance str_le_antisym : AntiSymm (=) str_le.
Proof.
  intros a. induction a as [|c a IH]; intros [|d b]; try done.
  rewrite !str_le_cons. intros [?|[-> ?]] [?|[? ?]]; subst; try lia.
  f_equal. by apply IH.
Qed.

(** *** Trimming *)

(** Visible ASCII: no whitespace character has such a byte in its encoding. *)
Definition plain (c : ascii) : bool := (33 <=? nat_of_ascii c)%nat && (nat_of_ascii c <=? 126)%nat.

Definition no_plain (p : string) : bool := forallb (negb ∘ plain) (String.list_ascii_of_string p).

Definition whitespace_patterns (ps : list string) : Prop :=
  Forall (λ p, no_plain p = true ∧ p ≠ "") ps.

Lemma start_patterns : whitespace_patterns (string_of_bytes <$> utf8_whitespace).
Proof. by repeat constructor. Qed.
Lemma end_patterns :
  whitespace_patterns ((λ w, string_of_bytes (reverse w)) <$> utf8_whitespace).
Proof. by repeat constructor. Qed.

Lemma strip_any_Some ps s t : strip_any ps s = Some t → ∃ p, p ∈ ps ∧ s = p +:+ t.
Proof.
  unfold strip_any. induction ps as [|p ps IH]; simpl; [done|].
  destruct (strip_prefix p s) as [t'|] eqn:Hp; simpl.
  - intros [= ->]. exists p. split; [constructor|by apply strip_prefix_Some].
  - intros (q & Hq & ->)%IH. exists q. split; [by constructor|done].
Qed.

Lemma no_plain_contains c p : plain c = true → no_plain p = true → str_contains c p = false.
Proof.
  intros Hc. induction p as [|d p IH]; [done|]. unfold no_plain. simpl.
  intros [Hd Hp]%andb_true_iff. rewrite IH by done. case_bool_decide; [|done].
  subst. by rewrite Hc in Hd.
Qed.

Lemma trim_fuel_contains ps c fuel s :
  whitespace_patterns ps → plain c = true → str_contains c s = true →
  str_contains c (trim_fuel ps fuel s) = true.
Proof.
  intros Hps Hc. revert s. induction fuel as [|fuel IH]; intros s Hs; [done|]. simpl.
  destruct (strip_any ps s) as [t|] eqn:Ht; [|done]. apply IH.
  apply strip_any_Some in Ht as (p & Hp & ->).
  unfold whitespace_patterns in Hps. rewrite Forall_forall in Hps.
  rewrite str_contains_app, (no_plain_contains c p) in Hs by naive_solver. done.
Qed.

Lemma list_ascii_of_rev s :
  String.list_ascii_of_string (str_rev s) = reverse (String.list_ascii_of_string s).
Proof. apply String.list_ascii_of_string_of_list_ascii. Qed.

Lemma str_contains_elem c s :
  str_contains c s = true ↔ c ∈ String.list_ascii_of_string s.
Proof.
  induction s as [|d s IH]; simpl; [by rewrite elem_of_nil|].
  by rewrite orb_true_iff, bool_decide_eq_true, IH, elem_of_cons.
Qed.

Lemma str_contains_rev c s : str_contains c (str_rev s) = str_contains c s.
Proof.
  apply eq_bool_prop_intro. rewrite !Is_true_true, !str_contains_elem, list_ascii_of_rev.
  by rewrite elem_of_reverse.
Qed.

(** A string with a visible character is not blank. *)
Lemma is_blank_plain c s : plain c = true → str_contains c s = true → is_blank s = false.
Proof.
  intros Hc Hs. apply bool_decide_eq_false. intros Ht.
  assert (str_contains c (trim s) = true) as Hct; [|by rewrite Ht in Hct].
  unfold trim, trim_end, trim_start. rewrite str_contains_rev.
  apply trim_fuel_contains; [apply end_patterns|done|]. rewrite str_contains_rev.
  apply trim_fuel_contains; [apply start_patterns|done|done].
Qed.

Lemma strip_any_plain ps c s :
  whitespace_patterns ps → plain c = true → strip_any ps (String c s) = None.
Proof.
  intros Hps Hc. destruct (strip_any ps (String c s)) as [t|] eqn:Ht; [|done].
  apply strip_any_Some in Ht as (p & Hp & Heq). unfold whitespace_patterns in Hps.
  rewrite Forall_forall in Hps. destruct (Hps p Hp) as [Hn Hne].
  destruct p as [|d p]; [done|]. injection Heq as -> _. unfold no_plain in Hn. simpl in Hn.
  apply andb_true_iff in Hn as [Hn _]. unfold compose in Hn. by rewrite Hc in Hn.
Qed.

Lemma trim_fuel_plain ps fuel s :
  whitespace_patterns ps → forallb plain (String.list_ascii_of_string s) = true →
  trim_fuel ps fuel s = s.
Proof.
  intros Hps Hs. destruct fuel as [|fuel]; [done|]. simpl. destruct s as [|c s].
  - destruct (strip_any ps "") as [t|] eqn:Ht; [|done].
    apply strip_any_Some in Ht as (p & Hp & Heq). unfold whitespace_patterns in Hps.
    rewrite Forall_forall in Hps. destruct (Hps p Hp) as [_ Hne]. by destruct p.
  - simpl in Hs. apply andb_true_iff in Hs as [Hc _]. by rewrite strip_any_plain.
Qed.

Lemma str_rev_app s t : str_rev (s +:+ t) = str_rev t +:+ str_rev s.
Proof.
  unfold str_rev. assert (String.list_ascii_of_string (s +:+ t) =
    String.list_ascii_of_string s ++ String.list_ascii_of_string t) as ->.
  { induction s; simpl; congruence. }
  rewrite reverse_app. generalize (reverse (String.list_ascii_of_string s)) as l.
  induction (reverse (String.list_ascii_of_string t)); intros; simpl; congruence.
Qed.

Lemma str_rev_involutive s : str_rev (str_rev s) = s.
Proof.
  unfold str_rev at 1. rewrite list_ascii_of_rev, reverse_involutive.
  apply String.string_of_list_ascii_of_string.
Qed.

Lemma forallb_reverse {A} (f : A → bool) l : forallb f (reverse l) = forallb f l.
Proof.
  induction l as [|x l IH]; [done|]. rewrite reverse_cons, forallb_app, IH. simpl.
  by rewrite andb_true_r, andb_comm.
Qed.

(** [trim] takes the line feed off a line of visible characters. *)
Lemma trim_line s :
  forallb plain (String.list_ascii_of_string s) = true →
  trim (s +:+ String (ascii_of_nat 10) "") = s.
Proof.
  intros Hs. unfold trim.
  assert (trim_start (s +:+ String (ascii_of_nat 10) "") = s +:+ String (ascii_of_nat 10) ""
    ∨ s = "") as [->| ->].
  { destruct s as [|c s]; [by right|left]. unfold trim_start. simpl.
    simpl in Hs. apply andb_true_iff in Hs as [Hc _].
    by rewrite (strip_any_plain _ c) by (apply start_patterns || done). }
  - unfold trim_end. rewrite str_rev_app, string_length_app, Nat.add_comm.
    cbn [Nat.add String.length trim_fuel].
    change (str_rev (String (ascii_of_nat 10) "")) with (String (ascii_of_nat 10) "").
    replace (strip_any _ _) with (Some (str_rev s)) by done.
    rewrite trim_fuel_plain by (apply end_patterns || by rewrite list_ascii_of_rev, forallb_reverse).
    apply str_rev_involutive.
  - done.
Qed.

Lemma strip_any_None ps s : strip_any ps s = None ↔ ∀ p, p ∈ ps → strip_prefix p s = None.
Proof.
  unfold strip_any. induction ps as [|q ps IH]; simpl; [by split; intros; [set_solver|]|].
  destruct (strip_prefix q s) eqn:Hq; simpl; [|rewrite IH; set_solver].
  split; [done|]. intros Hall. specialize (Hall q). rewrite Hq in Hall. set_solver.
Qed.

Lemma strip_prefix_app p s t r : strip_prefix p s = Some r → strip_prefix p (s +:+ t) = Some (r +:+ t).
Proof.
  revert s. induction p as [|c p IH]; intros [|d s]; simpl; try done; [by intros [= <-]..|].
  case_bool_decide; [apply IH|done].
Qed.

Lemma trim_fuel_suffix ps fuel s : ∃ p, s = p +:+ trim_fuel ps fuel s.
Proof.
  revert s. induction fuel as [|fuel IH]; intros s; simpl; [by exists ""|].
  destruct (strip_any ps s) as [t|] eqn:Ht; [|by exists ""].
  apply strip_any_Some in Ht as (p & _ & ->). destruct (IH t) as [q Hq].
  exists (p +:+ q). rewrite <-string_app_assoc. by rewrite <-Hq.
Qed.

(** The fuel is enough: nothing is left to strip. *)
Lemma trim_fuel_done ps fuel s :
  whitespace_patterns ps → (String.length s ≤ fuel)%nat → strip_any ps (trim_fuel ps fuel s) = None.
Proof.
  intros Hps. revert s. induction fuel as [|fuel IH]; intros s Hlen; simpl.
  - destruct s; [|simpl in Hlen; lia]. apply strip_any_None. intros p Hp.
    unfold whitespace_patterns in Hps. rewrite Forall_forall in Hps.
    destruct (Hps p Hp) as [_ Hne]. by destruct p.
  - destruct (strip_any ps s) as [t|] eqn:Ht; [|done]. apply IH.
    apply strip_any_Some in Ht as (p & Hp & ->). rewrite string_length_app in Hlen.
    unfold whitespace_patterns in Hps. rewrite Forall_forall in Hps.
    destruct (Hps p Hp) as [_ Hne]. destruct p; [done|]. simpl in Hlen. lia.
Qed.

Lemma trim_fuel_id ps fuel s : strip_any ps s = None → trim_fuel ps fuel s = s.
Proof. destruct fuel; simpl; [done|]. by intros ->. Qed.

Lemma str_rev_length s : String.length (str_rev s) = String.length s.
Proof.
  assert (Hl : ∀ u, String.length u = length (String.list_ascii_of_string u))
    by (intros u; induction u; simpl; congruence).
  by rewrite !Hl, list_ascii_of_rev, length_reverse.
Qed.

(** What is trimmed stays trimmed. *)
Lemma trim_idem s : trim (trim s) = trim s.
Proof.
  set (ws := string_of_bytes <$> utf8_whitespace).
  set (we := (λ w, string_of_bytes (reverse w)) <$> utf8_whitespace).
  assert (Ht : strip_any ws (trim_start s) = None) by (apply trim_fuel_done; [apply start_patterns|done]).
  unfold trim. set (t := trim_start s) in *. set (u := trim_end t).
  assert (Hu : str_rev u = trim_fuel we (String.length t) (str_rev t)) by apply str_rev_involutive.
  assert (He : strip_any we (str_rev u) = None).
  { rewrite Hu. apply trim_fuel_done; [apply end_patterns|]. by rewrite str_rev_length. }
  destruct (trim_fuel_suffix we (String.length t) (str_rev t)) as [q Hq]. rewrite <-Hu in Hq.
  apply (f_equal str_rev) in Hq. rewrite str_rev_app, !str_rev_involutive in Hq.
  assert (Hs : strip_any ws u = None).
  { apply strip_any_None. intros p Hp. destruct (strip_prefix p u) as [r|] eqn:Hr; [|done].
    apply (strip_prefix_app _ _ (str_rev q)) in Hr. rewrite <-Hq in Hr.
    pose proof (proj1 (strip_any_None _ _) Ht p Hp). congruence. }
  assert (trim_start u = u) as -> by by apply trim_fuel_id.
  unfold trim_end. fold we. rewrite trim_fuel_id by done. apply str_rev_involutive.
Qed.

(** A nonempty text of visible characters is its own trim. *)
Lemma trim_plain s : forallb plain (String.list_ascii_of_string s) = true → trim s = s.
Proof.
  intros Hs. unfold trim.
  assert (trim_start s = s) as -> by (apply trim_fuel_plain; [apply start_patterns|done]).
  unfold trim_end. rewrite trim_fuel_plain; [apply str_rev_involutive|apply end_patterns|].
  by rewrite list_ascii_of_rev, forallb_reverse.
Qed.

(** ** Lists *)

(** [l.iter().any(|x| !p(x))] is false when every element passes. *)
Lemma existsb_negb_false {A} (p : A → bool) l :
  existsb (λ x, negb (p x)) l = false ↔ ∀ x, x ∈ l → p x = true.
Proof.
  induction l as [|y l IH]; simpl; [by split; intros; [set_solver|]|].
  rewrite orb_false_iff, negb_false_iff, IH. set_solver.
Qed.

Lemma NoDup_snoc {A} (l : list A) x : x ∉ l → NoDup l → NoDup (l ++ [x]).
Proof.
  intros Hx Hl. apply NoDup_app. split; [done|]. split; [|apply NoDup_singleton].
  by intros y Hy ->%list_elem_of_singleton.
Qed.

(** ** Invariants *)

(** What every step keeps, every run keeps. *)
Lemma rtc_invariant {A} (R : relation A) (P : A → Prop) x y :
  (∀ a b, R a b → P a → P b) → rtc R x y → P x → P y.
Proof. intros Hstep. induction 1; eauto. Qed.
