(* ===== verification/Json.v ===== *)
(** * JSON values

    [serde_json::Value] as the crates use it: the data type, the accessors
    ([get], [as_str], [as_i64], ...), insertion into a [Map], and [PartialEq].
    The lock file builds [serde_json] with [preserve_order], so a [Map] is an
    insertion-ordered association list with distinct keys; [==] on maps ignores
    the order.  [wf_value] is that representation invariant. *)

From S2P Require Import Prelude.

(** A number is a [u64], a negative [i64] or a finite [f64]; an [f64] is given by
    its 64 bits. *)
Inductive Number : Type :=
| PosInt (u : Z)
| NegInt (i : Z)
| Float (bits : Z).

#[export] Instance Number_eq_dec : EqDecision Number.
Proof. solve_decision. Defined.

Inductive Value : Type :=
| Null
| VBool (b : bool)
| VNumber (n : Number)
| VString (s : string)
| VArray (items : list Value)
| VObject (members : list (string * Value)).

(** The induction principle that goes through the two nested lists. *)
Section Value_induction.
Variable P : Value → Prop.
Hypothesis HNull : P Null.
Hypothesis HBool : ∀ b, P (VBool b).
Hypothesis HNumber : ∀ n, P (VNumber n).
Hypothesis HString : ∀ s, P (VString s).
Hypothesis HArray : ∀ l, Forall P l → P (VArray l).
Hypothesis HObject : ∀ m, Forall (λ kv, P kv.2) m → P (VObject m).

Fixpoint Value_ind' (v : Value) : P v :=
  match v with
  | Null => HNull
  | VBool b => HBool b
  | VNumber n => HNumber n
  | VString s => HString s
  | VArray l => HArray l
      ((fix go (l : list Value) : Forall P l :=
          match l with
          | [] => Forall_nil_2 _
          | x :: l => Forall_cons_2 _ x l (Value_ind' x) (go l)
          end) l)
  | VObject m => HObject m
      ((fix go (m : list (string * Value)) : Forall (λ kv, P kv.2) m :=
          match m with
          | [] => Forall_nil_2 _
          | kv :: m => Forall_cons_2 _ kv m (Value_ind' kv.2) (go m)
          end) m)
  end.
End Value_induction.

#[export] Instance Value_eq_dec : EqDecision Value.
Proof.
  refine (fix go (v w : Value) : Decision (v = w) :=
    match v, w with
    | Null, Null => left _
    | VBool a, VBool b => cast_if (decide (a = b))
    | VNumber a, VNumber b => cast_if (decide (a = b))
    | VString a, VString b => cast_if (decide (a = b))
    | VArray a, VArray b =>
        let _ : EqDecision Value := go in cast_if (decide (a = b))
    | VObject a, VObject b =>
        let _ : EqDecision Value := go in cast_if (decide (a = b))
    | _, _ => right _
    end); abstract congruence.
Defined.

(** ** Maps: [serde_json::Map] and [IndexMap] *)

Section assoc.
Context {A : Type}.
Implicit Types m : list (string * A).

Definition keys m : list string := m.*1.

Fixpoint assoc (k : string) m : option A :=
  match m with
  | [] => None
  | (k', v) :: m => if bool_decide (k = k') then Some v else assoc k m
  end.

(** [insert] replaces the value of a present key in place and appends a new one. *)
Fixpoint assoc_insert (k : string) (v : A) m : list (string * A) :=
  match m with
  | [] => [(k, v)]
  | (k', v') :: m =>
      if bool_decide (k = k') then (k', v) :: m else (k', v') :: assoc_insert k v m
  end.

(** [iter().map(...).collect()] into a map, and [for (k, v) in src { m.insert(k, v) }]. *)
Definition assoc_extend m (src : list (string * A)) : list (string * A) :=
  fold_left (λ m kv, assoc_insert kv.1 kv.2 m) src m.

Lemma assoc_insert_eq k v m : assoc k (assoc_insert k v m) = Some v.
Proof.
  induction m as [|[k' v'] m IH]; simpl.
  - by rewrite bool_decide_eq_true_2.
  - case_bool_decide as Hk; simpl.
    + by rewrite bool_decide_eq_true_2.
    + by rewrite bool_decide_eq_false_2.
Qed.

Lemma assoc_insert_ne k k' v m : k ≠ k' → assoc k' (assoc_insert k v m) = assoc k' m.
Proof.
  intros. induction m as [|[j w] m IH]; simpl.
  - by rewrite bool_decide_eq_false_2.
  - case_bool_decide; simpl; [subst; by rewrite bool_decide_eq_false_2|].
    case_bool_decide; done.
Qed.

Lemma assoc_Some_elem k v m : assoc k m = Some v → (k, v) ∈ m.
Proof.
  induction m as [|[j w] m IH]; simpl; [done|]. case_bool_decide.
  - intros [= ->]. subst. apply list_elem_of_here.
  - intros ?. apply list_elem_of_further. auto.
Qed.

Lemma assoc_None k m : assoc k m = None ↔ k ∉ keys m.
Proof.
  induction m as [|[j w] m IH]; simpl.
  - split; [intros _; apply not_elem_of_nil|done].
  - rewrite not_elem_of_cons. case_bool_decide; naive_solver.
Qed.

Lemma elem_assoc k v m : NoDup (keys m) → (k, v) ∈ m → assoc k m = Some v.
Proof.
  induction m as [|[j w] m IH]; simpl; [by intros ? ?%elem_of_nil|].
  intros [Hj Hnd]%NoDup_cons Hin. apply elem_of_cons in Hin as [[= -> ->]|Hin].
  - by rewrite bool_decide_eq_true_2.
  - rewrite bool_decide_eq_false_2; [by apply IH|].
    intros ->. apply Hj. apply list_elem_of_fmap. by exists (j, v).
Qed.

Lemma keys_assoc_insert k v m :
  keys (assoc_insert k v m) = if bool_decide (k ∈ keys m) then keys m else keys m ++ [k].
Proof.
  induction m as [|[j w] m IH]; simpl.
  - done.
  - destruct (decide (k = j)) as [->|Hk].
    + rewrite !bool_decide_eq_true_2 by (done || apply list_elem_of_here). done.
    + rewrite bool_decide_eq_false_2 by done. simpl. rewrite IH.
      rewrite (bool_decide_ext (k ∈ j :: keys m) (k ∈ keys m));
        [|rewrite elem_of_cons; naive_solver].
      by case_bool_decide.
Qed.

Lemma NoDup_assoc_insert k v m : NoDup (keys m) → NoDup (keys (assoc_insert k v m)).
Proof.
  intros. rewrite keys_assoc_insert. case_bool_decide; [done|].
  by apply NoDup_snoc.
Qed.
End assoc.

(** ** Accessors *)

(** [v.get(key)] *)
Definition get (v : Value) (key : string) : option Value :=
  match v with VObject m => assoc key m | _ => None end.

Definition as_str (v : Value) : option string :=
  match v with VString s => Some s | _ => None end.

Definition as_object (v : Value) : option (list (string * Value)) :=
  match v with VObject m => Some m | _ => None end.

(** [as_i64]: integers that fit, never floats. *)
Definition as_i64 (v : Value) : option Z :=
  match v with
  | VNumber (PosInt u) => if bool_decide (u ≤ i64_max) then Some u else None
  | VNumber (NegInt i) => Some i
  | _ => None
  end.

(** [serde_json::json!(i)] for an [i64]. *)
Definition number_of_i64 (z : Z) : Number := if bool_decide (0 ≤ z) then PosInt z else NegInt z.

Lemma as_i64_of_i64 z : in_i64 z → as_i64 (VNumber (number_of_i64 z)) = Some z.
Proof.
  intros. unfold number_of_i64. case_bool_decide; simpl; [|done].
  rewrite bool_decide_eq_true_2; [done|]. unfold_ints. lia.
Qed.

(** ** [PartialEq] *)

(** On [f64], [0.0 == -0.0]; the values are finite, so there is no NaN. *)
Definition f64_is_zero (bits : Z) : bool := bool_decide (bits = 0 ∨ bits = 2 ^ 63).

Definition number_eqb (a b : Number) : bool :=
  match a, b with
  | PosInt x, PosInt y => bool_decide (x = y)
  | NegInt x, NegInt y => bool_decide (x = y)
  | Float x, Float y => bool_decide (x = y) || (f64_is_zero x && f64_is_zero y)
  | _, _ => false
  end.

Fixpoint value_eqb (a b : Value) : bool :=
  match a, b with
  | Null, Null => true
  | VBool x, VBool y => bool_decide (x = y)
  | VNumber x, VNumber y => number_eqb x y
  | VString x, VString y => bool_decide (x = y)
  | VArray l, VArray m =>
      (fix go l m :=
         match l, m with
         | [], [] => true
         | x :: l, y :: m => value_eqb x y && go l m
         | _, _ => false
         end) l m
  | VObject l, VObject m =>
      bool_decide (length l = length m) &&
      (fix go l :=
         match l with
         | [] => true
         | (k, v) :: l =>
             match assoc k m with Some w => value_eqb v w | None => false end && go l
         end) l
  | _, _ => false
  end.

(** Distinct keys, at every level. *)
Fixpoint wf_value (v : Value) : Prop :=
  match v with
  | VArray l => (fix go l := match l with [] => True | x :: l => wf_value x ∧ go l end) l
  | VObject m =>
      NoDup (keys m) ∧
      (fix go m := match m with [] => True | (_, x) :: m => wf_value x ∧ go m end) m
  | _ => True
  end.

(** ** [==] is an equivalence on well-formed values *)

Lemma wf_array l : wf_value (VArray l) ↔ Forall wf_value l.
Proof. simpl. induction l; [by rewrite Forall_nil|]. rewrite Forall_cons. tauto. Qed.

Lemma wf_members (m : list (string * Value)) :
  (fix go m := match m with [] => True | (_, x) :: m => wf_value x ∧ go m end) m ↔
  Forall (λ kv, wf_value kv.2) m.
Proof. induction m as [|[] ? IH]; [by rewrite Forall_nil|]. by rewrite Forall_cons, <-IH. Qed.

Lemma wf_object m :
  wf_value (VObject m) ↔ NoDup (keys m) ∧ Forall (λ kv, wf_value kv.2) m.
Proof. simpl. by rewrite wf_members. Qed.

Lemma value_eqb_array l m :
  value_eqb (VArray l) (VArray m) = true ↔ Forall2 (λ x y, value_eqb x y = true) l m.
Proof.
  revert m; induction l as [|x l IH]; intros [|y m].
  - simpl. split; [constructor|done].
  - simpl. split; [done|inversion 1].
  - simpl. split; [done|inversion 1].
  - rewrite Forall2_cons, <-IH. simpl. by rewrite andb_true_iff.
Qed.

Lemma value_eqb_members l m :
  value_eqb (VObject l) (VObject m) = true ↔
  length l = length m ∧
  Forall (λ kv, ∃ w, assoc kv.1 m = Some w ∧ value_eqb kv.2 w = true) l.
Proof.
  simpl. rewrite andb_true_iff, bool_decide_eq_true. apply and_iff_compat_l.
  induction l as [|[k v] l IH]; [by rewrite Forall_nil|].
  rewrite Forall_cons, <-IH, andb_true_iff. simpl. destruct (assoc k m); naive_solver.
Qed.

Lemma value_eqb_object l m :
  NoDup (keys l) → NoDup (keys m) →
  value_eqb (VObject l) (VObject m) = true ↔
  ∀ k, option_Forall2 (λ v w, value_eqb v w = true) (assoc k l) (assoc k m).
Proof.
  intros Hl Hm. rewrite value_eqb_members, Forall_forall. split.
  - intros [Hlen Hall] k. destruct (assoc k l) as [v|] eqn:Hk.
    + apply assoc_Some_elem in Hk as Hin.
      destruct (Hall _ Hin) as (w & Hw & ?). simpl in Hw. rewrite Hw. by constructor.
    + assert (keys l ≡ₚ keys m) as Hperm.
      { apply submseteq_length_Permutation.
        - apply NoDup_submseteq; [done|]. intros j (kv & -> & Hin)%list_elem_of_fmap.
          destruct (Hall _ Hin) as (w & Hw & _). apply assoc_Some_elem in Hw.
          apply list_elem_of_fmap. by exists (kv.1, w).
        - unfold keys. rewrite !length_fmap. lia. }
      assert (assoc k m = None) as ->; [|constructor].
      apply assoc_None. rewrite <-Hperm. by apply assoc_None.
  - intros Hk. split.
    + rewrite <-(length_fmap fst l), <-(length_fmap fst m). apply Permutation_length.
      apply NoDup_Permutation; [done..|]. intros k. specialize (Hk k).
      pose proof (assoc_None k l). pose proof (assoc_None k m).
      unfold keys in *. inversion Hk; split; intros; apply dec_stable; naive_solver congruence.
    + intros [k v] Hin. specialize (Hk k). rewrite (elem_assoc k v l) in Hk by done.
      inversion Hk; subst; eauto.
Qed.

Lemma number_eqb_equiv a b c :
  number_eqb a a = true ∧ (number_eqb a b = true → number_eqb b a = true) ∧
  (number_eqb a b = true → number_eqb b c = true → number_eqb a c = true).
Proof.
  destruct a, b, c; simpl; rewrite ?orb_true_iff, ?andb_true_iff, ?bool_decide_eq_true;
    naive_solver.
Qed.

Lemma wf_assoc m k v : wf_value (VObject m) → assoc k m = Some v → wf_value v.
Proof.
  rewrite wf_object. intros [_ H] Hk. apply assoc_Some_elem in Hk.
  rewrite Forall_forall in H. by apply (H (k, v)).
Qed.

Lemma value_eqb_refl v : wf_value v → value_eqb v v = true.
Proof.
  induction v as [|b|n|s|l IH|m IH] using Value_ind'; intros Hwf; simpl;
    try (by rewrite bool_decide_eq_true_2); try done.
  - exact (proj1 (number_eqb_equiv n n n)).
  - apply value_eqb_array. apply wf_array in Hwf.
    induction IH; inversion Hwf; subst; constructor; auto.
  - apply wf_object in Hwf as Hm. destruct Hm as [Hnd _]. apply value_eqb_object; [done..|].
    intros k. destruct (assoc k m) as [w|] eqn:Hk; constructor.
    apply assoc_Some_elem in Hk as Hin. rewrite Forall_forall in IH.
    apply (IH _ Hin). by apply (wf_assoc m k).
Qed.

Lemma value_eqb_sym v w :
  wf_value v → wf_value w → value_eqb v w = true → value_eqb w v = true.
Proof.
  revert w. induction v as [|b|n|s|l IH|m IH] using Value_ind'; intros w Hv Hw H;
    destruct w as [|b'|n'|s'|l'|m']; try done.
  - simpl in *. bool_inv. subst. by rewrite bool_decide_eq_true_2.
  - by apply (number_eqb_equiv n n' n).
  - simpl in *. bool_inv. subst. by rewrite bool_decide_eq_true_2.
  - apply value_eqb_array. apply value_eqb_array in H. apply wf_array in Hv, Hw.
    induction H; constructor; inversion IH; inversion Hv; inversion Hw; subst; auto.
  - pose proof (proj1 (proj1 (wf_object _) Hv)). pose proof (proj1 (proj1 (wf_object _) Hw)).
    apply value_eqb_object; [done..|]. rewrite value_eqb_object in H by done.
    intros k. specialize (H k). inversion H as [x y Hxy Hx Hy|]; constructor.
    rewrite Forall_forall in IH. apply (IH (k, x)).
    + by apply assoc_Some_elem.
    + by apply (wf_assoc m k).
    + by apply (wf_assoc m' k).
    + done.
Qed.

Lemma value_eqb_trans u v w :
  wf_value u → wf_value v → wf_value w →
  value_eqb u v = true → value_eqb v w = true → value_eqb u w = true.
Proof.
  revert v w. induction u as [|b|n|s|l IH|m IH] using Value_ind'; intros v w Hu Hv Hw H1 H2;
    destruct v as [|b'|n'|s'|l'|m']; try done; destruct w as [|b''|n''|s''|l''|m'']; try done.
  - simpl in *. bool_inv. subst. by rewrite bool_decide_eq_true_2.
  - by apply (number_eqb_equiv n n' n'').
  - simpl in *. bool_inv. subst. by rewrite bool_decide_eq_true_2.
  - apply value_eqb_array. apply value_eqb_array in H1, H2. apply wf_array in Hu, Hv, Hw.
    revert l'' Hw H2. induction H1; intros l'' Hw H2; inversion H2; subst; constructor;
      inversion IH; inversion Hu; inversion Hv; inversion Hw; subst; eauto.
  - pose proof (proj1 (proj1 (wf_object _) Hu)). pose proof (proj1 (proj1 (wf_object _) Hv)).
    pose proof (proj1 (proj1 (wf_object _) Hw)).
    apply value_eqb_object; [done..|]. rewrite value_eqb_object in H1, H2 by done.
    intros k. specialize (H1 k). specialize (H2 k).
    destruct (assoc k m') as [y|] eqn:Hy; inversion H1 as [x y' Hxy Hx|]; subst;
      inversion H2 as [y' z Hyz Hy' Hz|]; subst; constructor.
    rewrite Forall_forall in IH. apply (IH (k, x)) with y.
    + by apply assoc_Some_elem.
    + by apply (wf_assoc m k).
    + by apply (wf_assoc m' k).
    + by apply (wf_assoc m'' k).
    + done.
    + done.
Qed.

(** Comparing a third value with either of two equal values gives the same answer. *)
Lemma value_eqb_congr u v w :
  wf_value u → wf_value v → wf_value w →
  value_eqb v w = true → value_eqb u v = value_eqb u w.
Proof.
  intros. apply eq_bool_prop_intro. split; intros Huv%Is_true_true; apply Is_true_true.
  - by apply value_eqb_trans with v.
  - apply value_eqb_trans with w; [done..|]. by apply value_eqb_sym.
Qed.

(** ** Deciding well-formedness *)

Fixpoint wf_valueb (v : Value) : bool :=
  match v with
  | VArray l => forallb wf_valueb l
  | VObject m => bool_decide (NoDup (keys m)) && forallb (λ kv, wf_valueb kv.2) m
  | _ => true
  end.

Lemma forallb_Forall_iff {A} (f : A → bool) (P : A → Prop) l :
  Forall (λ x, f x = true ↔ P x) l → forallb f l = true ↔ Forall P l.
Proof.
  induction 1 as [|x l Hx _ IH]; simpl; [by rewrite Forall_nil|].
  by rewrite andb_true_iff, Forall_cons, Hx, IH.
Qed.

Lemma wf_valueb_spec v : wf_valueb v = true ↔ wf_value v.
Proof.
  induction v as [|b|n|s|l IH|m IH] using Value_ind'; try done.
  - rewrite wf_array. by apply forallb_Forall_iff.
  - rewrite wf_object. simpl. rewrite andb_true_iff, bool_decide_eq_true.
    by rewrite (forallb_Forall_iff _ (λ kv, wf_value kv.2)).
Qed.
