(* ===== verification/Glob.v ===== *)
(** * Resource-pattern matching

    [glob_match] and [slice_eq] of [agentguard-core/src/delegation.rs]: the
    two-pointer matcher that decides whether a delegation's resource pattern
    covers a resource.  The source indexes byte slices, which panics out of
    range; [None] stands for that panic, and for running out of fuel in the two
    loops.  [glob_total] shows that neither ever happens and that the answer is
    the declarative relation [Glob]. *)

From S2P Require Import Prelude.

#[local] Open Scope nat_scope.

Definition star : ascii := "*"%char.

(** [&a[lo..hi]]: panics unless [lo <= hi <= a.len()]. *)
Definition slice {A} (a : list A) (lo hi : nat) : option (list A) :=
  if bool_decide (lo ≤ hi ∧ hi ≤ length a) then Some (take (hi - lo) (drop lo a)) else None.

(** [a_end - a_start] on [usize]: an underflow panics. *)
Definition usize_sub (a b : nat) : option nat :=
  if bool_decide (b ≤ a) then Some (a - b) else None.

Definition slice_eq (a : list ascii) (a_start a_end : nat) (b : list ascii) (b_start : nat) :
    option bool :=
  n ← usize_sub a_end a_start;
  if bool_decide (length b < b_start + n) then Some false
  else
    x ← slice a a_start a_end;
    y ← slice b b_start (b_start + n);
    Some (bool_decide (x = y)).

(** The positions of ['*'] in [pat], [i] being the position of its first byte. *)
Fixpoint star_positions (i : nat) (pat : list ascii) : list nat :=
  match pat with
  | [] => []
  | b :: pat =>
      if bool_decide (b = star) then i :: star_positions (S i) pat
      else star_positions (S i) pat
  end.

(** The inner [loop]: the first position at or after [pos] where the segment
    occurs.  [Some None] is [return false]. *)
Fixpoint find_segment (fuel : nat) (pat : list ascii) (seg_start seg_end : nat)
    (val : list ascii) (pos : nat) : option (option nat) :=
  match fuel with
  | O => None
  | S fuel =>
      seg_len ← usize_sub seg_end seg_start;
      if bool_decide (length val < pos + seg_len) then Some None
      else
        hit ← slice_eq pat seg_start seg_end val pos;
        if hit : bool then Some (Some pos)
        else find_segment fuel pat seg_start seg_end val (S pos)
  end.

(** The last segment must be a suffix of the value. *)
Definition match_last (pat val : list ascii) (seg_start seg_end seg_len vi : nat) : option bool :=
  if bool_decide (seg_len = 0) then Some true
  else if bool_decide (vi + seg_len ≤ length val) then
    from ← usize_sub (length val) seg_len;
    slice_eq pat seg_start seg_end val from
  else Some false.

(** The outer [for i in 0..n_stars], with its state [(vi, s)]. *)
Fixpoint match_segments (fuel : nat) (pat val : list ascii) (stars : list nat)
    (i : nat) (vi : nat) (s : list nat) : option bool :=
  match fuel with
  | O => None
  | S fuel =>
      if bool_decide (length stars ≤ i) then Some false
      else
        star_i ← stars !! i;
        let seg_start := star_i + 1 in
        seg_end ← (if bool_decide (i + 1 < length stars) then stars !! (i + 1)
                   else Some (length pat));
        seg_len ← usize_sub seg_end seg_start;
        if bool_decide (i + 1 = length stars) then
          match_last pat val seg_start seg_end seg_len vi
        else
          pos ← s !! i;
          found ← find_segment (S (length val)) pat seg_start seg_end val pos;
          match found with
          | None => Some false
          | Some pos =>
              let vi := pos + seg_len in
              match_segments fuel pat val stars (i + 1) vi (s ++ [vi])
          end
  end.

Definition glob_match_checked (pattern value : string) : option bool :=
  if bool_decide (pattern = "*") then Some true
  else if negb (str_contains star pattern) then Some (bool_decide (pattern = value))
  else
    let pat := String.list_ascii_of_string pattern in
    let val := String.list_ascii_of_string value in
    let stars := star_positions 0 pat in
    p0_end ← stars !! 0;
    prefix ← slice_eq pat 0 p0_end val 0;
    if negb prefix then Some false
    else match_segments (S (length stars)) pat val stars 0 p0_end [p0_end].

(** The function the rest of the code calls; the default is never taken. *)
Definition glob_match (pattern value : string) : bool :=
  default false (glob_match_checked pattern value).

(** ** What a pattern means *)

Inductive Glob : list ascii → list ascii → Prop :=
| Glob_nil : Glob [] []
| Glob_lit c p v : c ≠ star → Glob p v → Glob (c :: p) (c :: v)
| Glob_star p u v : Glob p v → Glob (star :: p) (u ++ v).

Definition glob_matches (pattern value : string) : Prop :=
  Glob (String.list_ascii_of_string pattern) (String.list_ascii_of_string value).

(** ** The relation, segment by segment *)

Lemma Glob_star_inv p v :
  Glob (star :: p) v ↔ ∃ u w, v = u ++ w ∧ Glob p w.
Proof.
  split.
  - inversion 1; subst; [done|eauto].
  - intros (u & w & -> & ?). by constructor.
Qed.

Lemma Glob_literal s q v :
  star ∉ s → Glob (s ++ q) v ↔ ∃ w, v = s ++ w ∧ Glob q w.
Proof.
  revert v; induction s as [|c s IH]; intros v Hs; simpl.
  { naive_solver. }
  apply not_elem_of_cons in Hs as [Hc Hs]. split.
  - inversion 1; subst; [|done].
    match goal with H : Glob (s ++ q) _ |- _ => apply IH in H as (w & -> & ?); [|done] end. eauto.
  - intros (w & -> & ?). constructor; [done|]. apply IH; eauto.
Qed.

Lemma Glob_literal_only s v : star ∉ s → Glob s v ↔ v = s.
Proof.
  intros Hs. rewrite <-(app_nil_r s) at 1. rewrite Glob_literal by done. split.
  - intros (w & -> & Hw). inversion Hw. by rewrite app_nil_r.
  - intros ->. exists []. rewrite app_nil_r. split; [done|constructor].
Qed.

(** A leading star absorbs any prefix. *)
Lemma Glob_star_mono p u v : Glob (star :: p) v → Glob (star :: p) (u ++ v).
Proof.
  rewrite !Glob_star_inv. intros (u' & w & -> & ?). exists (u ++ u'), w.
  by rewrite app_assoc.
Qed.

(** ** The index arithmetic *)

(** [seg] occurs in [val] at position [pos]. *)
Definition occurs_at (seg val : list ascii) (pos : nat) : Prop :=
  ∃ u w, val = u ++ seg ++ w ∧ length u = pos.

Lemma occurs_at_drop seg val pos :
  occurs_at seg val pos ↔ pos ≤ length val ∧ ∃ w, drop pos val = seg ++ w.
Proof.
  split.
  - intros (u & w & -> & <-). rewrite length_app. split; [lia|].
    exists w. by rewrite drop_app_length.
  - intros [? [w Hw]]. exists (take pos val), w.
    rewrite <-Hw, take_drop, length_take. split; [done|lia].
Qed.

Lemma usize_sub_le a b : b ≤ a → usize_sub a b = Some (a - b).
Proof. intros. unfold usize_sub. by rewrite bool_decide_eq_true_2. Qed.

Lemma usize_sub_add a b : usize_sub (a + b) a = Some b.
Proof. rewrite usize_sub_le by lia. f_equal. lia. Qed.

Lemma slice_le {A} (a : list A) lo n :
  lo + n ≤ length a → slice a lo (lo + n) = Some (take n (drop lo a)).
Proof.
  intros. unfold slice. rewrite bool_decide_eq_true_2 by lia.
  do 2 f_equal. lia.
Qed.

Lemma slice_eq_spec pat u seg w val pos :
  pat = u ++ seg ++ w →
  ∃ b, slice_eq pat (length u) (length u + length seg) val pos = Some b ∧
       (b = true ↔ occurs_at seg val pos).
Proof.
  intros ->. unfold slice_eq. rewrite usize_sub_add. simpl.
  setoid_rewrite occurs_at_drop. case_bool_decide as Hlen.
  { exists false. split; [done|]. split; [done|].
    intros [Hpos [w' Hw]]. apply (f_equal length) in Hw.
    rewrite length_drop, length_app in Hw. lia. }
  rewrite !slice_le by (rewrite ?length_app; lia). simpl.
  eexists. split; [done|].
  rewrite drop_app_length, take_app_length, bool_decide_eq_true. split.
  - intros Hseg. split; [lia|]. exists (drop (length seg) (drop pos val)).
    rewrite Hseg at 1. by rewrite take_drop.
  - intros [_ [w' Hw]]. rewrite Hw. by rewrite take_app_length.
Qed.

Lemma occurs_at_bound seg val pos : occurs_at seg val pos → pos + length seg ≤ length val.
Proof. intros (u & w & -> & <-). rewrite !length_app. lia. Qed.

(** The inner loop terminates and returns the leftmost occurrence. *)
Lemma find_segment_spec fuel pat u seg w val pos :
  pat = u ++ seg ++ w →
  length val - pos < fuel →
  ∃ r, find_segment fuel pat (length u) (length u + length seg) val pos = Some r ∧
    match r with
    | Some k => pos ≤ k ∧ occurs_at seg val k ∧ ∀ j, pos ≤ j < k → ¬ occurs_at seg val j
    | None => ∀ j, pos ≤ j → ¬ occurs_at seg val j
    end.
Proof.
  intros Hpat. revert pos. induction fuel as [|fuel IH]; intros pos Hfuel; simpl; [lia|].
  rewrite usize_sub_add. simpl. case_bool_decide as Hlen.
  { exists None. split; [done|]. intros j ? ?%occurs_at_bound. lia. }
  destruct (slice_eq_spec pat u seg w val pos Hpat) as ([] & -> & Hb); simpl.
  { exists (Some pos). split; [done|]. split; [done|]. split; [by apply Hb|lia]. }
  assert (Hne : ¬ occurs_at seg val pos) by (intros ?%Hb; done).
  assert (length seg ≠ 0).
  { intros Hseg%length_zero_iff_nil. apply Hne. rewrite Hseg.
    exists (take pos val), (drop pos val). simpl.
    rewrite take_drop, length_take. split; [done|lia]. }
  destruct (IH (S pos)) as (r & -> & Hr); [lia|]. exists r. split; [done|].
  destruct r as [k|].
  - destruct Hr as (? & ? & Hr). split; [lia|]. split; [done|].
    intros j ?. destruct (decide (j = pos)) as [->|]; [done|]. apply Hr. lia.
  - intros j ?. destruct (decide (j = pos)) as [->|]; [done|]. apply Hr. lia.
Qed.

#[local] Arguments find_segment : simpl never.

Lemma star_positions_literal i s p :
  star ∉ s → star_positions i (s ++ p) = star_positions (i + length s) p.
Proof.
  revert i; induction s as [|c s IH]; intros i Hs; simpl; [f_equal; lia|].
  apply not_elem_of_cons in Hs as [? ?].
  rewrite bool_decide_eq_false_2 by done. rewrite IH by done. f_equal; lia.
Qed.

(** Every pattern is a literal, or a literal followed by a star. *)
Lemma literal_or_star p :
  star ∉ p ∨ ∃ s q, p = s ++ star :: q ∧ star ∉ s.
Proof.
  induction p as [|c p IH]; [left; apply not_elem_of_nil|].
  destruct (decide (c = star)) as [->|].
  { right. exists [], p. split; [done|apply not_elem_of_nil]. }
  destruct IH as [?|(s & q & -> & ?)].
  - left. by apply not_elem_of_cons.
  - right. exists (c :: s), q. split; [done|]. by apply not_elem_of_cons.
Qed.

Lemma star_positions_none i p : star ∉ p → star_positions i p = [].
Proof. intros. rewrite <-(app_nil_r p). by rewrite star_positions_literal. Qed.

(** After a star, the leftmost occurrence of the next literal is as good as any. *)
Lemma Glob_leftmost seg q val vi k :
  star ∉ seg → vi ≤ k → occurs_at seg val k →
  (∀ j, vi ≤ j < k → ¬ occurs_at seg val j) →
  Glob (star :: seg ++ star :: q) (drop vi val) ↔ Glob (star :: q) (drop (k + length seg) val).
Proof.
  intros Hseg Hk (u & w & -> & Hu) Hleft.
  rewrite (app_assoc u), (drop_app_length' (u ++ seg) w (k + length seg))
    by (rewrite length_app; lia).
  rewrite <-app_assoc, drop_app_le by lia. rewrite Glob_star_inv.
  setoid_rewrite Glob_literal; [|done..]. split.
  - intros (u' & w' & Heq & z & -> & Hz).
    assert (k ≤ vi + length u') as Hj.
    { apply Nat.nlt_ge. intros ?. apply (Hleft (vi + length u')); [lia|].
      exists (take vi u ++ u'), z. rewrite length_app, length_take. split; [|lia].
      rewrite <-(take_drop vi u) at 1. rewrite <-!app_assoc. by rewrite Heq. }
    apply (f_equal (drop (length (drop vi u ++ seg)))) in Heq as Hw.
    rewrite app_assoc, drop_app_length in Hw. rewrite Hw.
    rewrite app_assoc, length_app, length_drop.
    assert (∃ y, drop (length u - vi + length seg) ((u' ++ seg) ++ z) = y ++ z) as [y ->].
    { exists (drop (length u - vi + length seg) (u' ++ seg)).
      apply drop_app_le. rewrite length_app. lia. }
    by apply Glob_star_mono.
  - intros Hw. exists (drop vi u), (seg ++ w). split; [done|]. eauto.
Qed.

Lemma match_last_spec pre q val vi :
  star ∉ q → vi ≤ length val →
  ∃ b, match_last (pre ++ q) val (length pre) (length pre + length q) (length q) vi = Some b ∧
       (b = true ↔ Glob (star :: q) (drop vi val)).
Proof.
  intros Hq Hle. unfold match_last.
  setoid_rewrite Glob_star_inv. setoid_rewrite Glob_literal_only; [|done].
  case_bool_decide as Hq0.
  { apply length_zero_iff_nil in Hq0 as ->. exists true. split; [done|]. split; [|done].
    intros _. exists (drop vi val), []. by rewrite app_nil_r. }
  case_bool_decide as Hlen.
  + rewrite usize_sub_le by lia. simpl.
    destruct (slice_eq_spec (pre ++ q) pre q [] val (length val - length q)) as (b & -> & Hb).
    { by rewrite app_nil_r. }
    exists b. split; [done|]. rewrite Hb. split.
    * intros (u & w & -> & Hu). rewrite !length_app in Hu, Hlen.
      assert (w = []) as -> by (apply length_zero_iff_nil; lia). rewrite app_nil_r.
      exists (drop vi u), q. simpl in Hlen. by rewrite drop_app_le by lia.
    * intros (u & w & Hv & ->). exists (take vi val ++ u), [].
      rewrite app_nil_r, <-app_assoc, <-Hv, take_drop. split; [done|].
      apply (f_equal length) in Hv. rewrite length_drop, !length_app in *.
      rewrite length_take. lia.
  + exists false. split; [done|]. split; [done|].
    intros (u & w & Hv & ->). apply (f_equal length) in Hv.
    rewrite length_drop, length_app in Hv. lia.
Qed.

(** The outer loop, entered after the star that ends [pre], decides whether the
    rest of the pattern matches the rest of the value. *)
Lemma match_segments_spec fuel pre q val stars i st vi s :
  length stars - i < fuel →
  stars !! i = Some st → length pre = st + 1 →
  drop (S i) stars = star_positions (length pre) q →
  s !! i = Some vi → length s = S i → vi ≤ length val →
  ∃ b, match_segments fuel (pre ++ q) val stars i vi s = Some b ∧
       (b = true ↔ Glob (star :: q) (drop vi val)).
Proof.
  revert pre q i st vi s.
  induction fuel as [|fuel IH]; intros pre q i st vi s Hfuel Hst Hpre Hstars Hvi Hs Hle; [lia|].
  pose proof (lookup_lt_Some _ _ _ Hst) as Hi. simpl.
  rewrite (bool_decide_eq_false_2 (length stars ≤ i)) by lia. rewrite Hst. simpl. rewrite <-Hpre.
  destruct (literal_or_star q) as [Hq|(seg & q' & -> & Hseg)].
  - (* last segment *)
    rewrite star_positions_none in Hstars by done.
    apply (f_equal length) in Hstars. rewrite length_drop in Hstars. simpl in Hstars.
    rewrite (bool_decide_eq_false_2 (i + 1 < length stars)) by lia. simpl.
    rewrite length_app, usize_sub_add. simpl.
    rewrite (bool_decide_eq_true_2 (i + 1 = length stars)) by lia.
    by apply match_last_spec.
  - (* a middle segment *)
    rewrite star_positions_literal in Hstars by done. simpl in Hstars.
    assert (stars !! (i + 1) = Some (length pre + length seg)) as Hnext.
    { replace (i + 1) with (S i + 0) by lia. rewrite <-lookup_drop, Hstars. done. }
    pose proof (lookup_lt_Some _ _ _ Hnext).
    rewrite (bool_decide_eq_true_2 (i + 1 < length stars)) by lia. rewrite Hnext. simpl.
    rewrite usize_sub_add. simpl.
    rewrite (bool_decide_eq_false_2 (i + 1 = length stars)) by lia. rewrite Hvi. cbn [mbind option_bind].
    destruct (find_segment_spec (S (length val)) (pre ++ seg ++ star :: q') pre seg (star :: q')
                val vi) as (r & -> & Hr); [done|lia|]. simpl.
    destruct r as [k|].
    + destruct Hr as (Hk & Hocc & Hleft).
      destruct (IH (pre ++ seg ++ [star]) q' (i + 1) (length pre + length seg)
                  (k + length seg) (s ++ [k + length seg])) as (b & Hb & Hspec).
      * lia.
      * done.
      * rewrite !length_app. simpl. lia.
      * rewrite !length_app. simpl. replace (S (i + 1)) with (S i + 1) by lia.
        rewrite <-drop_drop, Hstars. simpl. rewrite drop_0. f_equal. lia.
      * rewrite lookup_app_r by lia. by replace (i + 1 - length s) with 0 by lia.
      * rewrite length_app. simpl. lia.
      * by apply occurs_at_bound.
      * exists b. rewrite <-!app_assoc in Hb. simpl in Hb. split; [done|].
        rewrite Hspec. symmetry. by apply Glob_leftmost.
    + exists false. split; [done|]. split; [done|].
      rewrite Glob_star_inv. intros (u & w & Hv & Hw).
      apply Glob_literal in Hw as (z & -> & Hz); [|done]. exfalso.
      apply (Hr (vi + length u)); [lia|]. exists (take vi val ++ u), z.
      rewrite <-app_assoc, <-Hv, take_drop, length_app, length_take. split; [done|lia].
Qed.

Lemma list_ascii_of_string_inj s t :
  String.list_ascii_of_string s = String.list_ascii_of_string t → s = t.
Proof.
  intros H. rewrite <-(String.string_of_list_ascii_of_string s), H.
  apply String.string_of_list_ascii_of_string.
Qed.

(** The matcher returns (no panic, no divergence), with the meaning of the
    pattern. *)
Lemma glob_match_checked_spec pattern value :
  ∃ b, glob_match_checked pattern value = Some b ∧
       (b = true ↔ glob_matches pattern value).
Proof.
  unfold glob_match_checked, glob_matches. case_bool_decide as Hstar.
  { exists true. subst. split; [done|]. split; [|done]. intros _. simpl.
    apply Glob_star_inv. eexists _, []. rewrite app_nil_r. split; [done|constructor]. }
  destruct (str_contains star pattern) eqn:Hc; simpl.
  2: { eexists. split; [done|]. rewrite bool_decide_eq_true.
       rewrite Glob_literal_only; [split; [by intros ->|]|].
       - intros H. symmetry. by apply list_ascii_of_string_inj.
       - intros Hin%str_contains_elem. congruence. }
  apply str_contains_elem in Hc.
  destruct (literal_or_star (String.list_ascii_of_string pattern)) as [?|(s & q & Hp & Hs)];
    [done|].
  rewrite Hp. set (val := String.list_ascii_of_string value).
  rewrite star_positions_literal by done. simpl.
  destruct (slice_eq_spec (s ++ star :: q) [] s (star :: q) val 0) as ([] & Hb & Hspec);
    [done| |]; simpl in Hb; rewrite Hb; cbn [mbind option_bind negb].
  - destruct (proj1 Hspec eq_refl) as (u & w & Hv & Hu%length_zero_iff_nil). subst u.
    simpl in Hv.
    pose proof (match_segments_spec (S (length (length s :: star_positions (S (length s)) q)))
      (s ++ [star]) q val (length s :: star_positions (S (length s)) q) 0 (length s)
      (length s) [length s]) as (b & Hb' & Hb''); try done.
    + simpl. lia.
    + rewrite length_app. simpl. lia.
    + simpl. rewrite drop_0, length_app. simpl. f_equal. lia.
    + rewrite Hv, length_app. lia.
    + rewrite <-app_assoc in Hb'. exists b. split; [done|]. rewrite Hb''.
      rewrite Hv, drop_app_length, Glob_literal by done. split.
      * eauto.
      * intros (w' & Hw' & ?). by simplify_list_eq.
  - exists false. split; [done|]. split; [done|].
    intros (w & Hv & _)%Glob_literal; [|done].
    apply Hspec. exists [], w. done.
Qed.

(** C29: [glob_match] returns on every input: none of its slice accesses is out of
    range and both of its loops end.  Its answer is the meaning of the pattern:
    literal bytes match themselves and each star matches any byte sequence. *)
Theorem glob_match_correct pattern value :
  glob_match_checked pattern value = Some (glob_match pattern value) ∧
  (glob_match pattern value = true ↔ glob_matches pattern value).
Proof.
  destruct (glob_match_checked_spec pattern value) as (b & Hb & Hspec).
  unfold glob_match. by rewrite Hb.
Qed.

Lemma glob_match_spec pattern value :
  glob_match pattern value = true ↔ glob_matches pattern value.
Proof.
  destruct (glob_match_checked_spec pattern value) as (b & Hb & Hspec).
  unfold glob_match. by rewrite Hb.
Qed.

(** A pattern without a star matches only itself. *)
Lemma glob_match_literal pattern value :
  str_contains star pattern = false → glob_match pattern value = bool_decide (pattern = value).
Proof.
  intros Hp. unfold glob_match, glob_match_checked. case_bool_decide as Hs.
  { by subst. }
  by rewrite Hp.
Qed.
