(* ===== verification/Ids.v ===== *)
(** * Identifiers and time ([agentguard-core/src/ids.rs] and [ttl.rs])

    The three wrappers of [String] that keep principals, actions and resources apart, and the
    clocks.  The rest of the library keeps identifiers as strings and takes clock readings as
    arguments. *)

From S2P Require Import Prelude Json.

(** ** Identifiers *)

Record PrincipalId : Type := mkPrincipalId { principal_text : string }.
Record ActionId : Type := mkActionId { action_text : string }.
Record ResourceId : Type := mkResourceId { resource_text : string }.

(** What the three types have in common: [new] and [From], [Deref], [AsRef] and [Display], and
    the transparent [Serialize] and [Deserialize]. *)
Class Ident (A : Type) := {
  ident_new : string → A;
  ident_deref : A → string;
  ident_to_value : A → Value;
  ident_of_value : Value → option A;
}.

#[export] Instance principal_ident : Ident PrincipalId := {|
  ident_new := mkPrincipalId; ident_deref := principal_text;
  ident_to_value i := VString (principal_text i); ident_of_value v := mkPrincipalId <$> as_str v |}.
#[export] Instance action_ident : Ident ActionId := {|
  ident_new := mkActionId; ident_deref := action_text;
  ident_to_value i := VString (action_text i); ident_of_value v := mkActionId <$> as_str v |}.
#[export] Instance resource_ident : Ident ResourceId := {|
  ident_new := mkResourceId; ident_deref := resource_text;
  ident_to_value i := VString (resource_text i); ident_of_value v := mkResourceId <$> as_str v |}.

(** An identifier is its text, in memory and on the wire. *)
Class IdentLaws (A : Type) `{Ident A} : Prop := {
  ident_text s : ident_deref (ident_new s) = s;
  ident_eq i : ident_new (ident_deref i) = i;
  ident_wire i : ident_to_value i = VString (ident_deref i);
  ident_read v : ident_of_value v = ident_new <$> as_str v;
}.
#[export] Instance principal_ident_laws : IdentLaws PrincipalId.
Proof. split; try done. by intros []. Qed.
#[export] Instance action_ident_laws : IdentLaws ActionId.
Proof. split; try done. by intros []. Qed.
#[export] Instance resource_ident_laws : IdentLaws ResourceId.
Proof. split; try done. by intros []. Qed.

(** Only the types keep the three apart: on the wire any of them reads as any other, with the
    same text. *)
Theorem idents_interchange {A B} `{IdentLaws A, IdentLaws B} (i : A) :
  ∃ j : B, ident_of_value (ident_to_value i) = Some j ∧ ident_deref j = ident_deref i ∧
    ident_of_value (ident_to_value j) = Some i.
Proof.
  exists (ident_new (ident_deref i)). rewrite ident_wire, !ident_read. split; [done|].
  split; [apply ident_text|]. rewrite ident_wire, ident_text. cbn [as_str fmap option_fmap option_map]. by rewrite ident_eq.
Qed.

(** ** Clocks *)

(** Times are in nanoseconds: an [Instant] since some origin, a [SystemTime] since the epoch. *)
Definition nanos_per_sec : Z := 1000000000.

(** [d.as_secs() as i64] of a [Duration]. *)
Definition as_secs_i64 (d : Z) : Z := i64_wrap (d / nanos_per_sec).

(** The trait [Clock]; [T] is what the operating system has to say. *)
Class Clock (C T : Type) := {
  clock_now : C → T → Z;
  unix_now : C → T → Z;
}.

Record os_time : Type := mkOsTime { os_instant : Z; os_system : Z }.
Inductive SystemClock : Type := mkSystemClock.

(** [SystemTime::now().duration_since(UNIX_EPOCH)] fails before the epoch. *)
Definition system_unix_now (t : os_time) : Z := if os_system t <? 0 then 0 else as_secs_i64 (os_system t).
#[export] Instance system_clock : Clock SystemClock os_time := {|
  clock_now _ t := os_instant t; unix_now _ t := system_unix_now t |}.

(** [agentguard_policy::now_unix] *)
Definition now_unix (t : os_time) : Z := if os_system t <? 0 then 0 else as_secs_i64 (os_system t).

Record MockClock : Type := mkMockClock { inner : Z; unix_inner : Z }.
#[export] Instance mock_clock : Clock MockClock unit := {| clock_now c _ := inner c; unix_now c _ := unix_inner c |}.

Definition mock_new (t : os_time) : MockClock := mkMockClock (os_instant t) 0.
Definition set_unix (c : MockClock) (t : Z) : MockClock := mkMockClock (inner c) t.

(** [advance_unix]; [max] is the last [Instant] the platform has.  [None] is the panic of [+=]
    on overflow; the other clock has not moved then. *)
Definition advance_unix (max : Z) (c : MockClock) (d : Z) : option MockClock :=
  let t := unix_inner c + as_secs_i64 d in
  if bool_decide (in_i64 t) then
    Some (mkMockClock (if inner c + d <=? max then inner c + d else inner c) t)
  else None.

Fixpoint advance_all (max : Z) (c : MockClock) (ds : list Z) : option MockClock :=
  match ds with
  | [] => Some c
  | d :: ds => c ← advance_unix max c d; advance_all max c ds
  end.

(** The time of the epoch in whole seconds never runs ahead of the system, nor backwards when
    the system does not. *)
Lemma system_unix_bounds t :
  0 ≤ os_system t < 2 ^ 63 * nanos_per_sec →
  system_unix_now t * nanos_per_sec ≤ os_system t < (system_unix_now t + 1) * nanos_per_sec.
Proof.
  unfold nanos_per_sec. intros Ht. unfold system_unix_now. rewrite (proj2 (Z.ltb_ge _ _)) by lia. unfold as_secs_i64, nanos_per_sec.
  assert (0 ≤ os_system t / 1000000000 < 2 ^ 63).
  { split; [apply Z.div_pos; lia|apply Z.div_lt_upper_bound; lia]. }
  rewrite i64_wrap_id by (unfold_ints; lia). pose proof (Z.mul_div_le (os_system t) nanos_per_sec).
  pose proof (Z.mul_succ_div_gt (os_system t) nanos_per_sec). unfold nanos_per_sec in *. lia.
Qed.

Theorem system_unix_monotone t t' :
  os_system t ≤ os_system t' < 2 ^ 63 * nanos_per_sec → 0 ≤ system_unix_now t ≤ system_unix_now t'.
Proof.
  intros Ht. assert (Hnn : 0 < nanos_per_sec) by done.
  destruct (Z.lt_ge_cases (os_system t') 0) as [Hneg'|Hpos'].
  { unfold system_unix_now. rewrite !(proj2 (Z.ltb_lt _ _)) by lia. lia. }
  pose proof (system_unix_bounds t' ltac:(lia)). destruct (Z.lt_ge_cases (os_system t) 0) as [Hneg|Hpos].
  - unfold system_unix_now at 1 2. rewrite (proj2 (Z.ltb_lt (os_system t) 0)) by lia. split; [lia|]. nia.
  - pose proof (system_unix_bounds t ltac:(lia)). nia.
Qed.

(** The clock for tests: the seconds it shows fall behind its instants, by less than a second
    for each advance, as each drops its part of a second. *)
Theorem mock_clock_lags max ds c c' :
  Forall (λ d, 0 ≤ d < 2 ^ 63 * nanos_per_sec) ds → inner c + foldr Z.add 0 ds ≤ max →
  advance_all max c ds = Some c' →
  inner c' = inner c + foldr Z.add 0 ds ∧
  0 ≤ (inner c' - inner c) - (unix_inner c' - unix_inner c) * nanos_per_sec ≤ Z.of_nat (length ds) * (nanos_per_sec - 1).
Proof.
  intros Hds. revert c. induction Hds as [|d ds Hd Hds IH]; intros c Hmax; cbn [advance_all foldr length].
  { intros [= <-]. lia. }
  assert (Hsum : 0 ≤ foldr Z.add 0 ds). { clear -Hds. induction Hds as [|d ds Hd _ IH]; simpl; lia. }
  unfold advance_unix. cbn [foldr] in Hmax. case_bool_decide as Hr; [|done]. cbn [mbind option_bind].
  rewrite (proj2 (Z.leb_le _ _)) by lia. intros Hrun. apply IH in Hrun as [Hi Hlag]; [|simpl; lia]. cbn [inner unix_inner] in *.
  unfold as_secs_i64 in *. assert (0 ≤ d / nanos_per_sec < 2 ^ 63).
  { unfold nanos_per_sec in *. split; [apply Z.div_pos; lia|apply Z.div_lt_upper_bound; lia]. }
  rewrite i64_wrap_id in * by (unfold_ints; lia).
  pose proof (Z.div_mod d nanos_per_sec ltac:(done)). pose proof (Z.mod_pos_bound d nanos_per_sec ltac:(done)).
  split; [lia|]. unfold nanos_per_sec in *. lia.
Qed.

(** Two advances by 600 ms move the instants by 1.2 s and the seconds not at all. *)
Example mock_clock_lags_witness :
  ∃ c, advance_all (2 ^ 62) (mkMockClock 0 100) [600000000; 600000000] = Some c ∧ inner c = 1200000000 ∧ unix_inner c = 100.
Proof.
  eexists. split; [by vm_compute|].
  pose proof (mock_clock_lags (2 ^ 62) [600000000; 600000000] (mkMockClock 0 100) (mkMockClock 1200000000 100)
    ltac:(repeat constructor; done) ltac:(done) ltac:(by vm_compute)) as [Hi _]. by split.
Defined.

(** ** Durations *)

(** [humantime::Duration::from_str], with the text of its error, and [humantime::format_duration]. *)
Class DurationText := {
  humantime_from_str : string → result string Z;
  humantime_format : Z → string;
}.

(** [TtlParseError] shows as [invalid duration: ...]. *)
Definition parse_duration `{DurationText} (s : string) : result string Z :=
  map_err (λ e, "invalid duration: " +:+ e) (humantime_from_str s).
Definition format_duration `{DurationText} (d : Z) : string := humantime_format d.
