(* ===== verification/Constraint.v ===== *)
(** * Structured delegation constraints

    [ConstraintExpr], [lookup], [evaluate] and [has_typed_inputs] of
    [agentguard-core/src/delegation.rs]: boolean expressions over the facts of a
    request, addressed by dotted paths. *)

From S2P Require Import Prelude Json Glob.

(** [#[serde(tag = "op", rename_all = "snake_case")] enum ConstraintExpr] *)
Inductive ConstraintExpr : Type :=
| CEquals (path : string) (value : Value)
| CIn (path : string) (values : list Value)
| CGreaterThan (path : string) (value : Z)
| CLessThan (path : string) (value : Z)
| CGlob (path : string) (pattern : string)
| CAnd (all : list ConstraintExpr)
| COr (any : list ConstraintExpr)
| CNot (inner : ConstraintExpr).

Section ConstraintExpr_induction.
Variable P : ConstraintExpr → Prop.
Hypothesis HEquals : ∀ p v, P (CEquals p v).
Hypothesis HIn : ∀ p vs, P (CIn p vs).
Hypothesis HGreater : ∀ p z, P (CGreaterThan p z).
Hypothesis HLess : ∀ p z, P (CLessThan p z).
Hypothesis HGlob : ∀ p g, P (CGlob p g).
Hypothesis HAnd : ∀ l, Forall P l → P (CAnd l).
Hypothesis HOr : ∀ l, Forall P l → P (COr l).
Hypothesis HNot : ∀ e, P e → P (CNot e).

Fixpoint ConstraintExpr_ind' (e : ConstraintExpr) : P e :=
  let go := fix go (l : list ConstraintExpr) : Forall P l :=
    match l with
    | [] => Forall_nil_2 _
    | x :: l => Forall_cons_2 _ x l (ConstraintExpr_ind' x) (go l)
    end in
  match e with
  | CEquals p v => HEquals p v
  | CIn p vs => HIn p vs
  | CGreaterThan p z => HGreater p z
  | CLessThan p z => HLess p z
  | CGlob p g => HGlob p g
  | CAnd l => HAnd l (go l)
  | COr l => HOr l (go l)
  | CNot e => HNot e (ConstraintExpr_ind' e)
  end.
End ConstraintExpr_induction.

Record ConstraintSet : Type := { expressions : list ConstraintExpr }.

(** ** Walking a dotted path *)

Definition dot : ascii := "."%char.

(** The scan of [lookup]: [start] is where the current segment begins, [i] the
    byte under the cursor, [rest] the bytes from [i] on.  A path is a [&str] cut at
    ASCII dots, so [from_utf8] on a segment always succeeds. *)
Fixpoint lookup_from (path : string) (cur : Value) (start i : nat) (rest : string) : option Value :=
  match rest with
  | EmptyString =>
      if bool_decide (start = String.length path) then None
      else get cur (String.substring start (String.length path - start) path)
  | String b rest =>
      if bool_decide (b = dot) then
        if bool_decide (start = i) then None
        else cur ← get cur (String.substring start (i - start) path);
             lookup_from path cur (S i) (S i) rest
      else lookup_from path cur start (S i) rest
  end.

Definition lookup (root : Value) (path : string) : option Value :=
  lookup_from path root 0 0 path.

(** ** Evaluation *)

Fixpoint has_typed_inputs (e : ConstraintExpr) (root : Value) : bool :=
  match e with
  | CEquals path _ | CIn path _ => bool_decide (is_Some (lookup root path))
  | CGreaterThan path _ | CLessThan path _ =>
      bool_decide (is_Some (lookup root path ≫= as_i64))
  | CGlob path _ => bool_decide (is_Some (lookup root path ≫= as_str))
  | CAnd l | COr l => forallb (λ e, has_typed_inputs e root) l
  | CNot e => has_typed_inputs e root
  end.

Fixpoint evaluate (e : ConstraintExpr) (root : Value) : bool :=
  match e with
  | CEquals path value => default false ((λ v, value_eqb v value) <$> lookup root path)
  | CIn path values =>
      default false ((λ v, existsb (λ x, value_eqb x v) values) <$> lookup root path)
  | CGreaterThan path value =>
      default false ((λ x, bool_decide (value < x)) <$> (lookup root path ≫= as_i64))
  | CLessThan path value =>
      default false ((λ x, bool_decide (x < value)) <$> (lookup root path ≫= as_i64))
  | CGlob path pattern =>
      default false ((λ s, glob_match pattern s) <$> (lookup root path ≫= as_str))
  | CAnd l => forallb (λ e, evaluate e root) l
  | COr l => existsb (λ e, evaluate e root) l
  | CNot e => negb (evaluate e root)
  end.

(** The test [VerifiedDelegation::allows] applies to each expression. *)
Definition constraint_holds (root : Value) (e : ConstraintExpr) : bool :=
  has_typed_inputs e root && evaluate e root.

(** ** [serde_json::to_value] of an expression *)

Fixpoint expr_to_value (e : ConstraintExpr) : Value :=
  match e with
  | CEquals path value =>
      VObject [("op", VString "equals"); ("path", VString path); ("value", value)]
  | CIn path values =>
      VObject [("op", VString "in"); ("path", VString path); ("values", VArray values)]
  | CGreaterThan path value =>
      VObject [("op", VString "greater_than"); ("path", VString path);
               ("value", VNumber (number_of_i64 value))]
  | CLessThan path value =>
      VObject [("op", VString "less_than"); ("path", VString path);
               ("value", VNumber (number_of_i64 value))]
  | CGlob path pattern =>
      VObject [("op", VString "glob"); ("path", VString path); ("pattern", VString pattern)]
  | CAnd l => VObject [("op", VString "and"); ("all", VArray (expr_to_value <$> l))]
  | COr l => VObject [("op", VString "or"); ("any", VArray (expr_to_value <$> l))]
  | CNot e => VObject [("op", VString "not"); ("inner", expr_to_value e)]
  end.

(** The values inside an expression are maps with distinct keys. *)
Fixpoint wf_expr (e : ConstraintExpr) : Prop :=
  match e with
  | CEquals _ v => wf_value v
  | CIn _ vs => Forall wf_value vs
  | CAnd l | COr l =>
      (fix go l := match l with [] => True | e :: l => wf_expr e ∧ go l end) l
  | CNot e => wf_expr e
  | _ => True
  end.

Lemma wf_exprs (l : list ConstraintExpr) :
  (fix go l := match l with [] => True | e :: l => wf_expr e ∧ go l end) l ↔ Forall wf_expr l.
Proof. induction l as [|? ? IH]; [by rewrite Forall_nil|]. by rewrite Forall_cons, <-IH. Qed.

(** ** The path walk against its reference *)

(** The reference: cut at the dots, then descend, an empty segment failing. *)
Fixpoint walk (cur : Value) (segs : list string) : option Value :=
  match segs with
  | [] => Some cur
  | seg :: segs =>
      if bool_decide (seg = EmptyString) then None
      else next ← get cur seg; walk next segs
  end.

(** [start..i] holds [seg]: scanning on is walking the split of [seg +:+ rest]. *)
Lemma lookup_from_walk rest pre seg cur :
  str_contains dot seg = false →
  lookup_from (pre +:+ seg +:+ rest) cur (String.length pre)
    (String.length pre + String.length seg) rest = walk cur (split dot (seg +:+ rest)).
Proof.
  revert pre seg cur. induction rest as [|b rest IH]; intros pre seg cur Hseg; cbn [lookup_from].
  - rewrite string_app_nil_r, split_none by done. simpl. rewrite string_length_app.
    rewrite (bool_decide_ext _ (seg = "")) by (rewrite <-string_length_0; lia).
    case_bool_decide; [done|].
    replace (String.length pre + String.length seg - String.length pre)%nat
      with (String.length seg) by lia.
    rewrite substring_suffix. by destruct (get cur seg).
  - case_bool_decide as Hb.
    + subst b. rewrite split_app by done. simpl.
      rewrite (bool_decide_ext _ (seg = "")) by (rewrite <-string_length_0; lia).
      case_bool_decide; [done|].
      replace (String.length pre + String.length seg - String.length pre)%nat
        with (String.length seg) by lia.
      rewrite substring_middle. destruct (get cur seg) as [next|]; simpl; [|done].
      pose proof (IH (pre +:+ seg +:+ ".") "" next eq_refl) as IH'. simpl in IH'.
      rewrite <-IH', !string_length_app, <-!string_app_assoc. simpl. f_equal; lia.
    + pose proof (IH pre (seg +:+ String b "") cur) as IH'.
      rewrite str_contains_app, Hseg in IH'. simpl in IH'.
      rewrite <-string_app_assoc, string_length_app in IH'. simpl in IH'.
      rewrite <-IH'.
      * f_equal; lia.
      * by rewrite bool_decide_eq_false_2.
Qed.

Lemma lookup_walk root path : lookup root path = walk root (split dot path).
Proof. apply (lookup_from_walk path "" "" root eq_refl). Qed.

(** [lookup], which scans the path once and cuts segments out by index, is the
    walk along [path.split('.')] in which an empty segment fails. *)
Theorem lookup_is_walk root path : lookup root path = walk root (split dot path).
Proof. apply lookup_walk. Qed.

(** ** Constraints are fail-closed *)

(** [facts'] knows everything that [facts] knows. *)
Definition more_facts (facts facts' : Value) : Prop :=
  ∀ path v, lookup facts path = Some v → lookup facts' path = Some v.

Lemma more_facts_object m m' :
  (∀ k v, assoc k m = Some v → assoc k m' = Some v) → more_facts (VObject m) (VObject m').
Proof.
  intros Hm path v. rewrite !lookup_walk. destruct (split dot path) as [|seg segs] eqn:Hp.
  { by apply split_nonempty in Hp. }
  simpl. case_bool_decide; [done|].
  destruct (assoc seg m) as [next|] eqn:Hnext; simpl; [|done]. by rewrite (Hm _ _ Hnext).
Qed.

Lemma more_facts_bind {A} facts facts' path (f : Value → option A) a :
  more_facts facts facts' →
  lookup facts path ≫= f = Some a → lookup facts' path ≫= f = Some a.
Proof.
  intros Hmore. destruct (lookup facts path) as [v|] eqn:Hv; [|done].
  simpl. by rewrite (Hmore _ _ Hv).
Qed.

Lemma typed_inputs_stable e facts facts' :
  more_facts facts facts' → has_typed_inputs e facts = true →
  has_typed_inputs e facts' = true ∧ evaluate e facts' = evaluate e facts.
Proof.
  intros Hmore. induction e as [p v|p vs|p z|p z|p g|l IH|l IH|e IH] using ConstraintExpr_ind';
    simpl; intros Ht.
  1,2: bool_inv; destruct Ht as [w Hw]; rewrite Hw, (Hmore _ _ Hw); done.
  1,2,3: bool_inv; destruct Ht as [w Hw]; rewrite Hw, (more_facts_bind _ _ _ _ _ Hmore Hw); done.
  1,2: induction IH as [|e l He _ IHl]; simpl in *; [done|]; bool_inv;
       destruct (He ltac:(done)) as [-> ->]; destruct (IHl ltac:(done)) as [-> ->]; done.
  destruct (IH Ht) as [-> ->]. done.
Qed.

(** A constraint never holds because a fact is missing.  Whatever holds on the
    request facts at hand still holds when more facts become known, negations
    included. *)
Theorem constraint_holds_mono e facts facts' :
  more_facts facts facts' →
  constraint_holds facts e = true → constraint_holds facts' e = true.
Proof.
  unfold constraint_holds. intros Hmore [Ht He]%andb_true_iff.
  destruct (typed_inputs_stable e _ _ Hmore Ht) as [-> ->]. done.
Qed.

(** The witness of [constraint_holds_mono]: an amount below a limit, negated. *)
Example constraint_holds_mono_witness :
  let facts := VObject [("amount", VNumber (PosInt 5))] in
  let facts' := VObject [("amount", VNumber (PosInt 5)); ("mfa", VBool true)] in
  constraint_holds facts' (CNot (CGreaterThan "amount" 10)) = true.
Proof.
  intros facts facts'.
  refine (constraint_holds_mono (CNot (CGreaterThan "amount" 10)) facts facts' _ eq_refl).
  apply more_facts_object. intros k v. simpl. case_bool_decide; [done|discriminate].
Defined.

(** ** Expressions that serialise to equal values are interchangeable *)

Lemma walk_wf segs cur v : wf_value cur → walk cur segs = Some v → wf_value v.
Proof.
  revert cur. induction segs as [|seg segs IH]; simpl; intros cur Hwf.
  { by intros [= <-]. }
  case_bool_decide; [done|]. destruct (get cur seg) as [next|] eqn:Hget; simpl; [|done].
  apply IH. destruct cur; try done. by eapply wf_assoc.
Qed.

Lemma lookup_wf root path v : wf_value root → lookup root path = Some v → wf_value v.
Proof.
  rewrite lookup_walk. apply walk_wf.
Qed.

Lemma number_of_i64_inj a b : number_eqb (number_of_i64 a) (number_of_i64 b) = true → a = b.
Proof. unfold number_of_i64. repeat case_bool_decide; simpl; intros; by bool_inv. Qed.

Lemma existsb_value_eqb v vs ws :
  wf_value v → Forall wf_value vs → Forall wf_value ws →
  Forall2 (λ x y, value_eqb x y = true) vs ws →
  existsb (λ x, value_eqb x v) vs = existsb (λ x, value_eqb x v) ws.
Proof.
  intros Hv Hvs Hws H. induction H as [|x y vs ws Hxy H IH]; [done|].
  inversion Hvs; inversion Hws; subst. simpl. rewrite IH by done. f_equal.
  apply eq_bool_prop_intro. split; intros Hxv%Is_true_true; apply Is_true_true.
  - apply value_eqb_trans with x; try done. by apply value_eqb_sym.
  - by apply value_eqb_trans with y.
Qed.

(** Two lists of expressions that serialise pairwise to equal values give the same
    conjunctions and disjunctions. *)
Lemma exprs_pointwise root l l' :
  Forall (λ e, ∀ e', wf_expr e → wf_expr e' →
    value_eqb (expr_to_value e) (expr_to_value e') = true →
    has_typed_inputs e root = has_typed_inputs e' root ∧ evaluate e root = evaluate e' root) l →
  Forall wf_expr l → Forall wf_expr l' →
  Forall2 (λ x y, value_eqb x y = true) (expr_to_value <$> l) (expr_to_value <$> l') →
  forallb (λ e, has_typed_inputs e root) l = forallb (λ e, has_typed_inputs e root) l' ∧
  forallb (λ e, evaluate e root) l = forallb (λ e, evaluate e root) l' ∧
  existsb (λ e, evaluate e root) l = existsb (λ e, evaluate e root) l'.
Proof.
  intros IH. revert l'. induction IH as [|e l He IH IHl]; intros l' Hwf Hwf' H;
    destruct l' as [|e' l']; inversion H; subst; [done|].
  inversion Hwf; inversion Hwf'; subst. simpl.
  destruct (He e') as [-> ->]; [done..|].
  destruct (IHl l') as (-> & -> & ->); done.
Qed.

Lemma expr_to_value_eqb root a b :
  wf_value root → wf_expr a → wf_expr b →
  value_eqb (expr_to_value a) (expr_to_value b) = true →
  has_typed_inputs a root = has_typed_inputs b root ∧ evaluate a root = evaluate b root.
Proof.
  intros Hroot. revert b.
  induction a as [p v|p vs|p z|p z|p g|l IH|l IH|e IH] using ConstraintExpr_ind';
    intros [p' v'|p' vs'|p' z'|p' z'|p' g'|l'|l'|e'] Ha Hb H;
    apply value_eqb_members in H as [Hlen H]; try discriminate Hlen;
    rewrite ?Forall_cons in H; simpl in H;
    repeat match goal with
    | H : _ ∧ _ |- _ => destruct H
    | H : ∃ _, _ |- _ => destruct H
    | H : Some _ = Some _ |- _ => injection H as <-
    end; try discriminate; simpl in *; bool_inv; subst; try discriminate.
  - split; [done|]. destruct (lookup root p') as [w|] eqn:Hw; simpl; [|done].
    apply value_eqb_congr; eauto using lookup_wf.
  - split; [done|]. destruct (lookup root p') as [w|] eqn:Hw; simpl; [|done].
    apply existsb_value_eqb; eauto using lookup_wf. by apply value_eqb_array.
  - match goal with H : number_eqb _ _ = true |- _ => by apply number_of_i64_inj in H as -> end.
  - match goal with H : number_eqb _ _ = true |- _ => by apply number_of_i64_inj in H as -> end.
  - done.
  - apply wf_exprs in Ha, Hb.
    destruct (exprs_pointwise root l l') as (? & ? & _); [done..| |done]. by apply value_eqb_array.
  - apply wf_exprs in Ha, Hb.
    destruct (exprs_pointwise root l l') as (? & _ & ?); [done..| |done]. by apply value_eqb_array.
  - destruct (IH e') as [? ->]; done.
Qed.
