(* ===== verification/CoreError.v ===== *)
(** * Errors of [agentguard-core] ([error.rs])

    The variants with their payload, and their [Display] text. *)

From S2P Require Import Prelude.

Inductive Error : Type :=
| Io (s : string)
| Json (s : string)
| PolicyParse (message file : string)
| Schema (s : string)
| InvalidPrincipal (s : string)
| InvalidResource (s : string)
| InvalidContext (s : string)
| InvalidToken (s : string)
| TokenExpired (s : string)
| TokenRevoked (s : string)
| TokenSignature (reason : string)
| TokenNotYetValid (s : string)
| Validation (s : string)
| EntitiesError (s : string)
| Walk (s : string)
| Other (s : string).

#[export] Instance Error_eq_dec : EqDecision Error.
Proof. solve_decision. Defined.

(** [#[error("...")]] *)
Definition error_display (e : Error) : string :=
  match e with
  | Io s => "io error: " +:+ s
  | Json s => "json error: " +:+ s
  | PolicyParse message file => "policy parse error in " +:+ file +:+ ": " +:+ message
  | Schema s => "schema error: " +:+ s
  | InvalidPrincipal s => "invalid principal: " +:+ s
  | InvalidResource s => "invalid resource: " +:+ s
  | InvalidContext s => "invalid context: " +:+ s
  | InvalidToken s => "invalid delegation token: " +:+ s
  | TokenExpired s => "token expired at " +:+ s
  | TokenRevoked s => "delegation token revoked: " +:+ s
  | TokenSignature reason => "token signature invalid: " +:+ reason
  | TokenNotYetValid s => "token not yet valid (nbf=" +:+ s +:+ ")"
  | Validation s => "policy validation failed: " +:+ s
  | EntitiesError s => "entities: " +:+ s
  | Walk s => "walk: " +:+ s
  | Other s => "other: " +:+ s
  end.

(** [agentguard_core::Result] *)
Abbreviation cresult := (result Error).
