(* ===== verification/AuthKeys.v ===== *)
(** * The key registry ([agentguard-core/src/auth_keys.rs])

    JOSE algorithms, key material, and [KeyRegistry]: verification keys by [kid],
    with a grace window on rotation and a bound on the number of kids kept by
    first-in-first-out eviction.  An [Instant] is a [Z] (nanoseconds of the
    monotonic clock); the clock readings an operation makes are arguments. *)

From S2P Require Import Prelude.

Inductive Algorithm : Type := HS256 | RS256 | ES256 | EdDSA.
#[export] Instance Algorithm_eq_dec : EqDecision Algorithm.
Proof. solve_decision. Defined.

(** [Display] *)
Definition alg_display (a : Algorithm) : string :=
  match a with
  | HS256 => "HS256"
  | RS256 => "RS256"
  | ES256 => "ES256"
  | EdDSA => "EdDSA"
  end.

Definition parse_alg (s : string) : option Algorithm :=
  if bool_decide (s = "HS256") then Some HS256
  else if bool_decide (s = "RS256") then Some RS256
  else if bool_decide (s = "ES256") then Some ES256
  else if bool_decide (s = "EdDSA") then Some EdDSA
  else None.

(** [FromStr]: the error carries the rejected name. *)
Definition alg_from_str (s : string) : result string Algorithm := ok_or (parse_alg s) s.

Inductive KeyMaterial : Type :=
| Hmac (b : bytes)
| Rsa (b : bytes)
| Ecdsa (b : bytes)
| Ed25519 (b : bytes).
#[export] Instance KeyMaterial_eq_dec : EqDecision KeyMaterial.
Proof. solve_decision. Defined.

Record KeyEntry : Type := mkKeyEntry {
  ke_kid : string;
  ke_alg : Algorithm;
  ke_key : KeyMaterial;
  grace_expires_at : option Z;
}.

Record KeyRegistry : Type := mkKeyRegistry {
  inner : gmap string (list KeyEntry);
  order : list string;
  cap : nat;
}.

Definition DEFAULT_KEY_KID_CAP : nat := 64.

(** [KeyRegistry::with_cap], [KeyRegistry::new] *)
Definition with_cap (c : nat) : KeyRegistry := mkKeyRegistry ∅ [] (Nat.max c 1).
Definition registry_new : KeyRegistry := with_cap DEFAULT_KEY_KID_CAP.

(** The [while entries.len() >= self.cap] loop: it ends with the front of [order]. *)
Fixpoint evict (c : nat) (entries : gmap string (list KeyEntry)) (ord : list string) :
    gmap string (list KeyEntry) * list string :=
  if (c <=? size entries)%nat then
    match ord with
    | [] => (entries, [])
    | oldest :: ord => evict c (delete oldest entries) ord
    end
  else (entries, ord).

Definition reserve_kid_slot (r : KeyRegistry) (kid : string) : KeyRegistry :=
  match inner r !! kid with
  | Some _ => r
  | None =>
      let '(entries, ord) := evict (cap r) (inner r) (order r) in
      mkKeyRegistry entries (ord ++ [kid]) (cap r)
  end.

(** [guard.entry(kid).or_default()] *)
Definition entries_of (r : KeyRegistry) (kid : string) : list KeyEntry :=
  default [] (inner r !! kid).

Definition set_entries (r : KeyRegistry) (kid : string) (es : list KeyEntry) : KeyRegistry :=
  mkKeyRegistry (<[kid := es]> (inner r)) (order r) (cap r).

(** [e.alg == alg && e.grace_expires_at.is_none()] *)
Definition is_active (alg : Algorithm) (e : KeyEntry) : bool :=
  bool_decide (ke_alg e = alg) && bool_decide (grace_expires_at e = None).

Definition add (r : KeyRegistry) (kid : string) (alg : Algorithm) (key : KeyMaterial) :
    KeyRegistry :=
  let r := reserve_kid_slot r kid in
  let kept := filter (λ e, is_active alg e = false) (entries_of r kid) in
  set_entries r kid (kept ++ [mkKeyEntry kid alg key None]).

(** [Instant::now()] is read once per entry of the loop: [now i] is the [i]-th
    reading. *)
Definition rotate (r : KeyRegistry) (kid : string) (alg : Algorithm) (key : KeyMaterial)
    (grace : Z) (now : nat → Z) : KeyRegistry :=
  let r := reserve_kid_slot r kid in
  let aged := imap (λ i e, mkKeyEntry (ke_kid e) (ke_alg e) (ke_key e) (Some (now i + grace)))
                (entries_of r kid) in
  set_entries r kid (aged ++ [mkKeyEntry kid alg key None]).

(** [e.grace_expires_at.map(|t| t > now).unwrap_or(true)] *)
Definition is_live (now : Z) (e : KeyEntry) : bool :=
  match grace_expires_at e with Some t => bool_decide (now < t) | None => true end.

Definition get_keys (r : KeyRegistry) (kid : string) (alg : Algorithm) (now : Z) :
    list KeyMaterial :=
  ke_key <$> filter (λ e, ke_alg e = alg ∧ is_live now e = true) (entries_of r kid).

Definition contains (r : KeyRegistry) (kid : string) : bool :=
  bool_decide (is_Some (inner r !! kid)).

Definition kid_count (r : KeyRegistry) : nat := size (inner r).

(** ** The invariant *)

(** [order] lists the registered kids once each, oldest first; there are at most
    [cap] of them. *)
Record wf_registry (r : KeyRegistry) : Prop := {
  wf_order_nodup : NoDup (order r);
  wf_order_dom : ∀ kid, kid ∈ order r ↔ is_Some (inner r !! kid);
  wf_size : (size (inner r) ≤ cap r)%nat;
  wf_cap : (1 ≤ cap r)%nat;
  wf_kids : ∀ kid es, inner r !! kid = Some es → Forall (λ e, ke_kid e = kid) es;
}.

(** The calls that change the registry. *)
Inductive registry_step : KeyRegistry → KeyRegistry → Prop :=
| step_add r kid alg key : registry_step r (add r kid alg key)
| step_rotate r kid alg key grace now : registry_step r (rotate r kid alg key grace now).

Lemma order_size r : wf_registry r → length (order r) = size (inner r).
Proof.
  intros H. rewrite <-(size_dom (D:=gset string)).
  rewrite <-(size_list_to_set (C:=gset string)) by apply H.
  f_equal. apply set_eq. intros kid. rewrite elem_of_list_to_set, elem_of_dom. apply H.
Qed.

(** At the bound, exactly the oldest kid is evicted. *)
Lemma reserve_new r kid :
  wf_registry r → inner r !! kid = None →
  reserve_kid_slot r kid =
    if (size (inner r) <? cap r)%nat
    then mkKeyRegistry (inner r) (order r ++ [kid]) (cap r)
    else match order r with
         | [] => r
         | oldest :: rest => mkKeyRegistry (delete oldest (inner r)) (rest ++ [kid]) (cap r)
         end.
Proof.
  intros Hwf Hkid. unfold reserve_kid_slot. rewrite Hkid.
  pose proof (order_size r Hwf) as Hsize. pose proof (wf_cap r Hwf). pose proof (wf_size r Hwf).
  destruct (order r) as [|oldest rest] eqn:Hord; simpl in Hsize.
  - simpl. destruct (Nat.leb_spec (cap r) (size (inner r))); [lia|].
    destruct (Nat.ltb_spec (size (inner r)) (cap r)); [done|lia].
  - simpl. destruct (Nat.leb_spec (cap r) (size (inner r))).
    + destruct (Nat.ltb_spec (size (inner r)) (cap r)); [lia|].
      assert (size (delete oldest (inner r)) < cap r)%nat as Hlt.
      { assert (is_Some (inner r !! oldest)) as [es Hes].
        { apply (wf_order_dom r Hwf). rewrite Hord. apply list_elem_of_here. }
        rewrite map_size_delete_Some by eauto. lia. }
      destruct rest; simpl; destruct (Nat.leb_spec (cap r) (size (delete oldest (inner r))));
        done || lia.
    + destruct (Nat.ltb_spec (size (inner r)) (cap r)); [done|lia].
Qed.

Lemma reserve_wf r kid :
  wf_registry r → inner r !! kid = None →
  let r' := reserve_kid_slot r kid in
  NoDup (order r') ∧ cap r' = cap r ∧ (size (inner r') < cap r')%nat ∧
  inner r' !! kid = None ∧
  (∀ k, k ∈ order r' ↔ k = kid ∨ is_Some (inner r' !! k)) ∧
  (∀ k es, inner r' !! k = Some es → inner r !! k = Some es).
Proof.
  intros Hwf Hkid. simpl. rewrite reserve_new by done.
  pose proof (order_size r Hwf) as Hsize. pose proof (wf_cap r Hwf). pose proof (wf_size r Hwf).
  pose proof (wf_order_nodup r Hwf) as Hnd. pose proof (wf_order_dom r Hwf) as Hdom.
  assert (kid ∉ order r) as Hnew by (rewrite Hdom, Hkid; by intros [? ?]).
  destruct (Nat.ltb_spec (size (inner r)) (cap r)).
  - simpl. split_and!; try done.
    + apply NoDup_snoc; done.
    + intros k. rewrite elem_of_app, list_elem_of_singleton, Hdom. naive_solver.
  - destruct (order r) as [|oldest rest] eqn:Hord; [simpl in Hsize; lia|]. simpl.
    apply NoDup_cons in Hnd as [Hold Hnd]. apply not_elem_of_cons in Hnew as [? Hnew].
    assert (is_Some (inner r !! oldest)) as [es Hes]
      by (apply Hdom, list_elem_of_here).
    split_and!; try done.
    + apply NoDup_snoc; done.
    + rewrite map_size_delete_Some by eauto. simpl in Hsize. lia.
    + by rewrite lookup_delete_ne.
    + intros k. rewrite elem_of_app, list_elem_of_singleton. specialize (Hdom k).
      rewrite elem_of_cons in Hdom. destruct (decide (k = oldest)) as [->|].
      * rewrite lookup_delete_eq. pose proof (is_Some_None (A:=list KeyEntry)). naive_solver.
      * rewrite lookup_delete_ne by done. naive_solver.
    + intros k es' Hk. destruct (decide (k = oldest)) as [->|].
      * by rewrite lookup_delete_eq in Hk.
      * by rewrite lookup_delete_ne in Hk.
Qed.

(** Storing a list of entries of [kid] after reserving its slot keeps the invariant. *)
Lemma set_entries_wf r kid es :
  wf_registry r → Forall (λ e, ke_kid e = kid) es →
  wf_registry (set_entries (reserve_kid_slot r kid) kid es).
Proof.
  intros Hwf Hes. destruct (inner r !! kid) as [es0|] eqn:Hkid.
  - unfold reserve_kid_slot. rewrite Hkid. destruct Hwf as [Hnd Hdom Hsz Hcap Hkids].
    split; simpl; try done.
    + intros k. rewrite Hdom. destruct (decide (k = kid)) as [->|].
      * rewrite lookup_insert_eq, Hkid. naive_solver.
      * by rewrite lookup_insert_ne.
    + by rewrite map_size_insert_Some by eauto.
    + intros k es' Hk. destruct (decide (k = kid)) as [->|]; simplify_map_eq; eauto.
  - destruct (reserve_wf r kid Hwf Hkid) as (Hnd & Hcap & Hsz & Hnone & Hdom & Hincl).
    pose proof (wf_cap r Hwf). split; simpl; try done.
    + intros k. rewrite Hdom. destruct (decide (k = kid)) as [->|].
      * rewrite lookup_insert_eq. naive_solver.
      * rewrite lookup_insert_ne by done. naive_solver.
    + rewrite map_size_insert_None by done. lia.
    + lia.
    + intros k es' Hk. destruct (decide (k = kid)) as [->|]; simplify_map_eq; [done|].
      eapply (wf_kids r Hwf). by apply Hincl.
Qed.

Lemma entries_of_kid r kid :
  wf_registry r → Forall (λ e, ke_kid e = kid) (entries_of (reserve_kid_slot r kid) kid).
Proof.
  intros Hwf. unfold entries_of.
  destruct (inner r !! kid) as [es|] eqn:Hkid.
  - unfold reserve_kid_slot. rewrite Hkid. rewrite Hkid. by eapply (wf_kids r Hwf).
  - destruct (reserve_wf r kid Hwf Hkid) as (_ & _ & _ & -> & _). constructor.
Qed.

Lemma add_wf r kid alg key : wf_registry r → wf_registry (add r kid alg key).
Proof.
  intros Hwf. apply set_entries_wf; [done|]. apply Forall_app. split; [|by constructor].
  apply Forall_forall. intros e [_ He]%list_elem_of_filter.
  revert e He. apply Forall_forall. by apply entries_of_kid.
Qed.

Lemma rotate_wf r kid alg key grace now :
  wf_registry r → wf_registry (rotate r kid alg key grace now).
Proof.
  intros Hwf. apply set_entries_wf; [done|]. apply Forall_app. split; [|by constructor].
  apply Forall_forall. intros e He. apply elem_of_lookup_imap in He as (i & e' & -> & He').
  simpl. pose proof (entries_of_kid r kid Hwf) as H. rewrite Forall_forall in H.
  apply H. by eapply list_elem_of_lookup_2.
Qed.

Lemma with_cap_wf c : wf_registry (with_cap c).
Proof.
  split; simpl.
  - constructor.
  - intros kid. rewrite lookup_empty. split; [by intros ?%elem_of_nil|by intros [? ?]].
  - rewrite map_size_empty. lia.
  - lia.
  - done.
Qed.

#[export] Hint Resolve add_wf rotate_wf with_cap_wf : agentguard.

(** C34: whatever sequence of [add] and [rotate] calls a registry has seen, its
    eviction queue holds each registered kid exactly once and the number of kids
    never exceeds the cap, which is at least one. *)
Theorem registry_invariant c r :
  rtc registry_step (with_cap c) r → wf_registry r.
Proof.
  intros H. assert (wf_registry (with_cap c)) as Hwf by auto with agentguard.
  induction H as [|r1 r2 r3 Hstep _ IH]; [done|].
  apply IH. destruct Hstep; auto with agentguard.
Qed.

Example registry_invariant_witness :
  wf_registry (rotate (add (with_cap 1) "a" EdDSA (Ed25519 "1")) "b" EdDSA (Ed25519 "2") 60 (λ _, 0)).
Proof.
  apply (registry_invariant 1). eapply rtc_l; [apply step_add|].
  eapply rtc_l; [apply step_rotate|]. apply rtc_refl.
Defined.

(** ** What [add] and [rotate] do to the keys of a kid *)

Lemma entries_of_reserve r kid :
  wf_registry r → entries_of (reserve_kid_slot r kid) kid = entries_of r kid.
Proof.
  intros Hwf. unfold entries_of. destruct (inner r !! kid) as [es|] eqn:Hkid.
  - unfold reserve_kid_slot. by rewrite !Hkid.
  - by destruct (reserve_wf r kid Hwf Hkid) as (_ & _ & _ & -> & _).
Qed.

Lemma get_keys_set r kid es alg now :
  get_keys (set_entries r kid es) kid alg now =
  ke_key <$> filter (λ e, ke_alg e = alg ∧ is_live now e = true) es.
Proof. unfold get_keys, entries_of, set_entries. simpl. by rewrite lookup_insert_eq. Qed.

(** The keys of [kid] that an earlier rotation left in their grace window. *)
Definition in_grace (now : Z) (e : KeyEntry) : bool :=
  match grace_expires_at e with Some t => bool_decide (now < t) | None => false end.

Definition grace_keys (r : KeyRegistry) (kid : string) (alg : Algorithm) (now : Z) :
    list KeyMaterial :=
  ke_key <$> filter (λ e, ke_alg e = alg ∧ in_grace now e = true) (entries_of r kid).

Lemma filter_filter_and {A} (P Q R : A → Prop) `{∀ x, Decision (P x)} `{∀ x, Decision (Q x)}
    `{∀ x, Decision (R x)} (l : list A) :
  (∀ x, R x ↔ P x ∧ Q x) → filter P (filter Q l) = filter R l.
Proof.
  intros Heq. induction l as [|x l IH]; [done|]. specialize (Heq x).
  destruct (decide (Q x)).
  - rewrite (filter_cons_True Q) by done. destruct (decide (P x)).
    + rewrite (filter_cons_True P), (filter_cons_True R), IH by naive_solver. done.
    + rewrite (filter_cons_False P), (filter_cons_False R), IH by naive_solver. done.
  - rewrite (filter_cons_False Q), (filter_cons_False R), IH by naive_solver. done.
Qed.

Lemma is_live_active alg now e :
  ke_alg e = alg ∧ in_grace now e = true ↔
  (ke_alg e = alg ∧ is_live now e = true) ∧ is_active alg e = false.
Proof.
  destruct e as [kid a key g]. unfold in_grace, is_live, is_active. simpl.
  destruct g as [t|]; simpl; rewrite andb_false_iff, !bool_decide_eq_false; naive_solver.
Qed.

(** After [add kid alg key], the keys returned for [(kid, alg)] are the ones an
    earlier rotation left in their grace window followed by [key]: the active key
    is replaced, never kept beside the new one.  The other algorithms of [kid] keep
    their keys. *)
Theorem add_get r kid alg key now :
  wf_registry r →
  get_keys (add r kid alg key) kid alg now = grace_keys r kid alg now ++ [key] ∧
  ∀ alg', alg' ≠ alg → get_keys (add r kid alg key) kid alg' now = get_keys r kid alg' now.
Proof.
  intros Hwf. unfold add. rewrite entries_of_reserve by done. split.
  - rewrite get_keys_set, filter_app, fmap_app. f_equal.
    + unfold grace_keys. f_equal. apply filter_filter_and. intros e. apply is_live_active.
    + rewrite filter_cons_True by done. done.
  - intros alg' Hne. rewrite get_keys_set, filter_app, fmap_app.
    rewrite (filter_cons_False _ (mkKeyEntry _ _ _ _)) by (simpl; naive_solver). simpl.
    rewrite app_nil_r. unfold get_keys. f_equal. apply filter_filter_and.
    intros e. unfold is_active. rewrite andb_false_iff, !bool_decide_eq_false. naive_solver.
Qed.

Example add_get_witness :
  get_keys (add registry_new "k" EdDSA (Ed25519 "new")) "k" EdDSA 0 = [Ed25519 "new"].
Proof.
  exact (proj1 (add_get registry_new "k" EdDSA (Ed25519 "new") 0 (with_cap_wf _))).
Defined.

Lemma elem_of_get_keys r kid es alg now k :
  k ∈ get_keys (set_entries r kid es) kid alg now ↔
  ∃ i e, es !! i = Some e ∧ k = ke_key e ∧ ke_alg e = alg ∧ is_live now e = true.
Proof.
  rewrite get_keys_set, list_elem_of_fmap.
  setoid_rewrite list_elem_of_filter. setoid_rewrite list_elem_of_lookup. naive_solver.
Qed.

(** After [rotate kid alg key grace], [key] is returned for [(kid, alg)], and so
    is every key the kid held before, until [grace] after the rotation.  The
    deadline a previous rotation had set does not matter. *)
Theorem rotate_get r kid alg key grace clock now k :
  wf_registry r →
  k ∈ get_keys (rotate r kid alg key grace clock) kid alg now ↔
  k = key ∨
  ∃ i e, entries_of r kid !! i = Some e ∧ k = ke_key e ∧ ke_alg e = alg ∧
         now < clock i + grace.
Proof.
  intros Hwf. unfold rotate. rewrite elem_of_get_keys, entries_of_reserve by done.
  set (es := entries_of r kid). split.
  - intros (i & e & Hi & -> & Halg & Hlive). apply lookup_app_Some in Hi as [Hi|[_ Hi]].
    + rewrite list_lookup_imap in Hi. destruct (es !! i) as [e'|] eqn:He'; [|done].
      simplify_eq/=. right. exists i, e'. unfold is_live in Hlive. simpl in Hlive. bool_inv. auto.
    + apply list_lookup_singleton_Some in Hi as [_ <-]. by left.
  - intros [->|(i & e & Hi & -> & Halg & Hnow)].
    + exists (length es), (mkKeyEntry kid alg key None).
      rewrite lookup_app_r by (by rewrite length_imap). by rewrite length_imap, Nat.sub_diag.
    + exists i, (mkKeyEntry (ke_kid e) (ke_alg e) (ke_key e) (Some (clock i + grace))).
      split; [apply lookup_app_l_Some; by rewrite list_lookup_imap, Hi|].
      unfold is_live. simpl. by rewrite bool_decide_eq_true_2.
Qed.

Example rotate_get_witness :
  let r := add registry_new "k" EdDSA (Ed25519 "old") in
  Ed25519 "old" ∈ get_keys (rotate r "k" EdDSA (Ed25519 "new") 60 (λ _, 100)) "k" EdDSA 130.
Proof.
  intros r. apply (rotate_get r "k" EdDSA (Ed25519 "new") 60 (λ _, 100) 130 (Ed25519 "old")).
  - apply add_wf, with_cap_wf.
  - right. exists 0%nat, (mkKeyEntry "k" EdDSA (Ed25519 "old") None). vm_compute. done.
Defined.

(** A rotation brings a key back whose grace period had run out.  [rotate] sets
    the deadline of every entry of the kid, including entries an earlier rotation
    retired, so a key that [get] no longer returned at the time of the rotation is
    accepted again for [grace]. *)
Theorem rotate_revives_expired r kid alg key grace t now i e :
  wf_registry r →
  entries_of r kid !! i = Some e → ke_alg e = alg → is_live t e = false →
  t ≤ now < t + grace →
  ke_key e ∈ get_keys (rotate r kid alg key grace (λ _, t)) kid alg now.
Proof.
  intros Hwf Hi Halg _ Hnow. unfold rotate. rewrite elem_of_get_keys, entries_of_reserve by done.
  exists i, (mkKeyEntry (ke_kid e) (ke_alg e) (ke_key e) (Some (t + grace))).
  split; [apply lookup_app_l_Some; by rewrite list_lookup_imap, Hi|].
  unfold is_live. simpl. rewrite bool_decide_eq_true_2 by lia. done.
Qed.

(** [old] is retired at 0 with a grace of 60, no longer returned at 100, and returned
    again after the next rotation at 100. *)
Example rotate_revives_expired_witness :
  let r1 := add registry_new "k" EdDSA (Ed25519 "old") in
  let r2 := rotate r1 "k" EdDSA (Ed25519 "mid") 60 (λ _, 0) in
  get_keys r2 "k" EdDSA 100 = [Ed25519 "mid"] ∧
  Ed25519 "old" ∈ get_keys (rotate r2 "k" EdDSA (Ed25519 "new") 60 (λ _, 100)) "k" EdDSA 120.
Proof.
  intros r1 r2. split; [by vm_compute|].
  apply (rotate_revives_expired r2 "k" EdDSA (Ed25519 "new") 60 100 120 0
           (mkKeyEntry "k" EdDSA (Ed25519 "old") (Some 60))); try done.
  apply rotate_wf, add_wf, with_cap_wf.
Defined.

(** Registering a kid leaves every other kid alone, except that a new kid in a full
    registry evicts the oldest one. *)
Lemma reserve_other r kid k :
  wf_registry r → k ≠ kid →
  inner (reserve_kid_slot r kid) !! k =
    if bool_decide (inner r !! kid = None ∧ size (inner r) = cap r ∧ head (order r) = Some k)
    then None else inner r !! k.
Proof.
  intros Hwf Hne. destruct (inner r !! kid) as [es|] eqn:Hkid.
  - unfold reserve_kid_slot. rewrite Hkid. by rewrite bool_decide_eq_false_2 by naive_solver.
  - rewrite reserve_new by done. pose proof (wf_size r Hwf).
    pose proof (order_size r Hwf). pose proof (wf_cap r Hwf).
    destruct (Nat.ltb_spec (size (inner r)) (cap r)); simpl.
    { rewrite bool_decide_eq_false_2; [done|lia]. }
    destruct (order r) as [|oldest rest]; simpl in *; [lia|].
    destruct (decide (oldest = k)) as [->|].
    + rewrite lookup_delete_eq, bool_decide_eq_true_2; [done|split_and!; [done|lia|done]].
    + rewrite lookup_delete_ne by done. rewrite bool_decide_eq_false_2 by naive_solver. done.
Qed.

(** [add] leaves the keys of every other kid alone, except that adding a new kid
    to a full registry removes the kid that was registered first. *)
Theorem add_other r kid alg key k :
  wf_registry r → k ≠ kid →
  inner (add r kid alg key) !! k =
    if bool_decide (inner r !! kid = None ∧ size (inner r) = cap r ∧ head (order r) = Some k)
    then None else inner r !! k.
Proof.
  intros Hwf Hne. unfold add, set_entries. simpl. rewrite lookup_insert_ne by done.
  by apply reserve_other.
Qed.

Example add_other_witness :
  let r := add (add (with_cap 2) "a" EdDSA (Ed25519 "1")) "b" EdDSA (Ed25519 "2") in
  inner (add r "c" EdDSA (Ed25519 "3")) !! "a" = None ∧
  inner (add r "c" EdDSA (Ed25519 "3")) !! "b" = inner r !! "b".
Proof.
  intros r. assert (wf_registry r) as Hwf by apply add_wf, add_wf, with_cap_wf.
  rewrite !(add_other r "c" EdDSA (Ed25519 "3")) by done. by vm_compute.
Defined.
