(* ===== verification/Crypto.v ===== *)
(** * Third-party codecs and primitives

    The crates the code calls but does not contain: URL-safe base64
    ([base64]), JSON text ([serde_json]), Ed25519 ([ed25519-dalek]).  Each is an
    operational class, so the definitions that use it take it as an argument, and
    a class of laws that states what its documentation promises.  The instances
    at the end are concrete functions for which the laws hold. *)

From S2P Require Import Prelude Json.

(** [base64::engine::general_purpose::{URL_SAFE_NO_PAD, STANDARD}] *)
Class Base64 := {
  b64_encode : bytes → string;
  b64_decode : string → result string bytes;
  b64_std_encode : bytes → string;
}.

(** Decoding inverts encoding, and the alphabet has no ['.'] and no [':']. *)
Class Base64Laws `{Base64} : Prop := {
  b64_decode_encode b : b64_decode (b64_encode b) = Ok b;
  b64_encode_no_dot b : str_contains "." (b64_encode b) = false;
  b64_encode_no_colon b : str_contains ":" (b64_encode b) = false;
}.

(** [serde_json::to_vec] and [serde_json::from_slice] on [Value]. *)
Class JsonText := {
  json_to_vec : Value → bytes;
  json_from_slice : bytes → result string Value;
}.

(** No [f64] inside: without its [float_roundtrip] feature [serde_json] does not
    promise to read a float back exactly. *)
Fixpoint float_free (v : Value) : bool :=
  match v with
  | VNumber (Float _) => false
  | VArray l => forallb float_free l
  | VObject m => forallb (λ kv, float_free kv.2) m
  | _ => true
  end.

Definition newline : ascii := ascii_of_nat 10.

(** [u8::is_ascii_whitespace] *)
Definition is_ascii_whitespace (c : ascii) : bool :=
  bool_decide (nat_of_ascii c ∈ [9; 10; 12; 13; 32]%nat).

(** A value is read back as written, also with a line feed after it; the compact
    text of a value is valid UTF-8 on one line, and is not blank. *)
Class JsonTextLaws `{JsonText} : Prop := {
  json_roundtrip v :
    wf_value v → float_free v = true → json_from_slice (json_to_vec v) = Ok v;
  json_trailing_newline v :
    json_from_slice (json_to_vec v +:+ String newline "") = json_from_slice (json_to_vec v);
  json_one_line v : str_contains newline (json_to_vec v) = false;
  json_not_blank v :
    forallb is_ascii_whitespace (String.list_ascii_of_string (json_to_vec v)) = false
    ∧ is_blank (json_to_vec v) = false;
  json_utf8 v : utf8_valid (json_to_vec v) = true;
  json_no_return v : str_contains (ascii_of_nat 13) (json_to_vec v) = false;
}.

(** The text of an object begins with its brace and ends with the brace that closes it: cut
    short it is not JSON. *)
Class JsonObjectLaws `{JsonText} : Prop := {
  json_begins m : ∃ c s, json_to_vec (VObject m) = String c s ∧ is_ascii_whitespace c = false;
  json_cut m n :
    (n < String.length (json_to_vec (VObject m)))%nat →
    is_ok (json_from_slice (String.substring 0 n (json_to_vec (VObject m)))) = false;
}.

(** [hex::encode], [hex::decode] *)
Class Hex := {
  hex_encode : bytes → string;
  hex_decode : string → result string bytes;
}.
(** Lower-case digits, two per byte. *)
Definition hex_char (c : ascii) : bool :=
  let n := nat_of_ascii c in ((48 <=? n) && (n <=? 57) || (97 <=? n) && (n <=? 102))%nat.
Class HexLaws `{Hex} : Prop := {
  hex_decode_encode b : hex_decode (hex_encode b) = Ok b;
  hex_encode_chars b : forallb hex_char (String.list_ascii_of_string (hex_encode b)) = true;
}.

(** [hmac::Hmac<sha2::Sha256>] on a key and the concatenation of the updates. *)
Class Hmac := { hmac_sha256 : bytes → bytes → bytes }.
Class HmacLaws `{Hmac} : Prop := {
  hmac_length k m : String.length (hmac_sha256 k m) = 32%nat;
}.

(** [sha2::Sha256] on the concatenation of the updates. *)
Class Sha256 := { sha256 : bytes → bytes }.
Class Sha256Laws `{Sha256} : Prop := {
  sha256_length b : String.length (sha256 b) = 32%nat;
}.

(** [uuid::Uuid] by its bytes: [Display] and [Uuid::parse_str]. *)
Class UuidText := {
  uuid_display : bytes → string;
  uuid_parse : string → result string bytes;
}.
(** The text of a uuid is hexadecimal digits and dashes. *)
Definition uuid_char (c : ascii) : bool := hex_char c || bool_decide (c = "-"%char).
Class UuidLaws `{UuidText} : Prop := {
  uuid_parse_display u : uuid_parse (uuid_display u) = Ok u;
  uuid_chars u : forallb uuid_char (String.list_ascii_of_string (uuid_display u)) = true;
}.

(** [ed25519-dalek]: a key is given by its 32 bytes. *)
Class Ed25519Ops := {
  verifying_key_of : bytes → bytes;
  verifying_key_from_bytes : bytes → result string bytes;
  ed_sign : bytes → bytes → bytes;
  signature_from_slice : bytes → result string bytes;
  ed_verify : bytes → bytes → bytes → bool;
}.

(** A signature verifies under the public key of its signer; key and signature
    have the sizes of the standard; parsing a public key keeps its bytes. *)
Class Ed25519Laws `{Ed25519Ops} : Prop := {
  ed_verify_sign sk msg : ed_verify (verifying_key_of sk) msg (ed_sign sk msg) = true;
  ed_sign_length sk msg : String.length (ed_sign sk msg) = 64%nat;
  ed_key_length sk : String.length (verifying_key_of sk) = 32%nat;
  ed_key_parses sk : verifying_key_from_bytes (verifying_key_of sk) = Ok (verifying_key_of sk);
  ed_key_bytes raw vk : verifying_key_from_bytes raw = Ok vk → vk = raw;
  ed_sig_parses s : String.length s = 64%nat → signature_from_slice s = Ok s;
}.

(** ** Concrete functions that satisfy the laws *)

Module Concrete.

(** Two letters per byte. *)
Definition letter (n : nat) : ascii := ascii_of_nat (65 + n).
Definition unletter (c : ascii) : nat := nat_of_ascii c - 65.

Fixpoint enc (s : bytes) : string :=
  match s with
  | EmptyString => EmptyString
  | String c s =>
      String (letter (nat_of_ascii c / 16)) (String (letter (nat_of_ascii c mod 16)) (enc s))
  end.

Fixpoint dec (s : string) : result string bytes :=
  match s with
  | EmptyString => Ok EmptyString
  | String a (String b s) =>
      rest ← dec s; Ok (String (ascii_of_nat (unletter a * 16 + unletter b)) rest)
  | _ => Err "invalid length"
  end.

Lemma byte_letters c :
  ascii_of_nat (unletter (letter (nat_of_ascii c / 16)) * 16
                + unletter (letter (nat_of_ascii c mod 16))) = c ∧
  (letter (nat_of_ascii c / 16) ≠ "."%char ∧ letter (nat_of_ascii c mod 16) ≠ "."%char) ∧
  letter (nat_of_ascii c / 16) ≠ ":"%char ∧ letter (nat_of_ascii c mod 16) ≠ ":"%char.
Proof. destruct c as [[] [] [] [] [] [] [] []]; vm_compute; split_and!; done. Qed.

#[export] Instance base64 : Base64 := {| b64_encode := enc; b64_decode := dec; b64_std_encode := enc |}.
#[export] Instance base64_laws : Base64Laws.
Proof.
  split; intros b; induction b as [|c b IH]; try done;
    cbn [b64_encode b64_decode base64 enc dec str_contains] in *; destruct (byte_letters c) as (Hc & [Ha Hb] & Ha' & Hb').
  - rewrite IH, Hc. done.
  - rewrite IH, !bool_decide_eq_false_2 by congruence. done.
  - rewrite IH, !bool_decide_eq_false_2 by congruence. done.
Qed.

(** A text for every value of a countable type: the digits of its number between
    two letters. *)
Fixpoint pos_text (p : positive) : string :=
  match p with
  | xH => "E"
  | xO p => String "0" (pos_text p)
  | xI p => String "1" (pos_text p)
  end.

Fixpoint text_pos (s : string) : option positive :=
  match s with
  | EmptyString => None
  | String c s =>
      if bool_decide (c = "0"%char) then xO <$> text_pos s
      else if bool_decide (c = "1"%char) then xI <$> text_pos s
      else Some xH
  end.

Lemma text_pos_text p rest : text_pos (pos_text p +:+ rest) = Some p.
Proof. induction p as [p IH|p IH|]; simpl; by rewrite ?IH. Qed.

Lemma text_pos_cut p n : (n < String.length (pos_text p))%nat → text_pos (String.substring 0 n (pos_text p)) = None.
Proof.
  revert p. induction n as [|n IH]; intros p; [by destruct p|].
  destruct p as [p|p|]; simpl; intros Hn; [| |lia]; rewrite IH by lia; done.
Qed.

Definition to_text `{Countable A} (a : A) : string := String "T" (pos_text (encode a)).
Definition of_text `{Countable A} (s : string) : option A :=
  match s with String _ s => text_pos s ≫= decode | EmptyString => None end.

Lemma of_to_text `{Countable A} (a : A) rest : of_text (to_text a +:+ rest) = Some a.
Proof. unfold of_text, to_text. simpl. rewrite text_pos_text. apply decode_encode. Qed.

Lemma of_text_cut `{Countable A} (a : A) n :
  (n < String.length (to_text a))%nat → of_text (A := A) (String.substring 0 n (to_text a)) = None.
Proof.
  unfold of_text, to_text. destruct n as [|n]; simpl; [done|]. intros Hn. by rewrite text_pos_cut by lia.
Qed.

Lemma of_to_text_nil `{Countable A} (a : A) : of_text (to_text a) = Some a.
Proof. rewrite <-(of_to_text a "") at 1. by rewrite string_app_nil_r. Qed.

Lemma text_without `{Countable A} (a : A) c :
  bool_decide (c ∈ String.list_ascii_of_string "TE01") = false → str_contains c (to_text a) = false.
Proof.
  intros Hc. apply bool_decide_eq_false in Hc. unfold to_text. simpl.
  rewrite bool_decide_eq_false_2 by set_solver. simpl.
  induction (encode a) as [p IH|p IH|]; simpl; rewrite ?IH, bool_decide_eq_false_2; set_solver.
Qed.

Lemma text_utf8 `{Countable A} (a : A) : utf8_valid (to_text a) = true.
Proof. unfold to_text. simpl. by induction (encode a). Qed.

Lemma text_not_blank `{Countable A} (a : A) :
  forallb is_ascii_whitespace (String.list_ascii_of_string (to_text a)) = false
  ∧ is_blank (to_text a) = false.
Proof. split; [done|]. by apply (is_blank_plain "T"). Qed.

(** JSON values are countable: they are trees. *)
Abbreviation tree := (gen_tree (bool + (Z + string))).

Fixpoint value_tree (v : Value) : tree :=
  match v with
  | Null => GenNode 0 []
  | VBool b => GenLeaf (inl b)
  | VNumber (PosInt z) => GenNode 1 [GenLeaf (inr (inl z))]
  | VNumber (NegInt z) => GenNode 2 [GenLeaf (inr (inl z))]
  | VNumber (Float z) => GenNode 3 [GenLeaf (inr (inl z))]
  | VString s => GenLeaf (inr (inr s))
  | VArray l => GenNode 4 (value_tree <$> l)
  | VObject m => GenNode 5 ((λ kv, GenNode 6 [GenLeaf (inr (inr kv.1)); value_tree kv.2]) <$> m)
  end.

Fixpoint tree_value (t : tree) : Value :=
  match t with
  | GenLeaf (inl b) => VBool b
  | GenLeaf (inr (inr s)) => VString s
  | GenNode 1 [GenLeaf (inr (inl z))] => VNumber (PosInt z)
  | GenNode 2 [GenLeaf (inr (inl z))] => VNumber (NegInt z)
  | GenNode 3 [GenLeaf (inr (inl z))] => VNumber (Float z)
  | GenNode 4 l => VArray (tree_value <$> l)
  | GenNode 5 l => VObject ((λ t, match t with
      | GenNode 6 [GenLeaf (inr (inr k)); t] => (k, tree_value t)
      | _ => (EmptyString, Null)
      end) <$> l)
  | _ => Null
  end.

Lemma tree_value_tree v : tree_value (value_tree v) = v.
Proof.
  induction v as [| | [] | |l IH|m IH] using Value_ind'; try done; simpl; f_equal.
  - induction IH as [|x l Hx _ IHl]; [done|]. by rewrite !fmap_cons, Hx, IHl.
  - induction IH as [|[k x] m Hx _ IHm]; [done|]. rewrite !fmap_cons, IHm. simpl in *. by rewrite Hx.
Qed.

#[export] Instance Value_countable : Countable Value :=
  inj_countable' value_tree tree_value tree_value_tree.

#[export] Instance jsontext : JsonText := {|
  json_to_vec v := to_text v;
  json_from_slice b := ok_or (of_text b) "invalid JSON" |}.
#[export] Instance jsontext_laws : JsonTextLaws.
Proof.
  split.
  - intros v _ _. cbn -[of_text to_text]. by rewrite of_to_text_nil.
  - intros v. cbn -[of_text to_text]. by rewrite of_to_text, of_to_text_nil.
  - intros v. by apply text_without.
  - intros v. apply text_not_blank.
  - intros v. apply text_utf8.
  - intros v. by apply text_without.
Qed.

#[export] Instance json_object_laws : JsonObjectLaws.
Proof.
  split.
  - intros m. by eexists _, _.
  - intros m n Hn. cbn -[of_text to_text String.substring] in *. by rewrite of_text_cut.
Qed.

(** A keyed checksum with the sizes of Ed25519; the secret is not secret. *)
Fixpoint pad (n : nat) (s : string) : string :=
  match n with
  | O => EmptyString
  | S n => match s with
           | EmptyString => String "0" (pad n EmptyString)
           | String c s => String c (pad n s)
           end
  end.

Lemma pad_length n s : String.length (pad n s) = n.
Proof. revert s. induction n as [|n IH]; intros [|c s]; simpl; auto. Qed.

Definition check_length (n : nat) (s : bytes) : result string bytes :=
  if bool_decide (String.length s = n) then Ok s else Err "invalid length".

#[export] Instance ed25519 : Ed25519Ops := {|
  verifying_key_of sk := pad 32 sk;
  verifying_key_from_bytes := check_length 32;
  ed_sign sk msg := pad 32 sk +:+ pad 32 (str_rev msg);
  signature_from_slice := check_length 64;
  ed_verify vk msg sig := bool_decide (sig = vk +:+ pad 32 (str_rev msg)) |}.

#[export] Instance ed25519_laws : Ed25519Laws.
Proof.
  split; cbn -[pad]; unfold check_length; intros.
  - by apply bool_decide_eq_true.
  - by rewrite string_length_app, !pad_length.
  - apply pad_length.
  - by rewrite bool_decide_eq_true_2 by apply pad_length.
  - case_bool_decide; naive_solver.
  - by rewrite bool_decide_eq_true_2.
Qed.

(** Hexadecimal. *)
Fixpoint hexenc (s : bytes) : string :=
  match s with
  | EmptyString => EmptyString
  | String c s => hex_digit (nat_of_ascii c / 16) +:+ hex_digit (nat_of_ascii c mod 16) +:+ hexenc s
  end.

Definition unhex (c : ascii) : nat :=
  let n := nat_of_ascii c in if (n <? 58)%nat then (n - 48)%nat else (n - 87)%nat.

Fixpoint hexdec (s : string) : result string bytes :=
  match s with
  | EmptyString => Ok EmptyString
  | String a (String b s) =>
      rest ← hexdec s; Ok (String (ascii_of_nat (unhex a * 16 + unhex b)) rest)
  | _ => Err "Odd number of digits"
  end.

Lemma hex_byte c s :
  hexdec (hex_digit (nat_of_ascii c / 16) +:+ hex_digit (nat_of_ascii c mod 16) +:+ s)
  = (rest ← hexdec s; Ok (String c rest)).
Proof. destruct c as [[] [] [] [] [] [] [] []]; done. Qed.

Lemma hexdec_enc b : hexdec (hexenc b) = Ok b.
Proof. induction b as [|c b IH]; [done|]. cbn [hexenc]. by rewrite hex_byte, IH. Qed.

Lemma hexenc_chars b : forallb hex_char (String.list_ascii_of_string (hexenc b)) = true.
Proof.
  induction b as [|c b IH]; [done|]. cbn [hexenc].
  destruct c as [[] [] [] [] [] [] [] []]; simpl; exact IH.
Qed.

#[export] Instance hex : Hex := {| hex_encode := hexenc; hex_decode := hexdec |}.
#[export] Instance hex_laws : HexLaws.
Proof. split; [apply hexdec_enc | apply hexenc_chars]. Qed.

#[export] Instance uuid : UuidText := {| uuid_display := hexenc; uuid_parse := hexdec |}.
#[export] Instance uuid_laws : UuidLaws.
Proof.
  split; [apply hexdec_enc|]. intros u. cbn. pose proof (hexenc_chars u) as Hc.
  rewrite forallb_forall in *. intros c Hin. unfold uuid_char. by rewrite (Hc c Hin).
Qed.

(** A checksum of 32 bytes. *)
#[export] Instance hmac : Hmac := {| hmac_sha256 k m := pad 32 (str_rev (k +:+ m)) |}.
#[export] Instance hmac_laws : HmacLaws.
Proof. split. intros. apply pad_length. Qed.

End Concrete.
