(* ===== verification/AuthError.v ===== *)
(** * Errors of [agentguard-auth] ([agentguard-auth/src/error.rs]) *)

From S2P Require Import Prelude.

Inductive AuthError : Type :=
| JwtInvalid (s : string)
| JwtExpired
| JwtAudienceMismatch (expected actual : string)
| JwtIssuerMismatch (expected actual : string)
| JwtUnknownKid (s : string)
| OidcDiscovery (s : string)
| JwksFetch (s : string)
| DpopInvalid (s : string)
| DpopHtuMismatch (expected actual : string)
| DpopReplay (jti : string)
| DpopCapacityExceeded
| SpiffeFetch (s : string)
| SpiffeExpired
| ApiKeyInvalid
| ApiKeyExpired
| ApiKeyRevoked
| AuthClock (s : string)
| AuthOther (s : string).

#[export] Instance AuthError_eq_dec : EqDecision AuthError.
Proof. solve_decision. Defined.

(** [#[error("...")]] *)
Definition auth_error_display (e : AuthError) : string :=
  match e with
  | JwtInvalid s => "jwt invalid: " +:+ s
  | JwtExpired => "jwt expired"
  | JwtAudienceMismatch expected actual =>
      "jwt audience mismatch: expected " +:+ expected +:+ ", got " +:+ actual
  | JwtIssuerMismatch expected actual =>
      "jwt issuer mismatch: expected " +:+ expected +:+ ", got " +:+ actual
  | JwtUnknownKid s => "jwt unknown key id: " +:+ s
  | OidcDiscovery s => "oidc discovery failed: " +:+ s
  | JwksFetch s => "jwks fetch failed: " +:+ s
  | DpopInvalid s => "dpop invalid: " +:+ s
  | DpopHtuMismatch expected actual =>
      "dpop htu mismatch: expected " +:+ expected +:+ ", got " +:+ actual
  | DpopReplay jti => "dpop replay detected (jti=" +:+ jti +:+ ")"
  | DpopCapacityExceeded => "dpop replay tracker capacity exceeded"
  | SpiffeFetch s => "spiffe fetch failed: " +:+ s
  | SpiffeExpired => "spiffe identity expired"
  | ApiKeyInvalid => "api key invalid"
  | ApiKeyExpired => "api key expired"
  | ApiKeyRevoked => "api key revoked"
  | AuthClock s => "clock error: " +:+ s
  | AuthOther s => "other: " +:+ s
  end.

(** [agentguard_auth::Result] *)
Abbreviation aresult := (result AuthError).
