(* ===== verification/Replay.v ===== *)
(** * Replay tracking ([agentguard-auth/src/jti.rs])

    [JtiTracker]: the proof identifiers seen, with the time of each, a time to live and a
    capacity.  Instants and durations are [Z] (nanoseconds); the clock reading of each
    call is an argument. *)

From S2P Require Import Prelude Crypto AuthError.

Definition DEFAULT_MAX_ENTRIES : Z := 262144.
Definition SWEEP_DIVISOR : Z := 4.

Record JtiState : Type := mkJtiState {
  seen : gmap bytes Z;
  last_sweep : Z;
}.

Record JtiTracker : Type := mkJtiTracker {
  jti_state : JtiState;
  jti_ttl : Z;
  max_entries : Z;
  sweep_interval : Z;
}.

Definition jti_build (ttl max_entries now : Z) : JtiTracker :=
  mkJtiTracker (mkJtiState ∅ now) ttl max_entries (ttl / SWEEP_DIVISOR).

Definition jti_new (ttl now : Z) : JtiTracker := jti_build ttl DEFAULT_MAX_ENTRIES now.

Definition jti_with_capacity (ttl max_entries now : Z) : aresult JtiTracker :=
  _ ← bail_if (max_entries =? 0) (DpopInvalid "JTI tracker capacity must be positive");
  Ok (jti_build ttl max_entries now).

(** [Instant::duration_since] saturates at zero. *)
Definition duration_since (now t : Z) : Z := Z.max 0 (now - t).

Definition jti_len (t : JtiTracker) : Z := Z.of_nat (size (seen (jti_state t))).
Definition jti_is_empty (t : JtiTracker) : bool := jti_len t =? 0.

Definition with_jti_state (t : JtiTracker) (s : JtiState) : JtiTracker :=
  mkJtiTracker s (jti_ttl t) (max_entries t) (sweep_interval t).

(** The opportunistic sweep. *)
Definition jti_sweep (t : JtiTracker) (s : JtiState) (now : Z) : JtiState :=
  if sweep_interval t <=? duration_since now (last_sweep s)
  then mkJtiState (filter (λ kv, duration_since now kv.2 < jti_ttl t) (seen s)) now
  else s.

Section tracker.
Context `{Hex}.

(** The body runs under one lock, so calls are atomic. *)
Definition jti_check_and_record (t : JtiTracker) (jti : bytes) (now : Z) :
    aresult unit * JtiTracker :=
  let s := jti_state t in
  if match seen s !! jti with
     | Some seen_at => duration_since now seen_at <? jti_ttl t
     | None => false
     end
  then (Err (DpopReplay (hex_encode jti)), t)
  else
    let s := jti_sweep t (mkJtiState (delete jti (seen s)) (last_sweep s)) now in
    if max_entries t <=? Z.of_nat (size (seen s))
    then (Err DpopCapacityExceeded, with_jti_state t s)
    else (Ok tt, with_jti_state t (mkJtiState (<[jti := now]> (seen s)) (last_sweep s))).

(** ** Runs *)

(** Calls in the order of the lock, with clock readings that do not decrease: the
    reading of the last call, the acceptances so far (newest first) and the tracker. *)
Inductive jti_step : Z * list (bytes * Z) * JtiTracker → Z * list (bytes * Z) * JtiTracker → Prop :=
| jti_call last log t jti now :
    last ≤ now →
    jti_step (last, log, t)
      (now, if is_ok (jti_check_and_record t jti now).1 then (jti, now) :: log else log,
       (jti_check_and_record t jti now).2).

(** The acceptances of one identifier are a time to live apart, newest first. *)
Definition spaced (ttl : Z) (log : list (bytes * Z)) : Prop :=
  ∀ a b c jti t1 t2, log = a ++ (jti, t2) :: b ++ (jti, t1) :: c → t1 + ttl ≤ t2.

Record jti_inv (ttl cap : Z) (s : Z * list (bytes * Z) * JtiTracker) : Prop := {
  ji_ttl : jti_ttl s.2 = ttl ∧ max_entries s.2 = cap ∧ sweep_interval s.2 = ttl / SWEEP_DIVISOR;
  (** what is live is still in the table *)
  ji_live jti t : (jti, t) ∈ s.1.2 → s.1.1 < t + ttl → seen (jti_state s.2) !! jti = Some t;
  (** what is in the table was accepted, and was live at the last sweep *)
  ji_seen jti t : seen (jti_state s.2) !! jti = Some t →
    (jti, t) ∈ s.1.2 ∧ t ≤ s.1.1 ∧ last_sweep (jti_state s.2) < t + ttl;
  ji_sweep : last_sweep (jti_state s.2) ≤ s.1.1;
  ji_past jti t : (jti, t) ∈ s.1.2 → t ≤ s.1.1;
  ji_size : jti_len s.2 ≤ cap;
  ji_spaced : spaced ttl s.1.2;
}.

(** ** The invariant *)

Lemma jti_sweep_size t s now : (size (seen (jti_sweep t s now)) ≤ size (seen s))%nat.
Proof.
  unfold jti_sweep. case_match; simpl; [apply map_subseteq_size, map_filter_subseteq|done].
Qed.

Lemma jti_sweep_other t s now j a :
  seen s !! j = Some a → duration_since now a < jti_ttl t → seen (jti_sweep t s now) !! j = Some a.
Proof. unfold jti_sweep. intros Ha Hd. case_match; [by apply map_lookup_filter_Some|done]. Qed.

Lemma jti_sweep_spec t s now :
  last_sweep s ≤ now →
  (∀ j a, seen (jti_sweep t s now) !! j = Some a →
     seen s !! j = Some a ∧
     (last_sweep s < a + jti_ttl t → last_sweep (jti_sweep t s now) < a + jti_ttl t) ∧
     (last_sweep s < a + jti_ttl t → now < a + jti_ttl t + Z.max 0 (sweep_interval t))) ∧
  (∀ j a, seen s !! j = Some a → a ≤ now → now < a + jti_ttl t → 0 < jti_ttl t →
     seen (jti_sweep t s now) !! j = Some a) ∧
  last_sweep (jti_sweep t s now) ≤ now ∧
  (size (seen (jti_sweep t s now)) ≤ size (seen s))%nat.
Proof.
  intros Hls. unfold jti_sweep, duration_since. destruct (_ <=? _) eqn:Hint; bool_inv; simpl.
  - split_and!; [| |lia|apply map_subseteq_size, map_filter_subseteq].
    + intros j a [Ha Hlt]%map_lookup_filter_Some. simpl in Hlt. split; [done|lia].
    + intros j a Ha Hle Hlt Hpos. apply map_lookup_filter_Some. simpl. split; [done|lia].
  - split_and!; [|done|lia|lia]. intros j a Ha. split; [done|lia].
Qed.

(** A call that is not refused as a replay is a time to live after every acceptance. *)
Lemma not_replay ttl cap last log t jti now :
  0 < ttl → jti_inv ttl cap (last, log, t) → last ≤ now →
  (match seen (jti_state t) !! jti with
   | Some seen_at => duration_since now seen_at <? jti_ttl t
   | None => false
   end) = false →
  ∀ t1, (jti, t1) ∈ log → t1 + ttl ≤ now.
Proof.
  intros Hpos [(Httl & _ & _) Hlive _ _ Hpast _ _] Hle Hno t1 Hin. simpl in *.
  destruct (decide (t1 + ttl ≤ now)) as [|Hlt]; [done|]. exfalso.
  pose proof (Hpast _ _ Hin). rewrite (Hlive _ _ Hin) in Hno by lia.
  unfold duration_since in Hno. bool_inv. lia.
Qed.

Lemma spaced_cons ttl jti now log :
  (∀ t1, (jti, t1) ∈ log → t1 + ttl ≤ now) → spaced ttl log → spaced ttl ((jti, now) :: log).
Proof.
  intros Hnew Hs [|x a] b c j t1 t2 Heq; simpl in Heq.
  - injection Heq as -> -> ->. apply Hnew. set_solver.
  - injection Heq as _ ->. by eapply Hs.
Qed.

(** The table once the identifier of the call is taken out and the sweep is done. *)
Definition swept (t : JtiTracker) (jti : bytes) (now : Z) : JtiState :=
  jti_sweep t (mkJtiState (delete jti (seen (jti_state t))) (last_sweep (jti_state t))) now.

Lemma swept_spec ttl cap last log t jti now :
  0 < ttl → jti_inv ttl cap (last, log, t) → last ≤ now →
  (∀ t1, (jti, t1) ∈ log → t1 + ttl ≤ now) →
  let s1 := swept t jti now in
  (∀ j a, seen s1 !! j = Some a →
     j ≠ jti ∧ (j, a) ∈ log ∧ a ≤ now ∧ last_sweep s1 < a + ttl ∧
     now < a + ttl + Z.max 0 (sweep_interval t)) ∧
  (∀ j a, (j, a) ∈ log → now < a + ttl → seen s1 !! j = Some a) ∧
  last_sweep s1 ≤ now ∧ Z.of_nat (size (seen s1)) ≤ cap.
Proof.
  intros Hpos [(Httl & Hc & Hsi) Hl Hs Hsw Hp Hsz Hsp] Hle Hnew s1. simpl in *.
  destruct (jti_sweep_spec t (mkJtiState (delete jti (seen (jti_state t)))
    (last_sweep (jti_state t))) now ltac:(simpl; lia)) as (H1 & H2 & H3 & H4).
  fold (swept t jti now) in *. fold s1 in H1, H2, H3, H4. simpl in *. rewrite Httl in *.
  split_and!.
  - intros j a Ha. destruct (H1 _ _ Ha) as (Ha0 & Hls & Hwin).
    apply lookup_delete_Some in Ha0 as [Hne Ha0]. destruct (Hs _ _ Ha0) as (Hin & Hal & Hla).
    split_and!; [done|done|lia|by apply Hls|by apply Hwin].
  - intros j a Hin Hlt. assert (j ≠ jti) by (intros ->; specialize (Hnew _ Hin); lia).
    specialize (Hp _ _ Hin). apply H2; [|lia|lia|lia].
    rewrite lookup_delete_ne by done. apply Hl; [done|lia].
  - done.
  - unfold jti_len in Hsz.
    pose proof (map_subseteq_size _ _ (delete_subseteq (seen (jti_state t)) jti)). lia.
Qed.

Lemma jti_step_inv ttl cap s s' :
  0 < ttl → jti_step s s' → jti_inv ttl cap s → jti_inv ttl cap s'.
Proof.
  intros Hpos [last log t jti now Hle] Hinv. unfold jti_check_and_record.
  destruct (match seen (jti_state t) !! jti with Some _ => _ | None => _ end) eqn:Hrep; simpl.
  { destruct Hinv as [Ht Hl Hs Hsw Hp Hsz Hsp]. simpl in *. split; simpl; try done; try lia.
    - intros. apply Hl; [done|lia].
    - intros j a Ha. destruct (Hs _ _ Ha) as (? & ? & ?). split_and!; [done|lia|lia].
    - intros j a Ha. specialize (Hp _ _ Ha). lia. }
  pose proof (not_replay _ _ _ _ _ _ _ Hpos Hinv Hle Hrep) as Hnew. fold (swept t jti now).
  destruct (swept_spec _ _ _ _ _ _ _ Hpos Hinv Hle Hnew) as (Hold & Hkeep & H3 & Hs1).
  set (s1 := swept t jti now) in *. destruct Hinv as [(Httl & Hc & Hsi) _ _ _ Hp _ Hsp]. simpl in *.
  assert (Hpast : ∀ j a, (j, a) ∈ log → a ≤ now).
  { intros j a Hin. specialize (Hp _ _ Hin). lia. }
  destruct (max_entries t <=? Z.of_nat (size (seen s1))) eqn:Hfull; bool_inv; split; simpl; try done.
  - intros j a Ha. destruct (Hold _ _ Ha) as (_ & ? & ? & ? & _). done.
  - intros j a [[= -> ->]|Hin]%elem_of_cons Hlt; [by rewrite lookup_insert_eq|].
    rewrite lookup_insert_ne; [by apply Hkeep|]. intros <-. specialize (Hnew _ Hin). lia.
  - intros j a [[<- <-]|[Hne Ha]]%lookup_insert_Some.
    + split_and!; [by left|lia|lia].
    + destruct (Hold _ _ Ha) as (_ & ? & ? & ? & _). split_and!; [by right|lia|lia].
  - intros j a [[= -> ->]|Hin]%elem_of_cons; [lia|]. by eapply Hpast.
  - unfold jti_len. simpl. rewrite map_size_insert_None; [lia|].
    destruct (seen s1 !! jti) eqn:Hj; [|done]. by destruct (Hold _ _ Hj).
  - by apply spaced_cons.
Qed.

Lemma jti_run_inv ttl cap start t0 last log t :
  0 < ttl → 0 ≤ cap → jti_with_capacity ttl cap start = Ok t0 →
  rtc jti_step (start, [], t0) (last, log, t) → jti_inv ttl cap (last, log, t).
Proof.
  unfold jti_with_capacity. intros Hpos Hcap Hnew Hrun. res_inv. subst t0.
  eapply rtc_invariant; [intros ? ?; by apply jti_step_inv|exact Hrun|].
  split; simpl; try done; try by intros ? ? ?%elem_of_nil.
  intros [|? ?]; by intros.
Qed.

(** C14: the tracker refuses exactly the replays.  After any sequence of calls, in the order of
    the lock and with readings of the clock in that order (the code reads it just before it
    takes the lock), a proof identifier is refused as a replay exactly when it was accepted less
    than the time to live ago; so two acceptances of one identifier are at least that far
    apart. *)
Theorem jti_replay_iff ttl cap start t0 last log t jti now :
  0 < ttl → 0 ≤ cap → jti_with_capacity ttl cap start = Ok t0 →
  rtc jti_step (start, [], t0) (last, log, t) → last ≤ now →
  ((jti_check_and_record t jti now).1 = Err (DpopReplay (hex_encode jti)) ↔
   ∃ t1, (jti, t1) ∈ log ∧ now < t1 + ttl) ∧ spaced ttl log.
Proof.
  intros Hpos Hcap Hnew Hrun Hle. pose proof (jti_run_inv _ _ _ _ _ _ _ Hpos Hcap Hnew Hrun) as Hinv.
  split; [|apply Hinv]. pose proof (not_replay _ _ _ _ _ jti _ Hpos Hinv Hle) as Hnot.
  destruct Hinv as [(Httl & _ & _) Hl Hs _ Hp _ _]. simpl in *. unfold jti_check_and_record.
  destruct (match seen (jti_state t) !! jti with Some _ => _ | None => _ end) eqn:Hrep.
  - split; [intros _|done]. destruct (seen (jti_state t) !! jti) as [t1|] eqn:Hj; [|done].
    exists t1. destruct (Hs _ _ Hj) as (Hin & Hle1 & _). unfold duration_since in Hrep. bool_inv.
    split; [done|lia].
  - split; [by destruct (_ <=? _)|]. intros (t1 & Hin & Hlt). specialize (Hnot eq_refl _ Hin). lia.
Qed.

(** Memory is bounded and only a real flood exhausts it.  The table never holds more
    identifiers than its capacity, and a call is refused for lack of room only when that
    many other identifiers were accepted within the time to live and a quarter of it
    (the longest an expired entry can stay). *)
Theorem jti_capacity_bound ttl cap start t0 last log t jti now :
  0 < ttl → 0 ≤ cap → jti_with_capacity ttl cap start = Ok t0 →
  rtc jti_step (start, [], t0) (last, log, t) → last ≤ now →
  jti_len t ≤ cap ∧
  ((jti_check_and_record t jti now).1 = Err DpopCapacityExceeded →
   ∃ recent : gmap bytes Z, Z.of_nat (size recent) = cap ∧
     map_Forall (λ j a, j ≠ jti ∧ (j, a) ∈ log ∧ now < a + ttl + ttl / 4) recent).
Proof.
  intros Hpos Hcap Hnew Hrun Hle. pose proof (jti_run_inv _ _ _ _ _ _ _ Hpos Hcap Hnew Hrun) as Hinv.
  split; [apply Hinv|]. unfold jti_check_and_record. fold (swept t jti now).
  destruct (match seen (jti_state t) !! jti with Some _ => _ | None => _ end) eqn:Hrep; [done|].
  pose proof (not_replay _ _ _ _ _ _ _ Hpos Hinv Hle Hrep) as Hno.
  destruct (swept_spec _ _ _ _ _ _ _ Hpos Hinv Hle Hno) as (Hold & _ & _ & Hsz).
  destruct Hinv as [(_ & Hc & Hsi) _ _ _ _ _ _]. simpl in Hc, Hsi.
  destruct (max_entries t <=? Z.of_nat (size (seen (swept t jti now)))) eqn:Hfull; [intros _|done].
  bool_inv. exists (seen (swept t jti now)). split; [lia|].
  intros j a Ha. destruct (Hold _ _ Ha) as (Hne & Hin & _ & _ & Hwin). split_and!; [done|done|].
  rewrite Hsi in Hwin. unfold SWEEP_DIVISOR in Hwin. pose proof (Z.div_pos ttl 4). lia.
Qed.
End tracker.

(** ** A run *)

Import Concrete.

Definition two_slots : JtiTracker := jti_build 100 2 0.
Definition after_two : JtiTracker :=
  (jti_check_and_record (jti_check_and_record two_slots "a" 10).2 "b" 20).2.

Lemma two_slots_run : rtc jti_step (0, [], two_slots) (20, [("b", 20); ("a", 10)], after_two).
Proof.
  eapply rtc_l; [apply (jti_call 0 [] two_slots "a" 10); lia|].
  apply rtc_once.
  apply (jti_call 10 [("a", 10)] (jti_check_and_record two_slots "a" 10).2 "b" 20). lia.
Qed.

(** The witness of [jti_replay_iff]. *)
Example jti_replay_iff_witness :
  (jti_check_and_record after_two "a" 109).1 = Err (DpopReplay (hex_encode "a")).
Proof.
  destruct (jti_replay_iff 100 2 0 two_slots 20 [("b", 20); ("a", 10)] after_two "a" 109) as [Hr _].
  - lia.
  - lia.
  - reflexivity.
  - apply two_slots_run.
  - lia.
  - apply Hr. exists 10. split; [right; left|lia].
Defined.

(** The witness of [jti_capacity_bound]: two live identifiers leave no room for a third. *)
Example jti_capacity_bound_witness :
  ∃ recent : gmap bytes Z, Z.of_nat (size recent) = 2 ∧
    map_Forall (λ j a, j ≠ "c" ∧ (j, a) ∈ [("b", 20); ("a", 10)] ∧ 30 < a + 100 + 100 / 4) recent.
Proof.
  apply (jti_capacity_bound 100 2 0 two_slots 20 [("b", 20); ("a", 10)] after_two "c" 30).
  - lia.
  - lia.
  - reflexivity.
  - apply two_slots_run.
  - lia.
  - reflexivity.
Defined.

(** An expired identifier can still take the room of a new one: at 111 the only entry, of
    time 10, is past its time to live of 100, but the last sweep, at 100, is too recent. *)
Example expired_entry_takes_room :
  let t := (jti_check_and_record (jti_build 100 1 0) "a" 10).2 in
  let t := (jti_check_and_record t "b" 100).2 in
  (jti_check_and_record t "b" 111).1 = Err DpopCapacityExceeded.
Proof. vm_compute. reflexivity. Qed.
