(* ===== verification/Dpop.v ===== *)
(** * DPoP proofs ([agentguard-auth/src/dpop.rs], [agentguard-core/src/jwk.rs])

    [DpopVerifier] checks a proof of possession (a compact JWS that carries its own key)
    against the thumbprint an access token is bound to, and asks a replay store whether
    the proof's identifier is fresh.  The store is an interface; [JtiTracker] is the
    instance the crate has.  The clock reading of a call is an argument. *)

From S2P Require Import Prelude Json Crypto AuthError Replay.

Definition DPOP_ALG_EDDSA : string := "EdDSA".

(** ** The replay-state port *)

(** [DpopReplayStore] and [AsyncDpopReplayStore]: the calls are atomic. *)
Class DpopReplayStore (S : Type) := {
  check_and_record : S → bytes → Z → aresult unit * S;
}.

(** What the trait asks of an implementation: an accepted identifier is retained, and
    refused, for the window of the store. *)
Class ReplayLaws (S : Type) `{DpopReplayStore S} := {
  rs_window : S → Z;
  rs_retains : S → bytes → Z → Prop;
  rs_window_const s k now : rs_window (check_and_record s k now).2 = rs_window s;
  rs_accept s k now :
    (check_and_record s k now).1 = Ok tt → rs_retains (check_and_record s k now).2 k now;
  rs_keep s k t k' now :
    rs_retains s k t → t ≤ now < t + rs_window s → rs_retains (check_and_record s k' now).2 k t;
  rs_refuse s k t now :
    rs_retains s k t → t ≤ now < t + rs_window s → (check_and_record s k now).1 ≠ Ok tt;
}.

#[export] Instance tracker_store `{Hex} : DpopReplayStore JtiTracker := {|
  check_and_record := jti_check_and_record |}.

(** ** The verifier *)

Inductive ReplayStore (S : Type) : Type := Sync (store : S) | Async (store : S).
Arguments Sync {S} store.
Arguments Async {S} store.

Record DpopVerifier (S : Type) : Type := mkDpopVerifier {
  replay_store : ReplayStore S;
  allowed_clock_skew : Z;
}.
Arguments mkDpopVerifier {S} _ _.
Arguments replay_store {S} _.
Arguments allowed_clock_skew {S} _.

Definition dpop_new {S} (store : S) : DpopVerifier S := mkDpopVerifier (Sync store) 30000000000.
Definition dpop_new_async {S} (store : S) : DpopVerifier S :=
  mkDpopVerifier (Async store) 30000000000.

(** [v.get(name).and_then(|v| v.as_str())] *)
Definition member_str (v : Value) (name : string) : option string := get v name ≫= as_str.

Section proof.
Context `{Base64, JsonText, Ed25519Ops, Sha256}.

Definition parse_proof (dpop_header : string) : aresult (Value * Value * bytes * bytes) :=
  match split "."%char dpop_header with
  | [p0; p1; p2] =>
      header_bytes ← map_err (λ e, DpopInvalid ("header b64: " +:+ e)) (b64_decode p0);
      header ← map_err (λ e, DpopInvalid ("header json: " +:+ e)) (json_from_slice header_bytes);
      claims_bytes ← map_err (λ e, DpopInvalid ("claims b64: " +:+ e)) (b64_decode p1);
      claims ← map_err (λ e, DpopInvalid ("claims json: " +:+ e)) (json_from_slice claims_bytes);
      signature ← map_err (λ e, DpopInvalid ("sig b64: " +:+ e)) (b64_decode p2);
      Ok (header, claims, p0 +:+ "." +:+ p1, signature)
  | _ => Err (DpopInvalid "expected 3 segments")
  end.

Definition check_header (header : Value) : aresult Value :=
  let header_typ := default "" (member_str header "typ") in
  _ ← bail_if (bool_decide (header_typ ≠ "dpop+jwt"))
        (DpopInvalid ("header typ must be 'dpop+jwt', got " +:+ debug_str header_typ));
  header_alg ← ok_or (member_str header "alg") (DpopInvalid "missing alg");
  _ ← bail_if (bool_decide (header_alg ≠ DPOP_ALG_EDDSA))
        (DpopInvalid ("alg " +:+ debug_str header_alg +:+ " not in DPoP whitelist"));
  ok_or (get header "jwk") (DpopInvalid "missing jwk in header").

Definition parse_ed25519_jwk (jwk : Value) : aresult bytes :=
  _ ← ok_or (as_object jwk) (DpopInvalid "jwk must be a JSON object");
  kty ← ok_or (member_str jwk "kty") (DpopInvalid "jwk missing kty");
  _ ← bail_if (bool_decide (kty ≠ "OKP")) (DpopInvalid ("jwk kty must be OKP, got " +:+ kty));
  crv ← ok_or (member_str jwk "crv") (DpopInvalid "jwk missing crv");
  _ ← bail_if (bool_decide (crv ≠ "Ed25519")) (DpopInvalid ("jwk crv must be Ed25519, got " +:+ crv));
  x ← ok_or (member_str jwk "x") (DpopInvalid "jwk missing x");
  raw ← map_err (λ e, DpopInvalid ("jwk x b64: " +:+ e)) (b64_decode x);
  _ ← bail_if (negb (len raw =? 32)) (DpopInvalid ("jwk x must be 32 bytes, got " +:+ pretty (len raw)));
  Ok raw.

Definition quoted (s : string) : string := double_quote +:+ s +:+ double_quote.

(** The text whose digest is the RFC 7638 thumbprint. *)
Definition thumbprint_text (x_b64 crv : string) : string :=
  let crv := if bool_decide (crv = "") then "Ed25519" else crv in
  "{" +:+ quoted "crv" +:+ ":" +:+ quoted crv +:+ "," +:+ quoted "kty" +:+ ":" +:+ quoted "OKP"
  +:+ "," +:+ quoted "x" +:+ ":" +:+ quoted x_b64 +:+ "}".

Definition thumbprint_ed25519 (x_b64 crv : string) : string :=
  b64_encode (sha256 (thumbprint_text x_b64 crv)).

Definition jwk_thumbprint_ed25519 (jwk : Value) : aresult string :=
  _ ← ok_or (as_object jwk) (DpopInvalid "jwk not object");
  crv ← ok_or (member_str jwk "crv") (DpopInvalid "jwk missing crv");
  x ← ok_or (member_str jwk "x") (DpopInvalid "jwk missing x");
  Ok (thumbprint_ed25519 x crv).

Definition verify_dpop_signature (raw_key signing_input signature : bytes) : aresult unit :=
  vk ← map_err (λ e, DpopInvalid ("jwk key: " +:+ e)) (verifying_key_from_bytes raw_key);
  sig ← map_err (λ e, DpopInvalid ("ed25519 sig: " +:+ e)) (signature_from_slice signature);
  bail_if (negb (ed_verify vk signing_input sig)) (DpopInvalid "signature verification failed").

(** [URL_SAFE_NO_PAD.encode(Sha256(access_token))] *)
Definition expected_ath (access_token : string) : string := b64_encode (sha256 access_token).

Definition check_htm_htu_ath (claims : Value) (htm htu access_token : string) : aresult unit :=
  let claim_htm := default "" (member_str claims "htm") in
  _ ← bail_if (bool_decide (claim_htm ≠ htm))
        (DpopInvalid ("htm mismatch: expected " +:+ htm +:+ ", got " +:+ claim_htm));
  let claim_htu := default "" (member_str claims "htu") in
  _ ← bail_if (bool_decide (claim_htu ≠ htu)) (DpopHtuMismatch htu claim_htu);
  let claim_ath := default "" (member_str claims "ath") in
  bail_if (bool_decide (claim_ath ≠ expected_ath access_token)) (DpopInvalid "ath mismatch").

Definition jti_to_replay_key (jti : option string) : aresult bytes :=
  jti_str ← ok_or jti (DpopInvalid "missing jti");
  Ok (String.substring 0 16 (sha256 jti_str)).

(** [constant_time_eq] is equality of byte strings. *)
Definition constant_time_eq (a b : bytes) : bool := bool_decide (a = b).

Definition verify_proof (dpop_header access_token htm htu expected_jkt : string) : aresult bytes :=
  '(header, claims, signing_input, signature) ← parse_proof dpop_header;
  jwk ← check_header header;
  raw_key ← parse_ed25519_jwk jwk;
  thumbprint ← jwk_thumbprint_ed25519 jwk;
  _ ← bail_if (negb (constant_time_eq thumbprint expected_jkt)) (DpopInvalid "jkt mismatch");
  _ ← verify_dpop_signature raw_key signing_input signature;
  _ ← check_htm_htu_ath claims htm htu access_token;
  jti_to_replay_key (member_str claims "jti").

Context {S : Type} `{DpopReplayStore S}.

Definition with_store (v : DpopVerifier S) (s : ReplayStore S) : DpopVerifier S :=
  mkDpopVerifier s (allowed_clock_skew v).

Definition dpop_verify (v : DpopVerifier S) (dpop_header access_token htm htu expected_jkt : string)
    (now : Z) : aresult unit * DpopVerifier S :=
  match verify_proof dpop_header access_token htm htu expected_jkt with
  | Err e => (Err e, v)
  | Ok jti_key =>
      match replay_store v with
      | Sync store =>
          let '(r, store) := check_and_record store jti_key now in (r, with_store v (Sync store))
      | Async _ => (Err (DpopInvalid "asynchronous replay store requires verify_async"), v)
      end
  end.

Definition dpop_verify_async (v : DpopVerifier S)
    (dpop_header access_token htm htu expected_jkt : string) (now : Z) :
    aresult unit * DpopVerifier S :=
  match verify_proof dpop_header access_token htm htu expected_jkt with
  | Err e => (Err e, v)
  | Ok jti_key =>
      match replay_store v with
      | Sync store =>
          let '(r, store) := check_and_record store jti_key now in (r, with_store v (Sync store))
      | Async store =>
          let '(r, store) := check_and_record store jti_key now in (r, with_store v (Async store))
      end
  end.
End proof.

(** ** What is accepted *)

Section acceptance.
Context `{Base64, JsonText, Ed25519Ops, Sha256}.

(** The parts of a proof and what the verifier asks of them. *)
Record good_proof (p token htm htu jkt : string) (key : bytes)
    (header claims jwk : Value) (x jti : string) (raw vk sig s : bytes) : Prop := {
  gp_parts : parse_proof p = Ok (header, claims, s, sig);
  gp_typ : member_str header "typ" = Some "dpop+jwt";
  gp_alg : member_str header "alg" = Some "EdDSA";
  gp_jwk : get header "jwk" = Some jwk;
  gp_kty : member_str jwk "kty" = Some "OKP";
  gp_crv : member_str jwk "crv" = Some "Ed25519";
  gp_x : member_str jwk "x" = Some x;
  gp_raw : b64_decode x = Ok raw ∧ len raw = 32;
  gp_jkt : jkt = b64_encode (sha256 (thumbprint_text x "Ed25519"));
  gp_key : verifying_key_from_bytes raw = Ok vk;
  gp_sig : ∃ sg, signature_from_slice sig = Ok sg ∧ ed_verify vk s sg = true;
  gp_htm : default "" (member_str claims "htm") = htm;
  gp_htu : default "" (member_str claims "htu") = htu;
  gp_ath : default "" (member_str claims "ath") = b64_encode (sha256 token);
  gp_jti : member_str claims "jti" = Some jti;
  gp_replay_key : key = String.substring 0 16 (sha256 jti);
}.

Lemma member_str_object v k s : member_str v k = Some s → is_Some (as_object v).
Proof. unfold member_str, get. destruct v; simpl; try done; by eexists. Qed.

Lemma default_nonempty (o : option string) s : default "" o = s → s ≠ "" → o = Some s.
Proof. destruct o; simpl; naive_solver. Qed.

Lemma verify_proof_good p token htm htu jkt key :
  verify_proof p token htm htu jkt = Ok key →
  ∃ header claims jwk x jti raw vk sig s,
    good_proof p token htm htu jkt key header claims jwk x jti raw vk sig s.
Proof.
  unfold verify_proof. intros [[[[header claims] s] sig] [Hp Hv]]%bind_Ok.
  unfold check_header, parse_ed25519_jwk, jwk_thumbprint_ed25519, verify_dpop_signature,
    check_htm_htu_ath, jti_to_replay_key, constant_time_eq, DPOP_ALG_EDDSA in Hv.
  res_inv. bool_inv. simplify_eq.
  do 9 eexists. split; eauto using default_nonempty.
Qed.

Lemma good_proof_verifies p token htm htu jkt key header claims jwk x jti raw vk sig s :
  good_proof p token htm htu jkt key header claims jwk x jti raw vk sig s →
  verify_proof p token htm htu jkt = Ok key.
Proof.
  intros [Hp Ht Ha Hj Hk Hc Hx [Hr Hl] Hjkt Hvk (sg & Hsg & Hver) Hm Hu Hath Hjti ->].
  destruct (member_str_object _ _ _ Hk) as [m Hm'].
  unfold verify_proof. rewrite Hp. simpl.
  unfold check_header. rewrite Ht, Ha. simpl. rewrite Hj. simpl.
  unfold parse_ed25519_jwk. rewrite Hm', Hk. simpl. rewrite Hc. simpl. rewrite Hx. simpl.
  rewrite Hr. simpl. rewrite Hl. simpl.
  unfold jwk_thumbprint_ed25519. rewrite Hm', Hc. simpl. rewrite Hx. simpl.
  unfold constant_time_eq, thumbprint_ed25519. rewrite <-Hjkt, bool_decide_eq_true_2 by done. simpl.
  unfold verify_dpop_signature. rewrite Hvk. simpl. rewrite Hsg. simpl. rewrite Hver. simpl.
  unfold check_htm_htu_ath. rewrite Hm, Hu, Hath, !bool_decide_eq_false_2 by (intros []; done). simpl.
  by rewrite Hjti.
Qed.

(** A proof is accepted, up to replay, exactly when it is an EdDSA [dpop+jwt] token
    signed by the 32-byte Ed25519 key it carries, that key has the expected thumbprint,
    and it names the method, the URI and the access token of the request. *)
Theorem verify_proof_iff p token htm htu jkt key :
  verify_proof p token htm htu jkt = Ok key ↔
  ∃ header claims jwk x jti raw vk sig s,
    good_proof p token htm htu jkt key header claims jwk x jti raw vk sig s.
Proof.
  split; [apply verify_proof_good|].
  intros (? & ? & ? & ? & ? & ? & ? & ? & ? & Hg). by eapply good_proof_verifies.
Qed.
End acceptance.

(** ** The key is bound to the thumbprint *)

Section binding.
Context `{Base64Laws, JsonText, Ed25519Ops, Sha256}.

(** The signature of the proof verifies under [vk]. *)
Definition signed_by (p : string) (vk : bytes) : Prop :=
  ∃ header claims s sig sg, parse_proof p = Ok (header, claims, s, sig) ∧
    signature_from_slice sig = Ok sg ∧ ed_verify vk s sg = true.

Lemma thumbprint_text_inj x y : thumbprint_text x "Ed25519" = thumbprint_text y "Ed25519" → x = y.
Proof.
  unfold thumbprint_text, quoted. simpl. intros Heq. repeat injection Heq as Heq.
  apply (f_equal str_rev) in Heq. rewrite !str_rev_app in Heq. simpl in Heq.
  repeat injection Heq as Heq. apply (f_equal str_rev) in Heq.
  by rewrite !str_rev_involutive in Heq.
Qed.

(** An access token is bound to one key: any two proofs accepted for the same
    thumbprint are signed by the same key, or exhibit a collision of SHA-256. *)
Theorem thumbprint_binds_key p token htm htu p' token' htm' htu' jkt k k' :
  verify_proof p token htm htu jkt = Ok k → verify_proof p' token' htm' htu' jkt = Ok k' →
  (∃ vk, signed_by p vk ∧ signed_by p' vk) ∨
  ∃ x y, x ≠ y ∧ sha256 (thumbprint_text x "Ed25519") = sha256 (thumbprint_text y "Ed25519").
Proof.
  intros (h & c & jwk & x & j & raw & vk & sig & s & G)%verify_proof_good
    (h' & c' & jwk' & x' & j' & raw' & vk' & sig' & s' & G')%verify_proof_good.
  destruct G as [Hp _ _ _ _ _ _ [Hr _] Hjkt Hvk (sg & Hsg & Hver) _ _ _ _ _].
  destruct G' as [Hp' _ _ _ _ _ _ [Hr' _] Hjkt' Hvk' (sg' & Hsg' & Hver') _ _ _ _ _].
  rewrite Hjkt in Hjkt'. apply (f_equal b64_decode) in Hjkt'.
  rewrite !b64_decode_encode in Hjkt'. injection Hjkt' as Hsha.
  destruct (decide (x = x')) as [<-|Hne]; [left|right; by exists x, x'].
  rewrite Hr in Hr'. injection Hr' as <-. rewrite Hvk in Hvk'. injection Hvk' as <-.
  exists vk. split; by repeat eexists.
Qed.
End binding.

(** ** Accepted once *)

#[export] Instance tracker_laws `{Hex} : ReplayLaws JtiTracker.
Proof.
  refine {| rs_window := jti_ttl; rs_retains t k a := seen (jti_state t) !! k = Some a |}.
  - intros t k now. simpl. unfold jti_check_and_record. by repeat case_match.
  - intros t k now. simpl. unfold jti_check_and_record.
    destruct (match seen (jti_state t) !! k with Some _ => _ | None => _ end); [done|].
    destruct (_ <=? _); [done|]. intros _. simpl. by rewrite lookup_insert_eq.
  - intros t k a k' now Hk Hnow. simpl. unfold jti_check_and_record.
    assert (Hd : duration_since now a < jti_ttl t) by (unfold duration_since; lia).
    destruct (match seen (jti_state t) !! k' with Some _ => _ | None => _ end) eqn:Hrep; [done|].
    assert (k ≠ k') by (intros <-; rewrite Hk in Hrep; bool_inv; lia).
    assert (Hs : seen (jti_sweep t (mkJtiState (delete k' (seen (jti_state t)))
                         (last_sweep (jti_state t))) now) !! k = Some a).
    { apply jti_sweep_other; [|done]. simpl. by rewrite lookup_delete_ne. }
    destruct (_ <=? _); simpl; [done|]. by rewrite lookup_insert_ne.
  - intros t k a now Hk Hnow. simpl. unfold jti_check_and_record. rewrite Hk.
    replace (duration_since now a <? jti_ttl t) with true; [done|].
    symmetry. apply Z.ltb_lt. unfold duration_since. lia.
Defined.

Section once.
Context `{Base64, JsonText, Ed25519Ops, Sha256} {S : Type} `{ReplayLaws S}.

Definition store_of (v : DpopVerifier S) : S :=
  match replay_store v with Sync s => s | Async s => s end.

(** The identifier a proof carries. *)
Definition proof_jti (p : string) : option string :=
  '(_, claims, _, _) ← to_ok (parse_proof p); member_str claims "jti".

(** Verifications with clock readings in a window. *)
Inductive verify_step (lo hi : Z) : DpopVerifier S → DpopVerifier S → Prop :=
| vs_sync v p token htm htu jkt now :
    lo ≤ now < hi → verify_step lo hi v (dpop_verify v p token htm htu jkt now).2
| vs_async v p token htm htu jkt now :
    lo ≤ now < hi → verify_step lo hi v (dpop_verify_async v p token htm htu jkt now).2.

(** A verification either leaves the store or is one call of it. *)
Lemma verify_async_inv v p token htm htu jkt now :
  match verify_proof p token htm htu jkt with
  | Ok k => (dpop_verify_async v p token htm htu jkt now).1 = (check_and_record (store_of v) k now).1 ∧
            store_of (dpop_verify_async v p token htm htu jkt now).2
              = (check_and_record (store_of v) k now).2
  | Err e => dpop_verify_async v p token htm htu jkt now = (Err e, v)
  end.
Proof.
  unfold dpop_verify_async, store_of. destruct (verify_proof _ _ _ _ _) as [k|e]; [|done].
  destruct (replay_store v) as [s|s]; by destruct (check_and_record s k now).
Qed.

Lemma verify_sync_state v p token htm htu jkt now :
  dpop_verify v p token htm htu jkt now = dpop_verify_async v p token htm htu jkt now ∨
  (dpop_verify v p token htm htu jkt now).2 = v ∧ is_ok (dpop_verify v p token htm htu jkt now).1 = false.
Proof.
  unfold dpop_verify, dpop_verify_async. destruct (verify_proof _ _ _ _ _); [|by left].
  destruct (replay_store v); [by left|by right].
Qed.

Lemma verify_async_keeps lo hi v p token htm htu jkt now k t :
  lo ≤ now < hi → t ≤ lo → hi ≤ t + rs_window (store_of v) → rs_retains (store_of v) k t →
  let v' := (dpop_verify_async v p token htm htu jkt now).2 in
  rs_retains (store_of v') k t ∧ rs_window (store_of v') = rs_window (store_of v).
Proof.
  intros Hnow Hlo Hhi Hk v'. subst v'. pose proof (verify_async_inv v p token htm htu jkt now) as Hi.
  destruct (verify_proof p token htm htu jkt) as [k'|e]; [|by rewrite Hi].
  destruct Hi as [_ ->]. split; [apply rs_keep; [done|lia]|apply rs_window_const].
Qed.

Lemma verify_step_keeps lo hi v v' k t :
  verify_step lo hi v v' → t ≤ lo → hi ≤ t + rs_window (store_of v) →
  rs_retains (store_of v) k t →
  rs_retains (store_of v') k t ∧ rs_window (store_of v') = rs_window (store_of v).
Proof.
  intros [v0 p token htm htu jkt now Hnow|v0 p token htm htu jkt now Hnow] Hlo Hhi Hk;
    [|by eapply verify_async_keeps].
  destruct (verify_sync_state v0 p token htm htu jkt now) as [->|[-> _]];
    [by eapply verify_async_keeps|done].
Qed.

Lemma verify_steps_keep lo hi v v' k t :
  rtc (verify_step lo hi) v v' → t ≤ lo → hi ≤ t + rs_window (store_of v) →
  rs_retains (store_of v) k t →
  rs_retains (store_of v') k t ∧ rs_window (store_of v') = rs_window (store_of v).
Proof.
  induction 1 as [v|v v1 v' Hstep Hrun IH]; intros Hlo Hhi Hk; [done|].
  destruct (verify_step_keeps _ _ _ _ _ _ Hstep Hlo Hhi Hk) as [Hk1 Hw].
  rewrite <-Hw in Hhi |- *. by apply IH.
Qed.

Lemma verify_proof_jti p token htm htu jkt k :
  verify_proof p token htm htu jkt = Ok k →
  ∃ jti, proof_jti p = Some jti ∧ k = String.substring 0 16 (sha256 jti).
Proof.
  intros (h & c & jwk & x & j & raw & vk & sig & s & [])%verify_proof_good.
  exists j. unfold proof_jti. by rewrite gp_parts0.
Qed.

(** C13: against any replay store that keeps its contract, a proof is accepted at most
    once in the window of the store: whatever other proofs are verified in between, what
    is accepted later in the window carries another identifier. *)
Theorem dpop_accepted_once v p token htm htu jkt now v' p' token' htm' htu' jkt' now' :
  (dpop_verify_async v p token htm htu jkt now).1 = Ok tt →
  rtc (verify_step now (now + rs_window (store_of v)))
    (dpop_verify_async v p token htm htu jkt now).2 v' →
  now ≤ now' < now + rs_window (store_of v) →
  (dpop_verify_async v' p' token' htm' htu' jkt' now').1 = Ok tt →
  proof_jti p ≠ proof_jti p'.
Proof.
  intros Hok Hrun Hnow Hok' Heq.
  pose proof (verify_async_inv v p token htm htu jkt now) as Hi.
  destruct (verify_proof p token htm htu jkt) as [k|e] eqn:Hp; [|by rewrite Hi in Hok].
  destruct Hi as [Hr Hst]. rewrite Hr in Hok. pose proof (rs_accept _ _ _ Hok) as Hret.
  rewrite <-Hst in Hret. pose proof (rs_window_const (store_of v) k now) as Hw. rewrite <-Hst in Hw.
  destruct (verify_steps_keep _ _ _ _ _ _ Hrun (Z.le_refl now) ltac:(lia) Hret) as [Hret' Hw'].
  pose proof (verify_async_inv v' p' token' htm' htu' jkt' now') as Hi'.
  destruct (verify_proof p' token' htm' htu' jkt') as [k'|e'] eqn:Hp'; [|by rewrite Hi' in Hok'].
  destruct Hi' as [Hr' _]. rewrite Hr' in Hok'.
  apply verify_proof_jti in Hp as (j & Hj & ->). apply verify_proof_jti in Hp' as (j' & Hj' & ->).
  assert (j = j') as <- by congruence. revert Hok'. eapply rs_refuse; [exact Hret'|lia].
Qed.
End once.

(** ** Proofs do not expire *)

Section expiry.
Context `{Base64, JsonText, Ed25519Ops, Sha256, Hex}.

Lemma tracker_accepts_again t k now now' :
  (jti_check_and_record t k now).1 = Ok tt → now + jti_ttl t ≤ now' →
  (jti_check_and_record (jti_check_and_record t k now).2 k now').1 = Ok tt.
Proof.
  unfold jti_check_and_record at 1 3.
  destruct (match seen (jti_state t) !! k with Some _ => _ | None => _ end); [done|].
  set (s1 := jti_sweep t _ now).
  destruct (max_entries t <=? Z.of_nat (size (seen s1))) eqn:Hroom; [done|]. intros _ Hlate.
  unfold jti_check_and_record. simpl. rewrite lookup_insert_eq.
  replace (duration_since now' now <? jti_ttl t) with false
    by (symmetry; apply Z.ltb_ge; unfold duration_since; lia).
  set (t2 := with_jti_state t _). set (s2 := mkJtiState _ _).
  pose proof (jti_sweep_size t2 s2 now') as Hsz. simpl in Hsz.
  rewrite delete_insert_eq in Hsz.
  pose proof (map_subseteq_size _ _ (delete_subseteq (seen s1) k)). bool_inv.
  destruct (max_entries t <=? _) eqn:Hfull; [|done]. bool_inv. lia.
Qed.

(** A proof has no expiry of its own: the verifier reads no [iat] and uses no clock
    skew, so once the time to live of the tracker has passed, the same proof is accepted
    again. *)
Theorem dpop_proof_never_expires v t p token htm htu jkt now now' :
  replay_store v = Sync t → (dpop_verify v p token htm htu jkt now).1 = Ok tt →
  now + jti_ttl t ≤ now' →
  (dpop_verify (dpop_verify v p token htm htu jkt now).2 p token htm htu jkt now').1 = Ok tt.
Proof.
  intros Hst. unfold dpop_verify. destruct (verify_proof p token htm htu jkt) as [k|]; [|done].
  rewrite Hst. simpl. destruct (jti_check_and_record t k now) as [r t'] eqn:Hc. simpl.
  intros -> Hlate. pose proof (tracker_accepts_again t k now now') as Hagain.
  rewrite Hc in Hagain. simpl in Hagain. specialize (Hagain eq_refl Hlate).
  by destruct (jti_check_and_record t' k now').
Qed.
End expiry.

(** ** A proof *)

Import Concrete.

#[local] Instance sample_sha : Sha256 := {| sha256 b := pad 32 (str_rev b) |}.

Definition sample_sk : bytes := "client key".
Definition sample_x : string := b64_encode (verifying_key_of sample_sk).
Definition sample_jkt : string := thumbprint_ed25519 sample_x "Ed25519".

Definition sample_proof (id : string) : string :=
  let header := VObject [("typ", VString "dpop+jwt"); ("alg", VString "EdDSA");
    ("jwk", VObject [("kty", VString "OKP"); ("crv", VString "Ed25519"); ("x", VString sample_x)])] in
  let claims := VObject [("jti", VString id); ("htm", VString "POST");
    ("htu", VString "https://pdp/"); ("ath", VString (expected_ath "token"))] in
  let input := b64_encode (json_to_vec header) +:+ "." +:+ b64_encode (json_to_vec claims) in
  input +:+ "." +:+ b64_encode (ed_sign sample_sk input).

Definition sample_verify (v : DpopVerifier JtiTracker) (id : string) (now : Z) :=
  dpop_verify_async v (sample_proof id) "token" "POST" "https://pdp/" sample_jkt now.

Definition sample_verifier : DpopVerifier JtiTracker := dpop_new (jti_build 100 8 0).
Definition used_once : DpopVerifier JtiTracker := (sample_verify sample_verifier "id-1" 10).2.

(** The witness of [dpop_accepted_once]: another proof is accepted after the first, so
    its identifier is another one. *)
Example dpop_accepted_once_witness :
  proof_jti (sample_proof "id-1") ≠ proof_jti (sample_proof "id-2").
Proof.
  apply (dpop_accepted_once sample_verifier (sample_proof "id-1") "token" "POST" "https://pdp/"
           sample_jkt 10
           (dpop_verify_async sample_verifier (sample_proof "id-1") "token" "POST" "https://pdp/"
              sample_jkt 10).2 (sample_proof "id-2") "token" "POST" "https://pdp/" sample_jkt 20).
  - vm_compute. reflexivity.
  - apply rtc_refl.
  - vm_compute. split; [discriminate|reflexivity].
  - vm_compute. reflexivity.
Defined.

(** The witness of [dpop_proof_never_expires]: refused as a replay at 109, accepted again
    at 110. *)
Example dpop_proof_never_expires_witness :
  is_ok (sample_verify used_once "id-1" 109).1 = false ∧
  (dpop_verify (dpop_verify sample_verifier (sample_proof "id-1") "token" "POST" "https://pdp/"
     sample_jkt 10).2 (sample_proof "id-1") "token" "POST" "https://pdp/" sample_jkt 110).1 = Ok tt.
Proof.
  split; [vm_compute; reflexivity|].
  apply (dpop_proof_never_expires sample_verifier (jti_build 100 8 0)).
  - reflexivity.
  - vm_compute. reflexivity.
  - simpl. lia.
Defined.

(** The witness of [thumbprint_binds_key]. *)
Example thumbprint_binds_key_witness :
  (∃ vk, signed_by (sample_proof "id-1") vk ∧ signed_by (sample_proof "id-2") vk) ∨
  ∃ x y, x ≠ y ∧ sha256 (thumbprint_text x "Ed25519") = sha256 (thumbprint_text y "Ed25519").
Proof.
  apply (thumbprint_binds_key (sample_proof "id-1") "token" "POST" "https://pdp/"
           (sample_proof "id-2") "token" "POST" "https://pdp/" sample_jkt
           (String.substring 0 16 (sha256 "id-1")) (String.substring 0 16 (sha256 "id-2"))).
  - vm_compute. reflexivity.
  - vm_compute. reflexivity.
Defined.
