(* ===== verification/Delegation.v ===== *)
(** * Delegation tokens ([agentguard-core/src/delegation.rs])

    [DelegationSigner] mints signed grants (a compact JWS), [mint_attenuated]
    derives a narrower grant from a verified one, [DelegationVerifier] checks a
    token, and [VerifiedDelegation::allows] decides one request.  The clock and
    fresh [uuid]s are arguments of the operations that read them; base64, JSON
    text and Ed25519 are the classes of [Crypto]. *)

From S2P Require Import Prelude Json Glob Constraint CoreError AuthKeys Crypto.

Definition MAX_DELEGATION_TOKEN_BYTES : Z := 64 * 1024.

(** ** Claims *)

(** RFC 8693 nested [act] claim. *)
Inductive ActClaim : Type :=
  mkActClaim { act_sub : string; act_iss : option string; act_act : option ActClaim }.

Record DelegationClaims : Type := mkDelegationClaims {
  iss : string;
  sub : string;
  aud : string;
  iat : Z;
  exp : Z;
  nbf : option Z;
  jti : string;
  allowed_actions : list string;
  resource_patterns : list string;
  act : option ActClaim;
  constraints : option ConstraintSet;
  extra : list (string * Value);
}.

(** [serde_json::{to_vec, from_slice}] at the derived codec of [DelegationClaims]. *)
Class ClaimsCodec := {
  claims_to_vec : DelegationClaims → result string bytes;
  claims_from_slice : bytes → result string DelegationClaims;
}.

(** What the Rust types say: an [i64] is in range and a JSON map has distinct keys. *)
Definition wf_constraints (c : ConstraintSet) : Prop := Forall wf_expr (expressions c).

Record wf_claims (c : DelegationClaims) : Prop := {
  wf_iat : in_i64 (iat c);
  wf_exp : in_i64 (exp c);
  wf_nbf : ∀ t, nbf c = Some t → in_i64 t;
  wf_cons : ∀ cs, constraints c = Some cs → wf_constraints cs;
  wf_extra : wf_value (VObject (extra c));
}.

(** No [f64] inside (see [Crypto.JsonTextLaws]). *)
Fixpoint float_free_expr (e : ConstraintExpr) : bool :=
  match e with
  | CEquals _ v => float_free v
  | CIn _ vs => forallb float_free vs
  | CAnd l | COr l => forallb float_free_expr l
  | CNot e => float_free_expr e
  | _ => true
  end.

Definition float_free_constraints (cs : option ConstraintSet) : bool :=
  match cs with Some cs => forallb float_free_expr (expressions cs) | None => true end.

Definition exact_claims (c : DelegationClaims) : bool :=
  float_free_constraints (constraints c) && float_free (VObject (extra c)).

(** Claims always serialise (their maps have string keys), parsing gives well-typed
    claims, and claims that hold no float are read back as written. *)
Class ClaimsLaws `{ClaimsCodec} : Prop := {
  claims_total c : ∃ b, claims_to_vec c = Ok b;
  claims_typed b c : claims_from_slice b = Ok c → wf_claims c;
  claims_roundtrip c b :
    wf_claims c → exact_claims c = true → claims_to_vec c = Ok b → claims_from_slice b = Ok c;
}.

(** ** Minting *)

(** [Duration::as_secs] of the token lifetime: a [u64]. *)
Record DelegationConfig : Type := mkDelegationConfig { ttl : Z }.
Definition default_config : DelegationConfig := mkDelegationConfig 900.

Record DelegationSpec : Type := mkDelegationSpec {
  spec_sub : string;
  spec_aud : string;
  spec_actions : list string;
  spec_resources : list string;
  spec_constraints : option ConstraintSet;
  spec_config : DelegationConfig;
}.

Definition spec_new sub aud actions resources config : DelegationSpec :=
  mkDelegationSpec sub aud actions resources None config.

Definition with_constraints (s : DelegationSpec) (c : ConstraintSet) : DelegationSpec :=
  mkDelegationSpec (spec_sub s) (spec_aud s) (spec_actions s) (spec_resources s) (Some c)
    (spec_config s).

Record DelegationSigner : Type := mkDelegationSigner { key : bytes; key_id : string }.
Record DelegationToken : Type := mkDelegationToken { claims : DelegationClaims; jws : string }.

Record VerifiedDelegation : Type := mkVerifiedDelegation {
  v_claims : DelegationClaims;
  v_kid : string;
  v_alg : Algorithm;
  v_verifying_key : bytes;
}.

Definition JWS_TYP : string := "agentguard-delegation+jwt".

Section signer.
Context `{Base64, JsonText, Ed25519Ops, ClaimsCodec}.

(** [DelegationSigner::generate] on the key and the uuid it draws. *)
Definition generate (fresh_key : bytes) (uuid : string) : DelegationSigner :=
  mkDelegationSigner fresh_key ("agent-" +:+ String.substring 0 8 uuid).

Definition from_bytes (b : bytes) : cresult DelegationSigner :=
  _ ← bail_if (bool_decide (String.length b ≠ 32%nat))
        (InvalidToken "ed25519 key must be 32 bytes");
  Ok (mkDelegationSigner b "imported").

Definition public_key_b64 (s : DelegationSigner) : string :=
  b64_std_encode (verifying_key_of (key s)).

Definition set_key_id (s : DelegationSigner) (id : string) : DelegationSigner :=
  mkDelegationSigner (key s) id.

Definition jws_header (kid : string) : Value :=
  VObject [("alg", VString "EdDSA"); ("typ", VString JWS_TYP); ("kid", VString kid)].

Definition sign_jws (s : DelegationSigner) (c : DelegationClaims) : cresult DelegationToken :=
  let header_b64 := b64_encode (json_to_vec (jws_header (key_id s))) in
  payload ← map_err Json (claims_to_vec c);
  let payload_b64 := b64_encode payload in
  let signing_input := header_b64 +:+ "." +:+ payload_b64 in
  let sig_b64 := b64_encode (ed_sign (key s) signing_input) in
  Ok (mkDelegationToken c (signing_input +:+ "." +:+ sig_b64)).

(** [now + cfg.ttl.as_secs() as i64]: the cast and the sum wrap around. *)
Definition mint_with (s : DelegationSigner) (now : Z) (uuid : string)
    (iss sub aud : string) (actions resources : list string) (cfg : DelegationConfig)
    (mutate : DelegationClaims → DelegationClaims) : cresult DelegationToken :=
  sign_jws s (mutate {|
    iss := iss; sub := sub; aud := aud; iat := now;
    exp := i64_wrap (now + i64_wrap (ttl cfg)); nbf := None; jti := uuid;
    allowed_actions := actions; resource_patterns := resources;
    act := None; constraints := None; extra := [] |}).

Definition mint (s : DelegationSigner) (now : Z) (uuid : string)
    (iss sub aud : string) (actions resources : list string) (cfg : DelegationConfig) :
    cresult DelegationToken :=
  mint_with s now uuid iss sub aud actions resources cfg id.

(** ** Attenuation *)

Definition strings_contain (l : list string) (s : string) : bool := bool_decide (s ∈ l).

(** A child pattern with a star has to be one of the parent's; a literal has to be
    covered by one of them. *)
Definition resource_in_scope (parent : list string) (child : string) : bool :=
  if str_contains star child then strings_contain parent child
  else existsb (λ p, glob_match p child) parent.

(** The block [if let Some(parent_constraints) = &parent.claims.constraints]. *)
Definition check_constraints (parent child : option ConstraintSet) : cresult unit :=
  match parent with
  | None => Ok tt
  | Some pc =>
      cc ← ok_or child (InvalidToken "child grant cannot remove parent constraints");
      let parent_expressions := expr_to_value <$> expressions pc in
      let child_expressions := expr_to_value <$> expressions cc in
      bail_if (existsb (λ pe, negb (existsb (λ ce, value_eqb ce pe) child_expressions))
                 parent_expressions)
        (InvalidToken "child grant cannot remove or change parent constraints")
  end.

Definition mint_attenuated (s : DelegationSigner) (now : Z) (uuid : string)
    (parent : VerifiedDelegation) (spec : DelegationSpec) : cresult DelegationToken :=
  let pc := v_claims parent in
  _ ← bail_if (bool_decide (key_id s ≠ v_kid parent)
               || bool_decide (verifying_key_of (key s) ≠ v_verifying_key parent))
        (InvalidToken "child grant must be signed by the verified parent key");
  _ ← bail_if (exp pc <=? now) (InvalidToken "cannot delegate from an expired parent grant");
  ttl_seconds ← ok_or (i64_try_from (ttl (spec_config spec)))
    (InvalidToken "child grant TTL exceeds supported timestamp range");
  child_exp ← ok_or (i64_checked_add now ttl_seconds)
    (InvalidToken "child grant expiry overflows timestamp");
  _ ← bail_if (exp pc <? child_exp)
        (InvalidToken "child grant TTL exceeds parent grant lifetime");
  _ ← bail_if (existsb (λ a, negb (strings_contain (allowed_actions pc) a)) (spec_actions spec))
        (InvalidToken "child grant contains an action outside the parent scope");
  _ ← bail_if (existsb (λ r, negb (resource_in_scope (resource_patterns pc) r))
                 (spec_resources spec))
        (InvalidToken "child grant contains a resource outside the parent scope");
  _ ← check_constraints (constraints pc) (spec_constraints spec);
  _ ← bail_if (match nbf pc with Some t => child_exp <=? t | None => false end)
        (InvalidToken "child grant expires before its inherited not-before time");
  sign_jws s {|
    iss := sub pc; sub := spec_sub spec; aud := spec_aud spec;
    iat := now; exp := child_exp; nbf := nbf pc; jti := uuid;
    allowed_actions := spec_actions spec; resource_patterns := spec_resources spec;
    act := Some (mkActClaim (sub pc) (Some (iss pc)) (act pc));
    constraints := spec_constraints spec; extra := [] |}.

(** ** Parsing, without any cryptographic check *)

Definition header_str (header : Value) (name : string) : option string :=
  get header name ≫= as_str.

Definition parse (s : string) : cresult DelegationToken :=
  _ ← bail_if (MAX_DELEGATION_TOKEN_BYTES <? len s)
        (InvalidToken "delegation token exceeds the 65536-byte limit");
  match split dot s with
  | [header_b64; payload_b64; sig_b64] =>
      header_bytes ← map_err (λ e, InvalidToken ("header b64: " +:+ e)) (b64_decode header_b64);
      header ← map_err (λ e, InvalidToken ("header json: " +:+ e)) (json_from_slice header_bytes);
      _alg_str ← ok_or (header_str header "alg") (InvalidToken "missing alg");
      payload_bytes ← map_err (λ e, InvalidToken ("payload b64: " +:+ e)) (b64_decode payload_b64);
      c ← map_err (λ e, InvalidToken ("payload json: " +:+ e)) (claims_from_slice payload_bytes);
      sig ← map_err (λ e, InvalidToken ("sig b64: " +:+ e)) (b64_decode sig_b64);
      _ ← bail_if (negb (len sig =? 64))
            (TokenSignature ("ed25519 signature must be 64 bytes, got " +:+ pretty (len sig)));
      Ok (mkDelegationToken c s)
  | _ => Err (InvalidToken "JWS must have 3 parts")
  end.

(** ** Deciding a request *)

Definition allows (v : VerifiedDelegation) (subject action resource : string)
    (request_facts : Value) : bool :=
  bool_decide (sub (v_claims v) = subject)
  && strings_contain (allowed_actions (v_claims v)) action
  && existsb (λ pattern, glob_match pattern resource) (resource_patterns (v_claims v))
  && match constraints (v_claims v) with
     | None => true
     | Some cs => forallb (constraint_holds request_facts) (expressions cs)
     end.

(** ** The verifier *)

Record DelegationVerifier : Type := mkDelegationVerifier {
  keys : gmap string (Algorithm * bytes);
  clock_skew : Z;
}.

Definition verifier_new : DelegationVerifier := mkDelegationVerifier ∅ 60.

Definition set_clock_skew_seconds (d : DelegationVerifier) (secs : Z) : DelegationVerifier :=
  mkDelegationVerifier (keys d) (Z.max secs 0).

Definition add_key (d : DelegationVerifier) (kid : string) (alg : Algorithm) (raw : bytes) :
    cresult DelegationVerifier :=
  k ← match alg with
      | EdDSA =>
          _ ← bail_if (negb (len raw =? 32))
                (Other ("ed25519 pubkey for kid " +:+ debug_str kid
                        +:+ " must be 32 bytes, got " +:+ pretty (len raw)));
          map_err (λ e, Other ("ed25519 key parse: " +:+ e)) (verifying_key_from_bytes raw)
      | _ => Err (Other ("alg " +:+ alg_display alg +:+ " not yet supported for verification"))
      end;
  Ok (mkDelegationVerifier (<[kid := (alg, k)]> (keys d)) (clock_skew d)).

Definition clear (d : DelegationVerifier) : DelegationVerifier :=
  mkDelegationVerifier ∅ (clock_skew d).

Definition key_count (d : DelegationVerifier) : nat := size (keys d).

Definition verify_ed255sa (verifying_key signing_input signature : bytes) : cresult unit :=
  _ ← bail_if (negb (len signature =? 64))
        (TokenSignature ("ed25519 signature must be 64 bytes, got " +:+ pretty (len signature)));
  sig ← map_err (λ e, TokenSignature ("ed25519 sig parse: " +:+ e))
          (signature_from_slice signature);
  bail_if (negb (ed_verify verifying_key signing_input sig))
    (TokenSignature "ed25519 signature verification failed").

(** [v != true] for a [Value] [v]. *)
Definition is_not_true (v : Value) : bool :=
  match v with VBool b => negb b | _ => true end.

Definition verify (d : DelegationVerifier) (token expected_aud : string) (now_unix : Z) :
    cresult VerifiedDelegation :=
  parsed ← parse token;
  let parts := split dot token in
  header_bytes ← map_err (λ e, InvalidToken ("header b64: " +:+ e))
                   (b64_decode (nth 0 parts ""));
  header ← map_err (λ e, InvalidToken ("header json: " +:+ e)) (json_from_slice header_bytes);
  alg_str ← ok_or (header_str header "alg") (InvalidToken "missing alg");
  kid ← ok_or (header_str header "kid") (InvalidToken "missing kid in header");
  _ ← bail_if (is_blank kid) (InvalidToken "empty kid in header");
  _ ← bail_if (bool_decide (header_str header "typ" ≠ Some JWS_TYP))
        (InvalidToken "unexpected or missing delegation token typ");
  _ ← bail_if (bool_decide (is_Some (get header "crit"))
               || match get header "b64" with Some v => is_not_true v | None => false end)
        (InvalidToken "unsupported critical or unencoded JWS header parameter");
  alg ← ok_or (parse_alg alg_str) (InvalidToken ("unsupported alg: " +:+ alg_str));
  _ ← bail_if (bool_decide (alg = HS256))
        (TokenSignature "HS256 is not supported for delegation tokens");
  '(registered_alg, verifying_key) ← ok_or (keys d !! kid)
    (TokenSignature ("unknown kid: " +:+ kid));
  _ ← bail_if (bool_decide (alg ≠ registered_alg))
        (TokenSignature ("algorithm mismatch for kid " +:+ kid +:+ ": token=" +:+ alg_display alg
                         +:+ ", registered=" +:+ alg_display registered_alg));
  let signing_input := nth 0 parts "" +:+ "." +:+ nth 1 parts "" in
  sig_bytes ← map_err (λ e, TokenSignature ("sig b64: " +:+ e)) (b64_decode (nth 2 parts ""));
  _ ← verify_ed255sa verifying_key signing_input sig_bytes;
  let skew := clock_skew d in
  let c := claims parsed in
  _ ← bail_if (is_blank (iss c) || is_blank (sub c) || is_blank (aud c) || is_blank (jti c))
        (InvalidToken "iss, sub, aud, and jti must be non-empty");
  _ ← bail_if ((exp c <=? iat c) || match nbf c with Some t => exp c <=? t | None => false end)
        (InvalidToken "time claims must satisfy iat < exp and nbf < exp");
  let latest_issued_at := i64_saturating_add now_unix skew in
  _ ← bail_if (latest_issued_at <? iat c) (TokenNotYetValid (pretty (iat c)));
  _ ← bail_if (i64_saturating_add (exp c) skew <=? now_unix) (TokenExpired (pretty (exp c)));
  _ ← match nbf c with
      | Some t => bail_if (latest_issued_at <? t) (TokenNotYetValid (pretty t))
      | None => Ok tt
      end;
  _ ← bail_if (bool_decide (aud c ≠ expected_aud))
        (TokenSignature ("audience mismatch: expected " +:+ expected_aud
                         +:+ ", got " +:+ aud c));
  Ok (mkVerifiedDelegation c kid alg verifying_key).


(** ** What an accepted token has proved *)

(** The acceptance conditions, as facts about the token and the time. *)
Record accepts (d : DelegationVerifier) (token expected_aud : string) (now : Z)
    (h p s : string) (header : Value) (sig : bytes) (v : VerifiedDelegation) : Prop := {
  acc_token : token = h +:+ "." +:+ p +:+ "." +:+ s;
  acc_no_dots : str_contains dot h = false ∧ str_contains dot p = false
                ∧ str_contains dot s = false;
  acc_length : len token ≤ MAX_DELEGATION_TOKEN_BYTES;
  acc_header : b64_decode h ≫= json_from_slice = Ok header;
  acc_alg : header_str header "alg" = Some (alg_display (v_alg v));
  acc_kid : header_str header "kid" = Some (v_kid v);
  acc_kid_blank : is_blank (v_kid v) = false;
  acc_typ : header_str header "typ" = Some JWS_TYP;
  acc_crit : get header "crit" = None;
  acc_b64 : get header "b64" = None ∨ get header "b64" = Some (VBool true);
  acc_asymmetric : v_alg v ≠ HS256;
  acc_key : keys d !! v_kid v = Some (v_alg v, v_verifying_key v);
  acc_claims : b64_decode p ≫= claims_from_slice = Ok (v_claims v);
  acc_sig : b64_decode s ≫= signature_from_slice = Ok sig;
  acc_sig_length : ∃ raw, b64_decode s = Ok raw ∧ len raw = 64;
  acc_signature : ed_verify (v_verifying_key v) (h +:+ "." +:+ p) sig = true;
  acc_names : is_blank (iss (v_claims v)) = false ∧ is_blank (sub (v_claims v)) = false
              ∧ is_blank (aud (v_claims v)) = false ∧ is_blank (jti (v_claims v)) = false;
  acc_times : iat (v_claims v) < exp (v_claims v)
              ∧ ∀ t, nbf (v_claims v) = Some t → t < exp (v_claims v);
  acc_issued : iat (v_claims v) ≤ i64_saturating_add now (clock_skew d);
  acc_unexpired : now < i64_saturating_add (exp (v_claims v)) (clock_skew d);
  acc_started : ∀ t, nbf (v_claims v) = Some t → t ≤ i64_saturating_add now (clock_skew d);
  acc_aud : aud (v_claims v) = expected_aud;
}.

Lemma parse_alg_display s a : parse_alg s = Some a ↔ s = alg_display a.
Proof.
  unfold parse_alg. split.
  - repeat case_bool_decide; naive_solver.
  - intros ->. by destruct a.
Qed.

Lemma split3 s h p g :
  split dot s = [h; p; g] ↔
  s = h +:+ "." +:+ p +:+ "." +:+ g ∧
  str_contains dot h = false ∧ str_contains dot p = false ∧ str_contains dot g = false.
Proof.
  split.
  - intros Hs. pose proof (join_split dot s) as Hj. pose proof (split_parts dot s) as Hp.
    rewrite Hs in Hj, Hp. rewrite !Forall_cons in Hp. simpl in Hj. naive_solver.
  - intros (-> & Hh & Hp & Hg). apply (split_join dot [h; p; g]); [done|].
    by repeat constructor.
Qed.

Lemma verify_accepts d token expected_aud now v :
  verify d token expected_aud now = Ok v →
  ∃ h p s header sig, accepts d token expected_aud now h p s header sig v.
Proof.
  unfold verify. intros Hv.
  apply bind_Ok in Hv as (parsed & Hparse & Hv). unfold parse in Hparse.
  apply bind_Ok in Hparse as ([] & Hlen%bail_if_Ok & Hparse). bool_inv.
  destruct (split dot token) as [|h [|p [|s [|]]]] eqn:Hsplit; try done.
  apply split3 in Hsplit as (Htok & Hdots). cbn [nth] in Hv.
  res_inv. subst.
  match goal with x : (Algorithm * bytes)%type |- _ => destruct x as [ra vk] end.
  unfold verify_ed255sa in *. res_inv. subst. cbn [claims] in *. bool_inv.
  assert (parse_alg x1 = Some x6) as Ha by done. apply parse_alg_display in Ha as ->.
  assert (get x0 "crit" = None) by by apply eq_None_not_Some.
  eexists h, p, s, _, _. simplify_eq. split; simpl; rewrite ?bind_Ok; eauto.
  - destruct (get x0 "b64") as [[| [] | | | |]|]; naive_solver.
  - destruct (nbf x13); split; naive_solver lia.
  - destruct (nbf x13); [|done]. bool_inv. res_inv. naive_solver lia.
Qed.

Lemma accepts_verify d token expected_aud now h p s header sig v :
  accepts d token expected_aud now h p s header sig v →
  verify d token expected_aud now = Ok v.
Proof.
  intros [-> Hdots Hlen Hheader Halg Hkid Hblank Htyp Hcrit Hb64 Hasym Hkey Hclaims Hsig
    (raw & Hraw & H64) Hver Hnames (Ht & Hn) Hiss Hexp Hnbf <-].
  apply bind_Ok in Hheader as (hb & Hhb & Hheader), Hclaims as (pb & Hpb & Hclaims),
    Hsig as (raw' & Hraw' & Hsig). rewrite Hraw in Hraw'. injection Hraw' as <-.
  assert (Hparts : split dot (h +:+ "." +:+ p +:+ "." +:+ s) = [h; p; s]) by by apply split3.
  assert (Hparse : parse (h +:+ "." +:+ p +:+ "." +:+ s)
    = Ok (mkDelegationToken (v_claims v) (h +:+ "." +:+ p +:+ "." +:+ s))).
  { unfold parse. rewrite Hparts. res_intro; [by apply Z.ltb_ge|].
    do 6 (res_intro; [eassumption|]). res_intro; [by rewrite H64|done]. }
  unfold verify, verify_ed255sa. rewrite Hparse, Hparts. cbn [nth claims].
  res_intro; [done|]. do 5 (res_intro; [eassumption|]).
  res_intro. { apply bool_decide_eq_false. tauto. }
  res_intro. { rewrite Hcrit. destruct Hb64 as [-> | ->]; done. }
  res_intro. { by apply parse_alg_display. }
  res_intro. { by apply bool_decide_eq_false. }
  res_intro. { done. } cbv beta iota.
  res_intro. { apply bool_decide_eq_false. tauto. }
  res_intro. { done. }
  res_intro.
  { do 2 (res_intro; [by rewrite ?H64|]). by rewrite Hver. }
  cbn [claims]. cbv zeta.
  res_intro. { by destruct Hnames as (-> & -> & -> & ->). }
  res_intro. { rewrite (proj2 (Z.leb_gt _ _) Ht). destruct (nbf (v_claims v)); [|done]. by apply Z.leb_gt, Hn. }
  res_intro. { by apply Z.ltb_ge. }
  res_intro. { by apply Z.leb_gt. }
  res_intro. { destruct (nbf (v_claims v)); [|done]. by apply bail_if_pass, Z.ltb_ge, Hnbf. }
  res_intro. { apply bool_decide_eq_false. tauto. }
  by destruct v.
Qed.

(** C7: a token is accepted exactly when it meets every condition of [accepts]: the
    three parts, a header of the right type naming a registered key, a signature of
    that key over header and payload, non-blank names, and the time window widened
    by the skew.  The grant returned carries the signed claims. *)
Theorem verify_iff_accepts d token expected_aud now v :
  verify d token expected_aud now = Ok v ↔
  ∃ h p s header sig, accepts d token expected_aud now h p s header sig v.
Proof. split; [apply verify_accepts | naive_solver eauto using accepts_verify]. Qed.

(** ** Round trip: what is signed verifies *)

Context `{!Base64Laws, !JsonTextLaws, !Ed25519Laws, !ClaimsLaws}.

Record timely (d : DelegationVerifier) (c : DelegationClaims) (now : Z) : Prop := {
  tm_order : iat c < exp c ∧ ∀ t, nbf c = Some t → t < exp c;
  tm_issued : iat c ≤ i64_saturating_add now (clock_skew d);
  tm_unexpired : now < i64_saturating_add (exp c) (clock_skew d);
  tm_started : ∀ t, nbf c = Some t → t ≤ i64_saturating_add now (clock_skew d);
}.

Definition named (c : DelegationClaims) : Prop :=
  is_blank (iss c) = false ∧ is_blank (sub c) = false
  ∧ is_blank (aud c) = false ∧ is_blank (jti c) = false.

Lemma sign_jws_claims s c t : sign_jws s c = Ok t → claims t = c.
Proof. unfold sign_jws. intros H'. res_inv. by subst. Qed.

Lemma sign_verify s c t d now :
  sign_jws s c = Ok t → wf_claims c → exact_claims c = true →
  keys d !! key_id s = Some (EdDSA, verifying_key_of (key s)) →
  is_blank (key_id s) = false → len (jws t) ≤ MAX_DELEGATION_TOKEN_BYTES →
  named c → timely d c now →
  verify d (jws t) (aud c) now
  = Ok (mkVerifiedDelegation c (key_id s) EdDSA (verifying_key_of (key s))).
Proof.
  unfold sign_jws. intros Ht Hwf Hexact Hkey Hkid Hlen Hnames [Hord Hiss Hexp Hnbf].
  apply bind_Ok in Ht as (b & Hb%map_err_Ok & Ht). injection Ht as <-. cbn [jws] in *.
  set (h := b64_encode _) in *. set (p := b64_encode b) in *.
  pose proof (ed_sign_length (key s) (h +:+ "." +:+ p)) as Hsl.
  apply accepts_verify with h p (b64_encode (ed_sign (key s) (h +:+ "." +:+ p)))
    (jws_header (key_id s)) (ed_sign (key s) (h +:+ "." +:+ p)).
  split; cbn [v_claims v_kid v_alg v_verifying_key]; try done.
  - by rewrite <-!string_app_assoc.
  - split_and!; apply b64_encode_no_dot.
  - unfold h. rewrite b64_decode_encode. apply json_roundtrip; [|done].
    apply wf_object. split; [|by repeat constructor].
    by refine (bool_decide_unpack _ _).
  - by left.
  - unfold p. rewrite b64_decode_encode. cbn. by apply claims_roundtrip.
  - rewrite b64_decode_encode. by apply ed_sig_parses.
  - eexists. split; [apply b64_decode_encode|]. unfold len. lia.
  - apply ed_verify_sign.
Qed.

(** The clock is past the epoch, [now + ttl] does not overflow, and the token is used inside its lifetime. *)
Definition usable (d : DelegationVerifier) (cfg : DelegationConfig) (minted now : Z) : Prop :=
  0 < ttl cfg ∧ 0 ≤ minted ∧ minted + ttl cfg ≤ i64_max ∧ 0 ≤ clock_skew d ∧ in_i64 now
  ∧ minted - clock_skew d ≤ now < minted + ttl cfg.

Lemma usable_timely d cfg minted now c :
  usable d cfg minted now → iat c = minted → exp c = minted + ttl cfg → nbf c = None →
  timely d c now.
Proof.
  intros (? & ? & ? & ? & ? & ?) Hi He Hn. split; rewrite ?Hi, ?He, ?Hn; try done.
  - by split; [lia|].
  - unfold_ints. lia.
  - unfold_ints. lia.
Qed.

(** The claims of a minted token whose expiry does not overflow. *)
Definition minted_claims (minted : Z) (uuid iss sub aud : string) (actions resources : list string)
    (cfg : DelegationConfig) : DelegationClaims :=
  {| iss := iss; sub := sub; aud := aud; iat := minted; exp := minted + ttl cfg; nbf := None; jti := uuid;
     allowed_actions := actions; resource_patterns := resources; act := None; constraints := None;
     extra := [] |}.

Lemma minted_accepted s d minted now uuid iss sub aud actions resources cfg t :
  keys d !! key_id s = Some (EdDSA, verifying_key_of (key s)) →
  mint s minted uuid iss sub aud actions resources cfg = Ok t →
  Forall (λ x, is_blank x = false) [key_id s; iss; sub; aud; uuid] →
  len (jws t) ≤ MAX_DELEGATION_TOKEN_BYTES → usable d cfg minted now →
  claims t = minted_claims minted uuid iss sub aud actions resources cfg ∧
  verify d (jws t) aud now = Ok (mkVerifiedDelegation (claims t) (key_id s) EdDSA (verifying_key_of (key s))).
Proof.
  unfold mint, mint_with. intros Hkey Hmint Hnames Hlen Huse.
  pose proof Huse as (Htpos & Hmint64 & Hno & _).
  rewrite (i64_wrap_id (ttl cfg)), i64_wrap_id in Hmint by (unfold_ints; lia).
  rewrite !Forall_cons in Hnames. destruct Hnames as (Hkid & Hi & Hs & Ha & Hu & _).
  pose proof (sign_jws_claims _ _ _ Hmint) as Hclaims. rewrite Hclaims. split; [done|].
  apply (sign_verify _ _ _ _ _ Hmint); try done.
  - split; simpl; try done; [unfold_ints; lia..|]. split; [constructor|done].
  - by eapply usable_timely.
Qed.

(** C30: a minted token verifies, with a verifier that has the signer's key and at
    any time from [iat] minus the skew until [exp], and the grant allows exactly the
    subject, the actions and the resource patterns it was minted for. *)
Theorem mint_verify s d0 d minted now uuid iss sub aud actions resources cfg t :
  add_key d0 (key_id s) EdDSA (verifying_key_of (key s)) = Ok d →
  mint s minted uuid iss sub aud actions resources cfg = Ok t →
  Forall (λ x, is_blank x = false) [key_id s; iss; sub; aud; uuid] →
  len (jws t) ≤ MAX_DELEGATION_TOKEN_BYTES → usable d cfg minted now →
  ∃ v, verify d (jws t) aud now = Ok v ∧ v_claims v = claims t ∧
    ∀ subject action resource facts,
      allows v subject action resource facts = true ↔
      subject = sub ∧ action ∈ actions ∧ ∃ p, p ∈ resources ∧ glob_matches p resource.
Proof.
  unfold add_key. intros Hadd Hmint Hnames Hlen Huse.
  apply bind_Ok in Hadd as (k & Hk & Hd). res_inv. subst d. apply ed_key_bytes in Hk as ->.
  destruct (minted_accepted _ _ _ _ _ _ _ _ _ _ _ _ (lookup_insert_eq _ _ _) Hmint Hnames Hlen Huse)
    as [Hclaims Hver].
  eexists. split; [exact Hver|]. split; [done|].
  intros. unfold allows, strings_contain. cbn [v_claims]. rewrite Hclaims. simpl.
  rewrite andb_true_r, !andb_true_iff, !bool_decide_eq_true, existsb_exists.
  setoid_rewrite glob_match_spec. setoid_rewrite <-list_elem_of_In. naive_solver.
Qed.

(** ** Attenuation: a child grant never exceeds its parent *)

Lemma resource_in_scope_covers parent child resource :
  resource_in_scope parent child = true → glob_match child resource = true →
  existsb (λ p, glob_match p resource) parent = true.
Proof.
  unfold resource_in_scope, strings_contain. destruct (str_contains star child) eqn:Hc.
  - intros Hin Hm. bool_inv. apply existsb_exists. exists child.
    by rewrite <-list_elem_of_In.
  - intros Hp. rewrite (glob_match_literal _ _ Hc). intros. bool_inv. by subst.
Qed.

Lemma check_constraints_covers parent child facts :
  check_constraints parent child = Ok tt → wf_value facts →
  (∀ cs, parent = Some cs → wf_constraints cs) →
  (∀ cs, child = Some cs → wf_constraints cs) →
  match child with Some cs => forallb (constraint_holds facts) (expressions cs) | None => true end
    = true →
  match parent with Some cs => forallb (constraint_holds facts) (expressions cs) | None => true end
    = true.
Proof.
  unfold check_constraints. destruct parent as [pc|]; [|done].
  intros Hck Hfacts Hwp Hwc. res_inv. subst. specialize (Hwp _ eq_refl).
  specialize (Hwc _ eq_refl).
  rewrite !forallb_forall. intros Hall pe Hpe.
  apply not_true_iff_false in Hck. rewrite existsb_exists in Hck.
  destruct (existsb (λ ce, value_eqb ce (expr_to_value pe)) (expr_to_value <$> expressions x))
    eqn:Hex; last first.
  { destruct Hck. exists (expr_to_value pe). rewrite Hex. split; [|done]. by apply in_map. }
  apply existsb_exists in Hex as (ve & Hve & Heq). apply in_map_iff in Hve as (ce & <- & Hce).
  rewrite <-(Hall ce Hce). unfold constraint_holds.
  unfold wf_constraints in *. rewrite List.Forall_forall in Hwp, Hwc.
  destruct (expr_to_value_eqb facts ce pe) as [-> ->]; auto.
Qed.

(** What a successful [mint_attenuated] has checked and signed. *)
Record attenuated (s : DelegationSigner) (now : Z) (uuid : string) (pv : VerifiedDelegation)
    (pc c : DelegationClaims) (spec : DelegationSpec) : Prop := {
  at_key : key_id s = v_kid pv ∧ verifying_key_of (key s) = v_verifying_key pv;
  at_live : now < exp pc;
  at_iat : iat c = now;
  at_exp : exp c = now + ttl (spec_config spec);
  at_exp_le : exp c ≤ exp pc;
  at_exp_i64 : in_i64 (exp c);
  at_nbf : nbf c = nbf pc;
  at_nbf_lt : ∀ t, nbf pc = Some t → t < exp c;
  at_spec : sub c = spec_sub spec ∧ aud c = spec_aud spec ∧ jti c = uuid;
  at_iss : iss c = sub pc;
  at_actions : ∀ a, a ∈ allowed_actions c → a ∈ allowed_actions pc;
  at_resources : ∀ r, r ∈ resource_patterns c →
    resource_in_scope (resource_patterns pc) r = true;
  at_constraints : constraints c = spec_constraints spec;
  at_check : check_constraints (constraints pc) (constraints c) = Ok tt;
  at_act : act c = Some (mkActClaim (sub pc) (Some (iss pc)) (act pc));
  at_extra : extra c = [];
}.

Lemma mint_attenuated_Ok s now uuid parent spec t :
  mint_attenuated s now uuid parent spec = Ok t →
  sign_jws s (claims t) = Ok t ∧
  attenuated s now uuid parent (v_claims parent) (claims t) spec.
Proof.
  unfold mint_attenuated. generalize (v_claims parent) as pc. intros pc Hm. res_inv. bool_inv.
  pose proof (sign_jws_claims _ _ _ Hm) as Hc. rewrite Hc in *.
  repeat match goal with
  | H' : i64_checked_add _ _ = Some _ |- _ => apply i64_checked_add_Some in H' as [-> ?]
  | H' : i64_try_from _ = Some _ |- _ => apply i64_try_from_Some in H' as [-> ?]
  | H' : existsb _ _ = false |- _ => rewrite existsb_negb_false in H'
  end.
  unfold strings_contain in *.
  match goal with H' : ∀ a, a ∈ spec_actions _ → _ |- _ =>
    setoid_rewrite bool_decide_eq_true in H' end.
  split; [done|]. split; try done. simpl.
  destruct (nbf pc); naive_solver lia. 
Qed.

(** Verifying a signed token gives back the claims that were signed. *)
Lemma verify_signed s c t d expected_aud now v :
  sign_jws s c = Ok t → wf_claims c → exact_claims c = true →
  verify d (jws t) expected_aud now = Ok v → v_claims v = c.
Proof.
  unfold sign_jws. intros Ht Hwf Hexact Hv. res_inv. subst t. cbn [jws] in Hv.
  apply verify_accepts in Hv as (h & p & g & header & sig & Hacc).
  pose proof (acc_token _ _ _ _ _ _ _ _ _ _ Hacc) as Htok.
  pose proof (proj2 (split3 _ _ _ _) (conj Htok (acc_no_dots _ _ _ _ _ _ _ _ _ _ Hacc))) as H1'.
  rewrite (proj2 (split3 _ (b64_encode (json_to_vec (jws_header (key_id s)))) (b64_encode x)
    (b64_encode (ed_sign (key s) (b64_encode (json_to_vec (jws_header (key_id s))) +:+ "." +:+
       b64_encode x))))) in H1'.
  - injection H1' as <- <- <-. pose proof (acc_claims _ _ _ _ _ _ _ _ _ _ Hacc) as Hc.
    rewrite b64_decode_encode in Hc. cbn in Hc.
    rewrite (claims_roundtrip c x) in Hc by done. by injection Hc.
  - split; [by rewrite <-!string_app_assoc|]. split_and!; apply b64_encode_no_dot.
Qed.

Lemma verify_wf d token expected_aud now v :
  verify d token expected_aud now = Ok v → wf_claims (v_claims v).
Proof.
  intros (h & p & g & header & sig & Hacc)%verify_accepts.
  pose proof (acc_claims _ _ _ _ _ _ _ _ _ _ Hacc) as Hc.
  apply bind_Ok in Hc as (? & _ & Hc). by eapply claims_typed.
Qed.

(** The subjects on whose behalf a grant acts, the nearest first. *)
Fixpoint act_subjects (a : ActClaim) : list string :=
  act_sub a :: match act_act a with Some b => act_subjects b | None => [] end.
Definition actors (c : DelegationClaims) : list string :=
  match act c with Some a => act_subjects a | None => [] end.

(** [child] was minted from [parent] by [mint_attenuated] and then verified, by any
    signer and verifier, at any times. *)
Inductive attenuates (parent child : VerifiedDelegation) : Prop :=
| attenuates_intro s minted uuid spec t d expected_aud now :
    in_i64 minted →
    (∀ cs, spec_constraints spec = Some cs → wf_constraints cs) →
    float_free_constraints (spec_constraints spec) = true →
    mint_attenuated s minted uuid parent spec = Ok t →
    verify d (jws t) expected_aud now = Ok child →
    attenuates parent child.

(** Whatever [child] lets its subject do, [parent] lets its own subject do. *)
Record within (parent child : VerifiedDelegation) : Prop := {
  within_allows action resource facts : wf_value facts →
    allows child (sub (v_claims child)) action resource facts = true →
    allows parent (sub (v_claims parent)) action resource facts = true;
  within_exp : exp (v_claims child) ≤ exp (v_claims parent);
  within_nbf : nbf (v_claims child) = nbf (v_claims parent);
}.

#[export] Instance within_preorder : PreOrder within.
Proof.
  split.
  - intros v. by split.
  - intros u v w [A1 E1 N1] [A2 E2 N2]. split; [auto|lia|congruence].
Qed.

Lemma attenuates_child parent child :
  wf_claims (v_claims parent) → attenuates parent child →
  wf_claims (v_claims child) ∧
  ∃ s minted uuid spec, attenuated s minted uuid parent (v_claims parent) (v_claims child) spec.
Proof.
  intros Hwp [s minted uuid spec t d expected_aud now Hnow Hwf Hff Hm Hv].
  apply mint_attenuated_Ok in Hm as [Hsign Hat].
  assert (v_claims child = claims t) as Heq.
  { eapply verify_signed; try done.
    - destruct Hat. split; try congruence.
      + rewrite at_nbf0. apply Hwp.
      + rewrite at_constraints0. apply Hwf.
      + rewrite at_extra0. split; [constructor|done].
    - unfold exact_claims. by rewrite (at_constraints _ _ _ _ _ _ _ Hat),
        (at_extra _ _ _ _ _ _ _ Hat), Hff. }
  split; [by eapply verify_wf|]. rewrite Heq. eauto.
Qed.

Lemma attenuated_within s now uuid parent child spec :
  wf_claims (v_claims parent) → wf_claims (v_claims child) →
  attenuated s now uuid parent (v_claims parent) (v_claims child) spec → within parent child.
Proof.
  intros Hwp Hwc Hat. split; [|apply Hat..].
  unfold allows, strings_contain. intros action resource facts Hf Hall. bool_inv.
  rewrite !andb_true_iff, !bool_decide_eq_true. split_and!; try done.
  - by apply Hat.
  - match goal with H' : existsb _ _ = true |- _ => apply existsb_exists in H' as (r & Hr & Hm) end.
    eapply resource_in_scope_covers; [|done]. apply Hat. by apply list_elem_of_In.
  - eapply check_constraints_covers; [apply Hat|done|apply Hwp|apply Hwc|done].
Qed.

(** C1: however many times a grant is delegated on, the last grant allows nothing the
    first did not allow, expires no later, starts no earlier, and names in its [act]
    chain one actor per delegation on top of the first grant's own. *)
Theorem attenuation_chain n root leaf :
  wf_claims (v_claims root) → nsteps attenuates n root leaf →
  within root leaf ∧
  ∃ chain, length chain = n ∧ actors (v_claims leaf) = chain ++ actors (v_claims root).
Proof.
  intros Hwf Hsteps. induction Hsteps as [root|n root mid leaf Hstep Hsteps IH].
  - split; [done|]. by exists [].
  - destruct (attenuates_child _ _ Hwf Hstep) as (Hwm & s & minted & uuid & spec & Hat).
    destruct (IH Hwm) as (Hin & chain & Hlen & Hact). split.
    + transitivity mid; [by eapply attenuated_within|done].
    + exists (chain ++ [sub (v_claims root)]). rewrite length_app, Hlen. split; [simpl; lia|].
      rewrite Hact. unfold actors at 1. rewrite (at_act _ _ _ _ _ _ _ Hat).
      by rewrite <-app_assoc.
Qed.

(** ** Algorithm confusion *)

(** The operations that change a verifier. *)
Inductive verifier_step : DelegationVerifier → DelegationVerifier → Prop :=
| vs_add d kid alg raw d' : add_key d kid alg raw = Ok d' → verifier_step d d'
| vs_clear d : verifier_step d (clear d)
| vs_skew d secs : verifier_step d (set_clock_skew_seconds d secs).

Definition wf_verifier (d : DelegationVerifier) : Prop :=
  0 ≤ clock_skew d ∧
  map_Forall (λ _ ak, ak.1 = EdDSA ∧ String.length ak.2 = 32%nat) (keys d).

Lemma verifier_step_wf d d' : verifier_step d d' → wf_verifier d → wf_verifier d'.
Proof.
  intros [d1 kid alg raw d2 Ha | d1 | d1 secs] [Hs Hk].
  - unfold add_key in Ha. apply bind_Ok in Ha as (k & Hkey & Hd). res_inv. subst d2.
    split; [done|]. simpl. apply map_Forall_insert_2; [|done].
    destruct alg; try done. res_inv. bool_inv.
    match goal with H' : verifying_key_from_bytes _ = Ok _ |- _ => apply ed_key_bytes in H' as -> end.
    split; [done|]. unfold len in *. simpl. lia.
  - split; [done|]. apply map_Forall_empty.
  - split; [simpl; lia|done].
Qed.

(** A verifier, however it was configured, accepts only tokens whose header says
    [EdDSA], checked with a 32-byte Ed25519 key: no header can choose another algorithm
    for a registered key. *)
Theorem verify_eddsa_only d token expected_aud now v :
  rtc verifier_step verifier_new d → verify d token expected_aud now = Ok v →
  v_alg v = EdDSA ∧ String.length (v_verifying_key v) = 32%nat ∧ 0 ≤ clock_skew d.
Proof.
  intros Hsteps (h & p & g & header & sig & [])%verify_accepts.
  assert (wf_verifier d) as [Hskew Hkeys].
  { eapply rtc_invariant; [exact verifier_step_wf|exact Hsteps|].
    split; [done|]. apply map_Forall_empty. }
  destruct (Hkeys _ _ acc_key0). done.
Qed.

(** ** Revocation *)

(** [trait DelegationRevocationStore], with the store's state passed explicitly. *)
Class RevocationStore (St : Type) := {
  rs_revoke : string → Z → St → cresult unit * St;
  rs_is_revoked : string → Z → St → cresult bool * St;
}.

(** The contract in the trait's documentation: a revocation is retained until its
    deadline, whatever other revocations arrive, of the same id too; only a check at or
    after the deadline may discard it. *)
Class RevocationLaws (St : Type) `{RevocationStore St} := {
  retains : St → string → Z → Prop;
  revoke_retains id d st st' : rs_revoke id d st = (Ok tt, st') → retains st' id d;
  revoke_keeps id d id' d' st r st' :
    retains st id d → rs_revoke id' d' st = (r, st') → retains st' id d;
  check_keeps id d id' now st r st' :
    retains st id d → id' ≠ id ∨ now < d → rs_is_revoked id' now st = (r, st') →
    retains st' id d;
  check_true id d now st b st' :
    retains st id d → now < d → rs_is_revoked id now st = (Ok b, st') → b = true;
}.

Section revocation.
Context {St : Type} `{RevocationStore St}.

Definition verify_with_revocation_store (d : DelegationVerifier) (token expected_aud : string)
    (now_unix : Z) (st : St) : cresult VerifiedDelegation * St :=
  match verify d token expected_aud now_unix with
  | Err e => (Err e, st)
  | Ok v =>
      let '(r, st) := rs_is_revoked (jti (v_claims v)) now_unix st in
      (revoked ← r;
       _ ← bail_if revoked (TokenRevoked (jti (v_claims v)));
       Ok v, st)
  end.

Definition revoke (d : DelegationVerifier) (v : VerifiedDelegation) (st : St) :
    cresult unit * St :=
  rs_revoke (jti (v_claims v)) (i64_saturating_add (exp (v_claims v)) (clock_skew d)) st.

(** The revocation check fails closed: a grant comes back only when the token
    verifies and the store answered, and answered that it is not revoked. *)
Theorem verify_with_store_fails_closed d token expected_aud now st v :
  (verify_with_revocation_store d token expected_aud now st).1 = Ok v ↔
  verify d token expected_aud now = Ok v ∧
  (rs_is_revoked (jti (v_claims v)) now st).1 = Ok false.
Proof.
  unfold verify_with_revocation_store.
  destruct (verify d token expected_aud now) as [w|e]; [|naive_solver].
  split.
  - destruct (rs_is_revoked (jti (v_claims w)) now st) as [[[]|e] st'] eqn:Hrev; simpl; try done.
    intros [= ->]. by rewrite Hrev.
  - intros [[= ->] Hr]. destruct (rs_is_revoked _ now st) as [r st']. simpl in *. by subst.
Qed.

(** Any use of the shared store, as time goes on: revocations of any id up to any deadline,
    and checks. *)
Inductive store_step : St * Z → St * Z → Prop :=
| step_revoke st t id d r st' t' :
    t ≤ t' → rs_revoke id d st = (r, st') → store_step (st, t) (st', t')
| step_check st t id now r st' :
    t ≤ now → rs_is_revoked id now st = (r, st') → store_step (st, t) (st', now).

Context `{!RevocationLaws St}.

Lemma store_steps_retain id deadline s s' :
  rtc store_step s s' → s.2 ≤ s'.2 ∧
  (retains s.1 id deadline ∨ deadline ≤ s.2 → retains s'.1 id deadline ∨ deadline ≤ s'.2).
Proof.
  induction 1 as [s|s1 s2 s3 Hstep _ [Hle IH]]; [done|].
  destruct Hstep as [st t id' d' r st' t' Ht Hr | st t id' now r st' Ht Hc]; simpl in *.
  - split; [lia|]. intros [Hret | Hd]; apply IH; [left; by eapply revoke_keeps | right; lia].
  - split; [lia|]. intros [Hret | Hd]; apply IH; [|right; lia].
    destruct (decide (now < deadline)) as [|Hn]; [left; eapply check_keeps; eauto|].
    right. lia.
Qed.

(** The claims of an accepted token are a function of the token. *)
Lemma verify_same_claims d d' token a a' now now' v v' :
  verify d token a now = Ok v → verify d' token a' now' = Ok v' → v_claims v = v_claims v'.
Proof.
  intros (h & p & g & header & sig & H1')%verify_accepts
    (h' & p' & g' & header' & sig' & H2')%verify_accepts.
  destruct H1', H2'.
  assert ([h; p; g] = [h'; p'; g']) as [= -> -> ->].
  { transitivity (split dot token); [symmetry|]; by apply split3. }
  congruence.
Qed.

(** C4: over any store that keeps the contract of the trait, a revoked token is never
    accepted again.  After a successful [revoke], no matter which other revocations and
    checks reach the shared store (another [revoke] of the same grant, up to an earlier
    deadline, too), as long as the clock does not run backwards, a verifier with no larger
    skew rejects the token: until the deadline because the store remembers, afterwards
    because it expired. *)
Theorem revoked_never_accepted d d' token a a' now0 now v st st1 t1 st2 t2 :
  verify d token a now0 = Ok v → revoke d v st = (Ok tt, st1) →
  rtc store_step (st1, t1) (st2, t2) → t2 ≤ now → clock_skew d' ≤ clock_skew d →
  ∀ v', (verify_with_revocation_store d' token a' now st2).1 ≠ Ok v'.
Proof.
  intros Hv Hrev Hsteps Hnow Hskew v' Hacc.
  unfold verify_with_revocation_store in Hacc.
  destruct (verify d' token a' now) as [w|] eqn:Hv'; [|done].
  pose proof (verify_same_claims _ _ _ _ _ _ _ _ _ Hv Hv') as Heq. rewrite <-Heq in Hacc.
  apply revoke_retains in Hrev.
  destruct (store_steps_retain (jti (v_claims v))
              (i64_saturating_add (exp (v_claims v)) (clock_skew d)) _ _ Hsteps) as [_ Hret]. simpl in Hret.
  destruct (decide (now < i64_saturating_add (exp (v_claims v)) (clock_skew d))) as [Hlt|Hge].
  - destruct Hret as [Hret|]; [by left| |lia].
    destruct (rs_is_revoked _ now st2) as [[b|e] st'] eqn:Hc; simpl in Hacc; [|done].
    rewrite (check_true _ _ _ _ _ _ Hret Hlt Hc) in Hacc. done.
  - apply verify_accepts in Hv' as (? & ? & ? & ? & ? & Hacc').
    pose proof (acc_unexpired _ _ _ _ _ _ _ _ _ _ Hacc') as Hexp. rewrite <-Heq in Hexp.
    unfold_ints. lia.
Qed.
End revocation.
End signer.

(** ** The in-memory store *)

(** [TestRevocationStore]: a [HashMap] from token id to deadline. *)
#[export] Instance map_store : RevocationStore (gmap string Z) := {
  rs_revoke id d st := (Ok tt, <[id := d]> st);
  rs_is_revoked id now st :=
    match st !! id with
    | Some d => if bool_decide (now < d) then (Ok true, st) else (Ok false, delete id st)
    | None => (Ok false, st)
    end;
}.

(** A map that keeps the later of two deadlines, as the script of the Redis store does. *)
Record LongestStore : Type := mkLongestStore { deadlines : gmap string Z }.
#[export] Instance longest_store : RevocationStore LongestStore := {
  rs_revoke id d st :=
    (Ok tt, mkLongestStore (<[id := Z.max d (default d (deadlines st !! id))]> (deadlines st)));
  rs_is_revoked id now st :=
    let '(r, m) := rs_is_revoked id now (deadlines st) in (r, mkLongestStore m);
}.

#[export] Instance longest_store_laws : RevocationLaws LongestStore.
Proof.
  refine {| retains st id d := ∃ d', deadlines st !! id = Some d' ∧ d ≤ d' |}; simpl.
  - intros id d st st' [= <-]. eexists. cbn. rewrite lookup_insert_eq. split; [done|lia].
  - intros id d id' d' st r st' (e & He & Hle) [= <- <-]. cbn.
    destruct (decide (id' = id)) as [->|].
    + rewrite lookup_insert_eq, He. cbn. eexists. split; [done|lia].
    + rewrite lookup_insert_ne by done. eauto.
  - intros id d id' now [st] r st' (e & He & Hle) Hor Hc. cbn in *.
    destruct (decide (id' = id)) as [->|].
    + rewrite He, bool_decide_eq_true_2 in Hc by naive_solver lia. naive_solver.
    + destruct (st !! id'); [case_bool_decide|]; simplify_eq; eauto.
      cbn. rewrite lookup_delete_ne by done. eauto.
  - intros id d now [st] b st' (e & He & Hle) Hlt Hc. cbn in *.
    rewrite He, bool_decide_eq_true_2 in Hc by lia. naive_solver.
Qed.
