(* ===== verification/DelegationExamples.v ===== *)
(** * Delegation on concrete inputs

    A codec of claims that satisfies [ClaimsLaws], and the theorems of [Delegation]
    applied to concrete grants with the functions of [Crypto.Concrete]. *)

From S2P Require Import Prelude Json Glob Constraint CoreError AuthKeys Crypto Delegation.
Import Concrete.

(** ** A codec *)

Abbreviation ctree := (gen_tree (string + (Z + Value))).
Abbreviation leaf_s s := (GenLeaf (inl s)).
Abbreviation leaf_z z := (GenLeaf (inr (inl z))).
Abbreviation leaf_v v := (GenLeaf (inr (inr v))).

Fixpoint expr_tree (e : ConstraintExpr) : ctree :=
  match e with
  | CEquals p v => GenNode 0 [leaf_s p; leaf_v v]
  | CIn p vs => GenNode 1 [leaf_s p; leaf_v (VArray vs)]
  | CGreaterThan p z => GenNode 2 [leaf_s p; leaf_z z]
  | CLessThan p z => GenNode 3 [leaf_s p; leaf_z z]
  | CGlob p g => GenNode 4 [leaf_s p; leaf_s g]
  | CAnd l => GenNode 5 (expr_tree <$> l)
  | COr l => GenNode 6 (expr_tree <$> l)
  | CNot e => GenNode 7 [expr_tree e]
  end.

Fixpoint tree_expr (t : ctree) : ConstraintExpr :=
  match t with
  | GenNode 0 [leaf_s p; leaf_v v] => CEquals p v
  | GenNode 1 [leaf_s p; leaf_v (VArray vs)] => CIn p vs
  | GenNode 2 [leaf_s p; leaf_z z] => CGreaterThan p z
  | GenNode 3 [leaf_s p; leaf_z z] => CLessThan p z
  | GenNode 4 [leaf_s p; leaf_s g] => CGlob p g
  | GenNode 5 l => CAnd (tree_expr <$> l)
  | GenNode 6 l => COr (tree_expr <$> l)
  | GenNode 7 [t] => CNot (tree_expr t)
  | _ => CAnd []
  end.

Lemma tree_expr_tree e : tree_expr (expr_tree e) = e.
Proof.
  induction e as [p v|p vs|p z|p z|p g|l IH|l IH|e IH] using ConstraintExpr_ind'; try done;
    simpl; f_equal; try done;
    (induction IH as [|x l Hx _ IHl]; [done|]; by rewrite !fmap_cons, Hx, IHl).
Qed.

#[export] Instance expr_tree_inj : Inj (=) (=) expr_tree.
Proof. intros a b Hab. by rewrite <-(tree_expr_tree a), Hab, tree_expr_tree. Qed.

#[export] Instance ConstraintExpr_eq_dec : EqDecision ConstraintExpr.
Proof. refine (inj_eq_dec expr_tree). Defined.
#[export] Instance ConstraintExpr_countable : Countable ConstraintExpr :=
  inj_countable' expr_tree tree_expr tree_expr_tree.

(** An [act] chain is the list of its links, the innermost last. *)
Fixpoint act_links (a : ActClaim) : (string * option string) * list (string * option string) :=
  ((act_sub a, act_iss a),
   match act_act a with Some b => (act_links b).1 :: (act_links b).2 | None => [] end).

Fixpoint links_act (x : string * option string) (l : list (string * option string)) : ActClaim :=
  mkActClaim x.1 x.2 (match l with [] => None | y :: l => Some (links_act y l) end).

Lemma links_act_links (a : ActClaim) : links_act (act_links a).1 (act_links a).2 = a.
Proof.
  revert a. fix IH 1. intros [s i [b|]]; simpl; [|done]. by rewrite IH.
Qed.

(** Claims as a tuple of countable things. *)
Definition claims_tuple (c : DelegationClaims) :=
  ((iss c, sub c, aud c, jti c, iat c, exp c, nbf c),
   (allowed_actions c, resource_patterns c, act_links <$> act c,
    expressions <$> constraints c, extra c)).

Definition tuple_claims (t : _) : DelegationClaims :=
  let '((i, s, a, j, ia, e, n), (aa, rp, ac, cs, ex)) := t in
  mkDelegationClaims i s a ia e n j aa rp ((λ x, links_act x.1 x.2) <$> ac)
    (Build_ConstraintSet <$> cs) ex.

Lemma tuple_claims_tuple c : tuple_claims (claims_tuple c) = c.
Proof.
  destruct c as [i s a ia e n j aa rp [ac|] [[cs]|] ex]; cbn [claims_tuple tuple_claims fmap option_fmap option_map];
    cbn; rewrite ?links_act_links; done.
Qed.

Fixpoint wf_exprb (e : ConstraintExpr) : bool :=
  match e with
  | CEquals _ v => wf_valueb v
  | CIn _ vs => forallb wf_valueb vs
  | CAnd l | COr l => forallb wf_exprb l
  | CNot e => wf_exprb e
  | _ => true
  end.

Lemma wf_exprb_spec e : wf_exprb e = true ↔ wf_expr e.
Proof.
  induction e as [p v|p vs|p z|p z|p g|l IH|l IH|e IH] using ConstraintExpr_ind'; try done; simpl.
  - apply wf_valueb_spec.
  - apply forallb_Forall_iff, Forall_true, wf_valueb_spec.
  - rewrite wf_exprs. by apply forallb_Forall_iff.
  - rewrite wf_exprs. by apply forallb_Forall_iff.
Qed.

Definition wf_claimsb (c : DelegationClaims) : bool :=
  bool_decide (in_i64 (iat c)) && bool_decide (in_i64 (exp c))
  && match nbf c with Some t => bool_decide (in_i64 t) | None => true end
  && match constraints c with Some cs => forallb wf_exprb (expressions cs) | None => true end
  && wf_valueb (VObject (extra c)).

Lemma wf_claimsb_spec c : wf_claimsb c = true ↔ wf_claims c.
Proof.
  unfold wf_claimsb. rewrite !andb_true_iff, !bool_decide_eq_true, wf_valueb_spec.
  assert (Hn : match nbf c with Some t => bool_decide (in_i64 t) | None => true end = true
    ↔ ∀ t, nbf c = Some t → in_i64 t).
  { destruct (nbf c); [rewrite bool_decide_eq_true|]; naive_solver. }
  assert (Hc : match constraints c with Some cs => forallb wf_exprb (expressions cs) | None => true
    end = true ↔ ∀ cs, constraints c = Some cs → wf_constraints cs).
  { destruct (constraints c) as [cs|]; [|naive_solver].
    rewrite (forallb_Forall_iff _ wf_expr) by apply Forall_true, wf_exprb_spec. naive_solver. }
  rewrite Hn, Hc. split; [intros [[[[? ?] ?] ?] ?]; by split | by intros [? ? ? ? ?]].
Qed.

#[export] Instance claims_codec : ClaimsCodec := {|
  claims_to_vec c := Ok (to_text (claims_tuple c));
  claims_from_slice b :=
    t ← ok_or (of_text b) "invalid JSON";
    _ ← bail_if (negb (wf_claimsb (tuple_claims t))) "invalid type";
    Ok (tuple_claims t) |}.

#[export] Instance claims_codec_laws : ClaimsLaws.
Proof.
  split; cbn -[claims_tuple tuple_claims of_text to_text].
  - eauto.
  - intros b c Hb. res_inv. subst. bool_inv. by apply wf_claimsb_spec.
  - intros c b Hwf%wf_claimsb_spec _ [= <-]. rewrite of_to_text_nil. cbn -[claims_tuple tuple_claims].
    by rewrite tuple_claims_tuple, Hwf.
Qed.

(** ** Concrete grants *)

Definition alice : DelegationSigner := mkDelegationSigner "alice-secret" "agent-1".
Definition ok_of {E A} (dflt : A) (r : result E A) : A :=
  match r with Ok a => a | Err _ => dflt end.

Definition verifier : DelegationVerifier :=
  ok_of verifier_new (add_key verifier_new "agent-1" EdDSA (verifying_key_of (key alice))).

Definition limit : ConstraintSet := {| expressions := [CLessThan "amount" 100] |}.
Definition no_claims : DelegationClaims :=
  mkDelegationClaims "" "" "" 0 0 None "" [] [] None None [].
Definition no_grant : VerifiedDelegation := mkVerifiedDelegation no_claims "" EdDSA "".
Definition no_token : DelegationToken := mkDelegationToken no_claims "".

Definition root_token : DelegationToken :=
  ok_of no_token
    (mint_with alice 1000 "jti-1" "alice" "planner" "mail" ["send"; "read"] ["Mailbox::*"]
       default_config (λ c, mkDelegationClaims (iss c) (sub c) (aud c) (iat c) (exp c) (nbf c)
         (jti c) (allowed_actions c) (resource_patterns c) (act c) (Some limit) (extra c))).
Definition root_grant : VerifiedDelegation :=
  ok_of no_grant (verify verifier (jws root_token) "mail" 1010).

Definition child_spec : DelegationSpec :=
  with_constraints
    (spec_new "writer" "mail" ["send"] ["Mailbox::42"] (mkDelegationConfig 60)) limit.
Definition child_token : DelegationToken :=
  ok_of no_token (mint_attenuated alice 1020 "jti-2" root_grant child_spec).
Definition child_grant : VerifiedDelegation :=
  ok_of no_grant (verify verifier (jws child_token) "mail" 1030).

Definition plain_token : DelegationToken :=
  ok_of no_token
    (mint alice 1000 "jti-0" "alice" "planner" "mail" ["send"] ["Mailbox::*"] default_config).

Lemma verifier_add : add_key verifier_new (key_id alice) EdDSA (verifying_key_of (key alice)) = Ok verifier.
Proof. by vm_compute. Qed.
Lemma plain_token_minted :
  mint alice 1000 "jti-0" "alice" "planner" "mail" ["send"] ["Mailbox::*"] default_config
  = Ok plain_token.
Proof. by vm_compute. Qed.
Lemma root_verified : verify verifier (jws root_token) "mail" 1010 = Ok root_grant.
Proof. by vm_compute. Qed.
Lemma child_minted : mint_attenuated alice 1020 "jti-2" root_grant child_spec = Ok child_token.
Proof. by vm_compute. Qed.
Lemma child_verified : verify verifier (jws child_token) "mail" 1030 = Ok child_grant.
Proof. by vm_compute. Qed.

(** The witness of [mint_verify]. *)
Example mint_verify_witness :
  ∃ v, verify verifier (jws plain_token) "mail" 1010 = Ok v ∧
    allows v "planner" "send" "Mailbox::7" (VObject []) = true.
Proof.
  destruct (mint_verify alice verifier_new verifier 1000 1010 "jti-0" "alice" "planner" "mail"
    ["send"] ["Mailbox::*"] default_config plain_token verifier_add plain_token_minted)
    as (v & Hv & _ & Hallow).
  - by repeat constructor.
  - vm_compute. discriminate.
  - unfold usable. vm_compute. split_and!; done.
  - exists v. split; [exact Hv|]. apply Hallow.
    split; [done|]. split; [constructor|]. exists "Mailbox::*". split; [constructor|].
    by apply glob_match_spec.
Defined.

(** The witness of [attenuation_chain]: one delegation of the root grant. *)
Example attenuation_chain_witness :
  within root_grant child_grant ∧
  ∃ chain, length chain = 1%nat ∧
    actors (v_claims child_grant) = chain ++ actors (v_claims root_grant).
Proof.
  apply (attenuation_chain 1 root_grant child_grant).
  - apply wf_claimsb_spec. by vm_compute.
  - apply nsteps_once. refine (attenuates_intro _ _ alice 1020 "jti-2" child_spec child_token
      verifier "mail" 1030 _ _ _ child_minted child_verified); try done.
    intros cs [= <-]. by repeat constructor.
Defined.

(** The witness of [verify_eddsa_only]. *)
Example verify_eddsa_only_witness :
  v_alg root_grant = EdDSA ∧ String.length (v_verifying_key root_grant) = 32%nat
  ∧ 0 ≤ clock_skew verifier.
Proof.
  apply (verify_eddsa_only verifier (jws root_token) "mail" 1010 root_grant); [|apply root_verified].
  apply rtc_once. exact (vs_add _ _ _ _ _ verifier_add).
Defined.

(** The witness of [revoked_never_accepted].  A second revocation up to an earlier deadline
    does not shorten the first; a check after the deadline makes the store forget the entry,
    but the token is then expired. *)
Example revoked_never_accepted_witness :
  let st1 := mkLongestStore {["jti-1" := 1960]} in
  (verify_with_revocation_store verifier (jws root_token) "mail" 1500 st1).1 ≠ Ok root_grant ∧
  (verify_with_revocation_store verifier (jws root_token) "mail" 5000 (mkLongestStore ∅)).1
    ≠ Ok root_grant.
Proof.
  intros st1. assert (Hrev : revoke verifier root_grant (mkLongestStore ∅) = (Ok tt, st1))
    by by vm_compute.
  split.
  - refine (revoked_never_accepted verifier verifier (jws root_token) "mail" "mail" 1010 1500
      root_grant (mkLongestStore ∅) st1 1011 st1 1012 root_verified Hrev _ _ _ root_grant); [|lia..].
    apply rtc_once. refine (step_revoke _ _ "jti-1" 1200 (Ok tt) _ 1012 _ _); [lia|by vm_compute].
  - refine (revoked_never_accepted verifier verifier (jws root_token) "mail" "mail" 1010 5000
      root_grant (mkLongestStore ∅) st1 1011 _ 4000 root_verified Hrev _ _ _ root_grant); [|lia..].
    apply rtc_once. refine (step_check _ _ "jti-1" 4000 (Ok false) _ _ _); [lia|by vm_compute].
Defined.

(** The store of the tests in [delegation.rs] does not keep the contract: it overwrites the
    deadline, so a second revocation, by a verifier with a smaller skew, shortens the first,
    and the token is accepted again by the verifier that revoked it. *)
Definition strict_verifier : DelegationVerifier := set_clock_skew_seconds verifier 0.
Theorem overwritten_revocation_forgotten :
  let st1 := (revoke verifier root_grant (∅ : gmap string Z)).2 in
  let st2 := (revoke strict_verifier root_grant st1).2 in
  (verify_with_revocation_store verifier (jws root_token) "mail" 1930 st1).1
    = Err (TokenRevoked "jti-1") ∧
  (verify_with_revocation_store verifier (jws root_token) "mail" 1930 st2).1 = Ok root_grant.
Proof. by vm_compute. Qed.
