(* ===== verification/Trace.v ===== *)
(** * W3C trace context ([agentguard-core/src/observability/span.rs])

    [TraceId], [SpanId] and [TraceContext]: parsing a [traceparent] header and writing
    one.  The identifiers are byte arrays of 16 and 8 bytes. *)

From S2P Require Import Prelude Json CoreError Crypto.

Definition TRACE_ID_LEN : Z := 16.
Definition SPAN_ID_LEN : Z := 8.

Definition TraceId : Type := bytes.
Definition SpanId : Type := bytes.

Record TraceContext : Type := mkTraceContext {
  trace_id : TraceId;
  span_id : SpanId;
  flags : Z;
}.

(** ** [u8::from_str_radix(s, 16)] and [{:02x}] *)

Definition hex_value (c : ascii) : option Z :=
  let n := Z.of_nat (nat_of_ascii c) in
  if (48 <=? n) && (n <=? 57) then Some (n - 48)
  else if (97 <=? n) && (n <=? 102) then Some (n - 87)
  else if (65 <=? n) && (n <=? 70) then Some (n - 55)
  else None.

(** Digit by digit; an invalid digit is reported before an overflow. *)
Fixpoint u8_digits (acc : Z) (s : string) : result string Z :=
  match s with
  | EmptyString => Ok acc
  | String c s =>
      d ← ok_or (hex_value c) "invalid digit found in string";
      _ ← bail_if (255 <? acc * 16 + d) "number too large to fit in target type";
      u8_digits (acc * 16 + d) s
  end.

Definition u8_from_hex (s : string) : result string Z :=
  _ ← bail_if (bool_decide (s = "")) "cannot parse integer from empty string";
  match strip_prefix "+" s with
  | Some digits =>
      _ ← bail_if (bool_decide (digits = "")) "invalid digit found in string";
      u8_digits 0 digits
  | None => u8_digits 0 s
  end.

Definition u8_hex (n : Z) : string :=
  hex_digit (Z.to_nat (n / 16)) +:+ hex_digit (Z.to_nat (n mod 16)).

(** ** The identifiers *)

Section trace.
Context `{Hex}.

Definition trace_id_from_str (s : string) : cresult TraceId :=
  b ← map_err (λ e, Other ("trace_id hex: " +:+ e)) (hex_decode s);
  _ ← bail_if (negb (len b =? TRACE_ID_LEN))
        (Other ("trace_id must be 16 bytes, got " +:+ pretty (len b)));
  Ok b.

Definition span_id_from_str (s : string) : cresult SpanId :=
  b ← map_err (λ e, Other ("span_id hex: " +:+ e)) (hex_decode s);
  _ ← bail_if (negb (len b =? SPAN_ID_LEN))
        (Other ("span_id must be 8 bytes, got " +:+ pretty (len b)));
  Ok b.

(** [Display] of both: [as_hex]. *)
Definition as_hex (id : bytes) : string := hex_encode id.

Definition trace_new (t : TraceId) (s : SpanId) : TraceContext := mkTraceContext t s 1.

(** [child] with the random span it draws. *)
Definition child (c : TraceContext) (fresh : SpanId) : TraceContext :=
  mkTraceContext (trace_id c) fresh (flags c).

(** ** The header *)

Definition trace_display (c : TraceContext) : string :=
  "00-" +:+ as_hex (trace_id c) +:+ "-" +:+ as_hex (span_id c) +:+ "-" +:+ u8_hex (flags c).

Definition trace_from_str (s : string) : cresult TraceContext :=
  match split "-"%char s with
  | [version; t; p; f] =>
      _ ← bail_if (negb (starts_with "00" version))
            (Other ("unsupported traceparent version: " +:+ version));
      t ← trace_id_from_str t;
      p ← span_id_from_str p;
      f ← map_err (λ e, Other ("flags hex: " +:+ e)) (u8_from_hex f);
      Ok (mkTraceContext t p f)
  | parts => Err (Other ("traceparent must have 4 dash-separated parts, got "
                         +:+ pretty (Z.of_nat (length parts))))
  end.

(** [Serialize for TraceContext]: a string. *)
Definition trace_to_value (c : TraceContext) : Value := VString (trace_display c).

(** [Deserialize for TraceContext]; the texts of its errors are not kept. *)
Definition trace_of_value (v : Value) : option TraceContext :=
  s ← as_str v; to_ok (trace_from_str s).

(** [TraceContext::fresh], with the random bytes it draws. *)
Definition trace_fresh (t : TraceId) (s : SpanId) : TraceContext := trace_new t s.

(** [trace_context_layer]: the context that the handlers see, and the value of the header
    [x-agentguard-span-id] of the response.  [traceparent] is the header of the request when it
    is there and is text; [t], [s] and [span] are drawn at random. *)
Definition trace_context_layer (traceparent : option string) (t : TraceId) (s span : SpanId) : TraceContext * string :=
  let trace := default (trace_fresh t s) (traceparent ≫= λ h, to_ok (trace_from_str h)) in
  let child := child trace span in
  (child, as_hex (span_id child)).

(** ** Round trip *)

Definition wf_trace (c : TraceContext) : Prop :=
  len (trace_id c) = TRACE_ID_LEN ∧ len (span_id c) = SPAN_ID_LEN ∧ 0 ≤ flags c < 256.

Lemma hex_no_char c s :
  forallb hex_char (String.list_ascii_of_string s) = true → hex_char c = false →
  str_contains c s = false.
Proof.
  induction s as [|d s IH]; [done|]. simpl. intros. bool_inv. rewrite IH by done.
  rewrite bool_decide_eq_false_2; [done|]. intros ->. congruence.
Qed.

Lemma u8_hex_roundtrip n :
  0 ≤ n < 256 → u8_from_hex (u8_hex n) = Ok n ∧ str_contains "-" (u8_hex n) = false.
Proof.
  intros Hn. assert (∃ k, (k < 256)%nat ∧ n = Z.of_nat k) as (k & Hk & ->).
  { exists (Z.to_nat n). lia. }
  assert (Forall (λ k, u8_from_hex (u8_hex (Z.of_nat k)) = Ok (Z.of_nat k)
    ∧ str_contains "-" (u8_hex (Z.of_nat k)) = false) (seq 0 256)) as Hall.
  { apply (bool_decide_unpack _). by vm_compute. }
  rewrite Forall_forall in Hall. apply Hall, elem_of_seq. lia.
Qed.

Context `{!HexLaws}.

Lemma trace_from_to_str c : wf_trace c → trace_from_str (trace_display c) = Ok c.
Proof.
  intros (Ht & Hs & Hf). destruct c as [t s f]. simpl in *.
  destruct (u8_hex_roundtrip f Hf) as [Hpf Hcf].
  unfold trace_from_str.
  assert (Hsplit : split "-"%char (trace_display (mkTraceContext t s f))
    = ["00"; as_hex t; as_hex s; u8_hex f]).
  { apply (split_join "-"%char ["00"; as_hex t; as_hex s; u8_hex f]); [done|].
    repeat constructor; try done; apply hex_no_char; by try apply hex_encode_chars. }
  rewrite Hsplit. unfold trace_id_from_str, span_id_from_str, as_hex.
  rewrite !hex_decode_encode. cbn [map_err mbind result_bind bail_if].
  rewrite Ht, Hs, Hpf. done.
Qed.

(** A parsed context is well formed. *)
Lemma u8_digits_range acc s n : 0 ≤ acc < 256 → u8_digits acc s = Ok n → 0 ≤ n < 256.
Proof.
  revert acc. induction s as [|c s IH]; intros acc Ha Hd; cbn [u8_digits] in Hd; res_inv; [lia|].
  bool_inv. eapply IH; [|exact Hd]. split; [|lia].
  unfold hex_value in *. repeat case_match; simplify_eq; bool_inv; lia.
Qed.

Lemma trace_from_str_wf s c : trace_from_str s = Ok c → wf_trace c.
Proof.
  unfold trace_from_str, trace_id_from_str, span_id_from_str. intros Hp.
  destruct (split "-"%char s) as [|v [|t [|p [|f [|]]]]]; try done.
  res_inv. subst. bool_inv. unfold wf_trace. simpl. split; [done|]. split; [done|].
  unfold u8_from_hex in *. res_inv.
  destruct (strip_prefix "+" f); res_inv; eapply u8_digits_range; eauto; lia.
Qed.

(** Writing a trace context and parsing it back gives the same context, and
    whatever header parses, the context it gives writes to a header that parses to
    the same context. *)
Theorem traceparent_roundtrip :
  (∀ c, wf_trace c → trace_from_str (trace_display c) = Ok c) ∧
  (∀ s c, trace_from_str s = Ok c → wf_trace c ∧ trace_from_str (trace_display c) = Ok c).
Proof.
  split; [exact trace_from_to_str|]. intros s c Hp.
  eauto using trace_from_str_wf, trace_from_to_str.
Qed.

Lemma trace_value_roundtrip c : wf_trace c → trace_of_value (trace_to_value c) = Some c.
Proof. intros Hc. unfold trace_of_value, trace_to_value. simpl. by rewrite trace_from_to_str. Qed.

(** A request stays in the trace of its caller: when the caller sends the header of a context,
    the handlers see a child of it, with a new span; without one, or with one that does not
    parse, they see a new sampled trace.  Either way the span in the response is theirs, and
    what they pass on as a header parses to their context. *)
Theorem trace_layer_continues t s span h :
  len t = TRACE_ID_LEN → len s = SPAN_ID_LEN → len span = SPAN_ID_LEN →
  let '(c, header) := trace_context_layer h t s span in
  span_id c = span ∧ span_id_from_str header = Ok span ∧ trace_from_str (trace_display c) = Ok c ∧
  (∀ caller, wf_trace caller → h = Some (trace_display caller) → trace_id c = trace_id caller ∧ flags c = flags caller) ∧
  ((h ≫= λ x, to_ok (trace_from_str x)) = None → trace_id c = t ∧ flags c = 1).
Proof.
  intros Ht Hs Hspan. unfold trace_context_layer. cbn [child trace_id span_id flags].
  split_and!; [done| | | |].
  - unfold span_id_from_str, as_hex. rewrite hex_decode_encode. cbn. by rewrite Hspan.
  - apply trace_from_to_str.
    assert (Hwf : wf_trace (default (trace_fresh t s) (h ≫= λ x, to_ok (trace_from_str x)))).
    { destruct h as [x|]; simpl; [|done]. destruct (trace_from_str x) as [c|] eqn:Hx; [|done]. by eapply trace_from_str_wf. }
    destruct Hwf as (Hti & _ & Hf). unfold wf_trace. cbn [trace_id span_id flags].
    split; [exact Hti|]. by split.
  - intros caller Hwf ->. simpl. by rewrite trace_from_to_str.
  - by intros ->.
Qed.
End trace.

Import Concrete.

(** The witness of [traceparent_roundtrip]: the example of the specification. *)
Example traceparent_roundtrip_witness :
  let s := "00-4bf92f3577b34da6a3ce929d0e0e4736-00f067aa0ba902b7-01" in
  ∃ c, trace_from_str s = Ok c ∧ trace_from_str (trace_display c) = Ok c ∧ trace_display c = s.
Proof.
  intros s. eexists. split; [vm_compute; reflexivity|].
  destruct traceparent_roundtrip as [_ Hrt].
  split; [|by vm_compute]. apply (Hrt s). by vm_compute.
Defined.

(** The witness of [trace_layer_continues]. *)
Example trace_layer_continues_witness :
  let caller := "00-4bf92f3577b34da6a3ce929d0e0e4736-00f067aa0ba902b7-01" in
  let '(c, header) := trace_context_layer (Some caller) "0123456789abcdef" "01234567" "abcdefgh" in
  span_id_from_str header = Ok "abcdefgh" ∧ trace_from_str (trace_display c) = Ok c.
Proof.
  intros caller.
  pose proof (trace_layer_continues "0123456789abcdef" "01234567" "abcdefgh" (Some caller) eq_refl eq_refl eq_refl) as Ht.
  destruct (trace_context_layer _ _ _ _) as [c header]. destruct Ht as (_ & Hh & Hc & _). by split.
Defined.
