(* ===== verification/Request.v ===== *)
(** * Authorization requests

    [principal.rs], [action.rs], [resource.rs], [context.rs] and [request.rs] of
    [agentguard-core]: the parts of a request, its builder, and the JSON that
    [serde_json::to_value] makes of it (which the audit record and the cache key are
    built from).  The newtypes of [ids.rs] are strings. *)

From S2P Require Import Prelude Json CoreError Crypto Trace.

(** [IndexMap<String, Value>] *)
Abbreviation attrs_map := (list (string * Value)).

(** ** Principals *)

Inductive Principal : Type :=
| User (uid : string) (attrs : attrs_map)
| Agent (uid : string) (parent_uid : option string) (attrs : attrs_map).

Definition user (uid : string) : Principal := User uid [].
Definition agent (uid : string) : Principal := Agent uid None [].
Definition subagent (uid parent : string) : Principal := Agent uid (Some parent) [].

Definition principal_with_attr (p : Principal) (k : string) (v : Value) : Principal :=
  match p with
  | User uid attrs => User uid (assoc_insert k v attrs)
  | Agent uid parent attrs => Agent uid parent (assoc_insert k v attrs)
  end.

Definition principal_type (p : Principal) : string :=
  match p with User _ _ => "User" | Agent _ _ _ => "Agent" end.

Definition principal_id (p : Principal) : string :=
  match p with User uid _ => uid | Agent uid _ _ => uid end.

(** [Display]: [User::"alice"]; the uid is not escaped. *)
Definition entity_uid (ty id : string) : string :=
  ty +:+ "::" +:+ double_quote +:+ id +:+ double_quote.
Definition principal_display (p : Principal) : string :=
  entity_uid (principal_type p) (principal_id p).

(** [#[serde(tag = "type", rename_all = "snake_case")]] *)
Definition opt_member (k : string) (v : option Value) : attrs_map :=
  match v with Some v => [(k, v)] | None => [] end.

Definition principal_to_value (p : Principal) : Value :=
  match p with
  | User uid attrs =>
      VObject [("type", VString "user"); ("uid", VString uid); ("attrs", VObject attrs)]
  | Agent uid parent attrs =>
      VObject ([("type", VString "agent"); ("uid", VString uid)]
               ++ opt_member "parent_uid" (VString <$> parent) ++ [("attrs", VObject attrs)])
  end.

(** ** Actions and resources *)

Record AgentAction : Type := mkAgentAction { tool : string; operation : option string }.

Definition action_tool (name : string) : AgentAction := mkAgentAction name None.
Definition tool_op (name op : string) : AgentAction := mkAgentAction name (Some op).

Definition action_id (a : AgentAction) : string :=
  match operation a with
  | Some op => "ToolCall::" +:+ tool a +:+ "::" +:+ op
  | None => "ToolCall::" +:+ tool a
  end.

Definition action_display (a : AgentAction) : string := entity_uid "Action" (action_id a).

Definition action_to_value (a : AgentAction) : Value :=
  VObject ([("tool", VString (tool a))] ++ opt_member "operation" (VString <$> operation a)).

Record Resource : Type := mkResource {
  entity_type : string;
  res_uid : string;
  res_attrs : attrs_map;
}.

Definition resource_new (ty uid : string) : Resource := mkResource ty uid [].
Definition resource_with_attr (r : Resource) (k : string) (v : Value) : Resource :=
  mkResource (entity_type r) (res_uid r) (assoc_insert k v (res_attrs r)).
Definition resource_display (r : Resource) : string := entity_uid (entity_type r) (res_uid r).
Definition resource_to_value (r : Resource) : Value :=
  VObject [("entity_type", VString (entity_type r)); ("uid", VString (res_uid r));
           ("attrs", VObject (res_attrs r))].

(** ** Context *)

Record AgentContext : Type := mkAgentContext { args : Value; session : attrs_map }.

Definition context_new : AgentContext := mkAgentContext Null [].

Definition with_arg (c : AgentContext) (k : string) (v : Value) : AgentContext :=
  let m := default [] (as_object (args c)) in
  mkAgentContext (VObject (assoc_insert k v m)) (session c).

Definition with_session (c : AgentContext) (k : string) (v : Value) : AgentContext :=
  mkAgentContext (args c) (assoc_insert k v (session c)).

Definition to_json_object (c : AgentContext) : attrs_map :=
  let map := match args c with VObject m => assoc_extend [] m | _ => [] end in
  match session c with
  | [] => map
  | _ => assoc_insert "session" (VObject (assoc_extend [] (session c))) map
  end.

Definition context_to_value (c : AgentContext) : Value :=
  VObject [("args", args c); ("session", VObject (session c))].

(** ** Requests *)

Record AgentRequest : Type := mkAgentRequest {
  principal : Principal;
  action : AgentAction;
  resource : Resource;
  context : AgentContext;
  request_id : option string;
  trace : option TraceContext;
  tenant_id : option string;
}.

(** [AgentRequest::new] with the uuid it draws. *)
Definition request_new (p : Principal) (a : AgentAction) (r : Resource) (c : AgentContext)
    (uuid : string) : AgentRequest :=
  mkAgentRequest p a r c (Some uuid) None None.

Definition with_request_id (r : AgentRequest) (id : string) : AgentRequest :=
  mkAgentRequest (principal r) (action r) (resource r) (context r) (Some id) (trace r) (tenant_id r).
Definition with_trace (r : AgentRequest) (t : TraceContext) : AgentRequest :=
  mkAgentRequest (principal r) (action r) (resource r) (context r) (request_id r) (Some t)
    (tenant_id r).

(** Whitespace is trimmed, and what is then empty is no tenant. *)
Definition trimmed_tenant (tid : string) : option string :=
  if is_blank tid then None else Some (trim tid).
Definition with_tenant_id (r : AgentRequest) (tid : string) : AgentRequest :=
  mkAgentRequest (principal r) (action r) (resource r) (context r) (request_id r) (trace r)
    (trimmed_tenant tid).

(** ** The builder *)

Record AgentRequestBuilder : Type := mkBuilder {
  b_principal : Principal;
  b_action : option AgentAction;
  b_resource : option Resource;
  b_context : AgentContext;
  b_request_id : option string;
  b_trace : option TraceContext;
  b_tenant_id : option string;
}.

Definition builder_new (p : Principal) : AgentRequestBuilder :=
  mkBuilder p None None context_new None None None.
Definition set_action (b : AgentRequestBuilder) a : AgentRequestBuilder :=
  mkBuilder (b_principal b) (Some a) (b_resource b) (b_context b) (b_request_id b) (b_trace b)
    (b_tenant_id b).
Definition set_resource (b : AgentRequestBuilder) r : AgentRequestBuilder :=
  mkBuilder (b_principal b) (b_action b) (Some r) (b_context b) (b_request_id b) (b_trace b)
    (b_tenant_id b).
Definition set_context (b : AgentRequestBuilder) c : AgentRequestBuilder :=
  mkBuilder (b_principal b) (b_action b) (b_resource b) c (b_request_id b) (b_trace b)
    (b_tenant_id b).
Definition set_request_id (b : AgentRequestBuilder) id : AgentRequestBuilder :=
  mkBuilder (b_principal b) (b_action b) (b_resource b) (b_context b) (Some id) (b_trace b)
    (b_tenant_id b).
Definition set_trace (b : AgentRequestBuilder) t : AgentRequestBuilder :=
  mkBuilder (b_principal b) (b_action b) (b_resource b) (b_context b) (b_request_id b) (Some t)
    (b_tenant_id b).
Definition set_tenant_id (b : AgentRequestBuilder) tid : AgentRequestBuilder :=
  mkBuilder (b_principal b) (b_action b) (b_resource b) (b_context b) (b_request_id b) (b_trace b)
    (trimmed_tenant tid).

Definition traceparent `{Hex} (b : AgentRequestBuilder) (tp : string) :
    cresult AgentRequestBuilder :=
  t ← trace_from_str tp; Ok (set_trace b t).

Definition build (b : AgentRequestBuilder) (uuid : string) : cresult AgentRequest :=
  a ← ok_or (b_action b) (InvalidPrincipal "action is required");
  r ← ok_or (b_resource b) (InvalidResource "resource is required");
  let req := request_new (b_principal b) a r (b_context b) uuid in
  let req := match b_request_id b with Some id => with_request_id req id | None => req end in
  Ok (mkAgentRequest (principal req) (action req) (resource req) (context req) (request_id req)
        (b_trace b) (b_tenant_id b)).

(** [serde_json::to_value(req)] *)
Definition request_to_value `{Hex} (r : AgentRequest) : Value :=
  VObject ([("principal", principal_to_value (principal r)); ("action", action_to_value (action r));
            ("resource", resource_to_value (resource r)); ("context", context_to_value (context r))]
           ++ opt_member "request_id" (VString <$> request_id r)
           ++ opt_member "trace" (trace_to_value <$> trace r)
           ++ opt_member "tenant_id" (VString <$> tenant_id r)).

(** ** Action ids *)

(** ["::"] occurs in [s]. *)
Definition has_separator (s : string) : bool := bool_decide (is_Some (split_once "::" s)).

Lemma split_once_Some sep s a b : split_once sep s = Some (a, b) → s = a +:+ sep +:+ b.
Proof.
  revert a b. induction s as [|c s IH]; intros a b; simpl.
  - destruct (strip_prefix sep "") as [r|] eqn:Hr; [|done].
    intros [= <- <-]. by apply strip_prefix_Some in Hr.
  - destruct (strip_prefix sep (String c s)) as [r|] eqn:Hr.
    { intros [= <- <-]. by apply strip_prefix_Some in Hr. }
    destruct (split_once sep s) as [[a' b']|] eqn:Hs; [|done]. simpl.
    intros [= <- <-]. simpl. f_equal. by apply IH.
Qed.

Lemma split_once_cons sep c s :
  split_once sep (String c s) =
  match strip_prefix sep (String c s) with
  | Some rest => Some ("", rest)
  | None => prod_map (String c) id <$> split_once sep s
  end.
Proof. done. Qed.

(** The first separator of [a::b] is the one after [a], when [a] has none and does not
    end in a colon. *)
Lemma split_once_tool a b :
  has_separator (a +:+ ":") = false → split_once "::" (a +:+ "::" +:+ b) = Some (a, b).
Proof.
  unfold has_separator. induction a as [|c a IH]; [done|]. cbn [String.append] in IH |- *.
  intros Hs. bool_inv. rewrite split_once_cons in Hs |- *.
  destruct (strip_prefix "::" (String c (a +:+ ":"))) eqn:Hr; [by destruct Hs|].
  match goal with |- context [strip_prefix ?s ?t] =>
    assert (strip_prefix s t = None) as -> end.
  { destruct (strip_prefix "::" _) as [r|] eqn:Hr' in |- *; [|done].
    apply strip_prefix_Some in Hr'. injection Hr' as -> Hr'.
    destruct a as [|d a]; [done|]. simpl in Hr'. by injection Hr' as -> _. }
  rewrite IH; [done|]. apply bool_decide_eq_false. intros [[x y] Hxy]. apply Hs.
  rewrite Hxy. by eexists.
Qed.

Lemma no_separator a : has_separator (a +:+ ":") = false → split_once "::" a = None.
Proof.
  unfold has_separator. induction a as [|c a IH]; [done|]. cbn [String.append]. intros Hs.
  bool_inv. rewrite split_once_cons in Hs |- *.
  destruct (strip_prefix "::" (String c (a +:+ ":"))) eqn:Hr; [by destruct Hs|].
  destruct (strip_prefix "::" (String c a)) as [r|] eqn:Hr'.
  { apply strip_prefix_Some in Hr'. injection Hr' as -> ->. by simpl in Hr. }
  rewrite IH; [done|]. apply bool_decide_eq_false. intros [[x y] Hxy]. apply Hs.
  rewrite Hxy. by eexists.
Qed.

(** A tool name that leaves the separator unambiguous. *)
Definition clean_tool (a : AgentAction) : bool := negb (has_separator (tool a +:+ ":")).

Lemma action_id_split a :
  clean_tool a = true →
  ∃ body, action_id a = "ToolCall::" +:+ body ∧
    split_once "::" body = match operation a with Some op => Some (tool a, op) | None => None end
    ∧ (operation a = None → body = tool a).
Proof.
  unfold clean_tool, action_id. intros Hc. bool_inv.
  destruct (operation a) as [op|]; eexists; (split; [done|]).
  - split; [by apply split_once_tool|done].
  - split; [by apply no_separator|done].
Qed.

(** The Cedar action id identifies the tool and the operation, as long as tool
    names have no ["::"] in them and no colon at the end. *)
Theorem action_id_inj a b :
  clean_tool a = true → clean_tool b = true → action_id a = action_id b → a = b.
Proof.
  intros (x & Ha & Hsa & Hna)%action_id_split (y & Hb & Hsb & Hnb)%action_id_split.
  rewrite Ha, Hb. intros ->%string_app_inv_l.
  destruct a as [ta [oa|]], b as [tb [ob|]]; simpl in *; try congruence.
  rewrite <-Hna, <-Hnb; done.
Qed.

(** The witness of [action_id_inj]. *)
Example action_id_inj_witness : tool_op "s3" "PutObject" = mkAgentAction "s3" (Some "PutObject").
Proof. by apply action_id_inj. Defined.

(** Without that condition two different actions share an id. *)
Example action_id_collision :
  action_id (action_tool "s3::PutObject") = action_id (tool_op "s3" "PutObject").
Proof. done. Qed.

(** ** The context as policies see it *)

Lemma assoc_extend_lookup {A} (m src : list (string * A)) k :
  NoDup (keys src) →
  assoc k (assoc_extend m src) = match assoc k src with Some v => Some v | None => assoc k m end.
Proof.
  unfold assoc_extend. revert m. induction src as [|[j v] src IH]; intros m Hnd; [done|].
  simpl in Hnd. apply NoDup_cons in Hnd as [Hj Hnd]. simpl. rewrite IH by done.
  case_bool_decide; subst.
  - rewrite (proj2 (assoc_None j src)) by done. apply assoc_insert_eq.
  - by rewrite assoc_insert_ne.
Qed.

(** What a policy finds in the context: under ["session"] the session metadata when
    there is any, and otherwise under every name the tool argument of that name.  So a
    tool argument called ["session"] takes the place of absent session metadata. *)
Theorem context_lookup c m k :
  args c = VObject m → NoDup (keys m) → NoDup (keys (session c)) →
  assoc k (to_json_object c) =
    if bool_decide (k = "session" ∧ session c ≠ []) then Some (VObject (assoc_extend [] (session c)))
    else assoc k m.
Proof.
  intros Hargs Hm Hs. unfold to_json_object. rewrite Hargs.
  assert (Hflat : assoc k (assoc_extend [] m) = assoc k m).
  { rewrite assoc_extend_lookup by done. by destruct (assoc k m). }
  destruct (session c) as [|kv s] eqn:Hsess.
  { rewrite bool_decide_eq_false_2; [done|]. by intros []. }
  case_bool_decide as Hk.
  - destruct Hk as [-> _]. apply assoc_insert_eq.
  - rewrite assoc_insert_ne; [done|]. intros <-. by destruct Hk.
Qed.

(** The witness of [context_lookup]: a tool argument posing as session metadata. *)
Example context_lookup_witness :
  let forged := VObject [("mfa", VBool true)] in
  assoc "session" (to_json_object (with_arg context_new "session" forged)) = Some forged.
Proof.
  intros forged.
  rewrite (context_lookup (with_arg context_new "session" forged) [("session", forged)] "session").
  - done.
  - done.
  - apply NoDup_singleton.
  - constructor.
Defined.
