(* ===== verification/DecisionRecord.v ===== *)
(** * Decisions and their audit records

    [Decision] and [Effect] of [authorize/engine.rs], and [DecisionRecord] of
    [decision/record.rs]: the record that [from_decision] extracts from the request's
    JSON, and the JSON it is written as. *)

From S2P Require Import Prelude Json CoreError Crypto Trace Request.

Inductive Effect : Type := Allow | Deny.
#[export] Instance Effect_eq_dec : EqDecision Effect.
Proof. solve_decision. Defined.

(** [Display]; also [format!("{:?}", effect).to_lowercase()]. *)
Definition effect_display (e : Effect) : string :=
  match e with Allow => "allow" | Deny => "deny" end.

Record Decision : Type := mkDecision {
  effect : Effect;
  policies : list string;
  reasons : list string;
  d_request : Value;
  d_trace : option Value;
  from_cache : bool;
}.

Record AuthenticatedActor : Type := mkActor {
  subject_type : string;
  actor_subject_id : string;
  actor_tenant_id : option string;
  credential_id : string;
  can_act_as : bool;
}.

(** The timestamp is its RFC 3339 text, as [chrono] serialises it. *)
Record DecisionRecord : Type := mkDecisionRecord {
  r_id : string;
  r_timestamp : string;
  r_effect : string;
  r_policies : list string;
  r_request_id : option string;
  r_principal : string;
  r_action : string;
  r_resource : string;
  r_reasons : list string;
  r_session_id : option string;
  r_agent_chain : option (list string);
  r_trace_id : option TraceId;
  r_span_id : option SpanId;
  r_tenant_id : option string;
  r_subject_id : option string;
  r_actor : option AuthenticatedActor;
}.

(** [serde_json::from_value::<AuthenticatedActor>(v).ok()]: the derived reader. *)
Class ActorCodec := { actor_from_value : Value → option AuthenticatedActor }.

Section record.
Context `{JsonText, Hex, ActorCodec}.

Definition get_str (v : Value) (k : string) : option string := get v k ≫= as_str.

Definition record_principal (req : Value) : string :=
  match get req "principal" ≫= λ p, get_str p "uid" with
  | Some s => s
  | None => default "" (json_to_vec <$> get req "principal")
  end.

Definition record_action (req : Value) : string :=
  match get req "action" with
  | None => ""
  | Some a =>
      match get_str a "tool" with
      | Some tool =>
          match get_str a "operation" with
          | Some op => tool +:+ "::" +:+ op
          | None => tool
          end
      | None => json_to_vec a
      end
  end.

(** [id] is a fresh UUID v7 and [now] the time, both read here. *)
Definition from_decision (d : Decision) (session_id : option string)
    (agent_chain : option (list string)) (id now : string) : DecisionRecord :=
  let req := d_request d in
  {| r_id := id;
     r_timestamp := now;
     r_effect := effect_display (effect d);
     r_policies := policies d;
     r_request_id := get_str req "request_id";
     r_principal := record_principal req;
     r_action := record_action req;
     r_resource := default "" (get req "resource" ≫= λ r, get_str r "uid");
     r_reasons := reasons d;
     r_session_id := session_id;
     r_agent_chain := agent_chain;
     r_trace_id := get req "trace" ≫= λ t, get_str t "trace_id" ≫= λ s, to_ok (trace_id_from_str s);
     r_span_id := get req "trace" ≫= λ t, get_str t "span_id" ≫= λ s, to_ok (span_id_from_str s);
     r_tenant_id := get_str req "tenant_id";
     r_subject_id := get_str req "subject_id";
     r_actor := get req "authenticated_actor" ≫= actor_from_value |}.

(** ** [serde_json::to_value] *)

Definition strings (l : list string) : Value := VArray (VString <$> l).

(** An [Option] that is written as [null] when absent. *)
Definition or_null (v : option Value) : Value := default Null v.

Definition actor_to_value (a : AuthenticatedActor) : Value :=
  VObject ([("subject_type", VString (subject_type a));
            ("subject_id", VString (actor_subject_id a))]
           ++ opt_member "tenant_id" (VString <$> actor_tenant_id a)
           ++ [("credential_id", VString (credential_id a));
               ("can_act_as", VBool (can_act_as a))]).

Definition record_members (r : DecisionRecord) : list (string * Value) :=
  [("id", VString (r_id r)); ("timestamp", VString (r_timestamp r));
   ("effect", VString (r_effect r)); ("policies", strings (r_policies r));
   ("request_id", or_null (VString <$> r_request_id r));
   ("principal", VString (r_principal r)); ("action", VString (r_action r));
   ("resource", VString (r_resource r)); ("reasons", strings (r_reasons r));
   ("session_id", or_null (VString <$> r_session_id r));
   ("agent_chain", or_null (strings <$> r_agent_chain r))]
  ++ opt_member "trace_id" ((VString ∘ as_hex) <$> r_trace_id r)
  ++ opt_member "span_id" ((VString ∘ as_hex) <$> r_span_id r)
  ++ opt_member "tenant_id" (VString <$> r_tenant_id r)
  ++ opt_member "subject_id" (VString <$> r_subject_id r)
  ++ opt_member "authenticated_actor" (actor_to_value <$> r_actor r).

Definition record_to_value (r : DecisionRecord) : Value := VObject (record_members r).

(** ** What a record says of a request *)

(** The action as the record names it: the Cedar action id without its prefix. *)
Definition short_action (a : AgentAction) : string :=
  match operation a with Some op => tool a +:+ "::" +:+ op | None => tool a end.

(** The record of a decision on a request names the request's principal, action,
    resource, request id and tenant, and the decision's effect, policies and reasons.
    But it never carries a trace: the request's trace context is serialised as one
    string, in which [from_decision] looks for the members of an object. *)
Theorem record_of_request d req session_id chain id now :
  d_request d = request_to_value req →
  let r := from_decision d session_id chain id now in
  r_principal r = principal_id (principal req) ∧
  action_id (action req) = "ToolCall::" +:+ r_action r ∧
  r_resource r = res_uid (resource req) ∧
  r_request_id r = request_id req ∧ r_tenant_id r = tenant_id req ∧
  r_effect r = effect_display (effect d) ∧ r_policies r = policies d ∧ r_reasons r = reasons d ∧
  r_session_id r = session_id ∧ r_agent_chain r = chain ∧
  r_trace_id r = None ∧ r_span_id r = None.
Proof.
  intros Hreq. cbn. rewrite Hreq.
  destruct req as [p [t op] rs c rid tr tid]. unfold record_principal, record_action, action_id.
  destruct p as [uid at'|uid [par|] at'], op, rid, tr, tid; done.
Qed.
End record.

Import Concrete.

(** Any reader of actors will do for the witnesses. *)
#[local] Instance no_actor : ActorCodec := {| actor_from_value _ := None |}.

(** The witness of [record_of_request]: a traced request leaves no trace id. *)
Example record_of_request_witness :
  let req := with_trace (request_new (user "alice") (tool_op "s3" "Put") (resource_new "Bucket" "b")
               context_new "req-1") (trace_new (pad 16 "t") (pad 8 "s")) in
  let d := mkDecision Allow ["p0"] [] (request_to_value req) None false in
  let r := from_decision d None None "id" "now" in
  r_action r = "s3::Put" ∧ is_Some (trace req) ∧ r_trace_id r = None.
Proof.
  intros req d r. pose proof (record_of_request d req None None "id" "now" eq_refl) as Hr.
  split; [done|]. split; [by eexists|]. apply Hr.
Defined.
