(* ===== verification/HashChain.v ===== *)
(** * The HMAC hash chain ([agentguard-core/src/decision/chain.rs])

    [HashChain]: the root key, the current head and the chain id.  Each record's hash
    is the HMAC of the previous hash and the record's canonical bytes.  The mutexes
    serialise the operations, so each is a function on the state. *)

From S2P Require Import Prelude Json CoreError Crypto.

Definition HASH_LEN : nat := 32.
Definition zero_hash : bytes := string_of_bytes (replicate HASH_LEN 0%nat).

(** A [Uuid] by its bytes. *)
Definition ChainId : Type := bytes.

Record HashChain : Type := mkHashChain {
  root : bytes;
  head : bytes;
  chain_id : option ChainId;
}.

Inductive ChainLoadError : Type :=
| LoadIo (e : string)
| Corrupt (reason : string).

Definition load_error_display (e : ChainLoadError) : string :=
  match e with
  | LoadIo e => "read audit log: " +:+ e
  | Corrupt r => "audit log tail corrupt: " +:+ r
  end.

Definition chain_new (root_key : bytes) : HashChain := mkHashChain root_key zero_hash None.
Definition chain_resume (root_key head : bytes) (id : ChainId) : HashChain :=
  mkHashChain root_key head (Some id).

(** [HashChain::id]; [fresh] is the uuid that would be drawn. *)
Definition get_id (c : HashChain) (fresh : ChainId) : ChainId * HashChain :=
  match chain_id c with
  | Some id => (id, c)
  | None => (fresh, mkHashChain (root c) (head c) (Some fresh))
  end.

Definition adopt_id (c : HashChain) (id : ChainId) : HashChain :=
  match chain_id c with
  | Some _ => c
  | None => mkHashChain (root c) (head c) (Some id)
  end.

Definition set_head (c : HashChain) (h : bytes) : HashChain :=
  mkHashChain (root c) h (chain_id c).

(** ** Reading the tail of a log *)

(** [read_until(b'\n')] until the end: the lines with their line feed. *)
Fixpoint read_lines (s : bytes) : list bytes :=
  match s with
  | EmptyString => []
  | String b s =>
      if bool_decide (b = newline) then String b EmptyString :: read_lines s
      else match read_lines s with
           | [] => [String b EmptyString]
           | l :: ls => String b l :: ls
           end
  end.

Definition has_content (line : bytes) : bool :=
  existsb (λ b, negb (is_ascii_whitespace b)) (String.list_ascii_of_string line).

Definition last_nonblank (content : bytes) : bytes :=
  foldl (λ acc line, if has_content line then line else acc) EmptyString (read_lines content).

Section chain.
Context `{JsonText, Hex, Hmac, UuidText}.

(** What opening and reading a file gives: an error, nothing there, or its bytes.  An error
    comes with the chain it leaves: the head is set before the chain id is read. *)
Definition load_head_from_file (c : HashChain) (file : result string (option bytes)) :
    result (ChainLoadError * HashChain) HashChain :=
  match file with
  | Err e => Err (LoadIo e, c)
  | Ok None => Ok c
  | Ok (Some content) =>
      let line := last_nonblank content in
      if bool_decide (line = EmptyString) then Ok c
      else
        v ← map_err (λ e, (Corrupt ("last line not valid JSON: " +:+ e), c)) (json_from_slice line);
        hash_str ← ok_or (get v "record_hash" ≫= as_str) (Corrupt "missing record_hash", c);
        b ← map_err (λ e, (Corrupt ("record_hash not valid hex: " +:+ e), c)) (hex_decode hash_str);
        _ ← bail_if (negb (len b =? Z.of_nat HASH_LEN))
              (Corrupt ("record_hash wrong length: " +:+ pretty (len b) +:+ " != 32"), c);
        let c := set_head c b in
        match get v "chain_id" ≫= as_str with
        | None => Ok c
        | Some id_str =>
            id ← map_err (λ e, (Corrupt ("chain_id not a UUID: " +:+ e), c)) (uuid_parse id_str);
            Ok (mkHashChain (root c) (head c) (Some id))
        end
  end.

(** ** Appending *)

Definition compute (root prev canonical : bytes) : bytes := hmac_sha256 root (prev +:+ canonical).

Definition append (c : HashChain) (canonical : bytes) : (bytes * bytes) * HashChain :=
  let prev := head c in
  let new_hash := compute (root c) prev canonical in
  ((prev, new_hash), set_head c new_hash).

(** [persist] runs in the critical section and acts on the outside world [W]. *)
Definition try_append_with_io {W E T} (c : HashChain) (canonical : bytes)
    (persist : bytes → bytes → W → result E T * W) (w : W) : result E T * (HashChain * W) :=
  let prev := head c in
  let new_hash := compute (root c) prev canonical in
  let '(r, w) := persist prev new_hash w in
  (r, (if is_ok r then set_head c new_hash else c, w)).

(** ** Verifying *)

Definition chain_verify (c : HashChain) (canonical claimed_prev claimed_hash : bytes) :
    cresult unit :=
  let expected := compute (root c) claimed_prev canonical in
  bail_if (bool_decide (expected ≠ claimed_hash))
    (Other ("hash mismatch: expected " +:+ hex_encode expected +:+ ", got "
            +:+ hex_encode claimed_hash)).

(** [(canonical, prev_hash, hash)] *)
Abbreviation link := (bytes * bytes * bytes)%type.

Fixpoint verify_links (c : HashChain) (i : Z) (expected_prev : bytes) (records : list link) :
    cresult bytes :=
  match records with
  | [] => Ok expected_prev
  | (canonical, prev, hash) :: records =>
      _ ← bail_if (bool_decide (prev ≠ expected_prev))
            (Other ("record " +:+ pretty i +:+ ": prev_hash mismatch: expected "
                    +:+ hex_encode expected_prev +:+ ", got " +:+ hex_encode prev));
      _ ← map_err (λ e, Other ("record " +:+ pretty i +:+ ": " +:+ error_display e))
            (chain_verify c canonical prev hash);
      verify_links c (i + 1) hash records
  end.

Definition verify_chain (c : HashChain) (records : list link) : cresult unit :=
  last ← verify_links c 0 zero_hash records;
  bail_if (bool_decide (head c ≠ last))
    (Other ("chain head mismatch: expected " +:+ hex_encode last +:+ ", got "
            +:+ hex_encode (head c))).

(** ** What verification accepts *)

(** The links that appending [cs] one after the other would produce, and the head. *)
Fixpoint links_from (root prev : bytes) (cs : list bytes) : list link :=
  match cs with
  | [] => []
  | c :: cs => (c, prev, compute root prev c) :: links_from root (compute root prev c) cs
  end.

Definition head_from (root prev : bytes) (cs : list bytes) : bytes := foldl (compute root) prev cs.

Definition canonical_of (l : link) : bytes := l.1.1.

Lemma verify_links_spec c i prev records h :
  verify_links c i prev records = Ok h ↔
  records = links_from (root c) prev (canonical_of <$> records) ∧
  h = head_from (root c) prev (canonical_of <$> records).
Proof.
  revert i prev. induction records as [|[[canonical p] hash] records IH]; intros i prev; simpl.
  { naive_solver. }
  unfold chain_verify. split.
  - intros Hv. res_inv. bool_inv. subst. apply IH in Hv as [Hr Hh].
    unfold canonical_of at 1. simpl. split; [|done]. f_equal. exact Hr.
  - intros [[= -> -> Hr] Hh]. rewrite !bool_decide_eq_false_2 by tauto. simpl.
    apply IH. split; [|exact Hh]. rewrite <-Hr at 1. done.
Qed.

(** Verification accepts exactly the links that appending the same canonical
    records to an empty chain produces, with the head that this leaves. *)
Theorem verify_chain_iff c records :
  verify_chain c records = Ok tt ↔
  records = links_from (root c) zero_hash (canonical_of <$> records) ∧
  head c = head_from (root c) zero_hash (canonical_of <$> records).
Proof.
  unfold verify_chain. rewrite bind_Ok. setoid_rewrite verify_links_spec.
  setoid_rewrite bail_if_Ok. setoid_rewrite bool_decide_eq_false. split.
  - intros (h & [Hr ->] & Hh). split; [done|by apply dec_stable].
  - intros [Hr Hh]. eexists. split; [done|tauto].
Qed.

(** Appending through the API produces those links. *)
Fixpoint append_all (c : HashChain) (cs : list bytes) : list link * HashChain :=
  match cs with
  | [] => ([], c)
  | r :: cs =>
      let '((prev, hash), c) := append c r in
      let '(ls, c) := append_all c cs in ((r, prev, hash) :: ls, c)
  end.

Lemma append_all_links c cs :
  append_all c cs
  = (links_from (root c) (head c) cs, set_head c (head_from (root c) (head c) cs)).
Proof.
  revert c. induction cs as [|r cs IH]; intros c; simpl; [by destruct c|]. by rewrite IH.
Qed.

(** ** Tamper evidence *)

(** The messages that a chain over [cs] authenticates. *)
Fixpoint messages (root prev : bytes) (cs : list bytes) : list bytes :=
  match cs with
  | [] => []
  | c :: cs => (prev +:+ c) :: messages root (compute root prev c) cs
  end.

(** A break of the MAC exhibited by two sets of messages: a collision between them, or
    a message whose MAC is the all-zero genesis value. *)
Definition mac_break (root : bytes) (ms ms' : list bytes) : Prop :=
  (∃ m m', m ∈ ms ∧ m' ∈ ms' ∧ m ≠ m' ∧ hmac_sha256 root m = hmac_sha256 root m')
  ∨ ∃ m, m ∈ ms ++ ms' ∧ hmac_sha256 root m = zero_hash.

Context `{!HmacLaws}.

Lemma messages_snoc r prev cs c :
  messages r prev (cs ++ [c]) = messages r prev cs ++ [head_from r prev cs +:+ c].
Proof.
  revert prev. induction cs as [|d cs IH]; intros prev; simpl; [done|]. by rewrite IH.
Qed.

Lemma head_from_snoc r prev cs c :
  head_from r prev (cs ++ [c]) = compute r (head_from r prev cs) c.
Proof. unfold head_from. by rewrite foldl_app. Qed.

Lemma head_from_length r cs : String.length (head_from r zero_hash cs) = 32%nat.
Proof.
  destruct cs as [|c cs _] using rev_ind; [done|]. rewrite head_from_snoc. apply hmac_length.
Qed.

Lemma mac_break_mono r ms ms' ns ns' :
  mac_break r ms ms' → ms ⊆ ns → ms' ⊆ ns' → mac_break r ns ns'.
Proof.
  intros [(m & m' & Hm & Hm' & Hb) | (m & Hm & Hb)] H1' H2'.
  - left. exists m, m'. set_solver.
  - right. exists m. set_solver.
Qed.

Lemma heads_equal_records r cs cs' :
  head_from r zero_hash cs = head_from r zero_hash cs' →
  cs = cs' ∨ mac_break r (messages r zero_hash cs) (messages r zero_hash cs').
Proof.
  revert cs'. induction cs as [|c cs IH] using rev_ind; intros cs' Hh;
    destruct cs' as [|c' cs' _] using rev_ind; [by left| | |].
  - right. right. rewrite head_from_snoc in Hh. rewrite messages_snoc.
    exists (head_from r zero_hash cs' +:+ c'). split; [set_solver|done].
  - right. right. rewrite head_from_snoc in Hh. rewrite messages_snoc.
    exists (head_from r zero_hash cs +:+ c). split; [set_solver|done].
  - rewrite !head_from_snoc in Hh. rewrite !messages_snoc.
    destruct (decide (head_from r zero_hash cs +:+ c = head_from r zero_hash cs' +:+ c'))
      as [Heq|Hne].
    + apply string_app_inj_1 in Heq as [Heq ->]; [|by rewrite !head_from_length].
      destruct (IH cs' Heq) as [->|Hb]; [by left|]. right.
      eapply mac_break_mono; [exact Hb|set_solver..].
    + right. left. eexists _, _. split_and!; [| |exact Hne|exact Hh]; set_solver.
Qed.

(** C28: the head commits to the whole log.  If two logs verify under the same key with
    the same head, then they hold the same records in the same order, or the two logs
    themselves exhibit a break of the MAC. *)
Theorem head_commits_to_log c records records' :
  verify_chain c records = Ok tt → verify_chain c records' = Ok tt →
  records = records' ∨
  mac_break (root c) (messages (root c) zero_hash (canonical_of <$> records))
    (messages (root c) zero_hash (canonical_of <$> records')).
Proof.
  unfold verify_chain. intros Hv Hv'. res_inv. bool_inv.
  repeat match goal with H' : verify_links _ _ _ _ = Ok _ |- _ =>
    apply verify_links_spec in H' as [? ?] end.
  destruct (heads_equal_records (root c) (canonical_of <$> records) (canonical_of <$> records'))
    as [Heq|Hb]; [congruence| |by right].
  left. etransitivity; [eassumption|]. rewrite Heq. by symmetry.
Qed.

(** Persistence is all or nothing for the head: when [persist] fails the chain is
    unchanged; when it succeeds the chain is as after [append]. *)
Lemma try_append_atomic {W E T} c canonical
    (persist : bytes → bytes → W → result E T * W) w :
  let '(r, (c', w')) := try_append_with_io c canonical persist w in
  let '((prev, new_hash), c1) := append c canonical in
  persist prev new_hash w = (r, w') ∧
  match r with Ok _ => c' = c1 | Err _ => c' = c end.
Proof.
  unfold try_append_with_io, append. destruct (persist _ _ w) as [[] w']; done.
Qed.
End chain.

Import Concrete.

(** The witness of [head_commits_to_log]: a log of two records against itself. *)
Example head_commits_to_log_witness :
  let '(ls, c) := append_all (chain_new "key") ["a"; "b"] in
  verify_chain c ls = Ok tt ∧
  (ls = ls ∨ mac_break (root c) (messages (root c) zero_hash (canonical_of <$> ls))
     (messages (root c) zero_hash (canonical_of <$> ls))).
Proof.
  destruct (append_all (chain_new "key") ["a"; "b"]) as [ls c] eqn:Hall.
  vm_compute in Hall. injection Hall as <- <-.
  split; [by vm_compute|]. apply head_commits_to_log; by vm_compute.
Defined.
