(* ===== verification/Canonical.v ===== *)
(** * Canonical JSON ([agentguard-core/src/decision/canonical.rs])

    The bytes that the hash chain authenticates: compact JSON with the members of
    every object sorted by key.  The text of strings and numbers is [serde_json]'s and
    comes as a class; the writer is a [Vec], so no write fails. *)

From S2P Require Import Prelude Json Crypto.

(** [serde_json::to_writer] of a string, [Number::to_string]. *)
Class JsonScalars := {
  json_string : string → bytes;
  number_to_string : Number → string;
}.

(** The range of each kind of number. *)
Definition wf_number (n : Number) : Prop :=
  match n with
  | PosInt u => in_u64 u
  | NegInt i => i64_min ≤ i < 0
  | Float bits => in_u64 bits
  end.

Fixpoint wf_numbers (v : Value) : Prop :=
  match v with
  | VNumber n => wf_number n
  | VArray l => (fix go l := match l with [] => True | x :: l => wf_numbers x ∧ go l end) l
  | VObject m =>
      (fix go m := match m with [] => True | (_, x) :: m => wf_numbers x ∧ go m end) m
  | _ => True
  end.

Definition quote : ascii := ascii_of_nat 34.
Definition number_char (c : ascii) : bool :=
  bool_decide (c ∈ String.list_ascii_of_string "0123456789+-.eE").

(** A JSON string starts with a quote and its end can be found from the text alone;
    numbers are written with the characters of JSON numbers, and different numbers
    differently. *)
Class JsonScalarLaws `{JsonScalars} : Prop := {
  json_string_quote s : ∃ t, json_string s = String quote t;
  json_string_prefix s s' r r' :
    json_string s +:+ r = json_string s' +:+ r' → s = s' ∧ r = r';
  number_chars n :
    number_to_string n ≠ "" ∧
    forallb number_char (String.list_ascii_of_string (number_to_string n)) = true;
  number_inj n m :
    wf_number n → wf_number m → number_to_string n = number_to_string m → n = m;
}.

(** ** The writer *)

Section writer.
Context `{JsonScalars}.

Fixpoint write_canonical_value (v : Value) : bytes :=
  match v with
  | Null => "null"
  | VBool b => if b then "true" else "false"
  | VNumber n => number_to_string n
  | VString s => json_string s
  | VArray arr => "[" +:+ join "," (write_canonical_value <$> arr) +:+ "]"
  | VObject obj =>
      let written := (λ kv, (kv.1, write_canonical_value kv.2)) <$> obj in
      let sorted := merge_sort str_le (keys obj) in
      "{" +:+ join "," ((λ k, json_string k +:+ ":" +:+ default "" (assoc k written)) <$> sorted)
      +:+ "}"
  end.

(** ** Sorting the members, and printing in the given order *)

Definition member_le (a b : string * Value) : Prop := str_le a.1 b.1.
#[export] Instance member_le_dec a b : Decision (member_le a b).
Proof. unfold member_le. apply _. Defined.

(** The same value with the members of every object in key order. *)
Fixpoint norm (v : Value) : Value :=
  match v with
  | VArray l => VArray (norm <$> l)
  | VObject m => VObject (merge_sort member_le ((λ kv, (kv.1, norm kv.2)) <$> m))
  | _ => v
  end.

Fixpoint print (v : Value) : bytes :=
  match v with
  | Null => "null"
  | VBool b => if b then "true" else "false"
  | VNumber n => number_to_string n
  | VString s => json_string s
  | VArray l => "[" +:+ join "," (print <$> l) +:+ "]"
  | VObject m => "{" +:+ join "," ((λ kv, json_string kv.1 +:+ ":" +:+ print kv.2) <$> m) +:+ "}"
  end.

End writer.

(** ** The writer prints the normal form *)

Section order.
Context `{JsonScalars}.

#[export] Instance member_le_total : Total member_le.
Proof. intros a b. apply (total str_le). Qed.
#[export] Instance member_le_trans : Transitive member_le.
Proof. intros a b c. apply (transitivity (R := str_le)). Qed.

Lemma sorted_keys (m : list (string * Value)) :
  keys (merge_sort member_le m) = merge_sort str_le (keys m).
Proof.
  apply (Sorted_unique str_le).
  - pose proof (Sorted_merge_sort member_le m) as Hs.
    induction Hs as [|x l _ IH Hx]; simpl; [constructor|].
    constructor; [done|]. destruct Hx; constructor. done.
  - apply (Sorted_merge_sort str_le).
  - unfold keys. rewrite merge_sort_Permutation. by rewrite merge_sort_Permutation.
Qed.

Lemma keys_norm (m : list (string * Value)) :
  keys ((λ kv, (kv.1, norm kv.2)) <$> m) = keys m.
Proof. unfold keys. rewrite <-list_fmap_compose. by apply list_fmap_ext. Qed.

Lemma assoc_fmap {A B} (f : A → B) k (m : list (string * A)) :
  assoc k ((λ kv, (kv.1, f kv.2)) <$> m) = f <$> assoc k m.
Proof. induction m as [|[k' a] m IH]; simpl; [done|]. by case_bool_decide. Qed.

Lemma write_canonical_print v :
  wf_value v → write_canonical_value v = print (norm v).
Proof.
  induction v as [|b|n|s|l IH|m IH] using Value_ind'; intros Hwf; try done.
  - apply wf_array in Hwf. simpl. do 3 f_equal. rewrite <-list_fmap_compose.
    apply list_fmap_ext. intros i x Hx. apply list_elem_of_lookup_2 in Hx.
    rewrite Forall_forall in IH, Hwf. by apply IH, Hwf.
  - pose proof Hwf as Hwf'. apply wf_object in Hwf' as [Hnd Hall]. simpl. do 3 f_equal.
    rewrite <-(keys_norm m), <-sorted_keys. unfold keys. rewrite <-list_fmap_compose.
    apply list_fmap_ext. intros i [k x] Hx. apply list_elem_of_lookup_2 in Hx. simpl.
    do 2 f_equal. rewrite merge_sort_Permutation in Hx.
    apply list_elem_of_fmap in Hx as ([k' y] & [= -> ->] & Hy). simpl.
    rewrite (assoc_fmap write_canonical_value), (elem_assoc k' y m) by done. simpl.
    rewrite Forall_forall in IH, Hall. apply (IH _ Hy), (Hall _ Hy).
Qed.
End order.

(** ** Equal normal forms *)

Lemma assoc_perm {A} k (l l' : list (string * A)) :
  NoDup (keys l) → l ≡ₚ l' → assoc k l = assoc k l'.
Proof.
  intros Hnd Hp. assert (Hnd' : NoDup (keys l')) by (unfold keys; by rewrite <-Hp).
  destruct (assoc k l) as [v|] eqn:Hk.
  - symmetry. apply elem_assoc; [done|]. rewrite <-Hp. by apply assoc_Some_elem.
  - symmetry. apply assoc_None. apply assoc_None in Hk. unfold keys. by rewrite <-Hp.
Qed.

Lemma perm_assoc {A} (l l' : list (string * A)) :
  NoDup (keys l) → NoDup (keys l') → (∀ k, assoc k l = assoc k l') → l ≡ₚ l'.
Proof.
  intros Hnd Hnd' Heq. apply NoDup_Permutation; [by eapply NoDup_fmap_1..|].
  intros [k v]. split; intros Hin; apply assoc_Some_elem.
  - rewrite <-Heq. by apply elem_assoc.
  - rewrite Heq. by apply elem_assoc.
Qed.

Lemma sort_members_perm (l l' : list (string * Value)) :
  NoDup (keys l) → l ≡ₚ l' → merge_sort member_le l = merge_sort member_le l'.
Proof.
  intros Hnd Hp. apply (Sorted_unique_strong member_le).
  - intros [k v] [k' v']. rewrite !merge_sort_Permutation, <-Hp. unfold member_le. simpl.
    intros Hv Hv' Hle Hle'. assert (k = k') as <- by by apply (anti_symm str_le).
    apply elem_assoc in Hv, Hv'; [|done..]. congruence.
  - apply (Sorted_merge_sort member_le).
  - apply (Sorted_merge_sort member_le).
  - by rewrite !merge_sort_Permutation.
Qed.

(** Objects have the same normal form when they have the same members up to normal form. *)
Lemma norm_object_iff m m' :
  NoDup (keys m) → NoDup (keys m') →
  norm (VObject m) = norm (VObject m') ↔ ∀ k, norm <$> assoc k m = norm <$> assoc k m'.
Proof.
  intros Hm Hm'. cbn [norm]. rewrite <-(keys_norm m) in Hm. rewrite <-(keys_norm m') in Hm'.
  split.
  - intros [= Heq] k. rewrite <-!(assoc_fmap norm). apply assoc_perm; [done|].
    rewrite <-(merge_sort_Permutation member_le), Heq. apply merge_sort_Permutation.
  - intros Heq. f_equal. apply sort_members_perm; [done|]. apply perm_assoc; [done..|].
    intros k. by rewrite !(assoc_fmap norm).
Qed.

Lemma norm_object_empty m : norm (VObject m) = norm (VObject []) → m = [].
Proof.
  cbn [norm]. intros [= Heq]. apply (f_equal length) in Heq.
  rewrite !merge_sort_Permutation in Heq. by destruct m.
Qed.

(** ** Printing is injective *)

(** What can follow a value inside a text. *)
Definition delimited (r : string) : Prop :=
  match r with
  | EmptyString => True
  | String c _ => c = ","%char ∨ c = "]"%char ∨ c = "}"%char
  end.

(** Two texts over an alphabet, each followed by something outside it. *)
Lemma span_prefix (P : ascii → bool) a b r r' :
  forallb P (String.list_ascii_of_string a) = true →
  forallb P (String.list_ascii_of_string b) = true →
  (∀ c t, r = String c t → P c = false) → (∀ c t, r' = String c t → P c = false) →
  a +:+ r = b +:+ r' → a = b ∧ r = r'.
Proof.
  intros Ha Hb Hr Hr'. revert b Hb. induction a as [|c a IH]; intros [|d b] Hb; simpl in *.
  - done.
  - intros ->. bool_inv. specialize (Hr d _ eq_refl). congruence.
  - intros <-. bool_inv. specialize (Hr' c _ eq_refl). congruence.
  - intros [= -> Heq]. bool_inv. destruct (IH ltac:(done) b) as [-> ->]; done.
Qed.

Section injective.
Context `{JsonScalarLaws}.

Definition prefix_free {A} (pr : A → string) (x : A) (ok : A → Prop) : Prop :=
  ∀ y r r', ok y → delimited r → delimited r' → pr x +:+ r = pr y +:+ r' → x = y ∧ r = r'.

(** No text of an item starts with a closing bracket. *)
Definition opens {A} (pr : A → string) : Prop :=
  ∀ x r c t, pr x +:+ r = String c t → c ≠ "]"%char ∧ c ≠ "}"%char.

Lemma join_cons sep p ps :
  ps ≠ [] → join sep (p :: ps) = p +:+ sep +:+ join sep ps.
Proof. by destruct ps. Qed.

Lemma join_prefix {A} (pr : A → string) ok close l m r r' :
  close = "]"%char ∨ close = "}"%char → opens pr →
  Forall (λ x, prefix_free pr x ok) l → Forall ok m →
  join "," (pr <$> l) +:+ String close r = join "," (pr <$> m) +:+ String close r' →
  l = m ∧ r = r'.
Proof.
  intros Hc Ho Hl. assert (Hd : ∀ t, delimited (String close t)) by (intros; simpl; tauto).
  revert m. induction Hl as [|x l Hx Hl IH]; intros m Hm Heq.
  - destruct Hm as [|y m Hy Hm]; [by injection Heq|].
    assert (∃ t, join "," (pr <$> y :: m) +:+ String close r' = pr y +:+ t) as [t Ht].
    { destruct m; simpl; [eauto|]. rewrite <-!string_app_assoc. eauto. }
    rewrite Ht in Heq. symmetry in Heq. apply Ho in Heq. naive_solver.
  - destruct Hm as [|y m Hy Hm].
    { assert (∃ t, join "," (pr <$> x :: l) +:+ String close r = pr x +:+ t) as [t Ht].
      { destruct l; simpl; [eauto|]. rewrite <-!string_app_assoc. eauto. }
      rewrite Ht in Heq. apply Ho in Heq. naive_solver. }
    destruct l as [|x' l], m as [|y' m].
    + apply Hx in Heq as [-> [= ->]]; auto.
    + rewrite !fmap_cons, (join_cons _ (pr y)), <-!string_app_assoc in Heq by done.
      apply Hx in Heq as [_ Heq]; simpl; auto. simpl in Heq. naive_solver.
    + rewrite !fmap_cons, (join_cons _ (pr x)), <-!string_app_assoc in Heq by done.
      apply Hx in Heq as [_ Heq]; simpl; auto. simpl in Heq. naive_solver.
    + rewrite !fmap_cons, (join_cons _ (pr x)), (join_cons _ (pr y)), <-!string_app_assoc in Heq by done.
      apply Hx in Heq as [-> Heq]; simpl; auto. simpl in Heq. injection Heq as Heq.
      destruct (IH (y' :: m) Hm Heq) as [-> ->]. done.
Qed.

(** The first character of a text tells the kind of the value. *)
Definition first_of (v : Value) (c : ascii) : Prop :=
  match v with
  | Null => c = "n"%char
  | VBool b => c = if b then "t"%char else "f"%char
  | VNumber _ => number_char c = true
  | VString _ => c = quote
  | VArray _ => c = "["%char
  | VObject _ => c = "{"%char
  end.

Lemma print_first v r c t : print v +:+ r = String c t → first_of v c.
Proof.
  destruct v as [|[]|n|s|l|m]; simpl; try (intros [= <- _]; done).
  - destruct (number_chars n) as [Hne Hall]. destruct (number_to_string n); [done|].
    simpl in *. bool_inv. intros [= <- _]. done.
  - destruct (json_string_quote s) as [u ->]. by intros [= <- _].
Qed.

Lemma wf_numbers_array l : wf_numbers (VArray l) ↔ Forall wf_numbers l.
Proof. simpl. induction l; [by rewrite Forall_nil|]. rewrite Forall_cons. tauto. Qed.
Lemma wf_numbers_object m : wf_numbers (VObject m) ↔ Forall (λ kv, wf_numbers kv.2) m.
Proof. simpl. induction m as [|[] ? IH]; [by rewrite Forall_nil|]. by rewrite Forall_cons, <-IH. Qed.

Definition kind (v : Value) : nat :=
  match v with
  | Null => 0 | VBool true => 1 | VBool false => 2 | VNumber _ => 3 | VString _ => 4
  | VArray _ => 5 | VObject _ => 6
  end.

Lemma print_kind v w r r' : print v +:+ r = print w +:+ r' → kind v = kind w.
Proof.
  intros Heq. destruct (print v +:+ r) as [|c t] eqn:Hv.
  { destruct v as [|[]|n|s|l|m]; simpl in Hv; try done.
    - destruct (number_chars n) as [Hne _]. by destruct (number_to_string n).
    - by destruct (json_string_quote s) as [u Hu]; rewrite Hu in Hv. }
  apply print_first in Hv. symmetry in Heq. apply print_first in Heq.
  destruct v as [|[]|?|?|?|?], w as [|[]|?|?|?|?]; simpl in *; subst; try done.
Qed.

Lemma number_delimited r c t : delimited r → r = String c t → number_char c = false.
Proof. intros Hd ->. simpl in Hd. by destruct Hd as [->|[->| ->]]. Qed.

Definition print_member (kv : string * Value) : bytes := json_string kv.1 +:+ ":" +:+ print kv.2.

Lemma print_opens : opens print.
Proof.
  intros v r c t Heq%print_first.
  destruct v as [|[]|?|?|?|?]; simpl in Heq; subst; try done.
  by split; intros ->.
Qed.

Lemma member_opens : opens print_member.
Proof.
  intros [k v] r c t. unfold print_member. simpl.
  destruct (json_string_quote k) as [u ->]. by intros [= <- _].
Qed.

Lemma print_prefix v : wf_numbers v → prefix_free print v wf_numbers.
Proof.
  induction v as [|b|n|s|l IH|m IH] using Value_ind'; intros Hv w r r' Hw Hr Hr' Heq;
    pose proof (print_kind _ _ _ _ Heq) as Hk;
    destruct w as [|b'|n'|s'|l'|m']; try (destruct b; done); try (destruct b'; done); try done.
  - by injection Heq.
  - by destruct b, b'; try done; injection Heq.
  - apply (span_prefix number_char) in Heq as [Heq ->]; try apply number_chars.
    + apply number_inj in Heq as ->; done.
    + intros c t. by apply number_delimited.
    + intros c t. by apply number_delimited.
  - apply json_string_prefix in Heq as [-> ->]. done.
  - simpl in Heq. rewrite <-!string_app_assoc in Heq. injection Heq as Heq.
    apply wf_numbers_array in Hv, Hw.
    apply (join_prefix print wf_numbers) in Heq as [-> ->]; auto using print_opens.
    rewrite Forall_forall in *. auto.
  - simpl in Heq. rewrite <-!string_app_assoc in Heq. injection Heq as Heq.
    apply wf_numbers_object in Hv, Hw.
    apply (join_prefix print_member (λ kv, wf_numbers kv.2)) in Heq as [-> ->];
      auto using member_opens.
    rewrite Forall_forall in *. intros [k x] Hx [k' y] t t' Hy Ht Ht' Heq'.
    unfold print_member in Heq'. simpl in Heq'. rewrite <-!string_app_assoc in Heq'.
    apply json_string_prefix in Heq' as [-> Heq']. injection Heq' as Heq'.
    destruct (IH _ Hx (Hv _ Hx) y t t' Hy Ht Ht' Heq') as [Hxy ->]. simpl in Hxy. by subst.
Qed.

Lemma wf_numbers_norm v : wf_numbers v → wf_numbers (norm v).
Proof.
  induction v as [|b|n|s|l IH|m IH] using Value_ind'; try done; intros Hv; cbn [norm].
  - apply wf_numbers_array in Hv. apply wf_numbers_array. apply Forall_fmap.
    rewrite Forall_forall in *. intros x Hx. by apply IH, Hv.
  - apply wf_numbers_object in Hv. apply wf_numbers_object.
    rewrite merge_sort_Permutation. apply Forall_fmap.
    rewrite Forall_forall in *. intros x Hx. by apply (IH x Hx), Hv.
Qed.

Lemma canonical_norm v w :
  wf_value v → wf_value w → wf_numbers v → wf_numbers w →
  write_canonical_value v = write_canonical_value w ↔ norm v = norm w.
Proof.
  intros Hv Hw Hnv Hnw. rewrite !write_canonical_print by done. split; [|by intros ->].
  intros Heq. apply (print_prefix (norm v) (wf_numbers_norm _ Hnv) (norm w) "" "");
    [by apply wf_numbers_norm|done|done|]. by rewrite !string_app_nil_r.
Qed.

(** C33: the canonical bytes determine a value up to the order of the members of its
    objects, and that order does not affect them: two values have the same canonical
    bytes exactly when they are the same after sorting members by key. *)
Theorem canonical_iff_norm v w :
  wf_value v → wf_value w → wf_numbers v → wf_numbers w →
  write_canonical_value v = write_canonical_value w ↔ norm v = norm w.
Proof. apply canonical_norm. Qed.
End injective.

Module Concrete.
Import Crypto.Concrete.

(** A sign that tells the kind of number, and binary digits. *)
Definition ztext (z : Z) : string :=
  match z with
  | Z0 => "0"
  | Zpos p => String "+" (pos_text p)
  | Zneg p => String "-" (pos_text p)
  end.

Lemma pos_text_inj p q : pos_text p = pos_text q → p = q.
Proof.
  intros Hpq. pose proof (text_pos_text p "") as Hp. rewrite Hpq, text_pos_text in Hp. by injection Hp.
Qed.

Lemma ztext_inj a b : ztext a = ztext b → a = b.
Proof. destruct a, b; simpl; try done; by intros [= ->%pos_text_inj]. Qed.

Lemma ztext_chars z : forallb number_char (String.list_ascii_of_string (ztext z)) = true.
Proof. destruct z as [|p|p]; [done|..]; simpl; by induction p. Qed.

#[export] Instance scalars : JsonScalars := {|
  json_string s := String quote (hexenc s +:+ String quote "");
  number_to_string n :=
    match n with
    | PosInt z => String "+" (ztext z)
    | NegInt z => String "-" (ztext z)
    | Float z => String "." (ztext z)
    end |}.

Lemma hexenc_no_quote s :
  forallb (λ c, negb (bool_decide (c = quote))) (String.list_ascii_of_string (hexenc s)) = true.
Proof.
  pose proof (hexenc_chars s) as Hc. rewrite forallb_forall in *. intros c Hin.
  specialize (Hc c Hin). apply negb_true_iff, bool_decide_eq_false. by intros ->.
Qed.

#[export] Instance scalar_laws : JsonScalarLaws.
Proof.
  split.
  - eauto.
  - intros s s' r r' [= Heq]. rewrite <-!string_app_assoc in Heq.
    apply (span_prefix (λ c, negb (bool_decide (c = quote)))) in Heq as [Heq Hr];
      [|apply hexenc_no_quote|apply hexenc_no_quote|by intros c t [= <- _]..].
    injection Hr as ->. split; [|done].
    pose proof (hexdec_enc s) as Hs. rewrite Heq, hexdec_enc in Hs. by injection Hs.
  - intros [z|z|z]; (split; [done|]); exact (ztext_chars z).
  - intros [a|a|a] [b|b|b] _ _; simpl; try done; by intros [= ->%ztext_inj].
Qed.
End Concrete.

Import Concrete.

(** The witness of [canonical_iff_norm]: two orders of the same members. *)
Example canonical_iff_norm_witness :
  let v := VObject [("b", VNumber (PosInt 1)); ("a", VArray [Null; VBool true])] in
  let w := VObject [("a", VArray [Null; VBool true]); ("b", VNumber (PosInt 1))] in
  write_canonical_value v = write_canonical_value w.
Proof.
  intros v w. apply canonical_iff_norm; [by apply wf_valueb_spec..| | |reflexivity].
  all: simpl; unfold in_u64, u64_max; lia.
Defined.
