(* ===== verification/AuditFs.v ===== *)
(** * The directory of an audit log

    The file-system calls that [agentguard-core/src/decision/log.rs] makes, on one
    directory: files by name, and a schedule of faults.  Every call consumes one entry
    of the schedule; a fault makes it fail, and a failing write may have written any
    prefix of its bytes.  Theorems quantify over the schedule, so they cover every
    combination of failures. *)

From S2P Require Import Prelude Crypto.

(** A regular file with its content, or a symlink, FIFO, directory, device. *)
Inductive entry : Type := Regular (content : bytes) | Special.

Record world : Type := mkWorld {
  files : gmap string entry;
  faults : list (option (string * nat));
}.

(** [std::io::Error]: its kind, as far as the code looks at it, and its text. *)
Inductive IoError : Type := NotFound | IoFail (msg : string).

Definition io_display (e : IoError) : string :=
  match e with NotFound => "No such file or directory (os error 2)" | IoFail m => m end.

(** ** Calls that may fail *)

Definition fs (A : Type) : Type := world → result IoError A * world.
#[export] Instance fs_ret : MRet fs := λ A a w, (Ok a, w).
#[export] Instance fs_bind : MBind fs := λ A B k m w,
  match m w with
  | (Ok a, w) => k a w
  | (Err e, w) => (Err e, w)
  end.

Definition fs_throw {A} (e : IoError) : fs A := λ w, (Err e, w).

(** Continue with the outcome, success or failure. *)
Definition fs_try {A} (m : fs A) : fs (result IoError A) := λ w, let '(r, w) := m w in (Ok r, w).

Definition next_fault (w : world) : option (string * nat) * world :=
  match faults w with
  | [] => (None, w)
  | f :: fl => (f, mkWorld (files w) fl)
  end.

(** A call that has no effect when it fails. *)
Definition syscall {A} (f : gmap string entry → result IoError A * gmap string entry) : fs A :=
  λ w, match next_fault w with
       | (Some (e, _), w) => (Err (IoFail e), w)
       | (None, w) => let '(r, m) := f (files w) in (r, mkWorld m (faults w))
       end.

(** [symlink_metadata] *)
Definition fs_stat (name : string) : fs entry :=
  syscall (λ m, (match m !! name with Some e => Ok e | None => Err NotFound end, m)).

(** [Path::exists]: false also when the question cannot be answered. *)
Definition fs_exists (name : string) : fs bool :=
  r ← fs_try (fs_stat name); mret (is_ok r).

(** [OpenOptions::new().create(true).append(true).open(path)] *)
Definition fs_open_append (name : string) : fs unit :=
  syscall (λ m, (Ok tt, match m !! name with Some _ => m | None => <[name := Regular ""]> m end)).

(** [File::open] and reading to the end. *)
Definition fs_read (name : string) : fs bytes :=
  syscall (λ m, (match m !! name with
                 | Some (Regular c) => Ok c
                 | Some Special => Ok ""
                 | None => Err NotFound
                 end, m)).

(** [std::fs::read_to_string] *)
Definition fs_read_to_string (name : string) : fs string :=
  c ← fs_read name;
  if utf8_valid c then mret c else fs_throw (IoFail "stream did not contain valid UTF-8").

(** [OpenOptions::new().create_new(true).write(true).open(path)] *)
Definition fs_create_new (name : string) : fs unit :=
  syscall (λ m, match m !! name with
                | Some _ => (Err (IoFail "File exists (os error 17)"), m)
                | None => (Ok tt, <[name := Regular ""]> m)
                end).

(** Append to the content of a regular file. *)
Definition append_bytes (name : string) (b : bytes) (m : gmap string entry) : gmap string entry :=
  match m !! name with
  | Some (Regular c) => <[name := Regular (c +:+ b)]> m
  | _ => m
  end.

(** [File::write_all]: a failure may leave a prefix behind. *)
Definition fs_write_all (name : string) (b : bytes) : fs unit :=
  λ w, match next_fault w with
       | (Some (e, n), w) =>
           (Err (IoFail e),
            mkWorld (append_bytes name (String.substring 0 n b) (files w)) (faults w))
       | (None, w) => (Ok tt, mkWorld (append_bytes name b (files w)) (faults w))
       end.

(** [File::sync_all], [set_permissions], [create_dir_all]: no effect on contents. *)
Definition fs_sync : fs unit := syscall (λ m, (Ok tt, m)).

(** [file.metadata()?.len()] *)
Definition fs_len (name : string) : fs nat :=
  syscall (λ m, (Ok (match m !! name with Some (Regular c) => String.length c | _ => O end), m)).

(** [File::set_len] *)
Definition fs_set_len (name : string) (n : nat) : fs unit :=
  syscall (λ m, (Ok tt, match m !! name with
                        | Some (Regular c) => <[name := Regular (String.substring 0 n c)]> m
                        | _ => m
                        end)).

(** [std::fs::rename], [std::fs::remove_file] *)
Definition fs_rename (a b : string) : fs unit :=
  syscall (λ m, match m !! a with
                | Some e => (Ok tt, <[b := e]> (delete a m))
                | None => (Err NotFound, m)
                end).
Definition fs_remove (name : string) : fs unit :=
  syscall (λ m, match m !! name with
                | Some _ => (Ok tt, delete name m)
                | None => (Err NotFound, m)
                end).

(** [std::fs::read_dir] with the file types. *)
Definition fs_read_dir : fs (list (string * entry)) := syscall (λ m, (Ok (map_to_list m), m)).

(** ** Running *)

Lemma fs_bind_eq {A B} (m : fs A) (k : A → fs B) w :
  (m ≫= k) w = match m w with (Ok a, w) => k a w | (Err e, w) => (Err e, w) end.
Proof. done. Qed.

(** What a call does to one file. *)
Definition content_of (w : world) (name : string) : option bytes :=
  match files w !! name with Some (Regular c) => Some c | _ => None end.

Lemma append_bytes_other name b m other :
  other ≠ name → append_bytes name b m !! other = m !! other.
Proof.
  intros. unfold append_bytes. destruct (m !! name) as [[c|]|]; try done.
  by rewrite lookup_insert_ne.
Qed.

Lemma append_bytes_same name b m c :
  m !! name = Some (Regular c) → append_bytes name b m !! name = Some (Regular (c +:+ b)).
Proof. intros Hm. unfold append_bytes. by rewrite Hm, lookup_insert_eq. Qed.

(** [syscall] either fails without effect or runs its function. *)
Lemma syscall_inv {A} (f : gmap string entry → result IoError A * gmap string entry) w r w' :
  syscall f w = (r, w') →
  (∃ e, r = Err (IoFail e) ∧ files w' = files w) ∨ (r, files w') = f (files w).
Proof.
  unfold syscall, next_fault. destruct (faults w) as [|[[e n]|] fl]; simpl.
  - destruct (f (files w)) as [r0 m]. intros [= <- <-]. by right.
  - intros [= <- <-]. left. by eexists.
  - destruct (f (files w)) as [r0 m]. intros [= <- <-]. by right.
Qed.

(** Without faults left, calls succeed or fail for their own reasons only. *)
Lemma syscall_calm {A} (f : gmap string entry → result IoError A * gmap string entry) m :
  syscall f (mkWorld m []) = ((f m).1, mkWorld (f m).2 []).
Proof. unfold syscall. simpl. by destruct (f m). Qed.

Lemma fs_write_all_inv name b w r w' :
  fs_write_all name b w = (r, w') →
  (r = Ok tt ∧ files w' = append_bytes name b (files w)) ∨
  (∃ e n, r = Err e ∧ files w' = append_bytes name (String.substring 0 n b) (files w)).
Proof.
  unfold fs_write_all, next_fault. destruct (faults w) as [|[[e n]|] fl]; simpl;
    intros [= <- <-]; eauto.
Qed.

(** A call that leaves the named file alone. *)
Definition keeps (name : string) {A} (m : fs A) : Prop :=
  ∀ w r w', m w = (r, w') → files w' !! name = files w !! name.

Section keeps.
Context (name : string).

Lemma keeps_ret {A} (a : A) : keeps name (mret a).
Proof. by intros w r w' [= <- <-]. Qed.
Lemma keeps_throw {A} e : keeps name (fs_throw (A := A) e).
Proof. by intros w r w' [= <- <-]. Qed.
Lemma keeps_bind {A B} (m : fs A) (k : A → fs B) :
  keeps name m → (∀ a, keeps name (k a)) → keeps name (m ≫= k).
Proof.
  intros Hm Hk w r w'. rewrite fs_bind_eq. destruct (m w) as [[a|e] w1] eqn:Hw.
  - intros H2. rewrite (Hk a _ _ _ H2). by eapply Hm.
  - intros [= <- <-]. by eapply Hm.
Qed.
Lemma keeps_try {A} (m : fs A) : keeps name m → keeps name (fs_try m).
Proof.
  intros Hm w r w'. unfold fs_try. destruct (m w) as [r0 w1] eqn:Hw. intros [= <- <-].
  by eapply Hm.
Qed.
Lemma keeps_syscall {A} (f : gmap string entry → result IoError A * gmap string entry) :
  (∀ m, (f m).2 !! name = m !! name) → keeps name (syscall f).
Proof.
  intros Hf w r w' [(e & _ & ->)|Heq]%syscall_inv; [done|].
  rewrite <-(Hf (files w)). by rewrite <-Heq.
Qed.
Lemma keeps_write other b : name ≠ other → keeps name (fs_write_all other b).
Proof.
  intros Hne w r w' [[_ ->]|(e & n & _ & ->)]%fs_write_all_inv; by apply append_bytes_other.
Qed.
Lemma keeps_rename a b : name ≠ a → name ≠ b → keeps name (fs_rename a b).
Proof.
  intros Ha Hb. apply keeps_syscall. intros m. destruct (m !! a); simpl; [|done].
  by rewrite lookup_insert_ne, lookup_delete_ne.
Qed.
Lemma keeps_remove a : name ≠ a → keeps name (fs_remove a).
Proof.
  intros Ha. apply keeps_syscall. intros m. destruct (m !! a); simpl; [|done].
  by rewrite lookup_delete_ne.
Qed.
Lemma keeps_create a : name ≠ a → keeps name (fs_create_new a).
Proof.
  intros Ha. apply keeps_syscall. intros m. destruct (m !! a); simpl; [done|].
  by rewrite lookup_insert_ne.
Qed.
Lemma keeps_read a : keeps name (fs_read a).
Proof. by apply keeps_syscall. Qed.
Lemma keeps_sync : keeps name fs_sync.
Proof. by apply keeps_syscall. Qed.
Lemma keeps_len a : keeps name (fs_len a).
Proof. by apply keeps_syscall. Qed.
Lemma keeps_set_len a n : name ≠ a → keeps name (fs_set_len a n).
Proof.
  intros Ha. apply keeps_syscall. intros m. destruct (m !! a) as [[c|]|]; simpl; [|done|done].
  by rewrite lookup_insert_ne.
Qed.
Lemma keeps_stat a : keeps name (fs_stat a).
Proof. apply keeps_syscall. intros m. by destruct (m !! a). Qed.
Lemma keeps_open_append a : name ≠ a → keeps name (fs_open_append a).
Proof.
  intros Ha. apply keeps_syscall. intros m. destruct (m !! a); simpl; [done|]. by rewrite lookup_insert_ne.
Qed.
Lemma keeps_read_dir : keeps name fs_read_dir.
Proof. by apply keeps_syscall. Qed.
Lemma keeps_exists a : keeps name (fs_exists a).
Proof. apply keeps_bind; [apply keeps_try, keeps_stat|intros; apply keeps_ret]. Qed.
Lemma keeps_read_string a : keeps name (fs_read_to_string a).
Proof.
  apply keeps_bind; [apply keeps_read|]. intros c. destruct (utf8_valid c); [apply keeps_ret|apply keeps_throw].
Qed.
End keeps.

#[export] Hint Resolve keeps_ret keeps_throw keeps_bind keeps_try keeps_write keeps_rename
  keeps_remove keeps_create keeps_read keeps_sync keeps_len keeps_set_len keeps_stat keeps_open_append
  keeps_read_dir keeps_exists keeps_read_string : agentguard.

(** Descend through the structure of an operation. *)
Ltac keeps_tac :=
  repeat match goal with
  | |- keeps _ (mbind _ _) => apply keeps_bind; [|intros ?]
  | |- keeps _ (fs_try _) => apply keeps_try
  | |- keeps _ (match ?x with _ => _ end) => destruct x
  | |- keeps _ _ => solve [eauto with agentguard]
  end.
