(* ===== verification/ApiKey.v ===== *)
(** * API keys ([agentguard-auth/src/api_key.rs])

    [ApiKeyStore]: creation, verification, revocation and persistence of API keys.
    Argon2 and the JSON codec of the key file come as classes; clock readings, uuids,
    secrets and salts are arguments; files are those of [AuditFs], with faults. *)

From S2P Require Import Prelude Crypto AuthError AuditFs.

(** ** Argon2 *)

(** [argon2] and [password_hash]: the parameters of [argon2()], hashing with a salt,
    parsing a PHC string and what [validate_api_key_record] reads of it. *)
Class Argon2 := {
  PasswordHash : Type;
  argon2_params : result string unit;
  hash_password : bytes → string → result string string;
  password_hash_new : string → result string PasswordHash;
  verify_password : bytes → PasswordHash → bool;
  ph_algorithm : PasswordHash → string;
  ph_version : PasswordHash → option Z;
  ph_has_salt : PasswordHash → bool;
  ph_has_hash : PasswordHash → bool;
  ph_decimal : PasswordHash → string → option Z;
}.

(** The fixed parameters are valid; what was hashed under them parses, with those
    parameters, and verifies. *)
Class Argon2Laws `{Argon2} : Prop := {
  argon2_params_ok : argon2_params = Ok tt;
  hash_password_parses secret salt h :
    hash_password secret salt = Ok h →
    ∃ p, password_hash_new h = Ok p ∧ verify_password secret p = true ∧
      ph_algorithm p = "argon2id" ∧ ph_version p = Some 19 ∧ ph_has_salt p = true ∧
      ph_has_hash p = true ∧ ph_decimal p "m" = Some 65536 ∧ ph_decimal p "t" = Some 3 ∧
      ph_decimal p "p" = Some 4;
}.

(** ** Keys *)

Record ApiKeyIdentity : Type := mkApiKeyIdentity {
  subject_type : string;
  subject_id : string;
  key_tenant : option string;
}.
#[export] Instance ApiKeyIdentity_eq_dec : EqDecision ApiKeyIdentity.
Proof. solve_decision. Defined.

Record ApiKey : Type := mkApiKey {
  key_id : string;
  prefix : string;
  secret_hash : string;
  scopes : list string;
  identity : option ApiKeyIdentity;
  created_at : Z;
  expires_at : option Z;
  last_used_at : option Z;
  revoked_at : option Z;
}.
#[export] Instance ApiKey_eq_dec : EqDecision ApiKey.
Proof. solve_decision. Defined.

Definition identity_new (ty id : string) (tenant : option string) : aresult ApiKeyIdentity :=
  _ ← bail_if (negb (bool_decide (ty = "User") || bool_decide (ty = "Agent")) || is_blank id)
        (AuthOther "API key identity must use User or Agent with a non-empty subject id");
  _ ← bail_if (match tenant with Some t => is_blank t | None => false end)
        (AuthOther "API key tenant id must be non-empty when provided");
  Ok (mkApiKeyIdentity ty (trim id) (trim <$> tenant)).

Definition has_scope (k : ApiKey) (required : string) : bool :=
  bool_decide (required = "")
  || existsb (λ scope, bool_decide (scope = "*") || bool_decide (scope = required)) (scopes k).

Definition valid_scope (scope : string) : bool :=
  negb (is_blank scope)
  && negb (existsb is_ascii_whitespace (String.list_ascii_of_string scope)).

(** Nonempty, trimmed, and without the separator. *)
Definition bad_name (s : string) : bool :=
  is_blank s || bool_decide (trim s ≠ s) || str_contains ":" s.

(** ** The store *)

Abbreviation ApiKeyStore := (gmap string ApiKey).
Definition apikey_store_new : ApiKeyStore := ∅.

(** [i64::try_from(duration.as_secs())] and [checked_add] *)
Definition expiry (now : Z) (ttl : option Z) : aresult (option Z) :=
  match ttl with
  | Some d =>
      secs ← ok_or (i64_try_from d)
               (AuthOther "API key TTL exceeds the supported timestamp range");
      e ← ok_or (i64_checked_add now secs)
            (AuthOther "API key expiry exceeds the supported timestamp range");
      Ok (Some e)
  | None => Ok None
  end.

(** [serde_json::{to_string_pretty, from_str}] on the list of keys. *)
Class ApiKeyCodec := {
  keys_to_string_pretty : list ApiKey → result string string;
  keys_from_str : string → result string (list ApiKey);
}.

Definition opt_i64 (o : option Z) : Prop := match o with Some z => in_i64 z | None => True end.
Definition wf_key (k : ApiKey) : Prop :=
  in_i64 (created_at k) ∧ opt_i64 (expires_at k) ∧ opt_i64 (last_used_at k) ∧ opt_i64 (revoked_at k).

(** Keys serialise, to UTF-8 text that reads back as written; what is read is well typed. *)
Class ApiKeyCodecLaws `{ApiKeyCodec} : Prop := {
  keys_text_total ks : ∃ t, keys_to_string_pretty ks = Ok t;
  keys_text_roundtrip ks t :
    Forall wf_key ks → keys_to_string_pretty ks = Ok t → keys_from_str t = Ok ks;
  keys_typed t ks : keys_from_str t = Ok ks → Forall wf_key ks;
  keys_text_utf8 ks t : keys_to_string_pretty ks = Ok t → utf8_valid t = true;
}.

Section store.
Context `{Argon2, Base64, ApiKeyCodec}.

(** [argon2()] *)
Definition argon2 : aresult unit :=
  map_err (λ e, AuthOther ("argon2 params: " +:+ e)) argon2_params.

Definition create_with_identity (st : ApiKeyStore) (prefix : string) (scopes : list string)
    (ttl : option Z) (identity : option ApiKeyIdentity) (uuid : string) (secret : bytes)
    (salt : string) (now : Z) : aresult (ApiKey * string) * ApiKeyStore :=
  match
    (_ ← bail_if (bad_name prefix)
           (AuthOther "API key prefix must be non-empty and must not contain ':'");
     _ ← bail_if (existsb (λ s, negb (valid_scope s)) scopes)
           (AuthOther "API-key scopes must be non-empty and contain no whitespace");
     let secret_b64 := b64_encode secret in
     _ ← argon2;
     secret_hash ← map_err (λ e, AuthOther ("argon2: " +:+ e)) (hash_password secret salt);
     expires_at ← expiry now ttl;
     let key := mkApiKey uuid prefix secret_hash scopes identity now expires_at None None in
     Ok (key, prefix +:+ ":" +:+ uuid +:+ ":" +:+ secret_b64))
  with
  | Ok (key, raw) => (Ok (key, raw), <[uuid := key]> st)
  | Err e => (Err e, st)
  end.

Definition create (st : ApiKeyStore) (prefix : string) (scopes : list string) (ttl : option Z)
    (uuid : string) (secret : bytes) (salt : string) (now : Z) :
    aresult (ApiKey * string) * ApiKeyStore :=
  create_with_identity st prefix scopes ttl None uuid secret salt now.

Definition create_bound (st : ApiKeyStore) (prefix : string) (scopes : list string) (ttl : option Z)
    (ident : ApiKeyIdentity) (uuid : string) (secret : bytes) (salt : string) (now : Z) :
    aresult (ApiKey * string) * ApiKeyStore :=
  match identity_new (subject_type ident) (subject_id ident) (key_tenant ident) with
  | Ok i => create_with_identity st prefix scopes ttl (Some i) uuid secret salt now
  | Err e => (Err e, st)
  end.

Definition apikey_verify (st : ApiKeyStore) (raw : string) (now : Z) : aresult ApiKey :=
  match split ":"%char raw with
  | [pre; id; secret_b64] =>
      secret ← map_err (λ _, ApiKeyInvalid) (b64_decode secret_b64);
      key ← ok_or (st !! id) ApiKeyInvalid;
      _ ← bail_if (bool_decide (prefix key ≠ pre))
            (AuthOther ("prefix mismatch: " +:+ prefix key +:+ " != " +:+ pre));
      _ ← bail_if (match expires_at key with Some exp => exp <=? now | None => false end)
            ApiKeyExpired;
      _ ← bail_if (bool_decide (is_Some (revoked_at key))) ApiKeyRevoked;
      parsed ← map_err (λ e, AuthOther ("hash parse: " +:+ e)) (password_hash_new (secret_hash key));
      _ ← argon2;
      _ ← bail_if (negb (verify_password secret parsed)) ApiKeyInvalid;
      Ok key
  | _ => Err ApiKeyInvalid
  end.

Definition with_revoked_at (k : ApiKey) (t : Z) : ApiKey :=
  mkApiKey (key_id k) (prefix k) (secret_hash k) (scopes k) (identity k) (created_at k)
    (expires_at k) (last_used_at k) (Some t).

Definition apikey_revoke (st : ApiKeyStore) (id : string) (now : Z) : aresult unit * ApiKeyStore :=
  match st !! id with
  | Some key => (Ok tt, <[id := with_revoked_at key now]> st)
  | None => (Err ApiKeyInvalid, st)
  end.

Definition apikey_list (st : ApiKeyStore) : list ApiKey := (map_to_list st).*2.

(** ** Persistence *)

Definition in_range (lo hi : Z) (o : option Z) : bool :=
  match o with Some v => (lo <=? v) && (v <=? hi) | None => false end.

Definition validate_api_key_record (k : ApiKey) : aresult unit :=
  _ ← bail_if (bad_name (key_id k)) (AuthOther "API-key id must be non-empty and contain no ':'");
  _ ← bail_if (bad_name (prefix k)) (AuthOther "API-key prefix must be non-empty and contain no ':'");
  _ ← bail_if (existsb (λ s, negb (valid_scope s)) (scopes k))
        (AuthOther "API-key scopes must be non-empty and contain no whitespace");
  _ ← match identity k with
      | Some i =>
          normalized ← identity_new (subject_type i) (subject_id i) (key_tenant i);
          bail_if (bool_decide (normalized ≠ i)) (AuthOther "API-key identity fields must be trimmed")
      | None => Ok tt
      end;
  hash ← map_err (λ _, AuthOther "API-key store contains an invalid password hash")
           (password_hash_new (secret_hash k));
  bail_if (bool_decide (ph_algorithm hash ≠ "argon2id") || bool_decide (ph_version hash ≠ Some 19)
           || negb (ph_has_salt hash) || negb (ph_has_hash hash)
           || negb (in_range 8 65536 (ph_decimal hash "m"))
           || negb (in_range 1 3 (ph_decimal hash "t"))
           || negb (in_range 1 4 (ph_decimal hash "p"))
           || (default 0 (ph_decimal hash "m") <? default 0 (ph_decimal hash "p") * 8))
    (AuthOther "API-key hash must use bounded Argon2id v19 parameters").

Fixpoint collect_keys (keys : ApiKeyStore) (parsed : list ApiKey) : aresult ApiKeyStore :=
  match parsed with
  | [] => Ok keys
  | key :: parsed =>
      _ ← validate_api_key_record key;
      _ ← bail_if (bool_decide (is_Some (keys !! key_id key)))
            (AuthOther ("duplicate API-key id in store: " +:+ key_id key));
      collect_keys (<[key_id key := key]> keys) parsed
  end.

(** The keys the file holds; the store is replaced when this succeeds. *)
Definition read_keys (path : string) (w : world) : aresult ApiKeyStore * world :=
  let '(r, w) := fs_exists path w in
  match r with
  | Ok true =>
      let '(r, w) := fs_read_to_string path w in
      (text ← map_err (λ e, AuthOther ("read: " +:+ io_display e)) r;
       parsed ← map_err (λ e, AuthOther ("parse: " +:+ e)) (keys_from_str text);
       collect_keys ∅ parsed, w)
  | _ => (Ok ∅, w)
  end.

Definition reload_from_file (st : ApiKeyStore) (path : string) (w : world) :
    aresult unit * ApiKeyStore * world :=
  match read_keys path w with
  | (Ok keys, w) => (Ok tt, keys, w)
  | (Err e, w) => (Err e, st, w)
  end.

Definition load_from_file (path : string) (w : world) : aresult ApiKeyStore * world :=
  match reload_from_file apikey_store_new path w with
  | (Ok _, st, w) => (Ok st, w)
  | (Err e, _, w) => (Err e, w)
  end.

(** [created_at], then [id]. *)
Definition key_le (a b : ApiKey) : Prop :=
  created_at a < created_at b ∨ created_at a = created_at b ∧ str_le (key_id a) (key_id b).
#[export] Instance key_le_dec a b : Decision (key_le a b).
Proof. unfold key_le. apply _. Defined.

Definition saved_keys (st : ApiKeyStore) : list ApiKey := merge_sort key_le (apikey_list st).

Definition temporary_name (path uuid : string) : string := "." +:+ path +:+ "." +:+ uuid +:+ ".tmp".

(** [path] is a file name of the directory. *)
Definition save_to_file (st : ApiKeyStore) (path uuid : string) (w : world) : aresult unit * world :=
  match map_err (λ e, AuthOther ("serialize: " +:+ e)) (keys_to_string_pretty (saved_keys st)) with
  | Err e => (Err e, w)
  | Ok text =>
      let temporary := temporary_name path uuid in
      let '(write_result, w) :=
        (_ ← fs_create_new temporary;
         _ ← fs_write_all temporary text;
         _ ← fs_sync;
         _ ← fs_rename temporary path;
         _ ← fs_sync; (* open the directory *)
         fs_sync) w in
      match write_result with
      | Err error =>
          let '(_, w) := fs_remove temporary w in
          (Err (AuthOther ("write: " +:+ io_display error)), w)
      | Ok _ => (Ok tt, w)
      end
  end.
End store.

(** ** A key from creation to revocation *)

Lemma split_colons a b c :
  str_contains ":" a = false → str_contains ":" b = false → str_contains ":" c = false →
  split ":"%char (a +:+ ":" +:+ b +:+ ":" +:+ c) = [a; b; c].
Proof.
  intros Ha Hb Hc. change (a +:+ ":" +:+ b +:+ ":" +:+ c) with (join ":" [a; b; c]).
  apply split_join; [done|by repeat constructor].
Qed.

Lemma good_name s : bad_name s = false → is_blank s = false ∧ trim s = s ∧ str_contains ":" s = false.
Proof. unfold bad_name. intros Hs. by bool_inv. Qed.

Lemma expiry_sum now ttl e : expiry now ttl = Ok e → e = (λ d, now + d) <$> ttl ∧ opt_i64 e.
Proof.
  unfold expiry. destruct ttl as [d|]; [|by intros [= <-]].
  intros (secs & Hs & (e' & He & [= <-])%bind_Ok)%bind_Ok.
  apply ok_or_Ok in Hs, He. apply i64_try_from_Some in Hs as [-> _].
  by apply i64_checked_add_Some in He as [-> Hr].
Qed.

Section lifecycle.
Context `{Argon2Laws, Base64Laws, ApiKeyCodecLaws}.

Definition expired (k : ApiKey) (t : Z) : bool :=
  match expires_at k with Some e => e <=? t | None => false end.

Lemma create_inv st pre scs ttl ident uuid secret salt now key raw st' :
  create_with_identity st pre scs ttl ident uuid secret salt now = (Ok (key, raw), st') →
  ∃ h e, bad_name pre = false ∧ existsb (λ s, negb (valid_scope s)) scs = false ∧
    hash_password secret salt = Ok h ∧ expiry now ttl = Ok e ∧
    key = mkApiKey uuid pre h scs ident now e None None ∧
    raw = pre +:+ ":" +:+ uuid +:+ ":" +:+ b64_encode secret ∧ st' = <[uuid := key]> st.
Proof.
  unfold create_with_identity. intros Hc.
  match type of Hc with (match ?m with Ok _ => _ | Err _ => _ end = _) => destruct m as [[k r]|e] eqn:Hm end;
    [|done].
  injection Hc as -> -> <-. unfold argon2 in Hm. res_inv. simplify_eq. by do 2 eexists.
Qed.

(** Verification of the text of a key under a store that holds it. *)
Lemma verify_created st pre uuid secret key h p t :
  str_contains ":" pre = false → str_contains ":" uuid = false →
  st !! uuid = Some key → prefix key = pre → secret_hash key = h →
  password_hash_new h = Ok p → verify_password secret p = true →
  apikey_verify st (pre +:+ ":" +:+ uuid +:+ ":" +:+ b64_encode secret) t =
    if expired key t then Err ApiKeyExpired
    else if bool_decide (is_Some (revoked_at key)) then Err ApiKeyRevoked else Ok key.
Proof.
  intros Hpre Huuid Hst Hp Hh Hparse Hver. unfold apikey_verify.
  rewrite split_colons by (done || apply b64_encode_no_colon).
  rewrite b64_decode_encode. simpl. rewrite Hst. simpl.
  rewrite (bool_decide_eq_false_2 (prefix key ≠ pre)) by (intros Hn; by apply Hn).
  simpl. unfold expired, argon2. rewrite argon2_params_ok.
  destruct (match expires_at key with Some _ => _ | None => _ end); simpl; [done|].
  destruct (bool_decide (is_Some (revoked_at key))); simpl; [done|].
  rewrite Hh, Hparse. simpl. by rewrite Hver.
Qed.

(** The text returned for a new key verifies, and gives that key, exactly until it
    expires, at its creation time plus its time to live; once it is revoked it is
    refused; and creating it changes no other key. *)
Theorem created_key_verifies st pre scs ttl ident uuid secret salt now key raw st' :
  create_with_identity st pre scs ttl ident uuid secret salt now = (Ok (key, raw), st') →
  str_contains ":" uuid = false →
  expires_at key = (λ d, now + d) <$> ttl ∧
  (∀ t, apikey_verify st' raw t = if expired key t then Err ApiKeyExpired else Ok key) ∧
  (∀ t t', apikey_verify (apikey_revoke st' uuid t').2 raw t =
     if expired key t then Err ApiKeyExpired else Err ApiKeyRevoked) ∧
  (∀ id, id ≠ uuid → st' !! id = st !! id).
Proof.
  intros (h & e & Hpre%good_name & Hsc & Hh & He & -> & -> & ->)%create_inv Hu.
  destruct Hpre as (_ & _ & Hpre). destruct (hash_password_parses _ _ _ Hh) as (p & Hp & Hv & _).
  set (key := mkApiKey uuid pre h scs ident now e None None). split_and!.
  - by apply expiry_sum in He as [-> _].
  - intros t. rewrite (verify_created _ pre uuid secret key h p) by (done || apply lookup_insert_eq).
    simpl. by destruct (expired key t).
  - intros t t'. unfold apikey_revoke. rewrite lookup_insert_eq. simpl.
    rewrite (verify_created _ pre uuid secret (with_revoked_at key t') h p)
      by (done || apply lookup_insert_eq). simpl. unfold expired. by destruct e.
  - intros id Hne. by rewrite lookup_insert_ne.
Qed.
End lifecycle.

(** ** The store as a whole *)

Section whole.
Context `{Argon2Laws, Base64Laws, ApiKeyCodecLaws}.

(** Changes of the store in memory; a uuid is new and a proper name, the clock an [i64]. *)
Inductive store_step : ApiKeyStore → ApiKeyStore → Prop :=
| ss_create st pre scs ttl uuid secret salt now :
    st !! uuid = None → bad_name uuid = false → in_i64 now →
    store_step st (create st pre scs ttl uuid secret salt now).2
| ss_create_bound st pre scs ttl ident uuid secret salt now :
    st !! uuid = None → bad_name uuid = false → in_i64 now →
    store_step st (create_bound st pre scs ttl ident uuid secret salt now).2
| ss_revoke st id now : in_i64 now → store_step st (apikey_revoke st id now).2.

(** And reloads, from whatever the file holds. *)
Inductive service_step : ApiKeyStore → ApiKeyStore → Prop :=
| sv_step st st' : store_step st st' → service_step st st'
| sv_reload st path w : service_step st (reload_from_file st path w).1.2.

(** Keys are under their ids, well typed, and pass the validation of a reload. *)
Definition store_ok (st : ApiKeyStore) : Prop :=
  map_Forall (λ id k, key_id k = id ∧ wf_key k ∧ validate_api_key_record k = Ok tt) st.

Lemma is_blank_trim s : is_blank (trim s) = is_blank s.
Proof. unfold is_blank. by rewrite trim_idem. Qed.

(** Normalising an identity twice is normalising it once. *)
Lemma identity_new_normal ty id tenant i :
  identity_new ty id tenant = Ok i →
  identity_new (subject_type i) (subject_id i) (key_tenant i) = Ok i.
Proof.
  unfold identity_new. intros Hi. res_inv. subst i. cbn [subject_type subject_id key_tenant].
  rewrite is_blank_trim, trim_idem, (bail_if_pass (_ || _)) by done. simpl.
  destruct tenant as [t|]; simpl in *; [|done].
  by rewrite is_blank_trim, trim_idem, bail_if_pass.
Qed.

Definition normal_identity (i : option ApiKeyIdentity) : Prop :=
  match i with
  | Some i => identity_new (subject_type i) (subject_id i) (key_tenant i) = Ok i
  | None => True
  end.

Lemma created_valid st pre scs ttl ident uuid secret salt now :
  store_ok st → bad_name uuid = false → in_i64 now → normal_identity ident →
  store_ok (create_with_identity st pre scs ttl ident uuid secret salt now).2.
Proof.
  intros Hst Hu Hnow Hi.
  destruct (create_with_identity _ _ _ _ _ _ _ _ _) as [[[key raw]|e] st'] eqn:Hc; simpl.
  2: { unfold create_with_identity in Hc. repeat case_match; by simplify_eq. }
  apply create_inv in Hc as (h & e & Hpre & Hsc & Hh & He & -> & _ & ->).
  apply map_Forall_insert_2; [|done]. apply expiry_sum in He as [_ He].
  split; [done|]. split; [split; [done|split; [done|by split]]|].
  destruct (hash_password_parses _ _ _ Hh) as (p & Hp & _ & Ha & Hv & Hs & Hhh & Hm & Ht & Hpp).
  unfold validate_api_key_record. simpl. rewrite Hu, Hpre, Hsc. simpl.
  assert (match ident with
          | Some i => normalized ← identity_new (subject_type i) (subject_id i) (key_tenant i);
                      bail_if (bool_decide (normalized ≠ i))
                        (AuthOther "API-key identity fields must be trimmed")
          | None => Ok tt end = Ok tt) as ->.
  { destruct ident as [i|]; [|done]. simpl in Hi. rewrite Hi. simpl.
    rewrite bool_decide_eq_false_2; [done|]. intros Hn. by apply Hn. }
  simpl. rewrite Hp. simpl. by rewrite Ha, Hv, Hs, Hhh, Hm, Ht, Hpp.
Qed.

Lemma store_step_ok st st' : store_step st st' → store_ok st → store_ok st'.
Proof.
  intros [st0 pre scs ttl uuid secret salt now Hf Hu Hn
         |st0 pre scs ttl ident uuid secret salt now Hf Hu Hn|st0 id now Hn] Hst.
  - by apply created_valid.
  - unfold create_bound. destruct (identity_new _ _ _) as [i|e] eqn:Hi; [|done].
    apply created_valid; [done..|]. by eapply identity_new_normal.
  - unfold apikey_revoke. destruct (st0 !! id) as [k|] eqn:Hk; [|done]. simpl.
    apply map_Forall_insert_2; [|done]. destruct (Hst id k Hk) as (Hid & (Hc & He & Hl & _) & Hv).
    split; [done|]. split; [|done]. split; [done|split; [done|by split]].
Qed.

Lemma collect_keys_ok acc ks st :
  Forall wf_key ks → collect_keys acc ks = Ok st → store_ok acc → store_ok st.
Proof.
  intros Hwf. revert acc. induction Hwf as [|k ks Hk Hks IH]; intros acc Hc Hacc; simpl in Hc.
  { by injection Hc as ->. }
  res_inv. apply (IH _ Hc). by apply map_Forall_insert_2.
Qed.

Lemma service_step_ok st st' : service_step st st' → store_ok st → store_ok st'.
Proof.
  intros [st0 st1 Hstep|st0 path w] Hst; [by eapply store_step_ok|].
  unfold reload_from_file. destruct (read_keys path w) as [[keys|e] w'] eqn:Hr; simpl; [|done].
  unfold read_keys in Hr. destruct (fs_exists path w) as [[[]|] w1];
    [|by injection Hr as <- _..].
  destruct (fs_read_to_string path w1) as [r w2]. injection Hr as Hr _. res_inv.
  eapply collect_keys_ok; [by eapply keys_typed|done|done].
Qed.

(** A revoked key stays so. *)
Lemma store_step_revoked st st' id k t :
  store_step st st' → st !! id = Some k → revoked_at k = Some t →
  ∃ k' t', st' !! id = Some k' ∧ revoked_at k' = Some t'.
Proof.
  assert (Hcre : ∀ st pre scs ttl ident uuid secret salt now, st !! uuid = None →
    st !! id = Some k → (create_with_identity st pre scs ttl ident uuid secret salt now).2 !! id = Some k).
  { intros st0 pre scs ttl ident uuid secret salt now Hf Hk.
    destruct (create_with_identity _ _ _ _ _ _ _ _ _) as [[[key raw]|e] st1] eqn:Hc; simpl.
    - apply create_inv in Hc as (h & e & _ & _ & _ & _ & _ & _ & ->).
      rewrite lookup_insert_ne; [done|]. congruence.
    - unfold create_with_identity in Hc. repeat case_match; by simplify_eq. }
  intros [st0 pre scs ttl uuid secret salt now Hf Hu Hn
         |st0 pre scs ttl ident uuid secret salt now Hf Hu Hn|st0 id' now Hn] Hk Ht.
  - exists k, t. split; [by apply Hcre|done].
  - exists k, t. split; [|done]. unfold create_bound.
    destruct (identity_new _ _ _) as [i|e]; [by apply Hcre|done].
  - unfold apikey_revoke. destruct (decide (id = id')) as [<-|Hne].
    + rewrite Hk. simpl. exists (with_revoked_at k now), now. by rewrite lookup_insert_eq.
    + exists k, t. destruct (st0 !! id'); simpl; [|done]. by rewrite lookup_insert_ne.
Qed.

Lemma store_steps_revoked st st' id k t :
  rtc store_step st st' → st !! id = Some k → revoked_at k = Some t →
  ∃ k' t', st' !! id = Some k' ∧ revoked_at k' = Some t'.
Proof.
  intros Hrun. revert k t. induction Hrun as [st|st st1 st' Hstep Hrun IH]; intros k t Hk Ht; [eauto|].
  destruct (store_step_revoked _ _ _ _ _ Hstep Hk Ht) as (k1 & t1 & Hk1 & Ht1). by eapply IH.
Qed.

Lemma service_reachable_ok st : rtc service_step ∅ st → store_ok st.
Proof. intros Hrun. by eapply rtc_invariant; [exact service_step_ok|exact Hrun|]. Qed.

Lemma verified_live st raw t k :
  apikey_verify st raw t = Ok k → ∃ id, st !! id = Some k ∧ revoked_at k = None.
Proof.
  unfold apikey_verify. destruct (split ":" raw) as [|pre [|id [|secret [|? ?]]]]; try done.
  intros Hv. res_inv. simplify_eq. exists id. split; [done|]. bool_inv.
  by apply eq_None_not_Some.
Qed.

(** C17: once a key is revoked no text is accepted for it any more, whatever keys are
    created, verified or revoked afterwards; only a reload of the file can bring it back. *)
Theorem revoked_key_refused st id now st1 st' raw t k :
  rtc service_step ∅ st → in_i64 now → apikey_revoke st id now = (Ok tt, st1) →
  rtc store_step st1 st' → apikey_verify st' raw t = Ok k → key_id k ≠ id.
Proof.
  intros Hst%service_reachable_ok Hnow Hrev Hrun Hver Heq.
  pose proof (ss_revoke st id now Hnow) as Hstep. rewrite Hrev in Hstep. simpl in Hstep.
  assert (Hok : store_ok st').
  { eapply rtc_invariant; [exact store_step_ok|exact Hrun|]. by eapply store_step_ok. }
  destruct (verified_live _ _ _ _ Hver) as (id' & Hk & Hnone).
  destruct (Hok _ _ Hk) as [Hid _]. assert (id' = id) as -> by congruence.
  unfold apikey_revoke in Hrev. destruct (st !! id) as [k0|]; [|done]. injection Hrev as <-.
  destruct (store_steps_revoked _ _ id (with_revoked_at k0 now) now Hrun) as (k' & t' & Hk' & Ht');
    [by rewrite lookup_insert_eq|done|congruence].
Qed.

(** ** Saving and reloading *)

Lemma collect_keys_list ks acc :
  NoDup (key_id <$> ks) → Forall (λ k, validate_api_key_record k = Ok tt ∧ acc !! key_id k = None) ks →
  collect_keys acc ks = Ok (list_to_map ((λ k, (key_id k, k)) <$> ks) ∪ acc).
Proof.
  revert acc. induction ks as [|k ks IH]; intros acc Hnd Hall; simpl; [by rewrite map_empty_union|].
  apply NoDup_cons in Hnd as [Hk Hnd]. apply Forall_cons in Hall as [[Hv Hn] Hall].
  rewrite Hv. simpl. rewrite Hn. simpl. rewrite IH; [|done|].
  - f_equal. rewrite <-insert_union_r; [by rewrite insert_union_l|].
    apply not_elem_of_list_to_map_1. by rewrite <-list_fmap_compose.
  - rewrite Forall_forall in *. intros k' Hk'.
    destruct (Hall _ Hk') as [Hv' Hn']. split; [done|]. rewrite lookup_insert_ne; [done|].
    intros Heq. apply Hk. rewrite Heq. by apply list_elem_of_fmap_2.
Qed.

Lemma keyed_list st :
  store_ok st → (λ k, (key_id k, k)) <$> apikey_list st = map_to_list st.
Proof.
  intros Hok. unfold apikey_list. rewrite <-list_fmap_compose.
  rewrite <-(list_fmap_id (map_to_list st)) at 2. apply list_fmap_ext.
  intros i [id k] Hi. simpl. f_equal. apply list_elem_of_lookup_2, elem_of_map_to_list in Hi.
  by destruct (Hok _ _ Hi).
Qed.

(** The saved list gives the store back. *)
Lemma collect_saved st : store_ok st → collect_keys ∅ (saved_keys st) = Ok st.
Proof.
  intros Hok. pose proof (keyed_list st Hok) as Hkeyed.
  assert (Hp : (λ k, (key_id k, k)) <$> saved_keys st ≡ₚ map_to_list st).
  { unfold saved_keys. rewrite merge_sort_Permutation. by rewrite Hkeyed. }
  assert (Hids : (key_id <$> saved_keys st) = ((λ k, (key_id k, k)) <$> saved_keys st).*1)
    by (by rewrite <-list_fmap_compose).
  rewrite collect_keys_list.
  - rewrite map_union_empty. f_equal. etransitivity; [|apply list_to_map_to_list].
    apply list_to_map_proper; [|done]. rewrite Hp. apply NoDup_fst_map_to_list.
  - rewrite Hids, Hp. apply NoDup_fst_map_to_list.
  - unfold saved_keys. rewrite merge_sort_Permutation. unfold apikey_list. apply Forall_fmap.
    apply Forall_forall. intros [id k] Hin%elem_of_map_to_list. simpl. split; [|done].
    by destruct (Hok _ _ Hin) as (_ & _ & ?).
Qed.

Lemma saved_wf st : store_ok st → Forall wf_key (saved_keys st).
Proof.
  intros Hok. unfold saved_keys. rewrite merge_sort_Permutation. unfold apikey_list. apply Forall_fmap.
  apply Forall_forall. intros [id k] Hin%elem_of_map_to_list. by destruct (Hok _ _ Hin) as (_ & ? & _).
Qed.

Lemma temporary_other path uuid : path ≠ temporary_name path uuid.
Proof.
  intros Heq%(f_equal String.length). unfold temporary_name in Heq.
  rewrite !string_length_app in Heq. simpl in Heq. lia.
Qed.

Lemma fs_sync_files w r w' : fs_sync w = (r, w') → files w' = files w.
Proof. intros [(? & _ & ->)|[= _ ->]]%syscall_inv; done. Qed.

(** Filling the temporary file. *)
Lemma write_temporary path tmp text w r w' :
  path ≠ tmp →
  (_ ← fs_create_new tmp; _ ← fs_write_all tmp text; fs_sync) w = (r, w') →
  files w' !! path = files w !! path ∧ (r = Ok tt → files w' !! tmp = Some (Regular text)).
Proof.
  intros Hne Hrun.
  split; [revert Hrun; apply (keeps_bind path); [by apply keeps_create|intros _]; keeps_tac|].
  intros ->. rewrite fs_bind_eq in Hrun.
  destruct (fs_create_new tmp w) as [[[]|e] w1] eqn:Hw1; [|done].
  assert (Ht1 : files w1 !! tmp = Some (Regular "")).
  { apply syscall_inv in Hw1 as [(? & [=] & _)|Hw1].
    destruct (files w !! tmp); simplify_eq. rewrite Hw1. by rewrite lookup_insert_eq. }
  rewrite fs_bind_eq in Hrun. destruct (fs_write_all tmp text w1) as [[[]|e] w2] eqn:Hw2; [|done].
  apply fs_sync_files in Hrun as ->.
  apply fs_write_all_inv in Hw2 as [[_ ->]|(? & ? & [=] & _)]. by apply (append_bytes_same _ _ _ "").
Qed.

(** Putting it in place: the file is untouched or complete, and complete on success. *)
Lemma rename_temporary path tmp text w r w' :
  files w !! tmp = Some (Regular text) →
  (_ ← fs_rename tmp path; _ ← fs_sync; fs_sync) w = (r, w') →
  (files w' !! path = files w !! path ∨ files w' !! path = Some (Regular text)) ∧
  (r = Ok tt → files w' !! path = Some (Regular text)).
Proof.
  intros Ht. rewrite fs_bind_eq. destruct (fs_rename tmp path w) as [[[]|e] w1] eqn:Hw1.
  - assert (Hp : files w1 !! path = Some (Regular text)).
    { apply syscall_inv in Hw1 as [(? & [=] & _)|Hw1]. rewrite Ht in Hw1.
      injection Hw1 as ->. by rewrite lookup_insert_eq. }
    rewrite fs_bind_eq. destruct (fs_sync w1) as [[[]|e] w2] eqn:Hw2;
      apply fs_sync_files in Hw2; [intros Hw3%fs_sync_files; rewrite Hw3, Hw2, Hp; auto|].
    intros [= <- <-]. rewrite Hw2, Hp. auto.
  - intros [= <- <-]. split; [left|done].
    apply syscall_inv in Hw1 as [(? & _ & ->)|Hw1]; [done|]. rewrite Ht in Hw1. by injection Hw1.
Qed.

(** All of it, up to the clean-up after a failure. *)
Lemma replace_file path tmp text w r w' :
  path ≠ tmp →
  (_ ← fs_create_new tmp; _ ← fs_write_all tmp text; _ ← fs_sync; _ ← fs_rename tmp path;
   _ ← fs_sync; fs_sync) w = (r, w') →
  (files w' !! path = files w !! path ∨ files w' !! path = Some (Regular text)) ∧
  (r = Ok tt → files w' !! path = Some (Regular text)).
Proof.
  intros Hne. pose proof (write_temporary path tmp text w) as Hfill. revert Hfill.
  rewrite !fs_bind_eq. destruct (fs_create_new tmp w) as [[[]|e] w1];
    [|by intros Hfill [= <- <-]; destruct (Hfill _ _ Hne eq_refl) as [-> _]; split; [left|]].
  rewrite !fs_bind_eq. destruct (fs_write_all tmp text w1) as [[[]|e] w2];
    [|by intros Hfill [= <- <-]; destruct (Hfill _ _ Hne eq_refl) as [-> _]; split; [left|]].
  rewrite fs_bind_eq. destruct (fs_sync w2) as [[[]|e] w3];
    [|by intros Hfill [= <- <-]; destruct (Hfill _ _ Hne eq_refl) as [-> _]; split; [left|]].
  intros Hfill Hrest. destruct (Hfill _ _ Hne eq_refl) as [<- Htmp].
  by eapply rename_temporary; [apply Htmp|].
Qed.

Lemma save_to_file_inv st path uuid w r w' text :
  keys_to_string_pretty (saved_keys st) = Ok text → save_to_file st path uuid w = (r, w') →
  (files w' !! path = files w !! path ∨ files w' !! path = Some (Regular text)) ∧
  (r = Ok tt → files w' !! path = Some (Regular text)).
Proof.
  intros Htext. unfold save_to_file. rewrite Htext. simpl map_err. cbn iota beta zeta.
  pose proof (temporary_other path uuid) as Hne. set (tmp := temporary_name path uuid) in *.
  match goal with |- context [match ?run with pair _ _ => _ end] =>
    destruct run as [[[]|e] w1] eqn:Hrun end; apply replace_file in Hrun as [Hp Hok]; try done.
  - intros [= <- <-]. split; [done|intros _; by apply Hok].
  - destruct (fs_remove tmp w1) as [r2 w2] eqn:Hrm. intros [= <- <-].
    assert (files w2 !! path = files w1 !! path) as -> by by eapply keeps_remove. by split.
Qed.

Lemma read_keys_calm path m text :
  m !! path = Some (Regular text) → utf8_valid text = true →
  read_keys path (mkWorld m []) =
    ((parsed ← map_err (λ e, AuthOther ("parse: " +:+ e)) (keys_from_str text);
      collect_keys ∅ parsed), mkWorld m []).
Proof.
  intros Hm Hutf. unfold read_keys, fs_exists, fs_stat, fs_read_to_string, fs_read.
  rewrite !fs_bind_eq. unfold fs_try. rewrite syscall_calm. simpl. rewrite Hm. simpl.
  rewrite fs_bind_eq, syscall_calm. simpl. rewrite Hm. simpl. by rewrite Hutf.
Qed.

(** A save that returned [Ok] reads back. *)
Lemma saved_reads_back st path uuid w w' :
  store_ok st → save_to_file st path uuid w = (Ok tt, w') →
  load_from_file path (mkWorld (files w') []) = (Ok st, mkWorld (files w') []).
Proof.
  intros Hok Hsave. destruct (keys_text_total (saved_keys st)) as [text Htext].
  destruct (save_to_file_inv _ _ _ _ _ _ _ Htext Hsave) as [_ Hdone].
  unfold load_from_file, reload_from_file.
  rewrite (read_keys_calm _ _ text (Hdone eq_refl)) by by eapply keys_text_utf8.
  rewrite (keys_text_roundtrip _ _ (saved_wf _ Hok) Htext). simpl.
  by rewrite (collect_saved _ Hok).
Qed.

(** C16: saving keys is atomic and loses nothing.  Whatever storage calls fail, the key
    file holds either what it held before or the complete new list; and when the save
    returns [Ok], loading the file gives back exactly the store, for every store the
    operations can produce. *)
Theorem save_reload st path uuid w r w' :
  rtc service_step ∅ st → save_to_file st path uuid w = (r, w') →
  (files w' !! path = files w !! path ∨
   ∃ text, keys_to_string_pretty (saved_keys st) = Ok text ∧ files w' !! path = Some (Regular text)) ∧
  (r = Ok tt →
   load_from_file path (mkWorld (files w') []) = (Ok st, mkWorld (files w') [])).
Proof.
  intros Hok%service_reachable_ok Hsave. destruct (keys_text_total (saved_keys st)) as [text Htext].
  destruct (save_to_file_inv _ _ _ _ _ _ _ Htext Hsave) as [Hp _].
  split; [destruct Hp as [Hp|Hp]; [by left|right; by exists text]|].
  intros ->. by eapply saved_reads_back.
Qed.
End whole.

(** ** A store *)

Module Concrete.
Import Crypto.Concrete.

(** A reversible stand-in for Argon2. *)
#[export] Instance argon : Argon2 := {|
  PasswordHash := string;
  argon2_params := Ok tt;
  hash_password secret _ := Ok (hexenc secret);
  password_hash_new h := Ok h;
  verify_password secret p := bool_decide (hexenc secret = p);
  ph_algorithm _ := "argon2id";
  ph_version _ := Some 19;
  ph_has_salt _ := true;
  ph_has_hash _ := true;
  ph_decimal _ name :=
    if bool_decide (name = "m") then Some 65536
    else if bool_decide (name = "t") then Some 3 else Some 4 |}.
#[export] Instance argon_laws : Argon2Laws.
Proof.
  split; [done|]. intros secret salt h [= <-]. exists (hexenc secret).
  split_and!; try done. by apply bool_decide_eq_true.
Qed.

Definition identity_tuple (i : ApiKeyIdentity) := (subject_type i, subject_id i, key_tenant i).
Definition tuple_identity (t : string * string * option string) : ApiKeyIdentity :=
  let '(a, b, c) := t in mkApiKeyIdentity a b c.
#[export] Instance identity_countable : Countable ApiKeyIdentity.
Proof. apply (inj_countable' identity_tuple tuple_identity). by intros []. Defined.

Definition key_tuple (k : ApiKey) :=
  (key_id k, prefix k, secret_hash k, scopes k, identity k,
   (created_at k, expires_at k, last_used_at k, revoked_at k)).
Definition tuple_key
    (t : string * string * string * list string * option ApiKeyIdentity
         * (Z * option Z * option Z * option Z)) : ApiKey :=
  let '(a, b, c, d, e, (f, g, h, i)) := t in mkApiKey a b c d e f g h i.
#[export] Instance key_countable : Countable ApiKey.
Proof. apply (inj_countable' key_tuple tuple_key). by intros []. Defined.

#[export] Instance wf_key_dec k : Decision (wf_key k).
Proof.
  unfold wf_key, in_i64, opt_i64. destruct (expires_at k), (last_used_at k), (revoked_at k); apply _.
Defined.

#[export] Instance key_codec : ApiKeyCodec := {|
  keys_to_string_pretty ks := Ok (to_text ks);
  keys_from_str s :=
    match of_text s with
    | Some ks => if bool_decide (Forall wf_key ks) then Ok ks else Err "out of range"
    | None => Err "invalid JSON"
    end |}.
#[export] Instance key_codec_laws : ApiKeyCodecLaws.
Proof.
  split; cbn -[of_text to_text].
  - eauto.
  - intros ks t Hwf [= <-]. rewrite of_to_text_nil. by rewrite bool_decide_eq_true_2.
  - intros t ks. destruct (of_text t) as [ks'|]; [|done]. case_bool_decide; [|done]. by intros [= <-].
  - intros ks t [= <-]. apply text_utf8.
Qed.
End Concrete.
Import Crypto.Concrete Concrete.

Definition one_key := create_bound ∅ "ag_live" ["authorize"] (Some 3600)
  (mkApiKeyIdentity "User" " alice " None) "uuid-1" "secret" "salt" 1000.
Definition one_store : ApiKeyStore := one_key.2.
Definition alice_key : ApiKey :=
  mkApiKey "uuid-1" "ag_live" (hexenc "secret") ["authorize"]
    (Some (mkApiKeyIdentity "User" "alice" None)) 1000 (Some 4600) None None.
Definition alice_text : string := "ag_live:uuid-1:" +:+ enc "secret".

(** The witness of [created_key_verifies]: good until 4600. *)
Example created_key_verifies_witness :
  apikey_verify one_store alice_text 4599 = Ok alice_key ∧
  apikey_verify one_store alice_text 4600 = Err ApiKeyExpired.
Proof.
  destruct (created_key_verifies ∅ "ag_live" ["authorize"] (Some 3600)
              (Some (mkApiKeyIdentity "User" "alice" None)) "uuid-1" "secret" "salt" 1000
              alice_key alice_text one_store) as (_ & Hv & _).
  - vm_compute. reflexivity.
  - reflexivity.
  - split; [exact (Hv 4599)|exact (Hv 4600)].
Defined.

Lemma one_store_reachable : rtc service_step ∅ one_store.
Proof.
  apply rtc_once, sv_step.
  apply (ss_create_bound ∅ "ag_live" ["authorize"] (Some 3600)
           (mkApiKeyIdentity "User" " alice " None) "uuid-1" "secret" "salt" 1000).
  - reflexivity.
  - vm_compute. reflexivity.
  - unfold_ints. lia.
Qed.

Definition two_store : ApiKeyStore :=
  (create (apikey_revoke one_store "uuid-1" 2000).2 "ag_live" ["read"] None "uuid-2" "other" "salt"
     2001).2.

(** The witness of [revoked_key_refused]: a key created after the revocation is another. *)
Example revoked_key_refused_witness :
  ∃ k, apikey_verify two_store ("ag_live:uuid-2:" +:+ enc "other") 3000 = Ok k ∧
       key_id k ≠ "uuid-1".
Proof.
  eexists. split; [vm_compute; reflexivity|].
  apply (revoked_key_refused one_store "uuid-1" 2000 (apikey_revoke one_store "uuid-1" 2000).2
           two_store ("ag_live:uuid-2:" +:+ enc "other") 3000).
  - apply one_store_reachable.
  - unfold_ints. lia.
  - vm_compute. reflexivity.
  - apply rtc_once. apply ss_create.
    + vm_compute. reflexivity.
    + vm_compute. reflexivity.
    + unfold_ints. lia.
  - vm_compute. reflexivity.
Defined.

(** The witness of [save_reload]. *)
Example save_reload_witness :
  load_from_file "keys.json" (mkWorld (files (save_to_file one_store "keys.json" "u" (mkWorld ∅ [])).2) [])
  = (Ok one_store, mkWorld (files (save_to_file one_store "keys.json" "u" (mkWorld ∅ [])).2) []).
Proof.
  destruct (save_reload one_store "keys.json" "u" (mkWorld ∅ [])
              (save_to_file one_store "keys.json" "u" (mkWorld ∅ [])).1
              (save_to_file one_store "keys.json" "u" (mkWorld ∅ [])).2) as [_ Hload].
  - apply one_store_reachable.
  - by destruct (save_to_file one_store "keys.json" "u" (mkWorld ∅ [])).
  - apply Hload. vm_compute. reflexivity.
Defined.
