(* ===== verification/AuditLog.v ===== *)
(** * The decision log ([agentguard-core/src/decision/log.rs])

    [DecisionLog]: an append-only JSONL file, optionally chained by HMAC, with size
    rotation and a sidecar file that holds the chain id.  A log object is passed
    explicitly next to the directory it writes to; the mutexes serialise the
    operations.  Fresh uuids and the rotation timestamp are arguments. *)

From S2P Require Import Prelude Json CoreError Crypto Trace Request DecisionRecord HashChain Canonical AuditFs.

(** ** Configuration *)

Record RotationConfig : Type := mkRotationConfig { max_bytes : Z }.

Definition rotation_parse (value : string) : result string RotationConfig :=
  match parse_unsigned u64_max value with
  | Some n => if 0 <? n then Ok (mkRotationConfig n) else Err "must be a positive integer when set"
  | None => Err "must be a positive integer when set"
  end.

(** [std::env::var]: the value, unset, or not Unicode. *)
Inductive env_var : Type := EnvValue (v : string) | EnvNotPresent | EnvNotUnicode.

Definition rotation_try_from_env (v : env_var) : result string (option RotationConfig) :=
  match v with
  | EnvValue v => Some <$> rotation_parse v
  | EnvNotPresent => Ok None
  | EnvNotUnicode => Err "must be valid Unicode"
  end.

Definition rotation_from_env (v : env_var) : option RotationConfig :=
  default None (to_ok (rotation_try_from_env v)).

(** ** State *)

(** The handle of the active file, [None] after a storage failure. *)
Inductive LogMode : Type :=
| Plain (open : bool)
| Chained (open : bool) (chain : HashChain).

Record DecisionLog : Type := mkDecisionLog {
  mode : LogMode;
  path : string;
  rotation : option RotationConfig;
}.

Definition is_healthy (l : DecisionLog) : bool :=
  match mode l with Plain o => o | Chained o _ => o end.

Definition set_handle (l : DecisionLog) (o : bool) : DecisionLog :=
  mkDecisionLog (match mode l with Plain _ => Plain o | Chained _ c => Chained o c end)
    (path l) (rotation l).

Definition set_chain (l : DecisionLog) (c : HashChain) : DecisionLog :=
  mkDecisionLog (match mode l with Plain o => Plain o | Chained o _ => Chained o c end)
    (path l) (rotation l).

Record ChainedRecord : Type := mkChainedRecord {
  prev_hash : string;
  record_hash : string;
  c_chain_id : ChainId;
  c_record : DecisionRecord;
}.

(** The derived readers; [rfc3339] says which texts [chrono] reads as a time. *)
Class RecordCodec := {
  record_from_str : string → result string DecisionRecord;
  chained_from_str : string → result string ChainedRecord;
  rfc3339 : string → bool;
}.

(** The ids inside a record have their length, and the timestamp is a time. *)
Definition wf_record `{RecordCodec} (r : DecisionRecord) : Prop :=
  rfc3339 (r_timestamp r) = true ∧
  (∀ t, r_trace_id r = Some t → len t = TRACE_ID_LEN) ∧
  (∀ s, r_span_id r = Some s → len s = SPAN_ID_LEN).

(** ** File names *)

(** [Path::file_stem] and [Path::extension] of a file name: cut at the last dot, unless
    that is the first character. *)
Definition rsplit_dot (name : string) : string * option string :=
  match split_once "." (str_rev name) with
  | Some (e, s) => if bool_decide (s = "") then (name, None) else (str_rev s, Some (str_rev e))
  | None => (name, None)
  end.
Definition file_stem (name : string) : string := (rsplit_dot name).1.
Definition extension (name : string) : option string := (rsplit_dot name).2.

Definition chain_id_sidecar_path (log_name : string) : string := "." +:+ log_name +:+ ".chainid".

Definition is_ascii_digit (c : ascii) : bool := bool_decide (is_Some (digit_of c)).

(** The timestamp part: [YYYYmmddTHHMMSSffffffZ]. *)
Definition is_rotation_timestamp (ts : string) : bool :=
  let b := String.list_ascii_of_string ts in
  bool_decide (length b = 22%nat)
  && bool_decide (b !! 8%nat = Some "T"%char) && bool_decide (b !! 21%nat = Some "Z"%char)
  && forallb (λ ib, bool_decide (ib.1 = 8%nat) || bool_decide (ib.1 = 21%nat) || is_ascii_digit ib.2)
       (imap pair b).

Definition is_rotation_filename (suffix : string) : bool :=
  let ts := match split_once "-" suffix with Some (t, _) => t | None => suffix end in
  is_rotation_timestamp ts
  && match split_once "-" suffix with
     | None => true
     | Some (_, collision) =>
         match parse_unsigned u32_max collision with Some n => 0 <? n | None => false end
     end.

Definition rotation_order (name prefix : string) : string * Z :=
  let suffix := default "" (strip_prefix prefix (file_stem name)) in
  match split_once "-" suffix with
  | Some (ts, collision) => (ts, default 0 (parse_unsigned u32_max collision))
  | None => (suffix, 0)
  end.

(** The order of [sort_by_key] on [(String, u32)]. *)
Definition order_le (a b : string * Z) : bool :=
  if bool_decide (a.1 = b.1) then (a.2 <=? b.2) else str_leb a.1 b.1.

Definition rotation_le (prefix a b : string) : Prop :=
  order_le (rotation_order a prefix) (rotation_order b prefix) = true.
#[export] Instance rotation_le_dec prefix a b : base.Decision (rotation_le prefix a b).
Proof. unfold rotation_le. apply _. Defined.

Definition is_rotated_log (log_name : string) (entry_of : string * entry) : bool :=
  let '(name, e) := entry_of in
  let prefix := file_stem log_name +:+ "-" in
  match strip_prefix prefix (file_stem name) with
  | Some suffix => is_rotation_filename suffix
  | None => false
  end
  && bool_decide (extension name = Some (default "jsonl" (extension log_name)))
  && match e with Regular _ => true | Special => false end.

Definition rotated_logs (log_name : string) : fs (list string) :=
  entries ← fs_read_dir;
  let candidates := (filter (λ e, is_rotated_log log_name e = true) entries).*1 in
  mret (merge_sort (rotation_le (file_stem log_name +:+ "-")) candidates).

Definition latest_rotated_log (log_name : string) : fs (option string) :=
  logs ← rotated_logs log_name; mret (last logs).

(** ** Opening files *)

Section log.
Variable dir : string.
Definition display (name : string) : string := dir +:+ "/" +:+ name.

Definition validate_audit_path (name : string) : fs unit :=
  r ← fs_try (fs_stat name);
  match r with
  | Ok (Regular _) => mret tt
  | Ok Special =>
      fs_throw (IoFail ("audit path must be a regular file, not a symlink or special file: "
                        +:+ display name))
  | Err NotFound => mret tt
  | Err e => fs_throw e
  end.

(** The [is_file] check on the open descriptor. *)
Definition require_regular (name : string) : fs unit :=
  r ← fs_stat name;
  match r with
  | Regular _ => mret tt
  | Special => fs_throw (IoFail ("audit path must be a regular file: " +:+ display name))
  end.

Definition open_existing_audit_file (name : string) : fs bytes :=
  _ ← validate_audit_path name;
  c ← fs_read name;
  _ ← require_regular name;
  mret c.

Definition open_audit_file (name : string) : fs unit :=
  _ ← validate_audit_path name;
  _ ← fs_open_append name;
  _ ← require_regular name;
  fs_sync.

(** Append one complete line; on failure truncate back to where it began. *)
Definition write_line_durably (name : string) (line : bytes) : fs unit :=
  original_len ← fs_len name;
  r ← fs_try (_ ← fs_write_all name line; fs_sync);
  match r with
  | Ok _ => mret tt
  | Err write_error =>
      r ← fs_try (_ ← fs_set_len name original_len; fs_sync);
      match r with
      | Ok _ => fs_throw write_error
      | Err rollback_error =>
          fs_throw (IoFail ("audit append failed (" +:+ io_display write_error
                            +:+ "); rollback failed (" +:+ io_display rollback_error +:+ ")"))
      end
  end.

Context `{JsonText, Hex, Hmac, UuidText, JsonScalars, RecordCodec}.

(** ** The chain id sidecar *)

Definition read_chain_id_sidecar (name : string) : fs (option ChainId) :=
  r ← fs_try (fs_read_to_string name);
  mret (match r with
        | Ok text => to_ok (uuid_parse (trim text))
        | Err _ => None
        end).

(** [uuid] names the temporary file. *)
Definition write_chain_id_sidecar (name : string) (id : ChainId) (uuid : string) : fs unit :=
  let tmp := "." +:+ name +:+ "." +:+ uuid +:+ ".new" in
  _ ← fs_create_new tmp;
  _ ← fs_write_all tmp (uuid_display id +:+ String newline "");
  _ ← fs_sync;
  r ← fs_try (fs_rename tmp name);
  match r with
  | Ok _ => fs_sync
  | Err e => _ ← fs_try (fs_remove tmp); fs_throw e
  end.

(** ** Core errors *)

(** The operations of the log: an error, or a value; and the directory. *)
Definition logm (A : Type) : Type := world → cresult A * world.
#[export] Instance logm_ret : MRet logm := λ A a w, (Ok a, w).
#[export] Instance logm_bind : MBind logm := λ A B k m w,
  match m w with
  | (Ok a, w) => k a w
  | (Err e, w) => (Err e, w)
  end.
Definition throw {A} (e : Error) : logm A := λ w, (Err e, w).

(** [.map_err(f)?] on an I/O result; [?] alone is [Error::from]. *)
Definition lift_with {A} (f : IoError → Error) (m : fs A) : logm A :=
  λ w, let '(r, w) := m w in (map_err f r, w).
Definition io_err (e : IoError) : Error := Io (io_display e).
Definition lift {A} (m : fs A) : logm A := lift_with io_err m.
Definition lift_result {A} (r : cresult A) : logm A := λ w, (r, w).

Definition copy_chain_id_sidecar (active rotated : string) (required : bool) (uuid : string) :
    logm unit :=
  r ← lift (fs_try (fs_stat active));
  match r with
  | Ok (Regular _) =>
      id ← lift (read_chain_id_sidecar active);
      match id with
      | None => throw (Io ("chain identity sidecar is invalid: " +:+ display active))
      | Some id =>
          lift_with (λ e, Io ("persist rotated chain identity sidecar " +:+ display rotated
                              +:+ ": " +:+ io_display e))
            (write_chain_id_sidecar rotated id uuid)
      end
  | Ok Special =>
      throw (Io ("chain identity sidecar must be a regular file: " +:+ display active))
  | Err NotFound =>
      if required then
        throw (Io ("required chain identity sidecar is missing: " +:+ display active))
      else mret tt
  | Err e =>
      throw (Io ("inspect chain identity sidecar " +:+ display active +:+ ": " +:+ io_display e))
  end.

(** ** Records on disk *)

(** [canonical_json(rec)]: serialising a record never fails. *)
Definition canonical_record (r : DecisionRecord) : bytes :=
  write_canonical_value (record_to_value r).

Definition chained_to_value (c : ChainedRecord) : Value :=
  VObject ([("prev_hash", VString (prev_hash c)); ("record_hash", VString (record_hash c));
            ("chain_id", VString (uuid_display (c_chain_id c)))]
           ++ record_members (c_record c)).

Definition plain_line (r : DecisionRecord) : bytes :=
  json_to_vec (record_to_value r) +:+ String newline "".
Definition chained_line (c : ChainedRecord) : bytes :=
  json_to_vec (chained_to_value c) +:+ String newline "".

Definition parse_hex32 (s : string) : cresult bytes :=
  b ← map_err (λ e, Other ("hex: " +:+ e)) (hex_decode s);
  _ ← bail_if (negb (len b =? Z.of_nat HASH_LEN))
        (Other ("expected 32 bytes, got " +:+ pretty (len b)));
  Ok b.

(** [BufRead::lines]: the line without its ["\n"] or ["\r\n"]; an error when it is not
    UTF-8. *)
Definition strip_line_end (line : bytes) : bytes :=
  match strip_prefix (String newline "") (str_rev line) with
  | Some r => str_rev (default r (strip_prefix (String (ascii_of_nat 13) "") r))
  | None => line
  end.
Definition utf8_line (line : bytes) : cresult string :=
  let line := strip_line_end line in
  if utf8_valid line then Ok line else Err (Io "stream did not contain valid UTF-8").

(** ** Verification *)

Record verify_state : Type := mkVerifyState {
  vs_chain_id : option ChainId;
  vs_prev : bytes;
  vs_number : Z;
}.
Definition verify_init : verify_state := mkVerifyState None zero_hash 0.

(** One line of [verify_chain_paths]. *)
Definition verify_line (root_key : bytes) (name : string) (line_number : Z) (line : bytes)
    (st : verify_state) : cresult verify_state :=
  line ← utf8_line line;
  if is_blank line then Ok st
  else
    record ← map_err (λ e, Json (display name +:+ " line " +:+ pretty (line_number + 1) +:+ ": "
                                 +:+ e)) (chained_from_str line);
    _ ← match vs_chain_id st with
        | Some expected =>
            bail_if (bool_decide (c_chain_id record ≠ expected))
              (Other ("chain id mismatch in " +:+ display name +:+ ": expected "
                      +:+ uuid_display expected +:+ ", got " +:+ uuid_display (c_chain_id record)))
        | None => Ok tt
        end;
    let canonical := canonical_record (c_record record) in
    prev ← parse_hex32 (prev_hash record);
    hash ← parse_hex32 (record_hash record);
    _ ← bail_if (bool_decide (prev ≠ vs_prev st))
          (Other ("record " +:+ pretty (vs_number st) +:+ ": prev_hash mismatch: expected "
                  +:+ hex_encode (vs_prev st) +:+ ", got " +:+ hex_encode prev));
    _ ← map_err (λ e, Other ("record " +:+ pretty (vs_number st) +:+ ": " +:+ error_display e))
          (chain_verify (chain_new root_key) canonical prev hash);
    Ok (mkVerifyState (Some (c_chain_id record)) hash (vs_number st + 1)).

Fixpoint verify_lines (root_key : bytes) (name : string) (line_number : Z) (lines : list bytes)
    (st : verify_state) : cresult verify_state :=
  match lines with
  | [] => Ok st
  | l :: ls =>
      st ← verify_line root_key name line_number l st;
      verify_lines root_key name (line_number + 1) ls st
  end.

Fixpoint verify_files (root_key : bytes) (names : list string) (st : verify_state) :
    logm verify_state :=
  match names with
  | [] => mret st
  | n :: ns =>
      content ← lift (open_existing_audit_file n);
      st ← lift_result (verify_lines root_key n 0 (read_lines content) st);
      verify_files root_key ns st
  end.

(** [fresh]: the id of a log that has no record. *)
Definition verify_chain_paths (names : list string) (root_key : bytes) (fresh : ChainId) :
    logm ChainId :=
  st ← verify_files root_key names verify_init;
  mret (default fresh (vs_chain_id st)).

Definition log_verify_chain (name : string) (root_key : bytes) (fresh : ChainId) : logm ChainId :=
  logs ← lift (rotated_logs name);
  verify_chain_paths (logs ++ [name]) root_key fresh.
(** ** Reading *)

Fixpoint read_chained_lines (lines : list bytes) : cresult (list ChainedRecord) :=
  match lines with
  | [] => Ok []
  | l :: ls =>
      line ← utf8_line l;
      if is_blank line then read_chained_lines ls
      else
        rec ← map_err Json (chained_from_str line);
        rest ← read_chained_lines ls; Ok (rec :: rest)
  end.

Definition read_all_chained (name : string) : logm (list ChainedRecord) :=
  content ← lift (open_existing_audit_file name);
  lift_result (read_chained_lines (read_lines content)).

(** A line of either format; the plain reader is tried first. *)
Definition read_mixed_line (name : string) (idx : Z) (line : string) : cresult DecisionRecord :=
  match record_from_str line with
  | Ok r => Ok r
  | Err plain_err =>
      match chained_from_str line with
      | Ok chained => Ok (c_record chained)
      | Err chained_err =>
          Err (Json (display name +:+ " line " +:+ pretty (idx + 1)
                     +:+ ": not a DecisionRecord (" +:+ plain_err
                     +:+ "); also not a ChainedRecord (" +:+ chained_err +:+ ")"))
      end
  end.

Fixpoint read_mixed_lines (name : string) (idx : Z) (lines : list bytes) :
    cresult (list DecisionRecord) :=
  match lines with
  | [] => Ok []
  | l :: ls =>
      line ← utf8_line l;
      if is_blank line then read_mixed_lines name (idx + 1) ls
      else
        rec ← read_mixed_line name idx line;
        rest ← read_mixed_lines name (idx + 1) ls; Ok (rec :: rest)
  end.

Fixpoint read_all_mixed_paths (names : list string) : logm (list DecisionRecord) :=
  match names with
  | [] => mret []
  | n :: ns =>
      content ← lift (open_existing_audit_file n);
      recs ← lift_result (read_mixed_lines n 0 (read_lines content));
      rest ← read_all_mixed_paths ns; mret (recs ++ rest)
  end.

Definition read_all (name : string) : logm (list DecisionRecord) :=
  logs ← lift (rotated_logs name);
  read_all_mixed_paths (logs ++ [name]).

(** ** Opening *)

(** What [load_head_from_file] sees of a file. *)
Definition file_for_head (name : string) : fs (result string (option bytes)) :=
  r ← fs_try (fs_read name);
  mret (match r with
        | Ok c => Ok (Some c)
        | Err NotFound => Ok None
        | Err e => Err (io_display e)
        end).

(** [std::fs::metadata(&path).map(|m| m.len() == 0).unwrap_or(true)] *)
Definition is_empty_file (name : string) : fs bool :=
  r ← fs_try (fs_read name);
  mret (match r with Ok c => bool_decide (c = "") | Err _ => true end).

(** [fresh] is the id drawn when the log has none, [uuid] names the temporary file. *)
Definition open_internal (name : string) (root_key : option bytes)
    (rot : option RotationConfig) (fresh : ChainId) (uuid : string) : logm DecisionLog :=
  _ ← lift fs_sync;
  _ ← lift (open_audit_file name);
  match root_key with
  | None => mret (mkDecisionLog (Plain true) name rot)
  | Some k =>
      persisted ← lift (rotated_logs name);
      _ ← (λ w, let '(r, w) := verify_chain_paths (persisted ++ [name]) k fresh w in
             (map_err (λ e, Other ("refusing to open invalid chained audit log " +:+ display name
                                   +:+ ": " +:+ error_display e)) r, w));
      empty ← lift (is_empty_file name);
      head_path ← (if empty : bool then
                     r ← lift (latest_rotated_log name); mret (default name r)
                   else mret name);
      file ← lift (file_for_head head_path);
      chain ← lift_result (map_err (λ e, Other ("refusing to open corrupt chained audit log "
                 +:+ display head_path +:+ ": " +:+ load_error_display e.1))
                (load_head_from_file (chain_new k) file));
      id ← lift (read_chain_id_sidecar (chain_id_sidecar_path head_path));
      chain ← match id with
              | Some id => mret (adopt_id chain id)
              | None =>
                  let '(id, chain) := get_id chain fresh in
                  _ ← lift_with (λ e, Io ("persist audit chain id "
                         +:+ display (chain_id_sidecar_path name) +:+ ": " +:+ io_display e))
                        (write_chain_id_sidecar (chain_id_sidecar_path name) id uuid);
                  mret chain
              end;
      mret (mkDecisionLog (Chained true chain) name rot)
  end.

(** ** Rotation *)

Definition rotated_name (name ts : string) (suffix : option Z) : string :=
  file_stem name +:+ "-" +:+ ts
  +:+ match suffix with Some n => "-" +:+ pretty n | None => "" end
  +:+ "." +:+ default "jsonl" (extension name).

(** The [while rotated.exists()] loop.  Every round tries another name, so one more
    round than there are files is enough. *)
Fixpoint free_rotated_name (fuel : nat) (name ts : string) (candidate : string) (suffix : Z) :
    fs string :=
  match fuel with
  | O => mret candidate
  | S fuel =>
      taken ← fs_exists candidate;
      if taken : bool then
        free_rotated_name fuel name ts (rotated_name name ts (Some suffix))
          (Z.min u32_max (suffix + 1))
      else mret candidate
  end.

Definition reopen_rotated (l : DecisionLog) (rotated uuid : string) : logm unit :=
  let require := match mode l with Chained _ _ => true | Plain _ => false end in
  _ ← copy_chain_id_sidecar (chain_id_sidecar_path (path l)) (chain_id_sidecar_path rotated)
        require uuid;
  _ ← lift_with (λ e, Io ("rotate " +:+ display (path l) +:+ " -> " +:+ display rotated +:+ ": "
                          +:+ io_display e)) (fs_rename (path l) rotated);
  lift (open_audit_file (path l)).

(** Operations on a log object: it is updated also when they fail. *)
Definition logop (A : Type) : Type := DecisionLog → world → cresult A * (DecisionLog * world).

Definition rotate_inner (ts uuid : string) : logop unit := λ l w,
  let fuel := S (size (files w)) in
  match free_rotated_name fuel (path l) ts (rotated_name (path l) ts None) 1 w with
  | (Err e, w) => (Err (io_err e), (l, w))
  | (Ok rotated, w) =>
      let closed := set_handle l false in
      match reopen_rotated l rotated uuid w with
      | (Err e, w) => (Err e, (closed, w))
      | (Ok _, w) =>
          match mode l with
          | Plain _ => (Ok tt, (set_handle l true, w))
          | Chained _ chain =>
              match lift (file_for_head rotated) w with
              | (Err e, w) => (Err e, (closed, w))
              | (Ok file, w) =>
                  match load_head_from_file chain file with
                  | Err (e, chain) =>
                      (Err (Io ("reload chain after rotate: " +:+ load_error_display e)), (set_chain closed chain, w))
                  | Ok chain =>
                      match lift (read_chain_id_sidecar (chain_id_sidecar_path rotated)) w with
                      | (Err e, w) => (Err e, (closed, w))
                      | (Ok id, w) =>
                          let chain := match id with Some id => adopt_id chain id | None => chain end in
                          (Ok tt, (set_handle (set_chain l chain) true, w))
                      end
                  end
              end
          end
      end
  end.

Definition rotate (ts uuid : string) : logop unit := rotate_inner ts uuid.

Definition rotate_if_needed (ts uuid : string) : logop unit := λ l w,
  match rotation l with
  | None => (Ok tt, (l, w))
  | Some r =>
      let '(size, w) := fs_try (fs_len (path l)) w in
      let size := match size with Ok (Ok n) => Z.of_nat n | _ => 0 end in
      if size <? max_bytes r then (Ok tt, (l, w)) else rotate_inner ts uuid l w
  end.

(** ** Appending *)

Definition unavailable : Error := Io "audit log is unavailable after a prior storage failure".

(** The two file writes of a chained append, before the record itself. *)
Definition ensure_sidecar (name : string) (id : ChainId) (uuid : string) : fs unit :=
  on_disk ← read_chain_id_sidecar (chain_id_sidecar_path name);
  if bool_decide (on_disk = Some id) then mret tt
  else write_chain_id_sidecar (chain_id_sidecar_path name) id uuid.

Definition append_chained (rec : DecisionRecord) (fresh : ChainId) (uuid : string)
    (open : bool) (chain : HashChain) : logop unit := λ l w,
  let '(id, chain) := get_id chain fresh in
  let l := set_chain l chain in
  match ensure_sidecar (path l) id uuid w with
  | (Err e, w) =>
      (Err (Io ("persist audit chain id " +:+ display (chain_id_sidecar_path (path l)) +:+ ": "
                +:+ io_display e)), (set_handle l false, w))
  | (Ok _, w) =>
      if negb open then (Err unavailable, (l, w))
      else
        let persist := λ prev new_hash,
          write_line_durably (path l)
            (chained_line (mkChainedRecord (hex_encode prev) (hex_encode new_hash) id rec)) in
        match try_append_with_io chain (canonical_record rec) persist w with
        | (Ok _, (chain, w)) => (Ok tt, (set_chain l chain, w))
        | (Err e, (chain, w)) => (Err (io_err e), (set_handle (set_chain l chain) false, w))
        end
  end.

Definition append_plain (rec : DecisionRecord) (open : bool) : logop unit := λ l w,
  if negb open then (Err unavailable, (l, w))
  else
    match write_line_durably (path l) (plain_line rec) w with
    | (Ok _, w) => (Ok tt, (l, w))
    | (Err e, w) => (Err (io_err e), (set_handle l false, w))
    end.

(** [ts] and [uuid'] are used when the append rotates first. *)
Definition log_append (rec : DecisionRecord) (fresh : ChainId) (ts uuid' uuid : string) :
    logop unit := λ l w,
  match rotate_if_needed ts uuid' l w with
  | (Err e, (l, w)) => (Err e, (l, w))
  | (Ok _, (l, w)) =>
      match mode l with
      | Plain open => append_plain rec open l w
      | Chained open chain => append_chained rec fresh uuid open chain l w
      end
  end.
(** ** Writes *)

Lemma substring_all s : String.substring 0 (String.length s) s = s.
Proof. rewrite <-(string_app_nil_r s) at 2. apply substring_prefix. Qed.

Lemma write_and_sync_inv name line w r w' c :
  files w !! name = Some (Regular c) →
  (fs_write_all name line ≫= λ _, fs_sync) w = (r, w') →
  ∃ n, files w' !! name = Some (Regular (c +:+ String.substring 0 n line)) ∧
    (is_ok r = true → n = String.length line).
Proof.
  intros Hc. rewrite fs_bind_eq. destruct (fs_write_all name line w) as [r1 w1] eqn:Hw.
  apply fs_write_all_inv in Hw as [[-> Hf]|(e & n & -> & Hf)].
  - intros Hs. exists (String.length line). split; [|done].
    rewrite (keeps_sync name _ _ _ Hs), Hf, substring_all. by apply append_bytes_same.
  - intros [= <- <-]. exists n. rewrite Hf. split; [by apply append_bytes_same|done].
Qed.

Lemma rollback_inv name w r w' c rest :
  files w !! name = Some (Regular (c +:+ rest)) →
  (fs_set_len name (String.length c) ≫= λ _, fs_sync) w = (r, w') →
  files w' !! name = Some (Regular c) ∨
  files w' !! name = Some (Regular (c +:+ rest)) ∧ is_ok r = false.
Proof.
  intros Hc. rewrite fs_bind_eq.
  destruct (fs_set_len name (String.length c) w) as [r1 w1] eqn:Hw.
  apply syscall_inv in Hw as [(e & -> & Hf)|[= -> Hf]].
  - intros [= <- <-]. right. by rewrite Hf.
  - intros Hs. left. rewrite (keeps_sync name _ _ _ Hs), Hf, Hc, lookup_insert_eq.
    by rewrite substring_prefix.
Qed.

(** The error of a write that could not be undone. *)
Definition rollback_failed (e : IoError) : Prop :=
  ∃ write_error rollback_error, e = IoFail ("audit append failed (" +:+ io_display write_error
    +:+ "); rollback failed (" +:+ io_display rollback_error +:+ ")").

(** A durable write adds the line or fails; when it fails, it has put the file back, or
    says that it could not and left a prefix of the line. *)
Lemma write_line_durably_inv name line w r w' c :
  files w !! name = Some (Regular c) → write_line_durably name line w = (r, w') →
  ∃ n, files w' !! name = Some (Regular (c +:+ String.substring 0 n line)) ∧
    match r with Ok _ => n = String.length line | Err e => n = O ∨ rollback_failed e end.
Proof.
  intros Hc. unfold write_line_durably. rewrite fs_bind_eq.
  destruct (fs_len name w) as [r0 w0] eqn:Hlen. pose proof (keeps_len name _ _ _ _ Hlen) as Hf0.
  apply syscall_inv in Hlen as [(e & -> & _)|[= -> _]].
  { intros [= <- <-]. exists 0%nat. rewrite Hf0, Hc. split; [|by left].
    destruct line; by rewrite string_app_nil_r. }
  rewrite Hc, fs_bind_eq. unfold fs_try at 1. rewrite Hc in Hf0.
  destruct ((fs_write_all name line ≫= λ _, fs_sync) w0) as [r1 w1] eqn:Hw.
  destruct (write_and_sync_inv _ _ _ _ _ _ Hf0 Hw) as (n & Hf1 & Hn).
  destruct r1 as [[]|we]. { intros [= <- <-]. exists n. auto. }
  rewrite fs_bind_eq. unfold fs_try at 1.
  destruct ((fs_set_len name (String.length c) ≫= λ _, fs_sync) w1) as [r2 w2] eqn:Hr.
  apply (rollback_inv _ _ _ _ _ _ Hf1) in Hr as Hf2.
  destruct Hf2 as [Hf2|[Hf2 Hbad]].
  - intros Hout. exists 0%nat. assert (w' = w2) as -> by (destruct r2; by injection Hout as <- <-).
    rewrite Hf2. split; [destruct line; by rewrite string_app_nil_r|].
    destruct r2; inversion Hout; by left.
  - destruct r2 as [|re]; [done|]. intros [= <- <-]. exists n. rewrite Hf2. split; [done|].
    right. by exists we, re.
Qed.
Lemma logm_bind_eq {A B} (m : logm A) (k : A → logm B) w :
  (m ≫= k) w = match m w with (Ok a, w) => k a w | (Err e, w) => (Err e, w) end.
Proof. done. Qed.

(** A log operation that does not touch the named file. *)
Definition log_keeps (name : string) {A} (m : logm A) : Prop :=
  ∀ w r w', m w = (r, w') → files w' !! name = files w !! name.

Lemma log_keeps_lift name {A} (f : IoError → Error) (m : fs A) : keeps name m → log_keeps name (lift_with f m).
Proof.
  intros Hm w r w'. unfold lift_with. destruct (m w) as [r1 w1] eqn:Hr. intros [= <- <-]. by eapply Hm.
Qed.
Lemma log_keeps_result name {A} (r : cresult A) : log_keeps name (lift_result r).
Proof. intros w r' w'. by intros [= <- <-]. Qed.
Lemma log_keeps_ret name {A} (a : A) : log_keeps name (mret a).
Proof. intros w r' w'. by intros [= <- <-]. Qed.
Lemma log_keeps_bind name {A B} (m : logm A) (k : A → logm B) :
  log_keeps name m → (∀ a, log_keeps name (k a)) → log_keeps name (m ≫= k).
Proof.
  intros Hm Hk w r w'. rewrite logm_bind_eq. destruct (m w) as [[a|e] w1] eqn:Hw; intros Hr.
  - rewrite (Hk _ _ _ _ Hr). by eapply Hm.
  - injection Hr as <- <-. by eapply Hm.
Qed.

(** ** Appending to a chained log *)

(** The lines of [rs], chained from [prev]. *)
Fixpoint rendered (k : bytes) (id : ChainId) (prev : bytes) (rs : list DecisionRecord) : bytes :=
  match rs with
  | [] => ""
  | r :: rs =>
      let h := compute k prev (canonical_record r) in
      chained_line (mkChainedRecord (hex_encode prev) (hex_encode h) id r) +:+ rendered k id h rs
  end.

Definition log_head (k prev : bytes) (rs : list DecisionRecord) : bytes :=
  head_from k prev (canonical_record <$> rs).

(** The line that the next append writes. *)
Definition next_line (k : bytes) (id : ChainId) (prev : bytes) (rs : list DecisionRecord)
    (r : DecisionRecord) : bytes :=
  let h := log_head k prev rs in
  chained_line (mkChainedRecord (hex_encode h) (hex_encode (compute k h (canonical_record r))) id r).

Lemma rendered_snoc k id prev rs r :
  rendered k id prev (rs ++ [r]) = rendered k id prev rs +:+ next_line k id prev rs r.
Proof.
  revert prev. induction rs as [|q rs IH]; intros prev; simpl; [by rewrite string_app_nil_r|].
  by rewrite IH, <-string_app_assoc.
Qed.

Lemma log_head_snoc k prev rs r :
  log_head k prev (rs ++ [r]) = compute k (log_head k prev rs) (canonical_record r).
Proof. unfold log_head. rewrite fmap_app. apply head_from_snoc. Qed.

(** A log object that does not rotate and its file hold the chain of [rs], and after it
    [torn], which is empty while the log is healthy. *)
Record holds (k : bytes) (id : ChainId) (prev : bytes) (l : DecisionLog) (w : world)
    (rs : list DecisionRecord) (torn : bytes) : Prop := {
  h_rotation : rotation l = None;
  h_mode : ∃ c, mode l = Chained (is_healthy l) c ∧ root c = k ∧ chain_id c = Some id
                ∧ head c = log_head k prev rs;
  h_file : files w !! path l = Some (Regular (rendered k id prev rs +:+ torn));
  h_torn : is_healthy l = true → torn = "";
}.

(** What the append of [rec] leaves when it cannot undo its write, and says so. *)
Definition torn_by (k : bytes) (id : ChainId) (prev : bytes) (rs : list DecisionRecord)
    (rec : DecisionRecord) (r : cresult unit) (torn : bytes) : Prop :=
  ∃ n e, torn = String.substring 0 n (next_line k id prev rs rec) ∧ r = Err (io_err e)
    ∧ rollback_failed e.

Lemma string_neq_length (a b : string) : String.length a ≠ String.length b → a ≠ b.
Proof. congruence. Qed.

Lemma keeps_ensure_sidecar name id uuid : keeps name (ensure_sidecar name id uuid).
Proof.
  unfold ensure_sidecar, read_chain_id_sidecar, write_chain_id_sidecar, chain_id_sidecar_path,
    fs_read_to_string.
  assert (Hs : name ≠ "." +:+ name +:+ ".chainid").
  { apply string_neq_length. simpl. rewrite string_length_app. simpl. lia. }
  assert (Ht : name ≠ "." +:+ ("." +:+ name +:+ ".chainid") +:+ "." +:+ uuid +:+ ".new").
  { apply string_neq_length. simpl. rewrite !string_length_app. simpl. lia. }
  keeps_tac.
Qed.
Lemma set_chain_same l o c : mode l = Chained o c → set_chain l c = l.
Proof. intros Hm. destruct l as [m p r]. simpl in *. by subst. Qed.

(** The file of [holds], seen again after a change of the log object. *)
Lemma holds_poisoned k id prev l w w' rs torn o c :
  holds k id prev l w rs torn → mode l = Chained o c → files w' !! path l = files w !! path l →
  holds k id prev (set_handle l false) w' rs torn.
Proof.
  intros [Hrot (c' & Hm & Hc) Hf _] Hmode Heq. rewrite Hmode in Hm.
  injection Hm as _ <-. destruct l as [m p rt]. simpl in *. subst m. split; simpl; [done| |by rewrite Heq|done].
  by exists c.
Qed.

Lemma append_step k id prev l w rs torn rec fresh ts u' u r l' w' :
  holds k id prev l w rs torn → log_append rec fresh ts u' u l w = (r, (l', w')) →
  path l' = path l ∧ is_healthy l' = (is_healthy l && is_ok r) ∧ (is_healthy l = false → is_ok r = false) ∧
  ∃ torn', holds k id prev l' w' (if is_ok r then rs ++ [rec] else rs) torn' ∧
    (torn' = torn ∨ is_healthy l = true ∧ torn_by k id prev rs rec r torn').
Proof.
  intros Hh. pose proof Hh as [Hrot (c & Hm & Hk & Hid & Hhead) Hf Hn].
  unfold log_append, rotate_if_needed. rewrite Hrot, Hm. unfold append_chained, get_id.
  rewrite Hid, (set_chain_same l _ c Hm).
  destruct (ensure_sidecar (path l) id u w) as [rs1 w1] eqn:Hs.
  apply keeps_ensure_sidecar in Hs as Hkeep. destruct rs1 as [[]|e].
  2: { intros [= <- <- <-]. rewrite andb_false_r. split_and!; [done|by destruct l as [[] ? ?]|done|].
       exists torn. split; [by eapply holds_poisoned|by left]. }
  destruct (is_healthy l) eqn:Hhealthy; cbn [negb].
  2: { intros [= <- <- <-]. split_and!; [done..|]. exists torn. split; [|by left].
       split; [done| |by rewrite Hkeep|by rewrite Hhealthy]. exists c. by rewrite Hhealthy. }
  rewrite (Hn eq_refl), string_app_nil_r, <-Hkeep in Hf.
  unfold try_append_with_io. rewrite Hk, Hhead.
  destruct (write_line_durably _ _ w1) as [rw w2] eqn:Hw.
  destruct (write_line_durably_inv _ _ _ _ _ _ Hf Hw) as (m & Hf2 & Hlen).
  fold (next_line k id prev rs rec) in Hf2, Hlen.
  destruct rw as [[]|e]; cbn [is_ok]; intros [= <- <- <-]; cbn [is_ok].
  - rewrite Hlen, substring_all, <-rendered_snoc in Hf2. destruct l as [md p rt]. simpl in *. subst md.
    split_and!; [done..|]. exists "". split; [|left; by rewrite Hn].
    split; simpl in *; [done| |by rewrite string_app_nil_r|done].
    eexists. split; [done|]. simpl. by rewrite log_head_snoc.
  - rewrite (set_chain_same l _ c Hm). destruct l as [md p rt]. simpl in *. subst md.
    split_and!; [done..|]. eexists. split; [split; simpl; [done|eauto|exact Hf2|done]|].
    destruct Hlen as [->|He]; [left; rewrite Hn by done; by destruct (next_line _ _ _ _ _)|].
    right. split; [done|]. by exists m, e.
Qed.

(** A sequence of appends with the ids and names each of them draws. *)
Record append_args : Type := mkAppendArgs {
  aa_rec : DecisionRecord; aa_fresh : ChainId; aa_ts : string; aa_uuid' : string; aa_uuid : string;
}.

Fixpoint append_run (reqs : list append_args) : DecisionLog → world →
    list (DecisionRecord * cresult unit) * (DecisionLog * world) := λ l w,
  match reqs with
  | [] => ([], (l, w))
  | a :: reqs =>
      let '(r, (l, w)) := log_append (aa_rec a) (aa_fresh a) (aa_ts a) (aa_uuid' a) (aa_uuid a) l w in
      let '(out, s) := append_run reqs l w in ((aa_rec a, r) :: out, s)
  end.

(** The records whose append returned [Ok], in order. *)
Definition accepted (out : list (DecisionRecord * cresult unit)) : list DecisionRecord :=
  (filter (λ x, is_ok x.2 = true) out).*1.

(** A closed log refuses all appends and leaves its file alone. *)
Lemma closed_run reqs k id prev : ∀ l w rs torn out l' w',
  holds k id prev l w rs torn → is_healthy l = false → append_run reqs l w = (out, (l', w')) →
  holds k id prev l' w' rs torn ∧ is_healthy l' = false ∧ accepted out = [] ∧
  is_ok <$> out.*2 = replicate (length reqs) false.
Proof.
  induction reqs as [|a reqs IH]; intros l w rs torn out l' w' Hh Hl; simpl.
  { by intros [= <- <- <-]. }
  destruct (log_append _ _ _ _ _ l w) as [r [l1 w1]] eqn:Ha.
  destruct (append_run reqs l1 w1) as [out1 [l2 w2]] eqn:Hrun. intros [= <- <- <-].
  destruct (append_step _ _ _ _ _ _ _ _ _ _ _ _ _ _ _ Hh Ha) as (_ & Hl1 & Hr & torn' & Hh1 & [->|[Hbad _]]);
    [|congruence].
  rewrite Hl in Hl1. rewrite (Hr Hl) in Hh1.
  destruct (IH _ _ _ _ _ _ _ Hh1 Hl1 Hrun) as (Hh2 & Hl2 & Hacc & Hout).
  unfold accepted in *. rewrite filter_cons, decide_False by (cbn; rewrite Hr; done).
  cbn. by rewrite Hr, Hout.
Qed.

(** C2: whatever storage failures happen while records are appended to a chained log that does
    not rotate, the appends succeed up to the first failure and none after it, and the file is
    the chain of the records whose append returned [Ok], in order, of which the head in memory
    is the head.  Nothing follows it, unless the append that failed could not undo its write
    and its error says so: then a beginning of the line of that one record does.  The log is
    healthy exactly when nothing has failed. *)
Theorem appends_survive_faults k id prev l w rs reqs out l' w' :
  holds k id prev l w rs "" → is_healthy l = true → append_run reqs l w = (out, (l', w')) →
  ∃ n torn, (n ≤ length reqs)%nat ∧
    is_ok <$> out.*2 = replicate n true ++ replicate (length reqs - n) false ∧
    accepted out = take n (aa_rec <$> reqs) ∧
    holds k id prev l' w' (rs ++ accepted out) torn ∧
    (is_healthy l' = true ↔ n = length reqs) ∧
    (torn = "" ∨ ∃ rec r, out !! n = Some (rec, r) ∧ torn_by k id prev (rs ++ accepted out) rec r torn).
Proof.
  revert l w rs out l' w'. induction reqs as [|a reqs IH]; intros l w rs out l' w' Hh Hl; simpl.
  { intros [= <- <- <-]. exists 0%nat, "". unfold accepted. cbn. rewrite app_nil_r. split_and!; [lia|done|done|done|by rewrite Hl|by left]. }
  destruct (log_append _ _ _ _ _ l w) as [r [l1 w1]] eqn:Ha.
  destruct (append_run reqs l1 w1) as [out1 [l2 w2]] eqn:Hrun. intros [= <- <- <-].
  destruct (append_step _ _ _ _ _ _ _ _ _ _ _ _ _ _ _ Hh Ha) as (_ & Hl1 & _ & torn & Hh1 & Htorn).
  rewrite Hl in Hl1. cbn [andb] in Hl1. unfold accepted in *. rewrite filter_cons. cbn [snd].
  destruct (is_ok r) eqn:Hr.
  - rewrite decide_True by done. rewrite (h_torn _ _ _ _ _ _ _ Hh1 Hl1) in Hh1.
    destruct (IH _ _ _ _ _ _ Hh1 Hl1 Hrun) as (n & torn' & Hn & Hout & Hacc & Hh2 & Hl2 & Ht).
    exists (S n), torn'. rewrite <-app_assoc in Hh2, Ht.
    split_and!; [simpl; lia|cbn; rewrite Hr; f_equal; exact Hout|cbn; f_equal; exact Hacc|exact Hh2| |exact Ht].
    rewrite Hl2. simpl. lia.
  - rewrite decide_False by congruence.
    destruct (closed_run _ _ _ _ _ _ _ _ _ _ _ Hh1 Hl1 Hrun) as (Hh2 & Hl2 & Hacc & Hout).
    exists 0%nat, torn. unfold accepted in Hacc. rewrite Hacc, app_nil_r, Hl2.
    split_and!; [lia|cbn; rewrite Hr; f_equal; exact Hout|done..|]. destruct Htorn as [->|[_ Ht]]; [by left|right]. by exists (aa_rec a), r.
Qed.

(** ** What was written verifies *)

(** A written record is read back; the reader of plain records passes over the members
    that it does not know. *)
Class RecordLaws : Prop := {
  chained_roundtrip c :
    wf_record (c_record c) → chained_from_str (json_to_vec (chained_to_value c)) = Ok c;
  record_in_chained c :
    wf_record (c_record c) → record_from_str (json_to_vec (chained_to_value c)) = Ok (c_record c);
}.

Context `{!JsonTextLaws, !HexLaws, !HmacLaws, !UuidLaws, !RecordLaws}.

Lemma read_lines_line t rest :
  str_contains newline t = false →
  read_lines (t +:+ String newline rest) = (t +:+ String newline "") :: read_lines rest.
Proof.
  induction t as [|c t IH]; cbn [String.append read_lines].
  - intros _. by rewrite bool_decide_eq_true_2.
  - intros Hc. simpl in Hc. bool_inv. rewrite IH by done.
    by rewrite bool_decide_eq_false_2 by congruence.
Qed.

Lemma read_lines_chained c rest :
  read_lines (chained_line c +:+ rest) = chained_line c :: read_lines rest.
Proof.
  unfold chained_line. rewrite <-string_app_assoc. apply read_lines_line, json_one_line.
Qed.

Lemma strip_line_end_line t :
  str_contains (ascii_of_nat 13) t = false → strip_line_end (t +:+ String newline "") = t.
Proof.
  intros Hr. unfold strip_line_end. rewrite str_rev_app.
  replace (strip_prefix (String newline "") (str_rev (String newline "") +:+ str_rev t))
    with (Some (str_rev t)) by done.
  destruct (strip_prefix (String (ascii_of_nat 13) "") (str_rev t)) as [x|] eqn:Hx.
  - apply strip_prefix_Some in Hx. rewrite <-str_contains_rev, Hx in Hr. done.
  - apply str_rev_involutive.
Qed.

Lemma utf8_line_chained c : utf8_line (chained_line c) = Ok (json_to_vec (chained_to_value c)).
Proof.
  unfold utf8_line, chained_line.
  by rewrite strip_line_end_line, json_utf8 by apply json_no_return.
Qed.

Lemma parse_hex32_encode b : String.length b = 32%nat → parse_hex32 (hex_encode b) = Ok b.
Proof.
  intros Hb. unfold parse_hex32. rewrite hex_decode_encode. cbn. unfold len. by rewrite Hb.
Qed.

Lemma verify_line_good k id name ln prev st r :
  vs_prev st = prev → String.length prev = 32%nat → wf_record r →
  (vs_chain_id st = None ∨ vs_chain_id st = Some id) →
  let h := compute k prev (canonical_record r) in
  verify_line k name ln
    (chained_line (mkChainedRecord (hex_encode prev) (hex_encode h) id r)) st
  = Ok (mkVerifyState (Some id) h (vs_number st + 1)).
Proof.
  intros <- Hlen Hwf Hid h. unfold verify_line. rewrite utf8_line_chained.
  cbn [mbind result_bind]. rewrite (proj2 (json_not_blank _)), chained_roundtrip by done.
  cbn [map_err mbind result_bind c_chain_id c_record prev_hash record_hash].
  rewrite !parse_hex32_encode by (done || apply hmac_length).
  destruct Hid as [-> | ->]; cbn [mbind result_bind];
    rewrite ?bool_decide_eq_false_2 by tauto; unfold chain_verify, compute; simpl;
    rewrite ?bool_decide_eq_false_2 by tauto; done.
Qed.
Lemma log_head_length k prev rs :
  String.length prev = 32%nat → String.length (log_head k prev rs) = 32%nat.
Proof.
  intros Hp. destruct rs as [|r rs _] using rev_ind; [done|]. rewrite log_head_snoc.
  apply hmac_length.
Qed.

Lemma verify_rendered k id name prev rs ln st :
  vs_prev st = prev → String.length prev = 32%nat → Forall wf_record rs →
  (vs_chain_id st = None ∨ vs_chain_id st = Some id) →
  verify_lines k name ln (read_lines (rendered k id prev rs)) st
  = Ok (mkVerifyState (if bool_decide (rs = []) then vs_chain_id st else Some id)
          (log_head k prev rs) (vs_number st + Z.of_nat (length rs))).
Proof.
  intros Hp Hlen Hwf. revert prev ln st Hp Hlen.
  induction Hwf as [|r rs Hr Hwf IH]; intros prev ln st Hp Hlen Hid.
  { simpl. rewrite Z.add_0_r. destruct st. simpl in *. by subst. }
  cbn [rendered]. rewrite read_lines_chained. cbn [verify_lines].
  rewrite (verify_line_good k id name ln prev st r) by done. cbn [mbind result_bind].
  rewrite (IH (compute k prev (canonical_record r))) by (done || apply hmac_length || by right).
  simpl. do 2 f_equal; [by case_bool_decide|lia].
Qed.

(** ** Restoring the head *)

(** A value that is read back exactly. *)
Definition exact (v : Value) : Prop := wf_value v ∧ float_free v = true.

Lemma exact_object m : NoDup (keys m) → Forall (λ kv, exact kv.2) m → exact (VObject m).
Proof.
  intros Hnd Hm. split.
  - apply wf_object. split; [done|]. eapply Forall_impl; [exact Hm|]. by intros ? [].
  - simpl. induction Hm as [|kv m [_ Hf] _ IH]; simpl; [done|]. rewrite Hf. simpl. apply IH.
    by apply NoDup_cons in Hnd as [_ Hnd].
Qed.

Lemma exact_strings l : exact (strings l).
Proof.
  unfold strings, exact. rewrite wf_array. simpl. induction l; simpl; [done|].
  split; [constructor; [done|tauto]|tauto].
Qed.

Lemma exact_string_opt o : exact (or_null (VString <$> o)).
Proof. by destruct o. Qed.
Lemma exact_strings_opt o : exact (or_null (strings <$> o)).
Proof. destruct o; [apply exact_strings|done]. Qed.

Lemma exact_actor a : exact (actor_to_value a).
Proof.
  destruct a as [st si [t|] cr ca]; apply exact_object;
    [by refine (bool_decide_unpack _ _)|by repeat constructor
    |by refine (bool_decide_unpack _ _)|by repeat constructor].
Qed.

Lemma exact_chained c : exact (chained_to_value c).
Proof.
  destruct c as [ph rh id [i ts ef pol rid pr ac rs rea ses ch tr sp ten sub act]].
  apply exact_object.
  - destruct tr, sp, ten, sub, act; by refine (bool_decide_unpack _ _).
  - unfold record_members. simpl.
    repeat (apply Forall_cons; split; [by try apply exact_strings; try apply exact_string_opt;
      try apply exact_strings_opt|]).
    repeat (apply Forall_app; split).
    all: match goal with |- Forall _ (opt_member _ (_ <$> ?o)) => destruct o end; simpl;
      try apply Forall_nil_2; apply Forall_singleton; (done || apply exact_actor).
Qed.

Lemma chained_line_parses c : json_from_slice (chained_line c) = Ok (chained_to_value c).
Proof.
  unfold chained_line. rewrite json_trailing_newline.
  apply json_roundtrip; apply exact_chained.
Qed.

Lemma get_record_hash c : get (chained_to_value c) "record_hash" = Some (VString (record_hash c)).
Proof. done. Qed.
Lemma get_chain_id c :
  get (chained_to_value c) "chain_id" = Some (VString (uuid_display (c_chain_id c))).
Proof. done. Qed.

Lemma has_content_chained c : has_content (chained_line c) = true.
Proof.
  unfold has_content, chained_line. destruct (json_not_blank (chained_to_value c)) as [Hb _].
  assert (Hl : ∀ s t, String.list_ascii_of_string (s +:+ t)
    = String.list_ascii_of_string s ++ String.list_ascii_of_string t).
  { intros s t. induction s; simpl; congruence. }
  rewrite Hl, existsb_app, orb_true_iff. left.
  induction (String.list_ascii_of_string _) as [|b l IH]; [done|]. simpl in *.
  destruct (is_ascii_whitespace b); [by apply IH|done].
Qed.
Lemma read_lines_rendered_snoc k id prev rs r :
  read_lines (rendered k id prev (rs ++ [r]))
  = read_lines (rendered k id prev rs) ++ [next_line k id prev rs r].
Proof.
  revert prev. induction rs as [|q rs IH]; intros prev; cbn [rendered app].
  - by rewrite read_lines_chained.
  - by rewrite !read_lines_chained, IH.
Qed.

Lemma last_nonblank_rendered k id prev rs r :
  last_nonblank (rendered k id prev (rs ++ [r])) = next_line k id prev rs r.
Proof.
  unfold last_nonblank. rewrite read_lines_rendered_snoc, foldl_app. simpl.
  assert (has_content (next_line k id prev rs r) = true) as ->; [|done].
  apply has_content_chained.
Qed.

Lemma load_head_rendered k id prev rs c :
  String.length prev = 32%nat → rs ≠ [] → root c = k →
  load_head_from_file c (Ok (Some (rendered k id prev rs)))
  = Ok (mkHashChain k (log_head k prev rs) (Some id)).
Proof.
  intros Hlen Hne Hk. destruct rs as [|r rs _] using rev_ind; [done|]. clear Hne.
  unfold load_head_from_file. rewrite last_nonblank_rendered, bool_decide_eq_false_2.
  2: { unfold next_line, chained_line. intros Heq%(f_equal String.length).
       rewrite string_length_app in Heq. simpl in Heq. lia. }
  unfold next_line. rewrite chained_line_parses. cbn [map_err mbind result_bind].
  rewrite get_record_hash, get_chain_id. cbn [mbind option_bind as_str ok_or result_bind record_hash c_chain_id].
  rewrite hex_decode_encode, uuid_parse_display. cbn [map_err mbind result_bind].
  unfold len, compute. rewrite hmac_length. cbn [bail_if mbind result_bind negb HASH_LEN Z.of_nat].
  simpl. by rewrite Hk, log_head_snoc.
Qed.

(** ** Runs without storage failures *)

Lemma fs_sync_calm m : fs_sync (mkWorld m []) = (Ok tt, mkWorld m []).
Proof. apply syscall_calm. Qed.

Lemma validate_calm m name c :
  m !! name = Some (Regular c) →
  validate_audit_path name (mkWorld m []) = (Ok tt, mkWorld m []).
Proof.
  intros Hm. unfold validate_audit_path, fs_stat. rewrite fs_bind_eq. unfold fs_try.
  rewrite syscall_calm. simpl. by rewrite Hm.
Qed.

Lemma open_existing_calm m name c :
  m !! name = Some (Regular c) →
  open_existing_audit_file name (mkWorld m []) = (Ok c, mkWorld m []).
Proof.
  intros Hm. unfold open_existing_audit_file, require_regular, fs_read, fs_stat.
  rewrite fs_bind_eq, (validate_calm _ _ c Hm), fs_bind_eq, syscall_calm. simpl. rewrite Hm.
  rewrite !fs_bind_eq, syscall_calm. simpl. by rewrite Hm.
Qed.

Lemma open_audit_calm m name c :
  m !! name = Some (Regular c) → open_audit_file name (mkWorld m []) = (Ok tt, mkWorld m []).
Proof.
  intros Hm. unfold open_audit_file, require_regular, fs_stat, fs_open_append, fs_sync.
  rewrite fs_bind_eq, (validate_calm _ _ c Hm), fs_bind_eq, syscall_calm. simpl. rewrite Hm.
  rewrite !fs_bind_eq, syscall_calm. simpl. by rewrite Hm.
Qed.

Lemma lift_with_Ok {A} f (m : fs A) w a w' : m w = (Ok a, w') → lift_with f m w = (Ok a, w').
Proof. unfold lift_with. by intros ->. Qed.

Lemma lift_Ok {A} (m : fs A) w a w' : m w = (Ok a, w') → lift m w = (Ok a, w').
Proof. apply lift_with_Ok. Qed.

Definition no_rotations (name : string) (m : gmap string entry) : Prop :=
  map_Forall (λ n e, is_rotated_log name (n, e) = false) m.

Lemma rotated_logs_none name m :
  no_rotations name m → rotated_logs name (mkWorld m []) = (Ok [], mkWorld m []).
Proof.
  intros Hno. unfold rotated_logs, fs_read_dir. rewrite fs_bind_eq, syscall_calm. simpl.
  replace (filter _ (map_to_list m)) with ([] : list (string * entry)); [done|].
  destruct (filter _ (map_to_list m)) as [|[n e] l] eqn:Hf; [done|].
  assert ((n, e) ∈ (n, e) :: l) as Hin by constructor.
  rewrite <-Hf in Hin. apply list_elem_of_filter in Hin as [Hr Hin%elem_of_map_to_list].
  rewrite (Hno n e Hin) in Hr. done.
Qed.

Lemma verify_single k id name rs m fresh :
  Forall wf_record rs → m !! name = Some (Regular (rendered k id zero_hash rs)) →
  verify_chain_paths [name] k fresh (mkWorld m [])
  = (Ok (if bool_decide (rs = []) then fresh else id), mkWorld m []).
Proof.
  intros Hwf Hm. unfold verify_chain_paths. rewrite logm_bind_eq. cbn [verify_files].
  rewrite logm_bind_eq, (lift_Ok _ _ _ _ (open_existing_calm _ _ _ Hm)), logm_bind_eq.
  unfold lift_result. rewrite (verify_rendered k id name zero_hash rs 0 verify_init)
    by (done || by left). simpl. by case_bool_decide.
Qed.
Lemma read_sidecar_calm m name id :
  m !! name = Some (Regular (uuid_display id +:+ String newline "")) →
  read_chain_id_sidecar name (mkWorld m []) = (Ok (Some id), mkWorld m []).
Proof.
  intros Hm. unfold read_chain_id_sidecar, fs_read_to_string, fs_read. rewrite fs_bind_eq.
  unfold fs_try. rewrite fs_bind_eq, syscall_calm. simpl. rewrite Hm.
  assert (Hplain : forallb plain (String.list_ascii_of_string (uuid_display id)) = true).
  { pose proof (uuid_chars id) as Hu. rewrite forallb_forall in *. intros c Hc.
    specialize (Hu c Hc). unfold uuid_char, hex_char in Hu. unfold plain.
    apply orb_true_iff in Hu as [Hu|Hu]; [|bool_inv; by subst].
    apply orb_true_iff in Hu as [Hu|Hu]; bool_inv; apply andb_true_iff; split; apply Nat.leb_le; lia. }
  assert (utf8_valid (uuid_display id +:+ String newline "") = true) as ->.
  { revert Hplain. generalize (uuid_display id) as s. induction s as [|c s IH]; [done|].
    cbn -[Nat.ltb Nat.leb]. unfold plain. intros Hs. bool_inv.
    rewrite (proj2 (Nat.ltb_lt _ _)) by lia. by apply IH. }
  simpl. by rewrite trim_line, uuid_parse_display.
Qed.

Lemma is_empty_calm m name c :
  m !! name = Some (Regular c) →
  is_empty_file name (mkWorld m []) = (Ok (bool_decide (c = "")), mkWorld m []).
Proof.
  intros Hm. unfold is_empty_file, fs_read, fs_try. rewrite fs_bind_eq, syscall_calm.
  simpl. by rewrite Hm.
Qed.

Lemma file_for_head_calm m name c :
  m !! name = Some (Regular c) →
  file_for_head name (mkWorld m []) = (Ok (Ok (Some c)), mkWorld m []).
Proof.
  intros Hm. unfold file_for_head, fs_read, fs_try. rewrite fs_bind_eq, syscall_calm.
  simpl. by rewrite Hm.
Qed.

Lemma rendered_nonempty k id prev rs : rs ≠ [] → rendered k id prev rs ≠ "".
Proof.
  destruct rs as [|r rs]; [done|]. intros _ Heq%(f_equal String.length).
  cbn [rendered] in Heq. unfold chained_line in Heq. rewrite !string_length_app in Heq.
  simpl in Heq. lia.
Qed.

(** A chained log whose file holds the chain of [rs] verifies, under its own id,
    and opening it again restores the head and the id, so the next append continues
    the same chain.  (No rotated segments; storage works.) *)
Theorem log_verifies_and_resumes k id name rs rot m fresh uuid :
  Forall wf_record rs → rs ≠ [] → no_rotations name m →
  m !! name = Some (Regular (rendered k id zero_hash rs)) →
  m !! chain_id_sidecar_path name = Some (Regular (uuid_display id +:+ String newline "")) →
  log_verify_chain name k fresh (mkWorld m []) = (Ok id, mkWorld m []) ∧
  open_internal name (Some k) rot fresh uuid (mkWorld m [])
  = (Ok (mkDecisionLog (Chained true (mkHashChain k (log_head k zero_hash rs) (Some id))) name rot),
     mkWorld m []).
Proof.
  intros Hwf Hne Hno Hm Hs.
  assert (Hv : verify_chain_paths [name] k fresh (mkWorld m []) = (Ok id, mkWorld m [])).
  { rewrite (verify_single k id name rs) by done. by rewrite bool_decide_eq_false_2. }
  split.
  - unfold log_verify_chain. rewrite logm_bind_eq.
    by rewrite (lift_Ok _ _ _ _ (rotated_logs_none _ _ Hno)).
  - unfold open_internal.
    rewrite logm_bind_eq, (lift_Ok fs_sync _ _ _ (fs_sync_calm _)).
    rewrite logm_bind_eq, (lift_Ok _ _ _ _ (open_audit_calm _ _ _ Hm)).
    rewrite logm_bind_eq, (lift_Ok _ _ _ _ (rotated_logs_none _ _ Hno)).
    rewrite logm_bind_eq. cbn [app]. rewrite Hv. cbn [map_err].
    rewrite logm_bind_eq, (lift_Ok _ _ _ _ (is_empty_calm _ _ _ Hm)), bool_decide_eq_false_2.
    2: { apply rendered_nonempty. done. }
    rewrite logm_bind_eq. cbn [mret logm_ret].
    rewrite logm_bind_eq, (lift_Ok _ _ _ _ (file_for_head_calm _ _ _ Hm)).
    rewrite logm_bind_eq. unfold lift_result.
    rewrite (load_head_rendered k id zero_hash rs (chain_new k)) by done. cbn [map_err].
    by rewrite logm_bind_eq, (lift_Ok _ _ _ _ (read_sidecar_calm _ _ _ Hs)).
Qed.
(** ** What a verified log commits to *)

(** The record on a line that is not blank. *)
Definition line_record (line : bytes) : option DecisionRecord :=
  match utf8_line line with
  | Ok l => if is_blank l then None else c_record <$> to_ok (chained_from_str l)
  | Err _ => None
  end.
Definition records_of (lines : list bytes) : list DecisionRecord := omap line_record lines.

Lemma verify_line_inv k name ln line st st' :
  verify_line k name ln line st = Ok st' →
  vs_prev st' = match line_record line with
                | Some r => compute k (vs_prev st) (canonical_record r)
                | None => vs_prev st
                end.
Proof.
  unfold verify_line, line_record, chain_verify. destruct (utf8_line line) as [l|]; [|done].
  cbn [mbind result_bind]. destruct (is_blank l); [by intros [= <-]|].
  destruct (chained_from_str l) as [c|]; [|done]. cbn [map_err mbind result_bind to_ok fmap option_fmap option_map].
  intros Hv. res_inv. subst. bool_inv. subst. simpl in *. by subst.
Qed.

Lemma verify_lines_inv k name ln lines st st' :
  verify_lines k name ln lines st = Ok st' →
  vs_prev st' = log_head k (vs_prev st) (records_of lines).
Proof.
  revert ln st. induction lines as [|l ls IH]; intros ln st; cbn [verify_lines].
  { by intros [= <-]. }
  intros Hv. apply bind_Ok in Hv as (st1 & H1' & H2'). rewrite (IH _ _ H2').
  rewrite (verify_line_inv _ _ _ _ _ _ H1'). unfold records_of. simpl.
  by destruct (line_record l).
Qed.

(** The last hash of a log that verifies commits to its records: two logs that verify
    under the same key and end in the same hash hold the same canonical records in the
    same order, or they exhibit a break of the MAC. *)
Theorem verified_log_commits k name name' ln ln' lines lines' st st' :
  verify_lines k name ln lines verify_init = Ok st →
  verify_lines k name' ln' lines' verify_init = Ok st' →
  vs_prev st = vs_prev st' →
  let cs := canonical_record <$> records_of lines in
  let cs' := canonical_record <$> records_of lines' in
  cs = cs' ∨ mac_break k (messages k zero_hash cs) (messages k zero_hash cs').
Proof.
  intros Hv%verify_lines_inv Hv'%verify_lines_inv Heq. apply heads_equal_records.
  unfold log_head in *. simpl in *. congruence.
Qed.

(** Truncation goes unnoticed: every log made of the first lines of a log that
    verifies, verifies as well.  No head is kept outside the log to compare with. *)
Theorem truncated_log_verifies k name ln lines cut st st' :
  verify_lines k name ln (lines ++ cut) st = Ok st' →
  ∃ st1, verify_lines k name ln lines st = Ok st1.
Proof.
  revert ln st. induction lines as [|l ls IH]; intros ln st; cbn [verify_lines app]; [eauto|].
  intros (st1 & -> & H2')%bind_Ok. cbn [mbind result_bind]. by eapply IH.
Qed.
(** ** The name of a rotated segment *)

Fixpoint candidates (fuel : nat) (name ts candidate : string) (suffix : Z) : list string :=
  match fuel with
  | O => []
  | S fuel => candidate :: candidates fuel name ts (rotated_name name ts (Some suffix))
                             (Z.min u32_max (suffix + 1))
  end.

Lemma free_or_all_taken fuel name ts candidate suffix m :
  ∃ n, free_rotated_name fuel name ts candidate suffix (mkWorld m []) = (Ok n, mkWorld m []) ∧
    (m !! n = None ∨ Forall (λ c, is_Some (m !! c)) (candidates fuel name ts candidate suffix)).
Proof.
  revert candidate suffix. induction fuel as [|fuel IH]; intros candidate suffix; simpl.
  { exists candidate. by split; [|right]. }
  rewrite fs_bind_eq. unfold fs_exists, fs_try, fs_stat. rewrite fs_bind_eq, syscall_calm. simpl.
  destruct (m !! candidate) as [e|] eqn:He; simpl; [|eauto].
  destruct (IH (rotated_name name ts (Some suffix)) (Z.min u32_max (suffix + 1)))
    as (n & Hn & [Hfree|Hall]); exists n; (split; [exact Hn|]); [by left|right].
  constructor; [by eexists|done].
Qed.

Lemma rotated_name_inj name ts a b : rotated_name name ts a = rotated_name name ts b → a = b.
Proof.
  unfold rotated_name. intros Heq.
  do 3 apply string_app_inv_l in Heq. destruct a as [a|], b as [b|]; simpl in Heq; try done.
  injection Heq as Heq. f_equal. apply (inj pretty).
  revert Heq. generalize (String "." (default "jsonl" (extension name))) as t. intros t.
  generalize (pretty a) as x, (pretty b) as y. intros x y Heq.
  assert (Hlen : String.length x = String.length y).
  { apply (f_equal String.length) in Heq. rewrite !string_length_app in Heq. lia. }
  by apply string_app_inj_1 in Heq as [-> _].
Qed.

Lemma candidates_elem fuel name ts candidate suffix c :
  0 < suffix → suffix + Z.of_nat fuel ≤ u32_max →
  c ∈ candidates fuel name ts candidate suffix →
  c = candidate ∨ ∃ j, suffix ≤ j ∧ c = rotated_name name ts (Some j).
Proof.
  revert candidate suffix. induction fuel as [|fuel IH]; intros candidate suffix Hpos Hmax;
    simpl; [by intros ?%elem_of_nil|].
  intros [->|Hin]%elem_of_cons; [by left|right].
  rewrite Z.min_r in Hin by lia. apply IH in Hin as [->|(j & Hj & ->)]; [| |lia|lia].
  - exists suffix. by split; [lia|].
  - exists j. by split; [lia|].
Qed.

Lemma candidates_NoDup fuel name ts candidate suffix :
  0 < suffix → suffix + Z.of_nat fuel ≤ u32_max →
  (∀ j, suffix ≤ j → candidate ≠ rotated_name name ts (Some j)) →
  NoDup (candidates fuel name ts candidate suffix)
  ∧ length (candidates fuel name ts candidate suffix) = fuel.
Proof.
  revert candidate suffix. induction fuel as [|fuel IH]; intros candidate suffix Hpos Hmax Hc;
    simpl; [by split; [constructor|]|].
  rewrite Z.min_r by lia.
  destruct (IH (rotated_name name ts (Some suffix)) (suffix + 1)) as [Hnd Hl]; [lia|lia| |].
  { intros j Hj Heq%rotated_name_inj. injection Heq. lia. }
  split; [|by rewrite Hl]. constructor; [|done].
  intros Hin. apply candidates_elem in Hin as [Heq|(j & Hj & Heq)]; [| |lia|lia];
    by apply Hc in Heq; [|lia].
Qed.

Lemma taken_names_bound (l : list string) (m : gmap string entry) :
  NoDup l → Forall (λ c, is_Some (m !! c)) l → (length l ≤ size m)%nat.
Proof.
  intros Hnd Hall. rewrite <-(size_list_to_set (C := gset string) l) by done.
  rewrite <-size_dom. apply subseteq_size. intros c. rewrite elem_of_list_to_set.
  rewrite Forall_forall in Hall. intros Hc%Hall. by apply elem_of_dom.
Qed.

(** The search for a rotated name ends: with working storage and at most [2^32 - 3]
    files, one round more than there are files finds a name that no file has, so
    rotation never overwrites a segment. *)
Theorem rotated_name_fresh name ts m :
  Z.of_nat (size m) + 2 ≤ u32_max →
  ∃ n, free_rotated_name (S (size m)) name ts (rotated_name name ts None) 1 (mkWorld m [])
       = (Ok n, mkWorld m []) ∧ m !! n = None.
Proof.
  intros Hsize. destruct (free_or_all_taken (S (size m)) name ts (rotated_name name ts None) 1 m)
    as (n & Hn & [Hfree|Hall]); [eauto|].
  destruct (candidates_NoDup (S (size m)) name ts (rotated_name name ts None) 1) as [Hnd Hl];
    [lia|lia|by intros j _ ?%rotated_name_inj|].
  pose proof (taken_names_bound _ _ Hnd Hall). lia.
Qed.
End log.
