(* ===== verification/AuditExamples.v ===== *)
(** * The decision log on concrete inputs

    Readers of records that satisfy [RecordLaws], the theorems of [AuditLog] applied to
    a concrete log, and a run in which two rotations in a row lose the chain. *)

From S2P Require Import Prelude Json CoreError Crypto Trace Request DecisionRecord HashChain Canonical AuditFs AuditLog.
Import Crypto.Concrete Canonical.Concrete.

(** ** Reading records *)

(** A member that may be absent or [null]. *)
Definition opt_str (v : Value) (k : string) : option (option string) :=
  match get v k with
  | None | Some Null => Some None
  | Some (VString s) => Some (Some s)
  | Some _ => None
  end.

Definition all_strs (v : Value) : option (list string) :=
  match v with VArray l => mapM as_str l | _ => None end.

Definition opt_strs (v : Value) (k : string) : option (option (list string)) :=
  match get v k with
  | None | Some Null => Some None
  | Some w => Some <$> all_strs w
  end.

Definition opt_id (parse : string → cresult bytes) (v : Value) (k : string) :
    option (option bytes) :=
  o ← opt_str v k;
  match o with None => Some None | Some s => Some <$> to_ok (parse s) end.

Definition actor_of_value (v : Value) : option AuthenticatedActor :=
  st ← get_str v "subject_type"; si ← get_str v "subject_id"; t ← opt_str v "tenant_id";
  cr ← get_str v "credential_id";
  ca ← (get v "can_act_as" ≫= λ b, match b with VBool b => Some b | _ => None end);
  Some (mkActor st si t cr ca).

Definition record_of_value (v : Value) : option DecisionRecord :=
  i ← get_str v "id"; ts ← get_str v "timestamp"; ef ← get_str v "effect";
  pol ← (get v "policies" ≫= all_strs); rid ← opt_str v "request_id";
  pr ← get_str v "principal"; ac ← get_str v "action"; rs ← get_str v "resource";
  rea ← (get v "reasons" ≫= all_strs); ses ← opt_str v "session_id";
  ch ← opt_strs v "agent_chain";
  tr ← opt_id trace_id_from_str v "trace_id"; sp ← opt_id span_id_from_str v "span_id";
  ten ← opt_str v "tenant_id"; sub ← opt_str v "subject_id";
  act ← (match get v "authenticated_actor" with
         | None => Some None | Some a => Some <$> actor_of_value a end);
  Some (mkDecisionRecord i ts ef pol rid pr ac rs rea ses ch tr sp ten sub act).

Definition chained_of_value (v : Value) : option ChainedRecord :=
  ph ← get_str v "prev_hash"; rh ← get_str v "record_hash";
  id ← (get_str v "chain_id" ≫= λ s, to_ok (uuid_parse s));
  r ← record_of_value v; Some (mkChainedRecord ph rh id r).

#[export] Instance record_codec : RecordCodec := {|
  record_from_str s := ok_or (to_ok (json_from_slice s) ≫= record_of_value) "invalid record";
  chained_from_str s := ok_or (to_ok (json_from_slice s) ≫= chained_of_value) "invalid record";
  rfc3339 _ := true |}.

Lemma mapM_as_str l : mapM as_str (VString <$> l) = Some l.
Proof. induction l as [|s l IH]; [done|]. rewrite fmap_cons. simpl. by rewrite IH. Qed.

Lemma actor_roundtrip a : actor_of_value (actor_to_value a) = Some a.
Proof. by destruct a as [? ? [?|] ? ?]. Qed.

Lemma trace_id_back t : len t = TRACE_ID_LEN → trace_id_from_str (as_hex t) = Ok t.
Proof.
  intros Ht. unfold trace_id_from_str, as_hex. rewrite hex_decode_encode. simpl. by rewrite Ht.
Qed.
Lemma span_id_back t : len t = SPAN_ID_LEN → span_id_from_str (as_hex t) = Ok t.
Proof.
  intros Ht. unfold span_id_from_str, as_hex. rewrite hex_decode_encode. simpl. by rewrite Ht.
Qed.

(** The members of a written record, one at a time. *)
Lemma opt_str_null v k o : get v k = Some (or_null (VString <$> o)) → opt_str v k = Some o.
Proof. unfold opt_str. intros ->. by destruct o. Qed.
Lemma opt_str_member v k o : get v k = VString <$> o → opt_str v k = Some o.
Proof. unfold opt_str. intros ->. by destruct o. Qed.
Lemma opt_strs_null v k o : get v k = Some (or_null (strings <$> o)) → opt_strs v k = Some o.
Proof. unfold opt_strs. intros ->. destruct o; simpl; [|done]. by rewrite mapM_as_str. Qed.
Lemma opt_id_member parse v k o :
  get v k = (VString ∘ as_hex) <$> o → (∀ t, o = Some t → parse (as_hex t) = Ok t) →
  opt_id parse v k = Some o.
Proof.
  unfold opt_id, opt_str. intros -> Hp. destruct o as [t|]; simpl; [|done]. by rewrite Hp.
Qed.
Lemma strings_member v k l : get v k = Some (strings l) → get v k ≫= all_strs = Some l.
Proof. intros ->. simpl. apply mapM_as_str. Qed.

Lemma get_optional c :
  let v := chained_to_value c in let r := c_record c in
  get v "trace_id" = (VString ∘ as_hex) <$> r_trace_id r ∧
  get v "span_id" = (VString ∘ as_hex) <$> r_span_id r ∧
  get v "tenant_id" = VString <$> r_tenant_id r ∧
  get v "subject_id" = VString <$> r_subject_id r ∧
  get v "authenticated_actor" = actor_to_value <$> r_actor r.
Proof.
  destruct c as [ph rh id [i ts ef pol rid pr ac rs rea ses ch tr sp ten sub act]].
  destruct tr, sp, ten, sub, act; split_and!; reflexivity.
Qed.

Lemma record_of_chained c : wf_record (c_record c) → record_of_value (chained_to_value c) = Some (c_record c).
Proof.
  intros (_ & Htr & Hsp). destruct (get_optional c) as (Gt & Gs & Gn & Gu & Ga).
  set (v := chained_to_value c) in *. destruct c as [ph rh id r]. cbn [c_record] in *.
  assert (get_str v "id" = Some (r_id r) ∧ get_str v "timestamp" = Some (r_timestamp r)
    ∧ get_str v "effect" = Some (r_effect r) ∧ get_str v "principal" = Some (r_principal r)
    ∧ get_str v "action" = Some (r_action r) ∧ get_str v "resource" = Some (r_resource r))
    as (E4 & E5 & E6 & E7 & E8 & E9) by done.
  unfold record_of_value. rewrite E4, E5, E6, E7, E8, E9.
  rewrite (strings_member v "policies" (r_policies r)), (strings_member v "reasons" (r_reasons r)),
    (opt_str_null v "request_id" (r_request_id r)), (opt_str_null v "session_id" (r_session_id r)),
    (opt_strs_null v "agent_chain" (r_agent_chain r)), (opt_id_member _ v "trace_id" _ Gt),
    (opt_id_member _ v "span_id" _ Gs), (opt_str_member _ _ _ Gn), (opt_str_member _ _ _ Gu), Ga
    by (done || auto using trace_id_back, span_id_back).
  cbn [mbind option_bind]. destruct r as [? ? ? ? ? ? ? ? ? ? ? ? ? ? ? [a|]]; [|done].
  cbn [r_actor fmap option_fmap option_map]. by rewrite actor_roundtrip.
Qed.

#[export] Instance record_laws : RecordLaws.
Proof.
  split; intros c Hwf; cbn [chained_from_str record_from_str record_codec];
    rewrite json_roundtrip by apply exact_chained; cbn [to_ok mbind option_bind]; apply ok_or_Ok;
    [|by apply record_of_chained].
  unfold chained_of_value.
  assert (get_str (chained_to_value c) "prev_hash" = Some (prev_hash c)
    ∧ get_str (chained_to_value c) "record_hash" = Some (record_hash c)
    ∧ get_str (chained_to_value c) "chain_id" = Some (uuid_display (c_chain_id c))) as (-> & -> & ->) by done.
  cbn [mbind option_bind]. rewrite uuid_parse_display. cbn [to_ok mbind option_bind].
  rewrite record_of_chained by done. by destruct c.
Qed.

(** ** A concrete log *)

Definition rec_of (i : string) : DecisionRecord :=
  mkDecisionRecord i "2026-01-01T00:00:00Z" "allow" ["policy0"] None "alice" "send" "mailbox" []
    None None None None None None None.
Definition name : string := "decisions.jsonl".
Definition log_id : ChainId := "0123456789abcdef".
Definition sidecar_file : entry := Regular (uuid_display log_id +:+ String newline "").

Definition fresh_log : DecisionLog :=
  mkDecisionLog (Chained true (mkHashChain "key" zero_hash (Some log_id))) name None.
Definition args_of (i : string) : append_args :=
  mkAppendArgs (rec_of i) log_id "ts" ("u'" +:+ i) ("u" +:+ i).

(** The second append of three runs out of disk space, five bytes into the line, and
    then cannot truncate. *)
Definition faulty : world :=
  mkWorld {[name := Regular ""; chain_id_sidecar_path name := sidecar_file]}
    ([None; None; None; None] ++ [None; None; Some ("disk full", 5%nat); Some ("read-only", 0%nat)]).

Lemma fresh_log_holds : holds "key" log_id zero_hash fresh_log faulty [] "".
Proof. split; [done| |by vm_compute|done]. eexists. split_and!; done. Qed.

(** The witness of [appends_survive_faults]: the first of three appends succeeds, and five
    bytes of the second line stay in the file. *)
Example appends_survive_faults_witness :
  let '(out, (l, w)) := append_run "." (args_of <$> ["1"; "2"; "3"]) fresh_log faulty in
  is_ok <$> out.*2 = [true; false; false] ∧ is_healthy l = false ∧
  ∃ torn, holds "key" log_id zero_hash l w [rec_of "1"] torn ∧
    (torn = "" ∨ ∃ rec r, out !! 1%nat = Some (rec, r) ∧ torn_by "key" log_id zero_hash [rec_of "1"] rec r torn).
Proof.
  destruct (append_run "." (args_of <$> ["1"; "2"; "3"]) fresh_log faulty)
    as [out [l w]] eqn:Hrun.
  destruct (appends_survive_faults "." "key" log_id zero_hash fresh_log faulty [] _ out l w
    fresh_log_holds eq_refl Hrun) as (n & torn & Hn & Hout & Hacc & Hh & Hl & Ht).
  assert (Hok : is_ok <$> out.*2 = [true; false; false] ∧ is_healthy l = false ∧ accepted out = [rec_of "1"]).
  { vm_compute in Hrun. by injection Hrun as <- <- <-. }
  destruct Hok as (Hok & Hbad & Hone). split; [done|]. split; [done|]. exists torn.
  assert (n = 1%nat) as ->.
  { rewrite Hok in Hout. destruct n as [|[|[|]]]; [done|done|done|]. simpl in Hout. by destruct n. }
  rewrite Hone in Hh, Ht. by split.
Defined.

Definition two_records : list DecisionRecord := [rec_of "1"; rec_of "2"].
Definition two_lines : bytes := rendered "key" log_id zero_hash two_records.

Lemma two_records_wf : Forall wf_record two_records.
Proof. by repeat constructor. Qed.

Definition quiet : gmap string entry :=
  {[name := Regular two_lines; chain_id_sidecar_path name := sidecar_file]}.

(** The witness of [log_verifies_and_resumes]. *)
Example log_verifies_and_resumes_witness :
  log_verify_chain "." name "key" "other" (mkWorld quiet []) = (Ok log_id, mkWorld quiet []).
Proof.
  apply (log_verifies_and_resumes "." "key" log_id name two_records None quiet "other" "u").
  - apply two_records_wf.
  - done.
  - intros n e Hn. unfold quiet in Hn. apply lookup_insert_Some in Hn as [[<- <-]|[_ Hn]]; [by vm_compute|].
    apply lookup_singleton_Some in Hn as [<- <-]. by vm_compute.
  - by vm_compute.
  - by vm_compute.
Defined.

(** The witness of [verified_log_commits]: a log against itself. *)
Example verified_log_commits_witness :
  let cs := canonical_record <$> records_of (read_lines two_lines) in
  cs = cs ∨ mac_break "key" (messages "key" zero_hash cs) (messages "key" zero_hash cs).
Proof.
  pose proof (verify_rendered "." "key" log_id name zero_hash two_records 0 verify_init eq_refl
    eq_refl two_records_wf (or_introl eq_refl)) as Hv.
  exact (verified_log_commits "." "key" name name 0 0 (read_lines two_lines) (read_lines two_lines)
    _ _ Hv Hv eq_refl).
Defined.

(** The witness of [truncated_log_verifies]: the last of two records is cut off. *)
Example truncated_log_verifies_witness :
  ∃ st, verify_lines "." "key" name 0 (take 1 (read_lines two_lines)) verify_init = Ok st.
Proof.
  pose proof (verify_rendered "." "key" log_id name zero_hash two_records 0 verify_init eq_refl
    eq_refl two_records_wf (or_introl eq_refl)) as Hv.
  fold two_lines in Hv. rewrite <-(take_drop 1 (read_lines two_lines)) in Hv.
  exact (truncated_log_verifies "." "key" name 0 _ _ _ _ Hv).
Defined.

(** The witness of [rotated_name_fresh]: the first two names are taken. *)
Example rotated_name_fresh_witness :
  let m : gmap string entry :=
    {[rotated_name name "T" None := Special; rotated_name name "T" (Some 1) := Special]} in
  ∃ n, free_rotated_name (S (size m)) name "T" (rotated_name name "T" None) 1 (mkWorld m [])
       = (Ok n, mkWorld m []) ∧ m !! n = None.
Proof. intros m. apply rotated_name_fresh. by vm_compute. Defined.

(** ** Two rotations in a row *)

(** Open, append a record, rotate at each of the given times, restart, append another
    record, and verify: which steps succeeded, and the verdict. *)
Definition scenario (rotations : list string) : list bool * cresult ChainId :=
  let '(r0, w) := open_internal "." name (Some "key") None log_id "u0" (mkWorld ∅ []) in
  match r0 with
  | Err e => ([false], Err e)
  | Ok l =>
      let '(r1, (l, w)) := log_append "." (rec_of "1") log_id "" "" "u1" l w in
      let '(rs, (l, w)) := fold_left (λ acc ts,
          let '(rs, (l, w)) := acc in
          let '(r, s) := rotate "." ts ("r" +:+ ts) l w in (rs ++ [is_ok r], s))
        rotations ([], (l, w)) in
      let '(r2, w) := open_internal "." name (Some "key") None "fresh-chain-id!!" "u2" w in
      match r2 with
      | Err e => ([true; is_ok r1] ++ rs ++ [false], Err e)
      | Ok l =>
          let '(r3, (l, w)) := log_append "." (rec_of "2") log_id "" "" "u3" l w in
          ([true; is_ok r1] ++ rs ++ [true; is_ok r3],
           (log_verify_chain "." name "key" "none" w).1)
      end
  end.

(** After one rotation and a restart the log continues its chain and verifies.  But
    after two rotations with no record in between, the restart takes its head from the
    newest segment, which is empty, and starts again from zero: every step reports
    success, and from then on the log does not verify. *)
Theorem double_rotation_breaks_chain :
  scenario ["20260101T000000000000Z"] = (replicate 5 true, Ok log_id) ∧
  ∃ reason, scenario ["20260101T000000000000Z"; "20260101T000001000000Z"]
            = (replicate 6 true, Err (Other reason)).
Proof. split; [by vm_compute|]. eexists. by vm_compute. Qed.
