(* ===== verification/Cache.v ===== *)
(** * The decision cache ([agentguard-core/src/decision/cache.rs])

    The cache key of a request, and [DecisionCache]: an LRU map from keys to decisions
    with a time to live and a policy version.  SHA-256, the [lru] crate, Cedar's entities
    and [humantime] come as classes.  An [Instant] is a [Z] (nanoseconds), and the clock
    readings are arguments. *)

From S2P Require Import Prelude Json Ids CoreError Crypto Trace Request Canonical AuditLog.

(** ** Keys *)

(** [cedar_policy::Entities]: [iter] and [Entity::to_json_value]. *)
Class CedarEntities := {
  Entities : Type;
  no_entities : Entities;
  entity_values : Entities → list Value;
}.

Definition byte_of_Z (n : Z) : ascii := ascii_of_nat (Z.to_nat (n mod 256)).

(** [to_be_bytes] of an integer of [k] bytes. *)
Fixpoint be_bytes (k : nat) (n : Z) : bytes :=
  match k with
  | O => EmptyString
  | S k => be_bytes k (n / 256) +:+ String (byte_of_Z n) EmptyString
  end.

(** The length as [u32], then the bytes. *)
Definition framed (b : bytes) : bytes := be_bytes 4 (len b mod 2 ^ 32) +:+ b.

Section key.
Context `{Hex, JsonScalars, Sha256, CedarEntities}.

Definition key_blocks (req : AgentRequest) (ents : Entities) : list bytes :=
  [write_canonical_value (principal_to_value (principal req));
   write_canonical_value (action_to_value (action req));
   write_canonical_value (resource_to_value (resource req));
   write_canonical_value (context_to_value (context req))]
  ++ merge_sort str_le (write_canonical_value <$> entity_values ents)
  ++ match trace req with Some t => [trace_display t] | None => [] end.

Definition frames (bs : list bytes) : bytes := String.concat "" (framed <$> bs).

(** What the hasher is fed. *)
Definition key_preimage (req : AgentRequest) (ents : Entities) (policy_version : Z) : bytes :=
  frames (key_blocks req ents) +:+ be_bytes 8 policy_version.

Definition for_request_with_entities (req : AgentRequest) (ents : Entities) (policy_version : Z) :
    bytes := sha256 (key_preimage req ents policy_version).

Definition for_request (req : AgentRequest) (policy_version : Z) : bytes :=
  for_request_with_entities req no_entities policy_version.
End key.

(** ** Framing is unambiguous *)

Lemma be_bytes_length k n : String.length (be_bytes k n) = k.
Proof. revert n. induction k as [|k IH]; intros n; simpl; [done|]. rewrite string_length_app, IH. simpl. lia. Qed.

Lemma byte_of_Z_inj a b : byte_of_Z a = byte_of_Z b → a mod 256 = b mod 256.
Proof.
  unfold byte_of_Z. intros Heq%(f_equal nat_of_ascii).
  pose proof (Z.mod_pos_bound a 256). pose proof (Z.mod_pos_bound b 256).
  rewrite !nat_ascii_embedding in Heq by lia. lia.
Qed.

Lemma be_bytes_inj k a b :
  0 ≤ a < 256 ^ Z.of_nat k → 0 ≤ b < 256 ^ Z.of_nat k → be_bytes k a = be_bytes k b → a = b.
Proof.
  revert a b. induction k as [|k IH]; intros a b Ha Hb; [simpl in *; lia|].
  cbn [be_bytes]. intros Heq. rewrite Nat2Z.inj_succ, Z.pow_succ_r in Ha, Hb by lia.
  apply string_app_inj_1 in Heq as [Heq Hc]; [|by rewrite !be_bytes_length].
  injection Hc as Hc%byte_of_Z_inj.
  apply IH in Heq; [|split; [apply Z.div_pos; lia|apply Z.div_lt_upper_bound; lia]..].
  rewrite (Z.div_mod a 256), (Z.div_mod b 256) by lia. by rewrite Heq, Hc.
Qed.

Definition fits (b : bytes) : Prop := len b < 2 ^ 32.

Lemma framed_inj b b' r r' :
  fits b → fits b' → framed b +:+ r = framed b' +:+ r' → b = b' ∧ r = r'.
Proof.
  unfold framed, fits, len. intros Hb Hb' Heq. rewrite !Z.mod_small in Heq by lia.
  rewrite <-!string_app_assoc in Heq.
  apply string_app_inj_1 in Heq as [Hl Heq]; [|by rewrite !be_bytes_length].
  apply be_bytes_inj in Hl; [|simpl; lia..].
  apply string_app_inj_1 in Heq; [done|lia].
Qed.

Lemma frames_cons b bs : frames (b :: bs) = framed b +:+ frames bs.
Proof. unfold frames. destruct bs; simpl; by rewrite ?string_app_nil_r. Qed.

Lemma frames_inj bs bs' :
  Forall fits bs → Forall fits bs' → frames bs = frames bs' → bs = bs'.
Proof.
  intros Hbs. revert bs'. induction Hbs as [|b bs Hb Hbs IH]; intros bs' Hbs' Heq;
    destruct Hbs' as [|b' bs' Hb' Hbs']; rewrite ?frames_cons in Heq.
  - done.
  - unfold framed in Heq. apply (f_equal String.length) in Heq.
    rewrite !string_length_app, be_bytes_length in Heq. simpl in Heq. lia.
  - unfold framed in Heq. apply (f_equal String.length) in Heq.
    rewrite !string_length_app, be_bytes_length in Heq. simpl in Heq. lia.
  - apply framed_inj in Heq as [-> Heq]; [|done..]. f_equal. by apply IH.
Qed.

Lemma string_app_inj_2 (u v x y : string) :
  String.length x = String.length y → u +:+ x = v +:+ y → u = v ∧ x = y.
Proof.
  intros Hl Heq. apply string_app_inj_1; [|done].
  apply (f_equal String.length) in Heq. rewrite !string_length_app in Heq. lia.
Qed.

Lemma four_inj {A} (a b c d a' b' c' d' : A) l l' :
  [a; b; c; d] ++ l = [a'; b'; c'; d'] ++ l' → a = a' ∧ b = b' ∧ c = c' ∧ d = d' ∧ l = l'.
Proof. by intros [= -> -> -> -> ->]. Qed.

Section key_inj.
Context `{JsonScalarLaws, Hex, Sha256, CedarEntities}.

(** What the encodings need: distinct member names, numbers in range, entities that are
    JSON objects, and fields shorter than 4 GiB. *)
Record key_ok (req : AgentRequest) (ents : Entities) : Prop := {
  ko_values : Forall (λ v, wf_value v ∧ wf_numbers v)
    [principal_to_value (principal req); action_to_value (action req);
     resource_to_value (resource req); context_to_value (context req)];
  ko_entities : Forall (λ v, ∃ m, v = VObject m) (entity_values ents);
  ko_fits : Forall fits (key_blocks req ents);
}.

Lemma canonical_object_head m : ∃ t, write_canonical_value (VObject m) = String "{" t.
Proof. simpl. by eexists. Qed.

(** The trailing trace is told from an entity by its first character. *)
Lemma entities_trace_inj (es es' : list bytes) (t t' : option TraceContext) :
  Forall (λ b, ∃ r, b = String "{" r) es → Forall (λ b, ∃ r, b = String "{" r) es' →
  es ++ match t with Some t => [trace_display t] | None => [] end
  = es' ++ match t' with Some t => [trace_display t] | None => [] end →
  es = es' ∧ trace_display <$> t = trace_display <$> t'.
Proof.
  intros Hes Hes' Heq. destruct t as [t|], t' as [t'|]; rewrite ?app_nil_r in Heq; simpl.
  - apply app_inj_tail in Heq as [-> Ht]. by rewrite Ht.
  - exfalso. rewrite <-Heq in Hes'. apply Forall_app in Hes' as [_ Ht].
    inversion Ht as [|? ? [r Hr]]; subst. discriminate.
  - exfalso. rewrite Heq in Hes. apply Forall_app in Hes as [_ Ht].
    inversion Ht as [|? ? [r Hr]]; subst. discriminate.
  - done.
Qed.

Lemma sorted_entities_objects ents :
  Forall (λ v, ∃ m, v = VObject m) (entity_values ents) →
  Forall (λ b, ∃ r, b = String "{" r)
    (merge_sort str_le (write_canonical_value <$> entity_values ents)).
Proof.
  intros Hv. rewrite merge_sort_Permutation. apply Forall_fmap.
  eapply Forall_impl; [exact Hv|]. intros v [m ->]. apply canonical_object_head.
Qed.

(** Two requests are the same to a cache key. *)
Record same_key (req req' : AgentRequest) (ents ents' : Entities) : Prop := {
  sk_principal : norm (principal_to_value (principal req)) = norm (principal_to_value (principal req'));
  sk_action : norm (action_to_value (action req)) = norm (action_to_value (action req'));
  sk_resource : norm (resource_to_value (resource req)) = norm (resource_to_value (resource req'));
  sk_context : norm (context_to_value (context req)) = norm (context_to_value (context req'));
  sk_entities : (write_canonical_value <$> entity_values ents)
                ≡ₚ (write_canonical_value <$> entity_values ents');
  sk_trace : trace_display <$> trace req = trace_display <$> trace req';
}.

Lemma key_blocks_inj req req' ents ents' :
  key_ok req ents → key_ok req' ents' →
  key_blocks req ents = key_blocks req' ents' → same_key req req' ents ents'.
Proof.
  intros [Hv He Hf] [Hv' He' Hf'] Heq. unfold key_blocks in Heq.
  rewrite !Forall_cons in Hv, Hv'.
  destruct Hv as ([? ?] & [? ?] & [? ?] & [? ?] & _), Hv' as ([? ?] & [? ?] & [? ?] & [? ?] & _).
  apply four_inj in Heq as (Hp & Ha & Hr & Hc & Hrest).
  apply entities_trace_inj in Hrest as [Hes Ht]; [|by apply sorted_entities_objects..].
  apply canonical_norm in Hp, Ha, Hr, Hc; try done.
  split; try done.
  etransitivity; [symmetry; apply (merge_sort_Permutation str_le)|].
  by rewrite Hes, merge_sort_Permutation.
Qed.

(** The policy version is the last eight bytes. *)
Lemma key_preimage_split req req' ents ents' v v' :
  key_ok req ents → key_ok req' ents' →
  key_preimage req ents v = key_preimage req' ents' v' →
  key_blocks req ents = key_blocks req' ents' ∧ be_bytes 8 v = be_bytes 8 v'.
Proof.
  intros [_ _ Hf] [_ _ Hf'] Heq. unfold key_preimage in Heq.
  apply string_app_inj_2 in Heq as [Heq Hb]; [|by rewrite !be_bytes_length].
  by apply frames_inj in Heq.
Qed.

(** C9: the bytes hashed for a cache key determine everything the key is meant to cover:
    principal, action, resource and context up to the order of object members, the
    multiset of entities, the trace and the policy version. *)
Theorem key_preimage_inj req req' ents ents' v v' :
  key_ok req ents → key_ok req' ents' → in_u64 v → in_u64 v' →
  key_preimage req ents v = key_preimage req' ents' v' →
  same_key req req' ents ents' ∧ v = v'.
Proof.
  intros Hok Hok' Hver Hver' [Hb Hv]%key_preimage_split; [|done..].
  split; [by apply key_blocks_inj|]. apply be_bytes_inj in Hv; [done|unfold_ints; simpl; lia..].
Qed.
End key_inj.

(** ** Entries and configuration *)

Record CachedDecision : Type := mkCachedDecision {
  c_effect : string;
  c_policies : list string;
  c_reasons : list string;
  cached_at_policy_version : Z;
}.

Definition cached_allow : CachedDecision := mkCachedDecision "allow" [] [] 0.
Definition cached_deny : CachedDecision := mkCachedDecision "deny" [] [] 0.

Record CacheConfig : Type := mkCacheConfig {
  capacity : Z;
  allow_ttl : Z;
  deny_ttl : Z;
  cache_denies : bool;
}.

Definition seconds (n : Z) : Z := n * 1000000000.
Definition default_cache_config : CacheConfig :=
  mkCacheConfig 10000 (seconds 60) (seconds 5) true.

(** [v.parse::<usize>().ok().filter(|n| *n > 0)] *)
Definition parse_capacity (s : string) : option Z :=
  match parse_unsigned usize_max s with
  | Some n => if 0 <? n then Some n else None
  | None => None
  end.

Section config.
Context `{DurationText}.

Definition try_config_from_overrides (cache_ttl deny_ttl' cap : option string) :
    result string CacheConfig :=
  let cfg := default_cache_config in
  a ← match cache_ttl with
      | Some t => map_err (λ e, "AGENTGUARD_CACHE_TTL: " +:+ e) (parse_duration t)
      | None => Ok (allow_ttl cfg)
      end;
  d ← match deny_ttl' with
      | Some t => map_err (λ e, "AGENTGUARD_DENY_CACHE_TTL: " +:+ e) (parse_duration t)
      | None => Ok (deny_ttl cfg)
      end;
  c ← match cap with
      | Some s => ok_or (parse_capacity s)
                    "AGENTGUARD_CACHE_CAPACITY must be a positive integer when set"
      | None => Ok (capacity cfg)
      end;
  Ok (mkCacheConfig c a d (cache_denies cfg)).

(** A value that does not parse leaves the default. *)
Definition config_from_overrides (cache_ttl deny_ttl' cap : option string) : CacheConfig :=
  let cfg := default_cache_config in
  mkCacheConfig
    (default (capacity cfg) (cap ≫= parse_capacity))
    (default (allow_ttl cfg) (cache_ttl ≫= λ t, to_ok (parse_duration t)))
    (default (deny_ttl cfg) (deny_ttl' ≫= λ t, to_ok (parse_duration t)))
    (cache_denies cfg).

(** [std::env::var] of one variable. *)
Definition read_env (name : string) (v : env_var) : result string (option string) :=
  match v with
  | EnvValue v => Ok (Some v)
  | EnvNotPresent => Ok None
  | EnvNotUnicode => Err (name +:+ " must be valid Unicode")
  end.
Definition env_ok (v : env_var) : option string :=
  match v with EnvValue v => Some v | _ => None end.

Definition try_config_from_env (ttl_var deny_var cap_var : env_var) : result string CacheConfig :=
  t ← read_env "AGENTGUARD_CACHE_TTL" ttl_var;
  d ← read_env "AGENTGUARD_DENY_CACHE_TTL" deny_var;
  c ← read_env "AGENTGUARD_CACHE_CAPACITY" cap_var;
  try_config_from_overrides t d c.

Definition config_from_env (ttl_var deny_var cap_var : env_var) : CacheConfig :=
  config_from_overrides (env_ok ttl_var) (env_ok deny_var) (env_ok cap_var).
End config.

(** ** The map underneath *)

(** [lru::LruCache]: [peek] and [pop] by key, [push] which returns what it displaced,
    [iter] and [len]. *)
Class Lru (K V : Type) := {
  lru : Type;
  lru_new : Z → lru;
  lru_peek : lru → K → option V;
  lru_push : lru → K → V → option (K * V) * lru;
  lru_pop : lru → K → lru;
  lru_iter : lru → list (K * V);
}.
Arguments lru K V {_}.

(** What the crate documents: keys are distinct, [peek] finds what [iter] lists, [push]
    puts the new entry in, in place of the one with the same key, keeps others or
    displaces one, and never exceeds the capacity. *)
Class LruLaws (K V : Type) `{Lru K V} := {
  lru_cap : lru K V → Z;
  lru_new_iter c : lru_iter (lru_new c) = [] ∧ lru_cap (lru_new c) = c;
  lru_peek_iter l k v : lru_peek l k = Some v ↔ (k, v) ∈ lru_iter l;
  lru_push_iter l k v x :
    x ∈ lru_iter (lru_push l k v).2 → x = (k, v) ∨ x ∈ lru_iter l ∧ x.1 ≠ k;
  lru_push_peek l k v : lru_peek (lru_push l k v).2 k = Some v;
  lru_push_cap l k v : lru_cap (lru_push l k v).2 = lru_cap l;
  lru_push_len l k v :
    0 < lru_cap l → Z.of_nat (length (lru_iter l)) ≤ lru_cap l →
    Z.of_nat (length (lru_iter (lru_push l k v).2)) ≤ lru_cap l;
  lru_pop_iter l k x : x ∈ lru_iter (lru_pop l k) ↔ x ∈ lru_iter l ∧ x.1 ≠ k;
  lru_pop_cap l k : lru_cap (lru_pop l k) = lru_cap l;
  lru_pop_len l k : (length (lru_iter (lru_pop l k)) ≤ length (lru_iter l))%nat;
}.

(** ** The cache *)

Section cache.
Context `{Lru bytes (CachedDecision * Z)}.

Record DecisionCache : Type := mkDecisionCache {
  cfg : CacheConfig;
  policy_version : Z;
  entries : lru bytes (CachedDecision * Z);
  hits : Z;
  misses : Z;
  evictions : Z;
}.

(** [Instant::checked_add]: [range] is the latest instant the clock can represent; the
    clock is read twice. *)
Definition try_new (config : CacheConfig) (now now' range : Z) : result string DecisionCache :=
  _ ← bail_if (capacity config =? 0) "cache capacity must be greater than zero";
  _ ← bail_if (range <? now + allow_ttl config)
        "allow cache TTL exceeds the monotonic clock range";
  _ ← bail_if (range <? now' + deny_ttl config)
        "deny cache TTL exceeds the monotonic clock range";
  Ok (mkDecisionCache config 0 (lru_new (capacity config)) 0 0 0).

(** [DecisionCache::new]: [None] is its panic. *)
Definition cache_new (config : CacheConfig) (now now' range : Z) : option DecisionCache :=
  to_ok (try_new config now now' range).

Definition disabled : DecisionCache :=
  let c := mkCacheConfig 1 (allow_ttl default_cache_config) (deny_ttl default_cache_config)
             (cache_denies default_cache_config) in
  mkDecisionCache c 0 (lru_new 1) 0 0 0.

Definition set_policy_version (c : DecisionCache) (v : Z) : DecisionCache :=
  mkDecisionCache (cfg c) v (entries c) (hits c) (misses c) (evictions c).

Definition invalidate_all (c : DecisionCache) : DecisionCache :=
  set_policy_version c (u64_wrap (policy_version c + 1)).

Definition miss (c : DecisionCache) : DecisionCache :=
  mkDecisionCache (cfg c) (policy_version c) (entries c) (hits c) (u64_wrap (misses c + 1))
    (evictions c).
Definition hit (c : DecisionCache) : DecisionCache :=
  mkDecisionCache (cfg c) (policy_version c) (entries c) (u64_wrap (hits c + 1)) (misses c)
    (evictions c).

Definition cache_get (c : DecisionCache) (key : bytes) (now : Z) :
    option CachedDecision * DecisionCache :=
  match lru_peek (entries c) key with
  | Some (cached, expires_at) =>
      if negb (cached_at_policy_version cached =? policy_version c) then (None, miss c)
      else if expires_at <=? now then (None, miss c)
      else (Some cached, hit c)
  | None => (None, miss c)
  end.

Definition is_stale (c : DecisionCache) (now : Z) (e : CachedDecision * Z) : bool :=
  negb (cached_at_policy_version e.1 =? policy_version c) || (e.2 <=? now).

Definition set_entries (c : DecisionCache) (l : lru bytes (CachedDecision * Z)) : DecisionCache :=
  mkDecisionCache (cfg c) (policy_version c) l (hits c) (misses c) (evictions c).

Definition sweep_stale (c : DecisionCache) (now : Z) : Z * DecisionCache :=
  let stale := (filter (λ kv, is_stale c now kv.2 = true) (lru_iter (entries c))).*1 in
  let l := fold_left lru_pop stale (entries c) in
  (Z.max 0 (Z.of_nat (length (lru_iter (entries c))) - Z.of_nat (length (lru_iter l))),
   set_entries c l).

Definition ttl_of (c : DecisionCache) (effect : string) : option Z :=
  if bool_decide (effect = "allow") then Some (allow_ttl (cfg c))
  else if bool_decide (effect = "deny") && cache_denies (cfg c) then Some (deny_ttl (cfg c))
  else None.

(** The sum [now + ttl] is that of [try_new]'s check, at a later time; it is not bounded
    here. *)
Definition cache_put (c : DecisionCache) (key : bytes) (decision : CachedDecision) (now : Z) :
    DecisionCache :=
  match ttl_of c (c_effect decision) with
  | None => c
  | Some ttl =>
      let '(prev, l) := lru_push (entries c) key (decision, now + ttl) in
      let evicted := match prev with Some (k, _) => bool_decide (k ≠ key) | None => false end in
      mkDecisionCache (cfg c) (policy_version c) l (hits c) (misses c)
        (if evicted then u64_wrap (evictions c + 1) else evictions c)
  end.

Record CacheStats : Type := mkCacheStats {
  st_hits : Z;
  st_misses : Z;
  st_evictions : Z;
  st_size : Z;
  st_policy_version : Z;
}.

Definition stats (c : DecisionCache) : CacheStats :=
  mkCacheStats (hits c) (misses c) (evictions c) (Z.of_nat (length (lru_iter (entries c))))
    (policy_version c).

(** ** What the cache can answer *)

(** A run of operations, with the log of what was put in and when. *)
Inductive cache_step : list (bytes * CachedDecision * Z) * DecisionCache →
    list (bytes * CachedDecision * Z) * DecisionCache → Prop :=
| cs_put log c k d now : cache_step (log, c) ((k, d, now) :: log, cache_put c k d now)
| cs_get log c k now : cache_step (log, c) (log, (cache_get c k now).2)
| cs_sweep log c now : cache_step (log, c) (log, (sweep_stale c now).2)
| cs_invalidate log c : cache_step (log, c) (log, invalidate_all c)
| cs_set_version log c v : cache_step (log, c) (log, set_policy_version c v).

Context `{!LruLaws bytes (CachedDecision * Z)}.

(** Every entry was put under its key and expires when its kind says; the capacity holds. *)
Record cache_inv (s : list (bytes * CachedDecision * Z) * DecisionCache) : Prop := {
  ci_entries k d e : (k, (d, e)) ∈ lru_iter (entries s.2) →
    ∃ now ttl, (k, d, now) ∈ s.1 ∧ ttl_of s.2 (c_effect d) = Some ttl ∧ e = now + ttl;
  ci_size : Z.of_nat (length (lru_iter (entries s.2))) ≤ lru_cap (entries s.2);
  ci_cap : lru_cap (entries s.2) = capacity (cfg s.2) ∧ 0 < capacity (cfg s.2);
}.

Lemma pop_all_iter ks l x :
  x ∈ lru_iter (fold_left lru_pop ks l) ↔ x ∈ lru_iter l ∧ x.1 ∉ ks.
Proof.
  revert l. induction ks as [|k ks IH]; intros l; simpl; [set_solver|].
  rewrite IH, lru_pop_iter, not_elem_of_cons. tauto.
Qed.

Lemma pop_all_cap ks l : lru_cap (fold_left lru_pop ks l) = lru_cap l.
Proof. revert l. induction ks as [|k ks IH]; intros l; simpl; [done|]. by rewrite IH, lru_pop_cap. Qed.

Lemma pop_all_len ks l :
  (length (lru_iter (fold_left lru_pop ks l)) ≤ length (lru_iter l))%nat.
Proof.
  revert l. induction ks as [|k ks IH]; intros l; simpl; [done|].
  etransitivity; [apply IH|apply lru_pop_len].
Qed.

Lemma try_new_fresh config now now' range c :
  try_new config now now' range = Ok c →
  lru_iter (entries c) = [] ∧ lru_cap (entries c) = capacity config ∧ cfg c = config ∧
  policy_version c = 0 ∧ capacity config ≠ 0.
Proof.
  unfold try_new. intros Hnew. res_inv. bool_inv. subst c. simpl.
  destruct (lru_new_iter (K := bytes) (V := CachedDecision * Z) (capacity config)). done.
Qed.

(** [cache_get] changes the counters only. *)
Lemma cache_get_state c k now :
  let c' := (cache_get c k now).2 in
  cfg c' = cfg c ∧ policy_version c' = policy_version c ∧ entries c' = entries c.
Proof. unfold cache_get. by repeat case_match. Qed.

Lemma cache_put_iter c k d now k' d' t :
  (k', (d', t)) ∈ lru_iter (entries (cache_put c k d now)) →
  k' = k ∧ d' = d ∨ (k', (d', t)) ∈ lru_iter (entries c).
Proof.
  unfold cache_put. destruct (ttl_of c (c_effect d)) as [ttl|]; [|by right].
  destruct (lru_push (entries c) k (d, now + ttl)) as [prev l] eqn:Hp. simpl.
  replace l with (lru_push (entries c) k (d, now + ttl)).2 by by rewrite Hp.
  intros [[= -> -> _]|[Hin _]]%lru_push_iter; auto.
Qed.

Lemma cache_put_inv log c k d now :
  cache_inv (log, c) → cache_inv ((k, d, now) :: log, cache_put c k d now).
Proof.
  intros [He Hs [Hc Hpos]]. simpl in *. unfold cache_put.
  destruct (ttl_of c (c_effect d)) as [ttl|] eqn:Httl.
  - destruct (lru_push (entries c) k (d, now + ttl)) as [prev l] eqn:Hp.
    assert (l = (lru_push (entries c) k (d, now + ttl)).2) as -> by by rewrite Hp.
    split; simpl.
    + intros k' d' e' [[= -> -> ->]|[Hin _]]%lru_push_iter; [exists now, ttl; set_solver|].
      destruct (He _ _ _ Hin) as (n & t & Hlog & Ht & ->). exists n, t. set_solver.
    + rewrite lru_push_cap. apply lru_push_len; [by rewrite Hc|done].
    + by rewrite lru_push_cap.
  - split; simpl; [|done..]. intros k' d' e' Hin.
    destruct (He _ _ _ Hin) as (n & t & Hlog & Ht & ->). exists n, t. set_solver.
Qed.

Lemma cache_step_inv s s' : cache_step s s' → cache_inv s → cache_inv s'.
Proof.
  intros [log c k d now|log c k now|log c now|log c|log c v] Hinv; [by apply cache_put_inv| | | |].
  - destruct (cache_get_state c k now) as (Hcfg & _ & Hent). destruct Hinv as [He Hs Hc].
    split; simpl in *; rewrite ?Hent, ?Hcfg; try done.
    intros k' d' e' Hin. unfold ttl_of. rewrite Hcfg. by apply He.
  - destruct Hinv as [He Hs Hc]. split; simpl in *.
    + intros k' d' e' [Hin _]%pop_all_iter. by apply He.
    + rewrite pop_all_cap. pose proof (pop_all_len
        (filter (λ kv, is_stale c now kv.2 = true) (lru_iter (entries c))).*1 (entries c)). lia.
    + by rewrite pop_all_cap.
  - by destruct Hinv.
  - by destruct Hinv.
Qed.

(** C11: the cache never answers with a decision that was not stored for that very key
    under the current policy version, nor after its time to live, nor with a denial when
    denials are not cached; and it never holds more entries than its capacity, whether it
    answers or not. *)
Theorem cache_answers_are_fresh config t1 t2 range c0 log c :
  try_new config t1 t2 range = Ok c0 → 0 ≤ capacity config → rtc cache_step ([], c0) (log, c) →
  Z.of_nat (length (lru_iter (entries c))) ≤ capacity (cfg c) ∧
  ∀ k now d, (cache_get c k now).1 = Some d →
  cached_at_policy_version d = policy_version c ∧
  ∃ stored ttl, (k, d, stored) ∈ log ∧ now < stored + ttl ∧
    (c_effect d = "allow" ∧ ttl = allow_ttl (cfg c) ∨
     c_effect d = "deny" ∧ ttl = deny_ttl (cfg c) ∧ cache_denies (cfg c) = true).
Proof.
  intros (Hi & Hk & Hcfg & _ & Hne)%try_new_fresh Hcap0 Hrun.
  assert (cache_inv (log, c)) as [He Hs [Hc Hpos]].
  { eapply rtc_invariant; [exact cache_step_inv|exact Hrun|].
    split; simpl; rewrite ?Hi, ?Hk, ?Hcfg; simpl; [|lia|lia]. by intros ? ? ? ?%elem_of_nil. }
  simpl in *. split; [lia|]. intros k now d Hget. unfold cache_get in Hget.
  destruct (lru_peek (entries c) k) as [[d' e]|] eqn:Hpeek; [|done].
  destruct (cached_at_policy_version d' =? policy_version c) eqn:Hver; simpl in Hget; [|done].
  destruct (e <=? now) eqn:Hexp; [done|]. injection Hget as ->. bool_inv.
  apply lru_peek_iter in Hpeek. destruct (He _ _ _ Hpeek) as (stored & ttl & Hlog & Httl & ->).
  split; [done|]. exists stored, ttl. split; [done|]. split; [done|].
  unfold ttl_of in Httl. repeat case_bool_decide; simpl in Httl; [naive_solver| |done].
  destruct (cache_denies (cfg c)) eqn:Hden; naive_solver.
Qed.
End cache.
