(* ===== verification/Engine.v ===== *)
(** * The authorizer ([agentguard-core/src/authorize/engine.rs], [request.rs])

    [Authorizer]: Cedar evaluation of a request behind an optional decision cache.
    Cedar comes as a class; the cache is the one of [Cache]. *)

From S2P Require Import Prelude Json CoreError Crypto Trace Request DecisionRecord Canonical AuditLog Cache.

(** ** Cedar *)

Class Cedar `{CedarEntities} := {
  EntityTypeName : Type;
  CedarContext : Type;
  CedarRequest : Type;
  Schema : Type;
  PolicySet : Type;
  (** [EntityTypeName::from_str] *)
  entity_type_name : string → result string EntityTypeName;
  (** [Context::from_json_str] *)
  context_from_json : bytes → option (Schema * (EntityTypeName * string)) →
    result string CedarContext;
  (** [Request::new] *)
  cedar_request_new : EntityTypeName * string → EntityTypeName * string → EntityTypeName * string →
    CedarContext → option Schema → result string CedarRequest;
  (** [Authorizer::is_authorized]: the decision, the ids of the determining policies and
      the evaluation errors. *)
  is_authorized : CedarRequest → PolicySet → Entities → Effect * list string * list string;
}.

(** A context does not depend on the order of JSON members (the text of an error may),
    and an entity set is determined by the JSON of its entities. *)
Class CedarLaws `{Cedar, JsonText, JsonScalars} : Prop := {
  context_order v w sc c :
    wf_value v → wf_value w → norm v = norm w →
    context_from_json (json_to_vec v) sc = Ok c → context_from_json (json_to_vec w) sc = Ok c;
  entities_json r p e e' :
    (write_canonical_value <$> entity_values e) ≡ₚ (write_canonical_value <$> entity_values e') →
    is_authorized r p e = is_authorized r p e';
}.

Section engine.
Context `{Cedar, JsonText, JsonScalars, Hex, Sha256, Lru bytes (CachedDecision * Z)}.

(** ** Requests for Cedar *)

Definition to_cedar_request (req : AgentRequest) (schema : option Schema) : cresult CedarRequest :=
  let ptype := principal_type (principal req) in
  p ← map_err (λ e, InvalidPrincipal (ptype +:+ ": " +:+ e)) (entity_type_name ptype);
  let principal_uid := (p, principal_id (principal req)) in
  a ← map_err (λ e, InvalidPrincipal ("Action: " +:+ e)) (entity_type_name "Action");
  let action_uid := (a, action_id (action req)) in
  let rtype := entity_type (resource req) in
  r ← map_err (λ e, InvalidResource (rtype +:+ ": " +:+ e)) (entity_type_name rtype);
  let resource_uid := (r, res_uid (resource req)) in
  let ctx_json := VObject (to_json_object (context req)) in
  c ← map_err InvalidContext
        (context_from_json (json_to_vec ctx_json) ((λ s, (s, action_uid)) <$> schema));
  map_err InvalidContext (cedar_request_new principal_uid action_uid resource_uid c schema).

(** ** The authorizer *)

Record Authorizer : Type := mkAuthorizer {
  schema : option Schema;
  policy_set : PolicySet;
  cache : option DecisionCache;
}.

Definition with_cache_state (a : Authorizer) (c : option DecisionCache) : Authorizer :=
  mkAuthorizer (schema a) (policy_set a) c.

Definition try_with_cache (a : Authorizer) (config : CacheConfig) (now now' range : Z) :
    result string Authorizer :=
  c ← try_new config now now' range; Ok (with_cache_state a (Some c)).

(** [None] is the panic of an invalid configuration. *)
Definition with_cache (a : Authorizer) (config : CacheConfig) (now now' range : Z) :
    option Authorizer :=
  c ← cache_new config now now' range; Some (with_cache_state a (Some c)).

Definition invalidate_cache (a : Authorizer) : Authorizer :=
  with_cache_state a (invalidate_all <$> cache a).

Definition sweep_stale_cache (a : Authorizer) (now : Z) : Z * Authorizer :=
  match cache a with
  | Some c => let '(n, c) := sweep_stale c now in (n, with_cache_state a (Some c))
  | None => (0, a)
  end.

(** [{:?}] of Cedar's decision. *)
Definition decision_debug (e : Effect) : string :=
  match e with Allow => "Allow" | Deny => "Deny" end.

Definition build_trace (e : Effect) (matched errors : list string) : Value :=
  VObject ([("decision", VString (decision_debug e)); ("matched_policies", strings matched)]
           ++ match errors with [] => [] | _ => [("errors", strings errors)] end).

(** The evaluation itself, without the cache. *)
Definition evaluate_request (a : Authorizer) (req : AgentRequest) (ents : Entities) :
    cresult (Effect * list string * list string) :=
  r ← to_cedar_request req (schema a); Ok (is_authorized r (policy_set a) ents).

Definition effect_of_str (s : string) : cresult Effect :=
  if bool_decide (s = "allow") then Ok Allow
  else if bool_decide (s = "deny") then Ok Deny
  else Err (Other ("corrupt cache entry: bad effect " +:+ debug_str s)).

Definition version (a : Authorizer) : Z :=
  match cache a with Some c => policy_version c | None => 0 end.

(** The accesses to the cache; the versions are those read before, as other threads may
    invalidate in between. *)
Definition lookup_cached (a : Authorizer) (req : AgentRequest) (ents : Entities) (v now : Z) :
    option CachedDecision * Authorizer :=
  match cache a with
  | None => (None, a)
  | Some c =>
      let '(found, c) := cache_get c (for_request_with_entities req ents v) now in
      (found, with_cache_state a (Some c))
  end.

Definition fill_cache (a : Authorizer) (req : AgentRequest) (ents : Entities) (e : Effect)
    (pols errs : list string) (v v' now : Z) : Authorizer :=
  match cache a with
  | None => a
  | Some c =>
      with_cache_state a (Some (cache_put c (for_request_with_entities req ents v)
                                  (mkCachedDecision (effect_display e) pols errs v') now))
  end.

(** [now] is the clock reading of the lookup, [now'] that of the fill. *)
Definition authorize (a : Authorizer) (req : AgentRequest) (ents : Entities) (now now' : Z) :
    cresult Decision * Authorizer :=
  let '(found, a) := lookup_cached a req ents (version a) now in
  match found with
  | Some cached =>
      (e ← effect_of_str (c_effect cached);
       Ok (mkDecision e (c_policies cached) (c_reasons cached) (request_to_value req) None true), a)
  | None =>
      match evaluate_request a req ents with
      | Err e => (Err e, a)
      | Ok (e, pols, errs) =>
          (Ok (mkDecision e pols errs (request_to_value req) (Some (build_trace e pols errs)) false),
           fill_cache a req ents e pols errs (version a) (version a) now')
      end
  end.

(** ** Interleavings *)

(** The atomic effects of concurrent [authorize], [invalidate_cache] and
    [sweep_stale_cache] calls, with the log of the requests whose decisions were stored.
    The versions of a lookup or a fill are whatever the calling thread read earlier. *)
Inductive atomic_step : list (AgentRequest * Entities) * Authorizer →
    list (AgentRequest * Entities) * Authorizer → Prop :=
| at_lookup log a req ents v now :
    atomic_step (log, a) (log, (lookup_cached a req ents v now).2)
| at_fill log a req ents e pols errs v v' now :
    key_ok req ents → evaluate_request a req ents = Ok (e, pols, errs) →
    atomic_step (log, a) ((req, ents) :: log, fill_cache a req ents e pols errs v v' now)
| at_invalidate log a : atomic_step (log, a) (log, invalidate_cache a)
| at_sweep log a now : atomic_step (log, a) (log, (sweep_stale_cache a now).2).
End engine.

(** ** Requests with the same key are the same to Cedar *)

Lemma assoc_insert_fresh {A} k (v : A) m : k ∉ keys m → assoc_insert k v m = m ++ [(k, v)].
Proof.
  induction m as [|[j w] m IH]; simpl; [done|]. intros [Hne Hin]%not_elem_of_cons.
  rewrite bool_decide_eq_false_2 by done. by rewrite IH.
Qed.

Lemma assoc_extend_id {A} (m src : list (string * A)) :
  NoDup (keys (m ++ src)) → assoc_extend m src = m ++ src.
Proof.
  unfold assoc_extend. revert m. induction src as [|[k v] src IH]; intros m Hnd; simpl.
  { by rewrite app_nil_r. }
  rewrite assoc_insert_fresh.
  - rewrite IH; [by rewrite <-app_assoc|]. by rewrite <-app_assoc.
  - unfold keys in Hnd. rewrite fmap_app in Hnd. apply NoDup_app in Hnd as (_ & Hd & _).
    intros Hk. apply (Hd k Hk). set_solver.
Qed.

Lemma wf_assoc_insert k v m :
  wf_value v → wf_value (VObject m) → wf_value (VObject (assoc_insert k v m)).
Proof.
  rewrite !wf_object. intros Hv [Hnd Hall]. split; [by apply NoDup_assoc_insert|].
  induction m as [|[j w] m IH]; simpl; [by constructor|].
  apply Forall_cons in Hall as [Hw Hall]. apply NoDup_cons in Hnd as [_ Hnd].
  case_bool_decide; constructor; auto.
Qed.

(** The members a context contributes, without the copying. *)
Lemma to_json_object_eq c :
  wf_value (context_to_value c) →
  wf_value (args c) ∧ wf_value (VObject (session c)) ∧
  to_json_object c =
    let m := default [] (as_object (args c)) in
    if bool_decide (session c = []) then m else assoc_insert "session" (VObject (session c)) m.
Proof.
  unfold context_to_value. intros [_ Hall]%wf_object. rewrite !Forall_cons in Hall.
  destruct Hall as (Ha & Hs & _). cbn [snd] in Ha, Hs. split; [done|]. split; [done|].
  assert (Hm : match args c with VObject m => assoc_extend [] m | _ => [] end
               = default [] (as_object (args c))).
  { destruct (args c); try done. apply wf_object in Ha as [Hnd _]. by apply assoc_extend_id. }
  unfold to_json_object. rewrite Hm. destruct (session c) as [|kv s] eqn:Hsess; [done|].
  rewrite bool_decide_eq_false_2 by done. apply wf_object in Hs as [Hnd _].
  by rewrite assoc_extend_id.
Qed.

Lemma norm_insert k v w m m' :
  wf_value (VObject m) → wf_value (VObject m') → norm v = norm w →
  norm (VObject m) = norm (VObject m') →
  norm (VObject (assoc_insert k v m)) = norm (VObject (assoc_insert k w m')).
Proof.
  intros [Hm _]%wf_object [Hm' _]%wf_object Hvw Heq.
  pose proof (proj1 (norm_object_iff m m' Hm Hm') Heq) as Hget.
  apply norm_object_iff; [by apply NoDup_assoc_insert..|]. intros j.
  destruct (decide (k = j)) as [<-|Hne].
  - rewrite !assoc_insert_eq. simpl. by rewrite Hvw.
  - by rewrite !assoc_insert_ne.
Qed.

Lemma norm_members v w :
  wf_value v → wf_value w → norm v = norm w →
  let m := default [] (as_object v) in let m' := default [] (as_object w) in
  wf_value (VObject m) ∧ wf_value (VObject m') ∧ norm (VObject m) = norm (VObject m').
Proof. destruct v, w; try done; intros ? ? [=]; split_and!; simpl; auto using NoDup_nil_2. Qed.

Lemma norm_to_json_object c c' :
  wf_value (context_to_value c) → wf_value (context_to_value c') →
  norm (context_to_value c) = norm (context_to_value c') →
  let v := VObject (to_json_object c) in let v' := VObject (to_json_object c') in
  wf_value v ∧ wf_value v' ∧ norm v = norm v'.
Proof.
  intros Hc Hc' Heq v v'. subst v v'.
  pose proof Hc as [Hnd _]%wf_object. pose proof Hc' as [Hnd' _]%wf_object.
  pose proof (proj1 (norm_object_iff _ _ Hnd Hnd') Heq) as Hget.
  pose proof (Hget "args") as [= Ha]. pose proof (Hget "session") as [= Hs]. clear Hget Heq.
  destruct (to_json_object_eq c Hc) as (Hwa & Hws & ->).
  destruct (to_json_object_eq c' Hc') as (Hwa' & Hws' & ->).
  destruct (norm_members _ _ Hwa Hwa' Ha) as (Hm & Hm' & Hmm). cbn zeta.
  assert (Hs' : norm (VObject (session c)) = norm (VObject (session c'))) by (simpl; by f_equal).
  assert (Hemp : session c = [] ↔ session c' = []).
  { split; intros He; rewrite He in Hs'; [symmetry in Hs'|]; by apply norm_object_empty. }
  repeat case_bool_decide; try tauto.
  split_and!; [by apply wf_assoc_insert..|by apply norm_insert].
Qed.

(** Members of objects with the same normal form. *)
Lemma norm_get v w k :
  wf_value v → wf_value w → norm v = norm w → norm <$> get v k = norm <$> get w k.
Proof.
  destruct v, w; try done. intros [Hm _]%wf_object [Hm' _]%wf_object Heq.
  by apply norm_object_iff.
Qed.

Lemma norm_principal p q :
  wf_value (principal_to_value p) → wf_value (principal_to_value q) →
  norm (principal_to_value p) = norm (principal_to_value q) →
  principal_type p = principal_type q ∧ principal_id p = principal_id q.
Proof.
  intros Wp Wq Heq. pose proof (norm_get _ _ "type" Wp Wq Heq) as Ht.
  pose proof (norm_get _ _ "uid" Wp Wq Heq) as Hu.
  destruct p, q; simpl in Ht, Hu; try discriminate; by injection Hu as ->.
Qed.

Lemma norm_action a b :
  wf_value (action_to_value a) → wf_value (action_to_value b) →
  norm (action_to_value a) = norm (action_to_value b) → a = b.
Proof.
  intros Wa Wb Heq. pose proof (norm_get _ _ "tool" Wa Wb Heq) as Ht.
  pose proof (norm_get _ _ "operation" Wa Wb Heq) as Ho.
  destruct a as [ta [oa|]], b as [tb [ob|]]; simpl in Ht, Ho; by simplify_eq.
Qed.

Lemma norm_resource r q :
  wf_value (resource_to_value r) → wf_value (resource_to_value q) →
  norm (resource_to_value r) = norm (resource_to_value q) →
  entity_type r = entity_type q ∧ res_uid r = res_uid q.
Proof.
  intros Wr Wq Heq. pose proof (norm_get _ _ "entity_type" Wr Wq Heq) as Ht.
  pose proof (norm_get _ _ "uid" Wr Wq Heq) as Hu. simpl in Ht, Hu. by simplify_eq.
Qed.

Section same_request.
Context `{CedarLaws, !Hex, !Sha256, !Lru bytes (CachedDecision * Z)}.

Lemma same_key_cedar req req' ents ents' sc r :
  key_ok req ents → key_ok req' ents' → same_key req req' ents ents' →
  to_cedar_request req' sc = Ok r → to_cedar_request req sc = Ok r.
Proof.
  intros [Hv _ _] [Hv' _ _] [Hp Ha Hr Hc _ _]. rewrite !Forall_cons in Hv, Hv'.
  destruct Hv as ([Wp _] & [Wa _] & [Wr _] & [Wc _] & _).
  destruct Hv' as ([Wp' _] & [Wa' _] & [Wr' _] & [Wc' _] & _).
  destruct (norm_to_json_object _ _ Wc Wc' Hc) as (Wj & Wj' & Hj).
  destruct (norm_principal _ _ Wp Wp' Hp) as [Ept Epi].
  destruct (norm_resource _ _ Wr Wr' Hr) as [Ert Eru].
  unfold to_cedar_request. rewrite Ept, Epi, (norm_action _ _ Wa Wa' Ha), Ert, Eru.
  repeat (destruct (entity_type_name _); [simpl|done]).
  destruct (context_from_json (json_to_vec (VObject (to_json_object (context req')))) _)
    as [c|] eqn:Hctx; [|done].
  by rewrite (context_order _ _ _ _ Wj' Wj (eq_sym Hj) Hctx).
Qed.

Lemma same_key_evaluate a req req' ents ents' x :
  key_ok req ents → key_ok req' ents' → same_key req req' ents ents' →
  evaluate_request a req' ents' = Ok x → evaluate_request a req ents = Ok x.
Proof.
  unfold evaluate_request. intros Hok Hok' Hsame [r [Hr [= <-]]]%bind_Ok.
  rewrite (same_key_cedar req req' ents ents' (schema a) r) by done. simpl.
  f_equal. apply entities_json, Hsame.
Qed.
End same_request.

(** ** The cache does not change decisions *)

Section refinement.
Context `{!JsonScalars, !JsonScalarLaws, !CedarEntities, !Cedar, !JsonText, !CedarLaws}.
Context `{!Hex, !Sha256, !Lru bytes (CachedDecision * Z), !LruLaws bytes (CachedDecision * Z)}.

(** Two inputs of SHA-256 with the same digest. *)
Definition sha256_collision (x y : bytes) : Prop := x ≠ y ∧ sha256 x = sha256 y.

(** Every entry is Cedar's answer to a logged request, stored under a key of it. *)
Record engine_inv (a0 : Authorizer) (s : list (AgentRequest * Entities) * Authorizer) : Prop := {
  ei_schema : schema s.2 = schema a0;
  ei_policies : policy_set s.2 = policy_set a0;
  ei_entries c k d t : cache s.2 = Some c → (k, (d, t)) ∈ lru_iter (entries c) →
    ∃ req ents v e pols errs, (req, ents) ∈ s.1 ∧ k = for_request_with_entities req ents v ∧
      evaluate_request a0 req ents = Ok (e, pols, errs) ∧
      d = mkCachedDecision (effect_display e) pols errs (cached_at_policy_version d);
  ei_log : Forall (λ re, key_ok re.1 re.2) s.1;
}.

Lemma evaluate_request_ext a b req ents :
  schema a = schema b → policy_set a = policy_set b →
  evaluate_request a req ents = evaluate_request b req ents.
Proof. intros Hs Hp. unfold evaluate_request. by rewrite Hs, Hp. Qed.

Lemma engine_inv_cache a0 log a c c' :
  cache a = Some c → (∀ x, x ∈ lru_iter (entries c') → x ∈ lru_iter (entries c)) →
  engine_inv a0 (log, a) → engine_inv a0 (log, with_cache_state a (Some c')).
Proof.
  intros Hc Hsub [Hs Hp He Hl]. split; try done. simpl in *.
  intros c1 k d t [= <-] Hin. eapply He; eauto.
Qed.

Lemma fill_cache_inv a0 log a req ents e pols errs v v' now :
  key_ok req ents → evaluate_request a req ents = Ok (e, pols, errs) →
  engine_inv a0 (log, a) →
  engine_inv a0 ((req, ents) :: log, fill_cache a req ents e pols errs v v' now).
Proof.
  intros Hok Hev [Hs Hp He Hl]. simpl in *. rewrite (evaluate_request_ext a a0) in Hev by done.
  unfold fill_cache. split; simpl; [by destruct (cache a)..| |by constructor].
  intros c k d t Hc Hin.
  assert ((∃ c', cache a = Some c' ∧ (k, (d, t)) ∈ lru_iter (entries c')) ∨
          k = for_request_with_entities req ents v ∧
          d = mkCachedDecision (effect_display e) pols errs v') as [(c' & Hc' & Hold)|[-> ->]].
  { destruct (cache a) as [c'|] eqn:Hca; [|congruence]. simpl in Hc. injection Hc as <-.
    apply cache_put_iter in Hin as [Hin|Hin]; eauto. }
  - destruct (He _ _ _ _ Hc' Hold) as (r & es & w & ef & ps & er & Hin' & Hrest).
    exists r, es, w, ef, ps, er. split; [by right|done].
  - exists req, ents, v, e, pols, errs. split; [by left|done].
Qed.

Lemma atomic_step_inv a0 s s' : atomic_step s s' → engine_inv a0 s → engine_inv a0 s'.
Proof.
  intros Hstep Hinv.
  destruct Hstep as [log a req ents v now|log a req ents e pols errs v v' now Hok Hev|log a|log a now].
  - simpl. unfold lookup_cached. destruct (cache a) as [c|] eqn:Hc; [|done].
    pose proof (cache_get_state c (for_request_with_entities req ents v) now) as (_ & _ & Hent).
    destruct (cache_get c _ now) as [found c']. simpl in *.
    eapply engine_inv_cache; [done| |done]. by rewrite Hent.
  - by apply fill_cache_inv.
  - simpl. unfold invalidate_cache. destruct (cache a) as [c|] eqn:Hc; simpl.
    + by eapply engine_inv_cache.
    + destruct Hinv as [Hs Hp He Hl]. by split.
  - simpl. unfold sweep_stale_cache. destruct (cache a) as [c|] eqn:Hc; simpl; [|done].
    eapply engine_inv_cache; [done| |done]. simpl. intros x [Hx _]%pop_all_iter. done.
Qed.

Lemma try_with_cache_inv a config now now' range a0 :
  try_with_cache a config now now' range = Ok a0 → engine_inv a0 ([], a0).
Proof.
  unfold try_with_cache. intros [c [Hnew ?]]%bind_Ok. simplify_eq.
  apply try_new_fresh in Hnew as [Hi _]. split; try done. simpl.
  intros c' k d t [= <-]. rewrite Hi. by intros ?%elem_of_nil.
Qed.

(** A whole call is a sequence of atomic steps. *)
Lemma authorize_atomic log a req ents now now' :
  key_ok req ents →
  ∃ log', rtc atomic_step (log, a) (log', (authorize a req ents now now').2).
Proof.
  intros Hok. unfold authorize.
  pose proof (at_lookup log a req ents (version a) now) as Hl.
  destruct (lookup_cached a req ents (version a) now) as [found a']. simpl in Hl.
  destruct found as [d|]; [by exists log; apply rtc_once|].
  destruct (evaluate_request a' req ents) as [[[e pols] errs]|err] eqn:Hev;
    [|by exists log; apply rtc_once].
  exists ((req, ents) :: log). eapply rtc_l; [exact Hl|]. by apply rtc_once, at_fill.
Qed.

(** What a decision says, apart from where it came from. *)
Definition verdict (d : Decision) : Effect * list string * list string * Value :=
  (effect d, policies d, reasons d, d_request d).

Lemma lookup_found a req ents v now d a' :
  lookup_cached a req ents v now = (Some d, a') →
  ∃ c t, cache a = Some c ∧ cached_at_policy_version d = policy_version c ∧
    (for_request_with_entities req ents v, (d, t)) ∈ lru_iter (entries c).
Proof.
  unfold lookup_cached, cache_get. destruct (cache a) as [c|]; [|done].
  destruct (lru_peek (entries c) _) as [[d' t]|] eqn:Hpeek; [|done].
  repeat case_match; intros; simplify_eq. exists c, t. bool_inv.
  split; [done|]. split; [done|]. by apply lru_peek_iter.
Qed.

Lemma lookup_state a req ents v now :
  let a' := (lookup_cached a req ents v now).2 in
  schema a' = schema a ∧ policy_set a' = policy_set a.
Proof. unfold lookup_cached, cache_get. by repeat case_match; simplify_eq. Qed.

Lemma effect_of_display e : effect_of_str (effect_display e) = Ok e.
Proof. by destruct e. Qed.

(** C5: the decision cache is transparent.  Whatever interleaving of concurrent calls,
    invalidations and sweeps an authorizer has been through, [authorize] returns exactly
    what Cedar says of the request now: the same effect, policies and reasons, and an error
    exactly when the evaluation has one (the corrupt-entry error is unreachable).  Else two
    different requests would have been hashed to one key. *)
Theorem authorize_refines_cedar a config t1 t2 range a0 log a' req ents now now' :
  try_with_cache a config t1 t2 range = Ok a0 → rtc atomic_step ([], a0) (log, a') →
  key_ok req ents →
  verdict <$> (authorize a' req ents now now').1
    = (λ r, (r, request_to_value req)) <$> evaluate_request a' req ents ∨
  ∃ req' ents' v', (req', ents') ∈ log ∧
    sha256_collision (key_preimage req ents (version a')) (key_preimage req' ents' v').
Proof.
  intros Hnew Hrun Hok.
  assert (engine_inv a0 (log, a')) as [Hs Hp He Hl].
  { eapply rtc_invariant; [intros ? ?; apply (atomic_step_inv a0)|exact Hrun|].
    by eapply try_with_cache_inv. }
  simpl in *. unfold authorize.
  pose proof (lookup_state a' req ents (version a') now) as [Hs' Hp'].
  destruct (lookup_cached a' req ents (version a') now) as [[d|] a1] eqn:Hlook; simpl in *.
  - apply lookup_found in Hlook as (c & t & Hc & _ & Hin).
    destruct (He _ _ _ _ Hc Hin) as (req' & ents' & v' & e & pols & errs & Hlog & Hk & Hev & ->).
    destruct (decide (key_preimage req ents (version a') = key_preimage req' ents' v')) as [Heq|Hne].
    + left. pose proof (proj1 (Forall_forall _ _) Hl _ Hlog) as Hok'. simpl in Hok'.
      apply key_preimage_split in Heq as [Heq _]; [|done..].
      rewrite (evaluate_request_ext a' a0) by done.
      rewrite (same_key_evaluate a0 req req' ents ents' _ Hok Hok' (key_blocks_inj _ _ _ _ Hok Hok' Heq) Hev).
      simpl. by rewrite effect_of_display.
    + right. exists req', ents', v'. done.
  - left. rewrite (evaluate_request_ext a1 a') by done.
    by destruct (evaluate_request a' req ents) as [[[e pols] errs]|err].
Qed.

(** ** Invalidation *)

(** Whole calls, one after the other. *)
Inductive call_step : Authorizer → Authorizer → Prop :=
| call_authorize a req ents now now' : call_step a (authorize a req ents now now').2
| call_invalidate a : call_step a (invalidate_cache a)
| call_sweep a now : call_step a (sweep_stale_cache a now).2.

(** No entry is of a later version than the cache, and versions count invalidations. *)
Definition versions_ok (n : nat) (a : Authorizer) : Prop :=
  ∀ c, cache a = Some c →
    0 ≤ policy_version c ≤ Z.of_nat n ∧
    ∀ k d t, (k, (d, t)) ∈ lru_iter (entries c) → cached_at_policy_version d ≤ policy_version c.

Lemma versions_ok_le n m a : (n ≤ m)%nat → versions_ok n a → versions_ok m a.
Proof. intros Hle Hv c Hc. destruct (Hv c Hc). split; [lia|done]. Qed.

Lemma lookup_versions n a req ents v now :
  versions_ok n a → versions_ok n (lookup_cached a req ents v now).2.
Proof.
  unfold lookup_cached. intros Hv. destruct (cache a) as [c|] eqn:Hc; [|done].
  pose proof (cache_get_state c (for_request_with_entities req ents v) now) as (_ & Hver & Hent).
  destruct (cache_get c _ now) as [found c']. simpl in *. intros c1 [= <-].
  rewrite Hver, Hent. by apply Hv.
Qed.

Lemma fill_versions n a req ents e pols errs now :
  versions_ok n a → versions_ok n (fill_cache a req ents e pols errs (version a) (version a) now).
Proof.
  unfold fill_cache, version. intros Hv. destruct (cache a) as [c|] eqn:Hc; [|done].
  destruct (Hv c Hc) as [Hb Hent]. intros c1 [= <-].
  assert (Hpv : ∀ k d, policy_version (cache_put c k d now) = policy_version c).
  { intros k d. unfold cache_put. by repeat case_match. }
  rewrite !Hpv. split; [done|]. intros k d t [[-> ->]|Hin]%cache_put_iter; [done|by eapply Hent].
Qed.

Lemma call_step_versions n a a' :
  Z.of_nat n < u64_max → call_step a a' → versions_ok n a → versions_ok (S n) a'.
Proof.
  intros Hn Hstep Hv. assert (Hv' : versions_ok (S n) a) by (eapply versions_ok_le, Hv; lia).
  destruct Hstep as [a req ents now now'|a|a now].
  - unfold authorize. pose proof (lookup_versions _ a req ents (version a) now Hv') as Hl.
    destruct (lookup_cached a req ents (version a) now) as [[d|] a1]; [done|]. simpl in Hl.
    destruct (evaluate_request a1 req ents) as [[[e pols] errs]|err]; [|done].
    by apply fill_versions.
  - intros c1. unfold invalidate_cache. destruct (cache a) as [c|] eqn:Hc; [|done].
    intros [= <-]. destruct (Hv c Hc) as [Hb Hent].
    assert (Hw : u64_wrap (policy_version c + 1) = policy_version c + 1).
    { unfold u64_wrap. unfold_ints. rewrite Z.mod_small; lia. }
    simpl. rewrite Hw. split; [lia|]. intros k d t Hin. specialize (Hent _ _ _ Hin). lia.
  - intros c1. unfold sweep_stale_cache. destruct (cache a) as [c|] eqn:Hc; [|simpl; congruence].
    intros [= <-]. simpl. destruct (Hv' c Hc) as [Hb Hent]. split; [done|].
    intros k d t [Hin _]%pop_all_iter. by eapply Hent.
Qed.

Lemma nsteps_versions m n a a' :
  nsteps call_step n a a' → Z.of_nat (m + n) < u64_max → versions_ok m a → versions_ok (m + n) a'.
Proof.
  intros Hrun. revert m. induction Hrun as [a|n a a1 a' Hstep Hrun IH]; intros m Hm Hv.
  - by rewrite Nat.add_0_r.
  - rewrite <-Nat.add_succ_comm in *. apply IH; [done|]. eapply call_step_versions; [lia|done..].
Qed.

(** C12: after [invalidate_cache] the next decision is evaluated, whatever is in the cache:
    nothing decided before a policy reload is served after it, as long as fewer than
    2^64 - 1 calls were made (then the version would wrap around). *)
Theorem invalidate_forces_evaluation a config t1 t2 range a0 n a' req ents now now' d :
  try_with_cache a config t1 t2 range = Ok a0 → nsteps call_step n a0 a' →
  Z.of_nat n < u64_max →
  (authorize (invalidate_cache a') req ents now now').1 = Ok d → from_cache d = false.
Proof.
  intros Hnew Hrun Hn Hd.
  assert (Hv : versions_ok n a').
  { apply (nsteps_versions 0 n a0); [done|done|]. unfold try_with_cache in Hnew.
    apply bind_Ok in Hnew as [c [(Hi & _ & _ & Hz & _)%try_new_fresh ?]]. simplify_eq.
    intros c' [= <-]. rewrite Hz, Hi. split; [lia|]. by intros ? ? ? ?%elem_of_nil. }
  unfold authorize in Hd.
  destruct (lookup_cached (invalidate_cache a') req ents _ now) as [[cd|] a1] eqn:Hlook.
  - exfalso. apply lookup_found in Hlook as (c & t & Hc & Hver & Hin).
    unfold invalidate_cache in Hc. destruct (cache a') as [c'|] eqn:Hc'; [|done].
    injection Hc as <-. destruct (Hv c' Hc') as [Hb Hent]. specialize (Hent _ _ _ Hin).
    simpl in Hver. unfold u64_wrap in Hver. unfold_ints. rewrite Z.mod_small in Hver; lia.
  - destruct (evaluate_request a1 req ents) as [[[e pols] errs]|err]; simpl in Hd; by simplify_eq.
Qed.
End refinement.
