(* ===== verification/EngineExamples.v ===== *)
(** * Runs of the authorizer

    Concrete functions for SHA-256, Cedar and the LRU map that satisfy the laws of
    [Cache] and [Engine], and runs on them. *)

From S2P Require Import Prelude Json CoreError Crypto Trace Request DecisionRecord Canonical AuditLog Cache Engine.
Import Crypto.Concrete Canonical.Concrete.

(** ** An LRU map *)

Section lru_list.
Context {K V : Type} `{EqDecision K}.

(** Most recently pushed first. *)
Record lru_list : Type := mkLruList {
  l_cap : Z;
  l_items : list (K * V);
  l_nodup : NoDup l_items.*1;
}.

Definition others (k : K) (l : list (K * V)) : list (K * V) := filter (λ kv, kv.1 ≠ k) l.
Definition find (k : K) (l : list (K * V)) : option (K * V) :=
  head (filter (λ kv, kv.1 = k) l).

Lemma others_nodup k l : NoDup l.*1 → NoDup (others k l).*1 ∧ k ∉ (others k l).*1.
Proof.
  intros Hnd. split.
  - eapply sublist_NoDup; [exact Hnd|]. apply fmap_sublist, sublist_filter.
  - intros ([j v] & -> & [Hne _]%list_elem_of_filter)%list_elem_of_fmap. done.
Qed.

Lemma pushed_nodup c k v (l : lru_list) : NoDup (take c ((k, v) :: others k (l_items l))).*1.
Proof.
  eapply sublist_NoDup; [|apply fmap_sublist, sublist_take].
  destruct (others_nodup k _ (l_nodup l)). by apply NoDup_cons.
Qed.

Definition list_push (l : lru_list) (k : K) (v : V) : option (K * V) * lru_list :=
  let n := Z.to_nat (Z.max 1 (l_cap l)) in
  (match find k (l_items l) with
   | Some old => Some old
   | None => if bool_decide (n ≤ length (l_items l))%nat then last (l_items l) else None
   end,
   mkLruList (l_cap l) (take n ((k, v) :: others k (l_items l))) (pushed_nodup n k v l)).

Definition list_pop (l : lru_list) (k : K) : lru_list :=
  mkLruList (l_cap l) (others k (l_items l)) (proj1 (others_nodup k _ (l_nodup l))).

#[export] Instance list_lru : Lru K V := {|
  lru := lru_list;
  lru_new c := mkLruList c [] (NoDup_nil_2);
  lru_peek l k := snd <$> find k (l_items l);
  lru_push := list_push;
  lru_pop := list_pop;
  lru_iter := l_items |}.

Lemma find_spec (l : list (K * V)) k v :
  NoDup l.*1 → snd <$> find k l = Some v ↔ (k, v) ∈ l.
Proof.
  unfold find. induction l as [|[j w] l IH]; intros Hnd; simpl.
  { by rewrite elem_of_nil. }
  apply NoDup_cons in Hnd as [Hj Hnd]. rewrite filter_cons. simpl. case_decide as Hjk; simpl.
  - subst. rewrite elem_of_cons. split; [intros [= ->]; by left|].
    intros [[= ->]|Hin]; [done|]. destruct Hj. by apply (list_elem_of_fmap_2 fst) in Hin.
  - rewrite IH, elem_of_cons by done. naive_solver.
Qed.

#[export] Instance list_lru_laws : LruLaws K V.
Proof.
  refine {| lru_cap := l_cap |}.
  - done.
  - intros l k v. apply find_spec, l_nodup.
  - intros l k v x Hx. simpl in Hx.
    assert (x ∈ (k, v) :: others k (l_items l)) as Hin
      by (rewrite <-(take_drop (Z.to_nat (Z.max 1 (l_cap l)))); apply elem_of_app; by left).
    apply elem_of_cons in Hin as [->|Hin]; [by left|right].
    unfold others in Hin. apply list_elem_of_filter in Hin. tauto.
  - intros l k v. apply find_spec; [apply l_nodup|]. simpl.
    destruct (Z.to_nat (Z.max 1 (l_cap l))) eqn:Hn; [lia|]. by left.
  - done.
  - intros l k v Hpos _. simpl. rewrite length_take. lia.
  - intros l k x. simpl. unfold others. rewrite list_elem_of_filter. tauto.
  - done.
  - intros l k. simpl. apply length_filter.
Defined.
End lru_list.

(** ** SHA-256 and Cedar *)

#[export] Instance sha : Sha256 := {| sha256 b := b |}.

#[export] Instance cedar_entities : CedarEntities := {|
  Entities := list Value; no_entities := []; entity_values es := es |}.

(** A policy permits one principal, and no one when its entity store is empty; the other
    error is that of a context that is not JSON. *)
Record example_policy : Type := mkPolicy { policy_id : string; permits : string }.

#[export] Instance cedar : Cedar := {|
  EntityTypeName := string;
  CedarContext := Value;
  CedarRequest := (string * string) * (string * string) * (string * string) * Value;
  Schema := unit;
  PolicySet := list example_policy;
  entity_type_name s := if is_blank s then Err "empty" else Ok s;
  context_from_json b _ := v ← json_from_slice b; Ok (norm v);
  cedar_request_new p a r c _ := Ok (p, a, r, c);
  is_authorized r ps es :=
    let matched := policy_id <$> filter (λ p, permits p = r.1.1.1.2) ps in
    match matched, es with
    | _ :: _, _ :: _ => (Allow, matched, [])
    | _, [] => (Deny, [], ["no entities"])
    | [], _ => (Deny, [], [])
    end |}.

#[export] Instance cedar_laws : CedarLaws.
Proof.
  split.
  - intros v w sc c Hv Hw Heq. cbn -[of_text to_text norm]. rewrite !of_to_text_nil.
    cbn -[norm]. by rewrite Heq.
  - intros r ps e e' Hp%Permutation_length. rewrite !length_fmap in Hp. simpl in Hp |- *.
    by destruct e, e'; simpl in Hp.
Qed.

(** ** Requests *)

Definition sample_request (session_attrs : attrs_map) (m : attrs_map) : AgentRequest :=
  request_new (user "alice") (tool_op "s3" "Put") (resource_new "Bucket" "b")
    (mkAgentContext (VObject m) session_attrs) "r1".

Definition sample_args : attrs_map := [("a", VNumber (PosInt 1)); ("b", VString "x")].
Definition sample : AgentRequest := sample_request [] sample_args.
(** The same arguments in the other order. *)
Definition reordered : AgentRequest := sample_request [] (rev sample_args).

Definition sample_entities : Entities := ([VObject [("uid", VString "alice")]] : list Value).

Ltac key_ok_tac :=
  split;
  [ repeat apply Forall_cons_2; try apply Forall_nil_2;
    (split; [apply wf_valueb_spec; vm_compute; reflexivity
            |simpl; unfold_ints; repeat split; lia])
  | repeat constructor; eauto
  | repeat apply Forall_cons_2; try apply Forall_nil_2; vm_compute; reflexivity ].

Lemma sample_ok : key_ok sample sample_entities.
Proof. key_ok_tac. Qed.

Lemma reordered_ok : key_ok reordered sample_entities.
Proof. key_ok_tac. Qed.

(** The witness of [key_preimage_inj]: reordering arguments keeps the key. *)
Example key_preimage_inj_witness :
  key_preimage sample sample_entities 7 = key_preimage reordered sample_entities 7 ∧
  same_key sample reordered sample_entities sample_entities.
Proof.
  assert (Hk : key_preimage sample sample_entities 7 = key_preimage reordered sample_entities 7)
    by (vm_compute; reflexivity).
  split; [exact Hk|].
  apply (key_preimage_inj sample reordered sample_entities sample_entities 7 7).
  - apply sample_ok.
  - apply reordered_ok.
  - unfold_ints; lia.
  - unfold_ints; lia.
  - exact Hk.
Defined.

(** ** Runs *)

Definition sample_config : CacheConfig := mkCacheConfig 4 (seconds 60) (seconds 5) true.
Definition sample_cache : DecisionCache := mkDecisionCache sample_config 0 (lru_new 4) 0 0 0.

(** The witness of [cache_answers_are_fresh]: a stored decision is answered in time, and
    not a minute later. *)
Example cache_answers_are_fresh_witness :
  let c := cache_put sample_cache "k" cached_allow 5 in
  cached_at_policy_version cached_allow = policy_version c ∧
  (cache_get c "k" (5 + seconds 60)).1 = None.
Proof.
  intros c. split; [|vm_compute; reflexivity].
  apply (cache_answers_are_fresh sample_config 0 0 (2 ^ 63) sample_cache
           [("k", cached_allow, 5)] c) with (k := "k") (now := seconds 60).
  - vm_compute. reflexivity.
  - simpl. lia.
  - apply rtc_once. constructor.
  - vm_compute. reflexivity.
Defined.

Definition plain_authorizer : Authorizer :=
  mkAuthorizer None ([mkPolicy "p0" "alice"] : list example_policy) None.
Definition cached_authorizer : Authorizer := with_cache_state plain_authorizer (Some sample_cache).
(** After one call. *)
Definition warm : Authorizer := (authorize cached_authorizer sample sample_entities 1 2).2.

Lemma no_collision x y : sha256_collision x y → False.
Proof. by intros [Hne Heq]. Qed.

(** The witness of [authorize_refines_cedar]: the reordered request hits the entry of the
    first, and gets Cedar's answer. *)
Example authorize_refines_cedar_witness :
  (from_cache <$> (authorize warm reordered sample_entities 3 4).1) = Ok true ∧
  verdict <$> (authorize warm reordered sample_entities 3 4).1
    = (λ r, (r, request_to_value reordered)) <$> evaluate_request warm reordered sample_entities.
Proof.
  split; [vm_compute; reflexivity|].
  destruct (authorize_atomic [] cached_authorizer sample sample_entities 1 2 sample_ok) as [log Hrun].
  destruct (authorize_refines_cedar plain_authorizer sample_config 0 0 (2 ^ 63)
              cached_authorizer log warm reordered sample_entities 3 4) as [Hd|(? & ? & ? & _ & Hc)].
  - reflexivity.
  - exact Hrun.
  - apply reordered_ok.
  - exact Hd.
  - destruct (no_collision _ _ Hc).
Defined.

(** The witness of [invalidate_forces_evaluation]. *)
Example invalidate_forces_evaluation_witness :
  ∃ d, (authorize (invalidate_cache warm) sample sample_entities 3 4).1 = Ok d ∧
       effect d = Allow ∧ from_cache d = false.
Proof.
  eexists. split; [vm_compute; reflexivity|]. split; [reflexivity|].
  apply (invalidate_forces_evaluation plain_authorizer sample_config 0 0 (2 ^ 63)
           cached_authorizer 1 warm sample sample_entities 3 4).
  - reflexivity.
  - apply nsteps_once. constructor.
  - unfold_ints. lia.
  - vm_compute. reflexivity.
Defined.

(** [DecisionCache::disabled] is a cache of one entry: the second lookup is a hit. *)
Example disabled_still_caches :
  (cache_get (cache_put disabled "k" cached_allow 5) "k" 6).1 = Some cached_allow.
Proof. vm_compute. reflexivity. Qed.
