(* ===== verification/Text.v ===== *)
(** * Text shared by the servers and formatters

    [str] methods that only the outer layers use: replacing a character, searching for
    one, comparing ASCII case, and quoting. *)

From S2P Require Import Prelude Crypto.

Definition carriage_return : ascii := ascii_of_nat 13.
Definition backslash : ascii := ascii_of_nat 92.
Definition quote_char : ascii := ascii_of_nat 34.

(** [writeln!(out, ...)] *)
Definition ln (s : string) : string := s +:+ String newline "".
(** [\"{}\"] *)
Definition quoted (s : string) : string := double_quote +:+ s +:+ double_quote.

(** [s.replace(c, by)] *)
Fixpoint replace_char (c : ascii) (by_ : string) (s : string) : string :=
  match s with
  | EmptyString => EmptyString
  | String d s => if bool_decide (d = c) then by_ +:+ replace_char c by_ s
                  else String d (replace_char c by_ s)
  end.

(** [s.find(c)] with [s.split_at]: the text before the first [c] and the text from it on. *)
Fixpoint split_at_char (c : ascii) (s : string) : option (string * string) :=
  match s with
  | EmptyString => None
  | String d s' => if bool_decide (d = c) then Some (EmptyString, s)
                   else prod_map (String d) id <$> split_at_char c s'
  end.

(** [s.trim_start_matches(c)] *)
Fixpoint trim_start_matches (c : ascii) (s : string) : string :=
  match s with
  | String d s' => if bool_decide (d = c) then trim_start_matches c s' else s
  | EmptyString => EmptyString
  end.

Definition ascii_lower (c : ascii) : ascii :=
  let n := nat_of_ascii c in
  if (65 <=? n)%nat && (n <=? 90)%nat then ascii_of_nat (n + 32) else c.
Fixpoint to_ascii_lowercase (s : string) : string :=
  match s with
  | EmptyString => EmptyString
  | String c s => String (ascii_lower c) (to_ascii_lowercase s)
  end.
Definition eq_ignore_ascii_case (a b : string) : bool :=
  bool_decide (to_ascii_lowercase a = to_ascii_lowercase b).

(** ** Lemmas *)

Lemma substring_short n s : (String.length s ≤ n)%nat → String.substring 0 n s = s.
Proof.
  revert n. induction s as [|c s IH]; intros [|n] Hn; simpl in *; try done; [lia|].
  f_equal. apply IH. lia.
Qed.

(** Replacing characters one after the other, in one pass. *)
Fixpoint replace_all (f : ascii → string) (s : string) : string :=
  match s with
  | EmptyString => EmptyString
  | String c s => f c +:+ replace_all f s
  end.

Lemma split_once_char c u v :
  str_contains c u = false → split_once (String c "") (u +:+ String c v) = Some (u, v).
Proof.
  induction u as [|d u IH]; simpl; [by rewrite bool_decide_eq_true_2|].
  intros [Hd Hu]%orb_false_iff. apply bool_decide_eq_false in Hd.
  rewrite bool_decide_eq_false_2 by done. by rewrite IH.
Qed.

Lemma split_once_first c s a b : split_once (String c "") s = Some (a, b) → str_contains c a = false.
Proof.
  revert a b. induction s as [|d s IH]; intros a b; simpl; [done|].
  case_bool_decide as Hd; [by intros [= <- <-]|].
  destruct (split_once _ s) as [[a' b']|]; [|done]. simpl. intros [= <- <-]. simpl.
  rewrite (IH a' b' eq_refl), orb_false_r. by apply bool_decide_eq_false.
Qed.

Lemma split_once_absent c s : str_contains c s = false → split_once (String c "") s = None.
Proof.
  induction s as [|d s IH]; simpl; [done|]. intros [Hd Hs]%orb_false_iff.
  apply bool_decide_eq_false in Hd. rewrite bool_decide_eq_false_2 by done. by rewrite IH.
Qed.

Lemma replace_char_app c by_ s t :
  replace_char c by_ (s +:+ t) = replace_char c by_ s +:+ replace_char c by_ t.
Proof.
  induction s as [|d s IH]; [done|]. cbn. case_bool_decide; rewrite IH; [|done].
  by rewrite string_app_assoc.
Qed.

Lemma replace_char_all c by_ f s :
  replace_char c by_ (replace_all f s) = replace_all (λ d, replace_char c by_ (f d)) s.
Proof. induction s as [|d s IH]; [done|]. cbn. by rewrite replace_char_app, IH. Qed.

Lemma replace_char_one c by_ s :
  replace_char c by_ s = replace_all (λ d, if bool_decide (d = c) then by_ else String d "") s.
Proof. induction s as [|d s IH]; [done|]. cbn. by case_bool_decide; rewrite IH. Qed.

Lemma replace_all_ext f g s : (∀ c, f c = g c) → replace_all f s = replace_all g s.
Proof. intros Hfg. induction s as [|c s IH]; [done|]. cbn. by rewrite Hfg, IH. Qed.

Lemma replace_all_contains c f s :
  (∀ d, str_contains c (f d) = false) → str_contains c (replace_all f s) = false.
Proof.
  intros Hf. induction s as [|d s IH]; [done|]. cbn. by rewrite str_contains_app, Hf.
Qed.

Lemma split_at_char_Some c s a b :
  split_at_char c s = Some (a, b) → s = a +:+ b ∧ str_contains c a = false.
Proof.
  revert a b. induction s as [|d s IH]; intros a b; simpl; [done|].
  case_bool_decide as Hd; [by intros [= <- <-]|].
  destruct (split_at_char c s) as [[a' b']|]; [|done]. simpl. intros [= <- <-].
  destruct (IH a' b' eq_refl) as [-> Ha]. split; [done|]. simpl.
  by rewrite bool_decide_eq_false_2 by congruence.
Qed.

Lemma split_at_char_app c a b :
  str_contains c a = false → split_at_char c (a +:+ String c b) = Some (a, String c b).
Proof.
  induction a as [|d a IH]; cbn.
  - by rewrite bool_decide_eq_true_2.
  - intros Ha. bool_inv. rewrite bool_decide_eq_false_2 by congruence. by rewrite IH.
Qed.

Lemma trim_start_matches_suffix c s : ∃ p, s = p +:+ trim_start_matches c s.
Proof.
  induction s as [|d s [p IH]]; [by exists ""|]. simpl. case_bool_decide.
  - exists (String d p). simpl. by rewrite <-IH.
  - by exists "".
Qed.

(** ** Numbers as text *)

Lemma digit_of_pretty x : (x < 10)%N → digit_of (pretty_N_char x) = Some (Z.of_N x).
Proof.
  intros Hx. assert (x = 0 ∨ x = 1 ∨ x = 2 ∨ x = 3 ∨ x = 4 ∨ x = 5 ∨ x = 6 ∨ x = 7 ∨ x = 8 ∨ x = 9)%N by lia.
  naive_solver.
Qed.

Lemma parse_digits_pretty x s : parse_digits 0 (pretty_N_go x s) = parse_digits (Z.of_N x) s.
Proof.
  revert s. induction (N.lt_wf_0 x) as [x _ IH]. intros s.
  assert (x = 0 ∨ 0 < x)%N as [->|Hx] by lia; [done|].
  rewrite pretty_N_go_step, IH by (done || by apply N.div_lt). cbn [parse_digits].
  rewrite digit_of_pretty by by apply N.mod_lt. cbn [mbind option_bind]. f_equal.
  rewrite (N.div_mod x 10) at 3 by done. lia.
Qed.

(** A number that is printed and then parsed. *)
Lemma parse_unsigned_pretty max n : 0 < n ≤ max → parse_unsigned max (pretty n) = Some n.
Proof.
  intros Hn. destruct n as [|n|n]; try lia. unfold parse_unsigned.
  change (pretty (Z.pos n)) with (pretty_N_go (N.pos n) ""). set (d := pretty_N_go (N.pos n) "").
  assert (Hd : parse_digits 0 d = Some (Z.pos n)) by apply parse_digits_pretty.
  assert (Hs : strip_prefix "+" d = None).
  { destruct d as [|c d']; [done|]. simpl in *. case_bool_decide; [|done]. by subst. }
  rewrite Hs. cbn [default from_option]. rewrite bool_decide_eq_false_2, Hd by (intros ->; done).
  cbn [mbind option_bind]. by rewrite bool_decide_eq_true_2 by lia.
Qed.
