(* ===== verification/Rotation.v ===== *)
(** * Rotation ([rotate_inner], [rotated_logs] of [agentguard-core/src/decision/log.rs])

    A rotating log keeps its records in several files.  The abstract log is one list of
    records; this file proves that, while storage works, appends with rotation refine it:
    the segments and the active file together hold one unbroken chain, which verifies. *)

From S2P Require Import Prelude Json CoreError Crypto Trace Request DecisionRecord HashChain Canonical AuditFs AuditLog Text.

(** ** Names *)

Lemma rsplit_dot_app u e :
  u ≠ "" → str_contains "." e = false → rsplit_dot (u +:+ String "." e) = (u, Some e).
Proof.
  intros Hu He. unfold rsplit_dot. rewrite str_rev_app.
  assert (Hs : split_once "." (str_rev (String "." e) +:+ str_rev u) = Some (str_rev e, str_rev u)).
  { change (String "." e) with ("." +:+ e). rewrite str_rev_app, <-string_app_assoc.
    apply (split_once_char "."). by rewrite str_contains_rev. }
  rewrite Hs, bool_decide_eq_false_2, !str_rev_involutive; [done|].
  intros Hr. apply Hu. by rewrite <-(str_rev_involutive u), Hr.
Qed.

Lemma extension_no_dot name e : extension name = Some e → str_contains "." e = false.
Proof.
  unfold extension, rsplit_dot. destruct (split_once "." (str_rev name)) as [[a b]|] eqn:Hs; [|done].
  case_bool_decide; [done|]. intros [= <-]. rewrite str_contains_rev. by apply (split_once_first "." _ _ _ Hs).
Qed.

Definition log_ext (name : string) : string := default "jsonl" (extension name).
Lemma log_ext_no_dot name : str_contains "." (log_ext name) = false.
Proof. unfold log_ext. destruct (extension name) eqn:He; [by eapply extension_no_dot|done]. Qed.

(** The number that tells apart the segments of one time stamp. *)
Definition collision (o : option Z) : string := match o with Some n => "-" +:+ pretty n | None => "" end.
Definition collision_ok (o : option Z) : Prop := match o with Some n => 0 < n ≤ u32_max | None => True end.

Lemma rotated_name_split name ts o :
  rsplit_dot (rotated_name name ts o) = (file_stem name +:+ "-" +:+ ts +:+ collision o, Some (log_ext name)).
Proof.
  unfold rotated_name. fold (collision o). change (default "jsonl" (extension name)) with (log_ext name).
  rewrite <-(rsplit_dot_app _ (log_ext name)) by (apply log_ext_no_dot || by destruct (file_stem name)).
  change (String "." (log_ext name)) with ("." +:+ log_ext name). by rewrite <-!string_app_assoc.
Qed.

Lemma rotated_stem name ts o : file_stem (rotated_name name ts o) = file_stem name +:+ "-" +:+ ts +:+ collision o.
Proof. unfold file_stem at 1. by rewrite rotated_name_split. Qed.
Lemma rotated_ext name ts o : extension (rotated_name name ts o) = Some (log_ext name).
Proof. unfold extension. by rewrite rotated_name_split. Qed.

Lemma timestamp_no_dash ts : is_rotation_timestamp ts = true → str_contains "-" ts = false.
Proof.
  unfold is_rotation_timestamp. rewrite !andb_true_iff. intros [[[_ H8] H21] Hall].
  apply bool_decide_eq_true in H8, H21. apply not_true_iff_false. rewrite str_contains_elem.
  intros [i Hi]%list_elem_of_lookup. rewrite forallb_forall in Hall.
  assert (Hin : (i, "-"%char) ∈ imap pair (String.list_ascii_of_string ts)).
  { apply list_elem_of_lookup. exists i. by rewrite list_lookup_imap, Hi. }
  apply list_elem_of_In, Hall in Hin. rewrite !orb_true_iff, !bool_decide_eq_true in Hin. simpl in Hin.
  destruct Hin as [[-> | ->]|Hd]; [congruence|congruence|done].
Qed.

(** What is needed of a log's name: that its extension is not one of the other files'. *)
Definition log_name_ok (name : string) : Prop := log_ext name ≠ "chainid" ∧ log_ext name ≠ "new".

Lemma rotated_suffix name ts o :
  strip_prefix (file_stem name +:+ "-") (file_stem (rotated_name name ts o)) = Some (ts +:+ collision o).
Proof. apply strip_prefix_Some. by rewrite rotated_stem, <-string_app_assoc. Qed.

Lemma collision_split ts o :
  is_rotation_timestamp ts = true →
  split_once "-" (ts +:+ collision o) = (λ n, (ts, pretty n)) <$> o.
Proof.
  intros Hts%timestamp_no_dash. destruct o as [n|]; [by apply (split_once_char "-")|].
  cbn [collision]. rewrite string_app_nil_r. by apply (split_once_absent "-").
Qed.

Lemma rotated_is_log name ts o c :
  is_rotation_timestamp ts = true → collision_ok o → is_rotated_log name (rotated_name name ts o, Regular c) = true.
Proof.
  intros Hts Ho. unfold is_rotated_log, is_rotation_filename. rewrite rotated_suffix, rotated_ext, collision_split by done.
  fold (log_ext name). rewrite (bool_decide_eq_true_2 (_ = _)), !andb_true_r by done. destruct o as [n|]; simpl.
  - rewrite Hts, parse_unsigned_pretty by done. destruct Ho. by apply Z.ltb_lt.
  - by rewrite string_app_nil_r, Hts.
Qed.

Lemma rotated_order name ts o :
  is_rotation_timestamp ts = true → collision_ok o →
  rotation_order (rotated_name name ts o) (file_stem name +:+ "-") = (ts, default 0 o).
Proof.
  intros Hts Ho. unfold rotation_order. rewrite rotated_suffix.
  change (default "" (Some ?x)) with x. rewrite collision_split by done. destruct o as [n|]; simpl; [by rewrite parse_unsigned_pretty|].
  by rewrite string_app_nil_r.
Qed.

Lemma sidecar_ext x : extension (chain_id_sidecar_path x) = Some "chainid".
Proof.
  unfold extension, chain_id_sidecar_path.
  change ("." +:+ x +:+ ".chainid") with (("." +:+ x) +:+ String "." "chainid"). by rewrite rsplit_dot_app.
Qed.

Lemma sidecar_no_log name x e : log_name_ok name → is_rotated_log name (chain_id_sidecar_path x, e) = false.
Proof.
  intros [Hc _]. unfold is_rotated_log. rewrite sidecar_ext, bool_decide_eq_false_2, andb_false_r; [done|].
  fold (log_ext name). congruence.
Qed.

Lemma active_no_log name e : is_rotated_log name (name, e) = false.
Proof.
  unfold is_rotated_log. destruct (strip_prefix _ (file_stem name)) as [s|] eqn:Hs; [|done].
  apply strip_prefix_Some, (f_equal String.length) in Hs. rewrite !string_length_app in Hs. simpl in Hs. lia.
Qed.

(** ** The order of the segments *)

#[export] Instance rotation_le_total prefix : Total (rotation_le prefix).
Proof.
  intros a b. unfold rotation_le, order_le.
  destruct (rotation_order a prefix) as [x i], (rotation_order b prefix) as [y j]. cbn [fst snd].
  destruct (decide (x = y)) as [->|Hne].
  - rewrite !bool_decide_eq_true_2 by done. rewrite !Z.leb_le. lia.
  - rewrite !bool_decide_eq_false_2 by congruence. apply (str_le_total x y).
Qed.

#[export] Instance rotation_le_trans prefix : Transitive (rotation_le prefix).
Proof.
  intros a b c. unfold rotation_le, order_le.
  destruct (rotation_order a prefix) as [x i], (rotation_order b prefix) as [y j], (rotation_order c prefix) as [z k].
  cbn [fst snd]. destruct (decide (x = y)) as [->|Hxy], (decide (y = z)) as [->|Hyz].
  - rewrite !bool_decide_eq_true_2 by done. rewrite !Z.leb_le. lia.
  - rewrite bool_decide_eq_true_2, !bool_decide_eq_false_2 by done. done.
  - rewrite bool_decide_eq_false_2, bool_decide_eq_true_2 by done. done.
  - rewrite (bool_decide_eq_false_2 (x = y)), (bool_decide_eq_false_2 (y = z)) by done. intros Hab Hbc.
    rewrite bool_decide_eq_false_2; [by eapply (str_le_trans x y z)|].
    intros ->. apply Hxy. by apply str_le_antisym.
Qed.

Lemma rotation_le_antisym prefix a b :
  rotation_le prefix a b → rotation_le prefix b a → rotation_order a prefix = rotation_order b prefix.
Proof.
  unfold rotation_le, order_le. destruct (rotation_order a prefix) as [x i], (rotation_order b prefix) as [y j].
  cbn [fst snd]. destruct (decide (x = y)) as [->|Hne].
  - rewrite !bool_decide_eq_true_2 by done. rewrite !Z.leb_le. intros. f_equal. lia.
  - rewrite !bool_decide_eq_false_2 by congruence. intros ??. destruct Hne. by apply str_le_antisym.
Qed.

(** Strictly before. *)
Definition rotation_lt (prefix a b : string) : Prop :=
  rotation_le prefix a b ∧ rotation_order a prefix ≠ rotation_order b prefix.

(** The rotated segments of a directory, in no particular order. *)
Definition segment_names (name : string) (m : gmap string entry) : list string :=
  (filter (λ e, is_rotated_log name e = true) (map_to_list m)).*1.

Lemma elem_of_segment_names name m n :
  n ∈ segment_names name m ↔ ∃ e, m !! n = Some e ∧ is_rotated_log name (n, e) = true.
Proof.
  unfold segment_names. rewrite list_elem_of_fmap. split.
  - intros ([n' e] & -> & [Hr Hin%elem_of_map_to_list]%list_elem_of_filter). eauto.
  - intros (e & He%elem_of_map_to_list & Hr). exists (n, e). split; [done|]. by apply list_elem_of_filter.
Qed.

Lemma NoDup_segment_names name m : NoDup (segment_names name m).
Proof.
  unfold segment_names. pose proof (NoDup_fst_map_to_list m) as Hnd.
  induction (map_to_list m) as [|x l IH]; [constructor|]. cbn [fmap list_fmap] in Hnd.
  apply NoDup_cons in Hnd as [Hx Hnd]. rewrite filter_cons. case_decide; [|by apply IH].
  cbn [fmap list_fmap]. constructor; [|by apply IH]. intros Hin. apply Hx.
  apply list_elem_of_fmap in Hin as (y & Hy & [_ Hin]%list_elem_of_filter). apply list_elem_of_fmap. eauto.
Qed.

(** What [rotated_logs] lists, given the segments in their order. *)
Lemma rotated_logs_calm name m names :
  StronglySorted (rotation_lt (file_stem name +:+ "-")) names → names ≡ₚ segment_names name m →
  rotated_logs name (mkWorld m []) = (Ok names, mkWorld m []).
Proof.
  intros Hs Hp. unfold rotated_logs, fs_read_dir. rewrite fs_bind_eq, syscall_calm. simpl.
  fold (segment_names name m). unfold mret, fs_ret. do 2 f_equal. set (prefix := file_stem name +:+ "-") in *.
  apply (StronglySorted_unique_strong (rotation_le prefix)).
  - intros x y Hx Hy Hxy Hyx. pose proof (rotation_le_antisym _ _ _ Hxy Hyx) as Heq.
    rewrite merge_sort_Permutation, <-Hp in Hx. clear -Hs Hx Hy Heq.
    induction Hs as [|z l Hs IH Hall]; [by apply elem_of_nil in Hx|]. rewrite Forall_forall in Hall.
    apply elem_of_cons in Hx as [->|Hx], Hy as [->|Hy]; [done| | |by apply IH].
    + by destruct (Hall y Hy) as [_ []].
    + by destruct (Hall x Hx) as [_ []].
  - apply StronglySorted_merge_sort; apply _.
  - clear -Hs. induction Hs as [|z l Hs IH Hall]; constructor; [done|].
    eapply Forall_impl; [exact Hall|]. by intros ? [].
  - by rewrite merge_sort_Permutation.
Qed.

(** ** One chain in several files *)

Section segments.
Context (dir : string).
Context `{JsonText, Hex, Hmac, UuidText, JsonScalars, RecordCodec}.
Context `{!JsonTextLaws, !HexLaws, !HmacLaws, !UuidLaws, !RecordLaws}.
Context (k : bytes) (id : ChainId) (name : string) (rot : RotationConfig).

Abbreviation prefix := (file_stem name +:+ "-").
Definition sidecar : entry := Regular (uuid_display id +:+ String newline "").

(** A file with the records [rs]; its last line may lack the line feed. *)
Definition seg_text (prev : bytes) (rs : list DecisionRecord) (c : bytes) : Prop :=
  c = rendered k id prev rs ∨ c +:+ String newline "" = rendered k id prev rs.

(** Each segment holds records that go on from the head of the one before. *)
Fixpoint on_disk (m : gmap string entry) (prev : bytes) (segs : list (string * list DecisionRecord)) : Prop :=
  match segs with
  | [] => True
  | (n, rs) :: segs =>
      rs ≠ [] ∧ (∃ c, m !! n = Some (Regular c) ∧ seg_text prev rs c) ∧ on_disk m (log_head k prev rs) segs
  end.

(** The names of segments, and that those of one time stamp are numbered from the start. *)
Definition segment_form (n : string) : Prop :=
  ∃ ts o, n = rotated_name name ts o ∧ is_rotation_timestamp ts = true ∧ collision_ok o.
Definition dense (names : list string) : Prop :=
  ∀ ts o o', is_rotation_timestamp ts = true → collision_ok o → collision_ok o' → default 0 o' < default 0 o →
    rotated_name name ts o ∈ names → rotated_name name ts o' ∈ names.

(** A rotating log and its directory hold the records of [segs] in the segments and [rs] in
    the active file, as one chain. *)
Record seg_holds (l : DecisionLog) (m : gmap string entry) (segs : list (string * list DecisionRecord))
    (rs : list DecisionRecord) : Prop := {
  sh_log : l = mkDecisionLog (Chained true (mkHashChain k (log_head k zero_hash (concat segs.*2 ++ rs)) (Some id)))
                 name (Some rot);
  sh_active : m !! name = Some (Regular (rendered k id (log_head k zero_hash (concat segs.*2)) rs));
  sh_segs : on_disk m zero_hash segs;
  sh_names : segs.*1 ≡ₚ segment_names name m;
  sh_order : StronglySorted (rotation_lt prefix) segs.*1;
  sh_sidecar : m !! chain_id_sidecar_path name = Some sidecar;
  sh_special : ∀ n, m !! n = Some Special → is_rotated_log name (n, Regular "") = false;
  sh_tmp : ∀ n, extension n = Some "new" → m !! n = None;
  sh_wf : Forall wf_record (concat segs.*2 ++ rs);
  sh_form : Forall segment_form segs.*1;
  sh_dense : dense segs.*1;
  sh_size : (size m ≤ 2 + 2 * length segs)%nat;
}.

Lemma log_head_app prev rs rs' : log_head k prev (rs ++ rs') = log_head k (log_head k prev rs) rs'.
Proof. unfold log_head, head_from. by rewrite fmap_app, foldl_app. Qed.

Lemma on_disk_ext m m' prev segs :
  (∀ n, n ∈ segs.*1 → m' !! n = m !! n) → on_disk m prev segs → on_disk m' prev segs.
Proof.
  revert prev. induction segs as [|[n rs] segs IH]; intros prev Hm; [done|]. simpl. intros (Hne & Hn & Hs).
  split; [done|]. split; [rewrite Hm by left; done|]. apply IH; [|done]. intros x Hx. apply Hm. by right.
Qed.

Lemma on_disk_snoc m prev segs n rs :
  on_disk m prev segs → rs ≠ [] →
  (∃ c, m !! n = Some (Regular c) ∧ seg_text (log_head k prev (concat segs.*2)) rs c) →
  on_disk m prev (segs ++ [(n, rs)]).
Proof.
  revert prev. induction segs as [|[x xs] segs IH]; intros prev; simpl; [by auto|].
  rewrite log_head_app. intros (Hne & Hx & Hs) Hrs Hn. split_and!; auto.
Qed.

(** A last line without its line feed reads like one that has it. *)
Lemma utf8_line_bare c : utf8_line (json_to_vec (chained_to_value c)) = Ok (json_to_vec (chained_to_value c)).
Proof.
  unfold utf8_line, strip_line_end. set (t := json_to_vec _).
  destruct (strip_prefix (String newline "") (str_rev t)) as [r|] eqn:Hr; [|unfold t; by rewrite json_utf8].
  apply strip_prefix_Some, (f_equal str_rev) in Hr. rewrite str_rev_involutive, str_rev_app in Hr.
  pose proof (json_one_line (chained_to_value c)) as Hn. fold t in Hn. rewrite Hr, str_contains_app in Hn.
  by rewrite orb_true_r in Hn.
Qed.

Lemma read_lines_bare t : str_contains newline t = false → t ≠ "" → read_lines t = [t].
Proof.
  induction t as [|c t IH]; [done|]. intros [Hc Ht]%orb_false_iff _. apply bool_decide_eq_false in Hc.
  cbn [read_lines]. rewrite bool_decide_eq_false_2 by congruence. destruct t as [|d t]; [done|]. by rewrite IH.
Qed.

(** The file of [rs] followed by more text. *)
Lemma read_lines_rendered_app prev rs t :
  read_lines (rendered k id prev rs +:+ t) = read_lines (rendered k id prev rs) ++ read_lines t.
Proof.
  revert prev. induction rs as [|r rs IH]; intros prev; [done|]. cbn [rendered].
  by rewrite <-string_app_assoc, !read_lines_chained, IH.
Qed.

Definition next_json (prev : bytes) (rs : list DecisionRecord) (r : DecisionRecord) : bytes :=
  let h := log_head k prev rs in
  json_to_vec (chained_to_value (mkChainedRecord (hex_encode h) (hex_encode (compute k h (canonical_record r))) id r)).
Lemma next_line_json prev rs r : next_line k id prev rs r = next_json prev rs r +:+ String newline "".
Proof. done. Qed.

Lemma seg_text_cut prev rs r : seg_text prev (rs ++ [r]) (rendered k id prev rs +:+ next_json prev rs r).
Proof. right. by rewrite rendered_snoc, next_line_json, string_app_assoc. Qed.

Lemma seg_text_lines prev rs c :
  rs ≠ [] → seg_text prev rs c → utf8_line <$> read_lines c = utf8_line <$> read_lines (rendered k id prev rs).
Proof.
  intros Hne [->|Hc]; [done|]. destruct rs as [|r rs _] using rev_ind; [done|].
  rewrite rendered_snoc, next_line_json, string_app_assoc in Hc.
  apply (f_equal str_rev) in Hc. rewrite !(str_rev_app _ (String newline "")) in Hc. apply string_app_inv_l in Hc.
  apply (f_equal str_rev) in Hc. rewrite !str_rev_involutive in Hc. subst c.
  assert (Hj : next_json prev rs r ≠ "").
  { intros Heq. pose proof (json_not_blank (chained_to_value (mkChainedRecord (hex_encode (log_head k prev rs))
      (hex_encode (compute k (log_head k prev rs) (canonical_record r))) id r))) as [Hb _].
    unfold next_json in Heq. rewrite Heq in Hb. done. }
  rewrite read_lines_rendered_snoc, read_lines_rendered_app, (read_lines_bare (next_json _ _ _)), !fmap_app
    by (done || apply json_one_line). f_equal. cbn [fmap list_fmap]. unfold next_json, next_line.
  by rewrite utf8_line_bare, utf8_line_chained.
Qed.

Lemma verify_lines_ext n ln ls ls' st :
  utf8_line <$> ls = utf8_line <$> ls' → verify_lines dir k n ln ls st = verify_lines dir k n ln ls' st.
Proof.
  revert ls' ln st. induction ls as [|l ls IH]; intros [|l' ls'] ln st; try done. intros [= Hl Hls].
  cbn [verify_lines].
  assert (verify_line dir k n ln l st = verify_line dir k n ln l' st) as -> by (unfold verify_line; by rewrite Hl).
  destruct (verify_line dir k n ln l' st); [by apply IH|done].
Qed.

(** Verification walks the segments and the active file as one chain. *)
Lemma verify_segments m segs rs : ∀ prev st,
  on_disk m prev segs → m !! name = Some (Regular (rendered k id (log_head k prev (concat segs.*2)) rs)) →
  Forall wf_record (concat segs.*2 ++ rs) → vs_prev st = prev → String.length prev = 32%nat →
  (vs_chain_id st = None ∨ vs_chain_id st = Some id) →
  ∃ n, verify_files dir k (segs.*1 ++ [name]) st (mkWorld m [])
  = (Ok (mkVerifyState (if bool_decide (concat segs.*2 ++ rs = []) then vs_chain_id st else Some id)
           (log_head k prev (concat segs.*2 ++ rs)) n), mkWorld m []).
Proof.
  induction segs as [|[x xs] segs IH]; intros prev st Hd Ha Hwf Hp Hl Hid; cbn [fmap list_fmap fst snd concat app verify_files] in *.
  - eexists. rewrite logm_bind_eq, (lift_Ok _ _ _ _ (open_existing_calm _ _ _ _ Ha)), logm_bind_eq.
    unfold lift_result. by rewrite (verify_rendered dir k id name prev rs 0 st).
  - destruct Hd as (Hne & Hx & Hd). rewrite log_head_app in Ha. rewrite <-app_assoc in Hwf |- *.
    apply Forall_app in Hwf as [Hwx Hwf].
    destruct (IH (log_head k prev xs) (mkVerifyState (Some id) (log_head k prev xs) (vs_number st + Z.of_nat (length xs))))
      as [n Hn]; try done; [by apply log_head_length|by right|].
    destruct Hx as (c & Hx & Hc).
    exists n. rewrite logm_bind_eq, (lift_Ok _ _ _ _ (open_existing_calm _ _ _ _ Hx)), logm_bind_eq.
    unfold lift_result. rewrite (verify_lines_ext _ _ _ _ _ (seg_text_lines _ _ _ Hne Hc)).
    rewrite (verify_rendered dir k id x prev xs 0 st) by done.
    rewrite (bool_decide_eq_false_2 (xs = [])) by done. rewrite Hn, (log_head_app prev xs).
    rewrite (bool_decide_eq_false_2 (xs ++ concat segs.*2 ++ rs = [])) by (by destruct xs).
    by case_bool_decide.
Qed.

Lemma seg_holds_verifies l m segs rs fresh :
  seg_holds l m segs rs → concat segs.*2 ++ rs ≠ [] →
  log_verify_chain dir name k fresh (mkWorld m []) = (Ok id, mkWorld m []).
Proof.
  intros [_ Ha Hd Hn Ho _ _ _ Hwf _ _ _] Hne. unfold log_verify_chain.
  rewrite logm_bind_eq, (lift_Ok _ _ _ _ (rotated_logs_calm _ _ _ Ho Hn)). unfold verify_chain_paths.
  destruct (verify_segments m segs rs zero_hash verify_init Hd Ha Hwf eq_refl eq_refl (or_introl eq_refl)) as [n Hv].
  rewrite logm_bind_eq, Hv. by rewrite bool_decide_eq_false_2.
Qed.

(** *** A rotation *)

(** The directory after a rotation to [rotated]. *)
Definition rotated_files (m : gmap string entry) (rotated content : string) : gmap string entry :=
  <[name := Regular ""]> (<[rotated := Regular content]>
    (delete name (<[chain_id_sidecar_path rotated := sidecar]> m))).

Lemma write_sidecar_calm m path uuid :
  (∀ n, extension n = Some "new" → m !! n = None) → extension path ≠ Some "new" →
  write_chain_id_sidecar path id uuid (mkWorld m []) = (Ok tt, mkWorld (<[path := sidecar]> m) []).
Proof.
  intros Htmp Hp. unfold write_chain_id_sidecar. set (tmp := "." +:+ path +:+ "." +:+ uuid +:+ ".new").
  assert (Ht : extension tmp = Some "new").
  { unfold extension, tmp.
    replace ("." +:+ path +:+ "." +:+ uuid +:+ ".new") with (("." +:+ path +:+ "." +:+ uuid) +:+ String "." "new")
      by (cbn [String.append]; by rewrite <-!string_app_assoc). by rewrite rsplit_dot_app. }
  assert (Hne : tmp ≠ path) by congruence.
  rewrite fs_bind_eq. unfold fs_create_new. rewrite syscall_calm. rewrite (Htmp tmp Ht). cbn [fst snd].
  rewrite fs_bind_eq. unfold fs_write_all, append_bytes. cbn [next_fault faults files].
  rewrite lookup_insert_eq, insert_insert_eq. cbn [String.append]. rewrite fs_bind_eq, fs_sync_calm.
  unfold fs_try. rewrite fs_bind_eq. unfold fs_rename. rewrite syscall_calm, lookup_insert_eq. cbn [fst snd].
  rewrite fs_sync_calm. by rewrite delete_insert_id by by apply Htmp.
Qed.

Lemma open_audit_fresh m :
  m !! name = None → open_audit_file dir name (mkWorld m []) = (Ok tt, mkWorld (<[name := Regular ""]> m) []).
Proof.
  intros Hm. unfold open_audit_file, validate_audit_path, require_regular, fs_try.
  assert (Hs : fs_stat name (mkWorld m []) = (Err NotFound, mkWorld m [])).
  { unfold fs_stat. rewrite syscall_calm. simpl. by rewrite Hm. }
  rewrite !fs_bind_eq, Hs. cbn [mret fs_ret]. rewrite fs_bind_eq. unfold fs_open_append. rewrite syscall_calm, Hm.
  cbn [fst snd]. rewrite !fs_bind_eq. unfold fs_stat. rewrite syscall_calm, lookup_insert_eq. cbn [fst snd].
  apply fs_sync_calm.
Qed.

Lemma log_not_sidecar n e x : log_name_ok name → is_rotated_log name (n, e) = true → n ≠ chain_id_sidecar_path x.
Proof. intros Hok Hn ->. by rewrite sidecar_no_log in Hn. Qed.

Lemma name_not_sidecar x : log_name_ok name → name ≠ chain_id_sidecar_path x.
Proof.
  intros [Hc _] Heq. apply Hc. unfold log_ext.
  assert (extension name = Some "chainid") as -> by (rewrite Heq; apply sidecar_ext). done.
Qed.

Lemma rotated_files_lookup m rotated content x :
  log_name_ok name → name ≠ rotated → chain_id_sidecar_path rotated ≠ rotated →
  rotated_files m rotated content !! x =
  if bool_decide (x = name) then Some (Regular "")
  else if bool_decide (x = rotated) then Some (Regular content)
  else if bool_decide (x = chain_id_sidecar_path rotated) then Some sidecar
  else m !! x.
Proof.
  intros Hok Hnr Hsr. unfold rotated_files. pose proof (name_not_sidecar rotated Hok).
  case_bool_decide as H1'; [subst; by rewrite lookup_insert_eq|]. rewrite lookup_insert_ne by done.
  case_bool_decide as H2'; [subst; by rewrite lookup_insert_eq|]. rewrite lookup_insert_ne by done.
  rewrite lookup_delete_ne by done.
  case_bool_decide as H3'; [subst; by rewrite lookup_insert_eq|]. by rewrite lookup_insert_ne.
Qed.

(** A time stamp that is not before those of the segments. *)
Definition later (ts : string) (segs : list (string * list DecisionRecord)) : Prop :=
  Forall (λ n, str_le (rotation_order n prefix).1 ts) segs.*1.

Lemma collision_inj o o' : collision_ok o → collision_ok o' → default 0 o = default 0 o' → o = o'.
Proof. destruct o, o'; simpl; intros; f_equal; lia. Qed.

(** The first free name of a time stamp. *)
Definition next_free (m : gmap string entry) (ts : string) (o : option Z) : Prop :=
  collision_ok o ∧ m !! rotated_name name ts o = None ∧
  ∀ o', collision_ok o' → default 0 o' < default 0 o → is_Some (m !! rotated_name name ts o').

Lemma names_in_order m ts fuel : ∀ o suffix,
  collision_ok o → suffix = default 0 o + 1 → suffix + Z.of_nat fuel ≤ u32_max →
  (∀ o', collision_ok o' → default 0 o' < default 0 o → is_Some (m !! rotated_name name ts o')) →
  ∃ o1, free_rotated_name fuel name ts (rotated_name name ts o) suffix (mkWorld m [])
        = (Ok (rotated_name name ts o1), mkWorld m []) ∧ collision_ok o1 ∧
    ∀ o', collision_ok o' → default 0 o' < default 0 o1 → is_Some (m !! rotated_name name ts o').
Proof.
  induction fuel as [|fuel IH]; intros o suffix Ho -> Hmax Hbelow; cbn [free_rotated_name]; [by exists o|].
  rewrite fs_bind_eq. unfold fs_exists, fs_try, fs_stat. rewrite fs_bind_eq, syscall_calm. cbn [fst snd].
  destruct (m !! rotated_name name ts o) as [e|] eqn:He; [|by exists o].
  assert (Hpos : 0 ≤ default 0 o) by (destruct o; simpl in *; lia).
  cbn [mret fs_ret is_ok].
  rewrite Z.min_r by lia. apply (IH (Some (default 0 o + 1))); [simpl; lia|done|lia|].
  intros o' Ho' Hlt. simpl in Hlt. destruct (decide (default 0 o' = default 0 o)) as [Heq|Hne].
  - rewrite (collision_inj o' o) by done. by rewrite He.
  - apply Hbelow; [done|]. simpl in *. lia.
Qed.

Lemma free_name_found m ts :
  Z.of_nat (size m) + 2 ≤ u32_max →
  ∃ o, free_rotated_name (S (size m)) name ts (rotated_name name ts None) 1 (mkWorld m [])
       = (Ok (rotated_name name ts o), mkWorld m []) ∧ next_free m ts o.
Proof.
  intros Hsize. destruct (names_in_order m ts (S (size m)) None 1) as (o & Hfree & Ho & Hbelow);
    [done|done|lia|intros [n|]; simpl; lia|].
  destruct (rotated_name_fresh name ts m Hsize) as (n & Hn & Hnone). rewrite Hfree in Hn.
  injection Hn as <-. by exists o.
Qed.

Lemma taken_segment l m segs rs ts o :
  seg_holds l m segs rs → is_rotation_timestamp ts = true → collision_ok o →
  is_Some (m !! rotated_name name ts o) → rotated_name name ts o ∈ segs.*1.
Proof.
  intros Hh Hts Ho [[c|] Hm].
  - rewrite (sh_names _ _ _ _ Hh). apply elem_of_segment_names. eauto using rotated_is_log.
  - apply (sh_special _ _ _ _ Hh) in Hm. by rewrite rotated_is_log in Hm.
Qed.

Lemma segment_taken l m segs rs n : seg_holds l m segs rs → n ∈ segs.*1 → is_Some (m !! n).
Proof. intros Hh. rewrite (sh_names _ _ _ _ Hh), elem_of_segment_names. intros (e & He & _). eauto. Qed.

(** The new segment comes after all others. *)
Lemma next_is_last l m segs rs ts o n :
  seg_holds l m segs rs → is_rotation_timestamp ts = true → later ts segs → next_free m ts o → n ∈ segs.*1 →
  rotation_lt prefix n (rotated_name name ts o).
Proof.
  intros Hh Hts Hlater (Ho & Hfree & _) Hn. pose proof (sh_form _ _ _ _ Hh) as Hform.
  unfold later in Hlater. rewrite Forall_forall in Hform, Hlater.
  destruct (Hform n Hn) as (ts' & o' & -> & Hts' & Ho'). specialize (Hlater _ Hn).
  unfold rotation_lt, rotation_le, order_le. rewrite !rotated_order in * by done. cbn [fst snd] in *.
  case_bool_decide as Heq; [|split; [done|congruence]]. subst ts'.
  assert (Hlt : default 0 o' < default 0 o); [|split; [apply Z.leb_le; lia|intros [= ?]; lia]].
  apply Z.nle_gt. intros Hle.
  assert (Hin : rotated_name name ts o ∈ segs.*1).
  { destruct (decide (default 0 o = default 0 o')) as [Heq|Hne]; [by rewrite (collision_inj o o')|].
    apply (sh_dense _ _ _ _ Hh ts o' o); (done || lia). }
  destruct (segment_taken _ _ _ _ _ Hh Hin) as [e He]. congruence.
Qed.

Lemma dense_next l m segs rs ts o :
  seg_holds l m segs rs → is_rotation_timestamp ts = true → next_free m ts o →
  dense (segs.*1 ++ [rotated_name name ts o]).
Proof.
  intros Hh Hts (Ho & Hfree & Hbelow) ts1 o1 o' Hts1 Ho1 Ho' Hlt Hin. apply elem_of_app.
  apply elem_of_app in Hin as [Hin|Heq%list_elem_of_singleton]; left; [by eapply (sh_dense _ _ _ _ Hh ts1 o1)|].
  apply (f_equal (λ n, rotation_order n prefix)) in Heq. rewrite !rotated_order in Heq by done. injection Heq as -> Heq.
  eapply taken_segment; [done..|]. apply Hbelow; [done|lia].
Qed.

(** A rotation adds one segment. *)
Lemma rotated_segment_names m rotated content :
  log_name_ok name → name ≠ rotated → chain_id_sidecar_path rotated ≠ rotated →
  is_rotated_log name (rotated, Regular content) = true → m !! rotated = None →
  segment_names name (rotated_files m rotated content) ≡ₚ segment_names name m ++ [rotated].
Proof.
  intros Hok Hnr Hsr Hlog Hfree. apply NoDup_Permutation; [apply NoDup_segment_names| |].
  - apply NoDup_app. split; [apply NoDup_segment_names|]. split; [|apply NoDup_singleton].
    intros x (e & He & _)%elem_of_segment_names ->%list_elem_of_singleton. congruence.
  - intros x. rewrite elem_of_app, list_elem_of_singleton, !elem_of_segment_names, rotated_files_lookup by done.
    destruct (decide (x = name)) as [->|Hxn].
    { rewrite bool_decide_eq_true_2 by done. split; [intros (e & _ & Hr); by rewrite active_no_log in Hr|].
      intros [(e & _ & Hr)|Heq]; [by rewrite active_no_log in Hr|done]. }
    rewrite (bool_decide_eq_false_2 (x = name)) by done. case_bool_decide as Hxr; [naive_solver|].
    case_bool_decide as Hxs; [|naive_solver]. subst x.
    split; [intros (e & _ & Hr)|intros [(e & _ & Hr)|?]; [|done]]; by rewrite sidecar_no_log in Hr.
Qed.

Lemma rotated_files_size m rotated content :
  is_Some (m !! name) → (size (rotated_files m rotated content) ≤ 2 + size m)%nat.
Proof.
  intros Ha. unfold rotated_files.
  assert (Hins : ∀ n e (m : gmap string entry), (size (<[n := e]> m) ≤ S (size m))%nat).
  { intros n e m'. rewrite map_size_insert. destruct (m' !! n); simpl; lia. }
  etrans; [apply Hins|]. apply le_n_S. etrans; [apply Hins|]. apply le_n_S.
  pose proof (Hins (chain_id_sidecar_path rotated) sidecar m). rewrite map_size_delete.
  destruct (<[_ := _]> m !! name) eqn:Hn; [simpl; lia|]. apply lookup_insert_None in Hn as [Hn _]. destruct Ha. congruence.
Qed.

Lemma seg_holds_rotated l m segs rs ts o :
  log_name_ok name → seg_holds l m segs rs → is_rotation_timestamp ts = true → later ts segs → next_free m ts o →
  rs ≠ [] →
  let rotated := rotated_name name ts o in
  seg_holds l (rotated_files m rotated (rendered k id (log_head k zero_hash (concat segs.*2)) rs))
    (segs ++ [(rotated, rs)]) [].
Proof.
  intros Hok Hh Hts Hlater Hnext Hrs rotated. pose proof Hnext as (Ho & Hfree & _).
  pose proof (λ c, rotated_is_log name ts o c Hts Ho) as Hlog. fold rotated in Hfree, Hlog.
  assert (Hnr : name ≠ rotated) by (intros Heq; specialize (Hlog ""); rewrite <-Heq, active_no_log in Hlog; done).
  assert (Hsr : chain_id_sidecar_path rotated ≠ rotated) by (intros Heq; by apply (log_not_sidecar rotated (Regular "") rotated Hok (Hlog _))).
  set (content := rendered k id _ rs). pose proof (λ x, rotated_files_lookup m rotated content x Hok Hnr Hsr) as Hlook.
  assert (Hkeep : ∀ n, n ∈ segs.*1 → rotated_files m rotated content !! n = m !! n).
  { intros n Hn. rewrite (sh_names _ _ _ _ Hh), elem_of_segment_names in Hn. destruct Hn as (e & He & Hr).
    rewrite Hlook, !bool_decide_eq_false_2; [done|by eapply log_not_sidecar|congruence|].
    intros ->. by rewrite active_no_log in Hr. }
  pose proof (λ n, next_is_last _ _ _ _ _ _ n Hh Hts Hlater Hnext) as Hlast.
  pose proof (dense_next _ _ _ _ _ _ Hh Hts Hnext) as Hdense'.
  destruct Hh as [Hl Ha Hd Hn Hso Hs Hsp Htmp Hwf Hform Hdense Hsize].
  assert (Hcat : concat (segs ++ [(rotated, rs)]).*2 ++ [] = concat segs.*2 ++ rs).
  { rewrite fmap_app, concat_app. cbn. by rewrite !app_nil_r. }
  split.
  - by rewrite Hcat.
  - rewrite Hlook, bool_decide_eq_true_2 by done. done.
  - apply on_disk_snoc; [by eapply on_disk_ext|done|]. exists content. split; [|by left].
    rewrite Hlook, bool_decide_eq_false_2 by done. by rewrite bool_decide_eq_true_2.
  - rewrite fmap_app, Hn. symmetry. by apply rotated_segment_names.
  - rewrite fmap_app. cbn [fmap list_fmap fst]. apply StronglySorted_app_2; [|done|by repeat constructor].
    intros x y Hx ->%list_elem_of_singleton. by apply Hlast.
  - rewrite Hlook, (bool_decide_eq_false_2 (_ = name)), (bool_decide_eq_false_2 (_ = rotated));
      [by case_bool_decide|intros Heq..].
    + by apply (log_not_sidecar rotated (Regular "") name Hok (Hlog _)).
    + by apply (name_not_sidecar name Hok).
  - intros n. rewrite Hlook. repeat case_bool_decide; try done. apply Hsp.
  - intros n Hext. rewrite Hlook, !bool_decide_eq_false_2; [by apply Htmp|intros ->..].
    + by rewrite sidecar_ext in Hext.
    + unfold rotated in Hext. rewrite rotated_ext in Hext. destruct Hok as [_ Hnew]. congruence.
    + destruct Hok as [_ Hnew]. apply Hnew. unfold log_ext. by rewrite Hext.
  - by rewrite Hcat.
  - rewrite fmap_app. apply Forall_app. split; [done|]. repeat constructor. by exists ts, o.
  - by rewrite fmap_app.
  - rewrite length_app. cbn [length]. etrans; [apply rotated_files_size|lia]. by rewrite Ha.
Qed.

(** The file operations of a rotation, with working storage. *)
Lemma reopen_calm l m rotated uuid content c :
  log_name_ok name → name ≠ rotated → extension (chain_id_sidecar_path rotated) ≠ Some "new" →
  path l = name → mode l = Chained true c →
  m !! name = Some (Regular content) → m !! chain_id_sidecar_path name = Some sidecar →
  (∀ n, extension n = Some "new" → m !! n = None) →
  reopen_rotated dir l rotated uuid (mkWorld m []) = (Ok tt, mkWorld (rotated_files m rotated content) []).
Proof.
  intros Hok Hnr Hext Hp Hmode Hm Hs Htmp. unfold reopen_rotated. rewrite Hmode, Hp.
  assert (Hcopy : copy_chain_id_sidecar dir (chain_id_sidecar_path name) (chain_id_sidecar_path rotated) true uuid
            (mkWorld m []) = (Ok tt, mkWorld (<[chain_id_sidecar_path rotated := sidecar]> m) [])).
  { assert (Hst : fs_try (fs_stat (chain_id_sidecar_path name)) (mkWorld m []) = (Ok (Ok sidecar), mkWorld m [])).
    { unfold fs_try, fs_stat. rewrite syscall_calm. simpl. by rewrite Hs. }
    unfold copy_chain_id_sidecar. rewrite logm_bind_eq, (lift_Ok _ _ _ _ Hst). unfold sidecar at 1.
    rewrite logm_bind_eq, (lift_Ok _ _ _ _ (read_sidecar_calm _ _ _ Hs)).
    apply lift_with_Ok, write_sidecar_calm; [exact Htmp|exact Hext]. }
  rewrite logm_bind_eq, Hcopy, logm_bind_eq. unfold lift_with at 1, fs_rename. rewrite syscall_calm.
  rewrite lookup_insert_ne, Hm by (intros Heq; by apply (name_not_sidecar rotated Hok)). cbn [fst snd map_err].
  apply lift_Ok. rewrite open_audit_fresh; [done|]. rewrite lookup_insert_ne by done. by rewrite lookup_delete_eq.
Qed.

Lemma rotate_calm l m segs rs ts uuid :
  log_name_ok name → seg_holds l m segs rs → is_rotation_timestamp ts = true → later ts segs → rs ≠ [] →
  Z.of_nat (size m) + 2 ≤ u32_max →
  ∃ m' o, rotate_inner dir ts uuid l (mkWorld m []) = (Ok tt, (l, mkWorld m' [])) ∧ collision_ok o ∧
    seg_holds l m' (segs ++ [(rotated_name name ts o, rs)]) [].
Proof.
  intros Hok Hh Hts Hlater Hrs Hsize. destruct (free_name_found m ts Hsize) as (o & Hname & Hnext).
  pose proof (seg_holds_rotated _ _ _ _ _ _ Hok Hh Hts Hlater Hnext Hrs) as Hh'. destruct Hnext as (Hoo & _ & _).
  set (rotated := rotated_name name ts o) in *. set (content := rendered k id _ rs) in Hh'.
  pose proof Hh as [-> Ha _ _ _ Hs _ Htmp _ _ _ _]. fold content in Ha.
  eexists _, o. split_and!; [|done|exact Hh']. unfold rotate_inner. cbn [path mode].
  assert (Hnr : name ≠ rotated).
  { intros Heq. pose proof (rotated_is_log name ts o "" Hts Hoo) as Hl. fold rotated in Hl. by rewrite <-Heq, active_no_log in Hl. }
  assert (Hsr : chain_id_sidecar_path rotated ≠ rotated).
  { intros Heq. by apply (log_not_sidecar rotated (Regular "") rotated Hok (rotated_is_log name ts o "" Hts Hoo)). }
  cbn [files]. rewrite Hname.
  rewrite (reopen_calm _ m rotated uuid content (mkHashChain k (log_head k zero_hash (concat segs.*2 ++ rs)) (Some id)))
    by (done || by rewrite sidecar_ext).
  pose proof (λ x, rotated_files_lookup m rotated content x Hok Hnr Hsr) as Hlook.
  assert (Hr : rotated_files m rotated content !! rotated = Some (Regular content)).
  { rewrite Hlook, bool_decide_eq_false_2 by done. by rewrite bool_decide_eq_true_2. }
  assert (Hsc : rotated_files m rotated content !! chain_id_sidecar_path rotated = Some sidecar).
  { rewrite Hlook, (bool_decide_eq_false_2 (_ = name)), (bool_decide_eq_false_2 (_ = rotated)) by
      (done || intros Heq; by apply (name_not_sidecar rotated Hok)). by rewrite bool_decide_eq_true_2. }
  rewrite (lift_Ok _ _ _ _ (file_for_head_calm _ _ _ Hr)).
  unfold content at 1. rewrite load_head_rendered by (done || by apply log_head_length).
  fold content. rewrite (lift_Ok _ _ _ _ (read_sidecar_calm _ _ _ Hsc)). cbn.
  by rewrite log_head_app.
Qed.

(** *** An append *)

Lemma segment_names_active m c :
  segment_names name (<[name := Regular c]> m) ≡ₚ segment_names name m.
Proof.
  apply NoDup_Permutation; [apply NoDup_segment_names..|]. intros x. rewrite !elem_of_segment_names.
  destruct (decide (x = name)) as [->|Hne]; [|by rewrite lookup_insert_ne].
  split; intros (e & _ & Hr); by rewrite active_no_log in Hr.
Qed.

Lemma seg_holds_appended m segs rs rec :
  let log rs := mkDecisionLog (Chained true (mkHashChain k (log_head k zero_hash (concat segs.*2 ++ rs)) (Some id)))
                  name (Some rot) in
  log_name_ok name → seg_holds (log rs) m segs rs → wf_record rec →
  seg_holds (log (rs ++ [rec]))
    (<[name := Regular (rendered k id (log_head k zero_hash (concat segs.*2)) (rs ++ [rec]))]> m) segs (rs ++ [rec]).
Proof.
  intros log Hok [_ Ha Hd Hn Ho Hs Hsp Htmp Hwf Hform Hdense Hsize] Hrec. split.
  - done.
  - by rewrite lookup_insert_eq.
  - eapply on_disk_ext; [|exact Hd]. intros n Hin. rewrite lookup_insert_ne; [done|]. intros <-.
    rewrite Hn, elem_of_segment_names in Hin. destruct Hin as (e & _ & Hr). by rewrite active_no_log in Hr.
  - by rewrite segment_names_active.
  - done.
  - rewrite lookup_insert_ne; [done|]. by apply name_not_sidecar.
  - intros n. rewrite lookup_insert_Some. intros [[_ [=]]|[_ ?]]. by apply Hsp.
  - intros n Hext. rewrite lookup_insert_ne; [by apply Htmp|]. intros <-. destruct Hok as [_ Hnew]. apply Hnew.
    unfold log_ext. by rewrite Hext.
  - rewrite app_assoc. apply Forall_app. split; [done|by constructor].
  - done.
  - done.
  - by rewrite map_size_insert, Ha.
Qed.

Lemma write_line_calm m line c :
  m !! name = Some (Regular c) →
  write_line_durably name line (mkWorld m []) = (Ok tt, mkWorld (<[name := Regular (c +:+ line)]> m) []).
Proof.
  intros Hm. unfold write_line_durably. rewrite fs_bind_eq. unfold fs_len. rewrite syscall_calm. cbn [fst snd].
  unfold fs_try. rewrite !fs_bind_eq. unfold fs_write_all, append_bytes. cbn [next_fault faults files]. rewrite Hm.
  by rewrite fs_sync_calm.
Qed.

Lemma append_calm l m segs rs rec fresh uuid c :
  log_name_ok name → seg_holds l m segs rs → wf_record rec → mode l = Chained true c →
  ∃ l' m', append_chained dir rec fresh uuid true c l (mkWorld m []) = (Ok tt, (l', mkWorld m' [])) ∧
    seg_holds l' m' segs (rs ++ [rec]).
Proof.
  intros Hok Hh Hrec Hmode. pose proof Hh as [-> Ha _ _ _ Hs _ _ _ _ _ _]. injection Hmode as <-.
  do 2 eexists. split; [|by apply seg_holds_appended]. unfold append_chained. cbn [get_id chain_id path set_chain mode].
  unfold ensure_sidecar. rewrite fs_bind_eq, (read_sidecar_calm _ _ _ Hs), bool_decide_eq_true_2 by done.
  cbn [mret fs_ret negb]. unfold try_append_with_io. cbn [root head]. rewrite (write_line_calm _ _ _ Ha).
  cbn [set_chain mode path rotation]. rewrite rendered_snoc, app_assoc, (log_head_snoc k _ (_ ++ rs)). unfold next_line.
  by rewrite <-!log_head_app.
Qed.

(** A log at its size limit has records in its active file. *)
Lemma needs_rotation_nonempty prev rs :
  1 ≤ max_bytes rot → (Z.of_nat (String.length (rendered k id prev rs)) <? max_bytes rot) = false → rs ≠ [].
Proof. intros Hmax Hlt ->. apply Z.ltb_ge in Hlt. simpl in Hlt. lia. Qed.

(** Where the records are after an append: rotated away first when the file is full. *)
Definition next_segments (ts : string) (segs : list (string * list DecisionRecord)) (rs : list DecisionRecord)
    (segs' : list (string * list DecisionRecord)) (rs' : list DecisionRecord) : Prop :=
  segs' = segs ∧ rs' = rs ∨
  ∃ o, collision_ok o ∧ segs' = segs ++ [(rotated_name name ts o, rs)] ∧ rs' = [].

Lemma append_rotating l m segs rs rec fresh ts uuid' uuid :
  log_name_ok name → 1 ≤ max_bytes rot → seg_holds l m segs rs → is_rotation_timestamp ts = true →
  later ts segs → wf_record rec → Z.of_nat (size m) + 2 ≤ u32_max →
  ∃ l' m' segs' rs', next_segments ts segs rs segs' rs' ∧
    log_append dir rec fresh ts uuid' uuid l (mkWorld m []) = (Ok tt, (l', mkWorld m' [])) ∧
    seg_holds l' m' segs' (rs' ++ [rec]).
Proof.
  intros Hok Hmax Hh Hts Hlater Hrec Hsize. unfold log_append, rotate_if_needed.
  pose proof (sh_log _ _ _ _ Hh) as ->. cbn [rotation path].
  assert (Hlen : fs_try (fs_len name) (mkWorld m [])
    = (Ok (Ok (String.length (rendered k id (log_head k zero_hash (concat segs.*2)) rs))), mkWorld m [])).
  { unfold fs_try, fs_len. rewrite syscall_calm, (sh_active _ _ _ _ Hh). done. }
  rewrite Hlen. destruct (_ <? _) eqn:Hlt.
  - destruct (append_calm _ m segs rs rec fresh uuid _ Hok Hh Hrec eq_refl) as (l' & m' & Hap & Hh'). exists l', m', segs, rs. split_and!; [by left|done..].
  - apply needs_rotation_nonempty in Hlt; [|done].
    destruct (rotate_calm _ m segs rs ts uuid' Hok Hh Hts Hlater Hlt Hsize) as (m1 & o & -> & Ho & Hh1).
    destruct (append_calm _ m1 _ _ rec fresh uuid _ Hok Hh1 Hrec eq_refl) as (l' & m' & Hap & Hh'). do 4 eexists. split_and!; [right; by exists o|done..].
Qed.

(** *** Reading, and opening again *)

Lemma read_mixed_rendered n prev rs idx :
  Forall wf_record rs → read_mixed_lines dir n idx (read_lines (rendered k id prev rs)) = Ok rs.
Proof.
  intros Hwf. revert prev idx. induction Hwf as [|r rs Hr Hwf IH]; intros prev idx; [done|].
  cbn [rendered]. rewrite read_lines_chained. cbn [read_mixed_lines]. rewrite utf8_line_chained.
  cbn [mbind result_bind]. rewrite (proj2 (json_not_blank _)). unfold read_mixed_line.
  rewrite record_in_chained by done. cbn [mbind result_bind c_record]. by rewrite IH.
Qed.

Lemma read_mixed_ext n idx ls ls' :
  utf8_line <$> ls = utf8_line <$> ls' → read_mixed_lines dir n idx ls = read_mixed_lines dir n idx ls'.
Proof.
  revert ls' idx. induction ls as [|l ls IH]; intros [|l' ls'] idx; try done. intros [= Hl Hls].
  cbn [read_mixed_lines]. rewrite Hl, (IH ls' (idx + 1) Hls). done.
Qed.

Lemma read_segments m segs rs : ∀ prev,
  on_disk m prev segs → m !! name = Some (Regular (rendered k id (log_head k prev (concat segs.*2)) rs)) →
  Forall wf_record (concat segs.*2 ++ rs) →
  read_all_mixed_paths dir (segs.*1 ++ [name]) (mkWorld m []) = (Ok (concat segs.*2 ++ rs), mkWorld m []).
Proof.
  assert (Hstep : ∀ n c xs ns out,
    m !! n = Some (Regular c) → read_mixed_lines dir n 0 (read_lines c) = Ok xs →
    read_all_mixed_paths dir ns (mkWorld m []) = (Ok out, mkWorld m []) →
    read_all_mixed_paths dir (n :: ns) (mkWorld m []) = (Ok (xs ++ out), mkWorld m [])).
  { intros n c xs ns out Hn Hxs Hout. cbn [read_all_mixed_paths].
    rewrite logm_bind_eq, (lift_Ok _ _ _ _ (open_existing_calm _ _ _ _ Hn)), logm_bind_eq.
    unfold lift_result. by rewrite Hxs, logm_bind_eq, Hout. }
  induction segs as [|[x xs] segs IH]; intros prev Hd Ha Hwf; cbn [fmap list_fmap fst snd concat app] in *.
  - rewrite <-(app_nil_r rs) at 1. eapply Hstep; [exact Ha|by apply read_mixed_rendered|done].
  - destruct Hd as (Hne & (c & Hx & Hc) & Hd). rewrite log_head_app in Ha. rewrite <-app_assoc in Hwf |- *.
    apply Forall_app in Hwf as [Hwx Hwf]. eapply Hstep; [exact Hx| |by eapply IH].
    rewrite (read_mixed_ext _ _ _ _ (seg_text_lines _ _ _ Hne Hc)). by apply read_mixed_rendered.
Qed.

Lemma seg_holds_read l m segs rs :
  seg_holds l m segs rs → read_all dir name (mkWorld m []) = (Ok (concat segs.*2 ++ rs), mkWorld m []).
Proof.
  intros [_ Ha Hd Hn Ho _ _ _ Hwf _ _ _]. unfold read_all.
  rewrite logm_bind_eq, (lift_Ok _ _ _ _ (rotated_logs_calm _ _ _ Ho Hn)). by eapply read_segments.
Qed.

(** The head of a log that is not empty, and of a new log. *)
Lemma load_head_active c prev rs :
  root c = k → String.length prev = 32%nat → (rs ≠ [] ∨ c = chain_new k ∧ prev = zero_hash) →
  ∃ o, load_head_from_file c (Ok (Some (rendered k id prev rs))) = Ok (mkHashChain k (log_head k prev rs) o) ∧
    default id o = id.
Proof.
  intros Hc Hl Hor. destruct (decide (rs = [])) as [->|Hne].
  - destruct Hor as [?|[-> ->]]; [done|]. by exists None.
  - exists (Some id). by rewrite load_head_rendered.
Qed.

(** The head is read from the active file, unless that is empty and there are segments. *)
Lemma head_path_calm m names (b : bool) :
  rotated_logs name (mkWorld m []) = (Ok names, mkWorld m []) → (b = true → names = []) →
  (if b then r ← lift (latest_rotated_log name); mret (default name r) else mret name) (mkWorld m [])
  = (Ok name, mkWorld m []).
Proof.
  intros Hlogs Hb. destruct b; [|done]. unfold latest_rotated_log. rewrite logm_bind_eq. unfold lift at 1, lift_with.
  by rewrite fs_bind_eq, Hlogs, Hb.
Qed.

Lemma seg_holds_reopen l m segs rs fresh uuid :
  seg_holds l m segs rs → (rs ≠ [] ∨ segs = []) →
  open_internal dir name (Some k) (Some rot) fresh uuid (mkWorld m []) = (Ok l, mkWorld m []).
Proof.
  intros [-> Ha Hd Hn Ho Hs _ _ Hwf _ _ _] Hor. unfold open_internal.
  rewrite logm_bind_eq, (lift_Ok fs_sync _ _ _ (fs_sync_calm _)).
  rewrite logm_bind_eq, (lift_Ok _ _ _ _ (open_audit_calm _ _ _ _ Ha)).
  pose proof (rotated_logs_calm _ _ _ Ho Hn) as Hlogs. rewrite logm_bind_eq, (lift_Ok _ _ _ _ Hlogs).
  rewrite logm_bind_eq. unfold verify_chain_paths. rewrite logm_bind_eq.
  destruct (verify_segments m segs rs zero_hash verify_init Hd Ha Hwf eq_refl eq_refl (or_introl eq_refl)) as [n Hv].
  rewrite Hv. cbn [map_err mret logm_ret].
  rewrite logm_bind_eq, (lift_Ok _ _ _ _ (is_empty_calm _ _ _ Ha)).
  rewrite logm_bind_eq, (head_path_calm _ _ _ Hlogs).
  2: { intros Hb%bool_decide_eq_true. destruct Hor as [Hne| ->]; [|done]. exfalso. revert Hb. by apply rendered_nonempty. }
  rewrite logm_bind_eq, (lift_Ok _ _ _ _ (file_for_head_calm _ _ _ Ha)), logm_bind_eq. unfold lift_result.
  destruct (load_head_active (chain_new k) (log_head k zero_hash (concat segs.*2)) rs) as (o & -> & Ho');
    [done|by apply log_head_length|destruct Hor as [?| ->]; [by left|by right]|].
  cbn [map_err]. rewrite logm_bind_eq, (lift_Ok _ _ _ _ (read_sidecar_calm _ _ _ Hs)).
  rewrite logm_bind_eq. rewrite log_head_app. destruct o; simpl in Ho'; by subst.
Qed.

(** The directory of a log that was opened for the first time. *)
Definition new_files : gmap string entry := <[chain_id_sidecar_path name := sidecar]> {[name := Regular ""]}.

Lemma seg_holds_new :
  log_name_ok name →
  seg_holds (mkDecisionLog (Chained true (mkHashChain k zero_hash (Some id))) name (Some rot)) new_files [] [].
Proof.
  intros Hok. pose proof (name_not_sidecar name Hok) as Hns.
  assert (Hinv : ∀ n e, new_files !! n = Some e →
    n = chain_id_sidecar_path name ∧ e = sidecar ∨ n = name ∧ e = Regular "").
  { intros n e. unfold new_files. rewrite lookup_insert_Some, lookup_singleton_Some. naive_solver. }
  split; try done.
  - unfold new_files. rewrite lookup_insert_ne by done. by rewrite lookup_singleton_eq.
  - symmetry. apply Permutation_nil_r. destruct (segment_names name new_files) as [|x l] eqn:Hs; [done|].
    assert (Hx : x ∈ segment_names name new_files) by (rewrite Hs; left).
    apply elem_of_segment_names in Hx as (e & [[-> _]|[-> _]]%Hinv & Hr);
      [by rewrite sidecar_no_log in Hr|by rewrite active_no_log in Hr].
  - constructor.
  - unfold new_files. by rewrite lookup_insert_eq.
  - intros n [[_ ?]|[_ ?]]%Hinv; done.
  - intros n Hext. destruct (new_files !! n) as [e|] eqn:He; [|done].
    apply Hinv in He as [[-> _]|[-> _]]; [by rewrite sidecar_ext in Hext|].
    destruct Hok as [_ Hnew]. destruct Hnew. unfold log_ext. by rewrite Hext.
  - intros ts o o' _ _ _ _ ?%elem_of_nil. done.
  - unfold new_files. rewrite map_size_insert, map_size_singleton. destruct (_ !! _); simpl; lia.
Qed.

Lemma open_new uuid :
  log_name_ok name →
  open_internal dir name (Some k) (Some rot) id uuid (mkWorld ∅ [])
  = (Ok (mkDecisionLog (Chained true (mkHashChain k zero_hash (Some id))) name (Some rot)), mkWorld new_files []).
Proof.
  intros Hok. pose proof (name_not_sidecar name Hok) as Hns. set (m := <[name := Regular ""]> (∅ : gmap string entry)).
  assert (Ha : m !! name = Some (Regular "")) by apply lookup_insert_eq.
  assert (Hlogs : rotated_logs name (mkWorld m []) = (Ok [], mkWorld m [])).
  { apply rotated_logs_none. intros n e Hn. unfold m in Hn. apply lookup_insert_Some in Hn as [[<- <-]|[_ ?]]; [|done].
    apply active_no_log. }
  assert (Hread : read_chain_id_sidecar (chain_id_sidecar_path name) (mkWorld m []) = (Ok None, mkWorld m [])).
  { unfold read_chain_id_sidecar, fs_read_to_string, fs_try, fs_read. rewrite !fs_bind_eq, syscall_calm. unfold m.
    by rewrite lookup_insert_ne. }
  assert (Htmp : ∀ n, extension n = Some "new" → m !! n = None).
  { intros n Hn. unfold m. rewrite lookup_insert_ne; [done|]. intros <-. destruct Hok as [_ Hnew]. destruct Hnew.
    unfold log_ext. by rewrite Hn. }
  assert (Hext : extension (chain_id_sidecar_path name) ≠ Some "new") by by rewrite sidecar_ext.
  unfold open_internal. rewrite logm_bind_eq, (lift_Ok fs_sync _ _ _ (fs_sync_calm _)).
  rewrite logm_bind_eq, (lift_Ok _ _ _ _ (open_audit_fresh ∅ (lookup_empty _))). fold m.
  rewrite logm_bind_eq, (lift_Ok _ _ _ _ Hlogs), logm_bind_eq. cbn [app].
  rewrite (verify_single dir k id name [] m id) by done. cbn [map_err].
  rewrite logm_bind_eq, (lift_Ok _ _ _ _ (is_empty_calm _ _ _ Ha)).
  rewrite logm_bind_eq, (head_path_calm _ _ _ Hlogs) by done.
  rewrite logm_bind_eq, (lift_Ok _ _ _ _ (file_for_head_calm _ _ _ Ha)), logm_bind_eq.
  change (lift_result _ _) with (Ok (E := Error) (chain_new k), mkWorld m []). cbn beta iota.
  rewrite logm_bind_eq, (lift_Ok _ _ _ _ Hread), logm_bind_eq. cbn [get_id chain_id chain_new root head].
  rewrite logm_bind_eq, (lift_with_Ok _ _ _ _ _ (write_sidecar_calm m _ uuid Htmp Hext)). unfold new_files.
  done.
Qed.

(** *** Runs *)

Definition reopens (segs : list (string * list DecisionRecord)) (rs : list DecisionRecord) : Prop :=
  rs ≠ [] ∨ segs = [].

(** What a request brings along: a record that can be written, and a clock that reads well. *)
Definition sane (a : append_args) : Prop := wf_record (aa_rec a) ∧ is_rotation_timestamp (aa_ts a) = true.

Lemma later_next ts ts' segs rs segs' rs' :
  is_rotation_timestamp ts = true → str_le ts ts' → next_segments ts segs rs segs' rs' →
  later ts' segs → later ts' segs'.
Proof.
  intros Hts Hle [[-> ->]|(o & Ho & -> & ->)]; [done|]. intros Hl. unfold later.
  rewrite fmap_app. apply Forall_app. split; [done|]. cbn [fmap list_fmap fst].
  apply Forall_singleton. by rewrite rotated_order.
Qed.

Lemma next_segments_records ts segs rs segs' rs' :
  next_segments ts segs rs segs' rs' → concat segs'.*2 ++ rs' = concat segs.*2 ++ rs.
Proof.
  intros [[-> ->]|(o & _ & -> & ->)]; [done|]. rewrite fmap_app, concat_app. cbn. by rewrite !app_nil_r.
Qed.

(** There are no more files than twice the records. *)
Lemma on_disk_length m prev segs : on_disk m prev segs → (length segs ≤ length (concat segs.*2))%nat.
Proof.
  revert prev. induction segs as [|[n rs] segs IH]; intros prev; [simpl; lia|]. intros (Hne & _ & Hs%IH).
  cbn [fmap list_fmap concat snd length]. rewrite length_app. destruct rs; [done|]. simpl. lia.
Qed.

(** Room for the names of [n] more records. *)
Definition room (segs : list (string * list DecisionRecord)) (rs : list DecisionRecord) (n : nat) : Prop :=
  2 * Z.of_nat (length (concat segs.*2 ++ rs) + n) + 4 ≤ u32_max.

Lemma room_size l m segs rs n : seg_holds l m segs rs → room segs rs n → Z.of_nat (size m) + 2 ≤ u32_max.
Proof.
  intros Hh. unfold room. pose proof (sh_size _ _ _ _ Hh). pose proof (on_disk_length _ _ _ (sh_segs _ _ _ _ Hh)).
  rewrite length_app. lia.
Qed.

Lemma append_run_rotating reqs : ∀ l m segs rs,
  log_name_ok name → 1 ≤ max_bytes rot → seg_holds l m segs rs → reopens segs rs → Forall sane reqs →
  room segs rs (length reqs) →
  StronglySorted str_le (aa_ts <$> reqs) → Forall (λ a, later (aa_ts a) segs) reqs →
  ∃ l' m' segs' rs',
    append_run dir reqs l (mkWorld m []) = ((λ a, (aa_rec a, Ok tt)) <$> reqs, (l', mkWorld m' [])) ∧
    seg_holds l' m' segs' rs' ∧ reopens segs' rs' ∧
    concat segs'.*2 ++ rs' = concat segs.*2 ++ rs ++ (aa_rec <$> reqs) ∧
    ∀ ts, later ts segs → Forall (λ a, str_le (aa_ts a) ts) reqs → later ts segs'.
Proof.
  induction reqs as [|a reqs IH]; intros l m segs rs Hok Hmax Hh Hre Hsane Hroom Hts Hlater.
  { exists l, m, segs, rs. rewrite app_nil_r. by split_and!. }
  apply Forall_cons in Hsane as [[Hwf Ht] Hsane]. apply Forall_cons in Hlater as [Ha Hlater].
  cbn [fmap list_fmap] in Hts. apply StronglySorted_cons in Hts as [Hall Hts]. rewrite Forall_fmap in Hall.
  destruct (append_rotating l m segs rs (aa_rec a) (aa_fresh a) (aa_ts a) (aa_uuid' a) (aa_uuid a)
    Hok Hmax Hh Ht Ha Hwf (room_size _ _ _ _ _ Hh Hroom)) as (l1 & m1 & segs1 & rs1 & Hstep & Hap & Hh1).
  pose proof (next_segments_records _ _ _ _ _ Hstep) as Hrecs.
  pose proof (λ ts' Hle, later_next (aa_ts a) ts' _ _ _ _ Ht Hle Hstep) as Hnext.
  destruct (IH l1 m1 segs1 (rs1 ++ [aa_rec a])) as (l' & m' & segs' & rs' & Hrun & Hh' & Hre' & Hcat & Hl'); try done.
  { left. by destruct rs1. }
  { unfold room in *. rewrite app_assoc, Hrecs, length_app. cbn [length] in *. lia. }
  { rewrite Forall_forall in Hall, Hlater |- *. intros x Hx. apply Hnext; [by apply Hall|by apply Hlater]. }
  exists l', m', segs', rs'. split_and!; [|done|done| |].
  - cbn [append_run]. rewrite Hap, Hrun. done.
  - rewrite Hcat, !app_assoc, Hrecs, <-!app_assoc. done.
  - intros ts Hl [Hlt Hrest]%Forall_cons. apply Hl'; [by apply Hnext|done].
Qed.

(** *** Sessions *)

(** A run of the server: the log is opened, and then appended to until it stops. *)
Record session : Type := mkSession { s_fresh : ChainId; s_uuid : string; s_reqs : list append_args }.

Fixpoint session_run (ss : list session) : world → list (cresult unit) * world := λ w,
  match ss with
  | [] => ([], w)
  | s :: ss =>
      match open_internal dir name (Some k) (Some rot) (s_fresh s) (s_uuid s) w with
      | (Err e, w) => ([Err e], w)
      | (Ok l, w) =>
          let '(out, (_, w)) := append_run dir (s_reqs s) l w in
          let '(rest, w) := session_run ss w in (out.*2 ++ rest, w)
      end
  end.

Definition requests (ss : list session) : list append_args := concat (s_reqs <$> ss).

Lemma appends_all_ok reqs : ((λ a : append_args, (aa_rec a, Ok tt : cresult unit)) <$> reqs).*2 = replicate (length reqs) (Ok tt).
Proof. induction reqs as [|a reqs IH]; [done|]. cbn. by rewrite <-IH. Qed.

Lemma StronglySorted_app_inv {A} (R : A → A → Prop) (a b : list A) :
  StronglySorted R (a ++ b) → StronglySorted R a ∧ StronglySorted R b ∧ Forall (λ x, Forall (R x) b) a.
Proof.
  induction a as [|x a IH]; cbn [app]; [intros; by split_and!; [constructor| |constructor]|].
  intros [[Ha Hb]%Forall_app (Hsa & Hsb & Hab)%IH]%StronglySorted_cons. split_and!; [by constructor|done|by constructor].
Qed.

Lemma session_run_holds ss : ∀ l m segs rs,
  log_name_ok name → 1 ≤ max_bytes rot → seg_holds l m segs rs → reopens segs rs → Forall sane (requests ss) →
  room segs rs (length (requests ss)) → StronglySorted str_le (aa_ts <$> requests ss) → Forall (λ a, later (aa_ts a) segs) (requests ss) →
  ∃ l' m' segs' rs',
    session_run ss (mkWorld m []) = (replicate (length (requests ss)) (Ok tt), mkWorld m' []) ∧
    seg_holds l' m' segs' rs' ∧ concat segs'.*2 ++ rs' = concat segs.*2 ++ rs ++ (aa_rec <$> requests ss).
Proof.
  induction ss as [|s ss IH]; intros l m segs rs Hok Hmax Hh Hre Hsane Hroom Hts Hlater.
  { exists l, m, segs, rs. cbn. by rewrite app_nil_r. }
  change (requests (s :: ss)) with (s_reqs s ++ requests ss) in *.
  apply Forall_app in Hsane as [Hs1 Hs2], Hlater as [Hl1 Hl2]. rewrite fmap_app in Hts.
  apply StronglySorted_app_inv in Hts as (Ht1 & Ht2 & Ht12).
  destruct (append_run_rotating (s_reqs s) l m segs rs) as (l1 & m1 & segs1 & rs1 & Hrun & Hh1 & Hre1 & Hcat & Hl);
    try done.
  { clear -Hroom. unfold room in *. rewrite length_app in Hroom. rewrite !length_app in *. lia. }
  destruct (IH l1 m1 segs1 rs1) as (l' & m' & segs' & rs' & Hrest & Hh' & Hcat'); try done.
  { unfold room in *. rewrite Hcat. rewrite !length_app, length_fmap in *. lia. }
  { rewrite Forall_fmap in Ht12. rewrite Forall_forall in Hl2, Ht12 |- *. intros a Ha. apply Hl; [by apply Hl2|].
    rewrite Forall_forall. intros b Hb. specialize (Ht12 b Hb). simpl in Ht12. rewrite Forall_fmap, Forall_forall in Ht12.
    by apply Ht12. }
  exists l', m', segs', rs'. split_and!; [|done|].
  - cbn [session_run]. rewrite (seg_holds_reopen l m segs rs) by done. rewrite Hrun, Hrest, appends_all_ok.
    by rewrite length_app, replicate_add.
  - rewrite Hcat', fmap_app, app_assoc, Hcat. by rewrite <-!app_assoc.
Qed.

(** C31: a rotating log refines one list of records, across restarts.  Let a server be run any
    number of times from an empty directory, each time opening the log and appending to it,
    with rotation at any size limit, on a clock that does not run backwards (it may stand still)
    and storage that works.  Then every append succeeds, all segments together read back as exactly the
    records appended, in order, and they verify as one chain under the id that the first run
    chose. *)
Theorem rotating_log_one_chain s ss fresh :
  log_name_ok name → 1 ≤ max_bytes rot → s_fresh s = id → Forall sane (requests (s :: ss)) →
  StronglySorted str_le (aa_ts <$> requests (s :: ss)) →
  requests (s :: ss) ≠ [] → 2 * Z.of_nat (length (requests (s :: ss))) + 4 ≤ u32_max →
  ∃ w, session_run (s :: ss) (mkWorld ∅ []) = (replicate (length (requests (s :: ss))) (Ok tt), w) ∧
    read_all dir name w = (Ok (aa_rec <$> requests (s :: ss)), w) ∧
    log_verify_chain dir name k fresh w = (Ok id, w).
Proof.
  intros Hok Hmax Hid Hsane Hts Hne Hroom.
  destruct (session_run_holds (s :: ss) _ _ [] [] Hok Hmax (seg_holds_new Hok) (or_intror eq_refl) Hsane Hroom Hts)
    as (l & m & segs & rs & Hrun & Hh & Hcat).
  { rewrite Forall_forall. intros a _. constructor. }
  exists (mkWorld m []). cbn [fmap list_fmap concat app] in Hcat. split_and!.
  - rewrite <-Hrun. cbn [session_run]. rewrite Hid, open_new by done.
    by rewrite (seg_holds_reopen _ new_files [] []) by (by apply seg_holds_new || by right).
  - rewrite <-Hcat. by eapply seg_holds_read.
  - eapply seg_holds_verifies; [done|]. rewrite Hcat. by intros ?%fmap_nil_inv.
Qed.
End segments.

(** ** A concrete log *)

From S2P Require Import AuditExamples.
Import Crypto.Concrete Canonical.Concrete.

(** Appends at given times; and two runs of a server, whose log rotates at 100 bytes.  The
    clock stands still for the first three appends. *)
Definition at_time (i ts : string) : append_args := mkAppendArgs (rec_of i) log_id ts ("r" +:+ i) ("u" +:+ i).
Definition first_run : session :=
  mkSession log_id "o1" ((λ i, at_time i "20260101T000000000000Z") <$> ["1"; "2"; "3"]).
Definition second_run : session := mkSession "fresh-chain-id!!" "o2" [at_time "4" "20260101T000002000000Z"].

(** The witness of [rotating_log_one_chain]; the runs leave three segments. *)
Example rotating_log_one_chain_witness :
  let rot := mkRotationConfig 100 in
  let runs := session_run "." "key" name rot [first_run; second_run] (mkWorld ∅ []) in
  runs.1 = replicate 4 (Ok tt) ∧ length (segment_names name (files runs.2)) = 3%nat ∧
  read_all "." name runs.2 = (Ok (rec_of <$> ["1"; "2"; "3"; "4"]), runs.2) ∧
  log_verify_chain "." name "key" "other" runs.2 = (Ok log_id, runs.2).
Proof.
  intros rot runs.
  destruct (rotating_log_one_chain "." "key" log_id name rot first_run [second_run] "other")
    as (w & Hw & Hr & Hv); [by split|done|done| | |done|done|].
  - by repeat constructor.
  - repeat constructor.
  - fold runs in Hw. rewrite Hw. split; [done|]. cbn [snd]. split; [|by split].
    replace w with runs.2 by (by rewrite Hw). by vm_compute.
Defined.

(** When the clock is set back between two rotations the segments are no longer read in the
    order they were written: every append succeeds, but from then on the log reads out of
    order, does not verify, and cannot be opened again. *)
Definition set_back : session :=
  mkSession log_id "o1" [at_time "1" "20260101T000003000000Z"; at_time "2" "20260101T000002000000Z";
                         at_time "3" "20260101T000001000000Z"].
Theorem clock_set_back_breaks_chain :
  let rot := mkRotationConfig 100 in
  let runs := session_run "." "key" name rot [set_back] (mkWorld ∅ []) in
  runs.1 = replicate 3 (Ok tt) ∧
  (read_all "." name runs.2).1 = Ok (rec_of <$> ["2"; "1"; "3"]) ∧
  (∃ reason, (log_verify_chain "." name "key" "other" runs.2).1 = Err (Other reason)) ∧
  ∃ reason, (open_internal "." name (Some "key") (Some rot) "other" "o2" runs.2).1 = Err (Other reason).
Proof. cbv zeta. split_and!; [by vm_compute|by vm_compute|eexists; by vm_compute|eexists; by vm_compute]. Qed.
