(* ===== verification/RotationFaults.v ===== *)
(** * Rotation under storage failures

    The rotating log of [Rotation], when any call to the file system may fail.  A failed
    write closes the log, but the next append that finds the file over the limit rotates it,
    and opens the log again.  What was accepted is never lost on the way; what was refused
    may be kept. *)

From S2P Require Import Prelude Json CoreError Crypto Trace Request DecisionRecord HashChain Canonical AuditFs AuditLog Text Rotation.

Section faults.
Context (dir : string).
Context `{JsonText, Hex, Hmac, UuidText, JsonScalars, RecordCodec}.
Context `{!JsonTextLaws, !JsonObjectLaws, !HexLaws, !HmacLaws, !UuidLaws, !RecordLaws}.
Context (k : bytes) (id : ChainId) (name : string) (rot : RotationConfig).
Hypothesis Hok : log_name_ok name.
Hypothesis Hmax : 1 ≤ max_bytes rot.

Abbreviation prefix := (file_stem name +:+ "-").
Abbreviation rotated ts := (rotated_name name ts None).
Abbreviation segments := (list (string * list DecisionRecord)).

(** ** The files of the log *)

(** The active file and the segments; the rest of the directory does not matter. *)
Definition log_file (n : string) : Prop := n = name ∨ is_rotated_log name (n, Regular "") = true.
Definition same_logs (m m' : gmap string entry) : Prop := ∀ n, log_file n → m' !! n = m !! n.

Lemma log_file_any n c : is_rotated_log name (n, Regular c) = is_rotated_log name (n, Regular "").
Proof. done. Qed.

Lemma is_log_file n e : is_rotated_log name (n, e) = true → log_file n.
Proof. destruct e; [by right|]. unfold is_rotated_log. by rewrite andb_false_r. Qed.

Lemma log_file_not_sidecar n x : log_file n → n ≠ chain_id_sidecar_path x.
Proof. intros [->|Hn]; [by apply name_not_sidecar|by eapply log_not_sidecar]. Qed.

Lemma tmp_ext x uuid : extension ("." +:+ x +:+ "." +:+ uuid +:+ ".new") = Some "new".
Proof.
  unfold extension.
  replace ("." +:+ x +:+ "." +:+ uuid +:+ ".new") with (("." +:+ x +:+ "." +:+ uuid) +:+ String "." "new")
    by (cbn [String.append]; by rewrite <-!string_app_assoc). by rewrite rsplit_dot_app.
Qed.

Lemma log_file_not_tmp n x uuid : log_file n → n ≠ "." +:+ x +:+ "." +:+ uuid +:+ ".new".
Proof.
  intros Hn ->. destruct Hok as [_ Hnew]. apply Hnew. unfold log_ext. destruct Hn as [Hn|Hn].
  - by rewrite <-Hn, tmp_ext.
  - unfold is_rotated_log in Hn. rewrite tmp_ext in Hn. bool_inv. congruence.
Qed.

Lemma keeps_write_sidecar n x i uuid : log_file n → keeps n (write_chain_id_sidecar (chain_id_sidecar_path x) i uuid).
Proof.
  intros Hn. pose proof (log_file_not_sidecar n x Hn). pose proof (log_file_not_tmp n (chain_id_sidecar_path x) uuid Hn).
  unfold write_chain_id_sidecar. keeps_tac.
Qed.

Lemma keeps_ensure n i uuid : log_file n → keeps n (ensure_sidecar name i uuid).
Proof.
  intros Hn. pose proof (keeps_write_sidecar n name i uuid Hn). unfold ensure_sidecar, read_chain_id_sidecar. keeps_tac.
Qed.

Lemma keeps_copy n r uuid :
  log_file n → log_keeps n (copy_chain_id_sidecar dir (chain_id_sidecar_path name) (chain_id_sidecar_path r) true uuid).
Proof.
  intros Hn. unfold copy_chain_id_sidecar.
  assert (Hthrow : ∀ e, log_keeps n (throw (A := unit) e)) by (by intros e w ? ? [= <- <-]).
  apply log_keeps_bind; [apply log_keeps_lift; keeps_tac|]. intros [[c|]|[]]; try apply Hthrow.
  apply log_keeps_bind; [apply log_keeps_lift; unfold read_chain_id_sidecar; keeps_tac|].
  intros [i|]; [|apply Hthrow]. by apply log_keeps_lift, keeps_write_sidecar.
Qed.

Lemma keeps_write_line n line : n ≠ name → keeps n (write_line_durably name line).
Proof. intros Hn. unfold write_line_durably. keeps_tac. Qed.

Lemma keeps_open n : n ≠ name → keeps n (open_audit_file dir name).
Proof. intros Hn. unfold open_audit_file, validate_audit_path, require_regular. keeps_tac. Qed.

(** Opening a file that is not there: it is made, or nothing happens. *)
Lemma open_audit_inv w r w' :
  files w !! name = None → open_audit_file dir name w = (r, w') →
  (is_ok r = true ∧ files w' !! name = Some (Regular "")) ∨
  (is_ok r = false ∧ (files w' !! name = None ∨ files w' !! name = Some (Regular ""))).
Proof.
  intros Hm. unfold open_audit_file. rewrite fs_bind_eq.
  destruct (validate_audit_path dir name w) as [r1 w1] eqn:Hv.
  assert (Hk1 : files w1 !! name = None).
  { rewrite <-Hm. revert Hv. unfold validate_audit_path. apply (keeps_bind name); [keeps_tac|intros; keeps_tac]. }
  destruct r1 as [[]|e]; [|intros [= <- <-]; right; by auto].
  rewrite fs_bind_eq. destruct (fs_open_append name w1) as [r2 w2] eqn:Ho.
  apply syscall_inv in Ho as [(e & -> & Hf)|[= -> Hf]].
  { intros [= <- <-]. right. rewrite Hf. by auto. }
  rewrite Hk1 in Hf. assert (Hk2 : files w2 !! name = Some (Regular "")) by (rewrite Hf; by apply lookup_insert_eq).
  intros Hr. assert (Hk3 : files w' !! name = files w2 !! name).
  { revert Hr. unfold require_regular. apply (keeps_bind name); [keeps_tac|intros; keeps_tac]. }
  rewrite Hk3, Hk2. destruct r; auto.
Qed.

(** ** The segments *)

Record layout (m : gmap string entry) (segs : segments) : Prop := {
  ly_segs : on_disk k id m zero_hash segs;
  ly_names : segs.*1 ≡ₚ segment_names name m;
  ly_order : StronglySorted (rotation_lt prefix) segs.*1;
  ly_special : ∀ n, m !! n = Some Special → is_rotated_log name (n, Regular "") = false;
}.

Definition prev_of (segs : segments) : bytes := log_head k zero_hash (concat segs.*2).
Definition all_of (segs : segments) (rs : list DecisionRecord) : list DecisionRecord := concat segs.*2 ++ rs.

Lemma segment_is_log m segs n : layout m segs → n ∈ segs.*1 → ∃ c, m !! n = Some (Regular c) ∧ log_file n ∧ n ≠ name.
Proof.
  intros Hl. rewrite (ly_names _ _ Hl), elem_of_segment_names. intros (e & He & Hr).
  destruct e as [c|]; [|unfold is_rotated_log in Hr; by rewrite andb_false_r in Hr].
  exists c. split_and!; [done|by right|]. intros ->. by rewrite active_no_log in Hr.
Qed.

Lemma segment_names_same m m' : same_logs m m' → segment_names name m' ≡ₚ segment_names name m.
Proof.
  intros Hs. apply NoDup_Permutation; [apply NoDup_segment_names..|]. intros n. rewrite !elem_of_segment_names.
  split; intros (e & He & Hr); exists e; (split; [|done]); pose proof (Hs n (is_log_file _ _ Hr)); congruence.
Qed.

Lemma layout_same m m' segs : same_logs m m' → layout m segs → layout m' segs.
Proof.
  intros Hs Hl. pose proof (segment_names_same _ _ Hs) as Hp. split.
  - eapply on_disk_ext; [|apply Hl]. intros n Hn. destruct (segment_is_log _ _ _ Hl Hn) as (c & _ & Hf & _). by apply Hs.
  - by rewrite Hp, <-(ly_names _ _ Hl).
  - apply Hl.
  - intros n Hn. destruct (is_rotated_log name (n, Regular "")) eqn:Hr; [|done].
    rewrite (Hs n (is_log_file _ _ Hr)) in Hn. by rewrite (ly_special _ _ Hl n Hn) in Hr.
Qed.

(** The active file may change. *)
Lemma layout_active m m' segs : (∀ n, log_file n → n ≠ name → m' !! n = m !! n) → layout m segs → layout m' segs.
Proof.
  intros Hs Hl. split.
  - eapply on_disk_ext; [|apply Hl]. intros n Hn. destruct (segment_is_log _ _ _ Hl Hn) as (c & _ & Hf & Hne). by apply Hs.
  - rewrite (ly_names _ _ Hl). apply NoDup_Permutation; [apply NoDup_segment_names..|]. intros n.
    rewrite !elem_of_segment_names. destruct (decide (n = name)) as [->|Hne].
    + split; intros (e & _ & Hr); by rewrite active_no_log in Hr.
    + split; intros (e & He & Hr); exists e; (split; [|done]); pose proof (Hs n (is_log_file _ _ Hr) Hne); congruence.
  - apply Hl.
  - intros n Hn. destruct (is_rotated_log name (n, Regular "")) eqn:Hr; [|done].
    assert (Hne : n ≠ name) by (intros ->; by rewrite active_no_log in Hr).
    rewrite (Hs n (is_log_file _ _ Hr) Hne) in Hn. by rewrite (ly_special _ _ Hl n Hn) in Hr.
Qed.

(** A time stamp after those of all segments; its name is free. *)
Definition after (ts : string) (segs : segments) : Prop :=
  is_rotation_timestamp ts = true ∧
  Forall (λ n, str_le (rotation_order n prefix).1 ts ∧ (rotation_order n prefix).1 ≠ ts) segs.*1.

Lemma rotated_log ts segs : after ts segs → log_file (rotated ts) ∧ rotated ts ≠ name.
Proof.
  intros [Hts _]. pose proof (rotated_is_log name ts None "" Hts I) as Hr. split; [by right|].
  intros Heq. by rewrite Heq, active_no_log in Hr.
Qed.

Lemma after_free m segs ts : layout m segs → after ts segs → m !! rotated ts = None.
Proof.
  intros Hl [Hts Hall]. pose proof (λ c, rotated_is_log name ts None c Hts I) as Hr.
  destruct (m !! rotated ts) as [[c|]|] eqn:Hm; [| |done].
  - assert (Hin : rotated ts ∈ segs.*1).
    { rewrite (ly_names _ _ Hl). apply elem_of_segment_names. eauto. }
    rewrite Forall_forall in Hall. apply Hall in Hin as [_ Hne]. by rewrite rotated_order in Hne.
  - apply (ly_special _ _ Hl) in Hm. by rewrite Hr in Hm.
Qed.

(** One more segment. *)
Lemma layout_rotated m m' segs ts rs c :
  layout m segs → after ts segs → rs ≠ [] → seg_text k id (prev_of segs) rs c →
  m' !! rotated ts = Some (Regular c) →
  (∀ n, log_file n → n ≠ name → n ≠ rotated ts → m' !! n = m !! n) →
  layout m' (segs ++ [(rotated ts, rs)]).
Proof.
  intros Hl Ha Hrs Hc Hm' Hs. pose proof (after_free _ _ _ Hl Ha) as Hfree. pose proof Ha as [Hts Hall].
  destruct (rotated_log _ _ Ha) as [Hlog Hne]. pose proof (λ c, rotated_is_log name ts None c Hts I) as Hr.
  assert (Hnew : rotated ts ∉ segs.*1).
  { intros Hin. destruct (segment_is_log _ _ _ Hl Hin) as (? & ? & _). congruence. }
  split.
  - apply on_disk_snoc; [|done|eauto]. eapply on_disk_ext; [|apply Hl]. intros n Hn.
    destruct (segment_is_log _ _ _ Hl Hn) as (? & _ & Hf & Hnn). apply Hs; [done..|]. by intros ->.
  - rewrite fmap_app. cbn [fmap list_fmap fst]. apply NoDup_Permutation; [|apply NoDup_segment_names|].
    + apply NoDup_app. split; [rewrite (ly_names _ _ Hl); apply NoDup_segment_names|].
      split; [|apply NoDup_singleton]. by intros x Hx ->%list_elem_of_singleton.
    + intros n. rewrite elem_of_app, list_elem_of_singleton, (ly_names _ _ Hl), !elem_of_segment_names.
      destruct (decide (n = rotated ts)) as [->|Hnr]; [naive_solver|]. destruct (decide (n = name)) as [->|Hnn].
      { split; [intros [(e & _ & Hx)|?]; [|done]|intros (e & _ & Hx)]; by rewrite active_no_log in Hx. }
      split; [intros [(e & He & Hx)|?]; [|done]|intros (e & He & Hx); left]; exists e; (split; [|done]);
        pose proof (Hs n (is_log_file _ _ Hx) Hnn Hnr); congruence.
  - rewrite fmap_app. cbn [fmap list_fmap fst]. apply StronglySorted_app_2; [|apply Hl|by repeat constructor].
    intros x y Hx ->%list_elem_of_singleton. rewrite Forall_forall in Hall. destruct (Hall x Hx) as [Hle Hlt].
    unfold rotation_lt, rotation_le, order_le. rewrite rotated_order by done. cbn [fst].
    rewrite bool_decide_eq_false_2 by done. split; [done|]. intros Heq. by rewrite Heq in Hlt.
  - intros n Hn. destruct (is_rotated_log name (n, Regular "")) eqn:Hx; [|done].
    assert (Hnn : n ≠ name) by (intros ->; by rewrite active_no_log in Hx).
    assert (Hnr : n ≠ rotated ts) by (intros ->; congruence).
    rewrite (Hs n (is_log_file _ _ Hx) Hnn Hnr) in Hn. by rewrite (ly_special _ _ Hl n Hn) in Hx.
Qed.

(** What a reader finds, once storage works again. *)
Lemma layout_reads m segs rs :
  layout m segs → m !! name = Some (Regular (rendered k id (prev_of segs) rs)) → Forall wf_record (all_of segs rs) →
  read_all dir name (mkWorld m []) = (Ok (all_of segs rs), mkWorld m []).
Proof.
  intros Hl Ha Hwf. unfold read_all.
  rewrite logm_bind_eq, (lift_Ok _ _ _ _ (rotated_logs_calm _ _ _ (ly_order _ _ Hl) (ly_names _ _ Hl))).
  exact (read_segments dir k id name m segs rs zero_hash (ly_segs _ _ Hl) Ha Hwf).
Qed.

Lemma layout_verifies m segs rs fresh :
  layout m segs → m !! name = Some (Regular (rendered k id (prev_of segs) rs)) → Forall wf_record (all_of segs rs) →
  all_of segs rs ≠ [] → log_verify_chain dir name k fresh (mkWorld m []) = (Ok id, mkWorld m []).
Proof.
  intros Hl Ha Hwf Hne. unfold log_verify_chain.
  rewrite logm_bind_eq, (lift_Ok _ _ _ _ (rotated_logs_calm _ _ _ (ly_order _ _ Hl) (ly_names _ _ Hl))).
  unfold verify_chain_paths.
  destruct (verify_segments dir k id name m segs rs zero_hash verify_init (ly_segs _ _ Hl) Ha Hwf eq_refl eq_refl
    (or_introl eq_refl)) as [n Hv].
  rewrite logm_bind_eq, Hv. by rewrite bool_decide_eq_false_2.
Qed.

(** ** The head of a file with an unfinished line *)

(** What a failed write left of the line. *)
Definition cut_line (prev : bytes) (rs : list DecisionRecord) (r : DecisionRecord) (n : nat) : bytes :=
  rendered k id prev rs +:+ String.substring 0 n (next_line k id prev rs r).

Lemma substring_app_short n u v :
  (n ≤ String.length u)%nat → String.substring 0 n (u +:+ v) = String.substring 0 n u.
Proof.
  revert n. induction u as [|c u IH]; intros [|n] Hn; simpl in *; [by destruct v|lia|done|]. by rewrite IH by lia.
Qed.

Lemma substring_no_newline n t : str_contains newline t = false → str_contains newline (String.substring 0 n t) = false.
Proof.
  revert n. induction t as [|c t IH]; intros [|n]; simpl; try done. intros [Hc Ht]%orb_false_iff. by rewrite Hc, IH.
Qed.

Lemma last_nonblank_tail prev rs t :
  str_contains newline t = false → has_content t = true → last_nonblank (rendered k id prev rs +:+ t) = t.
Proof.
  intros Hn Hc. assert (t ≠ "") by (by intros ->). unfold last_nonblank.
  rewrite read_lines_rendered_app, (read_lines_bare t), foldl_app by done. simpl. by rewrite Hc.
Qed.

Lemma next_json_object prev rs r : ∃ m, next_json k id prev rs r = json_to_vec (VObject m).
Proof. by eexists. Qed.

(** A line without its line feed loads like the whole line. *)
Lemma load_head_bare c prev rs r :
  load_head_from_file c (Ok (Some (rendered k id prev rs +:+ next_json k id prev rs r)))
  = load_head_from_file c (Ok (Some (rendered k id prev (rs ++ [r])))).
Proof.
  destruct (next_json_object prev rs r) as [m Hm]. destruct (json_begins m) as (b & t & Hb & Hw).
  assert (Hc : has_content (next_json k id prev rs r) = true) by (rewrite Hm, Hb; unfold has_content; simpl; by rewrite Hw).
  unfold load_head_from_file. rewrite last_nonblank_rendered, last_nonblank_tail by (done || apply json_one_line).
  rewrite next_line_json, (bool_decide_eq_false_2 (next_json _ _ _ _ _ = _)) by (by intros Heq; rewrite Heq in Hc).
  rewrite bool_decide_eq_false_2.
  2: { intros Heq%(f_equal String.length). rewrite string_length_app in Heq. simpl in Heq. lia. }
  unfold next_json. by rewrite json_trailing_newline.
Qed.

Lemma load_partial c prev rs r n :
  root c = k → String.length prev = 32%nat → cut_line prev rs r n ≠ "" →
  (∃ e, load_head_from_file c (Ok (Some (cut_line prev rs r n))) = Err e) ∨
  ∃ rs', load_head_from_file c (Ok (Some (cut_line prev rs r n))) = Ok (mkHashChain k (log_head k prev rs') (Some id)) ∧
    rs' ≠ [] ∧ seg_text k id prev rs' (cut_line prev rs r n) ∧ (rs' = rs ∨ rs' = rs ++ [r] ∧ n ≠ 0%nat).
Proof.
  intros Hc Hl Hne. unfold cut_line in *. rewrite next_line_json in *. set (j := next_json k id prev rs r) in *.
  destruct (next_json_object prev rs r) as [m Hm]. fold j in Hm. destruct (json_begins m) as (b & t & Hb & Hw).
  assert (Hnl : rs ++ [r] ≠ []) by (by destruct rs).
  destruct (decide (n = 0%nat)) as [->|Hn0]; [right; exists rs|].
  { replace (String.substring 0 0 _) with "" in * by (by destruct (j +:+ _)). rewrite string_app_nil_r in *.
    assert (rs ≠ []) by (by intros ->). split_and!; [by apply load_head_rendered|done|by left|by left]. }
  destruct (decide (n < String.length j)%nat) as [Hlt|Hge]; [left|right; exists (rs ++ [r])].
  - rewrite substring_app_short by lia. set (u := String.substring 0 n j).
    assert (Hu : has_content u = true).
    { unfold u. rewrite Hm, Hb. destruct n; [lia|]. unfold has_content. simpl. by rewrite Hw. }
    unfold load_head_from_file. rewrite last_nonblank_tail by (done || apply substring_no_newline, json_one_line).
    rewrite bool_decide_eq_false_2 by (by intros Heq; rewrite Heq in Hu).
    pose proof (json_cut m n) as Hcut. rewrite <-Hm in Hcut. specialize (Hcut Hlt). fold u in Hcut.
    destruct (json_from_slice u); [done|]. by eexists.
  - destruct (decide (n = String.length j)) as [->|Hn].
    + rewrite substring_prefix. unfold j. rewrite load_head_bare.
      split_and!; [by apply load_head_rendered|done|apply seg_text_cut|by right].
    + rewrite substring_short by (rewrite string_length_app; simpl; lia). unfold j.
      rewrite <-next_line_json, <-rendered_snoc.
      split_and!; [by apply load_head_rendered|done|by left|by right].
Qed.

(** A load that fails keeps the key and the id of the chain. *)
Lemma load_error_ours c file e c' :
  load_head_from_file c file = Err (e, c') → root c' = root c ∧ chain_id c' = chain_id c.
Proof.
  unfold load_head_from_file. destruct file as [[content|]|]; [|done|by intros [= _ <-]].
  case_bool_decide; [done|]. destruct (json_from_slice _) as [v|]; [|by intros [= _ <-]]. cbn.
  destruct (get v "record_hash" ≫= as_str) as [h|]; [|by intros [= _ <-]]. cbn.
  destruct (hex_decode h) as [b|]; [|by intros [= _ <-]]. cbn.
  destruct (negb _); cbn; [by intros [= _ <-]|].
  destruct (get v "chain_id" ≫= as_str) as [i|]; [|done]. destruct (uuid_parse i); cbn; [done|]. by intros [= _ <-].
Qed.

(** ** The calls of a rotation *)

Lemma first_name w ts fuel :
  files w !! rotated ts = None →
  ∃ w1, free_rotated_name (S fuel) name ts (rotated ts) 1 w = (Ok (rotated ts), w1) ∧ files w1 = files w.
Proof.
  intros Hm. cbn [free_rotated_name]. rewrite fs_bind_eq. unfold fs_exists. rewrite fs_bind_eq. unfold fs_try.
  destruct (fs_stat (rotated ts) w) as [r w1] eqn:Hs. apply syscall_inv in Hs as [(e & -> & Hf)|[= Hr Hf]].
  - by exists w1.
  - rewrite Hm in Hr. subst r. by exists w1.
Qed.

(** The file was not moved, or it was, and the new one is there when all went well. *)
Lemma reopen_inv l ts uuid w r w' segs c ch o :
  path l = name → mode l = Chained o ch → after ts segs → files w !! name = Some (Regular c) →
  reopen_rotated dir l (rotated ts) uuid w = (r, w') →
  (is_ok r = false ∧ same_logs (files w) (files w')) ∨
  (files w' !! rotated ts = Some (Regular c) ∧
   (∀ n, log_file n → n ≠ name → n ≠ rotated ts → files w' !! n = files w !! n) ∧
   ((is_ok r = true ∧ files w' !! name = Some (Regular "")) ∨
    (is_ok r = false ∧ (files w' !! name = None ∨ files w' !! name = Some (Regular ""))))).
Proof.
  intros Hp Hmode Ha Hm. destruct (rotated_log _ _ Ha) as [Hlog Hne]. unfold reopen_rotated. rewrite Hmode, Hp.
  rewrite logm_bind_eq. destruct (copy_chain_id_sidecar _ _ _ _ _ w) as [r1 w1] eqn:Hc.
  assert (Hk1 : same_logs (files w) (files w1)) by (intros n Hn; by eapply keeps_copy).
  destruct r1 as [[]|e]; [|intros [= <- <-]; by left].
  rewrite logm_bind_eq. unfold lift_with at 1. destruct (fs_rename name (rotated ts) w1) as [r2 w2] eqn:Hr.
  apply syscall_inv in Hr as [(e & -> & Hf)|Hf].
  { intros [= <- <-]. left. split; [done|]. by rewrite Hf. }
  rewrite (Hk1 name (or_introl eq_refl)), Hm in Hf. injection Hf as -> Hf2. cbn [map_err].
  unfold lift, lift_with. destruct (open_audit_file dir name w2) as [r3 w3] eqn:Ho. intros [= <- <-]. right.
  assert (Hname : files w2 !! name = None) by (rewrite Hf2, lookup_insert_ne, lookup_delete_eq by done; done).
  split_and!.
  - rewrite (keeps_open (rotated ts) Hne _ _ _ Ho), Hf2. apply lookup_insert_eq.
  - intros n Hn Hnn Hnr. rewrite (keeps_open n Hnn _ _ _ Ho), Hf2, lookup_insert_ne, lookup_delete_ne by done.
    by apply Hk1.
  - destruct (open_audit_inv _ _ _ Hname Ho) as [[Hr Hx]|[Hr Hx]]; [left|right]; (split; [by destruct r3|done]).
Qed.

(** ** The states of a log *)

Abbreviation log_of o c := (mkDecisionLog (Chained o c) name (Some rot)).
Definition ours (c : HashChain) : Prop := root c = k ∧ chain_id c = Some id.

(** [segs] and [rs] are the records on disk, [seen] all records that were ever given to the
    log.  A log is live; or closed, with part of a refused line at the end of its active file;
    or closed for good, with such a line at the end of its last segment. *)
Inductive log_state (seen : list DecisionRecord) : DecisionLog → gmap string entry → segments → list DecisionRecord → Prop :=
| Live m segs rs :
    layout m segs → m !! name = Some (Regular (rendered k id (prev_of segs) rs)) → all_of segs rs `sublist_of` seen →
    log_state seen (log_of true (mkHashChain k (log_head k zero_hash (all_of segs rs)) (Some id))) m segs rs
| Stuck c m segs rs r n :
    ours c → layout m segs → m !! name = Some (Regular (cut_line (prev_of segs) rs r n)) →
    all_of segs rs `sublist_of` seen → (n = 0%nat ∨ (all_of segs rs ++ [r]) `sublist_of` seen) →
    log_state seen (log_of false c) m segs rs
| Dead c m segs rs n t :
    ours c → on_disk k id m zero_hash segs → Forall log_file segs.*1 → n ∉ segs.*1 →
    log_file n → n ≠ name → m !! n = Some (Regular (rendered k id (prev_of segs) rs +:+ t)) →
    (m !! name = None ∨ m !! name = Some (Regular "")) → all_of segs rs `sublist_of` seen →
    log_state seen (log_of false c) m segs rs.

Lemma cut_none prev rs r : cut_line prev rs r 0 = rendered k id prev rs.
Proof. unfold cut_line. destruct (next_line k id prev rs r); by rewrite string_app_nil_r. Qed.

Lemma layout_logs m segs : layout m segs → Forall log_file segs.*1 ∧ name ∉ segs.*1.
Proof.
  intros Hl. split; [apply Forall_forall; intros n Hn|intros Hn];
    destruct (segment_is_log _ _ _ Hl Hn) as (c & _ & Hf & Hne); done.
Qed.

(** Nothing changes for the log while its files stay as they are. *)
Lemma state_same seen seen' l m m' segs rs :
  log_state seen l m segs rs → seen `sublist_of` seen' → same_logs m m' → log_state seen' l m' segs rs.
Proof.
  intros Hst Hsub Hs. pose proof (Hs name (or_introl eq_refl)) as Hn.
  destruct Hst as [m segs rs Hl Ha Hin|c m segs rs r n Hc Hl Ha Hin Hr|c m segs rs n t Hc Hd Hf Hnn Hlog Hne Ht Ha Hin].
  - apply Live; [by eapply layout_same|by rewrite Hn|by etrans].
  - eapply (Stuck _ c _ segs rs r n); [done|by eapply layout_same|by rewrite Hn|by etrans|].
    destruct Hr as [?|?]; [by left|right; by etrans].
  - eapply (Dead _ c _ segs rs n t); [done| |done|done|done|done|by rewrite Hs|by rewrite Hn|by etrans].
    eapply on_disk_ext; [|exact Hd]. intros x Hx. apply Hs. rewrite Forall_forall in Hf. by apply Hf.
Qed.

(** ** A rotation *)

(** After the move: the new file is live, or the log is closed for good. *)
Lemma rotated_state seen segs rs r n ts m m' o c :
  ours c → layout m segs → after ts segs → m !! name = Some (Regular (cut_line (prev_of segs) rs r n)) →
  cut_line (prev_of segs) rs r n ≠ "" → all_of segs rs `sublist_of` seen →
  (n = 0%nat ∨ (all_of segs rs ++ [r]) `sublist_of` seen) →
  m' !! rotated ts = Some (Regular (cut_line (prev_of segs) rs r n)) →
  (∀ x, log_file x → x ≠ name → x ≠ rotated ts → m' !! x = m !! x) →
  (m' !! name = None ∨ m' !! name = Some (Regular "")) →
  log_state seen (log_of false c) m' segs rs ∧
  ∀ c', m' !! name = Some (Regular "") →
    load_head_from_file c (Ok (Some (cut_line (prev_of segs) rs r n))) = Ok c' →
    ∃ rs', log_state seen (log_of true (match o with Some i => adopt_id c' i | None => c' end)) m'
             (segs ++ [(rotated ts, rs')]) [] ∧ all_of segs rs `prefix_of` all_of segs rs'.
Proof.
  intros Hc Hl Ha Hm Hne Hin Hr Hrot Hsame Hname. destruct (rotated_log _ _ Ha) as [Hlog Hnn].
  destruct (layout_logs _ _ Hl) as [Hfs _].
  assert (Hns : rotated ts ∉ segs.*1).
  { intros Hin'. destruct (segment_is_log _ _ _ Hl Hin') as (? & ? & _). by rewrite (after_free _ _ _ Hl Ha) in *. }
  split.
  - unfold cut_line in Hrot. eapply (Dead _ c _ segs rs (rotated ts)); [done| |done|done|done|done|exact Hrot|done|done].
    eapply on_disk_ext; [|apply Hl]. intros x Hx. destruct (segment_is_log _ _ _ Hl Hx) as (e & He & Hf & Hxn).
    apply Hsame; [done..|]. intros ->. rewrite (after_free _ _ _ Hl Ha) in He. done.
  - intros c' Hempty Hload. destruct (load_partial c (prev_of segs) rs r n) as [[e He]|(rs' & Hrs' & Hne' & Htext & Hcase)];
      [apply Hc|by apply log_head_length|done|by rewrite He in Hload|].
    rewrite Hrs' in Hload. injection Hload as <-. exists rs'.
    assert (Hadopt : match o with Some i => adopt_id (mkHashChain k (log_head k (prev_of segs) rs') (Some id)) i
      | None => mkHashChain k (log_head k (prev_of segs) rs') (Some id) end
      = mkHashChain k (log_head k zero_hash (all_of (segs ++ [(rotated ts, rs')]) [])) (Some id)).
    { unfold all_of. rewrite fmap_app, concat_app. cbn [fmap list_fmap snd concat]. rewrite !app_nil_r, log_head_app.
      by destruct o. }
    rewrite Hadopt.
    assert (Hall : all_of (segs ++ [(rotated ts, rs')]) [] = all_of segs rs').
    { unfold all_of. rewrite fmap_app, concat_app. cbn. by rewrite !app_nil_r. }
    split.
    + apply Live; [by eapply layout_rotated|done|]. rewrite Hall.
      destruct Hcase as [->|[-> Hn]]; [done|]. destruct Hr as [?|Hr]; [done|]. unfold all_of in *. by rewrite app_assoc.
    + destruct Hcase as [->|[-> Hn]]; [done|]. unfold all_of. rewrite app_assoc. by apply prefix_app_r.
Qed.

Lemma rotate_faulty seen segs rs r n ts uuid o c w res l' w' :
  ours c → layout (files w) segs → after ts segs →
  files w !! name = Some (Regular (cut_line (prev_of segs) rs r n)) →
  cut_line (prev_of segs) rs r n ≠ "" → all_of segs rs `sublist_of` seen →
  (n = 0%nat ∨ (all_of segs rs ++ [r]) `sublist_of` seen) →
  rotate_inner dir ts uuid (log_of o c) w = (res, (l', w')) →
  ∃ segs' rs', log_state seen l' (files w') segs' rs' ∧
    (segs'.*1 = segs.*1 ∨ segs'.*1 = segs.*1 ++ [rotated ts]) ∧ all_of segs rs `prefix_of` all_of segs' rs'.
Proof.
  intros Hc Hl Ha Hm Hne Hin Hr. unfold rotate_inner. cbn [path].
  destruct (first_name w ts (size (files w)) (after_free _ _ _ Hl Ha)) as (w1 & -> & Hf1).
  destruct (reopen_rotated dir (log_of o c) (rotated ts) uuid w1) as [r2 w2] eqn:Hre.
  rewrite <-Hf1 in Hm, Hl.
  destruct (reopen_inv (log_of o c) ts uuid w1 r2 w2 segs _ c o eq_refl eq_refl Ha Hm Hre) as [[Hno Hs]|(Hrot & Hsame & Hname)].
  { destruct r2; [done|]. intros [= <- <- <-]. exists segs, rs. split_and!; [|by left|done].
    eapply (state_same seen); [|done|exact Hs]. by eapply (Stuck _ c _ segs rs r n). }
  assert (Hname' : files w2 !! name = None ∨ files w2 !! name = Some (Regular "")) by (destruct Hname as [[_ ?]|[_ ?]]; auto).
  pose proof (λ o', rotated_state seen segs rs r n ts _ (files w2) o' c Hc Hl Ha Hm Hne Hin Hr Hrot Hsame Hname') as Hst.
  assert (Hdead : ∀ w', same_logs (files w2) (files w') → ∃ segs' rs', log_state seen (log_of false c) (files w') segs' rs' ∧
    (segs'.*1 = segs.*1 ∨ segs'.*1 = segs.*1 ++ [rotated ts]) ∧ all_of segs rs `prefix_of` all_of segs' rs').
  { intros w3 Hs3. exists segs, rs. split_and!; [|by left|done]. by eapply state_same; [apply (Hst None)|done|]. }
  assert (Hdead' : ∀ c1 w', ours c1 → same_logs (files w2) (files w') →
    ∃ segs' rs', log_state seen (log_of false c1) (files w') segs' rs' ∧
    (segs'.*1 = segs.*1 ∨ segs'.*1 = segs.*1 ++ [rotated ts]) ∧ all_of segs rs `prefix_of` all_of segs' rs').
  { intros c1 w3 Hc1 Hs3. destruct (Hdead w3 Hs3) as (segs' & rs' & Hd & Hrest). exists segs', rs'. split; [|done].
    inversion Hd; subst; [by eapply Stuck|by eapply Dead]. }
  destruct r2 as [[]|e]; [|intros [= <- <- <-]; by apply Hdead].
  destruct Hname as [[_ Hempty]|[? _]]; [|done]. cbn [mode].
  destruct (lift (file_for_head (rotated ts)) w2) as [r3 w3] eqn:Hh.
  assert (Hk3 : same_logs (files w2) (files w3)).
  { intros x _. eapply (log_keeps_lift x), Hh. unfold file_for_head. keeps_tac. }
  unfold lift, lift_with, file_for_head, fs_try in Hh. rewrite fs_bind_eq in Hh.
  destruct (fs_read (rotated ts) w2) as [rr w3'] eqn:Hrd. injection Hh as <- <-. cbn [map_err].
  match goal with |- context [load_head_from_file c ?f] => destruct (load_head_from_file c f) as [c'|[e c']] eqn:Hload end.
  2: { intros [= <- <- <-]. apply (Hdead' c'); [|done]. destruct (load_error_ours _ _ _ _ Hload), Hc. split; congruence. }
  apply syscall_inv in Hrd as [(e & -> & _)|[= -> _]]; [done|]. rewrite Hrot in Hload.
  destruct (lift (read_chain_id_sidecar _) w3') as [ro w4] eqn:Hs.
  assert (Hk4 : same_logs (files w3') (files w4)).
  { intros x _. eapply (log_keeps_lift x), Hs. unfold read_chain_id_sidecar. keeps_tac. }
  assert (Hk : same_logs (files w2) (files w4)) by (intros x Hx; by rewrite Hk4, Hk3).
  destruct ro as [o'|e]; intros [= <- <- <-]; [|by apply Hdead].
  destruct (Hst o') as [_ Hlive]. destruct (Hlive c' Hempty Hload) as (rs' & Hlog & Hpre).
  exists (segs ++ [(rotated ts, rs')]), []. split_and!; [by eapply state_same|right; by rewrite fmap_app|].
  unfold all_of in *. rewrite fmap_app, concat_app. cbn. by rewrite !app_nil_r.
Qed.

(** ** An append *)

Lemma state_mode seen l m segs rs : log_state seen l m segs rs → ∃ o c, l = log_of o c ∧ ours c.
Proof. by destruct 1; eexists _, _. Qed.

Lemma append_faulty seen l w segs rs rec fresh uuid o c res l' w' :
  log_state seen l (files w) segs rs → mode l = Chained o c →
  append_chained dir rec fresh uuid o c l w = (res, (l', w')) →
  log_state (seen ++ [rec]) l' (files w') segs (if is_ok res then rs ++ [rec] else rs).
Proof.
  intros Hst Hmode. destruct (state_mode _ _ _ _ _ Hst) as (o' & c' & -> & Hroot & Hcid). injection Hmode as -> ->.
  unfold append_chained, get_id. rewrite Hcid. cbn [set_chain mode path rotation].
  destruct (ensure_sidecar name id uuid w) as [rs1 w1] eqn:Hs.
  assert (Hk : same_logs (files w) (files w1)) by (intros n Hn; by eapply keeps_ensure).
  assert (Hseen : seen `sublist_of` seen ++ [rec]) by by apply sublist_inserts_r.
  apply (state_same _ (seen ++ [rec]) _ _ (files w1)) in Hst as Hst1; [|done..].
  destruct rs1 as [[]|e].
  2: { intros [= <- <- <-]. cbn [is_ok]. inversion Hst1 as [m' segs' rs' Hl Ha Hin| |]; subst; [|done..].
       apply (Stuck _ _ _ segs rs rec 0); [done|done|by rewrite cut_none|done|by left]. }
  destruct o; cbn [negb]; [|by intros [= <- <- <-]].
  inversion Hst as [m' segs' rs' Hl Ha Hin| |]; subst. apply (layout_same _ _ _ Hk) in Hl.
  rewrite <-(Hk name (or_introl eq_refl)) in Ha. unfold try_append_with_io. cbn [root head].
  destruct (write_line_durably name _ w1) as [rw w2] eqn:Hw. unfold all_of in Hw. rewrite log_head_app in Hw.
  fold (prev_of segs) in Hw.
  destruct (write_line_durably_inv _ _ _ _ _ _ Ha Hw) as (n & Hf & Hn).
  assert (Hl2 : layout (files w2) segs).
  { eapply layout_active; [|exact Hl]. intros x _ Hx. by eapply (keeps_write_line x). }
  assert (Hin' : all_of segs rs ++ [rec] `sublist_of` seen ++ [rec]) by by apply sublist_app.
  destruct rw as [[]|e]; intros [= <- <- <-]; cbn [is_ok].
  - rewrite Hn, substring_all in Hf. fold (next_line k id (prev_of segs) rs rec) in Hf. rewrite <-rendered_snoc in Hf.
    assert (Hhead : compute k (log_head k zero_hash (all_of segs rs)) (canonical_record rec)
      = log_head k zero_hash (all_of segs (rs ++ [rec]))) by (unfold all_of; by rewrite app_assoc, log_head_snoc).
    cbn [set_chain set_head mode path rotation root chain_id]. rewrite Hhead. apply Live; [done..|].
    unfold all_of in *. by rewrite app_assoc.
  - apply (Stuck _ _ _ segs rs rec n); [done|done|exact Hf|by etrans|by right].
Qed.

(** A log whose active file has something in it. *)
Lemma full_file seen l m segs rs :
  log_state seen l m segs rs → (∀ c, m !! name = Some (Regular c) → c ≠ "") → (∃ c, m !! name = Some (Regular c)) →
  ∃ r n, layout m segs ∧
    (m !! name = Some (Regular (cut_line (prev_of segs) rs r n)) ∧ cut_line (prev_of segs) rs r n ≠ "") ∧
    all_of segs rs `sublist_of` seen ∧ (n = 0%nat ∨ (all_of segs rs ++ [r]) `sublist_of` seen).
Proof.
  intros Hst Hne [c0 Hc0]. destruct Hst as [m segs rs Hl Ha Hin|c m segs rs r n Hc Hl Ha Hin Hr|c m segs rs n t ? ? ? ? ? ? ? Ha ?].
  - destruct rs as [|r rs]; [by apply Hne in Ha|]. exists r, 0%nat. rewrite cut_none. split_and!; auto.
  - exists r, n. split_and!; auto.
  - destruct Ha as [Ha|Ha]; [congruence|by apply Hne in Ha].
Qed.

Lemma log_append_faulty seen l w segs rs rec fresh ts uuid' uuid res l' w' :
  log_state seen l (files w) segs rs → after ts segs →
  log_append dir rec fresh ts uuid' uuid l w = (res, (l', w')) →
  ∃ segs' rs', log_state (seen ++ [rec]) l' (files w') segs' (if is_ok res then rs' ++ [rec] else rs') ∧
    (segs'.*1 = segs.*1 ∨ segs'.*1 = segs.*1 ++ [rotated ts]) ∧ all_of segs rs `prefix_of` all_of segs' rs'.
Proof.
  intros Hst Ha. unfold log_append.
  destruct (rotate_if_needed dir ts uuid' l w) as [r1 [l1 w1]] eqn:Hrot.
  assert (Hmid : ∃ segs' rs', log_state seen l1 (files w1) segs' rs' ∧
    (segs'.*1 = segs.*1 ∨ segs'.*1 = segs.*1 ++ [rotated ts]) ∧ all_of segs rs `prefix_of` all_of segs' rs').
  { destruct (state_mode _ _ _ _ _ Hst) as (o & c & -> & Hc). revert Hrot. unfold rotate_if_needed. cbn [rotation path].
    unfold fs_try. destruct (fs_len name w) as [rl w0] eqn:Hlen.
    assert (Hk : same_logs (files w) (files w0)) by (intros x _; by eapply keeps_len).
    assert (Hstay : ∃ segs' rs', log_state seen (log_of o c) (files w0) segs' rs' ∧
      (segs'.*1 = segs.*1 ∨ segs'.*1 = segs.*1 ++ [rotated ts]) ∧ all_of segs rs `prefix_of` all_of segs' rs').
    { exists segs, rs. split_and!; [by eapply state_same|by left|done]. }
    destruct (_ <? _) eqn:Hlt; [intros [= <- <- <-]; done|].
    apply syscall_inv in Hlen as [(e & -> & _)|[= -> Hf]]; [apply Z.ltb_ge in Hlt; lia|]. intros Hrot.
    destruct (full_file _ _ _ _ _ Hst) as (r & n & Hl & [Hm Hne] & Hin & Hr).
    { intros c0 Hc0. rewrite Hc0 in Hlt. apply Z.ltb_ge in Hlt. destruct c0; simpl in Hlt; [lia|done]. }
    { destruct (files w !! name) as [[]|]; [by eexists|..]; simpl in Hlt; apply Z.ltb_ge in Hlt; lia. }
    rewrite <-Hf in Hm, Hl. by eapply (rotate_faulty seen segs rs r n). }
  destruct Hmid as (segs' & rs' & Hst1 & Hn & Hp). destruct r1 as [[]|e].
  - destruct (state_mode _ _ _ _ _ Hst1) as (o & c & -> & Hc). cbn [mode]. intros Hap. exists segs', rs'.
    split_and!; [|done..]. by eapply append_faulty.
  - intros [= <- <- <-]. exists segs', rs'. split_and!; [|done..]. cbn [is_ok].
    eapply state_same; [done|by apply sublist_inserts_r|done].
Qed.

(** ** Runs *)

Lemma seg_holds_live l m segs rs : seg_holds k id name rot l m segs rs → log_state (all_of segs rs) l m segs rs.
Proof. intros [-> Ha Hd Hn Ho Hs Hsp _ _ _ _ _]. by apply Live. Qed.

(** The files hold the chain of [all]: each segment its part, and one more file the rest, with
    perhaps something after it. *)
Definition stored (m : gmap string entry) (all : list DecisionRecord) : Prop :=
  ∃ segs rs n t, on_disk k id m zero_hash segs ∧ (n ∉ segs.*1) ∧
    m !! n = Some (Regular (rendered k id (prev_of segs) rs +:+ t)) ∧ all = all_of segs rs.

Lemma state_stored seen l m segs rs : log_state seen l m segs rs → stored m (all_of segs rs).
Proof.
  intros [m' s' r' Hl Hm _|c m' s' r' r n _ Hl Hm _ _|c m' s' r' n t _ Hd _ Hnn _ Hnm Hm _ _].
  - exists s', r', name, "". rewrite string_app_nil_r. split_and!; [apply Hl|by apply layout_logs in Hl as []|done|done].
  - eexists s', r', name, _. split_and!; [apply Hl|by apply layout_logs in Hl as []|exact Hm|done].
  - by exists s', r', n, t.
Qed.

Lemma after_next ts ts' segs segs' :
  is_rotation_timestamp ts = true → str_le ts ts' → ts ≠ ts' →
  (segs'.*1 = segs.*1 ∨ segs'.*1 = segs.*1 ++ [rotated ts]) → after ts' segs → after ts' segs'.
Proof.
  intros Hts Hle Hne Hn [Hts' Hall]. split; [done|]. destruct Hn as [->| ->]; [done|].
  apply Forall_app. split; [done|]. apply Forall_singleton. by rewrite rotated_order.
Qed.

Lemma append_run_faulty reqs : ∀ seen l w segs rs out l' w',
  log_state seen l (files w) segs rs → Forall (λ a, after (aa_ts a) segs) reqs →
  StronglySorted (λ a b, str_le a b ∧ a ≠ b) (aa_ts <$> reqs) →
  append_run dir reqs l w = (out, (l', w')) →
  ∃ segs' rs' more, log_state (seen ++ (aa_rec <$> reqs)) l' (files w') segs' rs' ∧
    all_of segs' rs' = all_of segs rs ++ more ∧ accepted out `sublist_of` more.
Proof.
  induction reqs as [|a reqs IH]; intros seen l w segs rs out l' w' Hst Ha Hts.
  { intros [= <- <- <-]. exists segs, rs, []. rewrite !app_nil_r. by split_and!. }
  cbn [append_run]. destruct (log_append _ _ _ _ _ _ l w) as [r [l1 w1]] eqn:Hap.
  destruct (append_run dir reqs l1 w1) as [out1 [l2 w2]] eqn:Hrun. intros [= <- <- <-].
  apply Forall_cons in Ha as [Ha Has]. cbn [fmap list_fmap] in Hts. apply StronglySorted_cons in Hts as [Hlt Hts].
  destruct (log_append_faulty _ _ _ _ _ _ _ _ _ _ _ _ _ Hst Ha Hap) as (segs1 & rs1 & Hst1 & Hn & Hp).
  edestruct IH as (segs' & rs' & more & Hst' & Hmore & Hacc); [exact Hst1| |exact Hts|exact Hrun|].
  { rewrite Forall_fmap in Hlt. rewrite Forall_forall in Has, Hlt |- *. intros b Hb. destruct (Hlt b Hb) as [Hle Hne].
    eapply (after_next (aa_ts a)); [apply Ha|done..|by apply Has]. }
  destruct Hp as [x Hx]. cbn [fmap list_fmap] in *. rewrite <-app_assoc in Hst'.
  exists segs', rs', (x ++ (if is_ok r then [aa_rec a] else []) ++ more). split_and!; [exact Hst'| |].
  - rewrite Hmore. unfold all_of in *. destruct (is_ok r); rewrite ?(app_assoc _ rs1), Hx, <-?app_assoc; done.
  - apply sublist_inserts_l. unfold accepted. rewrite filter_cons. cbn [snd]. destruct (is_ok r) eqn:Hr.
    + rewrite decide_True by done. cbn. by apply sublist_skip.
    + rewrite decide_False by congruence. done.
Qed.

(** C38: no accepted record is lost, with rotation and under any storage failures, while the
    clock moves on.  Let a log that holds the records [old] be appended to, with time stamps that
    strictly increase from one append to the next and are after those of the segments, while any
    call to the file system may fail.  Then the chain on disk is that of [old] and some [more]:
    all records whose append returned [Ok], in order, and perhaps some whose append failed.
    While the log is healthy its files read back as exactly that, and verify. *)
Theorem rotation_loses_nothing l m faults_ segs rs reqs out l' w' fresh :
  let old := concat segs.*2 ++ rs in
  seg_holds k id name rot l m segs rs → Forall (λ a, after (aa_ts a) segs ∧ wf_record (aa_rec a)) reqs →
  StronglySorted (λ a b, str_le a b ∧ a ≠ b) (aa_ts <$> reqs) →
  append_run dir reqs l (mkWorld m faults_) = (out, (l', w')) →
  ∃ more, accepted out `sublist_of` more ∧ more `sublist_of` (aa_rec <$> reqs) ∧ stored (files w') (old ++ more) ∧
    (is_healthy l' = true → read_all dir name (mkWorld (files w') []) = (Ok (old ++ more), mkWorld (files w') []) ∧
       (old ++ more ≠ [] → log_verify_chain dir name k fresh (mkWorld (files w') []) = (Ok id, mkWorld (files w') []))).
Proof.
  intros old Hh Hreqs Hts Hrun. assert (Hst : log_state old l m segs rs).
  { by apply seg_holds_live. }
  destruct (append_run_faulty reqs old l (mkWorld m faults_) segs rs out l' w') as (segs' & rs' & more & Hst' & Hall & Hacc);
    [done|by eapply Forall_impl; [exact Hreqs|intros ? []]|done|done|].
  exists more. fold old in Hall |- *. change (all_of segs rs) with old in Hall.
  assert (Hmore : more `sublist_of` (aa_rec <$> reqs)).
  { assert (Hsub : all_of segs' rs' `sublist_of` old ++ (aa_rec <$> reqs)) by (by destruct Hst').
    rewrite Hall in Hsub. by eapply sublist_app_inv_l. }
  assert (Hwf : Forall wf_record (old ++ more)).
  { apply Forall_app. split; [apply Hh|]. apply Forall_forall. intros x Hx.
    eapply elem_of_sublist in Hx; [|exact Hmore]. apply list_elem_of_fmap in Hx as (a & -> & Ha).
    rewrite Forall_forall in Hreqs. by apply Hreqs. }
  split_and!; [done|done| |].
  - rewrite <-Hall. by eapply state_stored.
  - intros Hl'. destruct Hst' as [m' s' r' Hl Hm _| |]; [|done..]. rewrite <-Hall in *.
    split; [by apply layout_reads|]. by apply layout_verifies.
Qed.
End faults.

(** ** A concrete log *)

From S2P Require Import AuditExamples.
Import Crypto.Concrete Canonical.Concrete.

Definition rot100 : RotationConfig := mkRotationConfig 100.
Definition new_log : DecisionLog :=
  mkDecisionLog (Chained true (mkHashChain "key" zero_hash (Some log_id))) name (Some rot100).
(** The line of the first record is written, but syncing it fails, and so does removing it. *)
Definition sync_fails : list (option (string * nat)) :=
  [None; None; None; None; Some ("sync failed", 0%nat); Some ("read-only", 0%nat)].
Definition two_appends : list append_args :=
  [at_time "1" "20260101T000000000000Z"; at_time "2" "20260101T000001000000Z"].
Definition faulty_run := append_run "." two_appends new_log (mkWorld (new_files log_id name) sync_fails).

Lemma name_is_ok : log_name_ok name.
Proof. by split. Qed.
Lemma limit_is_ok : 1 ≤ max_bytes rot100.
Proof. done. Qed.

(** The witness of [rotation_loses_nothing]. *)
Example rotation_loses_nothing_witness :
  accepted faulty_run.1 = [rec_of "2"] ∧
  ∃ more, accepted faulty_run.1 `sublist_of` more ∧ more `sublist_of` [rec_of "1"; rec_of "2"] ∧
    stored "key" log_id (files faulty_run.2.2) more.
Proof.
  split; [by vm_compute|].
  destruct (rotation_loses_nothing "." "key" log_id name rot100 name_is_ok limit_is_ok new_log (new_files log_id name)
    sync_fails [] [] two_appends faulty_run.1 faulty_run.2.1 faulty_run.2.2 "other") as (more & Hacc & Hmore & Hst & _).
  - apply seg_holds_new, name_is_ok.
  - by repeat constructor.
  - by repeat constructor.
  - fold faulty_run. by destruct faulty_run as [? []].
  - exists more. split_and!; [exact Hacc|exact Hmore|exact Hst].
Defined.

(** A closed log is opened again by the rotation that the next append does, and the record
    whose append was refused is part of the chain from then on. *)
Theorem refused_record_is_kept :
  (λ x, is_ok x.2) <$> faulty_run.1 = [false; true] ∧ is_healthy faulty_run.2.1 = true ∧
  (read_all "." name faulty_run.2.2).1 = Ok [rec_of "1"; rec_of "2"] ∧
  (log_verify_chain "." name "key" "other" faulty_run.2.2).1 = Ok log_id.
Proof. split_and!; by vm_compute. Qed.

(** A segment can be lost: when the clock stands still, a failure of [exists] makes the name of
    a segment look free, and the rotation replaces it.  Every append succeeds. *)
Definition still_appends : list append_args := (λ i, at_time i "20260101T000000000000Z") <$> ["1"; "2"; "3"].
Definition exists_fails : list (option (string * nat)) := replicate 26 None ++ [Some ("interrupted", 0%nat)].
Definition lossy_run := append_run "." still_appends new_log (mkWorld (new_files log_id name) exists_fails).
Theorem segment_replaced :
  (λ x, is_ok x.2) <$> lossy_run.1 = [true; true; true] ∧
  (read_all "." name lossy_run.2.2).1 = Ok [rec_of "2"; rec_of "3"].
Proof. split; by vm_compute. Qed.
