(* ===== verification/Metrics.v ===== *)
(** * Metrics ([agentguard-telemetry/src/metrics.rs])

    Counters, histograms and the label-keyed maps of [Metrics] with their cardinality
    cap, and the Prometheus text of a snapshot.  Atomics and locks make each operation
    one step; hash maps are read in an order the caller of [render_prometheus] does not
    control, so the order is an argument. *)

From S2P Require Import Prelude Crypto Text.

(** ** Counters *)

(** [AtomicU64]: additions wrap. *)
Abbreviation Counter := Z (only parsing).
Definition counter_new : Counter := 0.
Definition counter_add (c n : Z) : Counter := u64_wrap (c + n).
Definition counter_inc (c : Counter) : Counter := counter_add c 1.

(** A gauge holds the bits of the [f64] it was set to last. *)
Record Gauge : Type := mkGauge { gauge_bits : Z }.
Definition gauge_new : Gauge := mkGauge 0.
Definition gauge_set (to_bits : Z) (g : Gauge) : Gauge := mkGauge to_bits.

(** ** Histograms *)

(** The [f64] operations in use.  A [Duration] is its number of nanoseconds. *)
Class F64 := {
  f64 : Type;
  f64_lit : string → f64;
  f64_is_finite : f64 → bool;
  f64_is_infinite : f64 → bool;
  f64_infinity : f64;
  f64_total_le : f64 → f64 → bool;
  f64_eqb : f64 → f64 → bool;
  f64_le : f64 → f64 → bool;
  f64_to_string : f64 → string;
  as_secs_f64 : Z → f64;
  micros_as_secs : Z → f64;
}.

(** What the IEEE order has: [total_cmp] is a total order that agrees with [<=] on finite
    numbers, and [<=] is transitive. *)
Class F64Laws `{F64} : Prop := {
  f64_total a b : f64_total_le a b = true ∨ f64_total_le b a = true;
  f64_total_trans a b c :
    f64_total_le a b = true → f64_total_le b c = true → f64_total_le a c = true;
  f64_total_is_le a b :
    f64_is_finite a = true → f64_is_finite b = true → f64_total_le a b = true → f64_le a b = true;
  f64_le_trans a b c : f64_le a b = true → f64_le b c = true → f64_le a c = true;
}.

(** [Duration::as_micros() as u64] *)
Definition as_micros (nanos : Z) : Z := u64_wrap (nanos / 1000).

Section metrics.
Context `{F64}.

Record Histogram : Type := mkHistogram {
  h_name : string;
  h_buckets : list f64;
  h_counts : list Counter;
  h_sum_micros : Z;
  h_count : Counter;
}.

Definition total_le (a b : f64) : Prop := f64_total_le a b = true.
#[export] Instance total_le_dec a b : Decision (total_le a b).
Proof. unfold total_le. apply _. Defined.

(** [dedup_by(|left, right| *left == *right)] *)
Fixpoint dedup (prev : option f64) (l : list f64) : list f64 :=
  match l with
  | [] => []
  | b :: l =>
      match prev with
      | Some p => if f64_eqb b p then dedup prev l else b :: dedup (Some b) l
      | None => b :: dedup (Some b) l
      end
  end.

Definition histogram_new (name : string) (buckets : list f64) : Histogram :=
  let sorted := merge_sort total_le (filter (λ b, f64_is_finite b = true) buckets) in
  let sorted := dedup None sorted in
  mkHistogram name sorted (replicate (S (length sorted)) counter_new) 0 counter_new.

(** There is one count more than buckets: the last one is the [+Inf] bucket. *)
Fixpoint observe_counts (secs : f64) (buckets : list f64) (counts : list Counter) : list Counter :=
  match buckets, counts with
  | b :: buckets, c :: counts =>
      (if f64_le secs b then counter_inc c else c) :: observe_counts secs buckets counts
  | [], c :: counts => counter_inc c :: counts
  | _, [] => []
  end.

Definition observe (h : Histogram) (d : Z) : Histogram :=
  mkHistogram (h_name h) (h_buckets h)
    (observe_counts (as_secs_f64 d) (h_buckets h) (h_counts h))
    (counter_add (h_sum_micros h) (as_micros d)) (counter_inc (h_count h)).

Definition sum_seconds (h : Histogram) : f64 := micros_as_secs (h_sum_micros h).

Definition bucket_counts (h : Histogram) : list (f64 * Counter) :=
  zip (h_buckets h) (h_counts h) ++ [(f64_infinity, default 0 (last (h_counts h)))].

(** ** The registry *)

Definition DEFAULT_LABEL_CARDINALITY_CAP : Z := 4096.

Record Metrics : Type := mkMetrics {
  decision_total : gmap string Counter;
  decision_duration : gmap string Histogram;
  delegation_mint_total : Counter;
  delegation_verify_total : gmap string Counter;
  cache_hit_total : Counter;
  cache_miss_total : Counter;
  policy_reload_total : Counter;
  pdp_error_total : gmap string Counter;
  cardinality_cap : Z;
  warn_decision_cap : bool;
  warn_duration_cap : bool;
  warn_pdp_error_cap : bool;
}.

Definition metrics_with_cap (cap : Z) : Metrics :=
  mkMetrics ∅ ∅ 0 ∅ 0 0 0 ∅ cap false false false.
Definition metrics_new : Metrics := metrics_with_cap DEFAULT_LABEL_CARDINALITY_CAP.

Definition unit_separator : ascii := ascii_of_nat 31.
Definition label_key (parts : list string) : string := join (String unit_separator "") parts.

(** The three branches of a capped map of counters: present, room for one more, full
    ([None]). *)
Definition bump {A} (cap : Z) (upd : A → A) (fresh : A) (k : string) (m : gmap string A) :
    option (gmap string A) :=
  match m !! k with
  | Some c => Some (<[k := upd c]> m)
  | None => if Z.of_nat (size m) <? cap then Some (<[k := upd fresh]> m) else None
  end.

Definition duration_histogram : Histogram :=
  histogram_new "agentguard.decision.duration_seconds"
    (f64_lit <$> ["0.001"; "0.01"; "0.1"; "1.0"; "10.0"]).

Definition record_decision (m : Metrics) (effect policy_id action tenant_id : string) (d : Z) :
    Metrics :=
  let key := label_key [effect; policy_id; action; tenant_id] in
  match bump (cardinality_cap m) counter_inc counter_new key (decision_total m) with
  | None =>
      mkMetrics (decision_total m) (decision_duration m) (delegation_mint_total m)
        (delegation_verify_total m) (cache_hit_total m) (cache_miss_total m) (policy_reload_total m)
        (pdp_error_total m) (cardinality_cap m) true (warn_duration_cap m) (warn_pdp_error_cap m)
  | Some totals =>
      let dur_key := label_key [action; tenant_id] in
      let '(durations, warn) :=
        match bump (cardinality_cap m) (λ h, observe h d) duration_histogram dur_key
                (decision_duration m) with
        | Some durations => (durations, warn_duration_cap m)
        | None => (decision_duration m, true)
        end in
      mkMetrics totals durations (delegation_mint_total m)
        (delegation_verify_total m) (cache_hit_total m) (cache_miss_total m) (policy_reload_total m)
        (pdp_error_total m) (cardinality_cap m) (warn_decision_cap m) warn (warn_pdp_error_cap m)
  end.

Definition record_delegation_mint (m : Metrics) : Metrics :=
  mkMetrics (decision_total m) (decision_duration m) (counter_inc (delegation_mint_total m))
    (delegation_verify_total m) (cache_hit_total m) (cache_miss_total m) (policy_reload_total m)
    (pdp_error_total m) (cardinality_cap m) (warn_decision_cap m) (warn_duration_cap m)
    (warn_pdp_error_cap m).

Definition record_delegation_verify (m : Metrics) (success : bool) : Metrics :=
  let key := if success then "success" else "failure" in
  let verify := delegation_verify_total m in
  mkMetrics (decision_total m) (decision_duration m) (delegation_mint_total m)
    (<[key := counter_inc (default counter_new (verify !! key))]> verify)
    (cache_hit_total m) (cache_miss_total m) (policy_reload_total m)
    (pdp_error_total m) (cardinality_cap m) (warn_decision_cap m) (warn_duration_cap m)
    (warn_pdp_error_cap m).

Definition record_cache_hit (m : Metrics) : Metrics :=
  mkMetrics (decision_total m) (decision_duration m) (delegation_mint_total m)
    (delegation_verify_total m) (counter_inc (cache_hit_total m)) (cache_miss_total m)
    (policy_reload_total m) (pdp_error_total m) (cardinality_cap m) (warn_decision_cap m)
    (warn_duration_cap m) (warn_pdp_error_cap m).

Definition record_cache_miss (m : Metrics) : Metrics :=
  mkMetrics (decision_total m) (decision_duration m) (delegation_mint_total m)
    (delegation_verify_total m) (cache_hit_total m) (counter_inc (cache_miss_total m))
    (policy_reload_total m) (pdp_error_total m) (cardinality_cap m) (warn_decision_cap m)
    (warn_duration_cap m) (warn_pdp_error_cap m).

Definition record_policy_reload (m : Metrics) : Metrics :=
  mkMetrics (decision_total m) (decision_duration m) (delegation_mint_total m)
    (delegation_verify_total m) (cache_hit_total m) (cache_miss_total m)
    (counter_inc (policy_reload_total m)) (pdp_error_total m) (cardinality_cap m)
    (warn_decision_cap m) (warn_duration_cap m) (warn_pdp_error_cap m).

Definition record_pdp_error (m : Metrics) (fallback : string) : Metrics :=
  let '(errors, warn) :=
    match bump (cardinality_cap m) counter_inc counter_new fallback (pdp_error_total m) with
    | Some errors => (errors, warn_pdp_error_cap m)
    | None => (pdp_error_total m, true)
    end in
  mkMetrics (decision_total m) (decision_duration m) (delegation_mint_total m)
    (delegation_verify_total m) (cache_hit_total m) (cache_miss_total m) (policy_reload_total m)
    errors (cardinality_cap m) (warn_decision_cap m) (warn_duration_cap m) warn.

(** ** The Prometheus text *)

Definition escape_label (s : string) : string :=
  replace_char carriage_return "\r"
    (replace_char newline "\n"
      (replace_char quote_char (String backslash double_quote)
        (replace_char backslash "\\" s))).

Definition show (z : Z) : string := pretty z.
(** [name="value"] *)
Definition label (name value : string) : string := name +:+ "=" +:+ quoted (escape_label value).
Definition part (parts : list string) (i : nat) : string := default "" (parts !! i).

Definition render_total (kc : string * Counter) : string :=
  let parts := split unit_separator kc.1 in
  ln ("agentguard_decision_total{" +:+ label "effect" (part parts 0) +:+ ","
      +:+ label "policy_id" (part parts 1) +:+ "," +:+ label "action" (part parts 2) +:+ ","
      +:+ label "tenant_id" (part parts 3) +:+ "} " +:+ show kc.2).

Definition render_duration (kh : string * Histogram) : string :=
  let parts := split unit_separator kh.1 in
  let labels := label "action" (part parts 0) +:+ "," +:+ label "tenant_id" (part parts 1) in
  let metric := "agentguard_decision_duration_seconds" in
  join "" ((λ bc, ln (metric +:+ "_bucket{" +:+ labels +:+ ",le="
                    +:+ quoted (if f64_is_infinite bc.1 then "+Inf" else f64_to_string bc.1)
                    +:+ "} " +:+ show bc.2)) <$> bucket_counts kh.2)
  +:+ ln (metric +:+ "_count{" +:+ labels +:+ "} " +:+ show (h_count kh.2))
  +:+ ln (metric +:+ "_sum{" +:+ labels +:+ "} " +:+ f64_to_string (sum_seconds kh.2)).

Definition render_verify (kc : string * Counter) : string :=
  ln ("agentguard_delegation_verify_total{" +:+ label "outcome" kc.1 +:+ "} " +:+ show kc.2).
Definition render_error (kc : string * Counter) : string :=
  ln ("agentguard_pdp_error_total{" +:+ label "fallback" kc.1 +:+ "} " +:+ show kc.2).

(** The iteration orders of the four hash maps. *)
Record iteration (m : Metrics) : Type := mkIteration {
  it_totals : list (string * Counter);
  it_durations : list (string * Histogram);
  it_verify : list (string * Counter);
  it_errors : list (string * Counter);
  it_totals_ok : it_totals ≡ₚ map_to_list (decision_total m);
  it_durations_ok : it_durations ≡ₚ map_to_list (decision_duration m);
  it_verify_ok : it_verify ≡ₚ map_to_list (delegation_verify_total m);
  it_errors_ok : it_errors ≡ₚ map_to_list (pdp_error_total m);
}.

Definition render_prometheus (m : Metrics) (it : iteration m) : string :=
  join ""
    ([ln "# HELP agentguard_decision_total Total authorization decisions";
      ln "# TYPE agentguard_decision_total counter"]
     ++ (render_total <$> it_totals m it)
     ++ [ln "# HELP agentguard_decision_duration_seconds Decision evaluation time";
         ln "# TYPE agentguard_decision_duration_seconds histogram"]
     ++ (render_duration <$> it_durations m it)
     ++ [ln "# HELP agentguard_delegation_mint_total Total delegation tokens minted";
         ln "# TYPE agentguard_delegation_mint_total counter";
         ln ("agentguard_delegation_mint_total " +:+ show (delegation_mint_total m));
         ln "# HELP agentguard_delegation_verify_total Total delegation verifications";
         ln "# TYPE agentguard_delegation_verify_total counter"]
     ++ (render_verify <$> it_verify m it)
     ++ [ln "# HELP agentguard_cache_hit_total Decision cache hits";
         ln "# TYPE agentguard_cache_hit_total counter";
         ln ("agentguard_cache_hit_total " +:+ show (cache_hit_total m));
         ln "# TYPE agentguard_cache_miss_total counter";
         ln ("agentguard_cache_miss_total " +:+ show (cache_miss_total m));
         ln "# TYPE agentguard_policy_reload_total counter";
         ln ("agentguard_policy_reload_total " +:+ show (policy_reload_total m));
         ln "# TYPE agentguard_pdp_error_total counter"]
     ++ (render_error <$> it_errors m it)).

Record MetricsSnapshot : Type := mkMetricsSnapshot {
  s_decision_total : gmap string Z;
  s_decision_duration : gmap string (Z * f64);
  s_delegation_mint_total : Z;
  s_delegation_verify_total : gmap string Z;
  s_cache_hit_total : Z;
  s_cache_miss_total : Z;
  s_policy_reload_total : Z;
  s_pdp_error_total : gmap string Z;
}.

Definition metrics_snapshot (m : Metrics) : MetricsSnapshot :=
  mkMetricsSnapshot (decision_total m) ((λ h, (h_count h, sum_seconds h)) <$> decision_duration m)
    (delegation_mint_total m) (delegation_verify_total m) (cache_hit_total m) (cache_miss_total m)
    (policy_reload_total m) (pdp_error_total m).
End metrics.

(** ** Label values *)

(** The escape sequences of [escape_label], in one pass. *)
Definition escape_char (c : ascii) : string :=
  if bool_decide (c = backslash) then "\\"
  else if bool_decide (c = quote_char) then String backslash double_quote
  else if bool_decide (c = newline) then "\n"
  else if bool_decide (c = carriage_return) then "\r"
  else String c "".

Lemma escape_label_once s : escape_label s = replace_all escape_char s.
Proof.
  unfold escape_label. rewrite (replace_char_one backslash), !replace_char_all.
  apply replace_all_ext. intros c. unfold escape_char.
  by repeat (case_bool_decide; subst; cbn; try done; try case_bool_decide; try congruence).
Qed.

(** A reader of the text format: the label value up to the closing quote. *)
Fixpoint read_label (s : string) : option (string * string) :=
  match s with
  | EmptyString => None
  | String c s' =>
      if bool_decide (c = quote_char) then Some ("", s')
      else if bool_decide (c = backslash) then
        match s' with
        | String "n" s => prod_map (String newline) id <$> read_label s
        | String "r" s => prod_map (String carriage_return) id <$> read_label s
        | String d s => prod_map (String d) id <$> read_label s
        | EmptyString => None
        end
      else prod_map (String c) id <$> read_label s'
  end.

Lemma read_escaped s rest : read_label (escape_label s +:+ String quote_char rest) = Some (s, rest).
Proof.
  rewrite escape_label_once. induction s as [|c s IH]; [done|].
  cbn [replace_all]. rewrite <-string_app_assoc. unfold escape_char at 1.
  destruct (decide (c = backslash)) as [->|]; [simpl; by rewrite IH|].
  destruct (decide (c = quote_char)) as [->|]; [simpl; by rewrite IH|].
  destruct (decide (c = newline)) as [->|]; [simpl; by rewrite IH|].
  destruct (decide (c = carriage_return)) as [->|]; [simpl; by rewrite IH|].
  rewrite !bool_decide_eq_false_2 by done. simpl.
  rewrite !bool_decide_eq_false_2 by done. by rewrite IH.
Qed.

(** A label value in the Prometheus text reads back as the value that was recorded,
    whatever characters it has, and stays on its line: no caller-supplied action, tenant
    or policy id can end the label, add another sample, or pass for a different value. *)
Theorem label_roundtrip name value rest :
  label name value +:+ rest = name +:+ "=" +:+ double_quote +:+ escape_label value +:+ double_quote +:+ rest ∧
  read_label (escape_label value +:+ double_quote +:+ rest) = Some (value, rest) ∧
  str_contains newline (escape_label value) = false ∧
  str_contains carriage_return (escape_label value) = false.
Proof.
  split_and!.
  - unfold label, quoted. by rewrite <-!string_app_assoc.
  - apply read_escaped.
  - rewrite escape_label_once. apply replace_all_contains. intros c. unfold escape_char.
    repeat case_bool_decide; try done. cbn. by rewrite bool_decide_eq_false_2 by congruence.
  - rewrite escape_label_once. apply replace_all_contains. intros c. unfold escape_char.
    repeat case_bool_decide; try done. cbn. by rewrite bool_decide_eq_false_2 by congruence.
Qed.

(** ** Histograms count what they observe *)

Section histogram.
Context `{F64Laws}.

Definition below (b : f64) (d : Z) : bool := f64_le (as_secs_f64 d) b.
Definition count_if {A} (p : A → bool) (l : list A) : Z := Z.of_nat (length (List.filter p l)).

Lemma count_if_snoc {A} (p : A → bool) l x :
  count_if p (l ++ [x]) = count_if p l + (if p x then 1 else 0).
Proof. unfold count_if. rewrite List.filter_app, length_app. simpl. destruct (p x); simpl; lia. Qed.

Lemma foldr_add_acc a l : foldr Z.add a l = foldr Z.add 0 l + a.
Proof. induction l as [|x l IH]; simpl; lia. Qed.

Lemma u64_wrap_add a b : u64_wrap (u64_wrap a + b) = u64_wrap (a + b).
Proof. unfold u64_wrap. by rewrite Zplus_mod_idemp_l. Qed.

Lemma u64_wrap_idem a : u64_wrap (u64_wrap a) = u64_wrap a.
Proof. pose proof (u64_wrap_add a 0) as Hw. by rewrite !Z.add_0_r in Hw. Qed.

Lemma counter_inc_wrap a : counter_inc (u64_wrap a) = u64_wrap (a + 1).
Proof. apply u64_wrap_add. Qed.

(** Every bucket holds the number of observations up to its boundary. *)
Definition counts_of (bs : list f64) (ds : list Z) : list Z :=
  ((λ b, u64_wrap (count_if (below b) ds)) <$> bs) ++ [u64_wrap (Z.of_nat (length ds))].

Lemma observe_counts_spec bs ds d :
  observe_counts (as_secs_f64 d) bs (counts_of bs ds) = counts_of bs (ds ++ [d]).
Proof.
  unfold counts_of. induction bs as [|b bs IH]; cbn.
  - rewrite counter_inc_wrap, length_app. simpl. do 2 f_equal. lia.
  - rewrite IH, count_if_snoc. fold (below b d).
    destruct (below b d); [by rewrite counter_inc_wrap|by rewrite Z.add_0_r].
Qed.

Definition histogram_run (h : Histogram) (ds : list Z) : Histogram := fold_left observe ds h.

Lemma histogram_run_snoc h ds d : histogram_run h (ds ++ [d]) = observe (histogram_run h ds) d.
Proof. unfold histogram_run. by rewrite fold_left_app. Qed.

Lemma histogram_run_spec name bs ds :
  let h := histogram_run (histogram_new name bs) ds in
  h_name h = name ∧ h_buckets h = h_buckets (histogram_new name bs) ∧
  h_counts h = counts_of (h_buckets h) ds ∧
  h_count h = u64_wrap (Z.of_nat (length ds)) ∧
  h_sum_micros h = u64_wrap (foldr Z.add 0 (as_micros <$> ds)).
Proof.
  induction ds as [|d ds IH] using rev_ind; cbn zeta in *.
  - unfold histogram_run. split_and!; try done. unfold counts_of.
    cbn [fold_left histogram_new h_buckets h_counts]. rewrite replicate_S_end. f_equal.
    induction (dedup _ _) as [|b l IH]; [done|]. cbn. by rewrite IH.
  - rewrite histogram_run_snoc. destruct IH as (Hn & Hb & Hc & Hk & Hs). cbn.
    split_and!; try done.
    + by rewrite Hc, observe_counts_spec.
    + rewrite Hk, counter_inc_wrap, length_app. simpl. f_equal. lia.
    + rewrite Hs. unfold counter_add. rewrite u64_wrap_add, fmap_app, foldr_app.
      rewrite (foldr_add_acc (foldr _ _ (as_micros <$> [d]))). cbn. f_equal. lia.
Qed.

Lemma dedup_elem p l x : x ∈ dedup p l → x ∈ l.
Proof.
  revert p. induction l as [|b l IH]; intros p; [done|]. cbn.
  destruct p as [p|]; [destruct (f64_eqb b p)|]; rewrite ?elem_of_cons; naive_solver.
Qed.

Lemma dedup_sorted p l : StronglySorted total_le l → StronglySorted total_le (dedup p l).
Proof.
  intros Hl. revert p. induction Hl as [|b l Hl IH Hb]; intros p; [constructor|].
  assert (Hc : ∀ q, StronglySorted total_le (b :: dedup q l)).
  { intros q. constructor; [done|]. apply Forall_forall. intros x Hx%dedup_elem.
    by eapply Forall_forall in Hb. }
  cbn. destruct p as [p|]; [destruct (f64_eqb b p)|]; auto.
Qed.

#[local] Instance total_le_total : Total total_le.
Proof. intros a b. apply f64_total. Qed.
#[local] Instance total_le_trans : Transitive total_le.
Proof. intros a b c. apply f64_total_trans. Qed.

Lemma buckets_sorted name bs :
  StronglySorted total_le (h_buckets (histogram_new name bs)) ∧
  Forall (λ b, f64_is_finite b = true) (h_buckets (histogram_new name bs)).
Proof.
  cbn. split.
  - apply dedup_sorted, StronglySorted_merge_sort; apply _.
  - apply Forall_forall. intros x Hx%dedup_elem. rewrite merge_sort_Permutation in Hx.
    by apply list_elem_of_filter in Hx as [? _].
Qed.

Lemma count_if_le {A} (p q : A → bool) l :
  (∀ x, p x = true → q x = true) → count_if p l ≤ count_if q l.
Proof.
  intros Hpq. unfold count_if. apply inj_le. induction l as [|x l IH]; [done|]. simpl.
  destruct (p x) eqn:Hp; [rewrite (Hpq _ Hp); simpl; lia|]. destruct (q x); simpl; lia.
Qed.

Lemma sorted_lookup {A} (R : relation A) l i j x y :
  StronglySorted R l → l !! i = Some x → l !! j = Some y → (i < j)%nat → R x y.
Proof.
  intros Hl. revert i j. induction Hl as [|z l Hl IH Hz]; intros i j; [done|].
  destruct j as [|j]; [lia|]. destruct i as [|i]; simpl; intros Hi Hj Hij.
  - injection Hi as ->. by eapply Forall_lookup_1 in Hz.
  - eapply IH; [done|done|lia].
Qed.

(** A histogram is what Prometheus expects: after any observations, the bucket of each
    boundary counts exactly the observations up to it, the boundaries ascend, the counts
    are cumulative, and the [+Inf] bucket equals the total count (all modulo [2^64], which
    fewer than [2^64] observations do not reach). *)
Theorem histogram_cumulative name bs ds i j bi bj ci cj :
  Z.of_nat (length ds) < 2 ^ 64 →
  let h := histogram_run (histogram_new name bs) ds in
  bucket_counts h !! i = Some (bi, ci) → bucket_counts h !! j = Some (bj, cj) → (i < j)%nat →
  ci = count_if (below bi) ds ∧ ci ≤ cj ∧
  ((j < length (h_buckets h))%nat → f64_le bi bj = true ∧ cj = count_if (below bj) ds) ∧
  (j = length (h_buckets h) → bj = f64_infinity ∧ cj = h_count h).
Proof.
  intros Hlen h. destruct (histogram_run_spec name bs ds) as (_ & Hb & Hc & Hk & _).
  destruct (buckets_sorted name bs) as [Hsort Hfin]. rewrite <-Hb in Hsort, Hfin.
  fold h in Hb, Hc, Hk, Hsort, Hfin.
  assert (Hsmall : ∀ p : Z → bool, 0 ≤ count_if p ds < 2 ^ 64).
  { intros p. unfold count_if. pose proof (List.filter_length_le p ds). lia. }
  assert (Hlast : last (h_counts h) = Some (Z.of_nat (length ds))).
  { rewrite Hc. unfold counts_of. rewrite last_snoc. unfold u64_wrap. by rewrite Z.mod_small by lia. }
  assert (Hzip : zip (h_buckets h) (h_counts h) = (λ b, (b, count_if (below b) ds)) <$> h_buckets h).
  { rewrite Hc. unfold counts_of. clear -Hsmall. induction (h_buckets h) as [|b l IH]; [done|].
    cbn. rewrite IH. unfold u64_wrap. by rewrite Z.mod_small by auto. }
  unfold bucket_counts. rewrite Hzip, Hlast. cbn [default].
  assert (Hn : length ((λ b, (b, count_if (below b) ds)) <$> h_buckets h) = length (h_buckets h))
    by apply length_fmap.
  intros Hi Hj Hij.
  assert (Hjn : (j ≤ length (h_buckets h))%nat).
  { apply lookup_lt_Some in Hj. rewrite length_app, Hn in Hj. simpl in Hj. lia. }
  rewrite lookup_app_l in Hi by (rewrite Hn; lia).
  apply list_lookup_fmap_Some in Hi as (b & [= -> ->] & Hi). split; [done|].
  destruct (decide (j < length (h_buckets h))%nat) as [Hlt|Hge].
  - rewrite lookup_app_l in Hj by lia. apply list_lookup_fmap_Some in Hj as (b' & [= -> ->] & Hj).
    assert (Hle : f64_le b b' = true).
    { apply f64_total_is_le.
      - by eapply Forall_lookup_1 in Hfin.
      - by eapply Forall_lookup_1 in Hfin.
      - by eapply (sorted_lookup total_le). }
    split; [|by split; [intros _|lia]]. apply count_if_le. intros x Hx.
    by eapply f64_le_trans.
  - replace j with (length (h_buckets h)) in * by lia.
    rewrite lookup_app_r, Hn, Nat.sub_diag in Hj by lia. injection Hj as <- <-.
    split; [|split; [lia|]].
    + unfold count_if. pose proof (List.filter_length_le (below b) ds). lia.
    + intros _. split; [done|]. rewrite Hk. unfold u64_wrap. by rewrite Z.mod_small by lia.
Qed.
End histogram.

(** ** The registry counts what is recorded, in bounded memory *)

Section registry.
Context `{F64}.

Inductive metric_op : Type :=
| MDecision (effect policy_id action tenant_id : string) (d : Z)
| MPdpError (fallback : string)
| MMint | MVerify (success : bool) | MHit | MMiss | MReload.

Definition metric_apply (m : Metrics) (op : metric_op) : Metrics :=
  match op with
  | MDecision e p a t d => record_decision m e p a t d
  | MPdpError f => record_pdp_error m f
  | MMint => record_delegation_mint m
  | MVerify b => record_delegation_verify m b
  | MHit => record_cache_hit m
  | MMiss => record_cache_miss m
  | MReload => record_policy_reload m
  end.

Definition decision_key (op : metric_op) : option string :=
  match op with MDecision e p a t _ => Some (label_key [e; p; a; t]) | _ => None end.
Definition error_key (op : metric_op) : option string :=
  match op with MPdpError f => Some f | _ => None end.
Definition recorded (key : metric_op → option string) (k : string) (ops : list metric_op) : Z :=
  count_if (λ op, bool_decide (key op = Some k)) ops.

(** A capped map of counters after some operations. *)
Record capped (cap : Z) (key : metric_op → option string) (ops : list metric_op)
    (m : gmap string Counter) : Prop := {
  cp_size : Z.of_nat (size m) ≤ Z.max 0 cap;
  cp_some k n : m !! k = Some n → n = u64_wrap (recorded key k ops);
  cp_none k : m !! k = None → recorded key k ops = 0 ∨ cap ≤ Z.of_nat (size m);
}.

Lemma recorded_snoc key k ops op :
  recorded key k (ops ++ [op])
  = recorded key k ops + (if bool_decide (key op = Some k) then 1 else 0).
Proof. unfold recorded. by rewrite count_if_snoc. Qed.

Lemma capped_skip cap key ops m op : key op = None → capped cap key ops m → capped cap key (ops ++ [op]) m.
Proof.
  intros Hop [Hs Hn Hz].
  assert (Hr : ∀ k, recorded key k (ops ++ [op]) = recorded key k ops).
  { intros k. rewrite recorded_snoc, Hop, bool_decide_eq_false_2 by done. lia. }
  split; [done| |]; intros k; rewrite Hr; auto.
Qed.

Lemma capped_bump cap key ops m op k :
  key op = Some k → capped cap key ops m →
  capped cap key (ops ++ [op]) (default m (bump cap counter_inc counter_new k m)).
Proof.
  intros Hop [Hs Hn Hz].
  assert (Hr : ∀ j, recorded key j (ops ++ [op])
                    = recorded key j ops + (if decide (j = k) then 1 else 0)).
  { intros j. rewrite recorded_snoc, Hop. case_bool_decide; case_decide; congruence. }
  unfold bump. destruct (m !! k) as [c|] eqn:Hk; cbn [from_option id].
  - assert (Hsz : size (<[k:=counter_inc c]> m) = size m) by (by apply map_size_insert_Some).
    split; [by rewrite Hsz| |]; intros j; rewrite Hr, ?Hsz; destruct (decide (j = k)) as [->|Hj].
    + rewrite lookup_insert_eq. intros n [= <-]. rewrite (Hn _ _ Hk). apply counter_inc_wrap.
    + rewrite lookup_insert_ne, Z.add_0_r by done. apply Hn.
    + by rewrite lookup_insert_eq.
    + rewrite lookup_insert_ne, Z.add_0_r by done. apply Hz.
  - destruct (Z.ltb_spec (Z.of_nat (size m)) cap) as [Hlt|Hge]; cbn [from_option id].
    + assert (Hsz : size (<[k:=counter_inc counter_new]> m) = S (size m)) by (by apply map_size_insert_None).
      split; [rewrite Hsz; lia| |]; intros j; rewrite Hr, ?Hsz; destruct (decide (j = k)) as [->|Hj].
      * rewrite lookup_insert_eq. intros n [= <-]. destruct (Hz k Hk) as [->|]; [done|lia].
      * rewrite lookup_insert_ne, Z.add_0_r by done. apply Hn.
      * by rewrite lookup_insert_eq.
      * rewrite lookup_insert_ne, Z.add_0_r by done. intros Hj'. destruct (Hz j Hj'); [tauto|lia].
    + split; [done| |]; intros j; rewrite Hr; destruct (decide (j = k)) as [->|Hj].
      * by rewrite Hk.
      * rewrite Z.add_0_r. apply Hn.
      * intros _. by right.
      * rewrite Z.add_0_r. apply Hz.
Qed.

Lemma bump_size {A} cap (upd : A → A) fresh k m m' :
  bump cap upd fresh k m = Some m' → Z.of_nat (size m) ≤ Z.max 0 cap →
  Z.of_nat (size m') ≤ Z.max 0 cap.
Proof.
  unfold bump. destruct (m !! k) as [c|] eqn:Hk.
  - intros [= <-]. by rewrite map_size_insert_Some.
  - destruct (Z.ltb_spec (Z.of_nat (size m)) cap); [|done]. intros [= <-].
    rewrite map_size_insert_None by done. lia.
Qed.

(** The durations that a histogram has to have seen: those of the decisions with its labels
    whose label tuple has a counter. *)
Definition duration_of (totals : gmap string Counter) (k : string) (op : metric_op) : option Z :=
  match op with
  | MDecision e p a t d =>
      if bool_decide (label_key [a; t] = k ∧ is_Some (totals !! label_key [e; p; a; t])) then Some d else None
  | _ => None
  end.
Definition observed (totals : gmap string Counter) (k : string) (ops : list metric_op) : list Z :=
  omap (duration_of totals k) ops.

(** A capped map of histograms after some operations. *)
Record timed (cap : Z) (ops : list metric_op) (totals : gmap string Counter) (m : gmap string Histogram) :
    Prop := {
  ti_size : Z.of_nat (size m) ≤ Z.max 0 cap;
  ti_some k h : m !! k = Some h → h = histogram_run duration_histogram (observed totals k ops);
  ti_none k : m !! k = None → observed totals k ops = [] ∨ cap ≤ Z.of_nat (size m);
}.

Lemma observed_snoc totals k ops op :
  observed totals k (ops ++ [op]) = observed totals k ops ++ option_list (duration_of totals k op).
Proof. unfold observed. rewrite omap_app. cbn. by destruct (duration_of totals k op). Qed.

Lemma recorded_zero key k ops op : recorded key k ops = 0 → op ∈ ops → key op ≠ Some k.
Proof.
  unfold recorded, count_if. intros Hz Hin Heq.
  assert (Hf : op ∈ List.filter (λ op, bool_decide (key op = Some k)) ops).
  { apply list_elem_of_In, List.filter_In. split; [by apply list_elem_of_In|by apply bool_decide_eq_true_2]. }
  destruct (List.filter _ ops); [by apply not_elem_of_nil in Hf|]. simpl in Hz. lia.
Qed.

(** A counter that is new, or that is incremented, does not change what was observed. *)
Lemma observed_bump cap ops totals totals' K k :
  capped cap decision_key ops totals → bump cap counter_inc counter_new K totals = Some totals' →
  observed totals' k ops = observed totals k ops.
Proof.
  intros Hc Hb. unfold observed.
  assert (Hsame : ∀ op, op ∈ ops → duration_of totals' k op = duration_of totals k op).
  { intros op Hop. destruct op as [e p a t d| | | | | |]; try done. cbn [duration_of].
    set (J := label_key [e; p; a; t]). assert (HJ : is_Some (totals' !! J) ↔ is_Some (totals !! J)).
    { unfold bump in Hb. destruct (totals !! K) as [c|] eqn:HK.
      - injection Hb as <-. destruct (decide (K = J)) as [<-|]; [|by rewrite lookup_insert_ne].
        rewrite lookup_insert_eq, HK. by split; eauto.
      - destruct (Z.ltb_spec (Z.of_nat (size totals)) cap); [|done]. injection Hb as <-.
        rewrite lookup_insert_ne; [done|]. intros ->.
        destruct (cp_none _ _ _ _ Hc _ HK) as [Hz|]; [|lia].
        by apply (recorded_zero _ _ _ _ Hz Hop). }
    by rewrite (bool_decide_ext _ (label_key [a; t] = k ∧ is_Some (totals !! J))) by (by rewrite HJ). }
  clear Hc Hb. induction ops as [|op ops IH]; [done|]. cbn. rewrite Hsame by apply list_elem_of_here.
  rewrite IH; [done|]. intros x Hx. apply Hsame. by apply list_elem_of_further.
Qed.

Lemma bump_present cap K (totals totals' : gmap string Counter) :
  bump cap counter_inc counter_new K totals = Some totals' → is_Some (totals' !! K).
Proof.
  unfold bump. destruct (totals !! K); [intros [= <-]|destruct (_ <? _); [|done]; intros [= <-]];
    rewrite lookup_insert_eq; eauto.
Qed.

Lemma timed_skip cap ops totals m op :
  (∀ k, duration_of totals k op = None) → timed cap ops totals m → timed cap (ops ++ [op]) totals m.
Proof.
  intros Hop [Hs Hh Hz]. split; [done| |]; intros k; rewrite observed_snoc, Hop, app_nil_r; auto.
Qed.

Lemma timed_bump cap ops totals totals' m e p a t d :
  let op := MDecision e p a t d in
  capped cap decision_key ops totals → timed cap ops totals m →
  bump cap counter_inc counter_new (label_key [e; p; a; t]) totals = Some totals' →
  timed cap (ops ++ [op]) totals' (default m (bump cap (λ h, observe h d) duration_histogram (label_key [a; t]) m)).
Proof.
  intros op Hc [Hs Hh Hz] Hb. set (K := label_key [a; t]).
  assert (Ho : ∀ k, observed totals' k (ops ++ [op])
                    = observed totals k ops ++ (if decide (K = k) then [d] else [])).
  { intros k. rewrite observed_snoc, (observed_bump _ _ _ _ _ _ Hc Hb). f_equal. cbn [duration_of op].
    apply bump_present in Hb. case_decide; [rewrite bool_decide_eq_true_2 by done; done|].
    by rewrite bool_decide_eq_false_2 by (by intros [? _]). }
  unfold bump. destruct (m !! K) as [h|] eqn:HK; cbn [from_option id].
  - assert (Hsz : size (<[K:=observe h d]> m) = size m) by (by apply map_size_insert_Some).
    split; [by rewrite Hsz| |]; intros k; rewrite Ho, ?Hsz; destruct (decide (K = k)) as [<-|Hk].
    + rewrite lookup_insert_eq. intros ? [= <-]. by rewrite histogram_run_snoc, <-(Hh _ _ HK).
    + rewrite lookup_insert_ne, app_nil_r by done. apply Hh.
    + by rewrite lookup_insert_eq.
    + rewrite lookup_insert_ne, app_nil_r by done. apply Hz.
  - destruct (Z.ltb_spec (Z.of_nat (size m)) cap) as [Hlt|Hge]; cbn [from_option id].
    + assert (Hsz : size (<[K:=observe duration_histogram d]> m) = S (size m)) by (by apply map_size_insert_None).
      split; [rewrite Hsz; lia| |]; intros k; rewrite Ho, ?Hsz; destruct (decide (K = k)) as [<-|Hk].
      * rewrite lookup_insert_eq. intros ? [= <-]. destruct (Hz K HK) as [->|]; [done|lia].
      * rewrite lookup_insert_ne, app_nil_r by done. apply Hh.
      * by rewrite lookup_insert_eq.
      * rewrite lookup_insert_ne, app_nil_r by done. intros Hk'. destruct (Hz k Hk'); [tauto|lia].
    + split; [done| |]; intros k; rewrite Ho; destruct (decide (K = k)) as [<-|Hk].
      * by rewrite HK.
      * rewrite app_nil_r. apply Hh.
      * intros _. by right.
      * rewrite app_nil_r. apply Hz.
Qed.

(** A decision that is dropped was not observed. *)
Lemma timed_dropped cap ops totals m e p a t d :
  bump cap counter_inc counter_new (label_key [e; p; a; t]) totals = None →
  timed cap ops totals m → timed cap (ops ++ [MDecision e p a t d]) totals m.
Proof.
  intros Hb. apply timed_skip. intros k. cbn [duration_of]. rewrite bool_decide_eq_false_2; [done|].
  intros [_ [c Hc]]. unfold bump in Hb. by rewrite Hc in Hb.
Qed.

Definition is_mint (op : metric_op) : bool := match op with MMint => true | _ => false end.
Definition is_verify (success : bool) (op : metric_op) : bool :=
  match op with MVerify b => Bool.eqb b success | _ => false end.
Definition is_hit (op : metric_op) : bool := match op with MHit => true | _ => false end.
Definition is_miss (op : metric_op) : bool := match op with MMiss => true | _ => false end.
Definition is_reload (op : metric_op) : bool := match op with MReload => true | _ => false end.

(** A counter after some operations. *)
Definition counts (p : metric_op → bool) (ops : list metric_op) (c : Counter) : Prop :=
  c = u64_wrap (count_if p ops).
Definition verify_key (success : bool) : string := if success then "success" else "failure".

Record metrics_ok (cap : Z) (ops : list metric_op) (m : Metrics) : Prop := {
  mo_cap : cardinality_cap m = cap;
  mo_decisions : capped cap decision_key ops (decision_total m);
  mo_errors : capped cap error_key ops (pdp_error_total m);
  mo_durations : timed cap ops (decision_total m) (decision_duration m);
  mo_verify : dom (delegation_verify_total m) ⊆ {["success"; "failure"]};
  mo_verified b : counts (is_verify b) ops (default 0 (delegation_verify_total m !! verify_key b));
  mo_mint : counts is_mint ops (delegation_mint_total m);
  mo_hit : counts is_hit ops (cache_hit_total m);
  mo_miss : counts is_miss ops (cache_miss_total m);
  mo_reload : counts is_reload ops (policy_reload_total m);
}.

Lemma counts_skip p ops op c : p op = false → counts p ops c → counts p (ops ++ [op]) c.
Proof. unfold counts. intros Hp ->. by rewrite count_if_snoc, Hp, Z.add_0_r. Qed.
Lemma counts_inc p ops op c : p op = true → counts p ops c → counts p (ops ++ [op]) (counter_inc c).
Proof. unfold counts. intros Hp ->. by rewrite count_if_snoc, Hp, counter_inc_wrap. Qed.

Lemma metric_apply_ok cap ops m op :
  metrics_ok cap ops m → metrics_ok cap (ops ++ [op]) (metric_apply m op).
Proof.
  intros [Hcap Hd He Hdur Hv Hvs Hm Hh Hi Hr].
  destruct op as [e p a t d|fallback| |success| | |]; cbn [metric_apply].
  2: { unfold record_pdp_error. pose proof (capped_bump cap error_key ops _ (MPdpError fallback) fallback eq_refl He) as Hb.
       rewrite Hcap. destruct (bump _ _ _ fallback _);
         split; cbn in *; auto using capped_skip, timed_skip, counts_skip. }
  - unfold record_decision.
    pose proof (capped_bump cap decision_key ops _ (MDecision e p a t d) (label_key [e; p; a; t]) eq_refl Hd) as Hb.
    rewrite Hcap. destruct (bump cap counter_inc counter_new _ _) as [totals|] eqn:Hbump.
    + pose proof (timed_bump cap ops _ totals _ e p a t d Hd Hdur Hbump) as Ht.
      destruct (bump cap (λ h, observe h d) _ _ _);
        split; cbn in *; auto using capped_skip, counts_skip.
    + split; cbn in *; auto using capped_skip, timed_dropped, counts_skip.
  - split; cbn; auto using capped_skip, timed_skip, counts_skip, counts_inc.
  - split; cbn; auto using capped_skip, timed_skip, counts_skip.
    + rewrite dom_insert. destruct success; set_solver.
    + intros b. specialize (Hvs b). fold (verify_key success). destruct (decide (b = success)) as [->|Hne].
      * rewrite lookup_insert_eq. cbn. apply counts_inc; [by destruct success|done].
      * rewrite lookup_insert_ne by (by destruct b, success). apply counts_skip; [by destruct b, success|done].
  - split; cbn; auto using capped_skip, timed_skip, counts_skip, counts_inc.
  - split; cbn; auto using capped_skip, timed_skip, counts_skip, counts_inc.
  - split; cbn; auto using capped_skip, timed_skip, counts_skip, counts_inc.
Qed.

(** C36: in every run of the registry the maps labelled by requests (decisions, durations, PDP
    errors) never outgrow the cardinality cap, and the outcomes of verifications are two.  A
    label tuple that has a counter has the exact number of its recordings since the start, and
    one without was never recorded or met a full map; a histogram has observed exactly the
    durations of the decisions with its labels that have a counter, in order; and mints,
    verifications by outcome, cache hits, cache misses and reloads are counted exactly (all
    counters modulo [2^64]). *)
Theorem metrics_bounded_exact cap ops :
  metrics_ok cap ops (fold_left metric_apply ops (metrics_with_cap cap)).
Proof.
  induction ops as [|op ops IH] using rev_ind.
  - assert (Hnew : ∀ key, capped cap key [] ∅).
    { intros key. split; [rewrite map_size_empty; lia|done|by left]. }
    split; cbn; auto; [|set_solver..]. split; [rewrite map_size_empty; lia|done|by left].
  - rewrite fold_left_app. by apply metric_apply_ok.
Qed.
End registry.

(** A decision that finds the totals full is not timed either, even when its action already
    has a histogram: the cap of one metric silences another. *)
Lemma full_totals_skip_duration `{F64} m e p a t d :
  let key := label_key [e; p; a; t] in
  decision_total m !! key = None → cardinality_cap m ≤ Z.of_nat (size (decision_total m)) →
  decision_duration (record_decision m e p a t d) = decision_duration m.
Proof.
  intros key Hk Hfull. unfold record_decision, bump. fold key. rewrite Hk.
  by destruct (Z.ltb_spec (Z.of_nat (size (decision_total m))) (cardinality_cap m)); [lia|].
Qed.

(** ** A concrete instance *)

Module Concrete.

(** Nanoseconds in place of seconds, with one number for infinity. *)
Definition infinity : Z := 10 ^ 30.
#[export] Instance fixed_point : F64 := {|
  f64 := Z;
  f64_lit s := match s with
               | "0.001" => 10 ^ 6 | "0.01" => 10 ^ 7 | "0.1" => 10 ^ 8 | "1.0" => 10 ^ 9
               | "10.0" => 10 ^ 10 | _ => 0
               end;
  f64_is_finite x := negb (x =? infinity);
  f64_is_infinite x := x =? infinity;
  f64_infinity := infinity;
  f64_total_le := Z.leb;
  f64_eqb := Z.eqb;
  f64_le := Z.leb;
  f64_to_string x := pretty x;
  as_secs_f64 x := x;
  micros_as_secs x := x * 1000;
|}.

#[export] Instance fixed_point_laws : F64Laws.
Proof. split; simpl; intros *; rewrite ?Z.leb_le; lia. Qed.

(** The witness of [histogram_cumulative]: three durations over the default buckets. *)
Example histogram_cumulative_witness :
  let ds := [5 * 10 ^ 6; 500 * 10 ^ 6; 20 * 10 ^ 9] in
  let h := histogram_run duration_histogram ds in
  bucket_counts h = [(10 ^ 6, 0); (10 ^ 7, 1); (10 ^ 8, 1); (10 ^ 9, 2); (10 ^ 10, 2); (infinity, 3)]
  ∧ 1 = count_if (below (10 ^ 7)) ds ∧ 1 ≤ 3.
Proof.
  intros ds h.
  pose proof (histogram_cumulative "agentguard.decision.duration_seconds"
    (f64_lit <$> ["0.001"; "0.01"; "0.1"; "1.0"; "10.0"]) ds 1 5 (10 ^ 7) infinity 1 3
    ltac:(done) eq_refl eq_refl ltac:(lia)) as (Hc & Hle & _).
  split; [reflexivity|]. split; [exact Hc|exact Hle].
Defined.
End Concrete.
