(* ===== verification/Semaphore.v ===== *)
(** * Bounded work: [tokio::sync::Semaphore]

    The servers bound expensive work (Argon2 checks, policy evaluation with its audit
    write) by a semaphore they never wait for: [try_acquire_owned] or refuse, and the
    permit travels with the job and is dropped with it.  The semaphore is a class; the
    life of the permits is a step relation over the jobs that hold one. *)

From S2P Require Import Prelude.

Class Semaphore := {
  semaphore : Type;
  semaphore_new : nat → semaphore;
  try_acquire : semaphore → option semaphore;
  (** a permit is dropped *)
  release : semaphore → semaphore;
  available_permits : semaphore → nat;
}.

Class SemaphoreLaws `{Semaphore} : Prop := {
  new_available n : available_permits (semaphore_new n) = n;
  acquire_fails s : try_acquire s = None ↔ available_permits s = O;
  acquire_takes s s' : try_acquire s = Some s' → available_permits s = S (available_permits s');
  release_gives s : available_permits (release s) = S (available_permits s);
}.

Section pool.
Context `{SemaphoreLaws} {T : Type}.

(** The semaphore and the jobs that hold a permit of it, by request number. *)
Record Pool : Type := mkPool { slots : semaphore; jobs : gmap nat T }.

Definition pool_new (n : nat) : Pool := mkPool (semaphore_new n) ∅.

(** A request is refused, or starts with a permit; a job moves on and keeps its permit; a
    job ends (with a result, an error or a panic) and drops it. *)
Inductive pool_step : Pool → Pool → Prop :=
| ps_refuse p : try_acquire (slots p) = None → pool_step p p
| ps_start p i t s : jobs p !! i = None → try_acquire (slots p) = Some s →
    pool_step p (mkPool s (<[i := t]> (jobs p)))
| ps_advance p i t t' : jobs p !! i = Some t → pool_step p (mkPool (slots p) (<[i := t']> (jobs p)))
| ps_end p i t : jobs p !! i = Some t → pool_step p (mkPool (release (slots p)) (delete i (jobs p))).

(** Every permit is free or held by one job. *)
Definition balanced (n : nat) (p : Pool) : Prop :=
  (available_permits (slots p) + size (jobs p))%nat = n.

Lemma pool_step_balanced n p q : pool_step p q → balanced n p → balanced n q.
Proof.
  unfold balanced. intros [p' Hr|p' i t s Hi Ha|p' i t t' Hi|p' i t Hi]; simpl; [done| | |].
  - rewrite map_size_insert_None by done. pose proof (acquire_takes _ _ Ha). lia.
  - by rewrite map_size_insert_Some.
  - rewrite release_gives, map_size_delete_Some by done.
    assert (size (jobs p') ≠ O) by (intros Hz%map_size_empty_inv; by rewrite Hz, lookup_empty in Hi).
    lia.
Qed.

Lemma pool_new_balanced n : balanced n (pool_new n).
Proof. unfold balanced. simpl. rewrite new_available, map_size_empty. lia. Qed.

Lemma pool_reachable_balanced n p : rtc pool_step (pool_new n) p → balanced n p.
Proof.
  intros Hrun. eapply (rtc_invariant pool_step (balanced n)); [|exact Hrun|apply pool_new_balanced].
  intros x y. apply pool_step_balanced.
Qed.

(** A request is refused exactly when [n] jobs hold the permits. *)
Lemma refused_iff_full n p : balanced n p → try_acquire (slots p) = None ↔ size (jobs p) = n.
Proof. unfold balanced. intros Hb. rewrite acquire_fails. lia. Qed.

(** Ending every job gives all permits back. *)
Lemma drain n p :
  balanced n p → ∃ q, nsteps pool_step (size (jobs p)) p q ∧ jobs q = ∅ ∧
    available_permits (slots q) = n.
Proof.
  remember (size (jobs p)) as k eqn:Hk. revert p Hk.
  induction k as [|k IH]; intros p Hk Hb.
  - exists p. symmetry in Hk. unfold balanced in Hb. rewrite Hk in Hb.
    apply map_size_empty_inv in Hk. split; [constructor|]. split; [done|lia].
  - destruct (map_choose (jobs p)) as (i & t & Hi).
    { intros He. by rewrite He, map_size_empty in Hk. }
    pose proof (ps_end p i t Hi) as Hstep.
    destruct (IH (mkPool (release (slots p)) (delete i (jobs p)))) as (q & Hq & He & Ha).
    + simpl. rewrite map_size_delete_Some by done. lia.
    + by eapply pool_step_balanced.
    + exists q. split; [|done]. by econstructor.
Qed.
End pool.
Arguments Pool {_} T.

Module Counting.
(** A counter is a semaphore. *)
#[export] Instance counting : Semaphore := {|
  semaphore := nat;
  semaphore_new n := n;
  try_acquire s := match s with O => None | S s => Some s end;
  release := S;
  available_permits s := s;
|}.
#[export] Instance counting_laws : SemaphoreLaws.
Proof.
  split; simpl; [done| |by intros [] ? [= <-]|done].
  intros []; [done|]. split; discriminate.
Qed.
End Counting.
