(* ===== verification/AuthLayer.v ===== *)
(** * The authentication layer ([agentguard-server/src/auth_layer.rs])

    Bearer credentials against the API-key store of [ApiKey], with the bound on concurrent
    Argon2 checks of [Semaphore].  The layer shares its store with the key-file watcher,
    so the content of the store at the time of the check is an argument; so are the clock,
    and whether the blocking task panics. *)

From S2P Require Import Prelude Crypto AuthError AuditFs ApiKey Text Semaphore.

Definition MAX_CONCURRENT_API_KEY_VERIFICATIONS : nat := 2.

Record AuthenticatedIdentity : Type := mkIdentity {
  bound : ApiKeyIdentity;
  credential_id : string;
  can_act_as : bool;
}.

Inductive AuthenticationFailure : Type := Unauthenticated | Forbidden | Unavailable.
#[export] Instance AuthenticationFailure_eq_dec : EqDecision AuthenticationFailure.
Proof. solve_decision. Defined.

(** [AuthConfig] of [listener.rs]. *)
Inductive AuthConfig : Type := ConfigDisabled | ConfigApiKey (path : string).

(** The variants; the store behind the [Arc] is passed where it is read. *)
Inductive AuthLayer : Type := Disabled | ApiKeyAuth | ReloadableApiKey (path : string).

(** ** Bearer tokens *)

Definition bearer_token (authorization : option string) : option string :=
  value ← authorization;
  '(scheme, rest) ← split_at_char " " value;
  if negb (eq_ignore_ascii_case scheme "Bearer") then None
  else
    let token := trim_start_matches " " rest in
    if bool_decide (token = "") || existsb is_ascii_whitespace (String.list_ascii_of_string token)
    then None
    else Some token.

Definition has_act_as_scope (scopes : list string) : bool :=
  existsb (λ scope, bool_decide (scope = "authorize:any")) scopes.

Section layer.
Context `{Argon2, Base64, ApiKeyCodec, Semaphore}.

(** The layer and the store it starts with; the flag only adds a warning to the log. *)
Definition from_config (cfg : AuthConfig) (allow_loopback_bypass : bool) (w : world) :
    result string (AuthLayer * ApiKeyStore) * world :=
  match cfg with
  | ConfigDisabled => (Ok (Disabled, ∅), w)
  | ConfigApiKey path =>
      match load_from_file path w with
      | (Ok store, w) => (Ok (ReloadableApiKey path, store), w)
      | (Err e, w) =>
          (Err ("load api-key store " +:+ debug_str path +:+ ": " +:+ auth_error_display e), w)
      end
  end.

Definition reloadable_key_store (l : AuthLayer) : option string :=
  match l with ReloadableApiKey path => Some path | Disabled | ApiKeyAuth => None end.

Abbreviation auth_result := (result AuthenticationFailure (option AuthenticatedIdentity)).

Definition authenticate_bearer (l : AuthLayer) (store : ApiKeyStore) (authorization : option string)
    (required_scope : string) (require_identity : bool) (now : Z) : auth_result :=
  match l with
  | Disabled => Ok None
  | ApiKeyAuth | ReloadableApiKey _ =>
      token ← ok_or (bearer_token authorization) Unauthenticated;
      key ← map_err (λ _, Unauthenticated) (apikey_verify store token now);
      let act_as := bool_decide (required_scope = "authorize") && has_act_as_scope (scopes key) in
      _ ← bail_if (negb (has_scope key required_scope) && negb act_as) Forbidden;
      let identity := ok_or (identity key) (if require_identity then Forbidden else Unauthenticated) in
      match identity with
      | Ok identity => Ok (Some (mkIdentity identity (key_id key) act_as))
      | Err Unauthenticated => if require_identity then Err Unauthenticated else Ok None
      | Err err => Err err
      end
  end.

(** The check that comes before an Argon2 slot is taken. *)
Definition well_formed_credential (token : string) : bool :=
  match split ":"%char token with
  | [a; b; c] => bool_decide (a ≠ "") && bool_decide (b ≠ "") && bool_decide (c ≠ "")
  | _ => false
  end.

(** Up to the spawned task: an answer, or a task that holds a permit. *)
Definition authenticate_begin (l : AuthLayer) (authorization : option string)
    (required_scope : string) (require_identity : bool) (slots : semaphore) :
    auth_result + semaphore :=
  match l with
  | Disabled => inl (authenticate_bearer l ∅ authorization required_scope require_identity 0)
  | ApiKeyAuth | ReloadableApiKey _ =>
      match bearer_token authorization with
      | None => inl (Err Unauthenticated)
      | Some token =>
          if negb (well_formed_credential token) then inl (Err Unauthenticated)
          else match try_acquire slots with
               | None => inl (Err Unavailable)
               | Some slots => inr slots
               end
      end
  end.

Definition authenticate_bearer_async_with_slots (l : AuthLayer) (store : ApiKeyStore)
    (authorization : option string) (required_scope : string) (require_identity : bool)
    (now : Z) (panics : bool) (slots : semaphore) : auth_result * semaphore :=
  match authenticate_begin l authorization required_scope require_identity slots with
  | inl r => (r, slots)
  | inr slots =>
      (if panics then Err Unavailable
       else authenticate_bearer l store authorization required_scope require_identity now,
       release slots)
  end.

(** ** The middleware *)

(** A response, or the identity the request goes on with. *)
Inductive gate : Type :=
| Next (identity : option AuthenticatedIdentity)
| Respond (status : Z) (body : string).

Definition required_for (method path : string) : string * bool :=
  if bool_decide (method = "POST")
     && (bool_decide (path = "/access/v1/evaluation") || bool_decide (path = "/access/v1/evaluations"))
  then ("authorize", true)
  else if bool_decide (method = "GET") && bool_decide (path = "/metrics") then ("metrics:read", false)
  else ("", false).

Definition auth_layer_fn (l : AuthLayer) (store : ApiKeyStore) (method path : string)
    (authorization : option string) (now : Z) (panics : bool) (slots : semaphore) :
    gate * semaphore :=
  if bool_decide (path = "/healthz") || bool_decide (path = "/readyz") then (Next None, slots)
  else
    let '(required_scope, require_identity) := required_for method path in
    match l with
    | Disabled => (Next None, slots)
    | ApiKeyAuth | ReloadableApiKey _ =>
        let '(r, slots) := authenticate_bearer_async_with_slots l store authorization
                             required_scope require_identity now panics slots in
        (match r with
         | Ok identity => Next identity
         | Err Unauthenticated => Respond 401 (ln "unauthorized")
         | Err Forbidden => Respond 403 (ln "forbidden")
         | Err Unavailable => Respond 503 (ln "authentication capacity exhausted")
         end, slots)
    end.

(** ** Who gets through *)

(** The meaning of an authentication: a live key of the store with the scope. *)
Record admits (store : ApiKeyStore) (authorization : option string) (required_scope : string)
    (now : Z) (key : ApiKey) (act_as : bool) : Prop := {
  ad_token : ∃ token, bearer_token authorization = Some token ∧ apikey_verify store token now = Ok key;
  ad_act_as : act_as = true ↔ required_scope = "authorize" ∧ "authorize:any" ∈ scopes key;
  ad_scope : has_scope key required_scope = true ∨ act_as = true;
}.

Lemma act_as_iff scope (ss : list string) :
  bool_decide (scope = "authorize") && has_act_as_scope ss = true ↔
  scope = "authorize" ∧ "authorize:any" ∈ ss.
Proof.
  rewrite andb_true_iff, bool_decide_eq_true. unfold has_act_as_scope.
  rewrite existsb_exists. setoid_rewrite bool_decide_eq_true. setoid_rewrite <-list_elem_of_In.
  naive_solver.
Qed.

Lemma authenticate_bearer_ok l store authz scope req now r :
  l ≠ Disabled →
  authenticate_bearer l store authz scope req now = Ok r ↔
  ∃ key act_as, admits store authz scope now key act_as ∧
    match identity key with
    | Some i => r = Some (mkIdentity i (key_id key) act_as)
    | None => req = false ∧ r = None
    end.
Proof.
  intros Hl. unfold authenticate_bearer. destruct l; [done| |];
    (split;
     [ intros (token & Ht & (key & Hk & (u & Hu & Hr)%bind_Ok)%bind_Ok)%bind_Ok;
       apply ok_or_Ok in Ht; apply map_err_Ok in Hk; apply bail_if_Ok in Hu;
       eexists key, _; split;
       [ split; [by exists token|apply act_as_iff|];
         apply andb_false_iff in Hu as [Hs|Hs]; apply negb_false_iff in Hs; auto
       | destruct (identity key) as [i|]; simpl in Hr; [by injection Hr|];
         destruct req; [done|by injection Hr] ]
     | intros (key & act_as & [(token & Ht & Hk) Hact Hs] & Hi); rewrite Ht; simpl; rewrite Hk; simpl;
       assert (act_as = bool_decide (scope = "authorize") && has_act_as_scope (scopes key)) as ->
         by (apply eq_true_iff_eq; by rewrite Hact, act_as_iff);
       rewrite bail_if_pass by (destruct Hs as [->| ->]; by rewrite ?andb_false_r); simpl;
       destruct (identity key) as [i|]; simpl; [by subst|]; destruct Hi as [-> ->]; done ]).
Qed.

Lemma verified_facts store raw now key :
  apikey_verify store raw now = Ok key →
  (∃ pre id secret, split ":"%char raw = [pre; id; secret] ∧ store !! id = Some key ∧ prefix key = pre) ∧
  revoked_at key = None ∧ (∀ e, expires_at key = Some e → now < e).
Proof.
  unfold apikey_verify. destruct (split ":" raw) as [|pre [|id [|secret [|? ?]]]]; try done.
  intros Hv. res_inv. simplify_eq. bool_inv. split_and!.
  - eexists _, _, _. split; [done|]. split; [done|]. by destruct (decide (prefix key = pre)).
  - by apply eq_None_not_Some.
  - intros e He. rewrite He in *. bool_inv. lia.
Qed.

Lemma async_result l store authz scope req now panics sl :
  (authenticate_bearer_async_with_slots l store authz scope req now panics sl).1 =
  match authenticate_begin l authz scope req sl with
  | inl r => r
  | inr _ => if panics then Err Unavailable else authenticate_bearer l store authz scope req now
  end.
Proof. unfold authenticate_bearer_async_with_slots. by destruct (authenticate_begin _ _ _ _ _). Qed.

Lemma async_ok_sync l store authz scope req now panics sl r :
  (authenticate_bearer_async_with_slots l store authz scope req now panics sl).1 = Ok r →
  authenticate_bearer l store authz scope req now = Ok r.
Proof.
  rewrite async_result. unfold authenticate_begin. destruct l; [done| |];
    (destruct (bearer_token authz); [|done]; destruct (well_formed_credential _); [|done];
     destruct (try_acquire sl); [|done]; by destruct panics).
Qed.

(** C8: with authentication on, a request reaches the evaluation endpoints only with a bearer
    credential of a key that is in the store, not expired, not revoked and scoped for
    [authorize] (or [*], or [authorize:any]), and it carries the identity that key is
    bound to; it may act for others only with the scope [authorize:any]. *)
Theorem evaluation_needs_bound_key l store path authz now panics sl r sl' :
  l ≠ Disabled → path = "/access/v1/evaluation" ∨ path = "/access/v1/evaluations" →
  auth_layer_fn l store "POST" path authz now panics sl = (Next r, sl') →
  ∃ token key ident,
    bearer_token authz = Some token ∧ apikey_verify store token now = Ok key ∧
    revoked_at key = None ∧ (∀ e, expires_at key = Some e → now < e) ∧
    (∃ s, s ∈ scopes key ∧ (s = "*" ∨ s = "authorize" ∨ s = "authorize:any")) ∧
    identity key = Some ident ∧
    r = Some (mkIdentity ident (key_id key) (bool_decide ("authorize:any" ∈ scopes key))).
Proof.
  intros Hl Hpath. unfold auth_layer_fn.
  assert (Hreq : required_for "POST" path = ("authorize", true)) by (by destruct Hpath as [-> | ->]).
  rewrite Hreq. replace (bool_decide (path = "/healthz") || bool_decide (path = "/readyz")) with false
    by (by destruct Hpath as [-> | ->]).
  pose proof (async_ok_sync l store authz "authorize" true now panics sl) as Hsync.
  destruct (authenticate_bearer_async_with_slots _ _ _ _ _ _ _ _) as [[i|e] sl1].
  2: { destruct l; [done| |]; by destruct e. }
  specialize (Hsync i eq_refl). apply authenticate_bearer_ok in Hsync; [|done].
  destruct Hsync as (key & act_as & [(token & Ht & Hk) Hact Hscope] & Hi).
  intros Hout. assert (r = i) as -> by (by destruct l; [done| |]; injection Hout).
  destruct (verified_facts _ _ _ _ Hk) as (_ & Hrev & Hexp).
  destruct (identity key) as [ident|] eqn:Hident; [|by destruct Hi]. subst i.
  exists token, key, ident. split_and!; try done.
  - destruct Hscope as [Hs|Hs].
    + unfold has_scope in Hs. simpl in Hs. apply existsb_exists in Hs as (s & Hin & Hs).
      exists s. rewrite list_elem_of_In. split; [done|].
      apply orb_true_iff in Hs as [Hs|Hs]; apply bool_decide_eq_true in Hs; auto.
    + exists "authorize:any". apply Hact in Hs as [_ Hs]. auto.
  - do 2 f_equal. apply eq_true_iff_eq. rewrite Hact, bool_decide_eq_true. naive_solver.
Qed.

(** The asynchronous check decides as the synchronous one: with a free slot, and when
    the hashing task does not panic, a credential whose three parts are nonempty gets the
    same answer; anything else is refused before a slot is taken, and whatever it accepts
    the synchronous check accepts too.  Every permit taken is given back. *)
Theorem async_agrees `{!SemaphoreLaws} l store authz scope req now panics sl :
  let '(r, sl') := authenticate_bearer_async_with_slots l store authz scope req now panics sl in
  available_permits sl' = available_permits sl ∧
  (∀ i, r = Ok i → authenticate_bearer l store authz scope req now = Ok i) ∧
  (∀ token, l ≠ Disabled → bearer_token authz = Some token → panics = false →
     if well_formed_credential token then
       if decide (available_permits sl = O) then r = Err Unavailable
       else r = authenticate_bearer l store authz scope req now
     else r = Err Unauthenticated).
Proof.
  pose proof (async_ok_sync l store authz scope req now panics sl) as Hsync.
  unfold authenticate_bearer_async_with_slots in *.
  destruct (authenticate_begin l authz scope req sl) as [r|sl1] eqn:Hb; cbn [fst] in Hsync;
    (split; [|split; [intros i Hi; apply Hsync; exact Hi|]]).
  - done.
  - intros token Hl Ht ->. unfold authenticate_begin in Hb. rewrite Ht in Hb.
    destruct l; [done| |]; (destruct (well_formed_credential token); [|by injection Hb]; simpl in Hb;
      destruct (try_acquire sl) eqn:Ha; [done|]; injection Hb as <-;
      rewrite decide_True by (by apply acquire_fails); done).
  - rewrite release_gives. unfold authenticate_begin in Hb.
    destruct l; [done| |]; (destruct (bearer_token authz); [|done];
      destruct (well_formed_credential _); [|done]; simpl in Hb;
      destruct (try_acquire sl) eqn:Ha; [|done]; injection Hb as ->; by rewrite (acquire_takes _ _ Ha)).
  - intros token Hl Ht ->. unfold authenticate_begin in Hb. rewrite Ht in Hb.
    destruct l; [done| |]; (destruct (well_formed_credential token); [|done]; simpl in Hb;
      destruct (try_acquire sl) eqn:Ha; [|done];
      rewrite decide_False; [done|]; intros Hz%acquire_fails; congruence).
Qed.
End layer.

(** ** The Argon2 slots *)

Section verification_slots.
Context `{Argon2, Base64, ApiKeyCodec, SemaphoreLaws}.

(** The pool of [api_key_verification_slots]; a job is the credential it checks. *)
Definition api_key_verification_slots : Pool string := pool_new MAX_CONCURRENT_API_KEY_VERIFICATIONS.

(** However requests interleave, at most two Argon2 checks run at a time; a well-formed
    credential is turned away for lack of capacity exactly while two are running; and the
    running checks can all end, which frees both slots: no outcome of a check, a panic
    included, leaks a permit. *)
Theorem verification_slots_live p l authz token scope req :
  rtc pool_step api_key_verification_slots p →
  l ≠ Disabled → bearer_token authz = Some token → well_formed_credential token = true →
  (size (jobs p) ≤ MAX_CONCURRENT_API_KEY_VERIFICATIONS)%nat ∧
  (authenticate_begin l authz scope req (slots p) = inl (Err Unavailable) ↔
     size (jobs p) = MAX_CONCURRENT_API_KEY_VERIFICATIONS) ∧
  (∃ q, nsteps pool_step (size (jobs p)) p q ∧ jobs q = ∅ ∧
     available_permits (slots q) = MAX_CONCURRENT_API_KEY_VERIFICATIONS).
Proof.
  intros Hb%pool_reachable_balanced Hl Ht Hw. split_and!.
  - unfold balanced in Hb. lia.
  - rewrite <-(refused_iff_full _ _ Hb). unfold authenticate_begin. rewrite Ht, Hw.
    destruct l; [done| |]; by destruct (try_acquire (slots p)).
  - by apply drain.
Qed.
End verification_slots.

(** ** Reading the header *)

Fixpoint spaces (n : nat) : string := match n with O => "" | S n => String " " (spaces n) end.

Lemma trim_start_spaces n token :
  (∀ c s, token = String c s → c ≠ " "%char) →
  trim_start_matches " " (spaces n +:+ token) = token.
Proof.
  intros Ht. induction n as [|n IH]; [|done]. destruct token as [|c s]; [done|].
  simpl. rewrite bool_decide_eq_false_2; [done|]. by eapply Ht.
Qed.

(** The header [<scheme> <token>] gives back the token, whatever the case of the scheme
    [Bearer] and however many spaces separate them, when the token is not empty and has no
    whitespace. *)
Theorem bearer_token_roundtrip scheme n token :
  eq_ignore_ascii_case scheme "Bearer" = true → str_contains " " scheme = false →
  token ≠ "" → existsb is_ascii_whitespace (String.list_ascii_of_string token) = false →
  bearer_token (Some (scheme +:+ spaces (S n) +:+ token)) = Some token.
Proof.
  intros Hs Hsp Hne Hws. unfold bearer_token. cbn [mbind option_bind].
  change (spaces (S n) +:+ token)
    with (String " " (spaces n +:+ token)).
  rewrite split_at_char_app by done. cbn [mbind option_bind]. rewrite Hs. cbn [negb].
  change (String " " (spaces n +:+ token))
    with (spaces (S n) +:+ token).
  rewrite trim_start_spaces.
  - by rewrite bool_decide_eq_false_2, Hws.
  - intros c s -> ->. by simpl in Hws.
Qed.

Import Crypto.Concrete ApiKey.Concrete Semaphore.Counting.

Definition free (n : nat) : semaphore := n.
Definition bearer_alice : option string := Some ("bEARER  " +:+ alice_text).

(** The witness of [bearer_token_roundtrip]. *)
Example bearer_token_roundtrip_witness : bearer_token bearer_alice = Some alice_text.
Proof.
  exact (bearer_token_roundtrip "bEARER" 1 alice_text eq_refl eq_refl ltac:(done) eq_refl).
Defined.

(** The witness of [evaluation_needs_bound_key]. *)
Example evaluation_needs_bound_key_witness :
  ∃ key ident, apikey_verify one_store alice_text 2000 = Ok key ∧ identity key = Some ident ∧
    Some (mkIdentity (mkApiKeyIdentity "User" "alice" None) "uuid-1" false)
    = Some (mkIdentity ident (key_id key) (bool_decide ("authorize:any" ∈ scopes key))).
Proof.
  destruct (evaluation_needs_bound_key (ReloadableApiKey "keys.json") one_store "/access/v1/evaluation"
    bearer_alice 2000 false (free 2) (Some (mkIdentity (mkApiKeyIdentity "User" "alice" None) "uuid-1" false))
    (free 2)) as (token & key & ident & Ht & Hk & _ & _ & _ & Hi & Hr).
  - done.
  - by left.
  - vm_compute. reflexivity.
  - assert (token = alice_text) as -> by (vm_compute in Ht |- *; congruence). by exists key, ident.
Defined.

(** The witness of [verification_slots_live]: two checks running, and a third turned away. *)
Example verification_slots_live_witness :
  let p := mkPool (free 0) (<[0%nat := "a"]> (<[1%nat := "b"]> (jobs (pool_new 2)))) in
  authenticate_begin ApiKeyAuth bearer_alice "authorize" true (slots p) = inl (Err Unavailable).
Proof.
  intros p. apply (verification_slots_live p ApiKeyAuth bearer_alice alice_text "authorize" true).
  - eapply rtc_l; [exact (ps_start (pool_new 2) 1%nat "b" (free 1) eq_refl eq_refl)|].
    apply rtc_once. 
    exact (ps_start (mkPool (free 1) (<[1%nat := "b"]> (jobs (pool_new 2)))) 0%nat "a" (free 0)
             eq_refl eq_refl).
  - done.
  - reflexivity.
  - reflexivity.
  - reflexivity.
Defined.
