(* ===== verification/PolicyStore.v ===== *)
(** * The policy store ([agentguard-core/src/policy/store.rs], [types.rs], [schema.rs])

    Loading Cedar policies and the schema from a directory within fixed bounds, validation,
    and writing a policy under a sanitised name; [Authorizer::new] on top.  The directory
    tree is a map from paths to nodes; the order of [WalkDir], its errors and the I/O
    errors are arguments.  Cedar's parsers come as a class. *)

From S2P Require Import Prelude Json CoreError Crypto Trace Request DecisionRecord Canonical AuditLog Cache Engine Text.

Definition MAX_POLICY_FILES : Z := 1024.
Definition MAX_POLICY_TREE_ENTRIES : Z := 4096.
Definition MAX_POLICY_FILE_BYTES : Z := 1048576.
Definition MAX_TOTAL_POLICY_BYTES : Z := 16777216.
Definition MAX_SCHEMA_BYTES : Z := 1048576.

(** Cedar's parsers and validator; an issue is a policy id and a message. *)
Class CedarStore `{Cedar} := {
  policy_set_new : PolicySet;
  policy_set_from_str : string → result string PolicySet;
  policy_set_merge : PolicySet → PolicySet → result string PolicySet;
  policy_set_len : PolicySet → Z;
  (** [Policy::parse]: one policy, with this id *)
  policy_parse : string → string → result string unit;
  schema_from_str : string → result string Schema;
  validate_strict : Schema → PolicySet → list (string * string) * list (string * string);
  (** [entity_types] and [actions], as text *)
  schema_entity_types : Schema → list string;
  schema_actions : Schema → list string;
}.

(** ** The file system *)

Inductive node : Type := File (content : bytes) | Directory | OtherNode.
Abbreviation tree := (gmap string node).

Record PolicyStore : Type := mkPolicyStore { store_root : string }.

(** [a.join(b)] *)
Definition join_path (a b : string) : string := a +:+ "/" +:+ b.
Definition schema_path (s : PolicyStore) : string := join_path (store_root s) "schema.cedarschema".
Definition policies_dir (s : PolicyStore) : string := join_path (store_root s) "policies".

Definition file_name (path : string) : string := default path (last (split "/"%char path)).
Definition path_extension (path : string) : option string := extension (file_name path).

(** [PathBuf::cmp]: component by component. *)
Fixpoint components_leb (a b : list string) : bool :=
  match a, b with
  | [], _ => true
  | _ :: _, [] => false
  | x :: a, y :: b => if bool_decide (x = y) then components_leb a b else str_leb x y
  end.
Definition path_leb (p q : string) : bool := components_leb (split "/"%char p) (split "/"%char q).

(** ** Policies *)

Record PolicySource : Type := mkPolicySource { src_path : string; src_text : string }.

Inductive Severity : Type := SevError | SevWarning.
Record ValidationIssue : Type := mkIssue { issue_policy : string; severity : Severity; message : string }.
Record ValidationReport : Type := mkReport {
  report_policy_count : Z;
  errors : list ValidationIssue;
  warnings : list ValidationIssue;
}.
Definition report_is_ok (r : ValidationReport) : bool := bool_decide (length (errors r) = O).

Definition source_le (a b : PolicySource) : Prop := path_leb (src_path a) (src_path b) = true.
#[export] Instance source_le_dec a b : base.Decision (source_le a b).
Proof. unfold source_le. apply _. Defined.

Section store.
Context `{CedarStore}.

(** [io] gives the paths whose access fails, with the error; [utf8_error] is the text of
    [FromUtf8Error]. *)
Section load.
Context (t : tree) (io : string → option string) (utf8_error : bytes → string).

Definition read_file (path : string) : cresult bytes :=
  match io path with
  | Some e => Err (Io e)
  | None => match t !! path with
            | Some (File content) => Ok content
            | Some Directory => Err (Io "is a directory")
            | _ => Err (Io "entity not found")
            end
  end.

(** [File::open(path)?.take(max + 1).read_to_end(..)?] *)
Definition read_bounded_text (path : string) (max_bytes : Z) (label : string) : cresult string :=
  content ← read_file path;
  let content := String.substring 0 (Z.to_nat (max_bytes + 1)) content in
  _ ← bail_if (max_bytes <? len content)
        (Other (path +:+ " exceeds the " +:+ label +:+ " size limit of " +:+ pretty max_bytes
                +:+ " bytes"));
  _ ← bail_if (negb (utf8_valid content)) 
        (Other (path +:+ " is not valid UTF-8: " +:+ utf8_error content));
  Ok content.

Record load_state : Type := mkLoadState {
  policy_count : Z;
  total_bytes : Z;
  entries_seen : Z;
  sources : list PolicySource;
}.

Definition is_policy_file (path : string) : bool :=
  match t !! path with
  | Some (File _) => bool_decide (path_extension path = Some "cedar")
  | _ => false
  end.

Definition load_entry (st : load_state) (entry : result string string) : cresult load_state :=
  path ← map_err Walk entry;
  let seen := entries_seen st + 1 in
  _ ← bail_if (MAX_POLICY_TREE_ENTRIES <? seen)
        (PolicyParse ("policy store tree exceeds the limit of " +:+ pretty MAX_POLICY_TREE_ENTRIES
                      +:+ " entries") path);
  if is_policy_file path then
    let count := policy_count st + 1 in
    _ ← bail_if (MAX_POLICY_FILES <? count)
          (PolicyParse ("policy count exceeds the limit of " +:+ pretty MAX_POLICY_FILES) path);
    src ← read_bounded_text path MAX_POLICY_FILE_BYTES "policy";
    let total := total_bytes st + len src in
    _ ← bail_if (u64_max <? total) (PolicyParse "total policy source size overflow" path);
    _ ← bail_if (MAX_TOTAL_POLICY_BYTES <? total)
          (PolicyParse ("total policy source size exceeds the limit of "
                        +:+ pretty MAX_TOTAL_POLICY_BYTES +:+ " bytes") path);
    Ok (mkLoadState count total seen (sources st ++ [mkPolicySource path src]))
  else Ok (mkLoadState (policy_count st) (total_bytes st) seen (sources st)).

Fixpoint load_entries (st : load_state) (walk : list (result string string)) : cresult load_state :=
  match walk with
  | [] => Ok st
  | entry :: walk => st ← load_entry st entry; load_entries st walk
  end.

Fixpoint merge_sources (set : PolicySet) (srcs : list PolicySource) : cresult PolicySet :=
  match srcs with
  | [] => Ok set
  | src :: srcs =>
      file_set ← map_err (λ e, PolicyParse e (src_path src)) (policy_set_from_str (src_text src));
      set ← map_err (λ e, PolicyParse e (src_path src)) (policy_set_merge set file_set);
      merge_sources set srcs
  end.

(** [walk] is what [WalkDir::new(&dir)] yields. *)
Definition load_policies (s : PolicyStore) (walk : list (result string string)) :
    cresult (PolicySet * list PolicySource) :=
  if bool_decide (t !! policies_dir s = None) then Ok (policy_set_new, [])
  else
    st ← load_entries (mkLoadState 0 0 0 []) walk;
    let srcs := merge_sort source_le (sources st) in
    set ← merge_sources policy_set_new srcs;
    Ok (set, srcs).

Definition parse_schema (src : string) : cresult Schema := map_err CoreError.Schema (schema_from_str src).

Definition load_schema (s : PolicyStore) : cresult (option (Schema * string)) :=
  let p := schema_path s in
  if bool_decide (t !! p = None) then Ok None
  else
    text ← read_bounded_text p MAX_SCHEMA_BYTES "schema";
    schema ← map_err CoreError.Schema (schema_from_str text);
    Ok (Some (schema, text)).

Definition issue_of (sev : Severity) (e : string * string) : ValidationIssue := mkIssue e.1 sev e.2.

Definition validate (s : PolicyStore) (walk : list (result string string)) : cresult ValidationReport :=
  '(policies, srcs) ← load_policies s walk;
  schema ← load_schema s;
  let parse_errors :=
    omap (λ src, match policy_parse (src_path src) (src_text src) with
                 | Ok _ => None
                 | Err e => Some (mkIssue (src_path src) SevError e)
                 end) srcs in
  let '(errs, warns) :=
    match schema with
    | Some (sch, _) =>
        let '(es, ws) := validate_strict sch policies in
        (parse_errors ++ (issue_of SevError <$> es), issue_of SevWarning <$> ws)
    | None =>
        (parse_errors,
         [mkIssue "<store>" SevWarning "no schema present; skipping type validation"])
    end in
  Ok (mkReport (policy_set_len policies) errs warns).

(** [Authorizer::new] *)
Definition authorizer_new `{!Lru bytes (CachedDecision * Z)} (s : PolicyStore)
    (walk : list (result string string)) : cresult Authorizer :=
  '(policies, _) ← load_policies s walk;
  schema ← load_schema s;
  Ok (mkAuthorizer (fst <$> schema) policies None).
End load.

Definition authorizer_policy_count `{!Lru bytes (CachedDecision * Z)} (a : Authorizer) : Z :=
  policy_set_len (policy_set a).

(** ** Writing *)

Definition policy_store_open (root : string) (t : tree) (io : string → option string) :
    cresult PolicyStore * tree :=
  if bool_decide (t !! root = None) then
    let dir := join_path root "policies" in
    match io dir with
    | Some e => (Err (Io e), t)
    | None => (Ok (mkPolicyStore root), <[dir := Directory]> (<[root := Directory]> t))
    end
  else (Ok (mkPolicyStore root), t).

(** A character is kept when it is one of [A-Za-z0-9._-], and becomes ['_'] otherwise; the
    bytes after the first of a multi-byte character go with it. *)
Definition name_char (c : ascii) : bool :=
  let n := nat_of_ascii c in
  ((48 <=? n) && (n <=? 57) || (65 <=? n) && (n <=? 90) || (97 <=? n) && (n <=? 122)
   || (n =? 46) || (n =? 95) || (n =? 45))%nat.
Definition continuation (c : ascii) : bool :=
  let n := nat_of_ascii c in ((128 <=? n) && (n <=? 191))%nat.
Fixpoint sanitize (name : string) : string :=
  match name with
  | EmptyString => EmptyString
  | String c name =>
      if continuation c then sanitize name
      else String (if name_char c then c else "_"%char) (sanitize name)
  end.

(** [canon] is [std::fs::canonicalize]; [Path::starts_with] compares components. *)
Definition path_starts_with (p base : string) : bool :=
  bool_decide (take (length (split "/"%char base)) (split "/"%char p) = split "/"%char base).

Definition write_policy (s : PolicyStore) (name text : string) (t : tree)
    (canon : string → result string string) (io : string → option string) : cresult string * tree :=
  let safe := sanitize name in
  if bool_decide (safe = "") || starts_with "." safe then
    (Err (PolicyParse ("invalid policy name: " +:+ debug_str name) name), t)
  else
    let path := join_path (policies_dir s) (safe +:+ ".cedar") in
    let canonical_policies := default (policies_dir s) (to_ok (canon (policies_dir s))) in
    let escapes := match canon path with
                   | Ok c => negb (path_starts_with c canonical_policies)
                   | Err _ => false
                   end in
    if escapes then (Err (PolicyParse "policy path escapes policies dir" path), t)
    else
      match io (policies_dir s) with
      | Some e => (Err (Io e), t)
      | None =>
          let t := <[policies_dir s := Directory]> t in
          match io path with
          | Some e => (Err (Io e), t)
          | None => (Ok path, <[path := File text]> t)
          end
      end.

Definition write_schema (s : PolicyStore) (text : string) (t : tree) (io : string → option string) :
    cresult unit * tree :=
  match io (schema_path s) with
  | Some e => (Err (Io e), t)
  | None => (Ok tt, <[schema_path s := File text]> t)
  end.

(** ** Schema summaries *)

Inductive EntityKind : Type := KEntity | KAction.
Record AttrDef : Type := mkAttrDef { attr_name : string; attr_ty : string; attr_required : bool }.
Record EntityDef : Type := mkEntityDef {
  def_name : string; def_kind : EntityKind; def_attributes : list AttrDef;
}.
Record SchemaSummary : Type := mkSummary { sum_entities : list EntityDef; sum_actions : list EntityDef }.

Definition strip_suffix_quote (s : string) : option string :=
  str_rev <$> strip_prefix double_quote (str_rev s).

Definition action_def (raw : string) : EntityDef :=
  mkEntityDef (default raw (strip_prefix ("Action::" +:+ double_quote) raw ≫= strip_suffix_quote)) KAction [].
Definition entity_def (raw : string) : EntityDef := mkEntityDef raw KEntity [].

Definition build_summary (s : Schema) : SchemaSummary :=
  mkSummary (entity_def <$> schema_entity_types s) (action_def <$> schema_actions s).
Definition describe (src : string) : cresult SchemaSummary :=
  s ← parse_schema src; Ok (build_summary s).
End store.

(** ** Paths and their order *)

Section components_order.
Lemma components_leb_refl a : components_leb a a = true.
Proof. induction a; simpl; [done|]. by rewrite bool_decide_eq_true_2. Qed.

Lemma components_leb_total a b : components_leb a b = true ∨ components_leb b a = true.
Proof.
  revert b. induction a as [|x a IH]; intros [|y b]; simpl; auto.
  destruct (decide (x = y)) as [->|Hne].
  - rewrite !bool_decide_eq_true_2 by done. auto.
  - rewrite !bool_decide_eq_false_2 by congruence. apply (str_le_total x y).
Qed.

Lemma components_leb_trans a b c :
  components_leb a b = true → components_leb b c = true → components_leb a c = true.
Proof.
  revert b c. induction a as [|x a IH]; intros [|y b] [|z c]; simpl; try done.
  destruct (decide (x = y)) as [->|Hxy].
  - rewrite bool_decide_eq_true_2 by done. case_bool_decide; [|done]. apply IH.
  - rewrite bool_decide_eq_false_2 by done.
    destruct (decide (y = z)) as [->|Hyz].
    + rewrite bool_decide_eq_true_2, bool_decide_eq_false_2 by done. done.
    + rewrite (bool_decide_eq_false_2 (y = z)) by done. intros Hab Hbc.
      rewrite bool_decide_eq_false_2; [by eapply (str_le_trans x y z)|].
      intros ->. apply Hxy. by apply (str_le_antisym).
Qed.

Lemma components_leb_antisym a b :
  components_leb a b = true → components_leb b a = true → a = b.
Proof.
  revert b. induction a as [|x a IH]; intros [|y b]; simpl; try done.
  destruct (decide (x = y)) as [->|Hne].
  - rewrite !bool_decide_eq_true_2 by done. intros. f_equal. auto.
  - rewrite !bool_decide_eq_false_2 by congruence. intros Hab Hba. exfalso. apply Hne.
    by apply str_le_antisym.
Qed.
End components_order.

Lemma split_inj c s s' : split c s = split c s' → s = s'.
Proof. intros Hs. by rewrite <-(join_split c s), <-(join_split c s'), Hs. Qed.

#[export] Instance source_le_total : Total source_le.
Proof. intros a b. apply components_leb_total. Qed.
#[export] Instance source_le_trans : Transitive source_le.
Proof. intros a b c. apply components_leb_trans. Qed.

Lemma source_le_path a b : source_le a b → source_le b a → src_path a = src_path b.
Proof. intros Hab Hba. eapply split_inj. by apply components_leb_antisym. Qed.

(** Sorting sources with distinct paths forgets the order they came in. *)
Lemma sort_sources_perm l k :
  NoDup (src_path <$> l) → l ≡ₚ k → merge_sort source_le l = merge_sort source_le k.
Proof.
  intros Hnd Hp. apply (StronglySorted_unique_strong source_le).
  - intros x y Hx Hy Hxy Hyx. apply source_le_path in Hxy; [|done].
    rewrite merge_sort_Permutation in Hx, Hy. rewrite <-Hp in Hy.
    apply list_elem_of_lookup in Hx as [i Hi], Hy as [j Hj].
    assert (i = j) as ->; [|congruence].
    eapply (NoDup_lookup _ _ _ (src_path x) Hnd); rewrite list_lookup_fmap.
    + by rewrite Hi.
    + rewrite Hj. simpl. by rewrite Hxy.
  - apply StronglySorted_merge_sort; apply _.
  - apply StronglySorted_merge_sort; apply _.
  - by rewrite !merge_sort_Permutation.
Qed.

(** ** What a load returns *)

Section loading.
Context `{CedarStore} (t : tree) (io : string → option string) (utf8_error : bytes → string).

Abbreviation entry_ := (load_entry t io utf8_error).
Abbreviation entries_ := (load_entries t io utf8_error).

(** The policy files of a walk, with their whole content. *)
Definition file_text (path : string) : string := match t !! path with Some (File c) => c | _ => "" end.
Definition source_of (path : string) : PolicySource := mkPolicySource path (file_text path).
Definition policy_files (paths : list string) : list PolicySource :=
  source_of <$> List.filter (is_policy_file t) paths.
Definition total_size (srcs : list PolicySource) : Z := foldr Z.add 0 (len ∘ src_text <$> srcs).

Lemma substring_length n s : String.length (String.substring 0 n s) = (n `min` String.length s)%nat.
Proof. revert n. induction s as [|c s IH]; intros [|n]; simpl; auto. Qed.

Lemma read_bounded_Ok path max label src :
  0 ≤ max → read_bounded_text t io utf8_error path max label = Ok src →
  src = file_text path ∧ len src ≤ max ∧ io path = None ∧ utf8_valid src = true.
Proof.
  unfold read_bounded_text, read_file, file_text. intros Hmax.
  destruct (io path); [done|]. destruct (t !! path) as [[c| |]|]; try done.
  intros (x & [= <-] & (u & Hu & (u' & Hu' & [= <-])%bind_Ok)%bind_Ok)%bind_Ok.
  apply bail_if_Ok in Hu, Hu'. bool_inv. unfold len in *. rewrite substring_length in *.
  rewrite substring_short by lia. rewrite substring_short in Hu' by lia. split_and!; [done|lia|done|done].
Qed.

Lemma read_bounded_of path max label :
  0 ≤ max → is_policy_file t path = true → len (file_text path) ≤ max → io path = None →
  utf8_valid (file_text path) = true →
  read_bounded_text t io utf8_error path max label = Ok (file_text path).
Proof.
  unfold read_bounded_text, read_file, file_text, is_policy_file. intros Hmax.
  destruct (t !! path) as [[c| |]|]; try done. intros _ Hlen Hio Hu. rewrite Hio. simpl.
  unfold len in *. rewrite substring_short by lia.
  rewrite (bail_if_pass (max <? _)) by (apply Z.ltb_ge; lia). simpl. by rewrite Hu.
Qed.

(** The paths of a walk that met no error. *)
Definition walked (paths : list string) : list (result string string) := Ok <$> paths.

(** When a walk can be loaded. *)
Record loadable (paths : list string) : Prop := {
  lo_entries : Z.of_nat (length paths) ≤ MAX_POLICY_TREE_ENTRIES;
  lo_files : Z.of_nat (length (policy_files paths)) ≤ MAX_POLICY_FILES;
  lo_total : total_size (policy_files paths) ≤ MAX_TOTAL_POLICY_BYTES;
  lo_each : Forall (λ s, len (src_text s) ≤ MAX_POLICY_FILE_BYTES ∧ io (src_path s) = None ∧
                         utf8_valid (src_text s) = true) (policy_files paths);
}.

Definition state_of (paths : list string) : load_state :=
  mkLoadState (Z.of_nat (length (policy_files paths))) (total_size (policy_files paths))
    (Z.of_nat (length paths)) (policy_files paths).

Lemma policy_files_snoc paths path :
  policy_files (paths ++ [path]) =
  policy_files paths ++ (if is_policy_file t path then [source_of path] else []).
Proof.
  unfold policy_files. rewrite List.filter_app, fmap_app. f_equal. simpl.
  by destruct (is_policy_file t path).
Qed.

Lemma total_size_snoc l s : total_size (l ++ [s]) = total_size l + len (src_text s).
Proof.
  unfold total_size. rewrite fmap_app, foldr_app. simpl.
  induction (len ∘ src_text <$> l) as [|x k IH]; simpl; lia.
Qed.

Lemma total_size_nonneg l : 0 ≤ total_size l.
Proof.
  induction l as [|s l IH]; [done|].
  change (total_size (s :: l)) with (len (src_text s) + total_size l). unfold len. lia.
Qed.

(** One entry extends a loadable walk to a loadable one, or fails. *)
Lemma load_entry_spec paths entry st :
  loadable paths →
  entry_ (state_of paths) entry = Ok st ↔
  ∃ path, entry = Ok path ∧ st = state_of (paths ++ [path]) ∧ loadable (paths ++ [path]).
Proof.
  intros [He Hf Ht Hall]. unfold load_entry. split.
  - intros (path & Hp & (u & Hu & Hst)%bind_Ok)%bind_Ok. apply map_err_Ok in Hp as ->.
    apply bail_if_Ok in Hu. cbn [entries_seen state_of] in *. exists path. split; [done|].
    assert (He' : Z.of_nat (length (paths ++ [path])) = Z.of_nat (length paths) + 1)
      by (rewrite length_app; simpl; lia).
    assert (Hle : Z.of_nat (length (paths ++ [path])) ≤ MAX_POLICY_TREE_ENTRIES) by (bool_inv; lia).
    unfold state_of. rewrite policy_files_snoc, He'. pose proof (policy_files_snoc paths path) as Hsnoc.
    destruct (is_policy_file t path) eqn:Hfile.
    + apply bind_Ok in Hst as (u1 & Hb1 & (src & Hb2 & (u3 & Hb3 & (u4 & Hb4 & [= <-])%bind_Ok)%bind_Ok)%bind_Ok).
      apply bail_if_Ok in Hb1, Hb3, Hb4. apply read_bounded_Ok in Hb2 as (-> & Hlen & Hio & Hutf); [|done].
      cbn [policy_count total_bytes sources state_of] in *. bool_inv.
      rewrite total_size_snoc, length_app. simpl.
      split; [f_equal; lia|]. split; rewrite ?Hsnoc, ?length_app, ?total_size_snoc; simpl; try lia.
      apply Forall_app. split; [done|]. by repeat constructor.
    + injection Hst as <-. rewrite app_nil_r in *. split; [done|]. by split; rewrite ?Hsnoc.
  - intros (path & -> & -> & [He' Hf' Ht' Hall']). cbn [map_err mbind result_bind].
    pose proof (policy_files_snoc paths path) as Hsnoc. rewrite length_app in He'. simpl in He'.
    cbn [entries_seen state_of].
    rewrite (bail_if_pass (MAX_POLICY_TREE_ENTRIES <? _)) by (apply Z.ltb_ge; lia). cbn [mbind result_bind].
    unfold state_of. rewrite Hsnoc, length_app. destruct (is_policy_file t path) eqn:Hfile.
    + rewrite Hsnoc, length_app in Hf'. rewrite Hsnoc, total_size_snoc in Ht'. simpl in Hf', Ht'.
      rewrite Hsnoc, Forall_app in Hall'. destruct Hall' as [_ (Hlen & Hio & Hutf)%Forall_singleton].
      pose proof (total_size_nonneg (policy_files paths)).
      simpl. rewrite (bail_if_pass (MAX_POLICY_FILES <? _)) by (apply Z.ltb_ge; lia). simpl.
      rewrite read_bounded_of by done. simpl.
      rewrite (bail_if_pass (u64_max <? _)) by (apply Z.ltb_ge; unfold_ints; unfold MAX_TOTAL_POLICY_BYTES in *; lia). simpl.
      rewrite (bail_if_pass (MAX_TOTAL_POLICY_BYTES <? _)) by (apply Z.ltb_ge; lia). simpl.
      rewrite total_size_snoc, length_app. simpl. do 2 f_equal; lia.
    + rewrite !app_nil_r. simpl. f_equal. f_equal; rewrite ?length_app; simpl; lia.
Qed.

Lemma loadable_nil : loadable [].
Proof. by split. Qed.

Lemma load_entries_spec paths walk st :
  loadable paths →
  entries_ (state_of paths) walk = Ok st ↔
  ∃ more, walk = walked more ∧ st = state_of (paths ++ more) ∧ loadable (paths ++ more).
Proof.
  revert paths. induction walk as [|entry walk IH]; intros paths Hl.
  - simpl. split.
    + intros [= <-]. exists []. by rewrite app_nil_r.
    + intros ([|x more] & Hw & -> & _); [by rewrite app_nil_r|done].
  - simpl. rewrite bind_Ok. split.
    + intros (st1 & (path & -> & -> & Hl1)%load_entry_spec & Hrest); [|done].
      apply IH in Hrest as (more & -> & -> & Hl2); [|done]. exists (path :: more).
      rewrite <-app_assoc in *. done.
    + intros ([|path more] & Hw & -> & Hl2); [done|]. injection Hw as -> ->.
      replace (paths ++ path :: more) with ((paths ++ [path]) ++ more) in * by (by rewrite <-app_assoc).
      assert (Hl1 : loadable (paths ++ [path])).
      { destruct Hl2 as [He Hf Ht Ha].
        assert (Hsplit : policy_files ((paths ++ [path]) ++ more)
                         = policy_files (paths ++ [path]) ++ policy_files more).
        { unfold policy_files. by rewrite List.filter_app, fmap_app. }
        rewrite Hsplit in *. rewrite length_app in He, Hf. apply Forall_app in Ha as [Ha _].
        assert (total_size (policy_files (paths ++ [path]) ++ policy_files more)
                = total_size (policy_files (paths ++ [path])) + total_size (policy_files more)).
        { unfold total_size. rewrite fmap_app, foldr_app.
          induction (len ∘ src_text <$> policy_files (paths ++ [path])) as [|x k IHk]; simpl; lia. }
        pose proof (total_size_nonneg (policy_files more)). split; [lia|lia|lia|done]. }
      eexists. split; [by apply load_entry_spec; eauto|]. apply IH; [done|]. eauto.
Qed.


Lemma policy_files_perm paths paths' : paths ≡ₚ paths' → policy_files paths ≡ₚ policy_files paths'.
Proof.
  intros Hp. unfold policy_files. apply fmap_Permutation.
  induction Hp; simpl; repeat case_match; eauto using Permutation.
Qed.

Lemma total_size_perm l k : l ≡ₚ k → total_size l = total_size k.
Proof. unfold total_size. induction 1; cbn in *; lia. Qed.

Lemma loadable_perm paths paths' : paths ≡ₚ paths' → loadable paths → loadable paths'.
Proof.
  intros Hp [He Hf Ht Ha]. pose proof (policy_files_perm _ _ Hp) as Hpf. split.
  - by rewrite <-Hp.
  - by rewrite <-Hpf.
  - by rewrite <-(total_size_perm _ _ Hpf).
  - by rewrite <-Hpf.
Qed.

(** The order in which the directory is walked does not matter: a load that succeeds
    succeeds in any other order, with the same policies in the same order. *)
Theorem load_order_independent s paths paths' r :
  NoDup paths → paths ≡ₚ paths' →
  load_policies t io utf8_error s (walked paths) = Ok r →
  load_policies t io utf8_error s (walked paths') = Ok r.
Proof.
  intros Hnd Hp. unfold load_policies. case_bool_decide as Hdir; [done|]. rewrite !bind_Ok.
  intros (st & (paths1 & Hw & -> & Hl)%(load_entries_spec []) & Hrest); [|apply loadable_nil].
  assert (paths1 = paths) as ->.
  { unfold walked in Hw. clear -Hw. revert paths1 Hw.
    induction paths as [|x l IH]; intros [|y k]; simpl; try done. intros [= -> ?]. f_equal. auto. }
  exists (state_of paths'). split.
  { apply (load_entries_spec []); [apply loadable_nil|]. exists paths'. eauto using loadable_perm. }
  cbn [sources state_of app] in *.
  rewrite (sort_sources_perm (policy_files paths') (policy_files paths)); [done| |].
  - unfold policy_files. rewrite <-list_fmap_compose.
    assert (src_path ∘ source_of = (λ p : string, p)) as -> by done. rewrite list_fmap_id.
    apply NoDup_ListNoDup, List.NoDup_filter, NoDup_ListNoDup. by rewrite <-Hp.
  - by apply policy_files_perm.
Qed.
End loading.

(** ** Writing *)

Lemma split_separator c u v : split c (u +:+ String c v) = split c u ++ split c v.
Proof.
  induction u as [|d u IH]; simpl.
  - by rewrite bool_decide_eq_true_2.
  - rewrite IH. case_bool_decide; [done|].
    destruct (split c u) as [|p ps] eqn:Hs; [by apply split_nonempty in Hs|done].
Qed.

Lemma sanitize_chars name :
  forallb name_char (String.list_ascii_of_string (sanitize name)) = true.
Proof.
  induction name as [|c name IH]; [done|]. simpl. destruct (continuation c); [done|]. simpl.
  rewrite IH. destruct (name_char c) eqn:Hc; [by rewrite Hc|done].
Qed.

Lemma chars_no_slash s :
  forallb name_char (String.list_ascii_of_string s) = true → str_contains "/" s = false.
Proof.
  induction s as [|c s IH]; [done|]. cbn [String.list_ascii_of_string forallb str_contains].
  rewrite andb_true_iff. intros [Hc Hs]. rewrite IH by done. rewrite orb_false_r.
  apply bool_decide_eq_false. intros <-. done.
Qed.

Lemma cedar_extension safe : safe ≠ "" → extension (safe +:+ ".cedar") = Some "cedar".
Proof.
  intros Hne. unfold extension, rsplit_dot. rewrite str_rev_app.
  assert (Hs : split_once "." (str_rev ".cedar" +:+ str_rev safe) = Some ("radec", str_rev safe))
    by reflexivity.
  rewrite Hs. rewrite bool_decide_eq_false_2; [done|]. intros Hr.
  apply Hne. by rewrite <-(str_rev_involutive safe), Hr.
Qed.

Section writing.
Context `{CedarStore}.

(** [write_policy] stays inside the policies directory: the file it writes is one path
    component under it, made of [A-Za-z0-9._-], not hidden, with the extension that the
    loader looks for; the text is stored as given and no other file changes. *)
Theorem write_policy_contained s name text t canon io path t' :
  write_policy s name text t canon io = (Ok path, t') →
  ∃ safe, split "/"%char path = split "/"%char (policies_dir s) ++ [safe +:+ ".cedar"] ∧
    safe ≠ "" ∧ starts_with "." safe = false ∧
    forallb name_char (String.list_ascii_of_string safe) = true ∧
    file_text t' path = text ∧ is_policy_file t' path = true ∧
    ∀ q, q ≠ path → q ≠ policies_dir s → t' !! q = t !! q.
Proof.
  unfold write_policy.
  destruct (bool_decide (sanitize name = "") || starts_with "." (sanitize name)) eqn:Hbad; [done|].
  destruct (match canon _ with Ok c => _ | Err _ => _ end); [done|].
  destruct (io (policies_dir s)); [done|]. destruct (io (join_path _ _)); [done|].
  intros [= <- <-]. apply orb_false_iff in Hbad as [Hne Hdot]. apply bool_decide_eq_false in Hne.
  exists (sanitize name).
  assert (Hslash : str_contains "/" (sanitize name +:+ ".cedar") = false).
  { rewrite str_contains_app, chars_no_slash by apply sanitize_chars. done. }
  assert (Hsplit : split "/"%char (join_path (policies_dir s) (sanitize name +:+ ".cedar"))
                   = split "/"%char (policies_dir s) ++ [sanitize name +:+ ".cedar"]).
  { unfold join_path at 1.
    change (policies_dir s +:+ "/" +:+ sanitize name +:+ ".cedar")
      with (policies_dir s +:+ String "/" (sanitize name +:+ ".cedar")).
    by rewrite split_separator, (split_none _ (_ +:+ _)). }
  split_and!; try done.
  - apply sanitize_chars.
  - unfold file_text. by rewrite lookup_insert_eq.
  - unfold is_policy_file. rewrite lookup_insert_eq. apply bool_decide_eq_true.
    unfold path_extension, file_name. rewrite Hsplit, last_snoc. cbn [from_option id].
    by apply cedar_extension.
  - intros q Hq Hd. by rewrite !lookup_insert_ne.
Qed.

(** [validate] parses each file as one policy, so it reports as errors what the loader, and
    with it the authorizer, accepts: a file with several policies. *)
Lemma validate_rejects_loadable t io utf8_error s walk set src e `{!Lru bytes (CachedDecision * Z)} :
  load_policies t io utf8_error s walk = Ok (set, [src]) → t !! schema_path s = None →
  policy_parse (src_path src) (src_text src) = Err e →
  is_ok (authorizer_new t io utf8_error s walk) = true ∧
  ∃ r, validate t io utf8_error s walk = Ok r ∧ report_is_ok r = false.
Proof.
  intros Hl Hs He. unfold authorizer_new, validate, load_schema. rewrite Hl. simpl.
  rewrite bool_decide_eq_true_2 by done. simpl. split; [done|]. rewrite He. by eexists.
Qed.
End writing.
