(* ===== verification/AuthZen.v ===== *)
(** * The AuthZEN server ([agentguard-server/src/authzen.rs], [audit.rs])

    Requests of callers become [AgentRequest]s bound to their identity; a bounded number of
    them at a time is decided by a pinned policy snapshot and written to the audit port
    before the decision is returned.  Snapshots are shared objects with a cache inside, so
    they live in a store and requests hold their numbers.  Panics of worker tasks, clock
    readings, deadlines and uuids are arguments. *)

From S2P Require Import Prelude Json CoreError Crypto Trace Request DecisionRecord Canonical AuditLog Cache Engine ApiKey Text Semaphore AuthLayer Metrics PolicyStore.

Definition MAX_CONCURRENT_PDP_WORK_ITEMS : nat := 4.
Definition MAX_BATCH_EVALUATIONS : Z := 100.

(** ** Requests and responses *)

Record EntityRef : Type := mkEntityRef { ref_type : string; ref_id : string }.

Record EvaluationRequest : Type := mkEvaluationRequest {
  ev_subject : EntityRef;
  ev_action : EntityRef;
  ev_resource : EntityRef;
  ev_context : Value;
  ev_entities : list Value;
}.

Record EvaluationResponse : Type := mkEvaluationResponse {
  decision : bool;
  response_context : option Value;
  reason : option string;
}.

Inductive EvaluationSemantics : Type := ExecuteAll | DenyOnFirstDeny | PermitOnFirstPermit.

Record BatchEvaluationRequest : Type := mkBatchRequest {
  evaluations_of : list EvaluationRequest;
  evaluation_semantics : option EvaluationSemantics;
  batch_subject : option EntityRef;
  batch_resource : option EntityRef;
}.

Inductive Body : Type :=
| Text (s : string)
| One (r : EvaluationResponse)
| Batch (rs : list EvaluationResponse).
Record Response : Type := mkResponse { status : Z; body : Body }.

Inductive PdpWorkError : Type :=
| Saturated
| Join
| PdpEntities (e : string)
| PdpAuthorize (e : Error)
| PdpAudit (e : Error).

Inductive EvaluationMappingError : Type := IdentityMismatch | InvalidRequest (e : string).

(** ** From an AuthZEN request to an [AgentRequest] *)

(** [Map::remove] of an order-preserving map: the last entry takes the place. *)
Fixpoint swap_in {A} (k : string) (filler : string * A) (m : list (string * A)) : list (string * A) :=
  match m with
  | [] => []
  | (j, v) :: m => if bool_decide (j = k) then filler :: m else (j, v) :: swap_in k filler m
  end.
Definition swap_remove {A} (k : string) (m : list (string * A)) : list (string * A) :=
  match assoc k m, last m with
  | Some _, Some (j, v) =>
      let rest := take (length m - 1) m in
      if bool_decide (j = k) then rest else swap_in k (j, v) rest
  | _, _ => m
  end.

Definition add_context (c : AgentContext) (kv : string * Value) : AgentContext :=
  let '(k, v) := kv in
  if bool_decide (k = "session") then
    match v with
    | VObject session_map => fold_left (λ c skv, with_session c skv.1 skv.2) session_map c
    | _ => c
    end
  else with_arg c k v.

Definition evaluation_action (id : string) : AgentAction :=
  let id := default id (strip_prefix "ToolCall::" id) in
  match split_once "::" id with
  | Some (tool, op) => tool_op tool op
  | None => action_tool id
  end.

Definition evaluation_request_to_agent (req : EvaluationRequest) (uuid : string) :
    result string AgentRequest :=
  let ty := ref_type (ev_subject req) in
  principal ← (if bool_decide (ty = "User") then Ok (user (ref_id (ev_subject req)))
               else if bool_decide (ty = "Agent") then Ok (agent (ref_id (ev_subject req)))
               else Err ("unsupported subject type " +:+ debug_str ty +:+ ": expected User or Agent"));
  let action := evaluation_action (ref_id (ev_action req)) in
  let resource := resource_new (ref_type (ev_resource req)) (ref_id (ev_resource req)) in
  let context := match ev_context req with
                 | VObject map => fold_left add_context map context_new
                 | _ => context_new
                 end in
  Ok (request_new principal action resource context uuid).

Definition set_ev_context (req : EvaluationRequest) (c : Value) : EvaluationRequest :=
  mkEvaluationRequest (ev_subject req) (ev_action req) (ev_resource req) c (ev_entities req).

(** The tenant a caller is bound to, after the checks on its identity. *)
Definition check_caller (req : EvaluationRequest) (caller : AuthenticatedIdentity) :
    result EvaluationMappingError (EvaluationRequest * option string) :=
  let identity := bound caller in
  _ ← bail_if (negb (can_act_as caller)
               && (bool_decide (ref_type (ev_subject req) ≠ ApiKey.subject_type identity)
                   || bool_decide (ref_id (ev_subject req) ≠ subject_id identity))) IdentityMismatch;
  supplied ← (match get (ev_context req) "tenant_id" with
              | None => Ok None
              | Some value => tenant ← ok_or (as_str value) IdentityMismatch; Ok (Some tenant)
              end);
  _ ← bail_if (match supplied with
               | Some tenant => bool_decide (Some tenant ≠ key_tenant identity)
               | None => false
               end) IdentityMismatch;
  let context := match ev_context req with
                 | VObject m => VObject (swap_remove "tenant_id" m)
                 | v => v
                 end in
  Ok (set_ev_context req context, key_tenant identity).

Definition bind_tenant (mapped : AgentRequest) (tenant : option string) : AgentRequest :=
  match tenant with Some tenant => with_tenant_id mapped tenant | None => mapped end.

Definition evaluation_request_for_caller (req : EvaluationRequest)
    (caller : option AuthenticatedIdentity) (uuid : string) :
    result EvaluationMappingError AgentRequest :=
  '(req, tenant) ← (match caller with
                    | Some caller => check_caller req caller
                    | None => Ok (req, None)
                    end);
  mapped ← map_err InvalidRequest (evaluation_request_to_agent req uuid);
  Ok (bind_tenant mapped tenant).

Definition authenticated_actor (caller : option AuthenticatedIdentity) : option AuthenticatedActor :=
  (λ c, mkActor (ApiKey.subject_type (bound c)) (subject_id (bound c)) (key_tenant (bound c))
          (credential_id c) (can_act_as c)) <$> caller.

(** Stable codes for logs. *)
Definition summarize_authorize_error (e : Error) : string * string :=
  match e with
  | Io _ => ("io", "io error")
  | CoreError.Json _ => ("json", "json error")
  | CoreError.Schema _ => ("schema", "schema error")
  | InvalidPrincipal _ => ("invalid_principal", "invalid principal")
  | InvalidResource _ => ("invalid_resource", "invalid resource")
  | InvalidContext _ => ("invalid_context", "invalid context")
  | PolicyParse _ _ => ("policy_parse", "policy parse error")
  | Validation _ => ("validation", "policy validation failed")
  | EntitiesError _ => ("entities", "entities build failed")
  | Walk _ => ("walk", "policy walk failed")
  | Other _ => ("other", "internal error")
  | InvalidToken _ => ("invalid_token", "invalid delegation token")
  | TokenExpired _ => ("token_expired", "delegation token expired")
  | TokenRevoked _ => ("token_revoked", "delegation token revoked")
  | TokenSignature _ => ("token_signature", "delegation signature invalid")
  | TokenNotYetValid _ => ("token_not_yet_valid", "delegation token not yet valid")
  end.

(** ** The audit port *)

(** [AuditAppender]: [S] is the adapter with its storage, [E] what an append draws (ids,
    times). *)
Class AuditAppender (S E : Type) := {
  append_decision : Decision → E → S → cresult unit * S;
  adapter_is_healthy : S → bool;
  adapter_is_chained : S → bool;
}.
(** [AsyncAuditAppender]: [None] is a call that is cancelled at its deadline, with
    whatever it did to the storage by then. *)
Class AsyncAuditAppender (S E : Type) := {
  append_decision_async : Decision → E → S → option (cresult unit) * S;
  is_healthy_async : S → E → option bool;
  is_chained_async : S → E → option bool;
}.

Inductive AuditWriter (S T : Type) : Type := Sync (adapter : S) | Async (adapter : T).
Arguments Sync {S T} adapter.
Arguments Async {S T} adapter.

(** What a decision needs of its port: an append that returns [Ok] has made the decision
    durable, and nothing a port does loses a durable decision. *)
Class AppenderLaws {S E} `{AuditAppender S E} := {
  appender_ok : S → Prop;
  durable : S → Decision → Prop;
  append_keeps_ok d e s : appender_ok s → appender_ok (append_decision d e s).2;
  append_makes_durable d e s :
    appender_ok s → (append_decision d e s).1 = Ok tt → durable (append_decision d e s).2 d;
  durable_stable d d' e s : appender_ok s → durable s d' → durable (append_decision d e s).2 d';
}.
Class AsyncAppenderLaws {S E} `{AsyncAuditAppender S E} := {
  async_ok : S → Prop;
  async_durable : S → Decision → Prop;
  async_keeps_ok d e s : async_ok s → async_ok (append_decision_async d e s).2;
  async_makes_durable d e s :
    async_ok s → (append_decision_async d e s).1 = Some (Ok tt) →
    async_durable (append_decision_async d e s).2 d;
  async_durable_stable d d' e s :
    async_ok s → async_durable s d' → async_durable (append_decision_async d e s).2 d';
}.

(** ** Policy snapshots *)

(** [Entity::from_json_str] and [Entities::from_entities] *)
Class CedarBuild `{CedarEntities} := {
  Entity : Type;
  entity_from_json_str : bytes → result string Entity;
  entities_from_entities : list Entity → result string Entities;
}.

Section server.
Context `{CedarStore, !CedarBuild, !JsonText, !JsonScalars, !Hex, !Sha256}.
Context `{!Lru bytes (CachedDecision * Z), !F64, !Semaphore, !Argon2, !Base64, !ApiKeyCodec}.
Context {S E T : Type} `{!AuditAppender S E, !AsyncAuditAppender T E}.

Definition build_entities (items : list Value) : cresult Entities :=
  ents ← try_map (λ v, map_err EntitiesError (entity_from_json_str (json_to_vec v))) items;
  map_err EntitiesError (entities_from_entities ents).

Definition build_request_entities (items : list Value) : result string Entities :=
  map_err (λ e, "entities: " +:+ error_display e) (build_entities items).

(** The snapshots that requests may still hold, and the one that is served. *)
Record AuthorizerHandle : Type := mkHandle {
  snapshots : gmap nat Authorizer;
  current : nat;
  handle_root : string;
  handle_cache : option CacheConfig;
}.

(** What a load reads: the file system, and the clock and the randomness of a new cache. *)
Record load_env : Type := mkLoadEnv {
  le_tree : tree;
  le_io : string → option string;
  le_utf8 : bytes → string;
  le_walk : list (result string string);
  le_now : Z;
  le_now' : Z;
  le_range : Z;
}.

Definition handle_load (root : string) (cache : option CacheConfig) (e : load_env) :
    result string Authorizer * tree :=
  let '(opened, t) := policy_store_open root (le_tree e) (le_io e) in
  (store ← map_err (λ e, "open store: " +:+ error_display e) opened;
   a ← map_err (λ e, "authorizer: " +:+ error_display e)
         (authorizer_new t (le_io e) (le_utf8 e) store (le_walk e));
   match cache with
   | Some cfg =>
       map_err (λ error, "decision cache configuration: " +:+ error)
         (try_with_cache a cfg (le_now e) (le_now' e) (le_range e))
   | None => Ok a
   end, t).

Definition handle_new (root : string) (cache : option CacheConfig) (e : load_env) :
    result string AuthorizerHandle :=
  a ← (handle_load root cache e).1; Ok (mkHandle {[O := a]} O root cache).

Definition snapshot (h : AuthorizerHandle) : nat := current h.

(** A failed load leaves the handle as it is; the others keep the snapshots they hold. *)
Definition handle_reload (h : AuthorizerHandle) (e : load_env) : result string unit * AuthorizerHandle :=
  match (handle_load (handle_root h) (handle_cache h) e).1 with
  | Err error => (Err error, h)
  | Ok replacement =>
      let i := fresh (dom (snapshots h)) in
      (Ok tt, mkHandle (<[i := replacement]> (snapshots h)) i (handle_root h) (handle_cache h))
  end.

(** The snapshot numbered [i] after an operation on it. *)
Definition set_snapshot (h : AuthorizerHandle) (i : nat) (a : Authorizer) : AuthorizerHandle :=
  mkHandle (<[i := a]> (snapshots h)) (current h) (handle_root h) (handle_cache h).

Definition on_current {A} (h : AuthorizerHandle) (dflt : A) (f : Authorizer → A * Authorizer) :
    A * AuthorizerHandle :=
  match snapshots h !! current h with
  | Some a => let '(x, a) := f a in (x, set_snapshot h (current h) a)
  | None => (dflt, h)
  end.

Definition handle_policy_count (h : AuthorizerHandle) : Z :=
  match snapshots h !! current h with Some a => authorizer_policy_count a | None => 0 end.
Definition handle_invalidate_cache (h : AuthorizerHandle) : AuthorizerHandle :=
  (on_current h tt (λ a, (tt, invalidate_cache a))).2.
Definition handle_sweep_stale_cache (h : AuthorizerHandle) (now : Z) : Z * AuthorizerHandle :=
  on_current h 0 (λ a, sweep_stale_cache a now).

Definition handle_authorize (h : AuthorizerHandle) (req : AgentRequest) (ents : Entities) (now now' : Z) :
    cresult Decision * AuthorizerHandle :=
  on_current h (Err (Other "no snapshot")) (λ a, authorize a req ents now now').

(** ** The state of the server *)

Record AppState : Type := mkAppState {
  authorizer : AuthorizerHandle;
  audit_appender : option (AuditWriter S T);
  auth : AuthLayer;
  key_store : ApiKeyStore;
  auth_slots : semaphore;
  metrics : Metrics;
  pdp_work_slots : semaphore;
}.

Definition set_authorizer (st : AppState) h := mkAppState h (audit_appender st) (auth st)
  (key_store st) (auth_slots st) (metrics st) (pdp_work_slots st).
Definition set_audit (st : AppState) w := mkAppState (authorizer st) w (auth st)
  (key_store st) (auth_slots st) (metrics st) (pdp_work_slots st).
Definition set_auth_slots (st : AppState) s := mkAppState (authorizer st) (audit_appender st) (auth st)
  (key_store st) s (metrics st) (pdp_work_slots st).
Definition set_metrics (st : AppState) m := mkAppState (authorizer st) (audit_appender st) (auth st)
  (key_store st) (auth_slots st) m (pdp_work_slots st).
Definition set_pdp_slots (st : AppState) s := mkAppState (authorizer st) (audit_appender st) (auth st)
  (key_store st) (auth_slots st) (metrics st) s.

Definition with_audit_appender (st : AppState) (a : S) : AppState := set_audit st (Some (Sync a)).
Definition with_async_audit_appender (st : AppState) (a : T) : AppState := set_audit st (Some (Async a)).

(** [AppState::reload]: the [ReloadSink] of [server.rs]. *)
Definition app_reload (st : AppState) (e : load_env) : AppState :=
  match handle_reload (authorizer st) e with
  | (Ok _, h) => set_metrics (set_authorizer st h) (record_policy_reload (metrics st))
  | (Err _, h) => set_authorizer st h
  end.

(** ** PDP work *)

Definition report_pdp_work_failure (m : Metrics) (error : PdpWorkError) : (Z * string) * Metrics :=
  match error with
  | Saturated => ((503, "PDP capacity exhausted"), record_pdp_error m "pdp_overloaded")
  | Join => ((500, "authorization unavailable"), record_pdp_error m "pdp_worker")
  | PdpEntities _ => ((400, "invalid request entities"), record_pdp_error m "entities_build")
  | PdpAuthorize _ => ((500, "internal authorization error"), record_pdp_error m "authorize")
  | PdpAudit _ => ((500, "audit log unavailable"), record_pdp_error m "audit_append")
  end.

(** The decision with the caller in the request it is about. *)
Definition with_actor (d : Decision) (actor : option AuthenticatedActor) : Decision :=
  match actor, d_request d with
  | Some a, VObject request =>
      mkDecision (effect d) (policies d) (reasons d)
        (VObject (assoc_insert "authenticated_actor" (actor_to_value a) request)) (d_trace d)
        (from_cache d)
  | _, _ => d
  end.

(** One piece of PDP work, as the request hands it over. *)
Record pdp_job : Type := mkJob {
  job_snapshot : nat;
  job_request : AgentRequest;
  job_entities : list Value;
  job_actor : option AuthenticatedActor;
}.

(** The closure of the worker: [now] and [now'] are the clock readings of the cache. *)
Definition pdp_operation (a : Authorizer) (j : pdp_job) (now now' : Z) :
    result PdpWorkError Decision * Authorizer :=
  match build_request_entities (job_entities j) with
  | Err e => (Err (PdpEntities e), a)
  | Ok entities =>
      let '(r, a) := authorize a (job_request j) entities now now' in
      (match r with
       | Ok d => Ok (with_actor d (job_actor j))
       | Err e => Err (PdpAuthorize e)
       end, a)
  end.

(** The closure on the snapshot the job holds. *)
Definition evaluate_job (h : AuthorizerHandle) (j : pdp_job) (now now' : Z) :
    result PdpWorkError Decision * AuthorizerHandle :=
  match snapshots h !! job_snapshot j with
  | Some a => let '(r, a) := pdp_operation a j now now' in (r, set_snapshot h (job_snapshot j) a)
  | None => (Err Join, h)
  end.

(** The audit write. *)
Definition persist (w : option (AuditWriter S T)) (d : Decision) (e : E) :
    result PdpWorkError unit * option (AuditWriter S T) :=
  match w with
  | Some (Sync s) =>
      let '(r, s) := append_decision d e s in (map_err PdpAudit r, Some (Sync s))
  | Some (Async s) =>
      let '(r, s) := append_decision_async d e s in
      (match r with
       | None => Err (PdpAudit (Io "audit append timed out"))
       | Some r => map_err PdpAudit r
       end, Some (Async s))
  | None => (Ok tt, None)
  end.

(** What one call draws: the clock readings, the measured time, whether the worker or the
    audit task panics, and what the append draws. *)
Record pdp_env : Type := mkPdpEnv {
  pe_now : Z;
  pe_now' : Z;
  pe_elapsed : Z;
  pe_worker_panics : bool;
  pe_audit_panics : bool;
  pe_audit : E;
}.

(** The audit task of a synchronous port can panic, which is taken to happen before the port
    changes its storage; the asynchronous port and no port are awaited in place. *)
Definition persist_or_panic (w : option (AuditWriter S T)) (d : Decision) (e : pdp_env) :
    result PdpWorkError unit * option (AuditWriter S T) :=
  match w with
  | Some (Sync _) => if pe_audit_panics e then (Err Join, w) else persist w d (pe_audit e)
  | _ => persist w d (pe_audit e)
  end.

Definition authorize_and_persist_decision (st : AppState) (j : pdp_job) (e : pdp_env) :
    result PdpWorkError (Decision * Z) * AppState :=
  match try_acquire (pdp_work_slots st) with
  | None => (Err Saturated, st)
  | Some slots =>
      let st := set_pdp_slots st slots in
      if pe_worker_panics e then (Err Join, set_pdp_slots st (release slots))
      else
        let '(r, h) := evaluate_job (authorizer st) j (pe_now e) (pe_now' e) in
        let st := set_authorizer st h in
        match r with
        | Err error => (Err error, set_pdp_slots st (release slots))
        | Ok d =>
            let '(r, w) := persist_or_panic (audit_appender st) d e in
            let st := set_pdp_slots (set_audit st w) (release slots) in
            match r with
            | Ok _ => (Ok (d, pe_elapsed e), st)
            | Err error => (Err error, st)
            end
        end
  end.

(** ** Handlers *)

Definition mapping_response (e : EvaluationMappingError) : Response :=
  match e with
  | IdentityMismatch => mkResponse 403 (Text "request identity does not match credential")
  | InvalidRequest e => mkResponse 400 (Text e)
  end.

Definition effect_is_allow (d : Decision) : bool := bool_decide (effect d = Allow).
Definition response_of (d : Decision) : EvaluationResponse :=
  mkEvaluationResponse (effect_is_allow d) None (head (reasons d)).

(** The metrics of a single evaluation. *)
Definition record_evaluation (m : Metrics) (d : Decision) (action_label : string) (elapsed : Z) :
    Metrics :=
  let m := record_decision m (effect_display (effect d)) (default "none" (head (policies d)))
             action_label "" elapsed in
  if from_cache d then record_cache_hit m else record_cache_miss m.

Definition work_failure (st : AppState) (error : PdpWorkError) : Response * AppState :=
  let '((code, message), m) := report_pdp_work_failure (metrics st) error in
  (mkResponse code (Text message), set_metrics st m).

Definition evaluation (st : AppState) (caller : option AuthenticatedIdentity)
    (req : EvaluationRequest) (uuid : string) (e : pdp_env) : Response * AppState :=
  match evaluation_request_for_caller req caller uuid with
  | Err error => (mapping_response error, st)
  | Ok agent_req =>
      let job := mkJob (snapshot (authorizer st)) agent_req (ev_entities req)
                   (authenticated_actor caller) in
      match authorize_and_persist_decision st job e with
      | (Ok (d, elapsed), st) =>
          (mkResponse 200 (One (response_of d)),
           set_metrics st (record_evaluation (metrics st) d (action_display (action agent_req)) elapsed))
      | (Err error, st) => work_failure st error
      end
  end.

(** Whether a batch stops after this decision. *)
Definition stops (semantics : EvaluationSemantics) (allow : bool) : bool :=
  match semantics with
  | DenyOnFirstDeny => negb allow
  | PermitOnFirstPermit => allow
  | ExecuteAll => false
  end.

(** What an item of a batch draws: a uuid, an environment, and what the rest of the server
    does (other requests, reloads) while the loop awaits, before the item is evaluated. *)
Record item_draw : Type := mkItemDraw {
  it_uuid : string;
  it_env : pdp_env;
  it_others : AppState → AppState;
}.

(** The loop of a batch. *)
Fixpoint evaluate_items (st : AppState) (semantics : EvaluationSemantics) (snap : nat)
    (caller : option AuthenticatedIdentity) (items : list (EvaluationRequest * item_draw))
    (responses : list EvaluationResponse) : Response * AppState :=
  match items with
  | [] => (mkResponse 200 (Batch responses), st)
  | (er, mkItemDraw uuid e others) :: items =>
      match evaluation_request_for_caller er caller uuid with
      | Err error => (mapping_response error, st)
      | Ok agent_req =>
          let job := mkJob snap agent_req (ev_entities er) (authenticated_actor caller) in
          match authorize_and_persist_decision (others st) job e with
          | (Ok (d, _), st) =>
              let responses := responses ++ [response_of d] in
              if stops semantics (effect_is_allow d) then (mkResponse 200 (Batch responses), st)
              else evaluate_items st semantics snap caller items responses
          | (Err error, st) => work_failure st error
          end
      end
  end.

Definition evaluations (st : AppState) (caller : option AuthenticatedIdentity)
    (req : BatchEvaluationRequest) (draws : nat → item_draw) : Response * AppState :=
  let n := Z.of_nat (length (evaluations_of req)) in
  if MAX_BATCH_EVALUATIONS <? n then
    (mkResponse 413 (Text ("batch too large: " +:+ pretty n +:+ " > " +:+ pretty MAX_BATCH_EVALUATIONS
                           +:+ " max evaluations")), st)
  else
    evaluate_items st (default ExecuteAll (evaluation_semantics req)) (snapshot (authorizer st)) caller
      (imap (λ i er, (er, draws i)) (evaluations_of req)) [].

Definition readyz_unavailable (reason : string) : Response := mkResponse 503 (Text (ln reason)).

Definition readyz (st : AppState) (e e' : E) : Response :=
  if handle_policy_count (authorizer st) =? 0 then readyz_unavailable "policies not loaded"
  else
    match audit_appender st with
    | Some (Sync s) =>
        if negb (adapter_is_healthy s) then readyz_unavailable "audit log unavailable"
        else if adapter_is_chained s then mkResponse 200 (Text (ln "ok"))
        else readyz_unavailable "audit log not opened"
    | Some (Async s) =>
        if negb (default false (is_healthy_async s e)) then readyz_unavailable "audit log unavailable"
        else if negb (default false (is_chained_async s e')) then readyz_unavailable "audit log not opened"
        else mkResponse 200 (Text (ln "ok"))
    | None => readyz_unavailable "audit log not configured"
    end.

Definition healthz : string := ln "ok".

(** [router]: the authentication layer in front of the handlers.  The body extractor runs
    before a handler that takes a body; [parsed] is what it makes of it, or its own rejection. *)
Inductive Parsed : Type := PEvaluation (r : EvaluationRequest) | PBatch (r : BatchEvaluationRequest).

Record http_env : Type := mkHttpEnv {
  he_now : Z;
  he_panics : bool;
  he_draws : nat → item_draw;
  (** what the framework answers itself: no such route or method, a body of another shape,
      [HEAD] for [GET] *)
  he_fallback : Response;
  he_ready : E;
  he_ready' : E;
  he_iteration : ∀ m : Metrics, iteration m;
}.

Definition dispatch (st : AppState) (caller : option AuthenticatedIdentity) (method path : string)
    (parsed : result Response Parsed) (he : http_env) : Response * AppState :=
  if bool_decide (path = "/access/v1/evaluation") then
    if bool_decide (method = "POST") then
      match parsed with
      | Err r => (r, st)
      | Ok (PEvaluation req) => evaluation st caller req (it_uuid (he_draws he O)) (it_env (he_draws he O))
      | Ok _ => (he_fallback he, st)
      end
    else (he_fallback he, st)
  else if bool_decide (path = "/access/v1/evaluations") then
    if bool_decide (method = "POST") then
      match parsed with
      | Err r => (r, st)
      | Ok (PBatch req) => evaluations st caller req (he_draws he)
      | Ok _ => (he_fallback he, st)
      end
    else (he_fallback he, st)
  else if negb (bool_decide (method = "GET")) then (he_fallback he, st)
  else if bool_decide (path = "/healthz") then (mkResponse 200 (Text healthz), st)
  else if bool_decide (path = "/readyz") then (readyz st (he_ready he) (he_ready' he), st)
  else if bool_decide (path = "/metrics") then
    (mkResponse 200 (Text (render_prometheus (metrics st) (he_iteration he (metrics st)))), st)
  else (he_fallback he, st).

Definition router (st : AppState) (method path : string) (authorization : option string)
    (parsed : result Response Parsed) (he : http_env) : Response * AppState :=
  let '(g, slots) := auth_layer_fn (auth st) (key_store st) method path authorization (he_now he)
                       (he_panics he) (auth_slots st) in
  let st := set_auth_slots st slots in
  match g with
  | Respond status body => (mkResponse status (Text body), st)
  | Next caller => dispatch st caller method path parsed he
  end.
End server.
