(* ===== verification/Pdp.v ===== *)
(** * The server keeps its promises

    Theorems on [AuthZen]: what a caller's request becomes, that no decision is returned
    before it is durable in the audit port, that work is bounded and always ends, and what a
    batch answers.  Concurrent requests are interleaved by [pdp_step], whose steps are the
    pieces that [authorize_and_persist_decision] runs in sequence. *)

From S2P Require Import Prelude Json CoreError Crypto Trace Request DecisionRecord Canonical AuditLog Cache Engine ApiKey Text Semaphore AuthLayer Metrics PolicyStore AuthZen.

(** ** Requests are bound to their caller *)

Lemma swap_in_keys {A} k (f : string * A) m :
  NoDup (keys m) → f.1 ≠ k → k ∉ keys (swap_in k f m).
Proof.
  intros Hnd Hf. induction m as [|[j v] m IH]; simpl; [apply not_elem_of_nil|].
  simpl in Hnd. apply NoDup_cons in Hnd as [Hj Hnd].
  case_bool_decide as Hk; simpl; apply not_elem_of_cons.
  - subst. split; [done|exact Hj].
  - split; [congruence|by apply IH].
Qed.

Lemma swap_remove_absent {A} k (m : list (string * A)) :
  NoDup (keys m) → k ∉ keys (swap_remove k m).
Proof.
  intros Hnd. unfold swap_remove. destruct (assoc k m) as [x|] eqn:Hk; [|by apply assoc_None].
  destruct m as [|z m _] using rev_ind; [done|]. rewrite last_snoc. destruct z as [j v].
  rewrite length_app. simpl. rewrite Nat.add_sub, take_app_length.
  unfold keys in Hnd. rewrite fmap_app in Hnd. apply NoDup_app in Hnd as (Hm & Hdis & _).
  case_bool_decide as Hj; [|by apply swap_in_keys].
  subst. intros Hin. apply (Hdis k Hin). apply list_elem_of_here.
Qed.

Definition args_of (c : AgentContext) : attrs_map := default [] (as_object (args c)).

Lemma args_with_session c m :
  args (fold_left (λ c skv, with_session c skv.1 skv.2) m c) = args c.
Proof. revert c. induction m as [|kv m IH]; intros c; simpl; [done|]. by rewrite IH. Qed.

Lemma add_context_args c kv k :
  kv.1 ≠ k → assoc k (args_of (add_context c kv)) = assoc k (args_of c).
Proof.
  destruct kv as [j v]. simpl. intros Hne. unfold add_context, args_of. case_bool_decide.
  - destruct v; try done. by rewrite args_with_session.
  - simpl. by rewrite assoc_insert_ne.
Qed.

Lemma fold_context_args c m k :
  k ∉ keys m → assoc k (args_of (fold_left add_context m c)) = assoc k (args_of c).
Proof.
  revert c. induction m as [|kv m IH]; intros c; simpl; [done|].
  intros [Hne Hin]%not_elem_of_cons. rewrite IH by done. by apply add_context_args.
Qed.

Lemma to_json_object_arg c k :
  k ≠ "session" → NoDup (keys (args_of c)) → assoc k (to_json_object c) = assoc k (args_of c).
Proof.
  intros Hk Hnd. unfold to_json_object.
  assert (Hm : assoc k match args c with VObject m => assoc_extend [] m | _ => [] end
               = assoc k (args_of c)).
  { unfold args_of in *. destruct (args c); try done. simpl in *.
    rewrite assoc_extend_lookup by done. by destruct (assoc k members). }
  destruct (session c); [done|]. by rewrite assoc_insert_ne.
Qed.

Lemma add_context_nodup c kv : NoDup (keys (args_of c)) → NoDup (keys (args_of (add_context c kv))).
Proof.
  destruct kv as [j v]. unfold add_context, args_of. case_bool_decide; intros Hnd.
  - destruct v; try done. by rewrite args_with_session.
  - simpl. by apply NoDup_assoc_insert.
Qed.

Lemma fold_context_nodup c m :
  NoDup (keys (args_of c)) → NoDup (keys (args_of (fold_left add_context m c))).
Proof. revert c. induction m as [|kv m IH]; intros c Hc; simpl; auto using add_context_nodup. Qed.

Lemma to_agent_inv req uuid r :
  evaluation_request_to_agent req uuid = Ok r →
  principal_type (principal r) = ref_type (ev_subject req) ∧
  principal_id (principal r) = ref_id (ev_subject req) ∧
  action r = evaluation_action (ref_id (ev_action req)) ∧
  resource r = resource_new (ref_type (ev_resource req)) (ref_id (ev_resource req)) ∧
  context r = match ev_context req with
              | VObject map => fold_left add_context map context_new
              | _ => context_new
              end ∧
  request_id r = Some uuid ∧ tenant_id r = None.
Proof.
  unfold evaluation_request_to_agent. intros (p & Hp & [= <-])%bind_Ok. split_and!; try done.
  - repeat case_bool_decide; by simplify_eq.
  - repeat case_bool_decide; by simplify_eq.
Qed.

(** The context of a mapped request, under any name that the caller did not supply. *)
Lemma mapped_context_absent m k :
  k ∉ keys m → k ≠ "session" → assoc k (to_json_object (fold_left add_context m context_new)) = None.
Proof.
  intros Hk Hs. rewrite to_json_object_arg; [|done|apply fold_context_nodup; constructor].
  by rewrite fold_context_args.
Qed.

Lemma bind_tenant_fields r t :
  tenant_id r = None →
  principal (bind_tenant r t) = principal r ∧ action (bind_tenant r t) = action r ∧
  resource (bind_tenant r t) = resource r ∧ context (bind_tenant r t) = context r ∧
  tenant_id (bind_tenant r t) = t ≫= trimmed_tenant.
Proof. by destruct t. Qed.

(** C6: what is evaluated for an authenticated caller.  The principal is the subject of the
    request, type and id, and that is the subject the credential is bound to, unless the
    credential may act for others; the tenant is the credential's, for those credentials too,
    and nothing the caller supplied (a supplied tenant must agree, and policies do not see
    it); action and resource are those of the request. *)
Theorem caller_binding req caller uuid r :
  wf_value (ev_context req) →
  evaluation_request_for_caller req (Some caller) uuid = Ok r →
  (can_act_as caller = false →
     principal_type (principal r) = ApiKey.subject_type (bound caller) ∧
     principal_id (principal r) = subject_id (bound caller)) ∧
  principal_type (principal r) = ref_type (ev_subject req) ∧
  principal_id (principal r) = ref_id (ev_subject req) ∧
  tenant_id r = key_tenant (bound caller) ≫= trimmed_tenant ∧
  (∀ v, get (ev_context req) "tenant_id" = Some v → VString <$> key_tenant (bound caller) = Some v) ∧
  assoc "tenant_id" (to_json_object (context r)) = None ∧
  action r = evaluation_action (ref_id (ev_action req)) ∧
  resource r = resource_new (ref_type (ev_resource req)) (ref_id (ev_resource req)).
Proof.
  intros Hwf. unfold evaluation_request_for_caller.
  intros ([req' tenant] & Hc & (mapped & Hm & [= <-])%bind_Ok)%bind_Ok. apply map_err_Ok in Hm.
  unfold check_caller in Hc.
  apply bind_Ok in Hc as (u & Hid & (supplied & Hsup & (u' & Hten & [= <- <-])%bind_Ok)%bind_Ok).
  apply bail_if_Ok in Hid, Hten. apply to_agent_inv in Hm as (Hpt & Hpi & Ha & Hr & Hctx & _ & Hno).
  simpl in Hpt, Hpi, Ha, Hr, Hctx.
  set (t := key_tenant (bound caller)) in *.
  destruct (bind_tenant_fields mapped t Hno) as (-> & -> & -> & -> & ->).
  split_and!; try done.
  - intros Hact. rewrite Hact in Hid. simpl in Hid. apply orb_false_iff in Hid as [H1 H2].
    apply bool_decide_eq_false in H1, H2. rewrite Hpt, Hpi. split; by apply dec_stable.
  - intros v Hv. rewrite Hv in Hsup. apply bind_Ok in Hsup as (x & Hx & [= <-]).
    apply ok_or_Ok in Hx. destruct v; simpl in Hx; try done. injection Hx as ->.
    apply bool_decide_eq_false in Hten. destruct t as [y|]; [|by exfalso; apply Hten].
    simpl. f_equal. f_equal. destruct (decide (y = x)); [done|]. exfalso. apply Hten. congruence.
  - rewrite Hctx. clear -Hwf. destruct (ev_context req) as [| | | | |m]; try done.
    apply wf_object in Hwf as [Hnd _]. apply mapped_context_absent; [|done].
    by apply swap_remove_absent.
Qed.

(** A policy enforcement point that sends the Cedar action id of an action gets that
    action evaluated, when the tool name leaves the separator unambiguous. *)
Theorem action_roundtrip a : clean_tool a = true → evaluation_action (action_id a) = a.
Proof.
  intros (body & Ha & Hsplit & Hbody)%action_id_split. unfold evaluation_action. rewrite Ha.
  assert (strip_prefix "ToolCall::" ("ToolCall::" +:+ body) = Some body) as -> by (by apply strip_prefix_Some).
  simpl. rewrite Hsplit. destruct a as [tool [op|]]; simpl in *; [done|]. by rewrite Hbody.
Qed.

(** The witness of [action_roundtrip]. *)
Example action_roundtrip_witness :
  evaluation_action "ToolCall::s3::Put" = tool_op "s3" "Put".
Proof. exact (action_roundtrip (tool_op "s3" "Put") eq_refl). Defined.

(** ** Concurrent PDP work *)

Section pdp.
Context `{CedarStore, !CedarBuild, !JsonText, !JsonScalars, !Hex, !Sha256}.
Context `{!Lru bytes (CachedDecision * Z), !F64, !Semaphore, !SemaphoreLaws}.
Context {S E T : Type} `{!AuditAppender S E, !AsyncAuditAppender T E}.

Abbreviation AppState_ := (@AppState _ _ _ _ _ S T).

Inductive phase : Type :=
| Evaluating (j : pdp_job)
| Persisting (j : pdp_job) (d : Decision).

(** The server with the requests that hold a permit, by number, and the outcomes so far. *)
Record server : Type := mkServer {
  app : AppState_;
  inflight : gmap nat phase;
  answered : list (nat * result PdpWorkError Decision);
}.

Definition answer (s : server) (st : AppState_) (i : nat) (r : result PdpWorkError Decision) : server :=
  mkServer (set_pdp_slots st (release (pdp_work_slots st))) (delete i (inflight s))
    ((i, r) :: answered s).

(** A step of the request numbered [i], which holds a permit. *)
Inductive work_step (s : server) : server → Prop :=
| ws_evaluated i j now now' d h :
    inflight s !! i = Some (Evaluating j) →
    evaluate_job (authorizer (app s)) j now now' = (Ok d, h) →
    work_step s (mkServer (set_authorizer (app s) h) (<[i := Persisting j d]> (inflight s)) (answered s))
| ws_failed i j now now' e h :
    inflight s !! i = Some (Evaluating j) →
    evaluate_job (authorizer (app s)) j now now' = (Err e, h) →
    work_step s (answer s (set_authorizer (app s) h) i (Err e))
| ws_persisted i j d e r w :
    inflight s !! i = Some (Persisting j d) →
    persist (audit_appender (app s)) d e = (r, w) →
    work_step s (answer s (set_audit (app s) w) i ((λ _, d) <$> r))
| ws_panicked i ph :
    inflight s !! i = Some ph → work_step s (answer s (app s) i (Err Join)).

(** All steps of a running server: requests arrive and are refused or admitted, work goes
    on, and policies are reloaded. *)
Inductive pdp_step (s : server) : server → Prop :=
| ps_refused i :
    inflight s !! i = None → try_acquire (pdp_work_slots (app s)) = None →
    pdp_step s (mkServer (app s) (inflight s) ((i, Err Saturated) :: answered s))
| ps_admitted i j slots :
    inflight s !! i = None → try_acquire (pdp_work_slots (app s)) = Some slots →
    pdp_step s (mkServer (set_pdp_slots (app s) slots) (<[i := Evaluating j]> (inflight s)) (answered s))
| ps_work s' : work_step s s' → pdp_step s s'
| ps_reload e : pdp_step s (mkServer (app_reload (app s) e) (inflight s) (answered s)).

(** ** The handler is a run of these steps *)

Lemma persist_or_panic_step s i j d e r w :
  inflight s !! i = Some (Persisting j d) →
  persist_or_panic (audit_appender (app s)) d e = (r, w) →
  work_step s (answer s (set_audit (app s) w) i ((λ _, d) <$> r)).
Proof.
  intros Hi Hp. unfold persist_or_panic in Hp.
  destruct (audit_appender (app s)) as [[a|a]|] eqn:Ha; [destruct (pe_audit_panics e)| |].
  - injection Hp as <- <-.
    assert (Hs : set_audit (app s) (Some (Sync a)) = app s) by (rewrite <-Ha; by destruct (app s)).
    rewrite Hs. by eapply ws_panicked.
  - rewrite <-Ha in Hp. by eapply ws_persisted.
  - rewrite <-Ha in Hp. by eapply ws_persisted.
  - rewrite <-Ha in Hp. by eapply ws_persisted.
Qed.

(** The sequential handler refines the interleaving semantics: with a request number that
    is free, its call is a run that leaves the other requests alone and answers with the
    handler's outcome. *)
Lemma handler_is_run st j e r st' infl ans i :
  infl !! i = None → authorize_and_persist_decision st j e = (r, st') →
  rtc pdp_step (mkServer st infl ans) (mkServer st' infl ((i, fst <$> r) :: ans)).
Proof.
  intros Hi. unfold authorize_and_persist_decision.
  destruct (try_acquire (pdp_work_slots st)) as [slots|] eqn:Ha.
  2: { intros [= <- <-]. apply rtc_once. by apply ps_refused. }
  set (s0 := mkServer st infl ans).
  set (s1 := mkServer (set_pdp_slots st slots) (<[i := Evaluating j]> infl) ans).
  assert (H01 : pdp_step s0 s1) by (by apply ps_admitted).
  assert (Hdel : delete i (<[i := Evaluating j]> infl) = infl) by (by apply delete_insert_id).
  assert (H1i : inflight s1 !! i = Some (Evaluating j)) by (apply lookup_insert_eq).
  destruct (pe_worker_panics e).
  { intros [= <- <-]. eapply rtc_l; [exact H01|]. apply rtc_once, ps_work.
    pose proof (ws_panicked s1 i _ H1i) as Hw. unfold answer in Hw. cbn in Hw.
    rewrite Hdel in Hw. exact Hw. }
  destruct (evaluate_job _ j (pe_now e) (pe_now' e)) as [[d|err] h] eqn:Hev.
  2: { intros [= <- <-]. eapply rtc_l; [exact H01|]. apply rtc_once, ps_work.
       pose proof (ws_failed s1 i j _ _ _ _ H1i Hev) as Hw. unfold answer in Hw. cbn in Hw.
       rewrite Hdel in Hw. exact Hw. }
  set (s2 := mkServer (set_authorizer (app s1) h) (<[i := Persisting j d]> (inflight s1)) ans).
  assert (H12 : pdp_step s1 s2) by (apply ps_work; by eapply ws_evaluated).
  assert (H2i : inflight s2 !! i = Some (Persisting j d)) by (apply lookup_insert_eq).
  destruct (persist_or_panic _ d e) as [r0 w] eqn:Hp. intros Hout.
  pose proof (persist_or_panic_step s2 i j d e r0 w H2i Hp) as Hw.
  eapply rtc_l; [exact H01|]. eapply rtc_l; [exact H12|]. apply rtc_once, ps_work.
  unfold answer in Hw. cbn in Hw. rewrite insert_insert_eq, delete_insert_id in Hw by done.
  destruct r0 as [[]|err]; injection Hout as <- <-; exact Hw.
Qed.

(** The port of a server is never lost: a synchronous one stays one. *)
Definition same_port (w w' : option (AuditWriter S T)) : Prop :=
  match w, w' with
  | Some (Sync _), Some (Sync _) | Some (Async _), Some (Async _) | None, None => True
  | _, _ => False
  end.

#[local] Instance same_port_preorder : PreOrder same_port.
Proof. split; [by intros [[]|]|]. by intros [[]|] [[]|] [[]|]. Qed.

Lemma app_reload_audit (st : AppState_) e : audit_appender (app_reload st e) = audit_appender st.
Proof. unfold app_reload. by destruct (handle_reload (authorizer st) e) as [[]]. Qed.

Lemma pdp_step_port s s' :
  pdp_step s s' → same_port (audit_appender (app s)) (audit_appender (app s')).
Proof.
  intros [i Hi Ha|i j slots Hi Ha|s1 Hw|e]; simpl; try reflexivity.
  - destruct Hw as [| |i j d e r w Hi Hp|]; simpl; try reflexivity.
    unfold persist in Hp. destruct (audit_appender (app s)) as [[a|a]|].
    + destruct (append_decision d e a). by injection Hp as _ <-.
    + destruct (append_decision_async d e a). by injection Hp as _ <-.
    + by injection Hp as _ <-.
  - by rewrite app_reload_audit.
Qed.

Lemma run_has_port st s :
  rtc pdp_step (mkServer st ∅ []) s → same_port (audit_appender st) (audit_appender (app s)).
Proof.
  intros Hrun. change (audit_appender st) with (audit_appender (app (mkServer st ∅ []))).
  induction Hrun as [|x y z Hstep _ IH]; [reflexivity|].
  etransitivity; [by apply pdp_step_port|done].
Qed.

(** ** No decision without its audit record *)

Context `{!AppenderLaws (S := S) (E := E), !AsyncAppenderLaws (S := T) (E := E)}.

Definition writer_ok (w : option (AuditWriter S T)) : Prop :=
  match w with Some (Sync s) => appender_ok s | Some (Async s) => async_ok s | None => True end.
(** Without a port there is nothing to lose. *)
Definition durable_in (w : option (AuditWriter S T)) (d : Decision) : Prop :=
  match w with Some (Sync s) => durable s d | Some (Async s) => async_durable s d | None => True end.

Lemma persist_spec w d e r w' :
  writer_ok w → persist w d e = (r, w') →
  writer_ok w' ∧ (r = Ok tt → durable_in w' d) ∧ (∀ d', durable_in w d' → durable_in w' d').
Proof.
  intros Hw. destruct w as [[s|s]|]; simpl in *.
  - pose proof (append_keeps_ok d e s Hw). pose proof (append_makes_durable d e s Hw).
    pose proof (λ d', durable_stable d d' e s Hw).
    destruct (append_decision d e s) as [r0 s']. intros [= <- <-]. split_and!; [done| |auto].
    destruct r0 as [[]|]; simpl in *; [auto|done].
  - pose proof (async_keeps_ok d e s Hw). pose proof (async_makes_durable d e s Hw).
    pose proof (λ d', async_durable_stable d d' e s Hw).
    destruct (append_decision_async d e s) as [r0 s']. intros [= <- <-]. split_and!; [done| |auto].
    destruct r0 as [[[]|]|]; simpl in *; [auto|done|done].
  - by intros [= <- <-].
Qed.

Lemma persist_or_panic_spec w d e r w' :
  writer_ok w → persist_or_panic w d e = (r, w') →
  writer_ok w' ∧ (r = Ok tt → durable_in w' d) ∧ (∀ d', durable_in w d' → durable_in w' d').
Proof.
  intros Hw. unfold persist_or_panic. destruct w as [[s|s]|]; try apply persist_spec; try done.
  destruct (pe_audit_panics e); [by intros [= <- <-]|by apply persist_spec].
Qed.

(** Every answered decision is durable. *)
Definition audited (s : server) : Prop :=
  writer_ok (audit_appender (app s)) ∧
  ∀ i d, (i, Ok d) ∈ answered s → durable_in (audit_appender (app s)) d.

Lemma audited_error s s' i e :
  audited s → audit_appender (app s') = audit_appender (app s) →
  answered s' = (i, Err e) :: answered s → audited s'.
Proof.
  unfold audited. intros [Hw Ha] -> ->. split; [done|]. intros k d [[=]|Hin]%elem_of_cons. eauto.
Qed.

Lemma pdp_step_audited s s' : pdp_step s s' → audited s → audited s'.
Proof.
  intros [i Hi Ha|i j slots Hi Ha|s1 Hw|e] Haud.
  - by eapply audited_error.
  - done.
  - destruct Hw as [i j now now' d h Hi Hev|i j now now' e h Hi Hev|i j d e r w Hi Hp|i ph Hi].
    + done.
    + by eapply audited_error.
    + destruct Haud as [Hw Ha]. destruct (persist_spec _ _ _ _ _ Hw Hp) as (Hw' & Hd & Hst).
      split; [done|]. simpl. intros k d' [[= -> Heq]|Hin]%elem_of_cons; [|eauto].
      destruct r as [[]|]; [|done]. injection Heq as ->. auto.
    + by eapply audited_error.
  - unfold audited. simpl. by rewrite app_reload_audit.
Qed.

Lemma audited_run st s :
  writer_ok (audit_appender st) → rtc pdp_step (mkServer st ∅ []) s → audited s.
Proof.
  intros Hw Hrun. eapply (rtc_invariant pdp_step audited); [exact pdp_step_audited|exact Hrun|].
  split; [done|]. by intros ? ? ?%elem_of_nil.
Qed.

(** C3: fail closed: however requests, audit failures, deadlines, panics and reloads
    interleave, every decision the server has answered is durable in its audit port. *)
Theorem decisions_are_audited st s i d :
  writer_ok (audit_appender st) → rtc pdp_step (mkServer st ∅ []) s →
  (i, Ok d) ∈ answered s → durable_in (audit_appender (app s)) d.
Proof.
  intros Hw Hrun. apply (audited_run st s Hw Hrun).
Qed.

(** ** Work is bounded and ends *)

Definition pdp_balanced (s : server) : Prop :=
  (available_permits (pdp_work_slots (app s)) + size (inflight s))%nat = MAX_CONCURRENT_PDP_WORK_ITEMS.

Lemma app_reload_slots (st : AppState_) e : pdp_work_slots (app_reload st e) = pdp_work_slots st.
Proof. unfold app_reload. by destruct (handle_reload (authorizer st) e) as [[]]. Qed.

Lemma answer_balanced s st i ph r :
  pdp_work_slots st = pdp_work_slots (app s) → inflight s !! i = Some ph →
  pdp_balanced s → pdp_balanced (answer s st i r).
Proof.
  unfold pdp_balanced. simpl. intros -> Hi Hb.
  rewrite release_gives, map_size_delete_Some by done.
  assert (size (inflight s) ≠ O); [|lia].
  intros Hz%map_size_empty_inv. by rewrite Hz, lookup_empty in Hi.
Qed.

Lemma work_step_balanced s s' : work_step s s' → pdp_balanced s → pdp_balanced s'.
Proof.
  intros [i j now now' d h Hi Hev|i j now now' e h Hi Hev|i j d e r w Hi Hp|i ph Hi].
  - unfold pdp_balanced. simpl. by rewrite map_size_insert_Some.
  - by eapply answer_balanced.
  - by eapply answer_balanced.
  - by eapply answer_balanced.
Qed.

Lemma pdp_step_balanced s s' : pdp_step s s' → pdp_balanced s → pdp_balanced s'.
Proof.
  intros [i Hi Ha|i j slots Hi Ha|s1 Hw|e].
  - done.
  - unfold pdp_balanced. simpl. rewrite map_size_insert_None by done.
    pose proof (acquire_takes _ _ Ha). lia.
  - by apply work_step_balanced.
  - unfold pdp_balanced. simpl. by rewrite app_reload_slots.
Qed.

(** The steps a request has before it. *)
Definition steps_left (ph : phase) : nat := match ph with Evaluating _ => 2 | Persisting _ _ => 1 end.
Definition work_left (s : server) : nat := map_fold (λ _ ph n, (steps_left ph + n)%nat) O (inflight s).

Lemma work_left_insert (m : gmap nat phase) i ph :
  m !! i = None →
  map_fold (λ _ ph n, (steps_left ph + n)%nat) O (<[i := ph]> m)
  = (steps_left ph + map_fold (λ _ ph n, (steps_left ph + n)%nat) O m)%nat.
Proof. intros Hi. rewrite map_fold_insert_L; [done| |done]. intros. lia. Qed.

Lemma work_left_delete (m : gmap nat phase) i ph :
  m !! i = Some ph →
  map_fold (λ _ ph n, (steps_left ph + n)%nat) O m
  = (steps_left ph + map_fold (λ _ ph n, (steps_left ph + n)%nat) O (delete i m))%nat.
Proof.
  intros Hi. rewrite <-(work_left_insert _ i) by apply lookup_delete_eq. by rewrite insert_delete_id.
Qed.

Lemma work_step_decreases s s' : work_step s s' → (work_left s' < work_left s)%nat.
Proof.
  unfold work_left.
  intros [i j now now' d h Hi Hev|i j now now' e h Hi Hev|i j d e r w Hi Hp|i ph Hi]; simpl;
    rewrite (work_left_delete _ _ _ Hi); simpl; try lia.
  - rewrite <-insert_delete_eq, (work_left_insert _ i) by apply lookup_delete_eq. simpl. lia.
  - destruct ph; simpl; lia.
Qed.

(** Whoever is in flight stays so or is answered. *)
Lemma work_step_answers s s' i :
  work_step s s' → i ∈ dom (inflight s) → i ∈ dom (inflight s') ∨ ∃ r, (i, r) ∈ answered s'.
Proof.
  intros [k j now now' d h Hi Hev|k j now now' e h Hi Hev|k j d e r w Hi Hp|k ph Hi] Hd; simpl.
  1: left; set_solver.
  all: destruct (decide (i = k)) as [->|]; [right; eexists; apply list_elem_of_here|left; set_solver].
Qed.

Lemma work_step_keeps_answers s s' x : work_step s s' → x ∈ answered s → x ∈ answered s'.
Proof. intros [] Hx; simpl; try done; by apply list_elem_of_further. Qed.

Lemma nsteps_answers n s s' i :
  nsteps work_step n s s' → i ∈ dom (inflight s) ∨ (∃ r, (i, r) ∈ answered s) →
  i ∈ dom (inflight s') ∨ ∃ r, (i, r) ∈ answered s'.
Proof.
  induction 1 as [s|n s s1 s' Hstep _ IH]; [done|]. intros [Hd|[r Hr]]; apply IH.
  - by eapply work_step_answers.
  - right. exists r. by eapply work_step_keeps_answers.
Qed.

Lemma nsteps_decreases n s s' : nsteps work_step n s s' → (n + work_left s' ≤ work_left s)%nat.
Proof.
  induction 1 as [s|n s s1 s' Hstep _ IH]; [lia|]. pose proof (work_step_decreases _ _ Hstep). lia.
Qed.

Lemma nsteps_balanced n s s' : nsteps work_step n s s' → pdp_balanced s → pdp_balanced s'.
Proof. induction 1; eauto using work_step_balanced. Qed.

(** A request in flight always has a step to take, without a panic. *)
Lemma work_enabled s i ph (draw : E) : inflight s !! i = Some ph → ∃ s', work_step s s'.
Proof.
  intros Hi. destruct ph as [j|j d].
  - destruct (evaluate_job (authorizer (app s)) j 0 0) as [[d|e] h] eqn:Hev.
    + eexists. by eapply ws_evaluated.
    + eexists. by eapply ws_failed.
  - destruct (persist (audit_appender (app s)) d draw) as [r w] eqn:Hp. eexists. by eapply ws_persisted.
Qed.

Lemma steps_left_bound (m : gmap nat phase) :
  (map_fold (λ _ ph n, (steps_left ph + n)%nat) O m ≤ 2 * size m)%nat.
Proof.
  induction m as [|i ph m Hi IH] using map_ind; [done|].
  rewrite work_left_insert, map_size_insert_None by done. destruct ph; simpl; lia.
Qed.

(** C10: liveness: at any time at most four requests hold a permit, and when no more
    requests arrive every run of the remaining work ends within eight steps; when it can go
    no further nothing is in flight, all four permits are free, and every request that was
    in flight has its answer. *)
Theorem pdp_work_ends st s n s' (draw : E) :
  available_permits (pdp_work_slots st) = MAX_CONCURRENT_PDP_WORK_ITEMS →
  rtc pdp_step (mkServer st ∅ []) s → nsteps work_step n s s' →
  (size (inflight s) ≤ 4)%nat ∧ (n ≤ 8)%nat ∧
  ((∀ s'', ¬ work_step s' s'') →
     inflight s' = ∅ ∧ available_permits (pdp_work_slots (app s')) = 4%nat ∧
     ∀ i, i ∈ dom (inflight s) → ∃ r, (i, r) ∈ answered s').
Proof.
  intros Hst Hrun Hwork.
  assert (Hb : pdp_balanced s).
  { eapply (rtc_invariant pdp_step pdp_balanced); [exact pdp_step_balanced|exact Hrun|].
    unfold pdp_balanced. simpl. rewrite map_size_empty, Hst. lia. }
  assert (Hsize : (size (inflight s) ≤ 4)%nat).
  { unfold pdp_balanced, MAX_CONCURRENT_PDP_WORK_ITEMS in Hb. lia. }
  pose proof (nsteps_decreases _ _ _ Hwork). pose proof (steps_left_bound (inflight s)).
  split; [done|]. split; [unfold work_left in *; lia|]. intros Hstuck.
  assert (He : inflight s' = ∅).
  { apply map_empty. intros i. destruct (inflight s' !! i) as [ph|] eqn:Hi; [|done].
    destruct (work_enabled _ _ _ draw Hi) as [s'' Hs]. by apply Hstuck in Hs. }
  assert (Hb' : pdp_balanced s') by (by eapply nsteps_balanced).
  unfold pdp_balanced in Hb'. rewrite He, map_size_empty, Nat.add_0_r in Hb'.
  split_and!; [done|done|]. intros i Hi.
  destruct (nsteps_answers _ _ _ i Hwork (or_introl Hi)) as [Hd|Hr]; [|done].
  rewrite He in Hd. set_solver.
Qed.

(** ** What an answer says *)

Lemma evaluate_job_inv h j now now' d h' :
  evaluate_job h j now now' = (Ok d, h') →
  ∃ a a' ents d0, snapshots h !! job_snapshot j = Some a ∧
    build_request_entities (job_entities j) = Ok ents ∧
    authorize a (job_request j) ents now now' = (Ok d0, a') ∧
    d = with_actor d0 (job_actor j) ∧ h' = set_snapshot h (job_snapshot j) a'.
Proof.
  unfold evaluate_job, pdp_operation. destruct (snapshots h !! job_snapshot j) as [a|]; [|done].
  destruct (build_request_entities (job_entities j)) as [ents|]; [|done].
  destruct (authorize a _ ents now now') as [[d0|] a'] eqn:Ha; [|done].
  intros [= <- <-]. by exists a, a', ents, d0.
Qed.

Lemma authorize_request a req ents now now' d a' :
  authorize a req ents now now' = (Ok d, a') → d_request d = request_to_value req.
Proof.
  unfold authorize. destruct (lookup_cached a req ents (version a) now) as [[cached|] a1].
  - intros [= Hd _]. by apply bind_Ok in Hd as (e & _ & [= <-]).
  - destruct (evaluate_request a1 req ents) as [[[e pols] errs]|]; [|done]. by intros [= <- _].
Qed.

(** What a successful call did. *)
Lemma persisted_inv st j e d el st' :
  authorize_and_persist_decision st j e = (Ok (d, el), st') →
  ∃ slots h w, try_acquire (pdp_work_slots st) = Some slots ∧
    evaluate_job (authorizer st) j (pe_now e) (pe_now' e) = (Ok d, h) ∧
    persist_or_panic (audit_appender st) d e = (Ok tt, w) ∧
    authorizer st' = h ∧ audit_appender st' = w ∧ pdp_work_slots st' = release slots ∧
    key_store st' = key_store st ∧ auth_slots st' = auth_slots st ∧ metrics st' = metrics st.
Proof.
  unfold authorize_and_persist_decision.
  destruct (try_acquire (pdp_work_slots st)) as [slots|]; [|done].
  destruct (pe_worker_panics e); [done|]. cbn [authorizer set_pdp_slots].
  destruct (evaluate_job (authorizer st) j _ _) as [[d0|] h] eqn:Hev; [|done].
  cbn [audit_appender set_authorizer set_pdp_slots].
  destruct (persist_or_panic (audit_appender st) d0 e) as [[[]|] w] eqn:Hp; [|done].
  intros [= <- <- <-]. by exists slots, h, w.
Qed.

(** An HTTP evaluation answers 200 only with a decision that is durable, and that
    decision names the request it was made on and the authenticated caller: its audited
    request is that of the mapped request with the caller inserted. *)
Theorem evaluation_audited st caller req uuid e resp st' :
  writer_ok (audit_appender st) → evaluation st caller req uuid e = (mkResponse 200 (One resp), st') →
  ∃ d r m, evaluation_request_for_caller req caller uuid = Ok r ∧
    durable_in (audit_appender st') d ∧ resp = response_of d ∧
    request_to_value r = VObject m ∧
    d_request d = VObject (match authenticated_actor caller with
                           | Some a => assoc_insert "authenticated_actor" (actor_to_value a) m
                           | None => m
                           end).
Proof.
  intros Hw. unfold evaluation. destruct (evaluation_request_for_caller req caller uuid) as [r|err] eqn:Hr.
  2: by destruct err.
  destruct (authorize_and_persist_decision _ _ e) as [[[d el]|err] st1] eqn:Hp.
  2: { unfold work_failure. destruct (report_pdp_work_failure _ err) as [[c m] ms] eqn:Hrep.
       unfold report_pdp_work_failure in Hrep. destruct err; injection Hrep as <- <- <-; done. }
  intros [= <- <-].
  apply persisted_inv in Hp as (slots & h & w & _ & Hev & Hper & Hh & Hwr & _).
  apply evaluate_job_inv in Hev as (a & a' & ents & d0 & _ & _ & Hauth & -> & _).
  apply authorize_request in Hauth. simpl in Hauth.
  destruct (persist_or_panic_spec _ _ _ _ _ Hw Hper) as (_ & Hdur & _).
  eexists _, r, _. split; [done|]. split; [simpl; rewrite Hwr; by apply Hdur|].
  split; [done|]. split; [reflexivity|].
  unfold with_actor. rewrite Hauth. simpl job_actor.
  destruct (authenticated_actor caller); [done|]. exact Hauth.
Qed.

(** ** Batches *)

(** What the rest of a running server can do to its state. *)
Definition meanwhile (st st' : AppState_) : Prop :=
  ∃ infl ans infl' ans', rtc pdp_step (mkServer st infl ans) (mkServer st' infl' ans').

Definition same_policies (a a' : Authorizer) : Prop := schema a' = schema a ∧ policy_set a' = policy_set a.

(** A run keeps the audit port in order, loses no durable decision, and changes of the
    snapshots that are there only the caches. *)
Record evolves (st st' : AppState_) : Prop := {
  ev_writer : writer_ok (audit_appender st) → writer_ok (audit_appender st');
  ev_durable d : writer_ok (audit_appender st) → durable_in (audit_appender st) d → durable_in (audit_appender st') d;
  ev_snapshot i a : snapshots (authorizer st) !! i = Some a →
    ∃ a', snapshots (authorizer st') !! i = Some a' ∧ same_policies a a';
}.

#[local] Instance evolves_preorder : PreOrder evolves.
Proof.
  split; [by split; eauto; intros i a Ha; exists a|].
  intros x y z [Hw Hd Hs] [Hw' Hd' Hs']. split; [auto|eauto|]. intros i a (a1 & Ha1 & Hp1 & Hp2)%Hs.
  apply Hs' in Ha1 as (a2 & Ha2 & Hq1 & Hq2). exists a2. split; [done|]. split; congruence.
Qed.

Lemma authorize_policies a req ents now now' : same_policies a (authorize a req ents now now').2.
Proof.
  unfold authorize. destruct (lookup_cached a req ents (version a) now) as [found a1] eqn:Hl.
  assert (same_policies a a1).
  { unfold lookup_cached in Hl. destruct (cache a) as [c|]; [|by injection Hl as _ <-].
    destruct (cache_get _ _ _). by injection Hl as _ <-. }
  destruct found; [done|]. destruct (evaluate_request a1 req ents) as [[[]]|]; [|done].
  unfold fill_cache. cbn. by destruct (cache a1).
Qed.

Lemma evaluate_job_snapshot h j now now' i a :
  snapshots h !! i = Some a →
  ∃ a', snapshots (evaluate_job h j now now').2 !! i = Some a' ∧ same_policies a a'.
Proof.
  intros Hi. unfold evaluate_job, pdp_operation.
  destruct (snapshots h !! job_snapshot j) as [b|] eqn:Hb; [|by exists a].
  assert (Hset : ∀ b', same_policies b b' →
    ∃ a', snapshots (set_snapshot h (job_snapshot j) b') !! i = Some a' ∧ same_policies a a').
  { intros b' Hp. cbn. destruct (decide (job_snapshot j = i)) as [<-|].
    - rewrite lookup_insert_eq. exists b'. split; [done|]. congruence.
    - rewrite lookup_insert_ne by done. by exists a. }
  destruct (build_request_entities _) as [ents|]; [|by apply Hset].
  pose proof (authorize_policies b (job_request j) ents now now') as Hp.
  destruct (authorize b _ ents now now') as [r b']. by apply Hset.
Qed.

Lemma reload_snapshot (st : AppState_) e i a :
  snapshots (authorizer st) !! i = Some a → snapshots (authorizer (app_reload st e)) !! i = Some a.
Proof.
  unfold app_reload, handle_reload. destruct (handle_load _ _ e).1 as [b|err]; [|done]. cbn. intros Hi.
  rewrite lookup_insert_ne; [done|]. intros <-. apply (is_fresh (dom (snapshots (authorizer st)))).
  by apply elem_of_dom_2 in Hi.
Qed.

Lemma pdp_step_evolves s s' : pdp_step s s' → evolves (app s) (app s').
Proof.
  assert (Hsame : ∀ i a (st : AppState_), snapshots (authorizer st) !! i = Some a →
    ∃ a', snapshots (authorizer st) !! i = Some a' ∧ same_policies a a') by (intros i a ? ?; by exists a).
  intros [i Hi Ha|i j slots Hi Ha|s1 Hw|e]; [by split; eauto..| |].
  - destruct Hw as [i j now now' d h Hi Hev|i j now now' e h Hi Hev|i j d e r w Hi Hp|i ph Hi].
    1, 2: split; cbn; try done; intros k a Hk; destruct (evaluate_job_snapshot _ j now now' k a Hk) as (a' & Ha' & Hp);
      rewrite Hev in Ha'; by exists a'.
    + split; cbn; [| |intros k a; apply Hsame].
      * intros Hw. by destruct (persist_spec _ _ _ _ _ Hw Hp).
      * intros d' Hw. destruct (persist_spec _ _ _ _ _ Hw Hp) as (_ & _ & Hk). apply Hk.
    + by split; cbn; eauto.
  - split; cbn; [by rewrite app_reload_audit|by rewrite app_reload_audit|].
    intros i a Hi. exists a. split; [by apply reload_snapshot|done].
Qed.

Lemma meanwhile_evolves st st' : meanwhile st st' → evolves st st'.
Proof.
  intros (infl & ans & infl' & ans' & Hrun).
  change st with (app (mkServer st infl ans)). change st' with (app (mkServer st' infl' ans')).
  induction Hrun as [|x y z Hxy _ IH]; [reflexivity|]. etrans; [by apply pdp_step_evolves|done].
Qed.

(** The decision of an item: made by an authorizer with the policies of [a0], on the mapped
    request of the item and its entities, for the caller. *)
Definition item_decided (a0 : Authorizer) (caller : option AuthenticatedIdentity)
    (item : EvaluationRequest * @item_draw _ _ _ _ _ S E T) (d : Decision) : Prop :=
  ∃ r ents a now now' d0,
    evaluation_request_for_caller item.1 caller (it_uuid item.2) = Ok r ∧
    build_request_entities (ev_entities item.1) = Ok ents ∧ same_policies a0 a ∧
    (authorize a r ents now now').1 = Ok d0 ∧ d = with_actor d0 (authenticated_actor caller).

(** What the decisions [ds] of a batch have to be. *)
Record batch_spec (a0 : Authorizer) (st st' : AppState_) (semantics : EvaluationSemantics)
    (caller : option AuthenticatedIdentity) (items : list (EvaluationRequest * @item_draw _ _ _ _ _ S E T))
    (ds : list Decision) : Prop := {
  (** one decision per item, in order, up to the end or to the first that stops *)
  bs_items : ∃ rest, items = take (length ds) items ++ rest ∧
               Forall2 (item_decided a0 caller) (take (length ds) items) ds;
  bs_running : ∀ i d, ds !! i = Some d → (Datatypes.S i < length ds)%nat →
                 stops semantics (effect_is_allow d) = false;
  bs_stopped : length ds = length items ∨
               ∃ d, last ds = Some d ∧ stops semantics (effect_is_allow d) = true;
  (** all of them durable, and nothing durable lost *)
  bs_durable : Forall (durable_in (audit_appender st')) ds;
  bs_evolves : evolves st st';
}.

Lemma persisted_effects a0 snap a st e d el st' caller er uuid others r :
  writer_ok (audit_appender st) → evaluation_request_for_caller er caller uuid = Ok r →
  snapshots (authorizer st) !! snap = Some a → same_policies a0 a →
  authorize_and_persist_decision st (mkJob snap r (ev_entities er) (authenticated_actor caller)) e
    = (Ok (d, el), st') →
  evolves st st' ∧ durable_in (audit_appender st') d ∧
  item_decided a0 caller (er, mkItemDraw uuid e others) d.
Proof.
  intros Hw Hr Ha Hsame Hp. split_and!.
  - apply meanwhile_evolves. exists ∅, [], ∅, [(0%nat, Ok d)].
    exact (handler_is_run _ _ _ _ _ ∅ [] 0%nat (lookup_empty _) Hp).
  - apply persisted_inv in Hp as (slots & h & w & _ & _ & Hper & _ & -> & _).
    destruct (persist_or_panic_spec _ _ _ _ _ Hw Hper) as (_ & Hdur & _). auto.
  - apply persisted_inv in Hp as (slots & h & w & _ & Hev & _).
    apply evaluate_job_inv in Hev as (b & b' & ents & d0 & Hb & Hents & Hauth & -> & _). cbn in *.
    assert (b = a) as -> by congruence. exists r, ents, a, (pe_now e), (pe_now' e), d0. rewrite Hauth. by split_and!.
Qed.

Lemma evaluate_items_spec a0 semantics snap caller items : ∀ a st acc rs st',
  writer_ok (audit_appender st) → Forall (λ it, ∀ st, meanwhile st (it_others it.2 st)) items →
  snapshots (authorizer st) !! snap = Some a → same_policies a0 a →
  evaluate_items st semantics snap caller items acc = (mkResponse 200 (Batch rs), st') →
  ∃ ds, rs = acc ++ (response_of <$> ds) ∧ batch_spec a0 st st' semantics caller items ds.
Proof.
  induction items as [|[er [uuid e others]] items IH]; intros a st acc rs st' Hw Hoth Ha Hsame; simpl.
  { intros [= <- <-]. exists []. rewrite app_nil_r. split; [done|].
    split; try done; try (by left); try constructor. by exists []. }
  apply Forall_cons in Hoth as [Hoth Hoths]. specialize (Hoth st). cbn in Hoth. apply meanwhile_evolves in Hoth.
  destruct (evaluation_request_for_caller er caller uuid) as [r|err] eqn:Hr; [|by destruct err].
  destruct (authorize_and_persist_decision _ _ e) as [[[d el]|err] st1] eqn:Hp.
  2: { unfold work_failure. destruct (report_pdp_work_failure _ err) as [[c m] ms] eqn:Hrep.
       unfold report_pdp_work_failure in Hrep. destruct err; injection Hrep as <- <- <-; done. }
  destruct (ev_snapshot _ _ Hoth _ _ Ha) as (b & Hb & Hb1 & Hb2).
  assert (Hsame' : same_policies a0 b) by (destruct Hsame; split; congruence).
  destruct (persisted_effects a0 _ _ _ _ _ _ _ _ _ _ others _ (ev_writer _ _ Hoth Hw) Hr Hb Hsame' Hp)
    as (Hev & Hdur & Hitem). assert (Hev1 : evolves st st1) by (by etrans).
  destruct (stops semantics (effect_is_allow d)) eqn:Hstop.
  - intros [= <- <-]. exists [d]. split; [done|]. split; try done.
    + simpl. rewrite take_0. exists items. split; [done|]. by repeat constructor.
    + intros i d' Hi Hlt. simpl in Hlt. lia.
    + right. by exists d.
    + by constructor.
  - destruct (ev_snapshot _ _ Hev1 _ _ Ha) as (c & Hc & Hc1 & Hc2). intros Hrun.
    assert (Hsame1 : same_policies a0 c) by (destruct Hsame; split; congruence).
    destruct (IH c _ _ _ _ (ev_writer _ _ Hev1 Hw) Hoths Hc Hsame1 Hrun)
      as (ds & -> & [(rest & Hrest & Hall) Hgo Hend Hds Hk]).
    exists (d :: ds). split; [by rewrite <-app_assoc|]. split.
    + exists rest. simpl. split; [by f_equal|]. by constructor.
    + intros [|i] d' Hi Hlt; simpl in *; [by injection Hi as <-|]. eapply Hgo; [done|lia].
    + destruct Hend as [Hlen|(d' & Hl & Hd)]; [left; simpl; lia|]. right. exists d'. split; [|done].
      by destruct ds.
    + constructor; [|done]. eapply ev_durable; [exact Hk|by eapply ev_writer|done].
    + by etrans.
Qed.

(** C23: a batch answers 200 only with one response per evaluation, in order: all of them
    under [execute_all], and up to and including the first deny or permit under the other
    semantics.  Every decision in it is durable and was made by the policies that were served
    when the batch began, even when other requests run and the policies are reloaded while
    the batch is under way; a failure of any item answers with no decisions. *)
Theorem batch_answers st caller req draws a0 rs st' :
  writer_ok (audit_appender st) →
  snapshots (authorizer st) !! snapshot (authorizer st) = Some a0 →
  (∀ i st, meanwhile st (it_others (draws i) st)) →
  evaluations st caller req draws = (mkResponse 200 (Batch rs), st') →
  Z.of_nat (length (evaluations_of req)) ≤ MAX_BATCH_EVALUATIONS ∧
  ∃ ds, rs = response_of <$> ds ∧
    batch_spec a0 st st' (default ExecuteAll (evaluation_semantics req)) caller
      (imap (λ i er, (er, draws i)) (evaluations_of req)) ds.
Proof.
  intros Hw Ha Hoth. unfold evaluations.
  destruct (Z.ltb_spec MAX_BATCH_EVALUATIONS (Z.of_nat (length (evaluations_of req)))); [done|].
  intros Hrun. split; [done|].
  refine (evaluate_items_spec a0 _ _ _ _ a0 st [] rs st' Hw _ Ha (conj eq_refl eq_refl) Hrun).
  apply Forall_forall. intros it Hit. apply elem_of_lookup_imap in Hit as (i & er & -> & _). apply Hoth.
Qed.

(** ** Reload and readiness *)

(** C24: a policy reload is all or nothing: when the new policies do not load, everything
    stays as it was; when they load, later requests use them, while requests under way
    keep the snapshot they started with. *)
Theorem reload_keeps_last_good (st : AppState_) e :
  snapshots (authorizer st) !! current (authorizer st) ≠ None →
  let st' := app_reload st e in
  match (handle_load (handle_root (authorizer st)) (handle_cache (authorizer st)) e).1 with
  | Err _ => st' = st
  | Ok a =>
      snapshots (authorizer st') !! snapshot (authorizer st') = Some a ∧
      snapshot (authorizer st') ≠ snapshot (authorizer st) ∧
      policy_reload_total (metrics st') = counter_inc (policy_reload_total (metrics st))
  end ∧
  ∀ i a, snapshots (authorizer st) !! i = Some a → snapshots (authorizer st') !! i = Some a.
Proof.
  intros Hcur st'. subst st'. unfold app_reload, handle_reload.
  destruct (handle_load _ _ e).1 as [a|err].
  - pose proof (is_fresh (dom (snapshots (authorizer st)))) as Hf. cbn.
    rewrite lookup_insert_eq. split_and!; try done.
    + unfold snapshot. intros Heq. apply Hf. rewrite Heq. by apply elem_of_dom, not_eq_None_Some.
    + intros i b Hi. rewrite lookup_insert_ne; [done|]. intros <-. apply Hf. by apply elem_of_dom_2 in Hi.
  - split; [by destruct st|done].
Qed.

(** [/readyz] reports ready exactly when policies are loaded and the audit port is
    configured, healthy and chained, each answered in time. *)
Theorem readyz_iff (st : AppState_) (e e' : E) :
  status (readyz st e e') = 200 ↔
  handle_policy_count (authorizer st) ≠ 0 ∧
  match audit_appender st with
  | Some (Sync s) => adapter_is_healthy s = true ∧ adapter_is_chained s = true
  | Some (Async s) => is_healthy_async s e = Some true ∧ is_chained_async s e' = Some true
  | None => False
  end.
Proof.
  unfold readyz. destruct (Z.eqb_spec (handle_policy_count (authorizer st)) 0); [naive_solver|].
  destruct (audit_appender st) as [[s|s]|]; [| |naive_solver].
  - destruct (adapter_is_healthy s), (adapter_is_chained s); simpl; naive_solver.
  - destruct (is_healthy_async s e) as [[]|], (is_chained_async s e') as [[]|]; simpl; naive_solver.
Qed.
End pdp.
