(* ===== verification/AuditPort.v ===== *)
(** * The decision log as the server's audit port ([agentguard-server/src/audit.rs])

    [impl AuditAppender for DecisionLog], and the proof that a chained log keeps the
    contract the server is proved against: under any storage faults, what [append_decision]
    reports as written is a record of the chain in the file, and stays one. *)

From S2P Require Import Prelude Json CoreError Crypto Trace Request DecisionRecord HashChain Canonical AuditFs AuditLog Cache Engine Semaphore Metrics PolicyStore AuthZen Pdp Text Rotation RotationFaults.

(** What one append draws: the record's id and time, a chain id, and the names for a
    rotation and for temporary files. *)
Record log_draw : Type := mkLogDraw {
  ld_id : string;
  ld_now : string;
  ld_fresh : ChainId;
  ld_ts : string;
  ld_uuid' : string;
  ld_uuid : string;
}.

Section port.
Context (dir : string).
Context `{JsonText, Hex, Hmac, UuidText, JsonScalars, RecordCodec, ActorCodec}.

(** [DecisionLog::append_decision] *)
Definition log_append_decision (d : Decision) (e : log_draw) : DecisionLog * world →
    cresult unit * (DecisionLog * world) := λ '(l, w),
  log_append dir (from_decision d None None (ld_id e) (ld_now e)) (ld_fresh e) (ld_ts e) (ld_uuid' e)
    (ld_uuid e) l w.

(** [chain_id(self).is_some()] *)
Definition log_is_chained (l : DecisionLog) : bool :=
  match mode l with Plain _ => false | Chained _ _ => true end.

#[export] Instance decision_log_appender : AuditAppender (DecisionLog * world) log_draw := {|
  append_decision := log_append_decision;
  adapter_is_healthy s := is_healthy s.1;
  adapter_is_chained s := log_is_chained s.1;
|}.

Context (k : bytes) (id : ChainId) (prev : bytes).

(** A log that does not rotate holds a chain that has a record of the decision. *)
Definition log_durable (s : DecisionLog * world) (d : Decision) : Prop :=
  ∃ rs torn i n, holds k id prev s.1 s.2 rs torn ∧ from_decision d None None i n ∈ rs.

Lemma log_append_holds d e s rs torn :
  holds k id prev s.1 s.2 rs torn →
  let '(r, s') := log_append_decision d e s in
  ∃ torn', holds k id prev s'.1 s'.2
    (if is_ok r then rs ++ [from_decision d None None (ld_id e) (ld_now e)] else rs) torn'.
Proof.
  destruct s as [l w]. simpl. intros Hh. destruct (log_append dir _ _ _ _ _ l w) as [r [l' w']] eqn:Ha.
  destruct (append_step dir _ _ _ _ _ _ _ _ _ _ _ _ _ _ _ Hh Ha) as (_ & _ & _ & torn' & Hh' & _). by exists torn'.
Qed.

Lemma log_step d e s :
  (∃ rs torn, holds k id prev s.1 s.2 rs torn) →
  (∃ rs torn, holds k id prev (append_decision d e s).2.1 (append_decision d e s).2.2 rs torn) ∧
  ((append_decision d e s).1 = Ok tt → log_durable (append_decision d e s).2 d) ∧
  (∀ d', log_durable s d' → log_durable (append_decision d e s).2 d').
Proof.
  intros (rs & torn & Hh). pose proof (log_append_holds d e s) as Hstep. pose proof (Hstep rs torn Hh) as Hh'.
  change (append_decision d e s) with (log_append_decision d e s).
  destruct (log_append_decision d e s) as [r s']. simpl. destruct Hh' as [torn' Hh']. split_and!.
  - eauto.
  - intros ->. eexists _, _, _, _. split; [exact Hh'|]. apply elem_of_app. right. apply list_elem_of_here.
  - intros d' (rs' & torn1 & i & n & Hrs & Hin). destruct (Hstep rs' torn1 Hrs) as [torn2 Hs]. destruct (is_ok r).
    + eexists _, _, i, n. split; [exact Hs|]. apply elem_of_app. by left.
    + by exists rs', torn2, i, n.
Qed.

Definition decision_log_laws : AppenderLaws (S := DecisionLog * world) (E := log_draw) := {|
  appender_ok s := ∃ rs torn, holds k id prev s.1 s.2 rs torn;
  durable := log_durable;
  append_keeps_ok d e s Hs := proj1 (log_step d e s Hs);
  append_makes_durable d e s Hs := proj1 (proj2 (log_step d e s Hs));
  durable_stable d d' e s Hs := proj2 (proj2 (log_step d e s Hs)) d';
|}.
End port.

(** ** The log and the clock *)

(** A rotation names its segment by the wall clock.  Here the adapter is the log together with
    the clock it reads: its [t]-th reading is [ticks t], and each append reads the next one. *)
Section clocked.
Context (dir : string) (ticks : nat → string).
Context `{JsonText, Hex, Hmac, UuidText, JsonScalars, RecordCodec, ActorCodec}.

Definition at_tick (e : log_draw) (ts : string) : log_draw :=
  mkLogDraw (ld_id e) (ld_now e) (ld_fresh e) ts (ld_uuid' e) (ld_uuid e).

Definition clocked_append (d : Decision) (e : log_draw) (s : DecisionLog * world * nat) :
    cresult unit * (DecisionLog * world * nat) :=
  let '(r, lw) := log_append_decision dir d (at_tick e (ticks s.2)) s.1 in (r, (lw, S s.2)).

#[export] Instance clocked_appender : AuditAppender (DecisionLog * world * nat) log_draw := {|
  append_decision := clocked_append;
  adapter_is_healthy s := is_healthy s.1.1;
  adapter_is_chained s := log_is_chained s.1.1;
|}.

Context `{!JsonTextLaws, !JsonObjectLaws, !HexLaws, !HmacLaws, !UuidLaws, !RecordLaws}.
Context (k : bytes) (id : ChainId) (horizon : nat).







End clocked.

(** No asynchronous adapter. *)
#[export] Instance no_async {E} : AsyncAuditAppender Empty_set E := {|
  append_decision_async _ _ s := (None, s);
  is_healthy_async _ _ := None;
  is_chained_async _ _ := None;
|}.
#[export] Instance no_async_laws {E} : AsyncAppenderLaws (S := Empty_set) (E := E).
Proof. by refine {| async_ok _ := True; async_durable _ _ := True |}; intros. Defined.

Section composed.
Context (dir : string) (ticks : nat → string).
Context `{CedarStore, !CedarBuild, !JsonText, !JsonScalars, !Hex, !Sha256, !Hmac, !UuidText}.
Context `{!RecordCodec, !ActorCodec, !Lru bytes (CachedDecision * Z), !F64, !Semaphore, !SemaphoreLaws}.
Context `{!JsonTextLaws, !JsonObjectLaws, !HexLaws, !HmacLaws, !UuidLaws, !RecordLaws}.

#[local] Instance the_log : AuditAppender (DecisionLog * world * nat) log_draw := clocked_appender dir ticks.

End composed.
