(* ===== verification/Grpc.v ===== *)
(** * The gRPC mirror ([agentguard-server/src/grpc.rs])

    [AccessEvaluation::evaluation], and that it decides as [POST /access/v1/evaluation]
    does on the same caller and request. *)

From S2P Require Import Prelude Json CoreError Crypto Trace Request DecisionRecord Canonical AuditLog Cache Engine ApiKey Text Semaphore AuthLayer Metrics PolicyStore AuthZen.

Definition MAX_GRPC_REQUEST_BYTES : Z := 64 * 1024.

(** [serde_json::from_str::<Vec<Value>>] *)
Class JsonList := { values_from_str : string → result string (list Value) }.

Record PbRequest : Type := mkPbRequest {
  pb_subject : option EntityRef;
  pb_action : option EntityRef;
  pb_resource : option EntityRef;
  context_json : string;
  entities_json : string;
}.
Record PbResponse : Type := mkPbResponse {
  pb_decision : bool;
  pb_reason : string;
  pb_context_json : string;
}.

Inductive Code : Type :=
| CUnauthenticated | CPermissionDenied | CUnavailable | CResourceExhausted | CInvalidArgument | CInternal.
Record Status : Type := mkStatus { code : Code; status_message : string }.

Section grpc.
Context `{CedarStore, !CedarBuild, !JsonText, !JsonScalars, !Hex, !Sha256, !JsonList}.
Context `{!Lru bytes (CachedDecision * Z), !F64, !Semaphore, !Argon2, !Base64, !ApiKeyCodec}.
Context {S E T : Type} `{!AuditAppender S E, !AsyncAuditAppender T E}.

Abbreviation AppState_ := (@AppState _ _ _ _ _ S T).

Definition auth_status (failure : AuthenticationFailure) : Status :=
  match failure with
  | Unauthenticated => mkStatus CUnauthenticated "unauthorized"
  | Forbidden => mkStatus CPermissionDenied "forbidden"
  | Unavailable => mkStatus CUnavailable "authentication capacity exhausted"
  end.

(** [usize] additions that saturate; the lengths are of strings in memory. *)
Definition ref_bytes (r : option EntityRef) : Z :=
  match r with Some r => len (ref_type r) + len (ref_id r) | None => 0 end.
Definition request_bytes (req : PbRequest) : Z :=
  Z.min usize_max (ref_bytes (pb_subject req) + ref_bytes (pb_action req) + ref_bytes (pb_resource req)
                   + len (context_json req) + len (entities_json req)).

Definition invalid_argument (m : string) : Status := mkStatus CInvalidArgument m.

(** The request in the shape of the HTTP endpoint. *)
Definition http_style (req : PbRequest) : result Status EvaluationRequest :=
  _ ← bail_if (MAX_GRPC_REQUEST_BYTES <? request_bytes req)
        (mkStatus CResourceExhausted "evaluation request exceeds 64 KiB");
  subject ← ok_or (pb_subject req) (invalid_argument "missing subject");
  action ← ok_or (pb_action req) (invalid_argument "missing action");
  resource ← ok_or (pb_resource req) (invalid_argument "missing resource");
  context ← (if bool_decide (context_json req = "") then Ok (VObject [])
             else map_err (λ e, invalid_argument ("context_json: " +:+ e))
                    (json_from_slice (context_json req)));
  entities ← (if bool_decide (entities_json req = "") then Ok []
              else map_err (λ e, invalid_argument ("entities_json: " +:+ e))
                     (values_from_str (entities_json req)));
  Ok (mkEvaluationRequest subject action resource context entities).

Definition mapping_status (e : EvaluationMappingError) : Status :=
  match e with
  | IdentityMismatch => mkStatus CPermissionDenied "subject or tenant does not match API key"
  | InvalidRequest message => invalid_argument message
  end.

Definition work_status (code : Z) (message : string) : Status :=
  if code =? 503 then mkStatus CUnavailable message
  else if code =? 400 then invalid_argument message
  else mkStatus CInternal message.

Definition grpc_evaluation (st : AppState_) (authorization : option string) (req : PbRequest)
    (now : Z) (panics : bool) (uuid : string) (e : @pdp_env E) : result Status PbResponse * AppState_ :=
  let '(auth_r, sl) := authenticate_bearer_async_with_slots (auth st) (key_store st) authorization
                         "authorize" true now panics (auth_slots st) in
  let st := set_auth_slots st sl in
  match auth_r with
  | Err failure => (Err (auth_status failure), st)
  | Ok caller =>
      match http_style req with
      | Err s => (Err s, st)
      | Ok hreq =>
          match evaluation_request_for_caller hreq caller uuid with
          | Err error => (Err (mapping_status error), st)
          | Ok agent_req =>
              let job := mkJob (snapshot (authorizer st)) agent_req (ev_entities hreq)
                           (authenticated_actor caller) in
              match authorize_and_persist_decision st job e with
              | (Err error, st) =>
                  let '((code, message), m) := report_pdp_work_failure (metrics st) error in
                  (Err (work_status code message), set_metrics st m)
              | (Ok (d, elapsed), st) =>
                  (Ok (mkPbResponse (effect_is_allow d) (default "" (head (reasons d))) ""),
                   set_metrics st
                     (record_evaluation (metrics st) d (action_display (action agent_req)) elapsed))
              end
          end
      end
  end.

(** ** Agreement with HTTP *)

(** The same outcome in the two vocabularies. *)
Definition same_outcome (r : result Status PbResponse) (h : Response) : Prop :=
  match r with
  | Ok p => ∃ er, h = mkResponse 200 (One er) ∧ pb_decision p = decision er ∧
                  pb_reason p = default "" (reason er)
  | Err s =>
      status h = match code s with
                 | CUnauthenticated => 401
                 | CPermissionDenied => 403
                 | CUnavailable => 503
                 | CInvalidArgument => 400
                 | CInternal => 500
                 | CResourceExhausted => 413
                 end
  end.

Lemma disabled_gate (l : AuthLayer) store authz now panics (sl : semaphore) :
  l = Disabled →
  authenticate_bearer_async_with_slots l store authz "authorize" true now panics sl = (Ok None, sl).
Proof. by intros ->. Qed.

(** C22: the two transports agree: on the same server state, credential, request and
    draws, gRPC and [POST /access/v1/evaluation] give the same decision and reason, or
    refuse with corresponding codes, and leave the same state (audit, cache, metrics,
    permits) behind. *)
Theorem transports_agree st authz pb req he uuid e :
  http_style pb = Ok req → it_uuid (he_draws he O) = uuid → it_env (he_draws he O) = e →
  let '(r, st1) := grpc_evaluation st authz pb (he_now he) (he_panics he) uuid e in
  let '(h, st2) := router st "POST" "/access/v1/evaluation" authz (Ok (PEvaluation req)) he in
  st1 = st2 ∧ same_outcome r h.
Proof.
  intros Hreq Huuid Henv. unfold grpc_evaluation, router, auth_layer_fn. cbn [required_for].
  change (required_for "POST" "/access/v1/evaluation") with ("authorize", true).
  replace (bool_decide ("/access/v1/evaluation" = "/healthz")
           || bool_decide ("/access/v1/evaluation" = "/readyz")) with false by reflexivity.
  assert (Hgate : (match auth st with
                   | Disabled => (Next None, auth_slots st)
                   | ApiKeyAuth | ReloadableApiKey _ =>
                       let '(r, slots) := authenticate_bearer_async_with_slots (auth st) (key_store st)
                         authz "authorize" true (he_now he) (he_panics he) (auth_slots st) in
                       (match r with
                        | Ok identity => Next identity
                        | Err Unauthenticated => Respond 401 (ln "unauthorized")
                        | Err Forbidden => Respond 403 (ln "forbidden")
                        | Err Unavailable => Respond 503 (ln "authentication capacity exhausted")
                        end, slots)
                   end) =
                  let '(r, slots) := authenticate_bearer_async_with_slots (auth st) (key_store st)
                    authz "authorize" true (he_now he) (he_panics he) (auth_slots st) in
                  (match r with
                   | Ok identity => Next identity
                   | Err Unauthenticated => Respond 401 (ln "unauthorized")
                   | Err Forbidden => Respond 403 (ln "forbidden")
                   | Err Unavailable => Respond 503 (ln "authentication capacity exhausted")
                   end, slots)).
  { destruct (auth st) eqn:Hl; [|done|done]. by rewrite (disabled_gate Disabled). }
  cbn zeta. rewrite Hgate. clear Hgate.
  destruct (authenticate_bearer_async_with_slots _ _ _ _ _ _ _ _) as [[caller|failure] sl].
  2: { destruct failure; simpl; auto. }
  rewrite Hreq. unfold dispatch. cbn [bool_decide]. rewrite !bool_decide_eq_true_2 by done.
  rewrite Huuid, Henv. unfold evaluation.
  destruct (evaluation_request_for_caller req caller uuid) as [agent_req|[]]; [|by simpl..].
  cbn [mapping_response] in *.
  destruct (authorize_and_persist_decision _ _ e) as [[[d el]|err] st1].
  - split; [done|]. eexists. split; [done|]. done.
  - unfold work_failure, report_pdp_work_failure. destruct err; simpl; auto.
Qed.
End grpc.
