(* ===== verification/ChainSecret.v ===== *)
(** * Chain secrets ([agentguard-core/src/chain_secret.rs])

    [decode]: a secret file holds 64 hex digits, standard base64, or raw bytes. *)

From S2P Require Import Prelude Crypto.

(** [base64::engine::general_purpose::STANDARD] *)
Class Base64Std := {
  std_encode : bytes → string;
  std_decode : string → result string bytes;
}.
(** Decoding inverts encoding into visible characters, and nothing encodes as nothing. *)
Class Base64StdLaws `{Base64Std} : Prop := {
  std_decode_encode b : std_decode (std_encode b) = Ok b;
  std_encode_plain b : forallb plain (String.list_ascii_of_string (std_encode b)) = true;
  std_encode_empty : std_encode "" = "";
}.
(** Two hex digits per byte. *)
Class HexLength `{Hex} : Prop := {
  hex_encode_length b : String.length (hex_encode b) = (2 * String.length b)%nat;
}.

Definition is_ascii_hexdigit (c : ascii) : bool :=
  let n := nat_of_ascii c in
  ((48 <=? n) && (n <=? 57) || (97 <=? n) && (n <=? 102) || (65 <=? n) && (n <=? 70))%nat.

Section decode.
Context `{Hex, Base64Std}.

Definition decode_chain_secret (b : bytes) : option bytes :=
  if bool_decide (b = "") then None
  else if utf8_valid b then
    let s := trim b in
    let hex := if (String.length s =? 64)%nat
                  && forallb is_ascii_hexdigit (String.list_ascii_of_string s)
               then to_ok (hex_decode s) else None in
    match hex with
    | Some k => Some k
    | None => match std_decode s with Ok k => Some k | Err _ => Some b end
    end
  else Some b.
End decode.

Section secrets.
Context `{HexLaws, !HexLength, Base64StdLaws}.

Lemma plain_utf8 s : forallb plain (String.list_ascii_of_string s) = true → utf8_valid s = true.
Proof.
  induction s as [|c s IH]; [done|]. cbn [String.list_ascii_of_string forallb].
  rewrite andb_true_iff. intros [Hc Hs]. unfold plain in Hc. apply andb_true_iff in Hc as [_ Hc].
  apply Nat.leb_le in Hc. simpl. destruct (Nat.ltb_spec (nat_of_ascii c) 128); [auto|lia].
Qed.

Lemma hex_char_digit c : hex_char c = true → is_ascii_hexdigit c = true ∧ plain c = true.
Proof.
  unfold hex_char, is_ascii_hexdigit, plain. intros Hc.
  rewrite Hc. split; [done|]. apply orb_true_iff in Hc as [Hc|Hc]; apply andb_true_iff in Hc as [Hlo Hhi];
    apply Nat.leb_le in Hlo, Hhi; apply andb_true_iff; rewrite !Nat.leb_le; lia.
Qed.

Lemma forallb_impl {A} (p q : A → bool) l :
  (∀ x, p x = true → q x = true) → forallb p l = true → forallb q l = true.
Proof. intros Hpq. rewrite !List.forallb_forall. auto. Qed.

(** A secret written as hex or as standard base64, with or without a final newline, is
    decoded to the key it encodes: 32 bytes in hex; any nonempty key in base64 whose text is
    not 64 hex digits. *)
Theorem secret_roundtrip k tail :
  tail = "" ∨ tail = String newline "" → k ≠ "" →
  (String.length k = 32%nat → decode_chain_secret (hex_encode k +:+ tail) = Some k) ∧
  (forallb is_ascii_hexdigit (String.list_ascii_of_string (std_encode k)) = false ∨
     String.length (std_encode k) ≠ 64%nat →
   decode_chain_secret (std_encode k +:+ tail) = Some k).
Proof.
  intros Htail Hk.
  assert (Htext : ∀ t, forallb plain (String.list_ascii_of_string t) = true →
            utf8_valid (t +:+ tail) = true ∧ trim (t +:+ tail) = t).
  { intros t Ht. destruct Htail as [-> | ->].
    - rewrite string_app_nil_r. split; [by apply plain_utf8|by apply trim_plain].
    - split; [|by apply trim_line]. apply plain_utf8 in Ht as Hu. clear -Ht.
      induction t as [|c t IH]; [done|]. cbn [String.list_ascii_of_string forallb] in Ht.
      apply andb_true_iff in Ht as [Hc Ht]. unfold plain in Hc. apply andb_true_iff in Hc as [_ Hc].
      apply Nat.leb_le in Hc. simpl. destruct (Nat.ltb_spec (nat_of_ascii c) 128); [auto|lia]. }
  assert (Hne : ∀ t, t ≠ "" → bool_decide (t +:+ tail = "") = false).
  { intros t Ht. apply bool_decide_eq_false. by destruct t. }
  split.
  - intros Hlen. pose proof (hex_encode_chars k) as Hchars.
    destruct (Htext (hex_encode k)) as [Hu Ht].
    { eapply forallb_impl; [|exact Hchars]. intros c Hc. by apply hex_char_digit. }
    unfold decode_chain_secret. rewrite Hne, Hu, Ht.
    2: { intros He. pose proof (hex_encode_length k) as Hl. rewrite He in Hl. simpl in Hl. lia. }
    rewrite hex_encode_length, Hlen. simpl.
    rewrite (forallb_impl hex_char) by (done || (intros c Hc; by apply hex_char_digit)).
    by rewrite hex_decode_encode.
  - intros Hnot. destruct (Htext (std_encode k)) as [Hu Ht]; [apply std_encode_plain|].
    unfold decode_chain_secret. rewrite Hne, Hu, Ht.
    2: { intros He. apply Hk. pose proof (std_decode_encode k) as Hd.
         pose proof (std_decode_encode "") as Hd'. rewrite std_encode_empty in Hd'. congruence. }
    replace ((String.length (std_encode k) =? 64)%nat
             && forallb is_ascii_hexdigit (String.list_ascii_of_string (std_encode k))) with false.
    + by rewrite std_decode_encode.
    + symmetry. apply andb_false_iff. destruct Hnot as [Hn|Hn]; [by right|left]. by apply Nat.eqb_neq.
Qed.

(** A secret file of nothing but whitespace is accepted, as the empty HMAC key, which
    anyone can compute with; only a file of no bytes at all is refused. *)
Theorem blank_secret_is_empty_key b :
  b ≠ "" → utf8_valid b = true → is_blank b = true → decode_chain_secret b = Some "".
Proof.
  intros Hne Hu Hb. unfold is_blank in Hb. apply bool_decide_eq_true in Hb.
  unfold decode_chain_secret. rewrite bool_decide_eq_false_2, Hu, Hb by done. simpl.
  rewrite <-std_encode_empty at 1. by rewrite std_decode_encode.
Qed.
End secrets.

Module Concrete.
Import Crypto.Concrete.
#[export] Instance std64 : Base64Std := {| std_encode := enc; std_decode := dec |}.
#[export] Instance std64_laws : Base64StdLaws.
Proof.
  split; [exact b64_decode_encode| |done]. intros b. induction b as [|c b IH]; [done|].
  cbn [std_encode std64 enc String.list_ascii_of_string forallb] in *. rewrite IH.
  clear. by destruct c as [[] [] [] [] [] [] [] []].
Qed.
#[export] Instance hex_length : HexLength.
Proof.
  split. intros b. cbn. induction b as [|c b IH]; [done|]. cbn [hexenc].
  rewrite !string_length_app, IH.
  assert (Hd : String.length (hex_digit (nat_of_ascii c / 16)) = 1%nat ∧
               String.length (hex_digit (nat_of_ascii c mod 16)) = 1%nat).
  { clear. by destruct c as [[] [] [] [] [] [] [] []]. }
  destruct Hd as [-> ->]. simpl. lia.
Qed.

(** The witness of [secret_roundtrip]. *)
Example secret_roundtrip_witness :
  decode_chain_secret (hex_encode (pad 32 "key") +:+ String newline "") = Some (pad 32 "key").
Proof.
  apply (secret_roundtrip (pad 32 "key") (String newline "")); [by right|done|done].
Defined.

(** The witness of [blank_secret_is_empty_key]: a file with one newline. *)
Example blank_secret_is_empty_key_witness : decode_chain_secret (String newline "") = Some "".
Proof. by apply blank_secret_is_empty_key. Defined.
End Concrete.
