(* ===== verification/Server.v ===== *)
(** * Starting and running the server ([agentguard-server/src/listener.rs], [main.rs], [server.rs])

    The configuration and its security checks, the state [run] builds, and the two loops
    that keep it current: the API-key watcher and the policy watcher.  Serving and stopping
    are in [Lifecycle]; socket addresses come as a class, and file contents as the
    directories of [AuditFs] or as functions of the path. *)

From S2P Require Import Prelude Json Ids CoreError AuthError Crypto Trace Request DecisionRecord HashChain Canonical AuditFs AuditLog ApiKey Cache Engine Text Semaphore AuthLayer Metrics PolicyStore AuthZen Pdp AuditPort ChainSecret.

(** [SocketAddr] *)
Class Net := {
  socket_addr : Type;
  parse_socket_addr : string → result string socket_addr;
  ip_is_loopback : socket_addr → bool;
}.

Section config.
Context `{Net}.

(** ** Listeners *)

Inductive Listener : Type :=
| Tcp (addr : socket_addr)
| Tls (addr : socket_addr) (cert key : string).

Definition is_public (l : Listener) : bool :=
  match l with Tcp addr | Tls addr _ _ => negb (ip_is_loopback addr) end.

(** The loop over [k=v] of the query. *)
Fixpoint tls_query (parts : gmap string string) (kvs : list string) : result string (gmap string string) :=
  match kvs with
  | [] => Ok parts
  | kv :: kvs =>
      '(k, v) ← ok_or (split_once "=" kv) ("malformed tls query: " +:+ kv);
      _ ← bail_if (bool_decide (is_Some (parts !! k))) ("duplicate tls query key: " +:+ k);
      tls_query (<[k := v]> parts) kvs
  end.

Definition listener_parse (s : string) : result string Listener :=
  match strip_prefix "tcp://" s with
  | Some rest => map_err (λ e, "bad tcp addr: " +:+ e) (a ← parse_socket_addr rest; Ok (Tcp a))
  | None =>
      match strip_prefix "tls://" s with
      | Some rest =>
          let '(addr, qs) := default (rest, "") (split_once "?" rest) in
          parts ← tls_query ∅ (filter (λ kv, kv ≠ "") (split "&"%char qs));
          cert ← ok_or (parts !! "cert") "tls:// requires ?cert=PATH";
          key ← ok_or (parts !! "key") "tls:// requires ?key=PATH";
          a ← map_err (λ e, "bad tls addr: " +:+ e) (parse_socket_addr addr);
          Ok (Tls a cert key)
      | None =>
          if starts_with "unix://" s then
            Err "unix:// listener is not implemented yet; use tcp:// or tls://"
          else Err ("unknown listener scheme: " +:+ s)
      end
  end.

(** ** Authentication modes *)

Definition parse_env_value (value : option string) : result string AuthConfig :=
  match value with
  | None => Ok ConfigDisabled
  | Some value =>
      if bool_decide (value = "") || bool_decide (value = "disabled") then Ok ConfigDisabled
      else match strip_prefix "apikey:" value with
           | Some path =>
               if bool_decide (path = "") then Err "AGENTGUARD_AUTH=apikey: requires a non-empty path"
               else Ok (ConfigApiKey path)
           | None => Err ("AGENTGUARD_AUTH must be 'disabled' or 'apikey:<path>', got " +:+ debug_str value)
           end
  end.

Definition auth_from_env (v : env_var) : result string AuthConfig :=
  match v with
  | EnvValue v => parse_env_value (Some v)
  | EnvNotPresent => parse_env_value None
  | EnvNotUnicode => Err "AGENTGUARD_AUTH is not valid Unicode"
  end.

(** [str::trim_start_matches] of a string takes every copy off the front. *)
Fixpoint trim_start_str (fuel : nat) (p s : string) : string :=
  match fuel with
  | O => s
  | S fuel => match strip_prefix p s with Some rest => trim_start_str fuel p rest | None => s end
  end.

(** [auth_config] of [main.rs] *)
Definition auth_config (mode : string) (key_file : option string) : result string AuthConfig :=
  if bool_decide (mode = "disabled") then Ok ConfigDisabled
  else if bool_decide (mode = "apikey") then
    path ← ok_or key_file "--auth apikey requires --auth-key-file <path>"; Ok (ConfigApiKey path)
  else if starts_with "apikey:" mode then
    _ ← bail_if (bool_decide (is_Some key_file))
          "do not combine AGENTGUARD_AUTH=apikey:<path> with --auth-key-file";
    let path := trim_start_str (String.length mode) "apikey:" mode in
    _ ← bail_if (bool_decide (path = "")) "AGENTGUARD_AUTH=apikey:<path> requires a non-empty path";
    Ok (ConfigApiKey path)
  else Err ("--auth must be 'disabled', 'apikey', or 'apikey:<path>'; got " +:+ debug_str mode).

Definition parse_grpc_listener (value : option string) : result string (option socket_addr) :=
  match value with
  | None => Ok None
  | Some raw =>
      if bool_decide (raw = "") then Ok None
      else map_err (λ error, "AGENTGUARD_GRPC_LISTEN must be a socket address, got " +:+ debug_str raw
                             +:+ ": " +:+ error)
             (a ← parse_socket_addr raw; Ok (Some a))
  end.

Record ServerConfig : Type := mkServerConfig {
  listener : Listener;
  cfg_store_root : string;
  audit_log : option string;
  chain_secret : option string;
  cfg_auth : AuthConfig;
  grpc_listener : option socket_addr;
}.

(** [std::env::var(..).ok()] *)
Definition env_ok_ (v : env_var) : option string :=
  match v with EnvValue v => Some v | EnvNotPresent | EnvNotUnicode => None end.

Record server_vars : Type := mkServerVars {
  v_listen : env_var; v_store : env_var; v_audit : env_var; v_secret : env_var; v_auth : env_var;
  v_grpc : env_var;
}.

Definition server_config_from_env (v : server_vars) : result string ServerConfig :=
  l ← listener_parse (default "tcp://127.0.0.1:8443" (env_ok_ (v_listen v)));
  a ← auth_from_env (v_auth v);
  g ← parse_grpc_listener (env_ok_ (v_grpc v));
  Ok (mkServerConfig l (default ".agentguard" (env_ok_ (v_store v)))
        (Some (default ".audit/decisions.jsonl" (env_ok_ (v_audit v)))) (env_ok_ (v_secret v)) a g).

(** The command line of [main.rs], with its defaults filled in. *)
Record Cli : Type := mkCli {
  cli_listen : string; cli_store : string; cli_audit : string; cli_auth : string;
  cli_auth_key_file : option string; cli_grpc_listen : string;
}.

Definition main_config (c : Cli) (secret : env_var) : result string ServerConfig :=
  l ← map_err (λ e, "invalid listen '" +:+ cli_listen c +:+ "': " +:+ e) (listener_parse (cli_listen c));
  a ← auth_config (cli_auth c) (cli_auth_key_file c);
  g ← (if bool_decide (cli_grpc_listen c = "") then Ok None
       else map_err (λ e, "invalid --grpc-listen '" +:+ cli_grpc_listen c +:+ "': " +:+ e)
              (a ← parse_socket_addr (cli_grpc_listen c); Ok (Some a)));
  Ok (mkServerConfig l (cli_store c) (Some (cli_audit c)) (env_ok_ secret) a g).

(** ** Checks before anything is bound *)

(** [stat] is [std::fs::metadata]: whether a regular file, and its length. *)
Definition validate_tls_path (stat : string → result string (bool * Z)) (label path : string) :
    result string unit :=
  '(is_file, n) ← map_err (λ e, "tls " +:+ label +:+ " " +:+ debug_str path +:+ " not readable: " +:+ e)
                    (stat path);
  _ ← bail_if (negb is_file) ("tls " +:+ label +:+ " " +:+ debug_str path +:+ " is not a regular file");
  bail_if (n =? 0) ("tls " +:+ label +:+ " " +:+ debug_str path +:+ " is empty").

Definition validate_tls_paths (stat : string → result string (bool * Z)) (cert key : string) :
    result string unit :=
  _ ← validate_tls_path stat "cert" cert; validate_tls_path stat "key" key.

Definition validate_grpc_listener (addr : socket_addr) : result string unit :=
  bail_if (negb (ip_is_loopback addr)) "gRPC listener must be loopback-bound until TLS is supported".

Definition parse_audit_rotation (value : option string) : result string (option RotationConfig) :=
  match value with
  | None => Ok None
  | Some v => map_err (λ error, "AGENTGUARD_AUDIT_MAX_BYTES " +:+ error)
                (r ← rotation_parse v; Ok (Some r))
  end.

Definition is_disabled (a : AuthConfig) : bool :=
  match a with ConfigDisabled => true | ConfigApiKey _ => false end.

Definition validate_listener_security (l : Listener) (grpc : option socket_addr) (a : AuthConfig)
    (allow_loopback_bypass : bool) : result string unit :=
  _ ← match grpc with Some addr => validate_grpc_listener addr | None => Ok tt end;
  bail_if (is_disabled a && is_public l && negb allow_loopback_bypass)
    ("auth is disabled but the listener is not loopback-bound; "
     +:+ "set AGENTGUARD_AUTH=apikey:<path> or AGENTGUARD_ALLOW_LOOPBACK_BYPASS=1").
End config.

(** ** Building the state *)

Section build.
Context (dir : string).
Context `{CedarStore, !CedarBuild, !JsonText, !JsonScalars, !Hex, !Sha256, !Hmac, !UuidText}.
Context `{!RecordCodec, !ActorCodec, !Lru bytes (CachedDecision * Z), !F64, !Semaphore}.
Context `{!Argon2, !Base64, !ApiKeyCodec, !Base64Std, !Net, !DurationText} {T : Type}.

Abbreviation State_ := (@AppState _ _ _ _ _ (DecisionLog * world) T).

Record AppStateOptions : Type := mkOptions {
  opt_cache : option CacheConfig;
  opt_rotation : option RotationConfig;
}.

(** The four ways to open the log, with their messages. *)
Definition open_audit (path : string) (secret : option bytes) (rot : option RotationConfig)
    (fresh : ChainId) (uuid : string) (w : world) : result string (DecisionLog * world) :=
  let '(r, w) := open_internal dir path secret rot fresh uuid w in
  let what := match secret, rot with
              | Some _, Some _ => "open rotating chained audit log: "
              | Some _, None => "open chained audit log: "
              | None, Some _ => "open rotating audit log: "
              | None, None => "open audit log: "
              end in
  l ← map_err (λ e, what +:+ error_display e) r; Ok (l, w).

(** What a start draws: the directories, and the ids of a new chain. *)
Record start_env : Type := mkStartEnv {
  se_load : load_env;
  se_audit : world;
  se_fresh : ChainId;
  se_uuid : string;
  se_keys : world;
  se_read : string → result string bytes;
  se_stat : string → result string (bool * Z);
}.

Definition build_state_with_options (store_root : string) (audit_log : option string)
    (chain_secret : option bytes) (auth : AuthLayer * ApiKeyStore) (options : AppStateOptions)
    (e : start_env) : result string State_ :=
  authorizer ← handle_new store_root (opt_cache options) (se_load e);
  audit ← (match audit_log with
           | Some path =>
               lw ← open_audit path chain_secret (opt_rotation options) (se_fresh e) (se_uuid e)
                      (se_audit e);
               Ok (Some (Sync lw))
           | None => Ok None
           end);
  Ok (mkAppState authorizer audit auth.1 auth.2
        (semaphore_new MAX_CONCURRENT_API_KEY_VERIFICATIONS) metrics_new
        (semaphore_new MAX_CONCURRENT_PDP_WORK_ITEMS)).

Definition build_state (store_root : string) (audit_log : option string) (chain_secret : option bytes)
    (auth : AuthLayer * ApiKeyStore) (e : start_env) : result string State_ :=
  build_state_with_options store_root audit_log chain_secret auth
    (mkOptions (Some default_cache_config) None) e.

Definition build_state_with_cache (store_root : string) (audit_log : option string)
    (chain_secret : option bytes) (auth : AuthLayer * ApiKeyStore) (cache : option CacheConfig)
    (e : start_env) : result string State_ :=
  build_state_with_options store_root audit_log chain_secret auth (mkOptions cache None) e.

Record run_vars : Type := mkRunVars {
  rv_ttl : env_var; rv_deny : env_var; rv_cap : env_var; rv_max_bytes : env_var; rv_bypass : env_var;
}.

Definition bypass_set (v : env_var) : bool :=
  match v with
  | EnvValue v => bool_decide (v = "1") || eq_ignore_ascii_case v "true"
  | EnvNotPresent | EnvNotUnicode => false
  end.

(** [run] up to the point where it serves: the checks, then the state. *)
Definition startup (cfg : ServerConfig) (v : run_vars) (e : start_env) : result string State_ :=
  cache ← map_err (λ error, "invalid decision cache configuration: " +:+ error)
            (try_config_from_env (rv_ttl v) (rv_deny v) (rv_cap v));
  rot ← match rv_max_bytes v with
        | EnvValue value => parse_audit_rotation (Some value)
        | EnvNotPresent => parse_audit_rotation None
        | EnvNotUnicode => Err "AGENTGUARD_AUDIT_MAX_BYTES must be valid Unicode"
        end;
  _ ← match listener cfg with
      | Tls _ cert key => validate_tls_paths (se_stat e) cert key
      | Tcp _ => Ok tt
      end;
  let bypass := bypass_set (rv_bypass v) in
  _ ← validate_listener_security (listener cfg) (grpc_listener cfg) (cfg_auth cfg) bypass;
  auth ← map_err (λ e, "auth layer: " +:+ e) (from_config (cfg_auth cfg) bypass (se_keys e)).1;
  secret ← match chain_secret cfg with
           | Some path =>
               b ← map_err (λ e, "read chain secret " +:+ debug_str path +:+ ": " +:+ e) (se_read e path);
               k ← ok_or (decode_chain_secret b)
                     ("chain secret file " +:+ debug_str path +:+ " is empty");
               Ok (Some k)
           | None => Ok None
           end;
  map_err (λ e, "build state: " +:+ e)
    (build_state_with_options (cfg_store_root cfg) (audit_log cfg) secret auth
       (mkOptions (Some cache) rot) e).

(** [build_router]: the state of the router for embedders. *)
Definition build_router (cfg : ServerConfig) (allow_loopback_bypass : bool) (e : start_env) : result string State_ :=
  auth ← map_err (λ e, "auth layer: " +:+ e) (from_config (cfg_auth cfg) allow_loopback_bypass (se_keys e)).1;
  secret ← match chain_secret cfg with
           | Some path =>
               b ← map_err (λ e, "read chain secret " +:+ debug_str path +:+ ": " +:+ e) (se_read e path);
               Ok (decode_chain_secret b)
           | None => Ok None
           end;
  map_err (λ e, "build state: " +:+ e)
    (build_state (cfg_store_root cfg) (audit_log cfg) secret auth e).

(** ** The API-key watcher *)

(** One tick of the loop of [spawn_api_key_watcher]: the store and [last_attempted_snapshot]. *)
Definition key_watcher_tick (path : string) (store : ApiKeyStore) (last : option bytes) (w : world) :
    ApiKeyStore * option bytes * world :=
  match fs_read path w with
  | (Ok snap, w) =>
      if bool_decide (last = Some snap) then (store, last, w)
      else let '(_, store, w) := reload_from_file store path w in (store, Some snap, w)
  | (Err NotFound, w) =>
      match last with
      | Some _ => let '(_, store, w) := reload_from_file store path w in (store, None, w)
      | None => (store, None, w)
      end
  | (Err _, w) => (store, last, w)
  end.

(** The part before the loop. *)
Definition key_watcher_start (path : string) (store : ApiKeyStore) (w : world) :
    ApiKeyStore * option bytes * world :=
  let '(r, w) := fs_read path w in
  let '(_, store, w) := reload_from_file store path w in
  (store, to_ok r, w).

(** The embedder's view of [ReloadSink]: a tick of the policy watcher's loop. *)
Definition policy_watcher_tick {A} (events : list A) (st : State_) (e : load_env) : State_ :=
  match events with [] => st | _ => app_reload st e end.
End build.

(** ** A server that starts is as secure as its configuration says *)

Section starting.
Context (dir : string).
Context `{CedarStore, !CedarBuild, !JsonText, !JsonScalars, !Hex, !Sha256, !Hmac, !UuidText}.
Context `{!RecordCodec, !ActorCodec, !Lru bytes (CachedDecision * Z), !F64, !Semaphore, !SemaphoreLaws}.
Context `{!Argon2, !Base64, !ApiKeyCodec, !Base64Std, !Net, !DurationText} {T : Type}.

Abbreviation State_ := (@AppState _ _ _ _ _ (DecisionLog * world) T).

Lemma logm_bind_inv {A B} (m : logm A) (k : A → logm B) w b w' :
  (m ≫= k) w = (Ok b, w') → ∃ a w1, m w = (Ok a, w1) ∧ k a w1 = (Ok b, w').
Proof. rewrite logm_bind_eq. destruct (m w) as [[a|e] w1]; [eauto|done]. Qed.

Lemma open_internal_mode name key rot fresh uuid w l w' :
  open_internal dir name key rot fresh uuid w = (Ok l, w') →
  is_healthy l = true ∧ log_is_chained l = bool_decide (is_Some key) ∧ rotation l = rot ∧ path l = name.
Proof.
  unfold open_internal. intros (? & w1 & _ & (? & w2 & _ & Hl)%logm_bind_inv)%logm_bind_inv.
  destruct key as [k|]; [|by injection Hl as <- _].
  repeat (apply logm_bind_inv in Hl as (? & ? & _ & Hl)). by injection Hl as <- _.
Qed.

Lemma build_state_inv root audit secret (au : AuthLayer * ApiKeyStore) opts e (st : State_) :
  build_state_with_options dir root audit secret au opts e = Ok st →
  auth st = au.1 ∧ key_store st = au.2 ∧
  (∃ a, snapshots (authorizer st) !! current (authorizer st) = Some a ∧
        (handle_load root (opt_cache opts) (se_load e)).1 = Ok a) ∧
  available_permits (pdp_work_slots st) = MAX_CONCURRENT_PDP_WORK_ITEMS ∧
  available_permits (auth_slots st) = MAX_CONCURRENT_API_KEY_VERIFICATIONS ∧
  match audit with
  | None => audit_appender st = None
  | Some _ => ∃ l w, audit_appender st = Some (Sync (l, w)) ∧ is_healthy l = true ∧
                log_is_chained l = bool_decide (is_Some secret) ∧ rotation l = opt_rotation opts
  end.
Proof.
  unfold build_state_with_options, handle_new.
  intros (h & (a & Ha & [= <-])%bind_Ok & (au' & Hau & [= <-])%bind_Ok)%bind_Ok. simpl.
  rewrite !new_available. split_and!; try done.
  - exists a. by rewrite lookup_singleton_eq.
  - destruct audit as [path|]; [|by injection Hau as <-].
    apply bind_Ok in Hau as ([l w] & Hopen & [= <-]). unfold open_audit in Hopen.
    destruct (open_internal dir path secret _ _ _ _) as [r w'] eqn:Hr.
    apply bind_Ok in Hopen as (l' & Hl & [= <- <-]). apply map_err_Ok in Hl as ->.
    apply open_internal_mode in Hr as (Hh & Hc & Hrot & _). by exists l', w'.
Qed.

(** C19: when [run] gets to serve, it serves what was configured: it is authenticated, or
    bound to loopback, or the operator has asked for the bypass; gRPC is on loopback; what is
    served are the policies that were loaded from the configured store; the audit log is open,
    healthy, and chained exactly when a secret is configured; and the permits are at their
    limits. *)
Theorem startup_secure cfg v e (st : State_) :
  startup dir cfg v e = Ok st →
  (auth st = Disabled → is_public (listener cfg) = true → bypass_set (rv_bypass v) = true) ∧
  (auth st = Disabled ↔ cfg_auth cfg = ConfigDisabled) ∧
  (∀ a, grpc_listener cfg = Some a → ip_is_loopback a = true) ∧
  (∃ a cache, snapshots (authorizer st) !! current (authorizer st) = Some a ∧
     (handle_load (cfg_store_root cfg) cache (se_load e)).1 = Ok a) ∧
  match audit_log cfg with
  | None => audit_appender st = None
  | Some _ => ∃ l w, audit_appender st = Some (Sync (l, w)) ∧ is_healthy l = true ∧
                log_is_chained l = bool_decide (is_Some (chain_secret cfg))
  end ∧
  available_permits (pdp_work_slots st) = MAX_CONCURRENT_PDP_WORK_ITEMS ∧
  available_permits (auth_slots st) = MAX_CONCURRENT_API_KEY_VERIFICATIONS.
Proof.
  unfold startup. intros (cache & _ & (rot & _ & (u & _ & (u' & Hsec & Hrest)%bind_Ok)%bind_Ok)%bind_Ok)%bind_Ok.
  apply bind_Ok in Hrest as (au & Hau & (secret & Hs & Hb)%bind_Ok).
  apply map_err_Ok in Hau, Hb. apply build_state_inv in Hb as (Hauth & _ & (a & Ha & Hload) & Hpdp & Hsl & Haudit).
  unfold validate_listener_security in Hsec. apply bind_Ok in Hsec as (u2 & Hg & Hl). apply bail_if_Ok in Hl.
  assert (Hd : au.1 = Disabled ↔ cfg_auth cfg = ConfigDisabled).
  { unfold from_config in Hau. destruct (cfg_auth cfg) as [|path].
    - by injection Hau as <-.
    - destruct (load_from_file path (se_keys e)) as [[store|] w]; [|done]. by injection Hau as <-. }
  assert (Hsecret : bool_decide (is_Some secret) = bool_decide (is_Some (chain_secret cfg))).
  { destruct (chain_secret cfg) as [p|]; [|by injection Hs as <-].
    apply bind_Ok in Hs as (b & _ & (k & _ & [= <-])%bind_Ok). done. }
  rewrite Hauth. split_and!; eauto.
  - intros Hdis Hpub. apply Hd in Hdis. rewrite Hdis, Hpub in Hl. simpl in Hl. by apply negb_false_iff in Hl.
  - intros x Hx. rewrite Hx in Hg. apply bail_if_Ok in Hg. by apply negb_false_iff in Hg.
  - destruct (audit_log cfg); [|done]. destruct Haudit as (l & w & ? & ? & Hc & _).
    exists l, w. by rewrite Hc, Hsecret.
Qed.

(** [build_router] builds the same state whatever its listener and flag are: passing
    [false] does not make it refuse an unauthenticated public listener. *)
Lemma build_router_ignores_listener cfg e l g b b' :
  build_router dir (T := T) cfg b e =
  build_router dir (mkServerConfig l (cfg_store_root cfg) (audit_log cfg) (chain_secret cfg)
                      (cfg_auth cfg) g) b' e.
Proof. by destruct cfg. Qed.

(** ... and an empty secret file, which [run] refuses, gives it a log without a chain. *)
Lemma build_router_empty_secret cfg e path p (st : State_) b :
  chain_secret cfg = Some path → se_read e path = Ok "" → audit_log cfg = Some p →
  build_router dir cfg b e = Ok st →
  ∃ l w, audit_appender st = Some (Sync (l, w)) ∧ log_is_chained l = false.
Proof.
  intros Hc Hr Ha. unfold build_router, build_state. rewrite Hc, Hr, Ha. simpl.
  intros (au & _ & Hb)%bind_Ok. apply map_err_Ok in Hb.
  apply build_state_inv in Hb as (_ & _ & _ & _ & _ & l & w & Hl & _ & Hch & _). eauto.
Qed.
End starting.

(** ** The API-key watcher follows the file *)

Section key_watcher.
Context `{Argon2, Base64, ApiKeyCodec}.
Context (path : string).

Abbreviation tick := (key_watcher_tick path).

(** Without storage faults: what the file has, and the keys that gives. *)
Definition content_at (m : gmap string entry) : option bytes :=
  match m !! path with Some (Regular c) => Some c | Some Special => Some "" | None => None end.
Definition file_keys (m : gmap string entry) : aresult ApiKeyStore := (read_keys path (mkWorld m [])).1.

Lemma read_keys_world m : read_keys path (mkWorld m []) = (file_keys m, mkWorld m []).
Proof.
  unfold file_keys, read_keys, fs_exists, fs_stat, fs_read_to_string, fs_read.
  rewrite !fs_bind_eq. unfold fs_try. rewrite syscall_calm.
  destruct (m !! path) as [c|] eqn:Hm; simpl; [|done].
  rewrite fs_bind_eq, syscall_calm. rewrite Hm. by destruct c as [c|]; simpl; [destruct (utf8_valid c)|].
Qed.

Lemma file_keys_content m m' : content_at m = content_at m' → file_keys m = file_keys m'.
Proof.
  unfold file_keys, read_keys, fs_exists, fs_stat, fs_read_to_string, fs_read, content_at.
  intros Hc. rewrite !fs_bind_eq. unfold fs_try. rewrite !syscall_calm.
  destruct (m !! path) as [[c|]|] eqn:Hm, (m' !! path) as [[c'|]|] eqn:Hm'; simplify_eq; simpl;
    try done; rewrite ?fs_bind_eq, ?syscall_calm, ?Hm, ?Hm'; simpl; try done;
    by destruct (utf8_valid c').
Qed.

Lemma file_keys_missing m : content_at m = None → file_keys m = Ok ∅.
Proof.
  unfold content_at, file_keys, read_keys, fs_exists, fs_stat.
  intros Hc. rewrite !fs_bind_eq. unfold fs_try. rewrite syscall_calm.
  by destruct (m !! path) as [[]|].
Qed.

(** What every reload of the file gives. *)
Definition reloaded (m : gmap string entry) (store : ApiKeyStore) : ApiKeyStore :=
  default store (to_ok (file_keys m)).

Lemma tick_calm store last m :
  tick store last (mkWorld m []) =
  (if bool_decide (last = content_at m) then store else reloaded m store, content_at m, mkWorld m []).
Proof.
  unfold key_watcher_tick, fs_read. rewrite syscall_calm. unfold reload_from_file.
  rewrite !read_keys_world. unfold content_at, reloaded.
  destruct (m !! path) as [[c|]|]; simpl.
  - case_bool_decide as Hl; [by subst|]. by destruct (file_keys m).
  - case_bool_decide as Hl; [by subst|]. by destruct (file_keys m).
  - destruct last as [s|]; [|by rewrite bool_decide_eq_true_2].
    rewrite bool_decide_eq_false_2 by done. by destruct (file_keys m).
Qed.

(** The store holds what the last content looked at gives. *)
Definition in_step (store : ApiKeyStore) (last : option bytes) : Prop :=
  ∀ m, content_at m = last → reloaded m store = store.

Lemma tick_in_step store last m :
  in_step store last → let '(store', last', _) := tick store last (mkWorld m []) in
  store' = reloaded m store ∧ in_step store' last'.
Proof.
  intros Hin. rewrite tick_calm. case_bool_decide as Hl.
  - rewrite (Hin m) by done. split; [done|]. by rewrite <-Hl.
  - split; [done|]. intros m' Hm'. unfold reloaded.
    rewrite (file_keys_content m' m) by done. by destruct (file_keys m).
Qed.

(** The watcher over a sequence of file states, and the reference that reloads each time. *)
Fixpoint watch (store : ApiKeyStore) (last : option bytes) (ms : list (gmap string entry)) :
    ApiKeyStore :=
  match ms with
  | [] => store
  | m :: ms => let '(store, last, _) := tick store last (mkWorld m []) in watch store last ms
  end.

(** While the storage works, the watcher keeps the key store in step with the key
    file: after every tick the store is what loading the file at that tick gives (a
    revocation or removal in the file takes effect at the next tick), and a file that does
    not load leaves the last good keys.  Remembering the last content changes nothing but
    the number of loads. *)
Theorem key_watcher_follows_file store0 m0 ms :
  let '(store, last, _) := key_watcher_start path store0 (mkWorld m0 []) in
  watch store last ms = fold_left (λ s m, reloaded m s) ms (reloaded m0 store0).
Proof.
  unfold key_watcher_start, fs_read. rewrite syscall_calm. unfold reload_from_file.
  rewrite read_keys_world.
  assert (Hstart : ∀ last, last = content_at m0 → in_step (reloaded m0 store0) last).
  { intros last -> m Hm. unfold reloaded. rewrite (file_keys_content m m0) by done.
    by destruct (file_keys m0). }
  set (last := to_ok _). assert (Hl : last = content_at m0).
  { unfold last, content_at. by destruct (m0 !! path) as [[]|]. }
  replace (match file_keys m0 with Ok keys => _ | Err e => _ end)
    with (match file_keys m0 with Ok _ => Ok tt | Err e => Err e end, reloaded m0 store0, mkWorld m0 [])
    by (unfold reloaded; by destruct (file_keys m0)).
  specialize (Hstart last Hl). clear Hl. generalize (reloaded m0 store0) as store, last as l, Hstart.
  clear Hstart last. induction ms as [|m ms IH]; intros store l Hin; [done|]. simpl.
  pose proof (tick_in_step store l m Hin) as Ht.
  destruct (tick store l (mkWorld m [])) as [[store' l'] w]. destruct Ht as [-> Hin'].
  by apply IH.
Qed.

(** But one storage fault at the wrong moment makes the watcher give up on a file: it
    has read the new content, the load that follows fails, and the content counts as
    attempted; however often it looks again, the old keys stay, a revoked key among them. *)
Theorem key_watcher_never_retries store last m c err n ms :
  content_at m = Some c → last ≠ Some c → Forall (λ m', content_at m' = Some c) ms →
  let '(store', last', w') := tick store last (mkWorld m [None; None; Some (err, n)]) in
  store' = store ∧ watch store' last' ms = store.
Proof.
  intros Hc Hl Hms.
  assert (Ht : tick store last (mkWorld m [None; None; Some (err, n)]) = (store, Some c, mkWorld m [])).
  { unfold key_watcher_tick, fs_read, syscall, content_at in *. simpl.
    destruct (m !! path) as [[c'|]|] eqn:Hm; simplify_eq; simpl; rewrite bool_decide_eq_false_2 by done;
      unfold reload_from_file, read_keys, fs_exists, fs_stat, fs_read_to_string, fs_read;
      rewrite !fs_bind_eq; unfold fs_try, syscall; simpl; by rewrite Hm. }
  rewrite Ht. split; [done|]. clear Ht. induction Hms as [|m' ms Hm' _ IH]; [done|]. simpl.
  rewrite tick_calm, Hm', bool_decide_eq_true_2 by done. exact IH.
Qed.
End key_watcher.
