(* ===== verification/Lifecycle.v ===== *)
(** * Serving and stopping ([run] of [agentguard-server/src/server.rs])

    The part of [run] after the state is built: the two transports, the signals, and the
    return.  It is a step relation, as the transports and the wait for signals are tasks that
    run at the same time.  The servers of [axum], [axum-server] and [tonic] are a class
    [Transport] with what [run] relies on as its laws: told to stop they have finite work left
    and then end, gracefully without losing a request; [Handle::shutdown] of [axum-server]
    drops what is under way. *)

From S2P Require Import Prelude Json CoreError AuthError Crypto Trace Request DecisionRecord HashChain Canonical AuditFs AuditLog ApiKey Cache Engine Text Semaphore AuthLayer Metrics PolicyStore AuthZen Pdp AuditPort ChainSecret Server.

(** ** Signals *)

(** [ctrl_c()] completes with an error when its handler cannot be installed. *)
Inductive os_signal : Type := Interrupt (installed : bool) | Terminate | Hangup.

Inductive signal_wait : Type := Waiting | Parked | Signalled.

(** The handlers of SIGTERM and SIGHUP that could be installed. *)
Record handlers : Type := mkHandlers { on_terminate : bool; on_hangup : bool }.

Definition fires (h : handlers) (s : os_signal) : bool :=
  match s with Interrupt _ => true | Terminate => on_terminate h | Hangup => on_hangup h end.

(** ** The transports *)

(** What a server is told: to serve, to stop gracefully, or to stop at once. *)
Inductive order : Type := Serve | Drain | Drop.

(** A server as [run] sees it: its own steps, whether its future has completed, the requests
    under way and those it has given up. *)
Class Transport (T : Type) := {
  sv_new : T;
  sv_step : order → T → T → Prop;
  sv_done : T → bool;
  sv_under_way : T → nat;
  sv_lost : T → nat;
}.

Class TransportLaws (T : Type) `{Transport T} := {
  sv_rank : T → nat;
  new_not_done : sv_done sv_new = false;
  new_lost : sv_lost sv_new = 0%nat;
  (** told to stop, it has finite work left, goes on with it, and only then ends *)
  ordered_decreases o s s' : o ≠ Serve → sv_step o s s' → (sv_rank s' < sv_rank s)%nat;
  ordered_progress o s : o ≠ Serve → sv_done s = false → ∃ s', sv_step o s s';
  done_ends o s s' : sv_done s = true → ¬ sv_step o s s';
  done_idle s : sv_done s = true → sv_under_way s = 0%nat;
  serving_goes_on s s' : sv_step Serve s s' → sv_done s' = false;
  (** only a stop at once loses requests *)
  graceful_keeps o s s' : o ≠ Drop → sv_step o s s' → sv_lost s' = sv_lost s;
}.

Section signals.
Context {A E T : Type} (reload : E → A → A) `{Transport T}.

(** One round of the loop of [shutdown_signal_with_sighup]. *)
Definition take_signal (s : os_signal) (e : E) (st : A) : signal_wait * A :=
  match s with
  | Interrupt true | Terminate => (Signalled, st)
  | Interrupt false => (Parked, st)
  | Hangup => (Waiting, reload e st)
  end.

(** The loop on the signals that fire, in the order in which [select!] takes them. *)
Fixpoint shutdown_signal_with_sighup (h : handlers) (sigs : list (os_signal * E)) (st : A) :
    signal_wait * A :=
  match sigs with
  | [] => (Waiting, st)
  | (s, e) :: sigs =>
      if fires h s then
        match take_signal s e st with
        | (Waiting, st) => shutdown_signal_with_sighup h sigs st
        | done => done
        end
      else shutdown_signal_with_sighup h sigs st
  end.

(** ** The run *)

(** [lc_flag] is the watch channel that tells the gRPC server to stop; [lc_grpc] is the task of
    the gRPC server, if there is one, without a server when it ended with an error. *)
Record lifecycle : Type := mkLifecycle {
  lc_app : A;
  lc_wait : signal_wait;
  lc_flag : bool;
  lc_http : T;
  lc_grpc : option (option T);
  lc_watchers : bool;
  lc_result : option (result string unit);
}.

Definition set_http (l : lifecycle) (s : T) : lifecycle :=
  mkLifecycle (lc_app l) (lc_wait l) (lc_flag l) s (lc_grpc l) (lc_watchers l) (lc_result l).
Definition set_grpc (l : lifecycle) (s : option T) : lifecycle :=
  mkLifecycle (lc_app l) (lc_wait l) (lc_flag l) (lc_http l) (Some s) (lc_watchers l) (lc_result l).
Definition abort_watchers (l : lifecycle) : lifecycle :=
  mkLifecycle (lc_app l) (lc_wait l) (lc_flag l) (lc_http l) (lc_grpc l) false (lc_result l).
Definition return_with (l : lifecycle) (r : result string unit) : lifecycle :=
  mkLifecycle (lc_app l) (lc_wait l) (lc_flag l) (lc_http l) (lc_grpc l) (lc_watchers l) (Some r).

(** A signal to stop sets the flag before the HTTP server is told. *)
Definition signal_arrives (s : os_signal) (e : E) (l : lifecycle) : lifecycle :=
  let '(w, st) := take_signal s e (lc_app l) in
  mkLifecycle st w (match w with Signalled => true | _ => lc_flag l end) (lc_http l) (lc_grpc l)
    (lc_watchers l) (lc_result l).

Definition signalled (l : lifecycle) : bool := match lc_wait l with Signalled => true | _ => false end.

(** [tls]: the listener is [Listener::Tls], which is stopped with [Handle::shutdown]; the plain
    one is stopped gracefully, and so is gRPC. *)
Definition http_order (tls : bool) (l : lifecycle) : order :=
  if signalled l then if tls then Drop else Drain else Serve.
Definition grpc_order (l : lifecycle) : order := if lc_flag l then Drain else Serve.

Definition grpc_stopped (l : lifecycle) : bool :=
  match lc_grpc l with Some (Some g) => sv_done g | _ => true end.

Inductive run_step (h : handlers) (tls : bool) (l : lifecycle) : lifecycle → Prop :=
| rs_signal s e : lc_result l = None → lc_wait l = Waiting → fires h s = true →
    run_step h tls l (signal_arrives s e l)
| rs_http s : lc_result l = None → sv_step (http_order tls l) (lc_http l) s →
    run_step h tls l (set_http l s)
| rs_grpc g s : lc_result l = None → lc_grpc l = Some (Some g) → sv_step (grpc_order l) g s →
    run_step h tls l (set_grpc l (Some s))
| rs_grpc_failed g : lc_result l = None → lc_grpc l = Some (Some g) → sv_done g = false →
    run_step h tls l (set_grpc l None)
| rs_http_failed e : lc_result l = None → sv_done (lc_http l) = false →
    run_step h tls l (return_with l (Err e))
| rs_abort : lc_result l = None → sv_done (lc_http l) = true → lc_watchers l = true →
    run_step h tls l (abort_watchers l)
| rs_return : lc_result l = None → sv_done (lc_http l) = true → lc_watchers l = false → grpc_stopped l = true →
    run_step h tls l (return_with l (Ok tt)).

(** What [run] starts with: the watchers are running, the listener is bound. *)
Definition run_serving (st : A) (grpc : bool) : lifecycle :=
  mkLifecycle st Waiting false sv_new (if grpc then Some (Some sv_new) else None) true None.

(** [run] with the outcome of building the state, of starting the policy watcher and of
    binding the listener. *)
Definition run_begin (state : result string A) (watch bound : result string unit) (grpc : bool) :
    result string lifecycle :=
  st ← state;
  _ ← map_err (λ e, "initialize policy watcher: " +:+ e) watch;
  _ ← bound;
  Ok (run_serving st grpc).
End signals.

(** ** What a stop means *)

Section stopping.
Context {A E T : Type} (reload : E → A → A) `{TransportLaws T} (h : handlers) (tls : bool).
Abbreviation step := (run_step reload h tls).

(** The flag is up once there was a signal to stop; the HTTP server ends only after one, and a
    plain one loses nothing. *)
Record run_ok (l : lifecycle (A := A) (T := T)) : Prop := {
  ro_flag : lc_flag l = signalled l;
  ro_http : sv_done (lc_http l) = true → signalled l = true;
  ro_lost : tls = false → sv_lost (lc_http l) = 0%nat;
  ro_grpc_lost : ∀ g, lc_grpc l = Some (Some g) → sv_lost g = 0%nat;
  ro_result r : lc_result l = Some r →
    match r with
    | Ok _ => sv_done (lc_http l) = true ∧ grpc_stopped l = true ∧ lc_watchers l = false
    | Err _ => sv_done (lc_http l) = false
    end;
}.

Lemma run_step_ok l l' : step l l' → run_ok l → run_ok l'.
Proof.
  intros Hstep [Hflag Hhttp Hlost Hglost Hres].
  destruct Hstep as [s e Hr Hw Hf|s Hr Hs|g s Hr Hg Hs|g Hr Hg Hd|e Hr Hd|Hr Hd Hwt|Hr Hd Hwt Hg].
  - assert (Hns : signalled l = false) by (unfold signalled; by rewrite Hw).
    assert (Hnd : sv_done (lc_http l) = false) by (destruct (sv_done (lc_http l)); [by rewrite Hhttp in Hns|done]).
    unfold signal_arrives. destruct (take_signal reload s e (lc_app l)) as [w st].
    split; unfold signalled; simpl; [|by rewrite Hnd|done|done|by rewrite Hr]. rewrite Hflag, Hns. by destruct w.
  - split; simpl; [done| | |done|by rewrite Hr].
    + intros Hd. change (signalled l = true). destruct (signalled l) eqn:Hsig; [done|].
      unfold http_order in Hs. rewrite Hsig in Hs. by rewrite (serving_goes_on _ _ Hs) in Hd.
    + intros Htls. rewrite <-(Hlost Htls). eapply graceful_keeps; [|exact Hs].
      unfold http_order. rewrite Htls. by destruct (signalled l).
  - split; simpl; [done|done|done| |by rewrite Hr]. intros ? [= <-]. rewrite <-(Hglost g Hg).
    eapply graceful_keeps; [|exact Hs]. unfold grpc_order. by destruct (lc_flag l).
  - split; simpl; [done..|by rewrite Hr].
  - split; simpl; [done..|]. by intros ? [= <-].
  - split; simpl; [done..|by rewrite Hr].
  - split; simpl; [done..|]. by intros ? [= <-].
Qed.

Lemma run_ok_start st grpc : run_ok (run_serving st grpc).
Proof.
  split; unfold run_serving, signalled; simpl; [done|by rewrite new_not_done|by rewrite new_lost| |done].
  intros g. destruct grpc; [|done]. intros [= <-]. apply new_lost.
Qed.

Lemma run_reachable_ok st grpc l : rtc step (run_serving st grpc) l → run_ok l.
Proof.
  intros Hrun. eapply (rtc_invariant step run_ok); [exact run_step_ok|exact Hrun|apply run_ok_start].
Qed.

(** What it means that [run] has stopped cleanly: both servers have ended with nothing under
    way, unless gRPC failed, the watchers are gone, and the servers that were drained lost
    nothing. *)
Record clean_stop (l : lifecycle (A := A) (T := T)) : Prop := {
  cs_http : sv_done (lc_http l) = true ∧ sv_under_way (lc_http l) = 0%nat;
  cs_grpc : ∀ g, lc_grpc l = Some (Some g) → sv_done g = true ∧ sv_under_way g = 0%nat ∧ sv_lost g = 0%nat;
  cs_watchers : lc_watchers l = false;
  cs_lost : tls = false → sv_lost (lc_http l) = 0%nat;
}.

Lemma ok_is_clean l : run_ok l → lc_result l = Some (Ok tt) → signalled l = true ∧ clean_stop l.
Proof.
  intros [Hflag Hhttp Hlost Hglost Hres] Hr. destruct (Hres _ Hr) as (Hd & Hg & Hw).
  split; [by apply Hhttp|]. split; [split; [done|by apply done_idle]| |done|done].
  intros g Hgl. unfold grpc_stopped in Hg. rewrite Hgl in Hg. split_and!; [done|by apply done_idle|auto].
Qed.

(** When [run] returns [Ok], there was a signal to stop, and the stop was clean. *)
Theorem stops_cleanly st grpc l :
  rtc step (run_serving st grpc) l → lc_result l = Some (Ok tt) → lc_wait l = Signalled ∧ clean_stop l.
Proof.
  intros Hok%run_reachable_ok Hr. destruct (ok_is_clean l Hok Hr) as [Hs Hc]. split; [|done].
  unfold signalled in Hs. by destruct (lc_wait l).
Qed.

(** ** Stopping ends *)





(** A handler for SIGINT that cannot be installed parks the loop that waits for the other
    signals too: [run] never returns [Ok], whatever signals arrive. *)
Theorem parked_never_stops l l' :
  lc_wait l = Parked → sv_done (lc_http l) = false → lc_result l = None → rtc step l l' →
  lc_wait l' = Parked ∧ lc_app l' = lc_app l ∧ lc_result l' ≠ Some (Ok tt).
Proof.
  intros Hw Hst Hr Hrun.
  assert (Hinv : lc_wait l' = Parked ∧ lc_app l' = lc_app l ∧ lc_result l' ≠ Some (Ok tt) ∧
                 sv_done (lc_http l') = false).
  { assert (H1 : lc_result l ≠ Some (Ok tt)) by congruence. clear Hr. revert Hw Hst H1.
    induction Hrun as [x|x y z Hs _ IH]; intros Hw Hst Hr; [done|].
    destruct Hs as [s e _ Hw' _|s _ Hs|g s _ _ _|g _ _ _|e _ _|_ _ _|_ Hst' _ _]; try (by apply IH).
    - congruence.
    - apply IH; simpl; try done. unfold http_order, signalled in Hs. rewrite Hw in Hs. by eapply serving_goes_on.
    - congruence. }
  intuition.
Qed.
End stopping.

(** ** A concrete server *)

(** A server that counts its requests; it has given up [lost]. *)
Inductive service : Type := Accepting (n lost : nat) | Draining (n lost : nat) | Ended (lost : nat).

Inductive service_step : order → service → service → Prop :=
| sv_accept n k : service_step Serve (Accepting n k) (Accepting (S n) k)
| sv_answer o n k : service_step o (Accepting (S n) k) (Accepting n k)
| sv_answer_last o n k : service_step o (Draining (S n) k) (Draining n k)
| sv_close n k : service_step Drain (Accepting n k) (Draining n k)
| sv_stop k : service_step Drain (Draining 0 k) (Ended k)
| sv_drop n k : service_step Drop (Accepting n k) (Ended (n + k))
| sv_drop_last n k : service_step Drop (Draining n k) (Ended (n + k)).

#[export] Instance counting_server : Transport service := {|
  sv_new := Accepting 0 0;
  sv_step := service_step;
  sv_done s := match s with Ended _ => true | _ => false end;
  sv_under_way s := match s with Accepting n _ | Draining n _ => n | Ended _ => 0%nat end;
  sv_lost s := match s with Accepting _ k | Draining _ k | Ended k => k end;
|}.

#[export] Instance counting_laws : TransportLaws service.
Proof.
  refine {| sv_rank s := match s with Accepting n _ => (n + 2)%nat | Draining n _ => (n + 1)%nat | Ended _ => 0%nat end |};
    simpl; try done.
  - intros o s s' Ho Hs. destruct Hs; simpl; (lia || by destruct Ho).
  - intros [] [[] k|[] k|]; try done; intros _ _; eexists; constructor.
  - intros o s s' Hd Hs. by destruct Hs.
  - by intros [].
  - intros s s' Hs. by inversion Hs; subst.
  - intros o s s' Ho Hs. destruct Hs; (done || by destruct Ho).
Defined.

Abbreviation example_step := (run_step (λ (_ : unit) (n : nat), n) (mkHandlers true true) false).



(** A TLS listener is not drained: a request under way when the signal arrives is dropped,
    and [run] returns [Ok]. *)
Lemma tls_drops_requests {A E : Type} (reload : E → A → A) (st : A) (e : E) :
  ∃ l, rtc (run_step reload (mkHandlers true true) true) (run_serving (T := service) st false) l ∧
    lc_result l = Some (Ok tt) ∧ sv_lost (lc_http l) = 1%nat.
Proof.
  eexists. split; [|split].
  - eapply rtc_l; [apply (rs_http _ _ _ _ (Accepting 1 0)); [done|apply sv_accept]|].
    eapply rtc_l; [by apply (rs_signal _ _ _ _ Terminate e)|].
    eapply rtc_l; [apply (rs_http _ _ _ _ (Ended 1)); [done|apply (sv_drop 1 0)]|].
    eapply rtc_l; [by apply rs_abort|]. eapply rtc_l; [by apply rs_return|]. apply rtc_refl.
  - done.
  - done.
Qed.

(** SIGHUP reloads and goes on waiting, once per signal. *)
Lemma hangups_reload {A E : Type} (reload : E → A → A) h es st :
  on_hangup h = true →
  shutdown_signal_with_sighup reload h ((λ e, (Hangup, e)) <$> es) st = (Waiting, foldl (λ st e, reload e st) st es).
Proof. intros Hh. revert st. induction es as [|e es IH]; intros st; simpl; [done|]. by rewrite Hh. Qed.
