(* ===== verification/Jwt.v ===== *)
(** * JSON Web Tokens ([agentguard-auth/src/jwt.rs])

    [JwtValidator]: the compact form, the algorithm whitelist, key lookup in the registry of
    [AuthKeys], the signature, the standard claims, and [refresh_jwks].  The HTTP exchange of
    a refresh and the clock are arguments. *)

From S2P Require Import Prelude Json Crypto AuthError AuthKeys Replay Dpop.

Definition SUPPORTED_ALGORITHMS : list Algorithm := [EdDSA].

(** Durations in nanoseconds. *)
Definition secs (n : Z) : Z := n * 1000000000.

Record JwtConfig : Type := mkJwtConfig {
  issuer : string;
  audience : string;
  algorithms : list Algorithm;
  jwks_uri : option string;
  jwks_refresh : Z;
  clock_skew : Z;
}.

Definition jwt_config_new (issuer audience : string) : JwtConfig :=
  mkJwtConfig issuer audience [EdDSA] None (secs 30) (secs 60).

Definition set_algorithms (c : JwtConfig) (algs : list Algorithm) : JwtConfig :=
  mkJwtConfig (issuer c) (audience c) algs (jwks_uri c) (jwks_refresh c) (clock_skew c).

(** [{:?}] of an algorithm is its name. *)
Definition supported_debug : string := "[" +:+ join ", " (alg_display <$> SUPPORTED_ALGORITHMS) +:+ "]".

Definition with_algorithms (c : JwtConfig) (algs : list Algorithm) : aresult JwtConfig :=
  match filter (λ a, a ∉ SUPPORTED_ALGORITHMS) algs with
  | alg :: _ =>
      Err (JwtInvalid ("algorithm " +:+ alg_display alg
                       +:+ " is not verifiable in this release; supported: " +:+ supported_debug))
  | [] => Ok (set_algorithms c algs)
  end.

Definition with_algorithms_lossy (c : JwtConfig) (algs : list Algorithm) : JwtConfig :=
  match filter (λ a, a ∈ SUPPORTED_ALGORITHMS) algs with
  | [] => set_algorithms c [EdDSA]
  | supported => set_algorithms c supported
  end.

Definition with_jwks_uri (c : JwtConfig) (uri : string) : JwtConfig :=
  mkJwtConfig (issuer c) (audience c) (algorithms c) (Some uri) (jwks_refresh c) (clock_skew c).
Definition with_jwks_refresh (c : JwtConfig) (d : Z) : JwtConfig :=
  mkJwtConfig (issuer c) (audience c) (algorithms c) (jwks_uri c) d (clock_skew c).
(** [var] is the variable when it is set and Unicode, [parse] is [humantime::parse_duration]. *)
Definition with_jwks_refresh_from_env (c : JwtConfig) (parse : string → result string Z)
    (var : option string) : JwtConfig :=
  match parse <$> var with
  | Some (Ok d) => with_jwks_refresh c d
  | _ => c
  end.

Record ValidatedJwt : Type := mkValidatedJwt { jwt_header : list (string * Value); jwt_claims : Value }.

Record JwtValidator : Type := mkJwtValidator { jwt_config : JwtConfig; jwt_keys : KeyRegistry }.

Definition validator_new (c : JwtConfig) : JwtValidator := mkJwtValidator c registry_new.
Definition jwt_add_key (v : JwtValidator) (kid : string) (alg : Algorithm) (key : KeyMaterial) :
    JwtValidator := mkJwtValidator (jwt_config v) (AuthKeys.add (jwt_keys v) kid alg key).

(** Texts of other crates: the error of reading a map from something else, and the [{:?}]
    of an optional value. *)
Class JwtText := {
  not_a_map : Value → string;
  value_debug : option Value → string;
}.

Section validate.
Context `{Base64, JsonText, Ed25519Ops, Sha256, JwtText}.

Definition jwt_parse_token (token : string) :
    aresult (list (string * Value) * Value * bytes * bytes) :=
  match split "."%char token with
  | [p0; p1; p2] =>
      header_bytes ← map_err (λ e, JwtInvalid ("header b64: " +:+ e)) (b64_decode p0);
      header ← map_err (λ e, JwtInvalid ("header json: " +:+ e))
                 (v ← json_from_slice header_bytes; ok_or (as_object v) (not_a_map v));
      claims_bytes ← map_err (λ e, JwtInvalid ("claims b64: " +:+ e)) (b64_decode p1);
      claims ← map_err (λ e, JwtInvalid ("claims json: " +:+ e)) (json_from_slice claims_bytes);
      signature ← map_err (λ e, JwtInvalid ("sig b64: " +:+ e)) (b64_decode p2);
      Ok (header, claims, p0 +:+ "." +:+ p1, signature)
  | _ => Err (JwtInvalid "expected 3 parts")
  end.

Definition jwt_check_header (c : JwtConfig) (header : list (string * Value)) :
    aresult (Algorithm * string) :=
  alg_str ← ok_or (assoc "alg" header ≫= as_str) (JwtInvalid "missing alg");
  alg ← ok_or (parse_alg alg_str) (JwtInvalid ("unsupported alg: " +:+ alg_str));
  _ ← bail_if (bool_decide (alg ∉ algorithms c))
        (JwtInvalid ("algorithm " +:+ alg_display alg +:+ " not in whitelist"));
  kid ← ok_or (assoc "kid" header ≫= as_str) (JwtInvalid "missing kid");
  Ok (alg, kid).

Definition verify_signature (alg : Algorithm) (key : KeyMaterial) (signing_input signature : bytes) :
    aresult unit :=
  match alg, key with
  | EdDSA, Ed25519 b =>
      _ ← bail_if (negb (len b =? 32)) (JwtInvalid "ed25519 key must be 32 bytes");
      vk ← map_err (λ e, JwtInvalid ("ed25519 key: " +:+ e)) (verifying_key_from_bytes b);
      sig ← map_err (λ e, JwtInvalid ("ed25519 sig: " +:+ e)) (signature_from_slice signature);
      bail_if (negb (ed_verify vk signing_input sig)) (JwtInvalid "ed25519 verify failed")
  | _, _ => Err (JwtInvalid ("alg " +:+ alg_display alg +:+ " not implemented in this release"))
  end.

Definition check_signature (keys : KeyRegistry) (signing_input signature : bytes) (kid : string)
    (alg : Algorithm) (instant : Z) : aresult unit :=
  match get_keys keys kid alg instant with
  | [] => Err (JwtUnknownKid kid)
  | ks => if existsb (λ k, is_ok (verify_signature alg k signing_input signature)) ks then Ok tt
          else Err (JwtInvalid "signature verification failed")
  end.

Definition aud_ok (audience : string) (aud : option Value) : bool :=
  match aud with
  | Some (VString s) => bool_decide (s = audience)
  | Some (VArray arr) => existsb (λ v, bool_decide (as_str v = Some audience)) arr
  | _ => false
  end.

(** [clock_skew.as_secs() as i64] *)
Definition skew_secs (c : JwtConfig) : Z := i64_wrap (clock_skew c / 1000000000).

(** Additions of [i64] wrap in a release build. *)
Definition check_claims (c : JwtConfig) (claims : Value) (now : Z) : aresult unit :=
  iss ← ok_or (member_str claims "iss") (JwtIssuerMismatch (issuer c) "<missing>");
  _ ← bail_if (bool_decide (iss ≠ issuer c)) (JwtIssuerMismatch (issuer c) iss);
  _ ← bail_if (negb (aud_ok (audience c) (get claims "aud")))
        (JwtAudienceMismatch (audience c) (value_debug (get claims "aud")));
  exp ← ok_or (get claims "exp" ≫= as_i64) JwtExpired;
  let skew := skew_secs c in
  _ ← bail_if (i64_wrap (exp + skew) <? now) JwtExpired;
  _ ← bail_if (match get claims "nbf" ≫= as_i64 with
               | Some nbf => i64_wrap (now + skew) <? nbf | None => false end)
        (JwtInvalid "token not yet valid");
  bail_if (match get claims "iat" ≫= as_i64 with
           | Some iat => i64_wrap (now + skew) <? iat | None => false end)
    (JwtInvalid "iat is in the future").

(** [instant] is the reading of the monotonic clock in [keys.get], [now] the time in seconds. *)
Definition jwt_validate (v : JwtValidator) (token : string) (instant now : Z) : aresult ValidatedJwt :=
  '(header, claims, signing_input, signature) ← jwt_parse_token token;
  '(alg, kid) ← jwt_check_header (jwt_config v) header;
  _ ← check_signature (jwt_keys v) signing_input signature kid alg instant;
  _ ← check_claims (jwt_config v) claims now;
  Ok (mkValidatedJwt header claims).

(** ** JWKS *)

Record JwksKey : Type := mkJwksKey {
  jk_kty : option string;
  jk_key_type : option string;
  jk_alg : string;
  jk_kid : option string;
  jk_n : option string;
  jk_e : option string;
  jk_x : option string;
  jk_y : option string;
  jk_crv : option string;
}.

(** The body of the loop: the key to register, if any. *)
Definition jwks_entry (k : JwksKey) : option (string * bytes) :=
  match parse_alg (jk_alg k) with
  | Some EdDSA =>
      x ← jk_x k;
      raw ← to_ok (b64_decode x);
      if negb (len raw =? 32) then None
      else
        let kid := match jk_kid k with
                   | Some s => if bool_decide (s = "") then None else Some s
                   | None => None
                   end in
        Some (default (thumbprint_ed25519 x (default "Ed25519" (jk_crv k))) kid, raw)
  | _ => None
  end.

Definition register_jwks (keys : KeyRegistry) (doc : list JwksKey) : KeyRegistry :=
  fold_left (λ r kr, AuthKeys.add r kr.1 EdDSA (Ed25519 kr.2)) (omap jwks_entry doc) keys.

(** The HTTP exchange: an error, or a status ([is_success] and its text) with the body or
    the error of reading it; then the parsed document. *)
Record jwks_exchange : Type := mkExchange {
  x_client : result string unit;
  x_send : result string (bool * string * result string string);
  x_parse : string → result string (list JwksKey);
}.

Definition refresh_jwks (v : JwtValidator) (x : jwks_exchange) : aresult unit * JwtValidator :=
  let doc :=
    _ ← ok_or (jwks_uri (jwt_config v)) (AuthOther "no jwks_uri configured");
    _ ← map_err (λ e, JwksFetch ("client build: " +:+ e)) (x_client x);
    '(success, status, text) ← map_err JwksFetch (x_send x);
    _ ← bail_if (negb success) (JwksFetch ("HTTP " +:+ status));
    body ← map_err JwksFetch text;
    _ ← bail_if (1048576 <? len body) (JwksFetch "JWKS document exceeds 1 MiB");
    keys ← map_err (λ e, JwksFetch ("parse: " +:+ e)) (x_parse x body);
    _ ← bail_if (64 <? Z.of_nat (length keys))
          (JwksFetch ("JWKS document has " +:+ pretty (Z.of_nat (length keys))
                      +:+ " keys; refusing to register more than 64"));
    Ok keys in
  match doc with
  | Ok keys => (Ok tt, mkJwtValidator (jwt_config v) (register_jwks (jwt_keys v) keys))
  | Err e => (Err e, v)
  end.

(** The loop of [spawn_jwks_refresher], over the exchanges of its ticks. *)
Definition jwks_refresher (v : JwtValidator) (ticks : list jwks_exchange) : JwtValidator :=
  fold_left (λ v x, (refresh_jwks v x).2) ticks v.
End validate.

(** ** What is accepted *)

Section acceptance.
Context `{Base64, JsonText, Ed25519Ops, Sha256, JwtText}.

(** The time window of a token, with the clock skew on both sides. *)
Definition in_window (c : JwtConfig) (claims : Value) (now : Z) : Prop :=
  (∃ exp, get claims "exp" ≫= as_i64 = Some exp ∧ now ≤ i64_wrap (exp + skew_secs c)) ∧
  (∀ nbf, get claims "nbf" ≫= as_i64 = Some nbf → nbf ≤ i64_wrap (now + skew_secs c)) ∧
  (∀ iat, get claims "iat" ≫= as_i64 = Some iat → iat ≤ i64_wrap (now + skew_secs c)).

Record good_jwt (v : JwtValidator) (token : string) (instant now : Z) (j : ValidatedJwt)
    (kid : string) (key vk sig sg s : bytes) : Prop := {
  gj_parts : jwt_parse_token token = Ok (jwt_header j, jwt_claims j, s, sig);
  gj_alg : assoc "alg" (jwt_header j) ≫= as_str = Some "EdDSA";
  gj_listed : EdDSA ∈ algorithms (jwt_config v);
  gj_kid : assoc "kid" (jwt_header j) ≫= as_str = Some kid;
  gj_key : Ed25519 key ∈ get_keys (jwt_keys v) kid EdDSA instant ∧ len key = 32;
  gj_vk : verifying_key_from_bytes key = Ok vk;
  gj_sig : signature_from_slice sig = Ok sg ∧ ed_verify vk s sg = true;
  gj_iss : member_str (jwt_claims j) "iss" = Some (issuer (jwt_config v));
  gj_aud : aud_ok (audience (jwt_config v)) (get (jwt_claims j) "aud") = true;
  gj_window : in_window (jwt_config v) (jwt_claims j) now;
}.

Lemma parse_alg_Some s a : parse_alg s = Some a → s = alg_display a.
Proof. unfold parse_alg. repeat case_bool_decide; naive_solver. Qed.

Lemma check_claims_Ok c claims now u :
  check_claims c claims now = Ok u ↔
  member_str claims "iss" = Some (issuer c) ∧ aud_ok (audience c) (get claims "aud") = true ∧
  in_window c claims now.
Proof.
  unfold check_claims, in_window. split.
  - intros (iss & Hiss & (u1 & H1' & (u2 & H2' & (exp & He & (u3 & H3' & (u4 & H4' & H5')%bind_Ok)%bind_Ok)%bind_Ok)%bind_Ok)%bind_Ok)%bind_Ok.
    apply ok_or_Ok in Hiss, He. apply bail_if_Ok in H1', H2', H3', H4', H5'.
    apply bool_decide_eq_false, dec_stable in H1' as ->. apply negb_false_iff in H2'.
    split_and!; try done.
    + exists exp. split; [done|]. by apply Z.ltb_ge.
    + intros nbf Hn. rewrite Hn in H4'. by apply Z.ltb_ge.
    + intros iat Hi. rewrite Hi in H5'. by apply Z.ltb_ge.
  - intros (Hiss & Haud & (exp & He & Hexp) & Hnbf & Hiat). rewrite Hiss. simpl.
    rewrite bool_decide_eq_false_2 by naive_solver. simpl. rewrite Haud. simpl. rewrite He. simpl.
    rewrite (proj2 (Z.ltb_ge _ _) Hexp). simpl.
    destruct (get claims "nbf" ≫= as_i64) as [nbf|]; simpl;
      [rewrite (proj2 (Z.ltb_ge _ _) (Hnbf nbf eq_refl)); simpl|];
      (destruct (get claims "iat" ≫= as_i64) as [iat|];
       [rewrite (proj2 (Z.ltb_ge _ _) (Hiat iat eq_refl))|]; by destruct u).
Qed.

Lemma verify_signature_Ok alg k s sig u :
  verify_signature alg k s sig = Ok u ↔
  alg = EdDSA ∧ ∃ key vk sg, k = Ed25519 key ∧ len key = 32 ∧ verifying_key_from_bytes key = Ok vk ∧
    signature_from_slice sig = Ok sg ∧ ed_verify vk s sg = true.
Proof.
  unfold verify_signature. split.
  - destruct alg, k as [?|?|?|key]; try done.
    intros (u1 & Hl & (vk & Hvk & (sg & Hsg & Hv)%bind_Ok)%bind_Ok)%bind_Ok.
    apply bail_if_Ok in Hl, Hv. apply map_err_Ok in Hvk, Hsg. bool_inv.
    split; [done|]. exists key, vk, sg. naive_solver.
  - intros (-> & key & vk & sg & -> & Hl & Hvk & Hsg & Hv). rewrite Hl, Hvk. simpl. rewrite Hsg. simpl.
    rewrite Hv. by destruct u.
Qed.

(** C21: a JWT is accepted exactly when it is signed, with EdDSA, by an Ed25519 key that the
    registry has for its [kid], EdDSA is on the whitelist, issuer and audience are the
    configured ones, and the time lies in its window extended by the skew.  No other
    algorithm is ever accepted, whatever the whitelist says and whatever keys are registered. *)
Theorem jwt_validate_iff v token instant now j :
  jwt_validate v token instant now = Ok j ↔
  ∃ kid key vk sig sg s, good_jwt v token instant now j kid key vk sig sg s.
Proof.
  unfold jwt_validate. split.
  - intros ([[[header claims] s] sig] & Hp & ([alg kid] & Hh & (u & Hs & (u' & Hc & [= <-])%bind_Ok)%bind_Ok)%bind_Ok)%bind_Ok.
    apply check_claims_Ok in Hc as (Hiss & Haud & Hwin).
    unfold jwt_check_header in Hh.
    apply bind_Ok in Hh as (a & Ha & (alg' & Halg & (u1 & Hl & (kid' & Hkid & [= <- <-])%bind_Ok)%bind_Ok)%bind_Ok).
    apply ok_or_Ok in Ha, Halg, Hkid. apply bail_if_Ok, bool_decide_eq_false, dec_stable in Hl.
    apply parse_alg_Some in Halg as ->.
    unfold check_signature in Hs.
    destruct (get_keys (jwt_keys v) kid' alg' instant) as [|k ks] eqn:Hks; [done|].
    destruct (existsb _ _) eqn:Hex in Hs; [|done]. apply existsb_exists in Hex as (kk & Hin & Hok).
    destruct (verify_signature alg' kk s sig) as [[]|] eqn:Hver; [|done].
    apply verify_signature_Ok in Hver as (-> & key & vk & sg & -> & Hlen & Hvk & Hsg & Hed).
    exists kid', key, vk, sig, sg, s. split; simpl; try done.
    split; [|done]. rewrite Hks. by apply list_elem_of_In.
  - intros (kid & key & vk & sig & sg & s & [Hp Ha Hl Hk [Hin Hlen] Hvk [Hsg Hv] Hiss Haud Hwin]).
    rewrite Hp. simpl. unfold jwt_check_header. rewrite Ha. simpl.
    rewrite bool_decide_eq_false_2 by naive_solver. simpl. rewrite Hk. simpl.
    unfold check_signature. destruct (get_keys (jwt_keys v) kid EdDSA instant) as [|k ks] eqn:Hks;
      [by apply elem_of_nil in Hin|].
    assert (Hex : existsb (λ k, is_ok (verify_signature EdDSA k s sig)) (k :: ks) = true).
    { apply existsb_exists. exists (Ed25519 key). split; [by apply list_elem_of_In|].
      assert (Hver : verify_signature EdDSA (Ed25519 key) s sig = Ok tt).
      { apply verify_signature_Ok. split; [done|]. by exists key, vk, sg. }
      by rewrite Hver. }
    rewrite Hex. simpl.
    rewrite (proj2 (check_claims_Ok (jwt_config v) (jwt_claims j) now tt)) by done. simpl. by destruct j.
Qed.
End acceptance.

(** ** Refreshing the keys *)

Section refresh.
Context `{Base64, JsonText, Ed25519Ops, Sha256, JwtText}.

Lemma register_jwks_wf r doc : wf_registry r → wf_registry (register_jwks r doc).
Proof.
  unfold register_jwks. revert r. induction (omap jwks_entry doc) as [|[kid raw] l IH]; intros r Hr; [done|].
  simpl. apply IH. by apply add_wf.
Qed.

Lemma add_inner_size r kid alg key :
  wf_registry r → (size (inner (AuthKeys.add r kid alg key)) ≤ S (size (inner r)))%nat ∧
  cap (AuthKeys.add r kid alg key) = cap r.
Proof.
  intros Hwf. unfold AuthKeys.add, set_entries. simpl. destruct (inner r !! kid) as [es|] eqn:Hk.
  - unfold reserve_kid_slot. rewrite Hk. split; [|done]. rewrite map_size_insert_Some; [lia|eauto].
  - destruct (reserve_wf r kid Hwf Hk) as (_ & Hcap & _ & Hnone & _ & Hincl).
    split; [|done]. rewrite map_size_insert_None by done. apply le_n_S.
    apply map_subseteq_size, map_subseteq_spec. exact Hincl.
Qed.

Lemma add_keeps_others r kid alg key k :
  wf_registry r → k ≠ kid → (size (inner r) < cap r)%nat →
  inner (AuthKeys.add r kid alg key) !! k = inner r !! k.
Proof.
  intros Hwf Hne Hroom. unfold AuthKeys.add, set_entries. simpl. rewrite lookup_insert_ne by done.
  rewrite reserve_other by done. rewrite bool_decide_eq_false_2; [done|]. intros (_ & Hs & _). lia.
Qed.

Lemma register_keeps r kid entries :
  wf_registry r → (size (inner r) + length entries ≤ cap r)%nat → kid ∉ entries.*1 →
  inner (fold_left (λ r (kr : string * bytes), AuthKeys.add r kr.1 EdDSA (Ed25519 kr.2)) entries r) !! kid
  = inner r !! kid.
Proof.
  revert r. induction entries as [|[k raw] entries IH]; intros r Hwf Hroom Hin; [done|].
  simpl in *. apply not_elem_of_cons in Hin as [Hne Hin].
  destruct (add_inner_size r k EdDSA (Ed25519 raw) Hwf) as [Hsz Hcap].
  rewrite IH; [|by apply add_wf|lia|done]. apply add_keeps_others; [done|done|lia].
Qed.

(** A refresh adds keys and never withdraws one: while the registry has room, a key
    that the issuer has taken out of its JWKS document keeps verifying tokens after every
    refresh.  A refresh that fails changes nothing, and the registry stays within its cap. *)
Theorem jwks_withdrawn_key_stays v x r v' kid alg instant :
  wf_registry (jwt_keys v) → refresh_jwks v x = (r, v') →
  wf_registry (jwt_keys v') ∧
  (r ≠ Ok tt → v' = v) ∧
  ∀ doc, r = Ok tt →
    (∀ success status body, x_send x = Ok (success, status, Ok body) → x_parse x body = Ok doc) →
    kid ∉ (omap jwks_entry doc).*1 →
    (size (inner (jwt_keys v)) + length (omap jwks_entry doc) ≤ cap (jwt_keys v))%nat →
    get_keys (jwt_keys v') kid alg instant = get_keys (jwt_keys v) kid alg instant.
Proof.
  intros Hwf. unfold refresh_jwks.
  match goal with |- context [match ?d with Ok _ => _ | Err _ => _ end] => destruct d as [keys|e] eqn:Hd end.
  2: { intros [= <- <-]. by split_and!. }
  intros [= <- <-]. split_and!; [by apply register_jwks_wf|done|].
  intros doc _ Hdoc Hkid Hroom. apply bind_Ok in Hd as (uri & _ & (u & _ & Hd)%bind_Ok).
  apply bind_Ok in Hd as ([[success status] text] & Hs & (u1 & _ & (body & Hb & (u2 & _ & (ks & Hks & (u3 & _ & [= <-])%bind_Ok)%bind_Ok)%bind_Ok)%bind_Ok)%bind_Ok).
  apply map_err_Ok in Hs, Hb, Hks. subst text. specialize (Hdoc _ _ _ Hs). assert (ks = doc) as -> by congruence.
  unfold get_keys, entries_of. simpl. unfold register_jwks. by rewrite register_keeps.
Qed.

(** Whatever a JWKS document holds, only 32-byte Ed25519 keys get into the registry
    from it, under the [kid] it gives or the RFC 7638 thumbprint. *)
Lemma jwks_entry_sound k kid raw :
  jwks_entry k = Some (kid, raw) →
  jk_alg k = "EdDSA" ∧ len raw = 32 ∧ ∃ x, jk_x k = Some x ∧ b64_decode x = Ok raw ∧
    (jk_kid k = Some kid ∧ kid ≠ "" ∨
     (jk_kid k = None ∨ jk_kid k = Some "") ∧
     kid = thumbprint_ed25519 x (default "Ed25519" (jk_crv k))).
Proof.
  unfold jwks_entry. destruct (parse_alg (jk_alg k)) as [[]|] eqn:Ha; try done.
  apply parse_alg_Some in Ha. destruct (jk_x k) as [x|]; [|done]. simpl.
  destruct (b64_decode x) as [raw'|] eqn:Hx; [|done]. simpl.
  destruct (len raw' =? 32) eqn:Hl; [|done]. simpl. apply Z.eqb_eq in Hl. intros [= <- <-].
  split_and!; [done|done|]. exists x. split_and!; [done|done|].
  destruct (jk_kid k) as [s|]; [|by right; auto].
  case_bool_decide; simpl; [right; subst; auto|left; auto].
Qed.
End refresh.
