(* ===== verification/Redis.v ===== *)
(** * The Redis revocation store ([agentguard-redis-store/src/lib.rs])

    The adapter that keeps delegation revocations in a Redis-compatible service over HTTP:
    validation of its configuration, the command protocol with its bounds, and the two
    operations.  The service is a class with the documented behaviour of [TTL], [SET EX]
    and [EXISTS]; the Lua script is translated.  What the network does with an exchange is an
    argument: it may lose it before or after the service has acted, but it does not forge
    answers. *)

From S2P Require Import Prelude Json CoreError Crypto Text.

Definition MAX_RESPONSE_BYTES : Z := 256 * 1024.

(** ** Configuration *)

(** [reqwest::Url] and [IpAddr]. *)
Record Url : Type := mkUrl {
  scheme : string;
  host_str : option string;
  username : string;
  password : option string;
  query : option string;
  fragment : option string;
}.
Class UrlParse := {
  url_parse : string → result string Url;
  is_loopback_ip : string → bool;
}.

Record RedisStore : Type := mkRedisStore { endpoint : Url; bearer : string; key_prefix : string }.

Definition other_error (s : string) : Error := Other s.

Definition prefix_char (c : ascii) : bool :=
  let n := nat_of_ascii c in
  ((48 <=? n) && (n <=? 57) || (65 <=? n) && (n <=? 90) || (97 <=? n) && (n <=? 122)
   || (n =? 58) || (n =? 95) || (n =? 45))%nat.

Section config.
Context `{UrlParse}.

(** [client] is the result of building the HTTP client. *)
Definition redis_with_prefix (ep token prefix : string) (client : result string unit) :
    cresult RedisStore :=
  url ← map_err (λ _, other_error "invalid Redis-compatible endpoint URL") (url_parse ep);
  let local_http := bool_decide (scheme url = "http")
    && match host_str url with
       | Some host => bool_decide (host = "localhost") || is_loopback_ip host
       | None => false
       end in
  _ ← bail_if (bool_decide (scheme url ≠ "https") && negb local_http)
        (other_error "Redis-compatible endpoint must use HTTPS (HTTP is allowed only on loopback)");
  _ ← bail_if (bool_decide (username url ≠ "") || bool_decide (is_Some (password url))
               || bool_decide (is_Some (query url)) || bool_decide (is_Some (fragment url)))
        (other_error "Redis-compatible endpoint must not contain credentials, query, or fragment");
  _ ← bail_if (bool_decide (token = "") || (8192 <? len token)
               || existsb is_ascii_whitespace (String.list_ascii_of_string token))
        (other_error "invalid Redis-compatible bearer token");
  _ ← bail_if (bool_decide (prefix = "") || (128 <? len prefix)
               || negb (forallb prefix_char (String.list_ascii_of_string prefix)))
        (other_error "invalid Redis key prefix");
  _ ← map_err (λ _, other_error "could not initialize Redis-compatible HTTP client") client;
  Ok (mkRedisStore url token prefix).

Definition redis_new (ep token : string) (client : result string unit) : cresult RedisStore :=
  redis_with_prefix ep token "agentguard:delegation:revoked:" client.

(** A store that was built talks over HTTPS or to this host, sends its credential only in the
    header, and its bearer token is one header value. *)
Lemma redis_config_secure ep token prefix client s :
  redis_with_prefix ep token prefix client = Ok s →
  (scheme (endpoint s) = "https" ∨
   scheme (endpoint s) = "http" ∧
   ∃ host, host_str (endpoint s) = Some host ∧ (host = "localhost" ∨ is_loopback_ip host = true)) ∧
  username (endpoint s) = "" ∧ password (endpoint s) = None ∧
  bearer s = token ∧ 0 < len token ≤ 8192 ∧
  existsb is_ascii_whitespace (String.list_ascii_of_string token) = false.
Proof.
  unfold redis_with_prefix. intros Hs. res_inv. subst s. cbn [endpoint bearer]. bool_inv.
  destruct (password x), (query x), (fragment x); try (exfalso; naive_solver).
  split_and!; try done; [|unfold len; destruct token; simpl in *; [done|lia]].
  match goal with Hc : _ && _ = false |- _ => apply andb_false_iff in Hc as [Hc|Hc] end; bool_inv;
    [by left|]. right.
  destruct (host_str x) as [host|]; [|done]. split; [done|]. exists host. split; [done|].
  match goal with Ho : _ || _ = true |- _ => apply orb_true_iff in Ho as [Ho|Ho] end; bool_inv; auto.
Qed.
End config.

(** ** The service *)

(** Times in milliseconds of the service's clock. *)
Class Redis := {
  redis : Type;
  r_ttl : string → Z → redis → Z;
  r_set_ex : string → Z → Z → redis → redis;
  r_exists : string → Z → redis → bool;
  (** until when a key is kept: absent, forever, or a time *)
  r_until : string → redis → option (option Z);
}.

(** [TTL] is in seconds, rounded to the nearest; [-2] for no key and [-1] for no expiry. *)
Class RedisLaws `{Redis} : Prop := {
  exists_until k t db :
    r_exists k t db = match r_until k db with
                      | None => false | Some None => true | Some (Some e) => t <? e
                      end;
  ttl_until k t db :
    match r_until k db with
    | None => r_ttl k t db = -2
    | Some None => r_ttl k t db = -1
    | Some (Some e) =>
        if t <? e then 0 ≤ r_ttl k t db ∧ 1000 * r_ttl k t db - 500 ≤ e - t ≤ 1000 * r_ttl k t db + 500
        else r_ttl k t db = -2
    end;
  set_until k k' ttl t db :
    r_until k' (r_set_ex k ttl t db)
    = if bool_decide (k = k') then Some (Some (t + 1000 * ttl)) else r_until k' db;
}.

(** What came back: nothing, or a status, a declared length and the chunks of the body. *)
Inductive reply : Type :=
| SendFailed
| Replied (success : bool) (code : Z) (content_length : option Z) (chunks : list (result string bytes)).

(** The fate of an exchange: whether the service acts, what the client sees of its answer,
    and what it sees when the service does not act. *)
Record network : Type := mkNetwork { acts : bool; deliver : bytes → reply; refusal : reply }.

Section store.
Context `{Redis, JsonText, Hex, Sha256}.

Definition redis_key (s : RedisStore) (token_id : string) : string :=
  key_prefix s +:+ hex_encode (sha256 token_id).

Fixpoint read_chunks (body : bytes) (chunks : list (result string bytes)) : cresult bytes :=
  match chunks with
  | [] => Ok body
  | chunk :: chunks =>
      c ← map_err (λ _, other_error "Redis-compatible store response read failed") chunk;
      _ ← bail_if (MAX_RESPONSE_BYTES <? len body + len c)
            (other_error "Redis-compatible store response exceeded size limit");
      read_chunks (body +:+ c) chunks
  end.

Definition read_reply (r : reply) : cresult Value :=
  match r with
  | SendFailed => Err (other_error "Redis-compatible store request failed")
  | Replied success code content_length chunks =>
      _ ← bail_if (negb success)
            (other_error ("Redis-compatible store returned HTTP " +:+ pretty code));
      _ ← bail_if (match content_length with Some n => MAX_RESPONSE_BYTES <? n | None => false end)
            (other_error "Redis-compatible store response exceeded size limit");
      body ← read_chunks "" chunks;
      payload ← map_err (λ _, other_error "Redis-compatible store returned invalid JSON")
                  (json_from_slice body);
      _ ← bail_if (bool_decide (is_Some (get payload "error")))
            (other_error "Redis-compatible store rejected the command");
      ok_or (get payload "result") (other_error "Redis-compatible store response is missing result")
  end.

(** The commands in use: the script of [revoke], and [EXISTS]. *)
Inductive command_ : Type := EvalRevoke (key : string) (ttl : Z) | Exists (key : string).

(** The Lua script: keep the longer of the two retentions. *)
Definition revoke_script (k : string) (requested t : Z) (db : redis) : redis :=
  let ttl := r_ttl k t db in
  if (ttl =? -2) || (ttl =? -1) || (ttl <? requested) then r_set_ex k requested t db else db.

Definition serve (c : command_) (t : Z) (db : redis) : Z * redis :=
  match c with
  | EvalRevoke k ttl => (1, revoke_script k ttl t db)
  | Exists k => (if r_exists k t db then 1 else 0, db)
  end.

Definition payload_of (z : Z) : Value := VObject [("result", VNumber (PosInt z))].

Definition command (c : command_) (t : Z) (n : network) (db : redis) : cresult Value * redis :=
  let '(answer, db') := serve c t db in
  (read_reply (if acts n then deliver n (json_to_vec (payload_of answer)) else refusal n),
   if acts n then db' else db).

(** [now] is the adapter's clock in seconds, [t] the service's. *)
Definition redis_revoke (s : RedisStore) (token_id : string) (retain_until now t : Z) (n : network)
    (db : redis) : cresult unit * redis :=
  if bool_decide (token_id = "") then (Err (other_error "delegation token id must not be empty"), db)
  else if now <? 0 then (Err (other_error "system clock is before Unix epoch"), db)
  else
    let remaining := retain_until - now in
    if remaining <=? 0 then (Ok tt, db)
    else match i64_try_from (remaining + 1) with
         | None => (Err (other_error "delegation retention interval is too large"), db)
         | Some ttl =>
             let '(r, db) := command (EvalRevoke (redis_key s token_id) ttl) t n db in
             (result ← r;
              bail_if (bool_decide (as_i64 result ≠ Some 1))
                (other_error "Redis-compatible store returned an invalid revoke result"), db)
         end.

Definition redis_is_revoked (s : RedisStore) (token_id : string) (t : Z) (n : network) (db : redis) :
    cresult bool * redis :=
  if bool_decide (token_id = "") then (Err (other_error "delegation token id must not be empty"), db)
  else
    let '(r, db) := command (Exists (redis_key s token_id)) t n db in
    (result ← r;
     match as_i64 result with
     | Some 0 => Ok false
     | Some 1 => Ok true
     | _ => Err (other_error "Redis-compatible store returned an invalid existence result")
     end, db).

(** ** Retention *)

(** The network delivers an answer or fails; it does not make one up. *)
Definition honest (n : network) : Prop :=
  is_ok (read_reply (refusal n)) = false ∧
  ∀ b v, read_reply (deliver n b) = Ok v → ∃ p, json_from_slice b = Ok p ∧ get p "result" = Some v.

(** Calls of any adapter on the service, at times of its clock. *)
Inductive redis_step : Z * redis → Z * redis → Prop :=
| rd_revoke s id d now t t' n db :
    t ≤ t' → redis_step (t, db) (t', (redis_revoke s id d now t' n db).2)
| rd_check s id t t' n db :
    t ≤ t' → redis_step (t, db) (t', (redis_is_revoked s id t' n db).2).

(** [k] is kept until [e] at least. *)
Definition kept (k : string) (e : Z) (db : redis) : Prop :=
  ∃ e', r_until k db = Some (Some e') ∧ e ≤ e'.

Section retention.
Context {redis_laws : RedisLaws} {text_laws : JsonTextLaws}.

Lemma command_Ok c t n db v db' :
  honest n → command c t n db = (Ok v, db') →
  v = VNumber (PosInt (serve c t db).1) ∧ db' = (serve c t db).2.
Proof.
  unfold command, honest. intros [Href Hdel] Hc.
  assert (Hwf : wf_value (payload_of (serve c t db).1)).
  { apply wf_object. split; [apply NoDup_singleton|by repeat constructor]. }
  destruct (serve c t db) as [z db1]; cbn [fst snd] in *.
  destruct (acts n); injection Hc as Hr <-.
  - apply Hdel in Hr as (p & Hp & Hg). rewrite json_roundtrip in Hp by done.
    injection Hp as <-. by injection Hg as <-.
  - by rewrite Hr in Href.
Qed.

Lemma command_db c t n db : (command c t n db).2 = db ∨ (command c t n db).2 = (serve c t db).2.
Proof. unfold command. destruct (serve c t db), (acts n); eauto. Qed.

(** The script leaves the key for the requested time, up to the rounding of [TTL]. *)
Lemma script_keeps k ttl t db : kept k (t + 1000 * ttl - 500) (revoke_script k ttl t db).
Proof.
  unfold revoke_script. pose proof (ttl_until k t db) as Ht.
  destruct (_ || _) eqn:Hc.
  - exists (t + 1000 * ttl). rewrite set_until, bool_decide_eq_true_2 by done. split; [done|lia].
  - bool_inv. destruct (r_until k db) as [[e|]|] eqn:Hu; [|lia..].
    exists e. split; [done|]. destruct (t <? e); lia.
Qed.

(** It never shortens what another revocation asked for. *)
Lemma script_mono k e k' ttl t db :
  0 ≤ ttl → kept k e db → kept k e (revoke_script k' ttl t db).
Proof.
  intros Httl (e' & Hu & He). unfold revoke_script. destruct (_ || _) eqn:Hc; [|by exists e'].
  unfold kept. rewrite set_until. case_bool_decide as Hk; [|by exists e']. subst k'.
  eexists. split; [done|]. pose proof (ttl_until k t db) as Ht. rewrite Hu in Ht.
  destruct (t <? e') eqn:Hte; bool_inv; [|lia].
  apply orb_true_iff in Hc as [Hc|Hc]; [apply orb_true_iff in Hc as [Hc|Hc]|]; bool_inv; lia.
Qed.

Lemma step_keeps k e x y : redis_step x y → kept k e x.2 → kept k e y.2.
Proof.
  intros [s id d now t t' n db _|s id t t' n db _] Hk; cbn [snd] in *.
  - unfold redis_revoke. case_bool_decide; [done|]. destruct (now <? 0); [done|].
    destruct (d - now <=? 0) eqn:Hd; [done|]. bool_inv.
    destruct (i64_try_from _) as [ttl|] eqn:Httl; [|done].
    apply i64_try_from_Some in Httl as [-> _].
    pose proof (command_db (EvalRevoke (redis_key s id) (d - now + 1)) t' n db) as Hdb.
    destruct (command _ _ _ _) as [r db']; cbn [snd] in *.
    destruct Hdb as [->| ->]; [done|]. cbn [serve snd]. apply script_mono; [lia|done].
  - unfold redis_is_revoked. case_bool_decide; [done|].
    pose proof (command_db (Exists (redis_key s id)) t' n db) as Hdb.
    destruct (command _ _ _ _) as [r db']; cbn [snd] in *. by destruct Hdb as [->| ->].
Qed.

(** C20: a revocation that the Redis store acknowledged holds: whatever revocations and
    checks any adapters make on the service afterwards, over a network that may lose
    exchanges before or after the service acted, every check of that token until the
    requested retention has run out on the service's clock answers that it is revoked, or
    fails; it never answers that it is not. *)
Theorem redis_revocation_holds s id d now t n db db1 t2 db2 n' b :
  redis_revoke s id d now t n db = (Ok tt, db1) → now < d → honest n →
  rtc redis_step (t, db1) (t2, db2) →
  t2 < t + 1000 * (d - now) + 500 → honest n' →
  (redis_is_revoked s id t2 n' db2).1 = Ok b → b = true.
Proof.
  intros Hrev Hd Hn Hrun Ht2 Hn' Hchk.
  assert (Hkept : kept (redis_key s id) (t + 1000 * (d - now) + 500) db1).
  { unfold redis_revoke in Hrev. case_bool_decide; [done|]. destruct (now <? 0); [done|].
    destruct (d - now <=? 0) eqn:Hle; bool_inv; [lia|].
    destruct (i64_try_from _) as [ttl|] eqn:Httl; [|done]. apply i64_try_from_Some in Httl as [-> _].
    destruct (command _ _ _ _) as [r db'] eqn:Hc. injection Hrev as Hr <-. res_inv. subst.
    apply command_Ok in Hc as [_ ->]; [|done].
    replace (t + 1000 * (d - now) + 500) with (t + 1000 * (d - now + 1) - 500) by lia.
    apply script_keeps. }
  assert (Hkept2 : kept (redis_key s id) (t + 1000 * (d - now) + 500) db2).
  { change db2 with (snd (t2, db2)). change db1 with (snd (t, db1)) in Hkept.
    revert Hkept. clear -Hrun redis_laws. induction Hrun as [|x y z Hs _ IH]; [done|].
    intros Hk. by apply IH, (step_keeps _ _ x). }
  destruct Hkept2 as (e & Hu & He).
  unfold redis_is_revoked in Hchk. case_bool_decide; [done|].
  destruct (command _ _ _ _) as [r db'] eqn:Hc. cbn [fst] in Hchk.
  apply bind_Ok in Hchk as (v & -> & Hv). apply command_Ok in Hc as [-> _]; [|done].
  cbn [serve fst] in Hv. rewrite exists_until, Hu in Hv.
  rewrite (proj2 (Z.ltb_lt _ _)) in Hv by lia. by injection Hv as <-.
Qed.

(** A store that cannot be reached, or answers with anything but the two documented values,
    is an error to the caller and never "not revoked". *)
Lemma redis_fails_closed s id t n db :
  is_ok (read_reply (refusal n)) = false → acts n = false →
  is_ok (redis_is_revoked s id t n db).1 = false.
Proof.
  intros Hr Ha. unfold redis_is_revoked, command. case_bool_decide; [done|].
  cbn [serve]. rewrite Ha. cbn [fst]. by destruct (read_reply _).
Qed.
End retention.
End store.

(** ** A service, and the witness *)

Module Service.
Import Crypto.Concrete.
#[export] Instance map_redis : Redis := {|
  redis := gmap string (option Z);
  r_ttl k t db := match db !! k with
                  | None => -2 | Some None => -1
                  | Some (Some e) => if t <? e then (e - t + 500) / 1000 else -2
                  end;
  r_set_ex k ttl t db := <[k := Some (t + 1000 * ttl)]> db;
  r_exists k t db := match db !! k with
                     | None => false | Some None => true | Some (Some e) => t <? e
                     end;
  r_until k db := db !! k;
|}.
#[export] Instance map_redis_laws : RedisLaws.
Proof.
  split; cbn; [done| |].
  - intros k t db. destruct (db !! k) as [[e|]|]; [|done..]. destruct (t <? e) eqn:Ht; [|done]. bool_inv.
    pose proof (Z.div_pos (e - t + 500) 1000). pose proof (Z.div_mod (e - t + 500) 1000).
    pose proof (Z.mod_pos_bound (e - t + 500) 1000). lia.
  - intros k k' ttl t db. case_bool_decide; subst; [by rewrite lookup_insert_eq|by rewrite lookup_insert_ne].
Qed.
#[export] Instance flat_sha : Sha256 := {| sha256 b := b |}.

Definition store : RedisStore := mkRedisStore (mkUrl "https" (Some "kv") "" None None None) "tok" "p:".
Definition direct : network := mkNetwork true (λ b, Replied true 200 None [Ok b]) SendFailed.

Lemma direct_honest : honest direct.
Proof.
  split; [done|]. intros b v Hr. cbn [direct deliver read_reply] in Hr. res_inv.
  cbn [read_chunks] in *. res_inv. subst. eauto.
Qed.

(** The witness of [redis_revocation_holds]: revoked at 10 s until 70 s, checked at 60 s. *)
Example redis_revocation_holds_witness :
  (redis_is_revoked store "grant" 60000 direct (redis_revoke store "grant" 70 10 10000 direct ∅).2).1
  = Ok true.
Proof.
  assert (Hd : ∃ b, (redis_is_revoked store "grant" 60000 direct
      (redis_revoke store "grant" 70 10 10000 direct ∅).2).1 = Ok b) by (eexists; vm_compute; reflexivity).
  destruct Hd as [b Hb]. rewrite Hb. f_equal.
  refine (redis_revocation_holds store "grant" 70 10 10000 direct ∅ _ 60000 _ direct b
    _ _ direct_honest _ _ direct_honest Hb); [vm_compute; reflexivity|done| |done].
  eapply rtc_l; [|apply rtc_refl].
  apply (rd_check store "grant" 10000 60000 direct). lia.
Defined.
End Service.
