(* ===== verification/Formatter.v ===== *)
(** * Audit formats for SIEMs ([agentguard-core/src/decision/formatter.rs])

    [AuditFormat] and its four formats.  A reader of CEF and LEEF extensions, which is not part
    of the program, shows that a line determines the fields of its record up to line feeds. *)

From S2P Require Import Prelude Json Crypto Trace Request DecisionRecord Text.

Inductive AuditFormat : Type := Jsonl | Cef | Leef | Ecs.

Definition format_name (f : AuditFormat) : string :=
  match f with Jsonl => "jsonl" | Cef => "cef" | Leef => "leef" | Ecs => "ecs" end.

Definition format_from_str (s : string) : result string AuditFormat :=
  if bool_decide (s = "jsonl") then Ok Jsonl
  else if bool_decide (s = "cef") then Ok Cef
  else if bool_decide (s = "leef") then Ok Leef
  else if bool_decide (s = "ecs") then Ok Ecs
  else Err ("unknown audit format: " +:+ s +:+ " (use jsonl|cef|leef|ecs)").

Definition escape (s : string) : string :=
  replace_char newline " "
    (replace_char "=" (String backslash "=") (replace_char backslash (String backslash (String backslash "")) s)).

(** [chrono]: [to_rfc3339], and the format of LEEF's [devTime]. *)
Class TimeFormat := { to_rfc3339 : string → string; dev_time : string → string }.

Section format.
Context `{JsonText, Hex, TimeFormat}.

Definition is_allow (rec : DecisionRecord) : bool := bool_decide (r_effect rec = "allow").
Definition outcome (rec : DecisionRecord) : string := if is_allow rec then "Success" else "Failure".
Definition actor_name (a : AuthenticatedActor) : string :=
  subject_type a +:+ "::" +:+ actor_subject_id a.
Definition bool_text (b : bool) : string := if b then "true" else "false".

Definition format_cef (rec : DecisionRecord) : string :=
  let extensions :=
    "src=" +:+ escape (r_principal rec) +:+ " suser=" +:+ escape (r_principal rec)
    +:+ " act=" +:+ escape (r_action rec) +:+ " outcome=" +:+ outcome rec
    +:+ " cs1=" +:+ escape (r_effect rec) +:+ " cs1Label=agentguardDecision"
    +:+ " cs2=" +:+ escape (join "," (r_policies rec)) +:+ " cs2Label=agentguardPolicy"
    +:+ " cs3=" +:+ escape (r_resource rec) +:+ " cs3Label=agentguardResource" in
  let extensions :=
    match r_actor rec with
    | Some actor =>
        extensions +:+ " cs4=" +:+ escape (actor_name actor) +:+ " cs4Label=agentguardAuthenticatedActor"
        +:+ " cs5=" +:+ escape (credential_id actor) +:+ " cs5Label=agentguardCredentialId"
        +:+ " cs6=" +:+ bool_text (can_act_as actor) +:+ " cs6Label=agentguardActAs"
    | None => extensions
    end in
  "CEF:0|agentguard|agentguard|2.0|0|authz_decision|" +:+ (if is_allow rec then "1" else "5")
  +:+ "|" +:+ extensions.

Definition format_leef (rec : DecisionRecord) : string :=
  let s := "LEEF:2.0|agentguard|agentguard|2.0|authz_decision|devTime=" +:+ dev_time (r_timestamp rec)
           +:+ " usrName=" +:+ escape (r_principal rec) +:+ " action=" +:+ escape (r_action rec)
           +:+ " outcome=" +:+ outcome rec +:+ " src=" +:+ escape (r_resource rec) in
  let s := match r_policies rec with
           | [] => s
           | _ => s +:+ " agentguardPolicy=" +:+ escape (join "," (r_policies rec))
           end in
  let s := match r_trace_id rec with
           | Some t => s +:+ " traceId=" +:+ escape (as_hex t)
           | None => s
           end in
  match r_actor rec with
  | Some actor =>
      s +:+ " agentguardAuthenticatedActor=" +:+ escape (actor_name actor)
      +:+ " agentguardCredentialId=" +:+ escape (credential_id actor)
      +:+ " agentguardActAs=" +:+ bool_text (can_act_as actor)
  | None => s
  end.

(** [EcsRecord] as it is serialised. *)
Definition ecs_record (rec : DecisionRecord) : Value :=
  VObject
    ([("@timestamp", VString (to_rfc3339 (r_timestamp rec))); ("event.action", VString "authz_decision");
      ("event.outcome", VString (if is_allow rec then "success" else "failure"));
      ("event.kind", VString "event"); ("event.category", VString "authentication");
      ("user.name", VString (r_principal rec)); ("labels.agentguard_principal", VString (r_principal rec));
      ("labels.agentguard_action", VString (r_action rec));
      ("labels.agentguard_resource", VString (r_resource rec));
      ("labels.agentguard_policies", VString (join "," (r_policies rec)));
      ("labels.agentguard_decision_id", VString (r_id rec))]
     ++ opt_member "labels.agentguard_trace_id" ((VString ∘ as_hex) <$> r_trace_id rec)
     ++ opt_member "labels.agentguard_authenticated_actor" ((VString ∘ actor_name) <$> r_actor rec)
     ++ opt_member "labels.agentguard_credential_id" ((VString ∘ credential_id) <$> r_actor rec)
     ++ opt_member "labels.agentguard_act_as" ((VBool ∘ can_act_as) <$> r_actor rec)).

Definition format_ecs (rec : DecisionRecord) : string := json_to_vec (ecs_record rec).

Definition format (f : AuditFormat) (rec : DecisionRecord) : string :=
  match f with
  | Jsonl => json_to_vec (record_to_value rec)
  | Cef => format_cef rec
  | Leef => format_leef rec
  | Ecs => format_ecs rec
  end.
End format.

Lemma format_name_roundtrip f : format_from_str (format_name f) = Ok f.
Proof. by destruct f. Qed.

(** ** Reading extensions *)

Definition push (c : ascii) (l : list string) : list string :=
  match l with x :: xs => String c x :: xs | [] => [String c ""] end.

(** Undo the escapes and split at the [=] that have none. *)
Fixpoint chunks (s : string) : list string :=
  match s with
  | EmptyString => [""]
  | String c s' =>
      if bool_decide (c = backslash) then
        match s' with
        | String d s'' => push d (chunks s'')
        | EmptyString => [String c ""]
        end
      else if bool_decide (c = "="%char) then "" :: chunks s'
      else push c (chunks s')
  end.

(** The text before the last space, and the word after it. *)
Definition rsplit_space (s : string) : string * string :=
  match split_at_char " " (str_rev s) with
  | Some (w, String _ v) => (str_rev v, str_rev w)
  | _ => ("", s)
  end.

(** Between two [=] there is a value, a space and the next key. *)
Fixpoint regroup (k : string) (cs : list string) : list (string * string) :=
  match cs with
  | [] => []
  | [v] => [(k, v)]
  | c :: cs => let '(v, k') := rsplit_space c in (k, v) :: regroup k' cs
  end.
Definition read_extension (s : string) : list (string * string) :=
  match chunks s with k :: cs => regroup k cs | [] => [] end.

Definition cef_extension (line : string) : option (list (string * string)) :=
  rest ← strip_prefix "CEF:0|agentguard|agentguard|2.0|0|authz_decision|" line;
  '(_, ext) ← split_once "|" rest; Some (read_extension ext).
Definition leef_extension (line : string) : option (list (string * string)) :=
  read_extension <$> strip_prefix "LEEF:2.0|agentguard|agentguard|2.0|authz_decision|" line.

(** ** Writing and reading back *)

(** What is left of a value: a line break becomes a space. *)
Definition flat (s : string) : string := replace_char newline " " s.
Definition clean (k : string) : Prop :=
  str_contains " " k = false ∧ str_contains "=" k = false ∧ str_contains backslash k = false
  ∧ str_contains newline k = false.
#[export] Instance clean_dec k : base.Decision (clean k).
Proof. unfold clean. apply _. Defined.

Definition escape_one (c : ascii) : string :=
  if bool_decide (c = backslash) then String backslash (String backslash "")
  else if bool_decide (c = "="%char) then String backslash "="
  else if bool_decide (c = newline) then " " else String c "".

Lemma escape_once s : escape s = replace_all escape_one s.
Proof.
  unfold escape. rewrite (replace_char_one backslash), !replace_char_all. apply replace_all_ext. intros c.
  unfold escape_one. destruct (decide (c = backslash)) as [->|]; [done|].
  rewrite !(bool_decide_eq_false_2 (c = backslash)) by done. cbn.
  destruct (decide (c = "="%char)) as [->|]; [done|].
  rewrite !(bool_decide_eq_false_2 (c = "="%char)) by done. cbn. by case_bool_decide.
Qed.

Lemma flat_once s : flat s = replace_all (λ c, if bool_decide (c = newline) then " " else String c "") s.
Proof. apply replace_char_one. Qed.

(** An escaped value goes into one chunk. *)
Lemma chunks_escape v rest x xs :
  chunks rest = x :: xs → chunks (escape v +:+ rest) = (flat v +:+ x) :: xs.
Proof.
  intros Hr. rewrite escape_once, flat_once. induction v as [|c v IH]; [done|].
  cbn [replace_all]. rewrite <-!string_app_assoc. unfold escape_one at 1.
  destruct (decide (c = backslash)) as [->|]; [simpl; by rewrite IH|].
  rewrite (bool_decide_eq_false_2 (c = backslash)) by done.
  destruct (decide (c = "="%char)) as [->|]; [simpl; by rewrite IH|].
  rewrite (bool_decide_eq_false_2 (c = "="%char)) by done.
  destruct (decide (c = newline)) as [->|]; [simpl; by rewrite IH|].
  rewrite !(bool_decide_eq_false_2 (c = newline)) by done. simpl.
  rewrite !bool_decide_eq_false_2 by done. by rewrite IH.
Qed.

Lemma chunks_key k rest : clean k → chunks (k +:+ "=" +:+ rest) = k :: chunks rest.
Proof.
  intros (_ & He & Hb & _). induction k as [|c k IH]; [done|]. simpl in He, Hb. bool_inv.
  change (String c k +:+ "=" +:+ rest) with (String c (k +:+ "=" +:+ rest)). cbn [chunks].
  rewrite !bool_decide_eq_false_2 by congruence. by rewrite IH.
Qed.

Lemma rsplit_space_app v k : str_contains " " k = false → rsplit_space (v +:+ " " +:+ k) = (v, k).
Proof.
  intros Hk. unfold rsplit_space. rewrite !str_rev_app.
  change (str_rev " ") with (String " " ""). rewrite <-string_app_assoc.
  change (String " " "" +:+ str_rev v) with (String " " (str_rev v)).
  rewrite split_at_char_app by (by rewrite str_contains_rev). by rewrite !str_rev_involutive.
Qed.

Definition render_field (kv : string * string) : string := kv.1 +:+ "=" +:+ escape kv.2.
Definition render_fields (fs : list (string * string)) : string := join " " (render_field <$> fs).

Lemma chunks_fields fs k v :
  Forall (λ kv, clean kv.1) ((k, v) :: fs) →
  ∃ cs, chunks (render_fields ((k, v) :: fs)) = k :: cs ∧
    regroup k cs = prod_map id flat <$> (k, v) :: fs.
Proof.
  revert k v. induction fs as [|[k' v'] fs IH]; intros k v [Hk Hfs]%Forall_cons.
  - unfold render_fields, render_field. cbn [fmap list_fmap join fst snd].
    rewrite chunks_key by done. eexists. split; [done|].
    rewrite <-(string_app_nil_r (escape v)). rewrite (chunks_escape v "" "" []) by done.
    by rewrite string_app_nil_r.
  - destruct (IH k' v' Hfs) as (cs & Hcs & Hre). apply Forall_cons in Hfs as [Hk' _].
    change (render_fields ((k, v) :: (k', v') :: fs))
      with ((k +:+ "=" +:+ escape v) +:+ " " +:+ render_fields ((k', v') :: fs)).
    rewrite <-!string_app_assoc, chunks_key by done. eexists. split; [done|].
    assert (Hsp : chunks (" " +:+ render_fields ((k', v') :: fs)) = (" " +:+ k') :: cs).
    { change (" " +:+ ?s) with (String " " s). simpl chunks at 1. by rewrite Hcs. }
    rewrite (chunks_escape v _ _ _ Hsp). destruct cs as [|c cs]; [done|].
    cbn [regroup]. rewrite rsplit_space_app by apply Hk'. cbn [regroup] in Hre. by rewrite Hre.
Qed.

Lemma read_render fs :
  fs ≠ [] → Forall (λ kv, clean kv.1) fs → read_extension (render_fields fs) = prod_map id flat <$> fs.
Proof.
  destruct fs as [|[k v] fs]; [done|]. intros _ Hfs. unfold read_extension.
  by destruct (chunks_fields fs k v Hfs) as (cs & -> & ->).
Qed.

Lemma render_fields_app fs gs :
  fs ≠ [] → gs ≠ [] → render_fields (fs ++ gs) = render_fields fs +:+ " " +:+ render_fields gs.
Proof.
  unfold render_fields. rewrite fmap_app. intros Hf Hg.
  destruct gs as [|g gs]; [done|]. clear Hg.
  induction fs as [|f fs IH]; [done|]. destruct fs as [|f' fs]; [done|].
  change (join " " ((render_field <$> f :: f' :: fs) ++ (render_field <$> g :: gs)))
    with (render_field f +:+ " " +:+ join " " ((render_field <$> f' :: fs) ++ (render_field <$> g :: gs))).
  rewrite IH by done. 
  change (join " " (render_field <$> f :: f' :: fs))
    with (render_field f +:+ " " +:+ join " " (render_field <$> f' :: fs)).
  by rewrite <-!string_app_assoc.
Qed.

(** ** Records *)

(** [devTime] has digits, [-], [:], [.], [T] and [Z] only. *)
Class TimeFormatLaws `{TimeFormat} : Prop := { dev_time_clean t : clean (dev_time t) }.

Lemma escape_clean k : clean k → escape k = k.
Proof.
  rewrite escape_once. intros (_ & He & Hb & Hn). induction k as [|c k IH]; [done|].
  simpl in He, Hb, Hn. bool_inv. cbn [replace_all]. unfold escape_one at 1.
  rewrite !bool_decide_eq_false_2 by congruence. rewrite IH; done.
Qed.

Lemma escape_one_line s : str_contains newline (escape s) = false.
Proof.
  rewrite escape_once. apply replace_all_contains. intros c. unfold escape_one.
  repeat case_bool_decide; try done. cbn. by rewrite bool_decide_eq_false_2 by congruence.
Qed.

Section records.
Context `{JsonText, Hex, TimeFormatLaws}.

Definition cef_actor_fields (a : AuthenticatedActor) : list (string * string) :=
  [("cs4", actor_name a); ("cs4Label", "agentguardAuthenticatedActor");
   ("cs5", credential_id a); ("cs5Label", "agentguardCredentialId");
   ("cs6", bool_text (can_act_as a)); ("cs6Label", "agentguardActAs")].
Definition cef_base_fields (rec : DecisionRecord) : list (string * string) :=
  [("src", r_principal rec); ("suser", r_principal rec); ("act", r_action rec);
   ("outcome", outcome rec); ("cs1", r_effect rec); ("cs1Label", "agentguardDecision");
   ("cs2", join "," (r_policies rec)); ("cs2Label", "agentguardPolicy");
   ("cs3", r_resource rec); ("cs3Label", "agentguardResource")].
(** What a CEF line has to say. *)
Definition cef_fields (rec : DecisionRecord) : list (string * string) :=
  cef_base_fields rec ++ from_option cef_actor_fields [] (r_actor rec).

Definition leef_base_fields (rec : DecisionRecord) : list (string * string) :=
  [("devTime", dev_time (r_timestamp rec)); ("usrName", r_principal rec); ("action", r_action rec);
   ("outcome", outcome rec); ("src", r_resource rec)].
Definition leef_policy_fields (rec : DecisionRecord) : list (string * string) :=
  match r_policies rec with [] => [] | ps => [("agentguardPolicy", join "," ps)] end.
Definition leef_actor_fields (a : AuthenticatedActor) : list (string * string) :=
  [("agentguardAuthenticatedActor", actor_name a); ("agentguardCredentialId", credential_id a);
   ("agentguardActAs", bool_text (can_act_as a))].
Definition leef_fields (rec : DecisionRecord) : list (string * string) :=
  leef_base_fields rec ++ leef_policy_fields rec
  ++ from_option (λ t, [("traceId", as_hex t)]) [] (r_trace_id rec)
  ++ from_option leef_actor_fields [] (r_actor rec).

Lemma bool_text_escape b : escape (bool_text b) = bool_text b.
Proof. by destruct b. Qed.
Lemma outcome_escape rec : escape (outcome rec) = outcome rec.
Proof. unfold outcome. by destruct (is_allow rec). Qed.

Lemma cef_base_render rec :
  render_fields (cef_base_fields rec) =
  "src=" +:+ escape (r_principal rec) +:+ " suser=" +:+ escape (r_principal rec)
  +:+ " act=" +:+ escape (r_action rec) +:+ " outcome=" +:+ outcome rec
  +:+ " cs1=" +:+ escape (r_effect rec) +:+ " cs1Label=agentguardDecision"
  +:+ " cs2=" +:+ escape (join "," (r_policies rec)) +:+ " cs2Label=agentguardPolicy"
  +:+ " cs3=" +:+ escape (r_resource rec) +:+ " cs3Label=agentguardResource".
Proof.
  unfold render_fields, cef_base_fields, render_field. cbn [fmap list_fmap join fst snd].
  rewrite outcome_escape. rewrite <-!string_app_assoc. reflexivity.
Qed.

Lemma cef_actor_render a :
  " " +:+ render_fields (cef_actor_fields a) =
  " cs4=" +:+ escape (actor_name a) +:+ " cs4Label=agentguardAuthenticatedActor"
  +:+ " cs5=" +:+ escape (credential_id a) +:+ " cs5Label=agentguardCredentialId"
  +:+ " cs6=" +:+ bool_text (can_act_as a) +:+ " cs6Label=agentguardActAs".
Proof.
  unfold render_fields, cef_actor_fields, render_field. cbn [fmap list_fmap join fst snd].
  rewrite bool_text_escape. rewrite <-!string_app_assoc. reflexivity.
Qed.

Lemma format_cef_fields rec :
  format_cef rec = "CEF:0|agentguard|agentguard|2.0|0|authz_decision|"
                   +:+ (if is_allow rec then "1" else "5") +:+ "|" +:+ render_fields (cef_fields rec).
Proof.
  unfold format_cef, cef_fields. rewrite <-cef_base_render. do 3 f_equal.
  destruct (r_actor rec) as [a|]; cbn [from_option].
  - rewrite render_fields_app by done. by rewrite <-cef_actor_render.
  - by rewrite app_nil_r.
Qed.

Lemma leef_base_render rec :
  render_fields (leef_base_fields rec) =
  "devTime=" +:+ dev_time (r_timestamp rec) +:+ " usrName=" +:+ escape (r_principal rec)
  +:+ " action=" +:+ escape (r_action rec) +:+ " outcome=" +:+ outcome rec
  +:+ " src=" +:+ escape (r_resource rec).
Proof.
  unfold render_fields, leef_base_fields, render_field. cbn [fmap list_fmap join fst snd].
  rewrite outcome_escape, (escape_clean (dev_time _)) by apply dev_time_clean.
  rewrite <-!string_app_assoc. reflexivity.
Qed.

Lemma leef_actor_render a :
  " " +:+ render_fields (leef_actor_fields a) =
  " agentguardAuthenticatedActor=" +:+ escape (actor_name a)
  +:+ " agentguardCredentialId=" +:+ escape (credential_id a)
  +:+ " agentguardActAs=" +:+ bool_text (can_act_as a).
Proof.
  unfold render_fields, leef_actor_fields, render_field. cbn [fmap list_fmap join fst snd].
  rewrite bool_text_escape. rewrite <-!string_app_assoc. reflexivity.
Qed.

(** A further list of fields is appended with a space, or not at all. *)
Definition extend (s : string) (fs : list (string * string)) : string :=
  match fs with [] => s | _ => s +:+ " " +:+ render_fields fs end.

Lemma render_extend fs gs : fs ≠ [] → render_fields (fs ++ gs) = extend (render_fields fs) gs.
Proof.
  intros Hf. destruct gs as [|g gs]; [by rewrite app_nil_r|]. by apply render_fields_app.
Qed.

Lemma format_leef_fields rec :
  format_leef rec = "LEEF:2.0|agentguard|agentguard|2.0|authz_decision|" +:+ render_fields (leef_fields rec).
Proof.
  unfold leef_fields. rewrite !app_assoc, !render_extend by (destruct (leef_base_fields rec) eqn:Hb; [done|done]).
  rewrite leef_base_render. unfold format_leef, leef_policy_fields.
  destruct (r_policies rec) as [|p ps], (r_trace_id rec) as [t|], (r_actor rec) as [a|];
    cbn [extend from_option leef_actor_fields];
    rewrite ?(leef_actor_render); rewrite <-?string_app_assoc; reflexivity.
Qed.

Lemma fields_clean rec :
  Forall (λ kv, clean kv.1) (cef_fields rec) ∧ Forall (λ kv, clean kv.1) (leef_fields rec).
Proof.
  split; unfold cef_fields, leef_fields, leef_policy_fields; rewrite ?Forall_app;
    destruct (r_actor rec), (r_policies rec), (r_trace_id rec); split_and?; by repeat constructor.
Qed.

Lemma render_one_line fs :
  Forall (λ kv, clean kv.1) fs → str_contains newline (render_fields fs) = false.
Proof.
  intros Hfs. unfold render_fields.
  assert (Hf : Forall (λ s, str_contains newline s = false) (render_field <$> fs)).
  { apply Forall_fmap. eapply Forall_impl; [exact Hfs|]. intros [k v] (_ & _ & _ & Hk). simpl in *.
    unfold render_field. cbn [fst snd]. by rewrite !str_contains_app, Hk, escape_one_line. }
  induction Hf as [|x l Hx Hl IH]; [done|]. destruct l; [done|].
  change (join " " (x :: ?l)) with (x +:+ " " +:+ join " " l).
  by rewrite !str_contains_app, Hx, IH.
Qed.

Lemma cef_reads rec : cef_extension (format Cef rec) = Some (prod_map id flat <$> cef_fields rec).
Proof.
  destruct (fields_clean rec) as [Hc _]. cbn [format]. rewrite format_cef_fields. unfold cef_extension.
  rewrite (proj2 (strip_prefix_Some _ _ _) eq_refl). cbn [mbind option_bind].
  assert (Hsp : ∀ e, split_once "|" ((if is_allow rec then "1" else "5") +:+ "|" +:+ e)
                = Some (if is_allow rec then "1" else "5", e)) by (intros e; by destruct (is_allow rec)).
  rewrite Hsp. cbn [mbind option_bind]. by rewrite read_render.
Qed.

Lemma leef_reads rec : leef_extension (format Leef rec) = Some (prod_map id flat <$> leef_fields rec).
Proof.
  destruct (fields_clean rec) as [_ Hl]. cbn [format]. rewrite format_leef_fields. unfold leef_extension.
  rewrite (proj2 (strip_prefix_Some _ _ _) eq_refl).
  cbn [fmap option_fmap option_map]. rewrite read_render; [done|by unfold leef_fields|done].
Qed.

(** C35: a CEF or LEEF line determines the fields of its record, up to line feeds, which are
    written as spaces.  Two records with the same line have the same fields, whatever
    separators, escapes or text that looks like another field their principals, actions,
    resources, policy ids and credentials have; a reader that undoes the escapes finds those
    fields in order, no more and no fewer; and the line has no line feed. *)
Theorem siem_fields_exact rec rec' :
  (format Cef rec = format Cef rec' →
     prod_map id flat <$> cef_fields rec = prod_map id flat <$> cef_fields rec') ∧
  (format Leef rec = format Leef rec' →
     prod_map id flat <$> leef_fields rec = prod_map id flat <$> leef_fields rec') ∧
  cef_extension (format Cef rec) = Some (prod_map id flat <$> cef_fields rec) ∧
  leef_extension (format Leef rec) = Some (prod_map id flat <$> leef_fields rec) ∧
  str_contains newline (format Cef rec) = false ∧ str_contains newline (format Leef rec) = false.
Proof.
  split_and!; [| |apply cef_reads|apply leef_reads| |].
  - intros Heq. apply (inj Some). by rewrite <-!cef_reads, Heq.
  - intros Heq. apply (inj Some). by rewrite <-!leef_reads, Heq.
  - destruct (fields_clean rec) as [Hc _]. cbn [format]. rewrite format_cef_fields.
    rewrite !str_contains_app, render_one_line by done. by destruct (is_allow rec).
  - destruct (fields_clean rec) as [_ Hl]. cbn [format]. rewrite format_leef_fields.
    by rewrite !str_contains_app, render_one_line by done.
Qed.
End records.

Module Concrete.
Import Crypto.Concrete.
#[export] Instance fixed_time : TimeFormat := {|
  to_rfc3339 t := t; dev_time _ := "2026-01-01T00:00:00.000Z" |}.
#[export] Instance fixed_time_laws : TimeFormatLaws.
Proof. split. intros t. by split_and!. Qed.

(** A principal that tries to forge the outcome. *)
Definition forged : DecisionRecord :=
  mkDecisionRecord "1" "t" "deny" [] None "eve outcome=Success" "send" "mailbox" [] None None None None
    None None None.

(** The witness of [siem_fields_exact]. *)
Example siem_fields_exact_witness :
  cef_extension (format Cef forged) = Some (prod_map id flat <$> cef_fields forged) ∧
  (prod_map id flat <$> cef_fields forged) !! 0%nat = Some ("src", "eve outcome=Success").
Proof.
  destruct (siem_fields_exact forged forged) as (_ & _ & Hc & _). split; [exact Hc|reflexivity].
Defined.

(** Only line feeds are replaced: a carriage return stays in the line, and a collector that
    ends lines there sees a second event, which the principal has written. *)
Definition carriage_return : ascii := ascii_of_nat 13.
Definition split_line : DecisionRecord :=
  mkDecisionRecord "1" "t" "deny" [] None ("eve" +:+ String carriage_return "CEF:0|x") "send" "mailbox" []
    None None None None None None None.
Theorem carriage_return_kept :
  str_contains carriage_return (format Cef split_line) = true ∧
  str_contains carriage_return (format Leef split_line) = true.
Proof. by vm_compute. Qed.
End Concrete.
