(* ===== verification/Sinks.v ===== *)
(** * Telemetry sinks ([agentguard-telemetry/src/sink.rs], [sinks/])

    The telemetry event with its builders and its derived JSON form, and the sinks that take
    it: the JSONL file, standard output, and the OpenTelemetry exporter behind its circuit
    breaker.  Files live in the directory of [AuditFs]; the OpenTelemetry SDK is a class. *)

From S2P Require Import Prelude Json CoreError Crypto Trace Request DecisionRecord HashChain Canonical AuditFs AuditLog.

Inductive SinkError : Type :=
| SinkIo (e : IoError)
| SinkJson (e : string)
| SinkSend (e : string)
| SinkOther (e : string).

Definition sink_error_display (e : SinkError) : string :=
  match e with
  | SinkIo e => "io error: " +:+ io_display e
  | SinkJson e => "json error: " +:+ e
  | SinkSend e => "send error: " +:+ e
  | SinkOther e => "other: " +:+ e
  end.

Inductive SinkEventKind : Type :=
| KDecision (effect principal action resource : string) (policies reasons : list string)
    (duration_micros : Z) (trace_id span_id tenant_id subject_id : option string) (cached : bool)
| DelegationMint (issuer subject : string) (actions : list string) (ttl_seconds : Z)
| DelegationVerify (success : bool) (issuer subject : option string)
| PolicyReload (version : string) (policy_count : Z) (source : string)
| CacheLookup (hit : bool) (principal action : string)
| PdpError (error fallback : string).

Record SinkEvent : Type := mkSinkEvent {
  event_id : string;
  event_timestamp : string;
  event_kind : SinkEventKind;
}.

Definition set_kind (e : SinkEvent) (k : SinkEventKind) : SinkEvent :=
  mkSinkEvent (event_id e) (event_timestamp e) k.

(** ** Building events *)

Definition decision_event (effect principal action resource : string) (policies reasons : list string)
    (duration_micros : Z) (uuid now : string) : SinkEvent :=
  mkSinkEvent uuid now
    (KDecision effect principal action resource policies reasons duration_micros None None None None false).

Definition event_with_trace (e : SinkEvent) (trace_id span_id : string) : SinkEvent :=
  match event_kind e with
  | KDecision ef p a r pol rea d _ _ t su c =>
      set_kind e (KDecision ef p a r pol rea d (Some trace_id) (Some span_id) t su c)
  | _ => e
  end.

Definition event_with_tenant (e : SinkEvent) (tenant_id : string) (subject_id : option string) : SinkEvent :=
  match event_kind e with
  | KDecision ef p a r pol rea d tr sp _ _ c =>
      set_kind e (KDecision ef p a r pol rea d tr sp (Some tenant_id) subject_id c)
  | _ => e
  end.

Definition mark_cached (e : SinkEvent) : SinkEvent :=
  match event_kind e with
  | KDecision ef p a r pol rea d tr sp t su _ =>
      set_kind e (KDecision ef p a r pol rea d tr sp t su true)
  | _ => e
  end.

(** ** The derived JSON form *)

Definition kind_to_value (k : SinkEventKind) : Value :=
  let text s := VString s in
  VObject
    match k with
    | KDecision ef p a r pol rea d tr sp t su c =>
        [("type", text "decision"); ("effect", text ef); ("principal", text p); ("action", text a);
         ("resource", text r); ("policies", strings pol); ("reasons", strings rea);
         ("duration_micros", VNumber (PosInt d))]
        ++ opt_member "trace_id" (VString <$> tr) ++ opt_member "span_id" (VString <$> sp)
        ++ opt_member "tenant_id" (VString <$> t) ++ opt_member "subject_id" (VString <$> su)
        ++ [("cached", VBool c)]
    | DelegationMint i s acts ttl =>
        [("type", text "delegation_mint"); ("issuer", text i); ("subject", text s);
         ("actions", strings acts); ("ttl_seconds", VNumber (number_of_i64 ttl))]
    | DelegationVerify ok i s =>
        [("type", text "delegation_verify"); ("success", VBool ok);
         ("issuer", or_null (VString <$> i)); ("subject", or_null (VString <$> s))]
    | PolicyReload v n s =>
        [("type", text "policy_reload"); ("version", text v); ("policy_count", VNumber (PosInt n));
         ("source", text s)]
    | CacheLookup h p a =>
        [("type", text "cache_lookup"); ("hit", VBool h); ("principal", text p); ("action", text a)]
    | PdpError e f => [("type", text "pdp_error"); ("error", text e); ("fallback", text f)]
    end.

Definition event_to_value (e : SinkEvent) : Value :=
  VObject [("id", VString (event_id e)); ("timestamp", VString (event_timestamp e));
           ("kind", kind_to_value (event_kind e))].

(** The derived reader, without its error messages. *)
Definition read_bool (v : Value) : option bool := match v with VBool b => Some b | _ => None end.
Definition read_u64 (v : Value) : option Z :=
  match v with VNumber (PosInt z) => Some z | _ => None end.
Definition read_strings (v : Value) : option (list string) :=
  match v with VArray l => mapM as_str l | _ => None end.
Definition read_option (v : option Value) : option (option string) :=
  match v with
  | None | Some Null => Some None
  | Some v => Some <$> as_str v
  end.

Definition kind_from_value (v : Value) : option SinkEventKind :=
  tag ← get_str v "type";
  if bool_decide (tag = "decision") then
    ef ← get_str v "effect"; p ← get_str v "principal"; a ← get_str v "action";
    r ← get_str v "resource"; pol ← (get v "policies" ≫= read_strings);
    rea ← (get v "reasons" ≫= read_strings); d ← (get v "duration_micros" ≫= read_u64);
    tr ← read_option (get v "trace_id"); sp ← read_option (get v "span_id");
    t ← read_option (get v "tenant_id"); su ← read_option (get v "subject_id");
    c ← (match get v "cached" with None => Some false | Some c => read_bool c end);
    Some (KDecision ef p a r pol rea d tr sp t su c)
  else if bool_decide (tag = "delegation_mint") then
    i ← get_str v "issuer"; s ← get_str v "subject"; acts ← (get v "actions" ≫= read_strings);
    ttl ← (get v "ttl_seconds" ≫= as_i64); Some (DelegationMint i s acts ttl)
  else if bool_decide (tag = "delegation_verify") then
    ok ← (get v "success" ≫= read_bool); i ← read_option (get v "issuer");
    s ← read_option (get v "subject"); Some (DelegationVerify ok i s)
  else if bool_decide (tag = "policy_reload") then
    ver ← get_str v "version"; n ← (get v "policy_count" ≫= read_u64); s ← get_str v "source";
    Some (PolicyReload ver n s)
  else if bool_decide (tag = "cache_lookup") then
    h ← (get v "hit" ≫= read_bool); p ← get_str v "principal"; a ← get_str v "action";
    Some (CacheLookup h p a)
  else if bool_decide (tag = "pdp_error") then
    e ← get_str v "error"; f ← get_str v "fallback"; Some (PdpError e f)
  else None.

Definition event_from_value (v : Value) : option SinkEvent :=
  i ← get_str v "id"; t ← get_str v "timestamp"; k ← (get v "kind" ≫= kind_from_value);
  Some (mkSinkEvent i t k).

(** ** The sinks *)

(** [Sink]: [S] is the sink with its storage, [X] what its calls draw.  The defaults of
    [flush] and [shutdown] do nothing. *)
Class Sink (S X : Type) := {
  sink_name : string;
  emit : SinkEvent → X → S → result SinkError unit * S;
  flush : X → S → result SinkError unit * S;
  shutdown : X → S → result SinkError unit * S;
}.

Definition no_op {X S} (_ : X) (s : S) : result SinkError unit * S := (Ok tt, s).

Section jsonl.
Context `{JsonText}.

(** The path, and whether the file is still open. *)
Record JsonlSink : Type := mkJsonlSink { jsonl_path : string; jsonl_inner : bool }.

Definition jsonl_open (path : string) : fs JsonlSink :=
  _ ← fs_sync;
  _ ← fs_open_append path;
  mret (mkJsonlSink path true).

(** [writeln!] on a [File], which is not buffered: the text and the line feed are two
    writes. *)
Definition jsonl_write (s : JsonlSink) (line : bytes) : fs unit :=
  _ ← fs_write_all (jsonl_path s) line;
  fs_write_all (jsonl_path s) (String newline "").

Definition jsonl_emit (event : SinkEvent) (_ : unit) (sw : JsonlSink * world) :
    result SinkError unit * (JsonlSink * world) :=
  let '(s, w) := sw in
  let line := json_to_vec (event_to_value event) in
  if jsonl_inner s then
    let '(r, w) := jsonl_write s line w in (map_err SinkIo r, (s, w))
  else (Ok tt, sw).

Definition jsonl_shutdown (_ : unit) (sw : JsonlSink * world) :
    result SinkError unit * (JsonlSink * world) :=
  (Ok tt, (mkJsonlSink (jsonl_path sw.1) false, sw.2)).

#[export] Instance jsonl_sink : Sink (JsonlSink * world) unit := {|
  sink_name := "jsonl"; emit := jsonl_emit; flush := no_op; shutdown := jsonl_shutdown |}.
End jsonl.

(** Standard output, by what was printed.  A call draws the outcomes of the write and of the
    flush; a write that fails may have printed a prefix. *)
Record stdout_draw : Type := mkStdoutDraw {
  sd_write : option (IoError * nat);
  sd_flush : option IoError;
}.

Section stdout.
(** [serde_json::to_string_pretty] *)
Context (to_string_pretty : Value → string).

Definition stdout_emit (event : SinkEvent) (x : stdout_draw) (out : bytes) :
    result SinkError unit * bytes :=
  let json := to_string_pretty (event_to_value event) in
  let text := json +:+ String newline "" in
  match sd_write x with
  | Some (e, n) => (Err (SinkIo e), out +:+ String.substring 0 n text)
  | None => (match sd_flush x with Some e => Err (SinkIo e) | None => Ok tt end, out +:+ text)
  end.

Definition stdout_sink : Sink bytes stdout_draw := {|
  sink_name := "stdout"; emit := stdout_emit; flush := no_op; shutdown := no_op |}.
End stdout.

(** ** OpenTelemetry *)

Inductive AnyValue : Type := AString (s : string) | ABool (b : bool).

(** A log record; its severity is always [Severity::Info]. *)
Record LogRecord : Type := mkLogRecord { log_body : string; attributes : list (string * AnyValue) }.

(** [SdkLoggerProvider]: the batching exporter; a flush answers once per processor. *)
Class LoggerProvider (P X : Type) := {
  provider_emit : LogRecord → P → P;
  force_flush : X → P → list (result string unit) * P;
  provider_shutdown : X → P → result string unit * P;
}.

Definition opt_attr (k : string) (v : option string) : list (string * AnyValue) :=
  match v with Some s => [(k, AString s)] | None => [] end.

Definition event_attributes (k : SinkEventKind) : list (string * AnyValue) :=
  match k with
  | KDecision ef p a r _ _ _ tr sp t _ c =>
      [("agentguard.event", AString "decision"); ("agentguard.effect", AString ef);
       ("agentguard.principal", AString p); ("agentguard.action", AString a);
       ("agentguard.resource", AString r); ("agentguard.cached", ABool c)]
      ++ opt_attr "trace.id" tr ++ opt_attr "span.id" sp ++ opt_attr "agentguard.tenant_id" t
  | DelegationMint i s _ _ =>
      [("agentguard.event", AString "delegation_mint"); ("agentguard.issuer", AString i);
       ("agentguard.subject", AString s)]
  | DelegationVerify ok _ _ =>
      [("agentguard.event", AString "delegation_verify"); ("agentguard.success", ABool ok)]
  | PolicyReload v _ s =>
      [("agentguard.event", AString "policy_reload"); ("agentguard.policy_version", AString v);
       ("agentguard.source", AString s)]
  | CacheLookup h p a =>
      [("agentguard.event", AString "cache_lookup"); ("agentguard.cache_hit", ABool h);
       ("agentguard.principal", AString p); ("agentguard.action", AString a)]
  | PdpError e f =>
      [("agentguard.event", AString "pdp_error"); ("agentguard.error", AString e);
       ("agentguard.fallback", AString f)]
  end.

Definition BREAK_AFTER : Z := 5.

Section otlp.
Context {P X : Type} `{!LoggerProvider P X}.
(** [{:?}] of the event's kind *)
Context (debug_kind : SinkEventKind → string).

Record OtlpSink : Type := mkOtlpSink { provider : P; failure_count : Z }.

Definition otlp_new (p : P) : OtlpSink := mkOtlpSink p 0.

Inductive OtlpError : Type := OtlpInit (e : string).
Definition sink_error_from (e : OtlpError) : SinkError :=
  let 'OtlpInit e := e in SinkOther ("otlp init: " +:+ e).

(** [std::env::var(name).ok().filter(|s| !s.is_empty())] *)
Definition nonempty_var (v : option string) : option string :=
  match v with Some s => if bool_decide (s = "") then None else Some s | None => None end.

(** The value of [service.name]; [var] is [OTEL_SERVICE_NAME]. *)
Definition make_resource (var : option string) : string := default "agentguard" (nonempty_var var).

(** [build endpoint service] is the SDK's builder of the exporter and its provider. *)
Definition otlp_with_endpoint (build : option string → string → result string P)
    (endpoint : string) (service : option string) : result OtlpError OtlpSink :=
  p ← map_err (λ e, OtlpInit ("build exporter: " +:+ e)) (build (Some endpoint) (make_resource service));
  Ok (otlp_new p).

Definition otlp_from_env (build : option string → string → result string P)
    (endpoint service : option string) : result OtlpError OtlpSink :=
  p ← map_err (λ e, OtlpInit ("build exporter: " +:+ e))
        (build (nonempty_var endpoint) (make_resource service));
  Ok (otlp_new p).

Definition log_record (k : SinkEventKind) : LogRecord :=
  mkLogRecord ("agentguard event: " +:+ debug_kind k) (event_attributes k).

Definition otlp_emit (event : SinkEvent) (_ : X) (s : OtlpSink) : result SinkError unit * OtlpSink :=
  if BREAK_AFTER <=? failure_count s then (Ok tt, s)
  else (Ok tt, mkOtlpSink (provider_emit (log_record (event_kind event)) (provider s)) (failure_count s)).

Definition otlp_flush (x : X) (s : OtlpSink) : result SinkError unit * OtlpSink :=
  let '(results, p) := force_flush x (provider s) in
  let any_err := existsb (λ r, negb (is_ok r)) results in
  (Ok tt, mkOtlpSink p (if any_err then (failure_count s + 1) mod 2 ^ 32 else 0)).

Definition otlp_shutdown (x : X) (s : OtlpSink) : result SinkError unit * OtlpSink :=
  let '(r, p) := provider_shutdown x (provider s) in
  (map_err (λ e, SinkOther ("otlp shutdown: " +:+ e)) r, mkOtlpSink p (failure_count s)).

(** [Drop]: the outcome is ignored. *)
Definition otlp_drop (x : X) (s : OtlpSink) : P := (provider_shutdown x (provider s)).2.

#[export] Instance otlp_sink : Sink OtlpSink X := {|
  sink_name := "otlp"; emit := otlp_emit; flush := otlp_flush; shutdown := otlp_shutdown |}.
End otlp.

(** ** Events read back *)

(** The machine integers of an event are in range. *)
Definition wf_kind (k : SinkEventKind) : Prop :=
  match k with
  | KDecision _ _ _ _ _ _ d _ _ _ _ _ => in_u64 d
  | DelegationMint _ _ _ ttl => in_i64 ttl
  | PolicyReload _ n _ => in_u64 n
  | _ => True
  end.

Lemma read_strings_strings l : read_strings (strings l) = Some l.
Proof. simpl. induction l as [|s l IH]; [done|]. rewrite fmap_cons. simpl. by rewrite IH. Qed.

Lemma read_option_null o : read_option (Some (or_null (VString <$> o))) = Some o.
Proof. by destruct o. Qed.
Lemma read_option_member o : read_option (VString <$> o) = Some o.
Proof. by destruct o. Qed.

Lemma get_strings v k l : get v k = Some (strings l) → get v k ≫= read_strings = Some l.
Proof. intros ->. apply read_strings_strings. Qed.

Lemma kind_roundtrip k : wf_kind k → kind_from_value (kind_to_value k) = Some k.
Proof.
  destruct k as [ef p a r pol rea d tr sp t su c|i s acts ttl|ok i s| | |]; intros Hwf; try done;
    unfold kind_from_value; set (v := kind_to_value _).
  - rewrite (get_strings v "policies" pol eq_refl), (get_strings v "reasons" rea eq_refl).
    by destruct tr, sp, t, su.
  - rewrite (get_strings v "actions" acts eq_refl). 
    assert (Ht : get v "ttl_seconds" ≫= as_i64 = Some ttl) by (by apply as_i64_of_i64).
    by rewrite Ht.
  - by destruct i, s.
Qed.

Lemma event_roundtrip e : wf_kind (event_kind e) → event_from_value (event_to_value e) = Some e.
Proof.
  intros Hwf. destruct e as [i t k]. unfold event_from_value. set (v := event_to_value _).
  assert (Hk : get v "kind" ≫= kind_from_value = Some k) by (by apply kind_roundtrip).
  by rewrite Hk.
Qed.

(** ** The JSONL file *)

Section jsonl_file.
Context `{JsonText, !JsonTextLaws}.

Definition event_line (e : SinkEvent) : bytes := json_to_vec (event_to_value e) +:+ String newline "".

(** A reader of the file takes it line by line. *)
Definition line_event (line : bytes) : option SinkEvent :=
  to_ok (json_from_slice line) ≫= event_from_value.

Lemma exact_kind k : exact (kind_to_value k).
Proof.
  destruct k as [ef p a r pol rea d tr sp t su c|i s acts ttl|ok i s| | |]; apply exact_object;
    try (by refine (bool_decide_unpack _ _)); simpl;
    repeat (apply Forall_cons; split; [by try apply exact_strings; try apply exact_string_opt|]);
    try apply Forall_nil_2.
  - destruct tr, sp, t, su; by refine (bool_decide_unpack _ _).
  - destruct tr, sp, t, su; by repeat constructor.
  - apply Forall_singleton. unfold number_of_i64. by case_bool_decide.
Qed.

Lemma line_event_line e : wf_kind (event_kind e) → line_event (event_line e) = Some e.
Proof.
  assert (Hx : exact (event_to_value e)).
  { apply exact_object; [by refine (bool_decide_unpack _ _)|].
    repeat (apply Forall_cons; split; [done || apply exact_kind|]). apply Forall_nil_2. }
  intros Hwf. unfold line_event, event_line.
  rewrite json_trailing_newline, json_roundtrip by apply Hx. by apply event_roundtrip.
Qed.

Lemma substring_is_prefix n s : ∃ rest, s = String.substring 0 n s +:+ rest.
Proof.
  revert n. induction s as [|c s IH]; intros [|n]; simpl; [by exists ""..|by eexists|].
  destruct (IH n) as [rest Hr]. exists rest. simpl. by f_equal.
Qed.

Lemma content_append w w' path b c :
  content_of w path = Some c → files w' = append_bytes path b (files w) →
  content_of w' path = Some (c +:+ b).
Proof.
  unfold content_of. intros Hc ->. destruct (files w !! path) as [[c'|]|] eqn:Hp; try done.
  injection Hc as ->. by rewrite (append_bytes_same _ _ _ c).
Qed.

(** What one call leaves in the file: the whole line when it returns [Ok], otherwise a
    beginning of it. *)
Definition chunk_of (er : SinkEvent * result SinkError unit) (chunk : bytes) : Prop :=
  match er.2 with
  | Ok _ => chunk = event_line er.1
  | Err _ => ∃ rest, event_line er.1 = chunk +:+ rest
  end.

Lemma jsonl_emit_chunk e path w r s' w' c :
  content_of w path = Some c →
  jsonl_emit e tt (mkJsonlSink path true, w) = (r, (s', w')) →
  s' = mkJsonlSink path true ∧
  ∃ chunk, content_of w' path = Some (c +:+ chunk) ∧ chunk_of (e, r) chunk.
Proof.
  intros Hc. unfold jsonl_emit, jsonl_write. cbn [jsonl_inner jsonl_path].
  rewrite fs_bind_eq. set (line := json_to_vec (event_to_value e)).
  destruct (fs_write_all path line w) as [r1 w1] eqn:H1.
  apply fs_write_all_inv in H1 as [[-> Hw1]|(e1 & n & -> & Hw1)].
  2: { intros [= <- <- <-]. split; [done|]. eexists. split; [by eapply content_append|].
       destruct (substring_is_prefix n line) as [rest Hr]. exists (rest +:+ String newline "").
       unfold event_line. fold line. simpl. rewrite string_app_assoc. by rewrite <-Hr. }
  destruct (fs_write_all path (String newline "") w1) as [r2 w2] eqn:H2.
  apply fs_write_all_inv in H2 as [[-> Hw2]|(e2 & n & -> & Hw2)]; intros [= <- <- <-];
    (split; [done|]); pose proof (content_append _ _ _ _ _ Hc Hw1) as Hc1;
    pose proof (content_append _ _ _ _ _ Hc1 Hw2) as Hc2; rewrite <-string_app_assoc in Hc2;
    (eexists; split; [exact Hc2|]); [done|].
  destruct (substring_is_prefix n (String newline "")) as [rest Hr]. exists rest.
  unfold event_line. fold line. rewrite <-string_app_assoc. by rewrite <-Hr.
Qed.

Fixpoint jsonl_emits (evs : list SinkEvent) (sw : JsonlSink * world) :
    list (result SinkError unit) * (JsonlSink * world) :=
  match evs with
  | [] => ([], sw)
  | e :: evs =>
      let '(r, sw) := jsonl_emit e tt sw in
      let '(rs, sw) := jsonl_emits evs sw in (r :: rs, sw)
  end.

Definition joined (chunks : list bytes) : bytes := foldr String.append "" chunks.

(** Whatever faults happen, the file gains, in order, the line of each event whose emit
    returned [Ok] and a beginning of the line of each other event; the sink stays open. *)
Lemma jsonl_file_exact evs path w rs s' w' c :
  content_of w path = Some c →
  jsonl_emits evs (mkJsonlSink path true, w) = (rs, (s', w')) →
  s' = mkJsonlSink path true ∧
  ∃ chunks, content_of w' path = Some (c +:+ joined chunks) ∧
    length rs = length evs ∧ Forall2 chunk_of (zip evs rs) chunks.
Proof.
  revert w rs c. induction evs as [|e evs IH]; intros w rs c Hc; cbn [jsonl_emits].
  - intros [= <- <- <-]. split; [done|]. exists []. simpl. by rewrite string_app_nil_r.
  - destruct (jsonl_emit e tt _) as [r [s1 w1]] eqn:He.
    destruct (jsonl_emit_chunk _ _ _ _ _ _ _ Hc He) as (-> & chunk & Hc1 & Hchunk).
    destruct (jsonl_emits evs _) as [rs1 sw2] eqn:Hes. intros [= <- ->].
    destruct (IH _ _ _ Hc1 Hes) as (-> & chunks & Hc2 & Hlen & Hall). split; [done|].
    exists (chunk :: chunks). simpl. rewrite string_app_assoc. auto.
Qed.

Lemma read_joined evs :
  Forall (λ e, wf_kind (event_kind e)) evs →
  mapM line_event (read_lines (joined (event_line <$> evs))) = Some evs.
Proof.
  induction 1 as [|e evs Hwf _ IH]; [done|].
  assert (Hl : read_lines (joined (event_line <$> e :: evs))
               = event_line e :: read_lines (joined (event_line <$> evs))).
  { rewrite fmap_cons. change (joined (?l :: ?ls)) with (l +:+ joined ls).
    unfold event_line at 1. rewrite <-string_app_assoc. apply read_lines_line, json_one_line. }
  rewrite Hl. apply mapM_Some. constructor; [by apply line_event_line|]. by apply mapM_Some.
Qed.

(** Events emitted without an error read back, line by line, in order. *)
Lemma jsonl_reads_back evs path w rs s' w' :
  content_of w path = Some "" → Forall (λ e, wf_kind (event_kind e)) evs →
  jsonl_emits evs (mkJsonlSink path true, w) = (rs, (s', w')) → Forall (.= Ok tt) rs →
  ∃ out, content_of w' path = Some out ∧ mapM line_event (read_lines out) = Some evs.
Proof.
  intros Hc Hwf Hes Hok.
  destruct (jsonl_file_exact _ _ _ _ _ _ _ Hc Hes) as (_ & chunks & Hout & Hlen & Hall).
  exists (joined chunks). split; [done|].
  assert (chunks = event_line <$> evs) as ->; [|by apply read_joined].
  clear -Hlen Hall Hok. revert rs chunks Hlen Hall Hok.
  induction evs as [|e evs IH]; intros [|r rs] chunks Hlen Hall Hok; simplify_eq/=.
  - by inversion Hall.
  - inversion Hall as [|? chunk ? chunks' Hch Hall']; subst. inversion Hok; subst.
    unfold chunk_of in Hch. simpl in Hch. subst. f_equal. by eapply IH.
Qed.

(** After [shutdown] events are dropped, and [emit] still returns [Ok]. *)
Lemma jsonl_closed_drops e s w :
  jsonl_emit e tt (jsonl_shutdown tt (s, w)).2 = (Ok tt, (jsonl_shutdown tt (s, w)).2).
Proof. done. Qed.

Lemma no_newline_substring n s :
  str_contains newline s = false → str_contains newline (String.substring 0 n s) = false.
Proof.
  revert n. induction s as [|c s IH]; intros [|n] Hs; try done.
  simpl in *. bool_inv. rewrite IH by done. by rewrite bool_decide_eq_false_2.
Qed.

(** A failed emit is not rolled back: the next event is acknowledged, and shares its line
    with the beginning of the event that failed. *)
Lemma jsonl_torn_line e1 e2 path m msg n :
  m !! path = Some (Regular "") →
  ∃ w' torn, let out := torn +:+ event_line e2 in
    torn = String.substring 0 n (json_to_vec (event_to_value e1)) ∧
    jsonl_emits [e1; e2] (mkJsonlSink path true, mkWorld m [Some (msg, n)])
      = ([Err (SinkIo (IoFail msg)); Ok tt], (mkJsonlSink path true, w')) ∧
    content_of w' path = Some out ∧ read_lines out = [out].
Proof.
  intros Hm. set (t1 := json_to_vec (event_to_value e1)). set (torn := String.substring 0 n t1).
  set (w1 := mkWorld (append_bytes path torn m) []).
  destruct (jsonl_emit e2 tt (mkJsonlSink path true, w1)) as [r2 [s2 w2]] eqn:H2.
  assert (Hc1 : content_of w1 path = Some torn).
  { apply (content_append (mkWorld m []) w1 path torn ""); [|done].
    unfold content_of. cbn [files]. by rewrite Hm. }
  assert (Hr2 : r2 = Ok tt) by (unfold jsonl_emit, jsonl_write in H2; simpl in H2; by simplify_eq).
  destruct (jsonl_emit_chunk _ _ _ _ _ _ _ Hc1 H2) as (-> & chunk & Hc2 & Hch). subst r2.
  unfold chunk_of in Hch. simpl in Hch. subst chunk.
  exists w2, torn. split; [done|]. split; [|split; [done|]].
  - assert (H1 : jsonl_emit e1 tt (mkJsonlSink path true, mkWorld m [Some (msg, n)])
                 = (Err (SinkIo (IoFail msg)), (mkJsonlSink path true, w1))) by done.
    cbn [jsonl_emits]. by rewrite H1, H2.
  - unfold event_line. rewrite string_app_assoc. apply (read_lines_line _ "").
    rewrite str_contains_app, json_one_line. unfold torn.
    by rewrite no_newline_substring by apply json_one_line.
Qed.
End jsonl_file.

(** ** The circuit breaker *)

Section breaker.
Context {P X : Type} `{!LoggerProvider P X} (debug_kind : SinkEventKind → string).

Inductive otlp_op : Type := OEmit (e : SinkEvent) (x : X) | OFlush (x : X).

Definition otlp_apply (s : OtlpSink (P := P)) (op : otlp_op) : OtlpSink :=
  match op with
  | OEmit e x => (otlp_emit debug_kind e x s).2
  | OFlush x => (otlp_flush x s).2
  end.

(** The reference: the provider with the outcome of every flush so far, newest first;
    an event is exported unless the last five flushes have failed. *)
Fixpoint failures_in_a_row (h : list bool) : nat :=
  match h with true :: h => S (failures_in_a_row h) | _ => O end.

Definition some_failed (results : list (result string unit)) : bool :=
  existsb (λ r, negb (is_ok r)) results.

Definition breaker_apply (ph : P * list bool) (op : otlp_op) : P * list bool :=
  let '(p, h) := ph in
  match op with
  | OEmit e _ =>
      (if bool_decide (5 ≤ failures_in_a_row h)%nat then p
       else provider_emit (log_record debug_kind (event_kind e)) p, h)
  | OFlush x => let '(results, p) := force_flush x p in (p, some_failed results :: h)
  end.

Lemma breaker_length ops p h :
  (length (fold_left breaker_apply ops (p, h)).2 ≤ length h + length ops)%nat.
Proof.
  revert p h. induction ops as [|[e x|x] ops IH]; intros p h; simpl; [lia| |].
  - etrans; [apply IH|]. lia.
  - destruct (force_flush x p) as [rs p']. etrans; [apply IH|]. simpl. lia.
Qed.

Lemma failures_bound h : (failures_in_a_row h ≤ length h)%nat.
Proof. induction h as [|[] h IH]; simpl; lia. Qed.

(** The sink exports exactly the events that do not come after five failed flushes in a row,
    for as long as the failures fit its 32-bit counter; one good flush resumes it. *)
Lemma otlp_breaker_exact p ops :
  Z.of_nat (length ops) < 2 ^ 32 →
  let s := fold_left otlp_apply ops (otlp_new p) in
  let '(p', h) := fold_left breaker_apply ops (p, []) in
  provider s = p' ∧ failure_count s = Z.of_nat (failures_in_a_row h).
Proof.
  induction ops as [|op ops IH] using rev_ind; [done|].
  rewrite length_app. cbn [length]. intros Hlen. rewrite !fold_left_app. cbn [fold_left].
  pose proof (breaker_length ops p []) as Hb.
  specialize (IH ltac:(lia)). cbv zeta in IH.
  destruct (fold_left breaker_apply ops (p, [])) as [p1 h] eqn:Hr.
  set (s := fold_left otlp_apply ops (otlp_new p)) in *. destruct IH as [Hp Hf].
  pose proof (failures_bound h). simpl in Hb.
  destruct op as [e x|x]; cbn [otlp_apply breaker_apply].
  - unfold otlp_emit, BREAK_AFTER. case_bool_decide; destruct (5 <=? failure_count s) eqn:Hc;
      bool_inv; try lia; simpl; by rewrite ?Hp.
  - unfold otlp_flush. rewrite Hp. destruct (force_flush x p1) as [rs p2]. simpl.
    fold (some_failed rs). split; [done|]. destruct (some_failed rs); simpl; [|done].
    rewrite Z.mod_small; lia.
Qed.
End breaker.
