(* ===== verification/Watcher.v ===== *)
(** * The policy watcher ([agentguard-policy/src/watcher.rs], the loop of [server.rs])

    [PolicyWatcher] coalesces file-system notifications into bounded state that a loop drains
    and reloads from.  The notifications of the [notify] crate and the clock are arguments.
    The coalescing watcher implements one that remembers every notification. *)

From S2P Require Import Prelude Json CoreError AuthError Crypto Trace Request DecisionRecord HashChain Canonical AuditFs AuditLog ApiKey Cache Engine Text Semaphore AuthLayer Metrics PolicyStore AuthZen Pdp AuditPort ChainSecret Server.

Inductive WatchEventKind : Type := WCreate | WWrite | WRemove | WOther.
#[export] Instance WatchEventKind_eq_dec : EqDecision WatchEventKind.
Proof. solve_decision. Defined.

(** [notify::EventKind] *)
Inductive EventKind : Type := EvCreate | EvModify | EvRemove | EvAny.

Record WatchEvent : Type := mkWatchEvent { ev_paths : list string; ev_kind : WatchEventKind }.

Definition MAX_PENDING_WATCH_PATHS : nat := 128.
Definition MAX_PENDING_WATCH_ERRORS : nat := 16.
Definition MAX_WATCH_ERROR_BYTES : nat := 512.

Definition kind_from (k : EventKind) : WatchEventKind :=
  match k with EvCreate => WCreate | EvModify => WWrite | EvRemove => WRemove | EvAny => WOther end.

Record PendingSignals : Type := mkPending {
  changed : bool;
  pending_paths : list string;
  pending_kind : WatchEventKind;
  pending_errors : list string;
  last_error : option string;
}.
Definition pending_default : PendingSignals := mkPending false [] WOther [] None.

Record PolicyWatcher : Type := mkWatcher {
  pending : PendingSignals;
  debounce : Z;
  last_emit : option Z;
}.

(** The loop down to a character boundary. *)
Fixpoint char_boundary (s : string) (n : nat) : nat :=
  match n with
  | O => O
  | S m => match String.get n s with
           | Some c => if continuation c then char_boundary s m else n
           | None => n
           end
  end.

Definition clip_error (error : string) : string :=
  if (MAX_WATCH_ERROR_BYTES <? String.length error)%nat
  then String.substring 0 (char_boundary error MAX_WATCH_ERROR_BYTES) error else error.

Definition queue_new_error (errors : list string) (last_error : option string) (error : string) :
    list string * option string :=
  let error := clip_error error in
  if bool_decide (last_error = Some error) then (errors, last_error)
  else (if (length errors <? MAX_PENDING_WATCH_ERRORS)%nat then errors ++ [error] else errors,
        Some error).

Definition promote_kind (current incoming : WatchEventKind) : WatchEventKind :=
  match current, incoming with
  | WCreate, _ | _, WCreate => WCreate
  | WWrite, _ | _, WWrite => WWrite
  | WRemove, _ | _, WRemove => WRemove
  | _, _ => WOther
  end.

(** The loops that push until the bound is reached. *)
Fixpoint push_bounded (acc paths : list string) : list string :=
  match paths with
  | [] => acc
  | p :: paths =>
      if (length acc =? MAX_PENDING_WATCH_PATHS)%nat then acc else push_bounded (acc ++ [p]) paths
  end.

Definition record_event (s : PendingSignals) (paths : list string) (kind : WatchEventKind) :
    PendingSignals :=
  mkPending true (push_bounded (pending_paths s) paths) (promote_kind (pending_kind s) kind)
    (pending_errors s) None.

Definition record_error (s : PendingSignals) (error : string) : PendingSignals :=
  let '(errors, last) := queue_new_error (pending_errors s) (last_error s) error in
  mkPending (changed s) (pending_paths s) (pending_kind s) errors last.

(** Saturating, as [Instant::duration_since] is. *)
Definition window_elapsed (w : PolicyWatcher) (now : Z) : bool :=
  match last_emit w with None => true | Some t => debounce w <=? Z.max 0 (now - t) end.

Definition events (w : PolicyWatcher) (now : Z) : list WatchEvent * PolicyWatcher :=
  let p := pending w in
  if window_elapsed w now && changed p then
    ([mkWatchEvent (pending_paths p) (pending_kind p)],
     mkWatcher (mkPending false [] WOther (pending_errors p) (last_error p)) (debounce w) (Some now))
  else ([], w).

Definition take_errors (w : PolicyWatcher) : list string * PolicyWatcher :=
  let p := pending w in
  (pending_errors p,
   mkWatcher (mkPending (changed p) (pending_paths p) (pending_kind p) [] (last_error p)) (debounce w)
     (last_emit w)).

(** [dir] is canonical. *)
Definition parent (path : string) : option string :=
  match rev (split "/"%char path) with
  | _ :: d :: dirs => Some (join "/" (rev (d :: dirs)))
  | _ => None
  end.

Definition is_relevant (dir path : string) : bool :=
  bool_decide (path = join_path dir "schema.cedarschema")
  || match parent path with
     | Some p => path_starts_with p (join_path dir "policies")
     | None => false
     end && bool_decide (path_extension path = Some "cedar").

(** The callback of [watch]. *)
Definition watch_callback (dir : string) (s : PendingSignals)
    (res : result string (EventKind * list string)) : PendingSignals :=
  match res with
  | Ok (k, paths) =>
      let bounded := push_bounded [] (List.filter (is_relevant dir) paths) in
      match bounded with
      | [] => s
      | _ => record_event s bounded (kind_from k)
      end
  | Err error => record_error s error
  end.

Definition watch (debounce : Z) : PolicyWatcher := mkWatcher pending_default debounce None.

Definition notified (dir : string) (w : PolicyWatcher) (res : result string (EventKind * list string)) :
    PolicyWatcher :=
  mkWatcher (watch_callback dir (pending w) res) (debounce w) (last_emit w).

(** ** Runs *)

(** Notifications arrive on a thread of their own, ticks drain. *)
Inductive watch_op : Type :=
| Notify (res : result string (EventKind * list string))
| Tick (now : Z).

(** What a tick of the loop takes: the events, then the errors. *)
Definition drain_watcher (w : PolicyWatcher) (now : Z) : list WatchEvent * PolicyWatcher :=
  let '(evs, w) := events w now in (evs, (take_errors w).2).

Definition watch_step (dir : string) (w : PolicyWatcher) (op : watch_op) :
    list WatchEvent * PolicyWatcher :=
  match op with
  | Notify res => ([], notified dir w res)
  | Tick now => drain_watcher w now
  end.

Fixpoint watch_run (dir : string) (w : PolicyWatcher) (ops : list watch_op) :
    list WatchEvent * PolicyWatcher :=
  match ops with
  | [] => ([], w)
  | op :: ops =>
      let '(evs, w) := watch_step dir w op in
      let '(evs', w) := watch_run dir w ops in (evs ++ evs', w)
  end.

(** ** The watcher that remembers everything *)

Definition note : Type := list string * WatchEventKind.

Definition note_of (dir : string) (op : watch_op) : option note :=
  match op with
  | Notify (Ok (k, paths)) =>
      match List.filter (is_relevant dir) paths with
      | [] => None
      | ps => Some (ps, kind_from k)
      end
  | _ => None
  end.

(** The event that stands for a batch of notes: the first paths, and the dominant kind. *)
Definition dominant (ks : list WatchEventKind) : WatchEventKind := fold_left promote_kind ks WOther.
Definition summary (notes : list note) : WatchEvent :=
  mkWatchEvent (take MAX_PENDING_WATCH_PATHS (concat notes.*1)) (dominant notes.*2).

(** The notes a watcher has yet to report. *)
Record holds_notes (notes : list note) (w : PolicyWatcher) : Prop := {
  hn_changed : changed (pending w) = bool_decide (notes ≠ []);
  hn_paths : pending_paths (pending w) = ev_paths (summary notes);
  hn_kind : pending_kind (pending w) = ev_kind (summary notes);
}.

Lemma push_bounded_take acc paths :
  (length acc ≤ MAX_PENDING_WATCH_PATHS)%nat →
  push_bounded acc paths = take MAX_PENDING_WATCH_PATHS (acc ++ paths).
Proof.
  revert acc. induction paths as [|p paths IH]; intros acc Hacc; simpl.
  - rewrite app_nil_r, take_ge by lia. done.
  - destruct (Nat.eqb_spec (length acc) MAX_PENDING_WATCH_PATHS) as [Heq|Hne].
    + by rewrite <-Heq, take_app_length.
    + rewrite IH by (rewrite length_app; simpl; lia). by rewrite <-app_assoc.
Qed.

Lemma dominant_snoc ks k : dominant (ks ++ [k]) = promote_kind (dominant ks) k.
Proof. unfold dominant. by rewrite fold_left_app. Qed.

Lemma take_app_take {A} n (l k : list A) : take n (take n l ++ take n k) = take n (l ++ k).
Proof.
  destruct (Nat.le_gt_cases n (length l)).
  - rewrite (take_app_le l k n) by lia. rewrite take_app_le by (rewrite length_take; lia).
    rewrite take_take. f_equal. lia.
  - rewrite (take_ge l n) by lia. rewrite !take_app_ge by lia. f_equal. rewrite take_take. f_equal. lia.
Qed.

Lemma summary_snoc notes ps k :
  summary (notes ++ [(ps, k)])
  = mkWatchEvent (take MAX_PENDING_WATCH_PATHS (concat notes.*1 ++ ps)) (promote_kind (dominant notes.*2) k).
Proof.
  unfold summary. rewrite !fmap_app, concat_app. cbn [fmap list_fmap fst snd concat].
  by rewrite dominant_snoc, app_nil_r.
Qed.

Lemma notify_holds dir notes w res :
  holds_notes notes w → holds_notes (notes ++ option_list (note_of dir (Notify res))) (notified dir w res).
Proof.
  intros [Hc Hp Hk]. destruct res as [[k paths]|e]; unfold notified, watch_callback, note_of; cbv zeta.
  - rewrite push_bounded_take by (simpl; lia). rewrite app_nil_l.
    destruct (List.filter (is_relevant dir) paths) as [|p ps] eqn:Hf.
    { rewrite app_nil_r. by split. }
    set (rel := p :: ps) in *. change (option_list (Some ?x)) with [x].
    assert (Hne : ∃ x xs, take MAX_PENDING_WATCH_PATHS rel = x :: xs) by (by eexists _, _).
    destruct Hne as (x & xs & Hx). rewrite Hx. cbv iota. rewrite <-Hx. split; cbn [pending record_event changed pending_paths pending_kind].
    + symmetry. apply bool_decide_eq_true. by destruct notes.
    + rewrite summary_snoc. cbn [ev_paths]. rewrite Hp. unfold summary. cbn [ev_paths].
      rewrite push_bounded_take by (rewrite length_take; lia). apply take_app_take.
    + rewrite summary_snoc, Hk. done.
  - rewrite app_nil_r. unfold record_error.
    destruct (queue_new_error (pending_errors (pending w)) (last_error (pending w)) e). by split.
Qed.

Lemma drain_holds notes w now :
  holds_notes notes w →
  let '(evs, w') := drain_watcher w now in
  if window_elapsed w now && bool_decide (notes ≠ [])
  then evs = [summary notes] ∧ holds_notes [] w' ∧ last_emit w' = Some now
  else evs = [] ∧ holds_notes notes w' ∧ last_emit w' = last_emit w.
Proof.
  intros [Hc Hp Hk]. unfold drain_watcher, events. rewrite Hc.
  destruct (window_elapsed w now && bool_decide (notes ≠ [])) eqn:Hw.
  - rewrite Hp, Hk. split_and!; [by destruct (summary notes)|by split|done].
  - split_and!; [done|by split|done].
Qed.

(** C27: the watcher loses no policy change: the events it hands out are the summaries of
    nonempty batches which, with what is still pending, are all relevant notifications in
    order, each once; a batch names its dominant kind and a bounded sample of its paths.
    Something pending is handed out by the next drain outside the debounce window. *)
Theorem watcher_loses_nothing dir deb ops :
  let '(evs, w) := watch_run dir (watch deb) ops in
  ∃ batches notes,
    evs = summary <$> batches ∧ Forall (.≠ []) batches ∧
    concat batches ++ notes = omap (note_of dir) ops ∧
    ∀ now, window_elapsed w now = true →
      (events w now).1 = if bool_decide (notes = []) then [] else [summary notes].
Proof.
  assert (Hgen : ∀ ops w notes, holds_notes notes w →
    let '(evs, w') := watch_run dir w ops in
    ∃ batches notes', evs = summary <$> batches ∧ Forall (.≠ []) batches ∧
      concat batches ++ notes' = notes ++ omap (note_of dir) ops ∧ holds_notes notes' w').
  { clear ops. induction ops as [|op ops IH]; intros w notes Hh; simpl.
    { exists [], notes. rewrite app_nil_r. split_and!; try done. }
    destruct op as [res|now].
    - specialize (IH _ _ (notify_holds dir notes w res Hh)). cbn [watch_step].
      destruct (watch_run dir _ ops) as [evs w'] eqn:Hrun.
      destruct IH as (bs & ns & -> & Hne & Hcat & Hh').
      exists bs, ns. rewrite Hcat, <-app_assoc. split_and!; try done. f_equal. f_equal.
      by destruct (note_of dir (Notify res)).
    - pose proof (drain_holds notes w now Hh) as Hd. cbn [watch_step].
      destruct (drain_watcher w now) as [evs w1]. cbn [note_of].
      destruct (window_elapsed w now && bool_decide (notes ≠ [])) eqn:Hw.
      + destruct Hd as (-> & Hh1 & _). specialize (IH _ _ Hh1).
        destruct (watch_run dir w1 ops) as [evs' w2]. destruct IH as (bs & ns & -> & Hne & Hcat & Hh2).
        exists (notes :: bs), ns. bool_inv. split_and!; [done|by constructor| |done].
        simpl. by rewrite <-app_assoc, Hcat.
      + destruct Hd as (-> & Hh1 & _). specialize (IH _ _ Hh1).
        destruct (watch_run dir w1 ops) as [evs' w2]. exact IH. }
  assert (Hh0 : holds_notes [] (watch deb)) by (by split).
  specialize (Hgen ops (watch deb) [] Hh0). destruct (watch_run dir (watch deb) ops) as [evs w].
  destruct Hgen as (bs & ns & -> & Hne & Hcat & Hh). exists bs, ns. split_and!; try done.
  intros now Hnow. destruct Hh as [Hc Hp Hk]. unfold events. rewrite Hnow, Hc, Hp, Hk. simpl.
  destruct ns as [|n ns]; [done|]. rewrite bool_decide_eq_true_2, bool_decide_eq_false_2 by done.
  cbn [fst]. unfold summary. done.
Qed.

(** ** Bounds *)

(** What the callback can make the process hold on to. *)
Record bounded_signals (s : PendingSignals) : Prop := {
  bd_paths : (length (pending_paths s) ≤ MAX_PENDING_WATCH_PATHS)%nat;
  bd_errors : (length (pending_errors s) ≤ MAX_PENDING_WATCH_ERRORS)%nat;
  bd_each : Forall (λ e, (String.length e ≤ MAX_WATCH_ERROR_BYTES)%nat) (pending_errors s);
}.

Lemma char_boundary_le s n : (char_boundary s n ≤ n)%nat.
Proof.
  induction n as [|n IH]; [done|]. simpl. destruct (String.get (S n) s) as [c|]; [|done].
  destruct (continuation c); lia.
Qed.

Lemma callback_bounded dir s res : bounded_signals s → bounded_signals (watch_callback dir s res).
Proof.
  intros [Hp He Hb]. destruct res as [[k paths]|e]; unfold watch_callback; cbv zeta.
  - destruct (push_bounded [] _) as [|p ps]; [done|]. split; try done.
    cbn [record_event pending_paths]. rewrite push_bounded_take, length_take by done. lia.
  - unfold record_error, queue_new_error. cbv zeta.
    assert (Herr : (String.length (clip_error e) ≤ MAX_WATCH_ERROR_BYTES)%nat).
    { unfold clip_error. destruct (Nat.ltb_spec MAX_WATCH_ERROR_BYTES (String.length e)); [|done].
      rewrite substring_length. pose proof (char_boundary_le e MAX_WATCH_ERROR_BYTES). lia. }
    case_bool_decide; [by split|]. destruct (Nat.ltb_spec (length (pending_errors s)) MAX_PENDING_WATCH_ERRORS);
      split; cbn [pending_paths pending_errors]; try done.
    + rewrite length_app. simpl. lia.
    + apply Forall_app. split; [done|by constructor].
Qed.

Lemma watch_run_bounded dir w ops :
  bounded_signals (pending w) → bounded_signals (pending (watch_run dir w ops).2).
Proof.
  revert w. induction ops as [|op ops IH]; intros w Hw; simpl; [done|].
  assert (Hs : bounded_signals (pending (watch_step dir w op).2)).
  { destruct op as [res|now]; [by apply callback_bounded|]. cbn [watch_step]. unfold drain_watcher, events.
    destruct Hw as [Hp He Hb]. destruct (_ && _); split; simpl; auto; lia. }
  destruct (watch_step dir w op) as [evs w1]. cbn [snd] in Hs. specialize (IH w1 Hs).
  by destruct (watch_run dir w1 ops).
Qed.

(** ** The reload loop *)

Section reload.
Context `{CedarStore, !CedarBuild, !JsonText, !JsonScalars, !Hex, !Sha256, !Hmac, !UuidText}.
Context `{!RecordCodec, !ActorCodec, !Lru bytes (CachedDecision * Z), !F64, !Semaphore} {T : Type}.

Abbreviation State_ := (@AppState _ _ _ _ _ (DecisionLog * world) T).

(** A tick of [spawn_policy_watcher_task]. *)
Definition policy_watcher_task_tick (w : PolicyWatcher) (st : State_) (now : Z) (e : load_env) :
    PolicyWatcher * State_ :=
  let '(evs, w) := drain_watcher w now in (w, policy_watcher_tick evs st e).

(** The loop reloads at a tick outside the debounce window exactly when a relevant change
    is pending. *)
Lemma task_tick_reloads notes w (st : State_) now e :
  holds_notes notes w → window_elapsed w now = true →
  (policy_watcher_task_tick w st now e).2 = (if bool_decide (notes = []) then st else app_reload st e).
Proof.
  intros Hh Hnow. pose proof (drain_holds notes w now Hh) as Hd. unfold policy_watcher_task_tick.
  destruct (drain_watcher w now) as [evs w']. rewrite Hnow in Hd. cbn [andb] in Hd.
  destruct notes as [|n ns].
  - rewrite bool_decide_eq_false_2 in Hd by (by intros []). by destruct Hd as (-> & _).
  - rewrite bool_decide_eq_true_2 in Hd by done. destruct Hd as (-> & _).
    by rewrite bool_decide_eq_false_2.
Qed.

(** The watch and the loop: notifications arrive, and ticks find what the store holds then. *)
Definition task_step (dir : string) (s : PolicyWatcher * State_) (op : watch_op * load_env) :
    PolicyWatcher * State_ :=
  match op with
  | (Notify res, _) => (notified dir s.1 res, s.2)
  | (Tick now, e) => policy_watcher_task_tick s.1 s.2 now e
  end.

Lemma task_tick_watcher w (st : State_) now e : (policy_watcher_task_tick w st now e).1 = (drain_watcher w now).2.
Proof. unfold policy_watcher_task_tick. by destruct (drain_watcher w now). Qed.

(** Once the store is at rest, the loop serves its last contents: the first tick outside the
    debounce window after a relevant notification reloads, however the time before it went. *)
Theorem last_change_is_served dir deb (st : State_) ops res e0 now e s :
  s = foldl (task_step dir) (watch deb, st) ops → is_Some (note_of dir (Notify res)) →
  window_elapsed s.1 now = true →
  (foldl (task_step dir) s [(Notify res, e0); (Tick now, e)]).2 = app_reload s.2 e.
Proof.
  intros Hs [n Hn] Hnow.
  assert (Hh : ∃ notes, holds_notes notes s.1).
  { subst s. assert (Hgen : ∀ s, (∃ notes, holds_notes notes s.1) →
      ∃ notes, holds_notes notes (foldl (task_step dir) s ops).1); [|apply Hgen; by exists []].
    clear. induction ops as [|[[r|t] e] ops IH]; intros s [notes Hh]; [by eexists| |]; cbn [foldl]; apply IH.
    - eexists. by apply notify_holds.
    - cbn [task_step]. rewrite task_tick_watcher. pose proof (drain_holds notes s.1 t Hh) as Hd.
      destruct (drain_watcher s.1 t) as [evs w']. cbn [snd]. destruct (_ && _); naive_solver. }
  destruct Hh as [notes Hh]. apply (notify_holds dir _ _ res) in Hh. rewrite Hn in Hh. cbn [foldl task_step fst snd].
  rewrite (task_tick_reloads _ _ _ _ _ Hh), bool_decide_eq_false_2; [done|by destruct notes|].
  revert Hnow. unfold window_elapsed, notified. by destruct res as [[]|].
Qed.

(** A change that the watch did not report is not served: while nothing relevant is notified
    the loop keeps the policies the server was built with, whatever the store holds now.  As
    [run] builds the state before it starts the watch, this is so for changes in between. *)
Theorem unwatched_change_not_served dir deb (st : State_) ops :
  Forall (λ op, note_of dir op.1 = None) ops → (foldl (task_step dir) (watch deb, st) ops).2 = st.
Proof.
  assert (Hgen : ∀ s, holds_notes [] s.1 → Forall (λ op, note_of dir op.1 = None) ops →
    (foldl (task_step dir) s ops).2 = s.2); [|by apply Hgen].
  induction ops as [|[[r|t] e] ops IH]; intros s Hh Hops; [done| |];
    apply Forall_cons in Hops as [Hop Hops]; cbn [foldl fst] in *; rewrite IH; try done.
  - apply (notify_holds dir _ _ r) in Hh. by rewrite Hop in Hh.
  - cbn [task_step]. unfold policy_watcher_task_tick. pose proof (drain_holds [] s.1 t Hh) as Hd.
    destruct (drain_watcher s.1 t) as [evs w']. rewrite andb_false_r in Hd. by destruct Hd as (-> & _).
  - cbn [task_step]. rewrite task_tick_watcher. pose proof (drain_holds [] s.1 t Hh) as Hd.
    destruct (drain_watcher s.1 t) as [evs w']. rewrite andb_false_r in Hd. naive_solver.
Qed.
End reload.

(** Two changes within one window are one event, with the dominant kind. *)
Example coalesced :
  (watch_run "/s" (watch 250)
     [Notify (Ok (EvModify, ["/s/policies/a.cedar"])); Tick 0;
      Notify (Ok (EvRemove, ["/s/policies/x/b.cedar"; "/s/notes.txt"])); Tick 100;
      Notify (Ok (EvModify, ["/s/schema.cedarschema"])); Notify (Err "lost"); Tick 300]).1
  = [mkWatchEvent ["/s/policies/a.cedar"] WWrite;
     mkWatchEvent ["/s/policies/x/b.cedar"; "/s/schema.cedarschema"] WWrite].
Proof. vm_compute. reflexivity. Qed.
