(* ===== verification/PolicyOps.v ===== *)
(** * Policy operations ([agentguard-policy/src/lib.rs], [version.rs], [diff.rs], [blast_radius.rs])

    Versioned bundles and their registry, the diff of two bundles, and the replay of a
    corpus of requests against both.  A [BTreeMap] is the list of its entries in key order;
    the iteration order of a [HashMap] and the line diff of the [similar] crate are
    arguments. *)

From S2P Require Import Prelude Json CoreError Crypto Trace Request DecisionRecord Canonical AuditLog Cache Engine Text Metrics PolicyStore AuthZen.

(** ** Versions and bundles *)

Abbreviation PolicyVersion := Z (only parsing).
(** [saturating_add(1)] *)
Definition version_next (v : PolicyVersion) : PolicyVersion := Z.min u64_max (v + 1).
Definition version_display (v : PolicyVersion) : string := "v" +:+ pretty v.

Record NamedPolicy : Type := mkNamedPolicy { np_id : string; np_source : string }.
Record PolicyBundle : Type := mkBundle {
  b_version : PolicyVersion;
  b_tenant : string;
  schema_hash : bytes;
  policies_hash : bytes;
  b_created_at : Z;
  created_by : string;
  b_signature : option bytes;
  schema_source : string;
  b_policies : list NamedPolicy;
}.

Definition content_hash `{Sha256} (b : PolicyBundle) : bytes := sha256 (schema_hash b +:+ policies_hash b).

(** [serde_json] of a bundle. *)
Class BundleCodec := {
  bundle_to_string_pretty : PolicyBundle → result string string;
  bundle_from_str : string → result string PolicyBundle;
}.

(** ** The registry *)

(** [BTreeMap::insert] *)
Fixpoint btree_insert {A} (k : Z) (x : A) (m : list (Z * A)) : list (Z * A) :=
  match m with
  | [] => [(k, x)]
  | (j, y) :: m =>
      if k <? j then (k, x) :: (j, y) :: m
      else if j =? k then (k, x) :: m
      else (j, y) :: btree_insert k x m
  end.
Fixpoint btree_get {A} (k : Z) (m : list (Z * A)) : option A :=
  match m with
  | [] => None
  | (j, y) :: m => if j =? k then Some y else btree_get k m
  end.

Abbreviation BundleRegistry := (gmap string (list (Z * PolicyBundle))).
Definition registry_empty : BundleRegistry := ∅.

Definition register (r : BundleRegistry) (b : PolicyBundle) : BundleRegistry :=
  <[b_tenant b := btree_insert (b_version b) b (default [] (r !! b_tenant b))]> r.
Definition versions (r : BundleRegistry) (tenant : string) : list (Z * PolicyBundle) :=
  default [] (r !! tenant).
Definition latest (r : BundleRegistry) (tenant : string) : option PolicyBundle :=
  snd <$> last (versions r tenant).
Definition at_version (r : BundleRegistry) (tenant : string) (v : PolicyVersion) : option PolicyBundle :=
  btree_get v (versions r tenant).
Definition list_bundles (r : BundleRegistry) (tenant : string) : list PolicyBundle :=
  (versions r tenant).*2.
Definition total (r : BundleRegistry) : nat := map_fold (λ _ m n, (length m + n)%nat) O r.

(** ** Bundles on disk *)

Definition parent_dir (path : string) : string := join "/" (removelast (split "/"%char path)).
(** [std::fs::write]: the directory has to exist. *)
Definition write_file (io : string → option string) (t : tree) (path text : string) :
    result string tree :=
  match io path with
  | Some e => Err e
  | None =>
      match t !! parent_dir path with
      | Some Directory => Ok (<[path := File text]> t)
      | _ => Err "No such file or directory (os error 2)"
      end
  end.

Section disk.
Context `{BundleCodec}.

Definition write_bundle_to_path (b : PolicyBundle) (path : string) (t : tree) (io : string → option string) :
    result string tree :=
  t ← (match io (parent_dir path) with
       | Some e => Err e
       | None => Ok (<[parent_dir path := Directory]> t)
       end);
  text ← bundle_to_string_pretty b;
  write_file io t path text.

Definition read_bundle_from_path (path : string) (t : tree) (io : string → option string) :
    result string PolicyBundle :=
  match io path, t !! path with
  | Some e, _ => Err e
  | None, Some (File text) =>
      _ ← bail_if (negb (utf8_valid text)) "stream did not contain valid UTF-8"; bundle_from_str text
  | None, _ => Err "No such file or directory (os error 2)"
  end.

(** A bundle that was written reads back, when the codec reads what it writes. *)
Lemma bundle_disk_roundtrip b path t io t' :
  (∀ text, bundle_to_string_pretty b = Ok text → bundle_from_str text = Ok b ∧ utf8_valid text = true) →
  write_bundle_to_path b path t io = Ok t' → read_bundle_from_path path t' io = Ok b.
Proof.
  intros Hc Hw. unfold write_bundle_to_path in Hw.
  apply bind_Ok in Hw as (t1 & _ & (text & Htext & Hw)%bind_Ok). destruct (Hc text Htext) as [Hr Hu].
  unfold write_file in Hw. unfold read_bundle_from_path. destruct (io path); [done|].
  destruct (t1 !! parent_dir path) as [[]|]; try done. injection Hw as <-.
  rewrite lookup_insert_eq. by rewrite Hu.
Qed.
End disk.

(** ** Diff *)

Inductive ChangeTag : Type := TagEqual | TagInsert | TagDelete.
(** [TextDiff::from_lines(old, new).iter_all_changes()] *)
Class TextDiff := { from_lines : string → string → list (ChangeTag * string) }.
Class TextDiffLaws `{TextDiff} : Prop := {
  diff_old old new :
    join "" (omap (λ c, match c.1 with TagInsert => None | _ => Some c.2 end) (from_lines old new)) = old;
  diff_new old new :
    join "" (omap (λ c, match c.1 with TagDelete => None | _ => Some c.2 end) (from_lines old new)) = new;
  diff_lines old new : Forall (λ c, c.2 ≠ "") (from_lines old new);
}.

Section diff.
Context `{TextDiff}.

Definition tag_prefix (t : ChangeTag) : string :=
  match t with TagEqual => " " | TagInsert => "+" | TagDelete => "-" end.
Definition ends_with_newline (s : string) : bool := starts_with (String newline "") (str_rev s).
Definition change_line (c : ChangeTag * string) : string :=
  tag_prefix c.1 +:+ c.2 +:+ (if ends_with_newline c.2 then "" else String newline "").

Definition line_diff (old new : option string) : string :=
  join "" (change_line <$> from_lines (default "" old) (default "" new)).

(** [.iter().map(..).collect::<HashMap<_, _>>()]: a later policy of the same id wins. *)
Definition sources_of (b : PolicyBundle) : gmap string string :=
  fold_left (λ m p, <[np_id p := np_source p]> m) (b_policies b) ∅.

(** [old_keys] and [new_entries] are the two maps in their iteration orders. *)
Definition diff_bundles (old new : PolicyBundle) (old_keys : list string)
    (new_entries : list (string * string)) : list (string * string) :=
  let old_map := sources_of old in
  let new_map := sources_of new in
  ((λ id, (id, line_diff (Some "") (Some ""))) <$>
     List.filter (λ id, bool_decide (new_map !! id = None)) old_keys)
  ++ omap (λ '(id, new_src),
             let old_src := old_map !! id in
             if bool_decide (old_src ≠ Some new_src)
             then Some (id, line_diff old_src (Some new_src)) else None) new_entries.
End diff.

(** ** Blast radius *)

Inductive ChangeClass : Type := Unchanged | AllowToDeny | DenyToAllow | OtherChange (s : string).
Definition is_dangerous (c : ChangeClass) : bool := match c with AllowToDeny => true | _ => false end.

Record ReplayRequest : Type := mkReplay {
  rp_request : AgentRequest;
  rp_entities : list Value;
  old_effect : string;
}.
Record BlastRadiusReport : Type := mkBlastReport {
  unchanged : Z;
  allow_to_deny : Z;
  deny_to_allow : Z;
  other : Z;
  sample_allow_to_deny : list ReplayRequest;
  sample_deny_to_allow : list ReplayRequest;
}.
Definition report_default : BlastRadiusReport := mkBlastReport 0 0 0 0 [] [].
Definition report_total (r : BlastRadiusReport) : Z :=
  unchanged r + allow_to_deny r + deny_to_allow r + other r.
Definition has_allow_to_deny (r : BlastRadiusReport) : bool := 0 <? allow_to_deny r.

Definition SAMPLE_CAP : nat := 10.

Definition classify (old new : Effect) : ChangeClass :=
  match old, new with
  | Allow, Deny => AllowToDeny
  | Deny, Allow => DenyToAllow
  | Allow, Allow | Deny, Deny => Unchanged
  end.

Definition keep_sample (l : list ReplayRequest) (r : ReplayRequest) : list ReplayRequest :=
  if (length l <? SAMPLE_CAP)%nat then l ++ [r] else l.

(** The counters are [usize]; a corpus in memory does not fill one. *)
Definition count_change (report : BlastRadiusReport) (req : ReplayRequest) (c : ChangeClass) :
    BlastRadiusReport :=
  let '(mkBlastReport u a d o sa sd) := report in
  match c with
  | Unchanged => mkBlastReport (u + 1) a d o sa sd
  | AllowToDeny => mkBlastReport u (a + 1) d o (keep_sample sa req) sd
  | DenyToAllow => mkBlastReport u a (d + 1) o sa (keep_sample sd req)
  | OtherChange _ => mkBlastReport u a d (o + 1) sa sd
  end.

Section blast.
Context `{CedarStore, !CedarBuild, !JsonText, !JsonScalars, !Hex, !Sha256}.
Context `{!Lru bytes (CachedDecision * Z)}.

(** What a build meets: the temporary directory, failures of the storage, and the walk. *)
Record build_env : Type := mkBuildEnv {
  be_tmp : result string string;
  be_io : string → option string;
  be_utf8 : bytes → string;
  be_walk : list (result string string);
}.

(** [{:03}] *)
Definition pad3 (i : nat) : string :=
  let s := pretty (Z.of_nat i) in
  (match String.length s with 1%nat => "00" | 2%nat => "0" | _ => "" end) +:+ s.

Fixpoint write_policies (io : string → option string) (dir : string) (i : nat) (ps : list NamedPolicy)
    (t : tree) : result string tree :=
  match ps with
  | [] => Ok t
  | p :: ps =>
      t ← map_err (λ e, "write policy " +:+ np_id p +:+ ": " +:+ e)
            (write_file io t (join_path dir (pad3 i +:+ "_" +:+ np_id p +:+ ".cedar")) (np_source p));
      write_policies io dir (S i) ps t
  end.

Definition build_authorizer (b : PolicyBundle) (e : build_env) : result string Authorizer :=
  dir ← map_err (λ e, "create tempdir: " +:+ e) (be_tmp e);
  let pdir := join_path dir "policies" in
  _ ← map_err (λ e, "create policies dir: " +:+ e)
        (match be_io e pdir with Some e => Err e | None => Ok tt end);
  let t := <[pdir := Directory]> {[dir := Directory]} in
  t ← map_err (λ e, "write schema: " +:+ e)
        (write_file (be_io e) t (join_path dir "schema.cedarschema") (schema_source b));
  t ← write_policies (be_io e) pdir 0 (b_policies b) t;
  store ← map_err (λ e, "open policy store: " +:+ error_display e)
            (policy_store_open dir t (be_io e)).1;
  map_err (λ e, "build authorizer: " +:+ error_display e)
    (authorizer_new t (be_io e) (be_utf8 e) store (be_walk e)).

(** These authorizers have no cache, so no clock is read. *)
Fixpoint replay (old new : Authorizer) (report : BlastRadiusReport) (corpus : list ReplayRequest) :
    result string BlastRadiusReport :=
  match corpus with
  | [] => Ok report
  | req :: corpus =>
      ents ← map_err (λ e, "replay entity build: " +:+ error_display e) (build_entities (rp_entities req));
      let '(r, old) := authorize old (rp_request req) ents 0 0 in
      old_decision ← map_err (λ e, "old-bundle authorize: " +:+ error_display e) r;
      let '(r, new) := authorize new (rp_request req) ents 0 0 in
      new_decision ← map_err (λ e, "new-bundle authorize: " +:+ error_display e) r;
      replay old new (count_change report req (classify (effect old_decision) (effect new_decision))) corpus
  end.

Definition analyze (old new : PolicyBundle) (corpus : list ReplayRequest) (eo en : build_env) :
    result string BlastRadiusReport :=
  old_authorizer ← build_authorizer old eo;
  new_authorizer ← build_authorizer new en;
  replay old_authorizer new_authorizer report_default corpus.
End blast.

(** [Display] *)
Definition report_display (r : BlastRadiusReport) : string :=
  ln "blast-radius report:" +:+ ln ("  unchanged:    " +:+ pretty (unchanged r))
  +:+ ln ("  allow→deny:   " +:+ pretty (allow_to_deny r) +:+ " (DANGEROUS)")
  +:+ ln ("  deny→allow:   " +:+ pretty (deny_to_allow r))
  +:+ (if 0 <? other r then ln ("  other:        " +:+ pretty (other r)) else "")
  +:+ (if has_allow_to_deny r then ln "  WARNING: at least one allow→deny flip detected" else "").

(** ** The registry is a map by tenant and version *)

Section btree.
Context {A : Type}.
Implicit Types m : list (Z * A).

Definition ascending m : Prop := StronglySorted Z.lt m.*1.

Lemma btree_insert_keys k x m v : v ∈ (btree_insert k x m).*1 ↔ v = k ∨ v ∈ m.*1.
Proof.
  induction m as [|[j y] m IH]; simpl; [set_solver|].
  destruct (Z.ltb_spec k j); [set_solver|]. destruct (Z.eqb_spec j k); [subst; set_solver|].
  simpl. rewrite !elem_of_cons, IH. naive_solver.
Qed.

Lemma btree_insert_ascending k x m : ascending m → ascending (btree_insert k x m).
Proof.
  unfold ascending. induction m as [|[j y] m IH]; simpl; intros Hs; [by repeat constructor|].
  inversion Hs as [|? ? Hm Hj]; subst. destruct (Z.ltb_spec k j) as [Hkj|Hkj].
  { simpl. constructor; [done|]. constructor; [done|]. eapply Forall_impl; [exact Hj|]. simpl. lia. }
  destruct (Z.eqb_spec j k) as [->|Hne]; simpl; constructor; auto.
  apply Forall_forall. intros v Hv. apply btree_insert_keys in Hv as [->|Hv]; [lia|].
  rewrite Forall_forall in Hj. auto.
Qed.

Lemma btree_get_below k m : Forall (Z.lt k) m.*1 → btree_get k m = None.
Proof.
  induction m as [|[j y] m IH]; simpl; [done|]. intros [Hj Hm]%Forall_cons.
  destruct (Z.eqb_spec j k); [lia|]. auto.
Qed.

Lemma btree_get_insert k x m v :
  ascending m → btree_get v (btree_insert k x m) = if v =? k then Some x else btree_get v m.
Proof.
  unfold ascending. induction m as [|[j y] m IH]; simpl; intros Hs.
  { rewrite Z.eqb_sym. done. }
  inversion Hs as [|? ? Hm Hj]; subst. destruct (Z.ltb_spec k j) as [Hkj|Hkj].
  { simpl. rewrite (Z.eqb_sym k v). done. }
  destruct (Z.eqb_spec j k) as [->|Hne]; simpl.
  { rewrite (Z.eqb_sym k v). destruct (Z.eqb_spec v k); done. }
  rewrite IH by done. destruct (Z.eqb_spec j v), (Z.eqb_spec v k); try done. lia.
Qed.

Lemma btree_insert_length k x m :
  ascending m →
  length (btree_insert k x m) = (length m + match btree_get k m with None => 1 | Some _ => 0 end)%nat.
Proof.
  unfold ascending. induction m as [|[j y] m IH]; simpl; intros Hs; [done|].
  inversion Hs as [|? ? Hm Hj]; subst. destruct (Z.ltb_spec k j) as [Hkj|Hkj].
  - destruct (Z.eqb_spec j k); [lia|]. rewrite btree_get_below; [simpl; lia|].
    eapply Forall_impl; [exact Hj|]. simpl. lia.
  - destruct (Z.eqb_spec j k) as [->|Hne]; simpl; [lia|].
    rewrite IH by done. lia.
Qed.

Lemma btree_get_elem m v x : ascending m → btree_get v m = Some x ↔ (v, x) ∈ m.
Proof.
  unfold ascending. induction m as [|[j y] m IH]; simpl; intros Hs; [set_solver|].
  inversion Hs as [|? ? Hm Hj]; subst. rewrite elem_of_cons.
  destruct (Z.eqb_spec j v) as [->|Hne].
  - split; [intros [= ->]; by left|]. intros [[= ->]|Hin]; [done|].
    rewrite Forall_forall in Hj. apply (list_elem_of_fmap_2 fst) in Hin. specialize (Hj _ Hin). simpl in Hj. lia.
  - rewrite IH by done. naive_solver.
Qed.
End btree.

Definition spec_insert (m : gmap (string * Z) PolicyBundle) (b : PolicyBundle) :=
  <[(b_tenant b, b_version b) := b]> m.

(** The abstraction: one map for all tenants. *)
Record registry_spec (r : BundleRegistry) (m : gmap (string * Z) PolicyBundle) : Prop := {
  rs_ascending : ∀ t, ascending (versions r t);
  rs_lookup : ∀ t v, btree_get v (versions r t) = m !! (t, v);
  rs_total : total r = size m;
}.

Lemma versions_register r b t :
  versions (register r b) t =
  if decide (t = b_tenant b) then btree_insert (b_version b) b (versions r t) else versions r t.
Proof.
  unfold versions, register. case_decide as Ht; subst; [by rewrite lookup_insert_eq|by rewrite lookup_insert_ne].
Qed.

Lemma total_insert r t m :
  (total (<[t := m]> r) + length (versions r t) = total r + length m)%nat.
Proof.
  unfold total, versions. destruct (r !! t) as [m0|] eqn:Ht; simpl.
  - rewrite <-(insert_delete_id r t m0 Ht) at 2. rewrite <-insert_delete_eq.
    rewrite !map_fold_insert_L; try apply lookup_delete_eq; try (intros; lia).
  - rewrite map_fold_insert_L; [lia|intros; lia|done].
Qed.

Lemma register_spec r m b : registry_spec r m → registry_spec (register r b) (spec_insert m b).
Proof.
  intros [Ha Hl Ht]. unfold spec_insert. split.
  - intros t. rewrite versions_register. case_decide; [|done]. by apply btree_insert_ascending.
  - intros t v. rewrite versions_register. case_decide as Hd.
    + subst. rewrite btree_get_insert by done. destruct (Z.eqb_spec v (b_version b)) as [->|Hne].
      * by rewrite lookup_insert_eq.
      * by rewrite lookup_insert_ne, Hl by congruence.
    + by rewrite lookup_insert_ne, Hl by congruence.
  - pose proof (total_insert r (b_tenant b)
      (btree_insert (b_version b) b (versions r (b_tenant b)))) as Htot.
    change (<[b_tenant b := _]> r) with (register r b) in Htot.
    rewrite btree_insert_length, Hl in Htot by done.
    destruct (m !! (b_tenant b, b_version b)) as [b0|] eqn:Hm.
    + rewrite map_size_insert_Some; [lia|eauto].
    + rewrite map_size_insert_None by done. lia.
Qed.

Lemma registered_spec bs :
  registry_spec (fold_left register bs registry_empty) (fold_left spec_insert bs ∅).
Proof.
  assert (H0 : registry_spec registry_empty ∅).
  { split; [intros t; apply SSorted_nil|intros t v; by rewrite lookup_empty|done]. }
  revert H0. generalize registry_empty as r, (∅ : gmap (string * Z) PolicyBundle) as m.
  induction bs as [|b bs IH]; intros r m Hr; simpl; [done|]. by apply IH, register_spec.
Qed.

Lemma spec_own bs t v b :
  (fold_left spec_insert bs ∅ : gmap (string * Z) PolicyBundle) !! (t, v) = Some b →
  b_tenant b = t ∧ b_version b = v.
Proof.
  induction bs as [|b0 bs IH] using rev_ind; [done|]. rewrite fold_left_app. simpl. unfold spec_insert at 1.
  intros [[[= <- <-] <-]|[_ Hb]]%lookup_insert_Some; [done|]. auto.
Qed.

Lemma ascending_last {A} (m : list (Z * A)) v x k y :
  ascending m → last m = Some (v, x) → (k, y) ∈ m → k ≤ v.
Proof.
  intros Ha Hlast Hin. destruct m as [|z m _] using rev_ind; [done|].
  rewrite last_snoc in Hlast. injection Hlast as ->. unfold ascending in Ha. rewrite fmap_app in Ha.
  apply elem_of_app in Hin as [Hin|Hin%list_elem_of_singleton]; [|by injection Hin as -> _].
  apply (list_elem_of_fmap_2 fst) in Hin. simpl in *. clear -Ha Hin.
  induction (m.*1) as [|j l IH]; [set_solver|]. simpl in Ha. inversion Ha as [|? ? Hl Hj]; subst.
  apply elem_of_cons in Hin as [->|Hin]; [|auto]. rewrite Forall_forall in Hj.
  assert (j < v); [|lia]. apply Hj. apply elem_of_app. right. apply list_elem_of_here.
Qed.

(** The bundle registry is a map from tenant and version to the bundle registered there
    last: [at] reads that map, [list] gives a tenant's bundles by ascending version and
    nothing of another tenant, [latest] the one of the highest version (not the one
    registered last), and [total] counts all of them. *)
Theorem registry_is_map bs t :
  let r := fold_left register bs registry_empty in
  let m := fold_left spec_insert bs ∅ in
  (∀ v, at_version r t v = m !! (t, v)) ∧
  StronglySorted Z.lt (b_version <$> list_bundles r t) ∧
  (∀ b, b ∈ list_bundles r t ↔ m !! (t, b_version b) = Some b) ∧
  match latest r t with
  | Some b => m !! (t, b_version b) = Some b ∧ ∀ v b', m !! (t, v) = Some b' → v ≤ b_version b
  | None => ∀ v, m !! (t, v) = None
  end ∧
  total r = size m.
Proof.
  intros r m. destruct (registered_spec bs) as [Ha Hl Ht]. fold r in Ha, Hl, Ht. fold m in Hl, Ht.
  specialize (Ha t). assert (Hown : ∀ v b, (v, b) ∈ versions r t → b_version b = v).
  { intros v b Hin. apply btree_get_elem in Hin; [|done]. rewrite Hl in Hin.
    by destruct (spec_own bs t v b Hin). }
  split_and!; [apply Hl| | | |done].
  - unfold list_bundles. rewrite <-list_fmap_compose.
    replace ((b_version ∘ snd) <$> versions r t) with ((versions r t).*1); [done|].
    apply list_fmap_ext. intros i [v b] Hi. simpl. symmetry. apply Hown.
    by apply list_elem_of_lookup_2 in Hi.
  - intros b. rewrite <-Hl, btree_get_elem by done. unfold list_bundles. rewrite list_elem_of_fmap. split.
    + intros ([v b'] & -> & Hin). simpl. by rewrite (Hown v b' Hin).
    + intros Hin. by exists (b_version b, b).
  - unfold latest. destruct (last (versions r t)) as [[v b]|] eqn:Hlast; simpl.
    + assert (Hin : (v, b) ∈ versions r t).
      { apply last_Some in Hlast as [l' ->]. apply elem_of_app. right. apply list_elem_of_here. }
      rewrite (Hown v b Hin). split; [by rewrite <-Hl, btree_get_elem|]. intros v' b' Hb'.
      rewrite <-Hl in Hb'. apply btree_get_elem in Hb'; [|done]. by eapply ascending_last.
    + apply last_None in Hlast. intros v. by rewrite <-Hl, Hlast.
Qed.

(** ** What a diff says *)

Section diffs.
Context `{TextDiffLaws}.

Lemma join_empty_nonempty (l : list string) : Forall (.≠ "") l → join "" l = "" → l = [].
Proof.
  destruct l as [|x [|y l]]; [done|intros [Hx _]%Forall_cons; done|].
  intros [Hx _]%Forall_cons Hj. by destruct x.
Qed.

Lemma omap_nonempty (keep : ChangeTag → bool) (l : list (ChangeTag * string)) :
  Forall (λ c, c.2 ≠ "") l →
  Forall (.≠ "") (omap (λ c, if keep c.1 then Some c.2 else None) l).
Proof.
  induction 1 as [|[t s] l Hs _ IH]; simpl in *; [constructor|]. destruct (keep t); [by constructor|done].
Qed.

Lemma line_diff_empty old new :
  line_diff old new = "" ↔ default "" old = "" ∧ default "" new = "".
Proof.
  unfold line_diff. set (o := default "" old). set (n := default "" new).
  pose proof (diff_old o n) as Ho. pose proof (diff_new o n) as Hn. pose proof (diff_lines o n) as Hl.
  split.
  - intros Hd. destruct (from_lines o n) as [|[[] s] l]; [by rewrite <-Ho, <-Hn| | |];
      exfalso; by destruct l.
  - intros [Heo Hen].
    assert (He1 : omap (λ c, if match c.1 with TagInsert => false | _ => true end then Some c.2 else None)
                    (from_lines o n) = []).
    { apply join_empty_nonempty; [by apply (omap_nonempty (λ t, match t with TagInsert => false | _ => true end))|].
      etransitivity; [|exact (eq_trans Ho Heo)]. f_equal. apply list_omap_ext, Forall_Forall2_diag, Forall_true. by intros [[] ?]. }
    assert (He2 : omap (λ c, if match c.1 with TagDelete => false | _ => true end then Some c.2 else None)
                    (from_lines o n) = []).
    { apply join_empty_nonempty; [by apply (omap_nonempty (λ t, match t with TagDelete => false | _ => true end))|].
      etransitivity; [|exact (eq_trans Hn Hen)]. f_equal. apply list_omap_ext, Forall_Forall2_diag, Forall_true. by intros [[] ?]. }
    by destruct (from_lines o n) as [|[[] s] l].
Qed.

Lemma diff_elem old new old_keys new_entries id d :
  old_keys ≡ₚ (map_to_list (sources_of old)).*1 → new_entries ≡ₚ map_to_list (sources_of new) →
  (id, d) ∈ diff_bundles old new old_keys new_entries ↔
  match sources_of new !! id with
  | None => is_Some (sources_of old !! id) ∧ d = line_diff (Some "") (Some "")
  | Some n => sources_of old !! id ≠ Some n ∧ d = line_diff (sources_of old !! id) (Some n)
  end.
Proof.
  intros Hk He. unfold diff_bundles. rewrite elem_of_app, list_elem_of_fmap, list_elem_of_omap.
  assert (Hkeys : ∀ i, i ∈ old_keys ↔ is_Some (sources_of old !! i)).
  { intros i. rewrite Hk, list_elem_of_fmap. split.
    - intros ([? s] & -> & Hin). apply elem_of_map_to_list in Hin. eauto.
    - intros [s Hs]. exists (i, s). split; [done|]. by apply elem_of_map_to_list. }
  assert (Hent : ∀ i s, (i, s) ∈ new_entries ↔ sources_of new !! i = Some s).
  { intros i s. by rewrite He, elem_of_map_to_list. }
  split.
  - intros [(i & [= -> ->] & Hin)|([i s] & Hin & Hc)].
    + apply list_elem_of_In, filter_In in Hin as [Hin Hn]. apply bool_decide_eq_true in Hn. rewrite Hn.
      split; [|done]. by apply Hkeys, list_elem_of_In.
    + apply Hent in Hin. case_bool_decide as Hne; [|done]. injection Hc as -> <-. by rewrite Hin.
  - destruct (sources_of new !! id) as [n|] eqn:Hn.
    + intros [Hne ->]. right. exists (id, n). split; [by apply Hent|]. by rewrite bool_decide_eq_true_2.
    + intros [Hold ->]. left. exists id. split; [done|]. apply list_elem_of_In, filter_In.
      split; [by apply list_elem_of_In, Hkeys|by apply bool_decide_eq_true].
Qed.

(** The diff of two bundles lists a policy exactly when its source differs, was added or
    was removed.  But a removed policy is listed with an empty text, which is what the
    documentation gives to identical policies; a policy whose source changed never has one. *)
Theorem diff_lists_changes old new old_keys new_entries id :
  old_keys ≡ₚ (map_to_list (sources_of old)).*1 → new_entries ≡ₚ map_to_list (sources_of new) →
  let d := diff_bundles old new old_keys new_entries in
  (id ∈ d.*1 ↔ sources_of old !! id ≠ sources_of new !! id) ∧
  (is_Some (sources_of old !! id) → sources_of new !! id = None → (id, "") ∈ d) ∧
  (∀ s n text, sources_of old !! id = Some s → sources_of new !! id = Some n →
     (id, text) ∈ d → text ≠ "").
Proof.
  intros Hk He d. pose proof (λ t, diff_elem old new old_keys new_entries id t Hk He) as Helem. fold d in Helem.
  split_and!.
  - rewrite list_elem_of_fmap. split.
    + intros ([i t] & -> & Hin). apply Helem in Hin. simpl in *.
      destruct (sources_of new !! i); [by destruct Hin|]. destruct Hin as [[s Hs] _]. by rewrite Hs.
    + intros Hne. setoid_rewrite <-(and_comm (_ ∈ d)). 
      destruct (sources_of new !! id) as [n|] eqn:Hn.
      * eexists (id, _). split; [by apply Helem|done].
      * eexists (id, _). split; [|done]. apply Helem. split; [|done]. by apply not_eq_None_Some.
  - intros Hs Hn. apply Helem. rewrite Hn. split; [done|]. symmetry. by apply line_diff_empty.
  - intros s n text Hs Hn Hin Htext. apply Helem in Hin. rewrite Hs, Hn in Hin. destruct Hin as [Hne ->].
    apply line_diff_empty in Htext as [Hs' Hn']. simpl in *. by subst.
Qed.
End diffs.

(** ** What a blast-radius report says *)

Section blasts.
Context `{CedarStore, !CedarBuild, !JsonText, !JsonScalars, !Hex, !Sha256}.
Context `{!Lru bytes (CachedDecision * Z)}.

(** The effect of a request under an authorizer, without a cache. *)
Definition decides (a : Authorizer) (req : ReplayRequest) (e : Effect) : Prop :=
  ∃ ents pols errs, build_entities (rp_entities req) = Ok ents ∧
    evaluate_request a (rp_request req) ents = Ok (e, pols, errs).

Definition flips (old new : Effect) (p : ReplayRequest * (Effect * Effect)) : bool :=
  match old, new, p.2 with
  | Allow, Deny, (Allow, Deny) | Deny, Allow, (Deny, Allow) => true
  | _, _, _ => false
  end.
Definition flipped (old new : Effect) (l : list (ReplayRequest * (Effect * Effect))) : list ReplayRequest :=
  fst <$> List.filter (flips old new) l.
Definition same_effect (p : ReplayRequest * (Effect * Effect)) : bool := bool_decide (p.2.1 = p.2.2).

(** The report on requests whose effects are known. *)
Definition report_of (l : list (ReplayRequest * (Effect * Effect))) : BlastRadiusReport :=
  mkBlastReport (Z.of_nat (length (List.filter same_effect l)))
    (Z.of_nat (length (flipped Allow Deny l))) (Z.of_nat (length (flipped Deny Allow l))) 0
    (take SAMPLE_CAP (flipped Allow Deny l)) (take SAMPLE_CAP (flipped Deny Allow l)).

Lemma sample_take l x : keep_sample (take SAMPLE_CAP l) x = take SAMPLE_CAP (l ++ [x]).
Proof.
  unfold keep_sample. rewrite length_take. destruct (Nat.ltb_spec (SAMPLE_CAP `min` length l) SAMPLE_CAP).
  - rewrite !take_ge; [done|rewrite length_app; simpl; lia|lia].
  - rewrite take_app_le by lia. done.
Qed.

Lemma report_snoc l req eo en :
  count_change (report_of l) req (classify eo en) = report_of (l ++ [(req, (eo, en))]).
Proof.
  unfold report_of, flipped. rewrite !List.filter_app, !fmap_app, !length_app, !length_fmap.
  destruct eo, en; cbn [classify count_change List.filter flips same_effect app fst snd fmap list_fmap length];
    rewrite ?app_nil_r, ?sample_take; f_equal; first [lia|by rewrite ?fmap_nil, ?app_nil_r|vm_compute (same_effect _); cbn [length]; lia].
Qed.

Lemma authorize_uncached (a : Authorizer) req ents now now' :
  cache a = None →
  authorize a req ents now now' =
  (match evaluate_request a req ents with
   | Err e => Err e
   | Ok (e, pols, errs) =>
       Ok (mkDecision e pols errs (request_to_value req) (Some (build_trace e pols errs)) false)
   end, a).
Proof.
  intros Hc. unfold authorize, lookup_cached, fill_cache. rewrite Hc. cbv beta iota.
  destruct (evaluate_request a req ents) as [[[e pols] errs]|]; [by rewrite Hc|done].
Qed.

Lemma replay_spec (old new : Authorizer) corpus l report :
  cache old = None → cache new = None →
  replay old new (report_of l) corpus = Ok report →
  ∃ effects, report = report_of (l ++ zip corpus effects) ∧
    Forall2 (λ req es, decides old req es.1 ∧ decides new req es.2) corpus effects.
Proof.
  intros Ho Hn. revert l. induction corpus as [|req corpus IH]; intros l; cbn [replay].
  { intros [= <-]. exists []. by rewrite app_nil_r. }
  intros (ents & Hents & Hrest)%bind_Ok. apply map_err_Ok in Hents.
  rewrite authorize_uncached in Hrest by done. apply bind_Ok in Hrest as (d & Hd & Hrest).
  rewrite authorize_uncached in Hrest by done. apply bind_Ok in Hrest as (d' & Hd' & Hrest).
  apply map_err_Ok in Hd, Hd'.
  destruct (evaluate_request old _ ents) as [[[eo po] ro]|] eqn:Heo; [|done].
  destruct (evaluate_request new _ ents) as [[[en pn] rn]|] eqn:Hen; [|done].
  injection Hd as <-. injection Hd' as <-. cbn [effect] in Hrest. rewrite report_snoc in Hrest.
  apply IH in Hrest as (effects & -> & Hall). exists ((eo, en) :: effects).
  split; [by rewrite <-app_assoc|]. constructor; [|done]. split; by eexists _, _, _.
Qed.

Lemma authorizer_new_uncached t io utf8 s walk a :
  authorizer_new t io utf8 s walk = Ok a → cache a = None.
Proof.
  unfold authorizer_new. intros ([ps srcs] & _ & (sch & _ & [= <-])%bind_Ok)%bind_Ok. done.
Qed.

Lemma build_authorizer_uncached b e a : build_authorizer b e = Ok a → cache a = None.
Proof.
  unfold build_authorizer. intros Hb. res_inv. by eapply authorizer_new_uncached.
Qed.

Lemma counts_cover l :
  (length (List.filter same_effect l) + length (flipped Allow Deny l) + length (flipped Deny Allow l)
   = length l)%nat.
Proof.
  unfold flipped. rewrite !length_fmap. induction l as [|[r [[] []]] l IH]; simpl; lia.
Qed.

(** C37: a blast-radius report is exact: when the analysis returns, every request of the
    corpus was decided by Cedar under both bundles, and the report counts the flips of each
    direction and the unchanged ones, samples the first ten of each flip in corpus order,
    and accounts for the whole corpus; a flip from allow to deny is never missed. *)
Theorem blast_radius_exact old new corpus eo en report :
  analyze old new corpus eo en = Ok report →
  ∃ a a' effects, build_authorizer old eo = Ok a ∧ build_authorizer new en = Ok a' ∧
    Forall2 (λ req es, decides a req es.1 ∧ decides a' req es.2) corpus effects ∧
    report = report_of (zip corpus effects) ∧
    report_total report = Z.of_nat (length corpus) ∧
    (has_allow_to_deny report = true ↔ ∃ req, (req, (Allow, Deny)) ∈ zip corpus effects).
Proof.
  unfold analyze. intros (a & Ha & (a' & Ha' & Hr)%bind_Ok)%bind_Ok.
  apply (replay_spec a a' corpus []) in Hr as (effects & -> & Hall);
    [|by eapply build_authorizer_uncached..].
  exists a, a', effects. cbn [app]. split_and!; try done.
  - pose proof (counts_cover (zip corpus effects)) as Hcov. unfold report_total. cbn.
    apply Forall2_length in Hall. rewrite length_zip in Hcov. lia.
  - unfold has_allow_to_deny. cbn. rewrite Z.ltb_lt. unfold flipped. rewrite length_fmap. split.
    + destruct (List.filter _ _) as [|[req [eo' en']] l] eqn:Hf; [simpl; lia|]. intros _. exists req.
      assert (Hin : In (req, (eo', en')) (List.filter (flips Allow Deny) (zip corpus effects)))
        by (rewrite Hf; by left).
      apply filter_In in Hin as [Hin Hfl]. destruct eo', en'; try done. by apply list_elem_of_In.
    + intros [req Hin]. apply list_elem_of_In in Hin.
      assert (Hf : In (req, (Allow, Deny)) (List.filter (flips Allow Deny) (zip corpus effects)))
        by (by apply filter_In).
      destruct (List.filter _ _); [done|simpl; lia].
Qed.
End blasts.
