(* ===== verification/Oidc.v ===== *)
(** * OIDC discovery and SPIFFE identities ([agentguard-auth/src/oidc.rs], [spiffe.rs])

    The bounded retry of discovery, the pin on the issuer and the validator it sets up; the
    check of a SPIFFE id and of an SVID's window.  The HTTP exchanges, the Workload API, the
    X.509 parser and the clock are arguments. *)

From S2P Require Import Prelude Json Crypto AuthError AuthKeys Replay Dpop Text Jwt.

(** ** OIDC *)

Record OidcConfig : Type := mkOidcConfig {
  oidc_issuer : string;
  oidc_audience : string;
  oidc_algorithms : list Algorithm;
}.
Definition oidc_config_new (issuer audience : string) : OidcConfig :=
  mkOidcConfig issuer audience [EdDSA; RS256].

Record OidcMetadata : Type := mkOidcMetadata {
  meta_issuer : string;
  meta_jwks_uri : string;
  authorization_endpoint : option string;
  token_endpoint : option string;
  introspection_endpoint : option string;
}.

(** An attempt: a response (successful, a server error or another status, with its text) and
    its body, or an error (a timeout or failed connect, or another). *)
Inductive attempt_result : Type :=
| Success (body : result string string)
| ServerError (status : string)
| OtherStatus (status : string)
| Transient (e : string)
| Failed (e : string).

Definition trim_end_slashes (s : string) : string := str_rev (trim_start_matches "/" (str_rev s)).

(** The loop; [attempt] counts the requests sent so far.  The outcome comes with the number of
    requests sent; [None] is running out of fuel, which is not what ends the loop. *)
Fixpoint discovery_loop (responses : nat → attempt_result) (fuel attempt : nat) :
    option (aresult (result string string) * nat) :=
  match fuel with
  | O => None
  | S fuel =>
      let attempt := S attempt in
      let retry (e : AuthError) :=
        if (attempt <? 3)%nat then discovery_loop responses fuel attempt else Some (Err e, attempt) in
      match responses attempt with
      | Success body => Some (Ok body, attempt)
      | ServerError status =>
          retry (OidcDiscovery ("HTTP " +:+ status +:+ " after " +:+ pretty (Z.of_nat attempt) +:+ " attempt(s)"))
      | OtherStatus status =>
          Some (Err (OidcDiscovery ("HTTP " +:+ status +:+ " after " +:+ pretty (Z.of_nat attempt)
                                    +:+ " attempt(s)")), attempt)
      | Transient e => retry (OidcDiscovery e)
      | Failed e => Some (Err (OidcDiscovery e), attempt)
      end
  end.

(** What a discovery meets. *)
Record oidc_exchange : Type := mkOidcExchange {
  ox_client : result string unit;
  (** the answers of the server at a URL, by attempt *)
  ox_responses : string → nat → attempt_result;
  ox_parse : string → result string OidcMetadata;
  (** the exchange with the JWKS URI *)
  ox_jwks : string → jwks_exchange;
}.

Section oidc.
Context `{Base64, JsonText, Ed25519Ops, Sha256, JwtText}.

Definition discovery_url (c : OidcConfig) : string :=
  trim_end_slashes (oidc_issuer c) +:+ "/.well-known/openid-configuration".

Definition oidc_jwt_config (c : OidcConfig) (meta : OidcMetadata) : JwtConfig :=
  let cfg := with_jwks_uri
               (with_algorithms_lossy (jwt_config_new (oidc_issuer c) (oidc_audience c)) (oidc_algorithms c))
               (meta_jwks_uri meta) in
  mkJwtConfig (issuer cfg) (audience cfg) (algorithms cfg) (jwks_uri cfg) (jwks_refresh cfg) (secs 60).

(** What is made of the answer to the discovery request. *)
Definition discovered_by (c : OidcConfig) (x : oidc_exchange) (text : aresult (result string string)) :
    aresult (JwtValidator * OidcMetadata) :=
  text ← text;
  body ← map_err OidcDiscovery text;
  _ ← bail_if (1048576 <? len body) (OidcDiscovery "discovery document exceeds 1 MiB");
  meta ← map_err (λ e, OidcDiscovery ("parse: " +:+ e)) (ox_parse x body);
  _ ← bail_if (bool_decide (meta_issuer meta ≠ oidc_issuer c))
        (OidcDiscovery ("issuer mismatch: configured=" +:+ oidc_issuer c +:+ " discovered="
                        +:+ meta_issuer meta));
  let validator := validator_new (oidc_jwt_config c meta) in
  let '(r, validator) := refresh_jwks validator (ox_jwks x (meta_jwks_uri meta)) in
  _ ← r;
  Ok (validator, meta).

(** The outcome and the number of discovery requests sent. *)
Definition discover (fuel : nat) (c : OidcConfig) (x : oidc_exchange) :
    option (aresult (JwtValidator * OidcMetadata) * nat) :=
  match ox_client x with
  | Err e => Some (Err (OidcDiscovery ("client build: " +:+ e)), O)
  | Ok _ => prod_map (discovered_by c x) id <$> discovery_loop (ox_responses x (discovery_url c)) fuel 0
  end.
End oidc.

(** ** SPIFFE *)

(** The skew in milliseconds. *)
Record SpiffeValidator : Type := mkSpiffe {
  allowed_trust_domains : list string;
  spiffe_clock_skew : Z;
  workload_endpoint : string;
}.
Definition spiffe_new (domain : string) : SpiffeValidator :=
  mkSpiffe [domain] 60000 "unix:///run/spire/sockets/agent.sock".
Definition allow_trust_domain (v : SpiffeValidator) (domain : string) : SpiffeValidator :=
  mkSpiffe (allowed_trust_domains v ++ [domain]) (spiffe_clock_skew v) (workload_endpoint v).

Definition validate_spiffe_id (v : SpiffeValidator) (id : string) : aresult unit :=
  rest ← ok_or (strip_prefix "spiffe://" id)
           (SpiffeFetch ("invalid SPIFFE ID (missing scheme): " +:+ id));
  let domain := default "" (head (split "/"%char rest)) in
  bail_if (negb (bool_decide (domain ∈ allowed_trust_domains v)))
    (SpiffeFetch ("trust domain " +:+ domain +:+ " not in allowlist")).

(** An SVID of the Workload API: its id, and the window of its leaf certificate in unix
    seconds, where the parser and [chrono] can represent them. *)
Record svid : Type := mkSvid {
  svid_id : string;
  svid_parse : result string unit;
  svid_not_after : option Z;
  svid_not_before : option Z;
}.

(** [chrono::Duration::from_std(..).unwrap_or(0)] *)
Definition chrono_skew (v : SpiffeValidator) : Z :=
  if spiffe_clock_skew v <=? i64_max then spiffe_clock_skew v else 0.

(** [fetched]: [None] is the timeout, an error that of connecting or fetching (with its
    prefix); [rfc3339] prints a time; the clock is in milliseconds. *)
Definition fetch_svid (v : SpiffeValidator) (fetched : option (result string svid))
    (rfc3339 : Z → string) (now_ms : Z) : aresult string :=
  let skew_ms := chrono_skew v in
  r ← ok_or fetched (SpiffeFetch ("timed out fetching SVID from SPIFFE Workload API at "
                                  +:+ workload_endpoint v));
  s ← map_err SpiffeFetch r;
  _ ← map_err (λ e, SpiffeFetch ("parse SVID certificate: " +:+ e)) (svid_parse s);
  not_after ← ok_or (svid_not_after s) (SpiffeFetch "invalid SVID not-after timestamp");
  _ ← bail_if (not_after * 1000 + skew_ms <? now_ms)
        (SpiffeFetch ("SVID expired at " +:+ rfc3339 not_after));
  not_before ← ok_or (svid_not_before s) (SpiffeFetch "invalid SVID not-before timestamp");
  _ ← bail_if (now_ms + skew_ms <? not_before * 1000)
        (SpiffeFetch ("SVID not valid until " +:+ rfc3339 not_before));
  _ ← validate_spiffe_id v (svid_id s);
  Ok (svid_id s).

(** [fetch_svid] of a build without the [spiffe] feature. *)
Definition fetch_svid_disabled (v : SpiffeValidator) : aresult string :=
  Err (SpiffeFetch "SPIFFE Workload API integration requires the 'spiffe' feature on agentguard-auth").

(** ** Properties *)

(** Whether an attempt is followed by another. *)
Definition transient (r : attempt_result) : Prop :=
  match r with ServerError _ | Transient _ => True | _ => False end.

(** The loop ends after at most three requests, and asks again exactly after a transient
    failure of the first two. *)
Lemma discovery_loop_ends responses fuel :
  (3 ≤ fuel)%nat → ∃ r n, discovery_loop responses fuel 0 = Some (r, n) ∧ (1 ≤ n ≤ 3)%nat ∧
    (∀ m, (1 ≤ m < n)%nat → transient (responses m)) ∧ ((n < 3)%nat → ¬ transient (responses n)) ∧
    ∀ body, r = Ok body → responses n = Success body.
Proof.
  destruct fuel as [|[|[|fuel]]]; try lia. intros _. cbn [discovery_loop].
  assert (H1' : ∀ m, (1 ≤ m < 2)%nat → m = 1%nat) by lia.
  assert (H2' : ∀ m, (1 ≤ m < 3)%nat → m = 1%nat ∨ m = 2%nat) by lia.
  destruct (responses 1%nat) eqn:E1;
    try (eexists _, 1%nat; split_and!;
      [reflexivity|lia|lia|intros m Hm; lia|rewrite E1; by intros _ []|intros ? Hb; by simplify_eq]);
    (destruct (responses 2%nat) eqn:E2;
      try (eexists _, 2%nat; split_and!;
        [reflexivity|lia|lia|intros m ->%H1'; by rewrite E1|rewrite E2; by intros _ []|intros ? Hb; by simplify_eq]);
      (destruct (responses 3%nat) eqn:E3; (eexists _, 3%nat; split_and!;
        [reflexivity|lia|lia|intros m [->| ->]%H2'; by rewrite ?E1, ?E2|lia|intros ? Hb; by simplify_eq]))).
Qed.

Lemma lossy_only_eddsa c algs : algorithms (with_algorithms_lossy c algs) ⊆ [EdDSA].
Proof.
  unfold with_algorithms_lossy. destruct (filter _ algs) as [|a l] eqn:Hf; [done|].
  cbn [set_algorithms algorithms]. intros x Hx. rewrite <-Hf in Hx.
  by apply list_elem_of_filter in Hx as [Hx _].
Qed.

Lemma lossy_keeps c algs :
  issuer (with_algorithms_lossy c algs) = issuer c ∧ audience (with_algorithms_lossy c algs) = audience c.
Proof. unfold with_algorithms_lossy. by destruct (filter _ algs). Qed.

Section discovery.
Context `{Base64, JsonText, Ed25519Ops, Sha256, JwtText}.

(** What a successful discovery has established. *)
Record pinned (c : OidcConfig) (x : oidc_exchange) (body : string) (v : JwtValidator) (meta : OidcMetadata) :
    Prop := {
  pi_document : len body ≤ 1048576 ∧ ox_parse x body = Ok meta;
  pi_issuer : meta_issuer meta = oidc_issuer c ∧ issuer (jwt_config v) = oidc_issuer c;
  pi_audience : audience (jwt_config v) = oidc_audience c;
  pi_algorithms : algorithms (jwt_config v) ⊆ [EdDSA];
  pi_uri : jwks_uri (jwt_config v) = Some (meta_jwks_uri meta);
  (** the keys are those of the body that the JWKS URI answered with *)
  pi_keys : ∃ status text keys,
    x_send (ox_jwks x (meta_jwks_uri meta)) = Ok (true, status, Ok text) ∧ len text ≤ 1048576 ∧
    x_parse (ox_jwks x (meta_jwks_uri meta)) text = Ok keys ∧ (length keys ≤ 64)%nat ∧
    jwt_keys v = register_jwks registry_new keys;
}.

Lemma discovered_pins c x text v meta :
  discovered_by c x text = Ok (v, meta) → ∃ body, text = Ok (Ok body) ∧ pinned c x body v meta.
Proof.
  unfold discovered_by. intros Hd. apply bind_Ok in Hd as (t & -> & Hd).
  apply bind_Ok in Hd as (body & Hb & (u1 & Hsz & (meta' & Hp & (u2 & Hiss & Hd)%bind_Ok)%bind_Ok)%bind_Ok).
  apply map_err_Ok in Hb as ->. apply map_err_Ok in Hp. apply bail_if_Ok in Hsz, Hiss. bool_inv.
  exists body. split; [done|]. unfold refresh_jwks in Hd.
  match type of Hd with context [match ?d with Ok _ => _ | Err _ => _ end] => destruct d as [keys|e] eqn:Hdoc end;
    [|done]. cbn in Hd. injection Hd as <- <-.
  apply bind_Ok in Hdoc as (uri & Huri & (u3 & _ & ([[success status] txt] & Hsend & Hdoc)%bind_Ok)%bind_Ok).
  apply bind_Ok in Hdoc as (u4 & Hsuc & (jb & Hjb & (u5 & Hjl & (ks & Hks & (u6 & Hlen & [= <-])%bind_Ok)%bind_Ok)%bind_Ok)%bind_Ok).
  apply map_err_Ok in Hks, Hsend, Hjb. subst txt. apply bail_if_Ok in Hlen, Hsuc, Hjl. apply negb_false_iff in Hsuc as ->.
  bool_inv. destruct (lossy_keeps (jwt_config_new (oidc_issuer c) (oidc_audience c)) (oidc_algorithms c)) as [Hi Ha].
  split; try done.
  - apply lossy_only_eddsa.
  - exists status, jb, ks. split_and!; [done|lia|done|lia|done].
Qed.

(** C39: OIDC discovery ends and trusts only the configured issuer.  Whatever the server
    answers, at most three requests are sent, and another one exactly after a server error or
    a failure to connect of the first two.  A validator that comes back was made from the body
    of the last answer; it checks for the configured issuer, which is the issuer of the
    document, and audience, allows EdDSA only, whatever algorithms were configured, and has
    exactly the keys of the body that was received from the JWKS URI of the document. *)
Theorem discovery_pins_issuer fuel c x :
  (3 ≤ fuel)%nat →
  ∃ r n, discover fuel c x = Some (r, n) ∧ (n ≤ 3)%nat ∧
    (∀ m, (1 ≤ m < n)%nat → transient (ox_responses x (discovery_url c) m)) ∧
    ((1 ≤ n < 3)%nat → ¬ transient (ox_responses x (discovery_url c) n)) ∧
    ∀ v meta, r = Ok (v, meta) → ∃ body,
      ox_responses x (discovery_url c) n = Success (Ok body) ∧ pinned c x body v meta.
Proof.
  intros Hfuel. unfold discover. destruct (ox_client x) as [[]|e].
  2: { eexists _, O. split_and!; [reflexivity|lia|lia|lia|done]. }
  destruct (discovery_loop_ends (ox_responses x (discovery_url c)) fuel Hfuel)
    as (text & n & -> & Hn & Htr & Hlast & Hbody).
  exists (discovered_by c x text), n. split_and!; [done|lia|done|intros [_ ?]; auto|].
  intros v meta (body & -> & Hpin)%discovered_pins. exists body. split; [by apply Hbody|done].
Qed.
End discovery.

(** A SPIFFE id is accepted exactly when it is [spiffe://] followed by a trust domain of
    the allowlist, alone or with a path; the domain is compared whole, so no prefix or
    suffix of an allowed domain passes. *)
Theorem spiffe_id_iff v id :
  validate_spiffe_id v id = Ok tt ↔
  ∃ domain, domain ∈ allowed_trust_domains v ∧ str_contains "/" domain = false ∧
    (id = "spiffe://" +:+ domain ∨ ∃ path, id = "spiffe://" +:+ domain +:+ "/" +:+ path).
Proof.
  unfold validate_spiffe_id. rewrite bind_Ok. setoid_rewrite ok_or_Ok.
  setoid_rewrite strip_prefix_Some. setoid_rewrite bail_if_Ok. split.
  - intros (rest & -> & Hd). apply negb_false_iff, bool_decide_eq_true in Hd.
    destruct (split "/" rest) as [|d ds] eqn:Hs; [by apply split_nonempty in Hs|]. simpl in Hd.
    pose proof (split_parts "/" rest) as Hparts. rewrite Hs in Hparts. apply Forall_cons in Hparts as [Hdn _].
    exists d. split_and!; [done|done|].
    pose proof (join_split "/" rest) as Hj. rewrite Hs in Hj. destruct ds as [|d2 ds].
    + left. by rewrite <-Hj.
    + right. exists (join "/" (d2 :: ds)). by rewrite <-Hj.
  - intros (d & Hd & Hdn & [->|[path ->]]).
    + exists d. split; [done|]. rewrite split_none by done. simpl. by rewrite bool_decide_eq_true_2.
    + exists (d +:+ "/" +:+ path). split; [done|].
      change (d +:+ "/" +:+ path) with (d +:+ String "/" path). rewrite split_app by done.
      simpl. by rewrite bool_decide_eq_true_2.
Qed.

(** An SVID that is returned is within its window, up to the skew, and of an allowed domain. *)
Lemma fetch_svid_sound v fetched rfc3339 now id :
  fetch_svid v fetched rfc3339 now = Ok id →
  validate_spiffe_id v id = Ok tt ∧
  ∃ s a b, fetched = Some (Ok s) ∧ svid_not_after s = Some a ∧ svid_not_before s = Some b ∧
    now ≤ a * 1000 + chrono_skew v ∧ b * 1000 ≤ now + chrono_skew v.
Proof.
  unfold fetch_svid. cbv zeta. intros Hf. res_inv. subst. bool_inv. split; [done|].
  by eexists _, _, _.
Qed.
