(* ===== verification/CliKeys.v ===== *)
(** * The API-key commands ([agentguard-cli/src/commands/apikey.rs])

    [create], [list] and [revoke] on a key file.  A command returns what it prints, line by
    line, or the chain of an [anyhow] error, outermost first. *)

From S2P Require Import Prelude Json CoreError AuthError Crypto Trace Request DecisionRecord AuditFs ApiKey.

Definition anyhow : Type := list string.
Definition command (A : Type) : Type := world → result anyhow A * world.

Section commands.
Context `{Argon2, Base64, ApiKeyCodec, JsonText}.
(** [serde_json::to_string_pretty] *)
Context (to_string_pretty : Value → string).

Record CreateKeyOptions : Type := mkCreateKeyOptions {
  opt_path : string;
  opt_prefix : string;
  opt_subject_type : string;
  opt_subject_id : string;
  opt_tenant_id : option string;
  opt_scopes : list string;
  opt_ttl_seconds : Z;
}.

(** What [create] draws: the key's uuid, secret and salt, the time, and the uuid of the
    temporary file. *)
Record key_draw : Type := mkKeyDraw {
  kd_uuid : string;
  kd_secret : bytes;
  kd_salt : string;
  kd_now : Z;
  kd_temporary : string;
}.

Definition load_store (path : string) : command ApiKeyStore := λ w,
  let '(r, w) := load_from_file path w in
  (map_err (λ e, ["load API-key store " +:+ path; auth_error_display e]) r, w).

Definition persist_store (st : ApiKeyStore) (path uuid : string) : command unit := λ w,
  let '(r, w) := save_to_file st path uuid w in
  (map_err (λ e, ["persist API-key store " +:+ path; auth_error_display e]) r, w).

Definition check_options (o : CreateKeyOptions) : result anyhow ApiKeyIdentity :=
  _ ← bail_if (opt_ttl_seconds o =? 0) ["--ttl-seconds must be greater than zero"];
  _ ← bail_if (bool_decide (opt_scopes o = []) || existsb is_blank (opt_scopes o))
        ["at least one non-empty --scope is required"];
  map_err (λ e, [auth_error_display e])
    (identity_new (opt_subject_type o) (opt_subject_id o) (opt_tenant_id o)).

(** The key and its secret, once they are persisted. *)
Definition create_key (o : CreateKeyOptions) (d : key_draw) : command (ApiKey * string) := λ w,
  match check_options o with
  | Err e => (Err e, w)
  | Ok identity =>
      match load_store (opt_path o) w with
      | (Err e, w) => (Err e, w)
      | (Ok store, w) =>
          match create_bound store (opt_prefix o) (opt_scopes o) (Some (opt_ttl_seconds o)) identity
                  (kd_uuid d) (kd_secret d) (kd_salt d) (kd_now d) with
          | (Err e, _) => (Err [auth_error_display e], w)
          | (Ok created, store) =>
              match persist_store store (opt_path o) (kd_temporary d) w with
              | (Err e, w) => (Err e, w)
              | (Ok _, w) => (Ok created, w)
              end
          end
      end
  end.

(** ** What is printed *)

Definition identity_value (i : ApiKeyIdentity) : Value :=
  VObject ([("subject_type", VString (subject_type i)); ("subject_id", VString (subject_id i))]
           ++ opt_member "tenant_id" (VString <$> key_tenant i)).

Definition i64_value (z : Z) : Value := VNumber (number_of_i64 z).

Definition created_value (key : ApiKey) (raw_secret : string) : Value :=
  VObject [("id", VString (key_id key)); ("prefix", VString (prefix key));
           ("raw_secret", VString raw_secret); ("scopes", strings (scopes key));
           ("identity", or_null (identity_value <$> identity key));
           ("created_at", i64_value (created_at key)); ("expires_at", or_null (i64_value <$> expires_at key))].

Definition apikey_create (o : CreateKeyOptions) (output : string) (d : key_draw) :
    command (list string) := λ w,
  let '(r, w) := create_key o d w in
  ('(key, raw_secret) ← r;
   Ok (if bool_decide (output = "json") then [to_string_pretty (created_value key raw_secret)]
       else ["API key created; copy the secret now (it will not be shown again):";
             "  id:      " +:+ key_id key;
             "  subject: " +:+ opt_subject_type o +:+ "::" +:+ opt_subject_id o;
             "  scopes:  " +:+ join ", " (scopes key);
             "  secret:  " +:+ raw_secret]), w).

Definition key_metadata (key : ApiKey) : Value :=
  VObject [("id", VString (key_id key)); ("prefix", VString (prefix key));
           ("scopes", strings (scopes key)); ("identity", or_null (identity_value <$> identity key));
           ("created_at", i64_value (created_at key)); ("expires_at", or_null (i64_value <$> expires_at key));
           ("revoked_at", or_null (i64_value <$> revoked_at key))].

(** One line of the listing, from the metadata. *)
Definition metadata_line (key : Value) : string :=
  let text v k := default "" (get_str v k) in
  let scopes := match get key "scopes" with
                | Some (VArray items) => join "," (omap as_str items)
                | _ => ""
                end in
  let identity := match get key "identity" with
                  | Some (VObject m) => text (VObject m) "subject_type" +:+ "::" +:+ text (VObject m) "subject_id"
                  | _ => "unbound (legacy)"
                  end in
  text key "id" +:+ "  " +:+ text key "prefix" +:+ "  scopes=" +:+ scopes +:+ "  identity=" +:+ identity
  +:+ "  status=" +:+ (if bool_decide (default Null (get key "revoked_at") = Null) then "active" else "revoked").

Definition apikey_list_keys (path output : string) : command (list string) := λ w,
  let '(r, w) := load_store path w in
  (store ← r;
   let metadata := key_metadata <$> merge_sort key_le (apikey_list store) in
   Ok (if bool_decide (output = "json") then [to_string_pretty (VArray metadata)]
       else match metadata with
            | [] => ["No API keys in " +:+ path]
            | _ => metadata_line <$> metadata
            end), w).

Definition revoke_key (path id : string) (now : Z) (temporary : string) : command unit := λ w,
  match load_store path w with
  | (Err e, w) => (Err e, w)
  | (Ok store, w) =>
      match apikey_revoke store id now with
      | (Err e, _) => (Err ["revoke API key " +:+ id; auth_error_display e], w)
      | (Ok _, store) => persist_store store path temporary w
      end
  end.

Definition apikey_revoke_cmd (path id output : string) (now : Z) (temporary : string) :
    command (list string) := λ w,
  let '(r, w) := revoke_key path id now temporary w in
  (_ ← r;
   Ok [if bool_decide (output = "json")
       then json_to_vec (VObject [("id", VString id); ("revoked", VBool true)])
       else "Revoked API key " +:+ id], w).
End commands.

(** ** What the commands leave behind *)

Section effects.
Context `{Argon2Laws, Base64Laws, ApiKeyCodecLaws, JsonText}.

Lemma syscall_reads {A} (f : gmap string entry → result IoError A * gmap string entry) w r w' :
  (∀ m, (f m).2 = m) → syscall f w = (r, w') → files w' = files w.
Proof.
  intros Hf [(e & _ & Hw)|Hw]%syscall_inv; [done|]. rewrite <-(Hf (files w)). by rewrite <-Hw.
Qed.

Lemma load_store_inv path w r w' :
  load_store path w = (r, w') → files w' = files w ∧ ∀ store, r = Ok store → store_ok store.
Proof.
  unfold load_store. intros Hl. destruct (load_from_file path w) as [r0 w0] eqn:Hf.
  injection Hl as <- <-. unfold load_from_file in Hf.
  pose proof (service_step_ok _ _ (sv_reload apikey_store_new path w) (map_Forall_empty _)) as Hok.
  assert (Hw : files (read_keys path w).2 = files w).
  { unfold read_keys, fs_exists, fs_stat. rewrite fs_bind_eq. unfold fs_try.
    destruct (syscall _ w) as [r1 w1] eqn:Hr1. apply syscall_reads in Hr1; [|done].
    destruct (is_ok r1); simpl; [|done].
    unfold fs_read_to_string, fs_read. rewrite fs_bind_eq.
    destruct (syscall _ w1) as [[c|e] w2] eqn:Hr2; apply syscall_reads in Hr2; try done;
      [|simpl; congruence]. destruct (utf8_valid c); simpl; congruence. }
  unfold reload_from_file in Hf, Hok. destruct (read_keys path w) as [[keys|e] w1]; simplify_eq/=;
    split; try done. by intros store [= <-].
Qed.

Lemma persist_store_inv st path uuid w r w' :
  store_ok st → persist_store st path uuid w = (r, w') →
  (files w' !! path = files w !! path ∨
   ∃ text, keys_to_string_pretty (saved_keys st) = Ok text ∧ files w' !! path = Some (Regular text)) ∧
  (r = Ok tt → load_from_file path (mkWorld (files w') []) = (Ok st, mkWorld (files w') [])).
Proof.
  intros Hok. unfold persist_store. destruct (save_to_file st path uuid w) as [r0 w0] eqn:Hs.
  intros [= <- <-]. destruct (keys_text_total (saved_keys st)) as [text Htext].
  destruct (save_to_file_inv _ _ _ _ _ _ _ Htext Hs) as [Hp _]. split; [naive_solver|].
  intros Hr. destruct r0 as [[]|e]; [|done]. by eapply saved_reads_back.
Qed.

Lemma create_key_inv o d w key raw w' :
  create_key o d w = (Ok (key, raw), w') →
  ∃ ident store w1 store', check_options o = Ok ident ∧ load_store (opt_path o) w = (Ok store, w1) ∧
    create_bound store (opt_prefix o) (opt_scopes o) (Some (opt_ttl_seconds o)) ident
      (kd_uuid d) (kd_secret d) (kd_salt d) (kd_now d) = (Ok (key, raw), store') ∧
    persist_store store' (opt_path o) (kd_temporary d) w1 = (Ok tt, w').
Proof.
  unfold create_key. destruct (check_options o) as [ident|e] eqn:Hi; [|done].
  destruct (load_store (opt_path o) w) as [[store|e] w1] eqn:Hl; [|done].
  destruct (create_bound store _ _ _ _ _ _ _ _) as [[created|e] store'] eqn:Hc; [|done].
  destruct (persist_store store' _ _ w1) as [[[]|e] w2] eqn:Hp; [|done].
  intros [= -> ->]. by exists ident, store, w1, store'.
Qed.

(** The store with the new key is one that can be saved, and its secret verifies. *)
Lemma bound_key_ok store pre scs ttl ident uuid secret salt now key raw store' :
  store_ok store → bad_name uuid = false → in_i64 now →
  create_bound store pre scs (Some ttl) ident uuid secret salt now = (Ok (key, raw), store') →
  store_ok store' ∧ store' = <[uuid := key]> store ∧
  ∀ t, apikey_verify store' raw t = if now + ttl <=? t then Err ApiKeyExpired else Ok key.
Proof.
  intros Hok Hu Hn Hc. unfold create_bound in Hc.
  destruct (identity_new _ _ _) as [i|e] eqn:Hi; [|done].
  pose proof (created_valid store pre scs (Some ttl) (Some i) uuid secret salt now Hok Hu Hn
                (identity_new_normal _ _ _ _ Hi)) as Hok'. rewrite Hc in Hok'.
  split; [done|]. apply create_inv in Hc as (h & e & Hpre & _ & Hh & He & -> & -> & ->).
  split; [done|]. intros t. destruct (good_name _ Hpre) as (_ & _ & Hpre').
  destruct (good_name _ Hu) as (_ & _ & Hu').
  destruct (hash_password_parses _ _ _ Hh) as (p & Hp & Hv & _).
  rewrite (verify_created _ pre uuid secret _ h p) by (done || apply lookup_insert_eq).
  apply expiry_sum in He as [-> _]. unfold expired. simpl. by destruct (now + ttl <=? t).
Qed.

(** A key that [create] prints is in the file: reading the file gives the keys that were
    loaded and the new one, whose secret verifies until it expires. *)
Theorem create_key_durable o d w key raw w' :
  create_key o d w = (Ok (key, raw), w') → bad_name (kd_uuid d) = false → in_i64 (kd_now d) →
  ∃ store, (load_store (opt_path o) w).1 = Ok store ∧
    let store' := <[kd_uuid d := key]> store in
    load_from_file (opt_path o) (mkWorld (files w') []) = (Ok store', mkWorld (files w') []) ∧
    ∀ t, apikey_verify store' raw t =
      if kd_now d + opt_ttl_seconds o <=? t then Err ApiKeyExpired else Ok key.
Proof.
  intros (ident & store & w1 & store' & _ & Hl & Hc & Hp)%create_key_inv Hu Hn.
  exists store. rewrite Hl. split; [done|].
  destruct (load_store_inv _ _ _ _ Hl) as [_ Hok]. specialize (Hok _ eq_refl).
  destruct (bound_key_ok _ _ _ _ _ _ _ _ _ _ _ _ Hok Hu Hn Hc) as (Hok' & -> & Hv).
  split; [|done]. by eapply persist_store_inv.
Qed.

(** A key that [revoke] reports as revoked is revoked in the file: with the keys read from
    it, no text is accepted for that key. *)
Theorem revoke_key_durable path id now temporary w w' :
  revoke_key path id now temporary w = (Ok tt, w') → in_i64 now →
  ∃ store, load_from_file path (mkWorld (files w') []) = (Ok store, mkWorld (files w') []) ∧
    ∀ raw t k, apikey_verify store raw t = Ok k → key_id k ≠ id.
Proof.
  unfold revoke_key. intros Hr Hn. destruct (load_store path w) as [[store|e] w1] eqn:Hl; [|done].
  destruct (load_store_inv _ _ _ _ Hl) as [_ Hok]. specialize (Hok _ eq_refl).
  destruct (apikey_revoke store id now) as [[[]|e] store'] eqn:Hrev; [|done].
  pose proof (store_step_ok _ _ (ss_revoke store id now Hn) Hok) as Hok'. rewrite Hrev in Hok'.
  exists store'. split; [by eapply persist_store_inv|].
  intros raw t k Hv Heq. destruct (verified_live _ _ _ _ Hv) as (id' & Hk & Hnone).
  destruct (Hok' _ _ Hk) as [Hid _]. assert (id' = id) as -> by congruence.
  unfold apikey_revoke in Hrev. destruct (store !! id) as [k0|]; simplify_eq.
  rewrite lookup_insert_eq in Hk. by simplify_eq.
Qed.

(** But the file is taken for absent when its presence cannot be checked: one fault of that
    check, and [create] replaces all keys of the file by the new one, and reports success. *)
Lemma create_forgets_keys o d m msg n key raw w' :
  create_key o d (mkWorld m [Some (msg, n)]) = (Ok (key, raw), w') →
  bad_name (kd_uuid d) = false → in_i64 (kd_now d) →
  load_from_file (opt_path o) (mkWorld (files w') [])
  = (Ok {[kd_uuid d := key]}, mkWorld (files w') []).
Proof.
  intros (ident & store & w1 & store' & _ & Hl & Hc & Hp)%create_key_inv Hu Hn.
  assert (store = ∅) as -> by (by injection Hl).
  destruct (bound_key_ok _ _ _ _ _ _ _ _ _ _ _ _ (map_Forall_empty _) Hu Hn Hc) as (Hok' & -> & _).
  by eapply persist_store_inv.
Qed.
End effects.
