(* ===== verification/CliAudit.v ===== *)
(** * The audit commands ([agentguard-cli/src/commands/audit.rs], [log.rs])

    Verification, export, subject access, erasure and rotation of an audit log, and its
    listing.  Erasure rewrites the log through a [BufWriter], which is modelled with the
    writes it makes and the flush of its [Drop]. *)

From S2P Require Import Prelude Json CoreError AuthError Crypto Trace Request DecisionRecord HashChain Canonical AuditFs AuditLog ApiKey Text ChainSecret Formatter CliKeys.

(** ** Writing files *)

(** [File::create] *)
Definition fs_create (name : string) : fs unit :=
  syscall (λ m, (Ok tt, match m !! name with Some Special => m | _ => <[name := Regular ""]> m end)).

(** [std::fs::write] *)
Definition fs_write (name : string) (b : bytes) : fs unit :=
  _ ← fs_create name; fs_write_all name b.

(** [BufWriter] with its default capacity.  A call gives the outcome and what is still in
    the buffer. *)
Definition BUF_CAPACITY : Z := 8192.

Definition str_drop (n : nat) (s : string) : string := String.substring n (String.length s) s.

(** [flush_buf]: what was written leaves the buffer also when the write then fails. *)
Definition flush_buf (name : string) (buf : bytes) (w : world) : (result IoError unit * bytes) * world :=
  if bool_decide (buf = "") then ((Ok tt, ""), w)
  else
    match next_fault w with
    | (Some (e, n), w) =>
        ((Err (IoFail e), str_drop n buf),
         mkWorld (append_bytes name (String.substring 0 n buf) (files w)) (faults w))
    | (None, w) => ((Ok tt, ""), mkWorld (append_bytes name buf (files w)) (faults w))
    end.

(** [write_all] and [write_all_cold] *)
Definition buf_write_all (name : string) (buf piece : bytes) (w : world) :
    (result IoError unit * bytes) * world :=
  let spare := BUF_CAPACITY - len buf in
  if len piece <? spare then ((Ok tt, buf +:+ piece), w)
  else
    let '((r, buf), w) := if spare <? len piece then flush_buf name buf w else ((Ok tt, buf), w) in
    match r with
    | Err e => ((Err e, buf), w)
    | Ok _ =>
        if BUF_CAPACITY <=? len piece then
          let '(r, w) := fs_write_all name piece w in ((r, buf), w)
        else ((Ok tt, buf +:+ piece), w)
    end.

Fixpoint buf_write_pieces (name : string) (buf : bytes) (pieces : list bytes) (w : world) :
    (result IoError unit * bytes) * world :=
  match pieces with
  | [] => ((Ok tt, buf), w)
  | p :: ps =>
      match buf_write_all name buf p w with
      | ((Ok _, buf), w) => buf_write_pieces name buf ps w
      | ((Err e, buf), w) => ((Err e, buf), w)
      end
  end.

(** A writer from its creation to its [Drop], which flushes and ignores the outcome. *)
Definition buffered_write (name : string) (pieces : list bytes) : fs unit := λ w,
  let '((r, buf), w) := buf_write_pieces name "" pieces w in
  let '(_, w) := flush_buf name buf w in (r, w).

(** [serde_json::to_writer] writes a value in pieces. *)
Class JsonWriter `{JsonText} := { to_writer : Value → list bytes }.
Definition concat_bytes (pieces : list bytes) : bytes := foldr String.append "" pieces.
Class JsonWriterLaws `{JsonWriter} : Prop := {
  to_writer_text v : concat_bytes (to_writer v) = json_to_vec v;
}.

(** [chrono]'s order and formats of a timestamp, and [str::to_uppercase]. *)
Class Display := {
  timestamp_key : string → Z;
  show_time : string → string;
  show_datetime : string → string;
  to_uppercase : string → string;
}.

Section audit.
Context (dir : string).
Context `{JsonText, !JsonWriter, Hex, Hmac, UuidText, JsonScalars, RecordCodec, Base64Std, TimeFormat, Display}.
Context (to_string_pretty : Value → string).

Definition lift_io {A} (f : IoError → anyhow) (m : fs A) : command A := λ w,
  let '(r, w) := m w in (map_err f r, w).
Definition lift_log {A} (m : logm A) : command A := λ w,
  let '(r, w) := m w in (map_err (λ e, [error_display e]) r, w).
#[local] Instance command_ret : MRet command := λ A a w, (Ok a, w).
#[local] Instance command_bind : MBind command := λ A B k m w,
  match m w with (Ok a, w) => k a w | (Err e, w) => (Err e, w) end.
Definition of_result {A} (r : result anyhow A) : command A := λ w, (r, w).

Definition read_secret (secret_file : string) : command bytes :=
  key ← lift_io (λ e, ["read secret file: " +:+ io_display e]) (fs_read secret_file);
  of_result (ok_or (decode_chain_secret key) ["chain secret file is empty"]).

(** [fresh] is the id of a log without records. *)
Definition audit_verify (audit_path secret_file output : string) (fresh : ChainId) :
    command (list string) :=
  key_bytes ← read_secret secret_file;
  chain_id ← lift_log (log_verify_chain dir audit_path key_bytes fresh);
  mret (if bool_decide (output = "json")
        then [json_to_vec (VObject [("status", VString "ok"); ("chain_id", VString (uuid_display chain_id))])]
        else ["✓ audit log chain verified"; "  chain_id: " +:+ uuid_display chain_id;
              "  file:     " +:+ display dir audit_path]).

Definition audit_export (audit_path fmt : string) (out_path : option string) : command (list string) :=
  fmt ← of_result (map_err (λ e, [e]) (format_from_str fmt));
  records ← lift_log (read_all dir audit_path);
  let lines := Formatter.format fmt <$> records in
  match out_path with
  | Some p =>
      _ ← lift_io (λ e, [io_display e]) (fs_write p (join (String newline "") lines +:+ String newline ""));
      mret ["wrote " +:+ pretty (length lines) +:+ " records to " +:+ p]
  | None => mret lines
  end.

Definition about_subject (subject_id : string) (r : DecisionRecord) : bool :=
  bool_decide (r_principal r = subject_id) || bool_decide (r_subject_id r = Some subject_id).

Definition effect_symbol (r : DecisionRecord) : string :=
  if bool_decide (r_effect r = "allow") then "✓" else "✗".

Definition audit_sar (audit_path subject_id output : string) : command (list string) :=
  records ← lift_log (read_all dir audit_path);
  let matching := List.filter (about_subject subject_id) records in
  mret (if bool_decide (output = "json") then [to_string_pretty (VArray (record_to_value <$> matching))]
        else ("found " +:+ pretty (length matching) +:+ " record(s) for subject " +:+ subject_id)
             :: ((λ r, "  " +:+ show_datetime (r_timestamp r) +:+ " " +:+ effect_symbol r +:+ " "
                       +:+ to_uppercase (r_effect r) +:+ " " +:+ r_action r +:+ " " +:+ r_resource r)
                 <$> matching)).

(** ** Erasure *)

Definition erased_tag (salt principal : bytes) : string :=
  "erased:" +:+ hex_encode (hmac_sha256 salt principal).

Definition pseudonymised (tag : string) (r : DecisionRecord) : DecisionRecord :=
  mkDecisionRecord (r_id r) (r_timestamp r) (r_effect r) (r_policies r) (r_request_id r) tag (r_action r)
    (r_resource r) (r_reasons r) (r_session_id r) (r_agent_chain r) (r_trace_id r) (r_span_id r)
    (r_tenant_id r) (Some tag) (r_actor r).

Definition erase_record (salt : bytes) (subject_id : string) (cr : ChainedRecord) : ChainedRecord :=
  let r := c_record cr in
  if about_subject subject_id r then
    mkChainedRecord (prev_hash cr) (record_hash cr) (c_chain_id cr)
      (pseudonymised (erased_tag salt (r_principal r)) r)
  else cr.

(** The pieces of the rewritten log. *)
Definition log_pieces (out : list ChainedRecord) : list bytes :=
  concat ((λ cr, to_writer (chained_to_value cr) ++ [String newline ""]) <$> out).

Definition rewrite_log (target : string) (out : list ChainedRecord) : fs unit :=
  _ ← fs_create target; buffered_write target (log_pieces out).

Definition erase_warning : string :=
  "WARNING: the rewritten audit log will fail `agentguard audit verify` because the HMAC of each erased record no longer matches its stored hash. This is expected for GDPR Art. 17 erasure — the audit trail keeps its position markers but the canonical record body has been modified. Operators MUST keep the pre-erasure file as evidence of the original chain.".

Definition audit_erase (audit_path subject_id salt_file : string) (out_path : option string) :
    command (list string) :=
  salt ← lift_io (λ e, ["read salt file: " +:+ io_display e]) (fs_read salt_file);
  records ← lift_log (read_all_chained dir audit_path);
  let out := erase_record salt subject_id <$> records in
  let erased := length (List.filter (λ cr, about_subject subject_id (c_record cr)) records) in
  let target := default audit_path out_path in
  _ ← lift_io (λ e, [io_display e]) (rewrite_log target out);
  mret (("erased " +:+ pretty erased +:+ " records; wrote " +:+ pretty (length out) +:+ " records to " +:+ target)
        :: if (0 <? erased)%nat then [erase_warning] else []).

(** ** Rotation *)

(** [fresh] and [uuid] are drawn by opening the log, [ts] and [uuid'] by the rotation. *)
Definition audit_rotate (audit_path : string) (secret_file : option string)
    (fresh : ChainId) (uuid ts uuid' : string) : command (list string) :=
  let rotation := mkRotationConfig 1 in
  key ← match secret_file with
        | Some secret_path => k ← read_secret secret_path; mret (Some k)
        | None => mret None
        end;
  l ← lift_log (open_internal dir audit_path key (Some rotation) fresh uuid);
  _ ← lift_log (λ w, let '(r, (_, w)) := rotate dir ts uuid' l w in (r, w));
  mret ["✓ audit log rotated"; "  active:    " +:+ display dir audit_path].

(** ** Listing *)

(** [str::contains] *)
Definition str_has (needle s : string) : bool := bool_decide (is_Some (split_once needle s)).

(** [Reverse(timestamp)] *)
Definition newer_first (a b : DecisionRecord) : Prop :=
  timestamp_key (r_timestamp b) ≤ timestamp_key (r_timestamp a).
#[local] Instance newer_first_dec a b : base.Decision (newer_first a b).
Proof. unfold newer_first. apply _. Defined.

(** [s.chars().count()]: the bytes that are not continuations. *)
Definition char_count (s : string) : nat :=
  length (List.filter (λ c, negb ((128 <=? nat_of_ascii c) && (nat_of_ascii c <? 192))%nat)
            (String.list_ascii_of_string s)).

(** [{:>5}] *)
Definition pad5 (s : string) : string :=
  concat_bytes (replicate (5 - char_count s) " ") +:+ s.

Definition tail_records (n : nat) (principal action : option string) (records : list DecisionRecord) :
    list DecisionRecord :=
  let wanted needle text := match needle with Some p => str_has p text | None => true end in
  let filtered := List.filter (λ r, wanted action (r_action r))
                    (List.filter (λ r, wanted principal (r_principal r)) records) in
  take n (merge_sort newer_first filtered).

Definition log_tail (audit : string) (n : nat) (principal action : option string) (output : string) :
    command (list string) :=
  records ← lift_log (read_all dir audit);
  let slice := tail_records n principal action records in
  mret (if bool_decide (output = "json") then [to_string_pretty (VArray (record_to_value <$> slice))]
        else ((λ r, show_time (r_timestamp r) +:+ " " +:+ effect_symbol r +:+ " "
                    +:+ pad5 (to_uppercase (r_effect r)) +:+ " " +:+ r_principal r +:+ " " +:+ r_action r
                    +:+ " " +:+ r_resource r) <$> reverse slice)
             ++ (match slice with [] => ["(no matching decisions)"] | _ => [] end)).

Definition log_dump (audit output : string) : command (list string) :=
  records ← lift_log (read_all dir audit);
  mret (if bool_decide (output = "json") then [to_string_pretty (VArray (record_to_value <$> records))]
        else (λ r, to_string_pretty (record_to_value r)) <$> records).
End audit.

(** ** The buffered writer *)

Definition str_prefix (u v : string) : Prop := ∃ rest, v = u +:+ rest.

Lemma str_prefix_refl u : str_prefix u u.
Proof. exists "". by rewrite string_app_nil_r. Qed.
Lemma str_prefix_trans u v x : str_prefix u v → str_prefix v x → str_prefix u x.
Proof. intros [a ->] [b ->]. exists (a +:+ b). by rewrite string_app_assoc. Qed.
Lemma str_prefix_app u v : str_prefix u (u +:+ v).
Proof. by exists v. Qed.
Lemma str_prefix_mono x u v : str_prefix u v → str_prefix (x +:+ u) (x +:+ v).
Proof. intros [a ->]. exists a. by rewrite string_app_assoc. Qed.

Lemma substring_split n m s :
  (String.length s ≤ m)%nat → s = String.substring 0 n s +:+ String.substring n m s.
Proof.
  revert n. induction s as [|c s IH]; intros [|n] Hm.
  - by destruct m.
  - done.
  - by rewrite (substring_short m).
  - simpl in *. f_equal. apply IH. lia.
Qed.

Lemma str_drop_split n s : s = String.substring 0 n s +:+ str_drop n s.
Proof. by apply substring_split. Qed.

Lemma content_appended w w' name b c :
  content_of w name = Some c → files w' = append_bytes name b (files w) →
  content_of w' name = Some (c +:+ b).
Proof.
  unfold content_of. intros Hc ->. destruct (files w !! name) as [[c'|]|] eqn:Hp; try done.
  injection Hc as ->. by rewrite (append_bytes_same _ _ _ c).
Qed.

(** Content and buffer together are what was handed over, less what a failed write lost. *)
Lemma flush_buf_inv name buf w r buf' w' c :
  content_of w name = Some c → flush_buf name buf w = ((r, buf'), w') →
  ∃ c', content_of w' name = Some c' ∧ c +:+ buf = c' +:+ buf' ∧ (is_ok r = true → buf' = "").
Proof.
  unfold flush_buf, next_fault. intros Hc. case_bool_decide as Hb.
  { intros [= <- <- <-]. subst. eauto. }
  destruct (faults w) as [|[[e n]|] fl].
  - intros [= <- <- <-]. eexists. split; [by apply (content_appended w)|]. by rewrite string_app_nil_r.
  - intros [= <- <- <-]. eexists. split; [by apply (content_appended w)|].
    rewrite <-string_app_assoc, <-str_drop_split. by split.
  - intros [= <- <- <-]. eexists. split; [by apply (content_appended w)|]. by rewrite string_app_nil_r.
Qed.

Lemma buf_write_all_inv name buf piece w r buf' w' c :
  content_of w name = Some c → buf_write_all name buf piece w = ((r, buf'), w') →
  ∃ c', content_of w' name = Some c' ∧ str_prefix (c' +:+ buf') (c +:+ buf +:+ piece) ∧
    (is_ok r = true → c' +:+ buf' = c +:+ buf +:+ piece).
Proof.
  unfold buf_write_all. intros Hc. destruct (Z.ltb_spec (len piece) (BUF_CAPACITY - len buf)).
  { intros [= <- <- <-]. exists c. split; [done|]. by split; [apply str_prefix_refl|]. }
  assert (Hf : ∃ r1 b1 w1, (if BUF_CAPACITY - len buf <? len piece then flush_buf name buf w
                            else ((Ok tt, buf), w)) = ((r1, b1), w1) ∧
    ∃ c1, content_of w1 name = Some c1 ∧ c +:+ buf = c1 +:+ b1 ∧
      (is_ok r1 = true → BUF_CAPACITY ≤ len piece → b1 = "")).
  { destruct (Z.ltb_spec (BUF_CAPACITY - len buf) (len piece)).
    - destruct (flush_buf name buf w) as [[r1 b1] w1] eqn:Hfl. do 3 eexists. split; [done|].
      destruct (flush_buf_inv _ _ _ _ _ _ _ Hc Hfl) as (c1 & ? & ? & Hb). exists c1. auto.
    - do 3 eexists. split; [done|]. exists c. split; [done|]. split; [done|]. intros _ Hcap.
      unfold len in *. destruct buf as [|b0 buf]; [done|]. simpl in *. lia. }
  destruct Hf as (r1 & b1 & w1 & -> & c1 & Hc1 & Heq & Hb1).
  destruct r1 as [[]|e].
  2: { intros [= <- <- <-]. exists c1. split; [done|]. split; [|done].
       rewrite string_app_assoc, Heq. apply str_prefix_app. }
  destruct (Z.leb_spec BUF_CAPACITY (len piece)).
  - rewrite (Hb1 eq_refl) in * by done. destruct (fs_write_all name piece w1) as [r2 w2] eqn:Hw.
    intros [= <- <- <-]. rewrite string_app_assoc, Heq, string_app_nil_r.
    apply fs_write_all_inv in Hw as [[-> Hw]|(e & n & -> & Hw)];
      (eexists; split; [by apply (content_appended w1)|]); rewrite string_app_nil_r; (split; [|done]).
    + apply str_prefix_refl.
    + apply str_prefix_mono. rewrite (str_drop_split n piece) at 2. apply str_prefix_app.
  - intros [= <- <- <-]. exists c1. split; [done|]. rewrite !string_app_assoc, Heq.
    by split; [apply str_prefix_refl|].
Qed.

Lemma buf_write_pieces_inv name pieces buf w r buf' w' c :
  content_of w name = Some c → buf_write_pieces name buf pieces w = ((r, buf'), w') →
  ∃ c', content_of w' name = Some c' ∧ str_prefix (c' +:+ buf') (c +:+ buf +:+ concat_bytes pieces) ∧
    (is_ok r = true → c' +:+ buf' = c +:+ buf +:+ concat_bytes pieces).
Proof.
  revert buf w c. induction pieces as [|p ps IH]; intros buf w c Hc; cbn [buf_write_pieces concat_bytes foldr].
  { intros [= <- <- <-]. exists c. rewrite string_app_nil_r. by split; [|split; [apply str_prefix_refl|]]. }
  destruct (buf_write_all name buf p w) as [[[[]|e] b1] w1] eqn:Hw;
    destruct (buf_write_all_inv _ _ _ _ _ _ _ _ Hc Hw) as (c1 & Hc1 & Hpre & Hok).
  - specialize (Hok eq_refl). intros Hrest. destruct (IH _ _ _ Hc1 Hrest) as (c2 & Hc2 & Hp2 & Hok2).
    exists c2. split; [done|].
    assert (Heq : c +:+ buf +:+ p +:+ foldr String.append "" ps = c1 +:+ b1 +:+ concat_bytes ps).
    { unfold concat_bytes. by rewrite (string_app_assoc buf), (string_app_assoc c), <-Hok, <-string_app_assoc. }
    by rewrite Heq.
  - intros [= <- <- <-]. exists c1. split; [done|]. split; [|done].
    eapply str_prefix_trans; [exact Hpre|]. apply str_prefix_mono, str_prefix_mono, str_prefix_app.
Qed.

(** A buffered write that starts from an empty file leaves a beginning of its text. *)
Lemma buffered_write_prefix name pieces w r w' :
  content_of w name = Some "" → buffered_write name pieces w = (r, w') →
  ∃ c, content_of w' name = Some c ∧ str_prefix c (concat_bytes pieces).
Proof.
  intros Hc. unfold buffered_write.
  destruct (buf_write_pieces name "" pieces w) as [[r1 b1] w1] eqn:Hp.
  destruct (buf_write_pieces_inv _ _ _ _ _ _ _ _ Hc Hp) as (c1 & Hc1 & Hpre & _).
  destruct (flush_buf name b1 w1) as [[r2 b2] w2] eqn:Hf. intros [= <- <-].
  destruct (flush_buf_inv _ _ _ _ _ _ _ Hc1 Hf) as (c2 & Hc2 & Heq & _).
  exists c2. split; [done|]. rewrite Heq in Hpre. eapply str_prefix_trans; [|exact Hpre].
  apply str_prefix_app.
Qed.

(** ** Erasure *)

Section erasure.
Context (dir : string).
Context `{JsonText, !JsonWriter, Hex, Hmac, UuidText, JsonScalars, RecordCodec, Base64Std, TimeFormat, Display}.
Context `{!JsonTextLaws, !JsonWriterLaws, !HexLaws, !HmacLaws, !UuidLaws, !RecordLaws}.

Definition log_text (out : list ChainedRecord) : bytes := concat_bytes (chained_line <$> out).

Lemma concat_bytes_app l k : concat_bytes (l ++ k) = concat_bytes l +:+ concat_bytes k.
Proof.
  unfold concat_bytes. induction l as [|b l IH]; simpl; [done|]. by rewrite IH, string_app_assoc.
Qed.

Lemma log_pieces_text out : concat_bytes (log_pieces out) = log_text out.
Proof.
  unfold log_pieces, log_text. induction out as [|cr out IH]; [done|].
  rewrite !fmap_cons. simpl. rewrite concat_bytes_app, concat_bytes_app, to_writer_text, IH.
  unfold chained_line. simpl. by rewrite <-string_app_assoc.
Qed.

Lemma read_log_text out :
  Forall (λ cr, wf_record (c_record cr)) out → read_chained_lines (read_lines (log_text out)) = Ok out.
Proof.
  induction 1 as [|cr out Hwf _ IH]; [done|].
  assert (Hl : read_lines (log_text (cr :: out)) = chained_line cr :: read_lines (log_text out))
    by apply read_lines_chained.
  rewrite Hl. cbn [read_chained_lines]. rewrite utf8_line_chained. cbn [mbind result_bind].
  rewrite (proj2 (json_not_blank _)), chained_roundtrip by done. cbn [map_err mbind result_bind].
  by rewrite IH.
Qed.

(** Whatever fails, the target holds what it held or a beginning of the new log.  The old
    log is gone as soon as the file is created. *)
Lemma rewrite_log_prefix target out w r w' :
  files w !! target ≠ Some Special → rewrite_log target out w = (r, w') →
  files w' = files w ∨ ∃ c, content_of w' target = Some c ∧ str_prefix c (log_text out).
Proof.
  intros Hsp. unfold rewrite_log. rewrite fs_bind_eq.
  destruct (fs_create target w) as [r1 w1] eqn:Hc.
  apply syscall_inv in Hc as [(e & -> & Hf)|[= -> Hf]]; [intros [= <- <-]; by left|].
  intros Hw. right. rewrite <-log_pieces_text. eapply buffered_write_prefix; [|exact Hw].
  unfold content_of. rewrite Hf. destruct (files w !! target) as [[]|]; by rewrite ?lookup_insert_eq.
Qed.

(** With working storage the new log is written whole. *)
Lemma buf_write_all_calm name buf piece m :
  ∃ buf' m', buf_write_all name buf piece (mkWorld m []) = ((Ok tt, buf'), mkWorld m' []).
Proof.
  unfold buf_write_all. destruct (_ <? _); [eauto|].
  assert (∃ b m1, (if BUF_CAPACITY - len buf <? len piece then flush_buf name buf (mkWorld m [])
                   else ((Ok tt, buf), mkWorld m [])) = ((Ok tt, b), mkWorld m1 [])) as (b & m1 & ->).
  { unfold flush_buf. simpl. destruct (_ <? _); [case_bool_decide|]; eauto. }
  unfold fs_write_all. simpl. destruct (_ <=? _); eauto.
Qed.

Lemma buf_write_pieces_calm name pieces buf m :
  ∃ buf' m', buf_write_pieces name buf pieces (mkWorld m []) = ((Ok tt, buf'), mkWorld m' []).
Proof.
  revert buf m. induction pieces as [|p ps IH]; intros buf m; simpl; [eauto|].
  destruct (buf_write_all_calm name buf p m) as (buf' & m' & ->). apply IH.
Qed.

Lemma rewrite_log_calm target out m :
  m !! target ≠ Some Special →
  ∃ m', rewrite_log target out (mkWorld m []) = (Ok tt, mkWorld m' []) ∧
    m' !! target = Some (Regular (log_text out)).
Proof.
  intros Hsp. unfold rewrite_log. rewrite fs_bind_eq. unfold fs_create. rewrite syscall_calm.
  cbn [fst snd]. set (m1 := match m !! target with Some Special => m | _ => <[target := Regular ""]> m end).
  assert (Hc : content_of (mkWorld m1 []) target = Some "").
  { unfold content_of, m1. simpl. destruct (m !! target) as [[]|]; by rewrite ?lookup_insert_eq. }
  unfold buffered_write. destruct (buf_write_pieces_calm target (log_pieces out) "" m1) as (b & m2 & Hp).
  rewrite Hp. destruct (buf_write_pieces_inv _ _ _ _ _ _ _ _ Hc Hp) as (c2 & Hc2 & _ & Heq).
  destruct (flush_buf target b (mkWorld m2 [])) as [[r3 b3] w3] eqn:Hf.
  assert (∃ m3, w3 = mkWorld m3 [] ∧ r3 = Ok tt) as (m3 & -> & ->).
  { unfold flush_buf in Hf. simpl in Hf. case_bool_decide; simplify_eq; eauto. }
  exists m3. split; [done|].
  destruct (flush_buf_inv _ _ _ _ _ _ _ Hc2 Hf) as (c3 & Hc3 & Heq3 & Hb3).
  rewrite (Hb3 eq_refl), string_app_nil_r in Heq3. rewrite (Heq eq_refl) in Heq3. simpl in Heq3.
  rewrite log_pieces_text in Heq3. subst c3. unfold content_of in Hc3. simpl in Hc3.
  destruct (m3 !! target) as [[]|]; by simplify_eq.
Qed.

(** Pieces that fit the buffer stay there. *)
Lemma len_app u v : len (u +:+ v) = len u + len v.
Proof. unfold len. rewrite string_length_app. lia. Qed.

Lemma small_pieces name pieces buf w :
  len (buf +:+ concat_bytes pieces) < BUF_CAPACITY →
  buf_write_pieces name buf pieces w = ((Ok tt, buf +:+ concat_bytes pieces), w).
Proof.
  revert buf. induction pieces as [|p ps IH]; intros buf Hlen; simpl; [by rewrite string_app_nil_r|].
  cbn [concat_bytes foldr] in *. fold (concat_bytes ps) in *.
  unfold buf_write_all. rewrite !len_app in Hlen. assert (0 ≤ len (concat_bytes ps)) by (unfold len; lia).
  destruct (Z.ltb_spec (len p) (BUF_CAPACITY - len buf)); [|lia].
  rewrite IH; [by rewrite string_app_assoc|]. rewrite !len_app. lia.
Qed.

(** A log that fits the buffer is written by the [Drop] of the writer, whose failure is
    ignored: erasure reports success, and the log is empty. *)
Theorem erase_reports_lost_log target out m msg :
  m !! target ≠ Some Special → out ≠ [] → len (log_text out) < BUF_CAPACITY →
  ∃ w', rewrite_log target out (mkWorld m [None; Some (msg, O)]) = (Ok tt, w') ∧
    content_of w' target = Some "".
Proof.
  intros Hsp Hout Hlen. unfold rewrite_log. rewrite fs_bind_eq. cbn.
  set (m1 := match m !! target with Some Special => m | _ => <[target := Regular ""]> m end).
  assert (Hc : m1 !! target = Some (Regular "")).
  { unfold m1. destruct (m !! target) as [[]|]; by rewrite ?lookup_insert_eq. }
  unfold buffered_write. rewrite small_pieces by (by rewrite log_pieces_text).
  rewrite log_pieces_text. simpl. unfold flush_buf. rewrite bool_decide_eq_false_2.
  - simpl. eexists. split; [done|]. unfold content_of. simpl.
    assert (String.substring 0 0 (log_text out) = "") as -> by (by destruct (log_text out)).
    unfold append_bytes. rewrite Hc, lookup_insert_eq. done.
  - destruct out as [|cr out]; [done|]. intros Hn%(f_equal String.length).
    unfold log_text, concat_bytes, chained_line in Hn. simpl in Hn.
    rewrite !string_length_app in Hn. simpl in Hn. lia.
Qed.

Lemma erase_record_wf salt subject cr :
  wf_record (c_record cr) → wf_record (c_record (erase_record salt subject cr)).
Proof. unfold erase_record. by destruct (about_subject _ _). Qed.

(** What erasure does to one record: its place in the chain is kept; a record about the
    subject names the tag, made with the salt, in place of principal and subject, and keeps all
    its other fields; any other record is untouched. *)
Record erased (salt : bytes) (subject : string) (cr cr' : ChainedRecord) : Prop := {
  er_place : prev_hash cr' = prev_hash cr ∧ record_hash cr' = record_hash cr ∧ c_chain_id cr' = c_chain_id cr;
  er_other : about_subject subject (c_record cr) = false → cr' = cr;
  er_tag : about_subject subject (c_record cr) = true →
    let tag := erased_tag salt (r_principal (c_record cr)) in
    r_principal (c_record cr') = tag ∧ r_subject_id (c_record cr') = Some tag ∧
    r_id (c_record cr') = r_id (c_record cr) ∧ r_effect (c_record cr') = r_effect (c_record cr) ∧
    r_action (c_record cr') = r_action (c_record cr) ∧ r_resource (c_record cr') = r_resource (c_record cr) ∧
    r_timestamp (c_record cr') = r_timestamp (c_record cr) ∧ r_policies (c_record cr') = r_policies (c_record cr) ∧
    r_request_id (c_record cr') = r_request_id (c_record cr) ∧ r_reasons (c_record cr') = r_reasons (c_record cr) ∧
    r_session_id (c_record cr') = r_session_id (c_record cr) ∧
    r_agent_chain (c_record cr') = r_agent_chain (c_record cr) ∧
    r_trace_id (c_record cr') = r_trace_id (c_record cr) ∧ r_span_id (c_record cr') = r_span_id (c_record cr) ∧
    r_tenant_id (c_record cr') = r_tenant_id (c_record cr) ∧ r_actor (c_record cr') = r_actor (c_record cr);
}.

Lemma erase_record_erased salt subject cr : erased salt subject cr (erase_record salt subject cr).
Proof. unfold erase_record. split; destruct (about_subject _ _) eqn:Ha; try done; by destruct cr. Qed.

(** C32: erasure is exact: with working storage, the log that [erase] writes, in place or to
    another file, reads back as the old log with exactly the records about the subject
    pseudonymised and nothing else changed, in the same order; no record is about the subject
    any more, unless the subject is itself such a tag. *)
Theorem erase_exact audit subject salt_file salt content records m out_path :
  let target := default audit out_path in
  m !! salt_file = Some (Regular salt) → m !! audit = Some (Regular content) →
  m !! target ≠ Some Special →
  read_chained_lines (read_lines content) = Ok records →
  Forall (λ cr, wf_record (c_record cr)) records →
  ∃ lines m' records',
    audit_erase dir audit subject salt_file out_path (mkWorld m []) = (Ok lines, mkWorld m' []) ∧
    read_all_chained dir target (mkWorld m' []) = (Ok records', mkWorld m' []) ∧
    Forall2 (erased salt subject) records records' ∧
    ((∀ p, subject ≠ erased_tag salt p) → Forall (λ cr, about_subject subject (c_record cr) = false) records').
Proof.
  intros target Hsalt Haudit Hsp Hread Hwf. set (out := erase_record salt subject <$> records).
  destruct (rewrite_log_calm target out m) as (m' & Hrw & Hm'); [done|].
  assert (Hreads : ∀ name m1 c, m1 !! name = Some (Regular c) → ∀ rs, read_chained_lines (read_lines c) = Ok rs →
            read_all_chained dir name (mkWorld m1 []) = (Ok rs, mkWorld m1 [])).
  { intros name m1 c Hc rs Hrs. unfold read_all_chained.
    rewrite logm_bind_eq, (lift_Ok _ _ _ _ (open_existing_calm _ _ _ _ Hc)). unfold lift_result. by rewrite Hrs. }
  eexists _, m', out. split_and!.
  - unfold audit_erase, lift_io, lift_log, mbind, command_bind. unfold fs_read at 1. rewrite syscall_calm.
    simpl. rewrite Hsalt. simpl. rewrite (Hreads _ _ _ Haudit _ Hread). simpl. fold out target. by rewrite Hrw.
  - apply (Hreads _ _ _ Hm'). apply read_log_text. apply Forall_fmap. eapply Forall_impl; [exact Hwf|].
    intros cr. apply erase_record_wf.
  - apply Forall2_fmap_r, Forall_Forall2_diag. apply Forall_true. apply erase_record_erased.
  - intros Htag. apply Forall_fmap, Forall_true. intros cr.
    destruct (erase_record_erased salt subject cr) as [_ Hother Ht].
    destruct (about_subject subject (c_record cr)) eqn:Ha; [|simpl; by rewrite Hother].
    destruct (Ht eq_refl) as (Hp & Hs & _). unfold about_subject, compose. rewrite Hp, Hs.
    rewrite !bool_decide_eq_false_2; [done|congruence..].
Qed.

(** Erasure looks at the active file only: it changes no other file, whatever happens, so
    the records of the subject in rotated segments stay as they are. *)
Lemma keeps_flush other name buf w r w' :
  other ≠ name → flush_buf name buf w = (r, w') → files w' !! other = files w !! other.
Proof.
  intros Hne. unfold flush_buf, next_fault. case_bool_decide; [by intros [= <- <-]|].
  destruct (faults w) as [|[[e n]|] fl]; intros [= <- <-]; simpl; by apply append_bytes_other.
Qed.

Lemma keeps_buf_write other name buf piece w r w' :
  other ≠ name → buf_write_all name buf piece w = (r, w') → files w' !! other = files w !! other.
Proof.
  intros Hne. unfold buf_write_all. destruct (_ <? _); [by intros [= <- <-]|].
  destruct (if _ <? _ then _ else _) as [[r1 b1] w1] eqn:Hf.
  assert (files w1 !! other = files w !! other) as <-.
  { destruct (_ <? _); [by eapply keeps_flush|by simplify_eq]. }
  destruct r1; [|by intros [= <- <-]]. destruct (_ <=? _); [|by intros [= <- <-]].
  destruct (fs_write_all name piece w1) as [r2 w2] eqn:Hw. intros [= <- <-].
  by eapply (keeps_write other).
Qed.

Lemma keeps_rewrite other target out : other ≠ target → keeps other (rewrite_log target out).
Proof.
  intros Hne. unfold rewrite_log. apply keeps_bind.
  { apply keeps_syscall. intros m. simpl. destruct (m !! target) as [[]|]; simpl; try done;
      by rewrite lookup_insert_ne. }
  intros _ w r w'. unfold buffered_write.
  destruct (buf_write_pieces target "" (log_pieces out) w) as [[r1 b1] w1] eqn:Hp.
  destruct (flush_buf target b1 w1) as [r2 w2] eqn:Hf. intros [= <- <-].
  rewrite (keeps_flush _ _ _ _ _ _ Hne Hf). clear Hf. revert Hp. generalize "" as buf.
  generalize (log_pieces out) as ps. intros ps. revert w. induction ps as [|p ps IH]; intros w buf; simpl.
  { by intros [= <- <- <-]. }
  destruct (buf_write_all target buf p w) as [[[[]|e] b2] w3] eqn:Hb;
    pose proof (keeps_buf_write _ _ _ _ _ _ _ Hne Hb) as <-; [apply IH|by intros [= <- <- <-]].
Qed.
End erasure.
