(* ===== verification/CliDelegate.v ===== *)
(** * The delegation commands ([agentguard-cli/src/commands/delegate.rs])

    Minting a token with a signer from a file, from the command line or freshly generated,
    and verifying a token with a file of public keys. *)

From S2P Require Import Prelude Json CoreError AuthKeys AuthError Crypto Constraint Delegation Trace Request DecisionRecord HashChain Canonical AuditFs AuditLog ApiKey Text ChainSecret Formatter CliKeys CliAudit.

(** [str::lines] *)
Definition str_lines (s : string) : list string :=
  let strip l := match strip_prefix (String carriage_return "") (str_rev l) with
                 | Some r => str_rev r
                 | None => l
                 end in
  let parts := split newline s in
  strip <$> match last parts with Some "" => take (length parts - 1) parts | _ => parts end.

Definition AUDIENCE : string := "agentguard://default".

Section delegate.
Context `{Base64, JsonText, Ed25519Ops, ClaimsCodec, Hex, Base64Std}.
(** [serde_json::to_string_pretty] of a token and of claims *)
Context (pretty_token : DelegationToken → string) (pretty_claims : DelegationClaims → string).

Definition io_chain (e : IoError) : anyhow := [io_display e].
Definition core_chain (e : Error) : anyhow := [error_display e].

Definition answered_yes (r : result IoError bool) : bool := match r with Ok b => b | Err _ => false end.

(** The text after the first [=], or all of it. *)
Definition signer_payload (text : string) : string :=
  match split_at_char "=" text with
  | Some (_, rest) => trim (str_drop 1 rest)
  | None => trim text
  end.

Definition load_signer_from_file (path : string) (kid_hint : option string) : command DelegationSigner := λ w,
  let '(r, w) := fs_read_to_string path w in
  (text ← map_err io_chain r;
   let payload := signer_payload text in
   b ← ok_or (decode_chain_secret payload) ["signer payload is empty"];
   s ← map_err core_chain (from_bytes b);
   Ok match kid_hint with
      | Some k => if negb (bool_decide (k = "")) && bool_decide (k ≠ payload) then set_key_id s k else s
      | None => s
      end, w).

(** [fresh] and [uuid] are drawn when there is no key; the second component is what goes to
    standard error. *)
Definition load_signer (key_id key_file : option string) (output : string) (fresh : bytes) (uuid : string) :
    command (DelegationSigner * list string) := λ w,
  match key_file with
  | Some p => let '(r, w) := load_signer_from_file p key_id w in (s ← r; Ok (s, []), w)
  | None =>
      match key_id with
      | Some p =>
          let '(there, w) := fs_exists p w in
          if answered_yes there then
            let '(r, w) := load_signer_from_file p (Some p) w in (s ← r; Ok (s, []), w)
          else
            (b ← ok_or (decode_chain_secret p) ["key_id is empty"];
             s ← map_err core_chain (from_bytes b);
             Ok (if bool_decide (p = "") then s else set_key_id s p, []), w)
      | None =>
          let s := generate fresh uuid in
          (Ok (s, if bool_decide (output = "json") then []
                  else ["warning: ephemeral key — public key (" +:+ Delegation.key_id s +:+ "): "
                        +:+ public_key_b64 s]), w)
      end
  end.

(** What [run] draws. *)
Record mint_draw : Type := mkMintDraw {
  md_key : bytes;
  md_key_uuid : string;
  md_now : Z;
  md_jti : string;
}.

Definition mint_token (from to_ : string) (actions resources : list string) (ttl : Z)
    (key_id key_file : option string) (output : string) (d : mint_draw) :
    command (DelegationToken * list string) := λ w,
  let '(r, w) := load_signer key_id key_file output (md_key d) (md_key_uuid d) w in
  ('(signer, err) ← r;
   token ← map_err core_chain (mint signer (md_now d) (md_jti d) from to_ AUDIENCE actions resources
             (mkDelegationConfig (Z.max ttl 0)));
   Ok (token, err), w).

(** Standard output; the token goes to the file when one is given. *)
Definition delegate_run (from to_ : string) (actions resources : list string) (ttl : Z)
    (key_id key_file out_path : option string) (output : string) (d : mint_draw) :
    command (list string) := λ w,
  match mint_token from to_ actions resources ttl key_id key_file output d w with
  | (Err e, w) => (Err e, w)
  | (Ok (token, _), w) =>
      match out_path with
      | Some p =>
          let '(r, w) := fs_write p (jws token) w in
          (_ ← map_err io_chain r;
           Ok (if bool_decide (output = "json") then [] else ["wrote token to " +:+ p]), w)
      | None => (Ok [if bool_decide (output = "json") then pretty_token token else jws token], w)
      end
  end.

(** [Path::is_file] *)
Definition fs_is_file (name : string) : fs bool :=
  r ← fs_try (fs_stat name);
  mret match r with Ok (Regular _) => true | _ => false end.

(** A token on the command line, or the file that holds it. *)
Definition token_text (token_str : string) : command string := λ w,
  let '(there, w) := (e ← fs_exists token_str; if e : bool then fs_is_file token_str else mret false) w in
  if answered_yes there then
    let '(r, w) := fs_read_to_string token_str w in (map_err io_chain (trim <$> r), w)
  else (Ok token_str, w).

Fixpoint add_key_lines (v : DelegationVerifier) (lines : list string) : result anyhow DelegationVerifier :=
  match lines with
  | [] => Ok v
  | line :: lines =>
      let line := trim line in
      if bool_decide (line = "") || starts_with "#" line then add_key_lines v lines
      else
        '(id, key) ← ok_or (split_once "=" line) ["expected `kid=base64pubkey` in keys file"];
        b ← map_err (λ e, ["base64: " +:+ e]) (std_decode (trim key));
        v ← map_err (λ e, ["add key " +:+ debug_str (trim id) +:+ ": " +:+ error_display e])
              (add_key v (trim id) EdDSA b);
        add_key_lines v lines
  end.

Definition verify_token (token_str keys_path : string) (now : Z) : command DelegationClaims := λ w,
  match token_text token_str w with
  | (Err e, w) => (Err e, w)
  | (Ok compact, w) =>
      match map_err core_chain (parse compact) with
      | Err e => (Err e, w)
      | Ok _ =>
          let '(r, w) := fs_read_to_string keys_path w in
          (text ← map_err io_chain r;
           v ← add_key_lines verifier_new (str_lines text);
           verified ← map_err (λ e, ["verify: " +:+ error_display e]) (verify v compact AUDIENCE now);
           Ok (v_claims verified), w)
      end
  end.

Definition delegate_verify (token_str keys_path output : string) (now : Z) : command (list string) := λ w,
  let '(r, w) := verify_token token_str keys_path now w in
  (c ← r;
   Ok (if bool_decide (output = "json") then [pretty_claims c]
       else ["token valid"; "  iss:       " +:+ iss c; "  sub:       " +:+ sub c; "  aud:       " +:+ aud c;
             "  exp:       " +:+ pretty (exp c); "  actions:   " +:+ join ", " (allowed_actions c);
             "  resources: " +:+ join ", " (resource_patterns c)]), w).
End delegate.

(** ** What the commands promise together *)

(** The base64 alphabet is visible characters. *)
Class Base64Plain `{Base64} : Prop := {
  b64_encode_plain b : forallb plain (String.list_ascii_of_string (b64_encode b)) = true;
}.

Section promises.
Context `{Base64Laws, !Base64Plain, JsonTextLaws, Ed25519Laws, ClaimsLaws, Hex, Base64StdLaws}.

Definition plain_text (s : string) : Prop := forallb plain (String.list_ascii_of_string s) = true.

Lemma plain_app s t : plain_text s → plain_text t → plain_text (s +:+ t).
Proof.
  unfold plain_text. induction s as [|c s IH]; [done|]. cbn [String.append String.list_ascii_of_string forallb].
  rewrite !andb_true_iff. tauto.
Qed.

Lemma plain_lacks c s : plain c = false → plain_text s → str_contains c s = false.
Proof.
  intros Hc Hs. apply not_true_iff_false. rewrite str_contains_elem. intros Hin.
  unfold plain_text in Hs. rewrite forallb_forall in Hs. apply list_elem_of_In, Hs in Hin. congruence.
Qed.

Lemma str_lines_one line : plain_text line → str_lines (line +:+ String newline "") = [line].
Proof.
  intros Hp. unfold str_lines.
  assert (split newline (line +:+ String newline "") = [line; ""]) as ->.
  { change (line +:+ String newline "") with (join (String newline "") [line; ""]).
    apply split_join; [done|]. constructor; [by apply plain_lacks|by constructor]. }
  simpl. destruct (match str_rev line with "" => None | String _ _ => _ end) as [r|] eqn:Hr; [|done].
  assert (Hs : strip_prefix (String carriage_return "") (str_rev line) = Some r) by done.
  apply strip_prefix_Some in Hs. pose proof (plain_lacks carriage_return line eq_refl Hp) as Hno.
  rewrite <-str_contains_rev, Hs in Hno. done.
Qed.

(** The line of the public key of a signer. *)
Definition key_line (s : DelegationSigner) : string :=
  Delegation.key_id s +:+ "=" +:+ std_encode (verifying_key_of (key s)).

(** A kid that can stand at the start of a line of a key file. *)
Definition listable (kid : string) : Prop :=
  kid ≠ "" ∧ plain_text kid ∧ str_contains "=" kid = false ∧ starts_with "#" kid = false.

Lemma key_line_adds s :
  listable (Delegation.key_id s) →
  ∃ v, add_key_lines verifier_new (str_lines (key_line s +:+ String newline "")) = Ok v ∧
    keys v !! Delegation.key_id s = Some (EdDSA, verifying_key_of (key s)) ∧ clock_skew v = 60.
Proof.
  intros (Hne & Hp & Heq & Hhash). set (kid := Delegation.key_id s) in *.
  pose proof (std_encode_plain (verifying_key_of (key s))) as Hpk.
  assert (Hline : plain_text (key_line s)) by (by repeat apply plain_app).
  rewrite str_lines_one by done. cbn [add_key_lines]. rewrite (trim_plain (key_line s)) by done.
  assert (Hskip : bool_decide (key_line s = "") || starts_with "#" (key_line s) = false).
  { unfold key_line. fold kid. destruct kid as [|c kid']; [done|]. unfold starts_with in *. simpl in *.
    destruct (bool_decide ("#"%char = c)); [|done]. by rewrite bool_decide_eq_false in Hhash; destruct Hhash. }
  assert (Hsplit : split_once "=" (key_line s) = Some (kid, std_encode (verifying_key_of (key s))))
    by by apply (split_once_char "=").
  rewrite Hskip, Hsplit. cbn [ok_or mbind result_bind].
  rewrite (trim_plain (std_encode _)), std_decode_encode, (trim_plain kid) by done.
  cbn [map_err mbind result_bind].
  unfold add_key, len. rewrite ed_key_length. cbn. rewrite ed_key_parses. cbn.
  eexists. split; [done|]. cbn. by rewrite lookup_insert_eq.
Qed.

Lemma jws_plain s now uuid iss sub aud actions resources cfg t :
  mint s now uuid iss sub aud actions resources cfg = Ok t → plain_text (jws t).
Proof.
  unfold mint, mint_with, sign_jws. intros Hm. res_inv. subst t. cbn [jws].
  repeat apply plain_app; try done; apply b64_encode_plain.
Qed.

Lemma fs_write_calm name b m :
  m !! name ≠ Some Special → fs_write name b (mkWorld m []) = (Ok tt, mkWorld (<[name := Regular b]> m) []).
Proof.
  intros Hsp. unfold fs_write, fs_create. rewrite fs_bind_eq, syscall_calm. unfold fs_write_all, append_bytes.
  cbn. destruct (m !! name) as [[c|]|]; try done; by rewrite lookup_insert_eq, insert_insert_eq.
Qed.

Lemma read_to_string_calm m name text :
  m !! name = Some (Regular text) → utf8_valid text = true →
  fs_read_to_string name (mkWorld m []) = (Ok text, mkWorld m []).
Proof.
  intros Hm Hu. unfold fs_read_to_string, fs_read. rewrite fs_bind_eq, syscall_calm. simpl. rewrite Hm.
  simpl. by rewrite Hu.
Qed.

Lemma token_text_calm m name text :
  m !! name = Some (Regular text) → plain_text text →
  token_text name (mkWorld m []) = (Ok text, mkWorld m []).
Proof.
  intros Hm Hp.
  assert (Hs : fs_stat name (mkWorld m []) = (Ok (Regular text), mkWorld m [])).
  { unfold fs_stat. rewrite syscall_calm. simpl. by rewrite Hm. }
  assert (He : fs_exists name (mkWorld m []) = (Ok true, mkWorld m [])).
  { unfold fs_exists. rewrite fs_bind_eq. unfold fs_try. by rewrite Hs. }
  assert (Hi : fs_is_file name (mkWorld m []) = (Ok true, mkWorld m [])).
  { unfold fs_is_file. rewrite fs_bind_eq. unfold fs_try. by rewrite Hs. }
  unfold token_text. rewrite fs_bind_eq, He, Hi. cbn [answered_yes].
  rewrite (read_to_string_calm _ _ _ Hm) by by apply plain_utf8. simpl. by rewrite trim_plain.
Qed.

(** What [delegate] writes, [verify] accepts: with working storage, a token written to a file
    verifies against the line of the signer's public key, from a minute before it was minted
    until it expires, and what is shown are the grants that were asked for. *)
Theorem delegate_verify_roundtrip from to_ actions resources ttl kid kf out output d s m m' lines keys_path now :
  let run := delegate_run (λ _, "") from to_ actions resources ttl kid kf (Some out) output d in
  load_signer kid kf output (md_key d) (md_key_uuid d) (mkWorld m []) = (Ok (s, []), mkWorld m []) →
  run (mkWorld m []) = (Ok lines, mkWorld m' []) →
  m !! out ≠ Some Special → m' !! keys_path = Some (Regular (key_line s +:+ String newline "")) →
  (∀ token, m' !! out = Some (Regular token) → len token ≤ MAX_DELEGATION_TOKEN_BYTES) →
  listable (Delegation.key_id s) → Forall (λ x, is_blank x = false) [from; to_; md_jti d] →
  0 < ttl → 0 ≤ md_now d → md_now d + ttl ≤ i64_max → in_i64 now → md_now d - 60 ≤ now < md_now d + ttl →
  verify_token out keys_path now (mkWorld m' []) =
    (Ok (minted_claims (md_now d) (md_jti d) from to_ AUDIENCE actions resources (mkDelegationConfig ttl)),
     mkWorld m' []).
Proof.
  intros run Hload Hrun Hsp Hkeys Hlen Hkid Hnames Httl Hn0 Hmax Hnow Hwin.
  unfold run, delegate_run, mint_token in Hrun. rewrite Hload in Hrun. cbn [mbind result_bind] in Hrun.
  rewrite Z.max_l in Hrun by lia.
  destruct (mint s (md_now d) (md_jti d) from to_ AUDIENCE actions resources (mkDelegationConfig ttl))
    as [t|e] eqn:Hmint; [|done]. cbn [map_err mbind result_bind] in Hrun.
  rewrite fs_write_calm in Hrun by done. injection Hrun as _ <-.
  pose proof (jws_plain _ _ _ _ _ _ _ _ _ _ Hmint) as Hplain.
  destruct (key_line_adds s Hkid) as (v & Hv & Hvk & Hskew).
  destruct (minted_accepted s v (md_now d) now (md_jti d) from to_ AUDIENCE actions resources
              (mkDelegationConfig ttl) t Hvk Hmint) as [Hclaims Hver].
  - rewrite !Forall_cons in *. destruct Hkid as (Hne & Hp & _). destruct Hnames as (? & ? & ? & _).
    split_and!; try done. destruct (Delegation.key_id s) as [|c k] eqn:Hk; [done|].
    unfold plain_text in Hp. simpl in Hp. apply andb_true_iff in Hp as [Hc _].
    apply (is_blank_plain c); [done|]. simpl. by rewrite bool_decide_eq_true_2.
  - apply Hlen, lookup_insert_eq.
  - unfold usable. rewrite Hskew. simpl. by split_and!; try lia.
  - unfold verify_token. rewrite (token_text_calm _ _ _ (lookup_insert_eq _ _ _) Hplain).
    pose proof Hver as Hver'. unfold verify in Hver'. apply bind_Ok in Hver' as (p & -> & _).
    cbn [map_err]. rewrite (read_to_string_calm _ _ _ Hkeys).
    + cbn [map_err mbind result_bind]. rewrite Hv. cbn [mbind result_bind]. rewrite Hver.
      cbn [map_err mbind result_bind v_claims]. by rewrite Hclaims.
    + assert (plain_text (key_line s)) as Hl.
      { destruct Hkid as (_ & Hp & _). repeat apply plain_app; try done. apply std_encode_plain. }
      clear -Hl. unfold plain_text in Hl. induction (key_line s) as [|c k IH]; [done|].
      simpl in Hl. apply andb_true_iff in Hl as [Hc Hk]. unfold plain in Hc.
      apply andb_true_iff in Hc as [_ Hc]. apply Nat.leb_le in Hc. simpl.
      destruct (Nat.ltb_spec (nat_of_ascii c) 128); [auto|lia].
Qed.

(** A signer file that is the padded base64 text of a key and no more is refused: the text
    after the first [=], which is the padding, is taken for the key. *)
Lemma padded_key_refused path hint m body blank :
  m !! path = Some (Regular (body +:+ String "=" blank)) → str_contains "=" body = false →
  is_blank blank = true → utf8_valid (body +:+ String "=" blank) = true →
  load_signer_from_file path hint (mkWorld m []) = (Err ["signer payload is empty"], mkWorld m []).
Proof.
  intros Hm Hb Hblank Hu. unfold load_signer_from_file. rewrite (read_to_string_calm _ _ _ Hm Hu).
  cbn [map_err mbind result_bind]. unfold signer_payload. rewrite split_at_char_app by done.
  assert (str_drop 1 (String "=" blank) = blank) as ->.
  { unfold str_drop. simpl. apply substring_short. lia. }
  unfold is_blank in Hblank. apply bool_decide_eq_true in Hblank. by rewrite Hblank.
Qed.
End promises.
