(* ===== verification/CliPolicy.v ===== *)
(** * The policy commands ([agentguard-cli/src/commands/]: [init.rs], [validate.rs],
    [schema.rs], [doctor.rs])

    They work on a policy store, which is a directory tree; [doctor] also on the directory
    of the audit log. *)

From S2P Require Import Prelude Json CoreError AuthKeys AuthError Crypto Trace Request DecisionRecord HashChain Canonical AuditFs AuditLog ApiKey Cache Engine Text PolicyStore ChainSecret Formatter CliKeys CliAudit CliDelegate.

(** The file system around a store; [pv_canon] is [std::fs::canonicalize]. *)
Record store_env : Type := mkStoreEnv {
  pv_tree : tree;
  pv_io : string → option string;
  pv_utf8 : bytes → string;
  pv_walk : list (result string string);
  pv_canon : string → result string string;
}.

(** ** [init] *)

Definition is_alnum (c : ascii) : bool :=
  let n := nat_of_ascii c in
  ((48 <=? n) && (n <=? 57) || (65 <=? n) && (n <=? 90) || (97 <=? n) && (n <=? 122))%nat.
Definition is_ascii_punctuation (c : ascii) : bool :=
  let n := nat_of_ascii c in
  ((33 <=? n) && (n <=? 47) || (58 <=? n) && (n <=? 64) || (91 <=? n) && (n <=? 96)
   || (123 <=? n) && (n <=? 126))%nat.

Definition org_char (c : ascii) : bool :=
  is_alnum c || bool_decide (c ∈ ["-"; "_"; "."; " "]%char)
  || is_ascii_punctuation c && negb (bool_decide (c = quote_char)) && negb (bool_decide (c = backslash)).

(** The first character that is not allowed, as the text of its bytes. *)
Fixpoint first_unsafe (s : string) : option string :=
  match s with
  | EmptyString => None
  | String c rest => if org_char c then first_unsafe rest else Some s
  end.

(** ** [doctor] *)

Inductive CheckStatus : Type := CheckOk | CheckWarn (msg : string) | CheckFail (msg : string).

Definition symbol (s : CheckStatus) : string :=
  match s with CheckOk => "✓" | CheckWarn _ => "!" | CheckFail _ => "✗" end.

Record DoctorReport : Type := mkDoctorReport { checks : list (string * CheckStatus) }.

Definition has_failures (r : DoctorReport) : bool :=
  existsb (λ c, match c.2 with CheckFail _ => true | _ => false end) (checks r).
Definition has_warnings (r : DoctorReport) : bool :=
  existsb (λ c, match c.2 with CheckWarn _ => true | _ => false end) (checks r).

Definition coloured (code text : string) : string :=
  String (ascii_of_nat 27) ("[" +:+ code +:+ "m") +:+ text +:+ String (ascii_of_nat 27) "[0m".
Definition report_lines (r : DoctorReport) : list string :=
  (λ '(name, status),
     match status with
     | CheckOk => "  " +:+ coloured "32" (symbol status) +:+ " " +:+ name
     | CheckWarn msg => "  " +:+ coloured "33" (symbol status) +:+ " " +:+ name +:+ ": " +:+ msg
     | CheckFail msg => "  " +:+ coloured "31" (symbol status) +:+ " " +:+ name +:+ ": " +:+ msg
     end) <$> checks r.

(** [OpenOptions::new().append(true).open(path)] *)
Definition fs_append_existing (name : string) : fs unit :=
  syscall (λ m, (match m !! name with Some _ => Ok tt | None => Err NotFound end, m)).

Definition io_status {A} (r : result IoError A) : CheckStatus :=
  match r with Ok _ => CheckOk | Err e => CheckFail (io_display e) end.

(** The second branch is [create_dir_all] of the parent, which only the empty path lacks. *)
Definition audit_check (audit : string) (w : world) : CheckStatus * world :=
  let '(there, w) := fs_exists audit w in
  if answered_yes there then let '(r, w) := fs_append_existing audit w in (io_status r, w)
  else if bool_decide (audit = "") then (CheckOk, w)
  else let '(r, w) := fs_sync w in (io_status r, w).

Section chain_check.
Context (dir : string) `{JsonText, Hex, Hmac, UuidText, JsonScalars, RecordCodec, Base64Std}.

Definition chain_check (audit : string) (chain_secret : option string) (fresh : ChainId) (w : world) :
    CheckStatus * world :=
  match chain_secret with
  | Some secret_path =>
      match fs_read secret_path w with
      | (Ok key, w) =>
          match decode_chain_secret key with
          | Some key_bytes =>
              let '(r, w) := log_verify_chain dir audit key_bytes fresh w in
              (match r with Ok _ => CheckOk | Err e => CheckFail (error_display e) end, w)
          | None => (CheckWarn ("secret file " +:+ secret_path +:+ " is empty"), w)
          end
      | (Err _, w) => (CheckWarn ("cannot read secret file " +:+ secret_path), w)
      end
  | None => (CheckWarn "no chain secret configured (AGENTGUARD_CHAIN_SECRET unset)", w)
  end.
End chain_check.

Section policy.
Context `{CedarStore, !Lru bytes (CachedDecision * Z)}.
(** [{:?}] of the first character of a text, and [schemas/starter.cedarschema] *)
Context (debug_char : string → string) (starter : string).

Definition sanitize_org_name (name : string) : result anyhow string :=
  _ ← bail_if (bool_decide (name = "")) ["--name cannot be empty"];
  _ ← bail_if (64 <? len name) ["--name is too long (max 64 chars)"];
  match first_unsafe name with
  | Some s => Err ["--name contains an unsafe character " +:+ debug_char s
                   +:+ "; allowed: ASCII alphanumeric, '-', '_', '.', ' ', and basic punctuation except quotes and backslashes"]
  | None => Ok name
  end.

Definition text_lines (l : list string) : string := concat_bytes (ln <$> l).

Definition admin_lines : list string :=
  ["// SECURITY: This policy grants the `User::" +:+ quoted "admin" +:+ "` principal ANY";
   "// action on ANY resource. It is a development default only;";
   "// replace this file before deploying to production.";
   "permit ("; "  principal in User::" +:+ quoted "admin" +:+ ","; "  action,"; "  resource"; ");"].
Definition admin_policy (name : string) : string :=
  text_lines (("// Auto-generated by `agentguard init` for org `" +:+ name +:+ "`.") :: admin_lines).

Definition agents_policy : string := text_lines
  ["// AI agents can invoke any declared ToolCall action.";
   "// SECURITY: This is a development default that grants every agent";
   "// unrestricted tool access. Tighten with `when { ... }` clauses";
   "// before deploying."; "permit ("; "  principal is Agent,"; "  action,"; "  resource"; ");"].

(** [init_store] of [agentguard-core/src/policy/init.rs] *)
Definition init_store (root : string) (t : tree) (io : string → option string) : cresult unit * tree :=
  match policy_store_open root t io with
  | (Err e, t) => (Err e, t)
  | (Ok store, t) => write_schema store starter t io
  end.

(** The lines on standard output; the tree is changed also when a later step fails. *)
Definition init_run (root name : string) (e : store_env) : result anyhow (list string) * tree :=
  let io := pv_io e in
  match sanitize_org_name name with
  | Err err => (Err err, pv_tree e)
  | Ok name =>
      match init_store root (pv_tree e) io with
      | (Err err, t) => (Err (core_chain err), t)
      | (Ok _, t) =>
          match policy_store_open root t io with
          | (Err err, t) => (Err (core_chain err), t)
          | (Ok store, t) =>
              match write_policy store "10_admin" (admin_policy name) t (pv_canon e) io with
              | (Err err, t) => (Err (core_chain err), t)
              | (Ok _, t) =>
                  match write_policy store "20_agents" agents_policy t (pv_canon e) io with
                  | (Err err, t) => (Err (core_chain err), t)
                  | (Ok _, t) =>
                      (Ok ["Initialized agentguard store at " +:+ store_root store;
                           "  schema: " +:+ schema_path store; "  policies: " +:+ policies_dir store;
                           "Try:"; "  agentguard validate"], t)
                  end
              end
          end
      end
  end.

(** ** [validate] and [schema] *)

(** The lines, and whether the process then exits with 1. *)
Definition validate_run (root : string) (e : store_env) : result anyhow (list string * bool) * tree :=
  match policy_store_open root (pv_tree e) (pv_io e) with
  | (Err err, t) => (Err (core_chain err), t)
  | (Ok store, t) =>
      (report ← map_err core_chain (validate t (pv_io e) (pv_utf8 e) store (pv_walk e));
       let issue kind (i : ValidationIssue) := kind +:+ issue_policy i +:+ ": " +:+ message i in
       Ok (["Loaded " +:+ pretty (report_policy_count report) +:+ " policies."]
           ++ (match errors report, warnings report with [], [] => ["✓ no errors, no warnings"] | _, _ => [] end)
           ++ (issue "  warn  " <$> warnings report) ++ (issue "  ERR   " <$> errors report),
           negb (report_is_ok report)), t)
  end.

Definition schema_run (pretty_summary : SchemaSummary → string) (root output : string) (e : store_env) :
    result anyhow (list string) * tree :=
  match policy_store_open root (pv_tree e) (pv_io e) with
  | (Err err, t) => (Err (core_chain err), t)
  | (Ok store, t) =>
      (loaded ← map_err core_chain (load_schema t (pv_io e) (pv_utf8 e) store);
       match loaded with
       | Some (_, source) =>
           summary ← map_err core_chain (describe source);
           Ok (if bool_decide (output = "json") then [pretty_summary summary]
               else ["entity types:"]
                    ++ concat ((λ d, ("  " +:+ def_name d)
                         :: ((λ a, "    " +:+ (if attr_required a then "*" else "?") +:+ attr_name a +:+ ": "
                                   +:+ attr_ty a) <$> def_attributes d)) <$> sum_entities summary)
                    ++ ["actions:"]
                    ++ ((λ d, "  Action::" +:+ quoted (def_name d)) <$> sum_actions summary))
       | None => Ok ["no schema found at " +:+ schema_path store]
       end, t)
  end.

(** [doctor::run]: the report, the tree and the directory of the log. *)
Section doctor.
Context (dir : string) `{JsonText, Hex, Hmac, UuidText, !JsonScalars, RecordCodec, Base64Std}.

Definition schema_check (t : tree) (e : store_env) (store : PolicyStore) : CheckStatus :=
  match load_schema t (pv_io e) (pv_utf8 e) store with
  | Ok (Some _) => CheckOk
  | _ => CheckWarn "no schema.cedarschema at store root"
  end.

Definition policies_status (r : ValidationReport) : CheckStatus :=
  if report_is_ok r then CheckOk else CheckFail (join "; " (message <$> errors r)).

Definition doctor_run (root audit : string) (chain_secret : option string) (fresh : ChainId)
    (e : store_env) (w : world) : DoctorReport * tree * world :=
  match policy_store_open root (pv_tree e) (pv_io e) with
  | (Err err, t) => (mkDoctorReport [("schema", CheckFail (error_display err))], t, w)
  | (Ok store, t) =>
      let schema := ("schema", schema_check t e store) in
      match validate t (pv_io e) (pv_utf8 e) store (pv_walk e) with
      | Err err => (mkDoctorReport [schema; ("policies", CheckFail (error_display err))], t, w)
      | Ok validation =>
          let '(log_status, w) := audit_check audit w in
          let '(chain_status, w) := chain_check dir audit chain_secret fresh w in
          let engine := match authorizer_new t (pv_io e) (pv_utf8 e) store (pv_walk e) with
                        | Ok _ => CheckOk
                        | Err err => CheckFail (error_display err)
                        end in
          (mkDoctorReport [schema; ("policies", policies_status validation); ("audit log", log_status);
                           ("hash chain", chain_status); ("authorizer", engine)], t, w)
      end
  end.
End doctor.
End policy.

(** ** Names of organisations *)

Section names.
Context (debug_char : string → string).

Lemma first_unsafe_None s :
  first_unsafe s = None ↔ forallb org_char (String.list_ascii_of_string s) = true.
Proof. induction s as [|c s IH]; [done|]. simpl. destruct (org_char c); simpl; [done|]. by split. Qed.

Lemma sanitize_org_name_Ok name n :
  sanitize_org_name debug_char name = Ok n ↔
  n = name ∧ name ≠ "" ∧ len name ≤ 64 ∧ forallb org_char (String.list_ascii_of_string name) = true.
Proof.
  unfold sanitize_org_name. rewrite <-first_unsafe_None. split.
  - intros (u & Hu & (u' & Hu' & Hn)%bind_Ok)%bind_Ok. apply bail_if_Ok in Hu, Hu'. bool_inv.
    destruct (first_unsafe name); [done|]. injection Hn as <-. split_and!; [done|done|lia|done].
  - intros (-> & Hne & Hlen & Hc). rewrite (bail_if_pass (bool_decide _)) by by apply bool_decide_eq_false. simpl.
    rewrite bail_if_pass by (apply Z.ltb_ge; lia). simpl. by rewrite Hc.
Qed.

Lemma org_chars_lack c s :
  org_char c = false → forallb org_char (String.list_ascii_of_string s) = true → str_contains c s = false.
Proof.
  intros Hc Hs. apply not_true_iff_false. rewrite str_contains_elem. intros Hin.
  rewrite forallb_forall in Hs. apply list_elem_of_In, Hs in Hin. congruence.
Qed.

Lemma split_lines_cons l ls :
  str_contains newline l = false → split newline (text_lines (l :: ls)) = l :: split newline (text_lines ls).
Proof.
  intros Hl. unfold text_lines. cbn [fmap list_fmap concat_bytes foldr]. unfold ln at 1.
  rewrite <-string_app_assoc. change (String newline "" +:+ ?x) with (String newline x).
  by rewrite split_separator, (split_none _ l).
Qed.

(** An accepted name stays in the comment it is put in: the policy text differs from one
    name to another in its first line, a comment, and nowhere else. *)
Theorem name_stays_in_comment name n :
  sanitize_org_name debug_char name = Ok n →
  ∃ comment, split newline (admin_policy n) = ("// " +:+ comment) :: split newline (text_lines admin_lines).
Proof.
  intros (-> & _ & _ & Hc)%sanitize_org_name_Ok. eexists. unfold admin_policy.
  rewrite split_lines_cons; [reflexivity|].
  by rewrite !str_contains_app, (org_chars_lack newline name).
Qed.
End names.

(** ** What [init] leaves behind *)

Section init.
Context `{CedarStore, !Lru bytes (CachedDecision * Z)}.
Context (debug_char : string → string) (starter : string).

Definition admin_path (s : PolicyStore) : string := join_path (policies_dir s) "10_admin.cedar".
Definition agents_path (s : PolicyStore) : string := join_path (policies_dir s) "20_agents.cedar".

Lemma path_parts root u v : join_path root u = join_path root v → u = v.
Proof. unfold join_path. intros Heq. apply (inj (String.append root)) in Heq. by injection Heq. Qed.

Lemma under_root root a b : root +:+ String a b ≠ root.
Proof.
  intros Heq. apply (f_equal String.length) in Heq. rewrite string_length_app in Heq. simpl in Heq. lia.
Qed.

Lemma write_policy_tree s name text t canon io path t' :
  write_policy s name text t canon io = (Ok path, t') →
  path = join_path (policies_dir s) (sanitize name +:+ ".cedar") ∧
  t' = <[path := File text]> (<[policies_dir s := Directory]> t).
Proof.
  unfold write_policy. destruct (bool_decide (sanitize name = "") || _); [done|].
  destruct (match canon _ with Ok c => _ | Err _ => _ end); [done|].
  destruct (io (policies_dir s)); [done|]. destruct (io (join_path _ _)); [done|].
  by intros [= <- <-].
Qed.

Lemma open_tree root t io s t' :
  policy_store_open root t io = (Ok s, t') →
  s = mkPolicyStore root ∧ t' !! root ≠ None ∧
  ∀ q, q ≠ root → q ≠ policies_dir s → t' !! q = t !! q.
Proof.
  unfold policy_store_open. case_bool_decide as Hroot.
  - destruct (io _); [done|]. intros [= <- <-]. split_and!; [done| |].
    + rewrite lookup_insert_ne by apply under_root. by rewrite lookup_insert_eq.
    + intros q Hq Hd. by rewrite !lookup_insert_ne.
  - by intros [= <- <-].
Qed.

(** After [init] the store holds the starter schema and the two default policies, whatever
    was in it before; the files of other names are as they were. *)
Theorem init_installs root name e out t' :
  init_run debug_char starter root name e = (Ok out, t') →
  let s := mkPolicyStore root in
  t' !! schema_path s = Some (File starter) ∧
  t' !! admin_path s = Some (File (admin_policy name)) ∧
  t' !! agents_path s = Some (File agents_policy) ∧ t' !! policies_dir s = Some Directory ∧
  ∀ q, q ∉ [root; policies_dir s; schema_path s; admin_path s; agents_path s] → t' !! q = pv_tree e !! q.
Proof.
  intros Hrun s. revert Hrun. unfold init_run, init_store, write_schema.
  destruct (sanitize_org_name debug_char name) as [n|] eqn:Hn; [|done].
  apply sanitize_org_name_Ok in Hn as (-> & _).
  destruct (policy_store_open root (pv_tree e) (pv_io e)) as [[s0|] t0] eqn:Ho; [|done].
  apply open_tree in Ho as (-> & Hr0 & Hk0). destruct (pv_io e (schema_path _)); [done|].
  destruct (policy_store_open root (<[schema_path _:=_]> t0) (pv_io e)) as [[s1|] t1] eqn:Ho1; [|done].
  apply open_tree in Ho1 as (-> & Hr1 & Hk1).
  destruct (write_policy _ "10_admin" _ t1 _ _) as [[p1|] t2] eqn:Hw1; [|done].
  apply write_policy_tree in Hw1 as [-> ->].
  destruct (write_policy _ "20_agents" _ _ _ _) as [[p2|] t3] eqn:Hw2; [|done].
  apply write_policy_tree in Hw2 as [-> ->]. intros [= _ <-].
  change (join_path (policies_dir (mkPolicyStore root)) (sanitize "10_admin" +:+ ".cedar")) with (admin_path s).
  change (join_path (policies_dir (mkPolicyStore root)) (sanitize "20_agents" +:+ ".cedar")) with (agents_path s).
  fold s in Hk0, Hk1 |- *.
  assert (Hsd : schema_path s ≠ policies_dir s) by (by intros ?%path_parts).
  assert (Hsa : schema_path s ≠ admin_path s ∧ schema_path s ≠ agents_path s).
  { split; unfold admin_path, agents_path, policies_dir, schema_path, join_path; rewrite <-!string_app_assoc;
      intros Heq; by apply (inj (String.append (store_root s))) in Heq. }
  assert (Haa : admin_path s ≠ agents_path s) by (by intros ?%path_parts).
  assert (Hda : policies_dir s ≠ admin_path s ∧ policies_dir s ≠ agents_path s).
  { split; intros Heq; symmetry in Heq; by apply under_root in Heq. }
  assert (Hsr : schema_path s ≠ root) by apply under_root.
  destruct Hsa as [Hsa Hsg], Hda as [Hda Hdg]. split_and!.
  - rewrite !lookup_insert_ne by done. rewrite Hk1 by done. by rewrite lookup_insert_eq.
  - rewrite 2!lookup_insert_ne by done. by rewrite lookup_insert_eq.
  - by rewrite lookup_insert_eq.
  - rewrite lookup_insert_ne by done. by rewrite lookup_insert_eq.
  - intros q Hq. rewrite !not_elem_of_cons in Hq. destruct Hq as (? & ? & ? & ? & ? & _).
    rewrite !lookup_insert_ne by done. rewrite Hk1 by done. rewrite lookup_insert_ne by done. by apply Hk0.
Qed.

Lemma list_ascii_app s t :
  String.list_ascii_of_string (s +:+ t) = String.list_ascii_of_string s ++ String.list_ascii_of_string t.
Proof. induction s as [|c s IH]; [done|]. simpl. by rewrite IH. Qed.

Lemma ascii_utf8 s :
  forallb (λ c, nat_of_ascii c <? 128)%nat (String.list_ascii_of_string s) = true → utf8_valid s = true.
Proof.
  induction s as [|c s IH]; [done|]. simpl. rewrite andb_true_iff. intros [Hc Hs]. rewrite Hc. auto.
Qed.

Lemma org_char_ascii c : org_char c = true → (nat_of_ascii c <? 128)%nat = true.
Proof. destruct c as [[] [] [] [] [] [] [] []]; vm_compute; congruence. Qed.

Lemma admin_policy_fits name n :
  sanitize_org_name debug_char name = Ok n →
  utf8_valid (admin_policy name) = true ∧ len (admin_policy name) ≤ 1000.
Proof.
  intros (-> & _ & Hlen & Hc)%sanitize_org_name_Ok.
  unfold admin_policy, text_lines. cbn [fmap list_fmap concat_bytes foldr]. unfold ln at 1.
  set (rest := foldr _ _ _). assert (Hr : rest = foldr String.append "" (ln <$> admin_lines)) by done.
  clearbody rest. subst rest. split.
  - apply ascii_utf8. rewrite <-!string_app_assoc. rewrite !list_ascii_app, !forallb_app, !andb_true_iff.
    split_and!; try done. revert Hc. generalize (String.list_ascii_of_string name).
    intros l. rewrite !forallb_forall. auto using org_char_ascii.
  - unfold len in *. unfold ln at 1. rewrite !string_length_app.
    assert (Hrest : (String.length (foldr String.append "" (ln <$> admin_lines)) <=? 500)%nat = true)
      by reflexivity.
    apply Nat.leb_le in Hrest. cbn [String.length] in *. lia.
Qed.

Lemma cedar_path dir stem :
  stem ≠ "" → str_contains "/" (stem +:+ ".cedar") = false →
  split "/"%char (join_path dir (stem +:+ ".cedar")) = split "/"%char dir ++ [stem +:+ ".cedar"] ∧
  path_extension (join_path dir (stem +:+ ".cedar")) = Some "cedar".
Proof.
  intros Hne Hs.
  assert (Hsplit : split "/"%char (join_path dir (stem +:+ ".cedar")) = split "/"%char dir ++ [stem +:+ ".cedar"]).
  { unfold join_path. change (dir +:+ "/" +:+ stem +:+ ".cedar") with (dir +:+ String "/" (stem +:+ ".cedar")).
    by rewrite split_separator, (split_none _ (_ +:+ _)). }
  split; [done|]. unfold path_extension, file_name. rewrite Hsplit, last_snoc. by apply cedar_extension.
Qed.

Lemma components_leb_same dir u v : components_leb (dir ++ u) (dir ++ v) = components_leb u v.
Proof. induction dir as [|d dir IH]; [done|]. simpl. by rewrite bool_decide_eq_true_2. Qed.

Lemma default_paths s :
  path_extension (admin_path s) = Some "cedar" ∧ path_extension (agents_path s) = Some "cedar" ∧
  path_leb (admin_path s) (agents_path s) = true.
Proof.
  destruct (cedar_path (policies_dir s) "10_admin") as [Ha Hea]; [done..|].
  destruct (cedar_path (policies_dir s) "20_agents") as [Hg Heg]; [done..|].
  split_and!; [done..|]. unfold path_leb, admin_path, agents_path. simpl in Ha, Hg.
  by rewrite Ha, Hg, components_leb_same.
Qed.

Lemma merge_sort_pair a b : source_le a b → merge_sort source_le [a; b] = [a; b].
Proof. intros Hab. unfold merge_sort. cbn. by rewrite decide_True. Qed.

(** A store that [init] filled loads: with no storage errors and Cedar accepting the three
    texts, the policies found by any walk over the two files are the two defaults, and the
    schema is the starter. *)
Theorem init_loads root name e out t' walk utf8_error sch :
  init_run debug_char starter root name e = (Ok out, t') →
  let s := mkPolicyStore root in let io := λ _ : string, None in
  walk ∈ [[admin_path s; agents_path s]; [agents_path s; admin_path s]] →
  schema_from_str starter = Ok sch → utf8_valid starter = true → len starter ≤ MAX_SCHEMA_BYTES →
  load_schema t' io utf8_error s = Ok (Some (sch, starter)) ∧
  load_policies t' io utf8_error s (walked walk)
  = (set ← merge_sources policy_set_new [mkPolicySource (admin_path s) (admin_policy name);
                                         mkPolicySource (agents_path s) agents_policy];
     Ok (set, [mkPolicySource (admin_path s) (admin_policy name); mkPolicySource (agents_path s) agents_policy])).
Proof.
  intros Hrun s io Hwalk Hsch Hu Hlen.
  assert (Hname : ∃ n, sanitize_org_name debug_char name = Ok n).
  { unfold init_run in Hrun. destruct (sanitize_org_name debug_char name); by eauto. }
  destruct Hname as [n [Hau Hal]%admin_policy_fits].
  destruct (init_installs _ _ _ _ _ Hrun) as (Hs & Ha & Hg & Hd & _). fold s in Hs, Ha, Hg, Hd.
  assert (Hgl : len agents_policy ≤ 1000) by (vm_compute; congruence). split.
  { unfold load_schema, read_bounded_text, read_file. rewrite bool_decide_eq_false_2 by by rewrite Hs.
    rewrite Hs. simpl. unfold len in *. rewrite substring_short by (unfold MAX_SCHEMA_BYTES in *; lia).
    rewrite (bail_if_pass (MAX_SCHEMA_BYTES <? _)) by (apply Z.ltb_ge; lia). simpl. rewrite Hu. simpl.
    by rewrite Hsch. }
  destruct (default_paths s) as (Hea & Heg & Hle). set (s1 := mkPolicySource (admin_path s) _).
  set (s2 := mkPolicySource (agents_path s) _).
  assert (Hs1 : source_of t' (admin_path s) = s1) by (unfold source_of, file_text; by rewrite Ha).
  assert (Hs2 : source_of t' (agents_path s) = s2) by (unfold source_of, file_text; by rewrite Hg).
  assert (Hpf : policy_files t' [admin_path s; agents_path s] = [s1; s2]).
  { unfold policy_files, is_policy_file. simpl. rewrite Ha, Hg, !bool_decide_eq_true_2 by done.
    simpl. by rewrite Hs1, Hs2. }
  assert (Hpw : [admin_path s; agents_path s] ≡ₚ walk).
  { apply elem_of_cons in Hwalk as [->|[-> | []%not_elem_of_nil]%elem_of_cons]; [done|]. apply Permutation_swap. }
  assert (Hl : loadable t' io walk).
  { apply (loadable_perm _ _ _ _ Hpw). split; rewrite ?Hpf; [done|done| |].
    - unfold total_size, MAX_TOTAL_POLICY_BYTES. simpl. lia.
    - repeat constructor; try done. simpl. unfold MAX_POLICY_FILE_BYTES. lia. }
  unfold load_policies. rewrite bool_decide_eq_false_2.
  - assert (load_entries t' io utf8_error (mkLoadState 0 0 0 []) (walked walk) = Ok (state_of t' walk)) as ->.
    { apply (load_entries_spec t' io utf8_error []); [apply loadable_nil|]. eauto. }
    cbn [mbind result_bind state_of sources].
    rewrite <-(sort_sources_perm [s1; s2]), merge_sort_pair; [done|done| |].
    + apply NoDup_cons_2; [|apply NoDup_singleton]. rewrite list_elem_of_singleton. by intros ?%path_parts.
    + rewrite <-Hpf. by apply policy_files_perm.
  - by rewrite Hd.
Qed.
End init.

(** ** What a diagnosis means *)

Section diagnosis.
Context `{CedarStore, !Lru bytes (CachedDecision * Z)}.
Context (dir : string) `{JsonText, Hex, Hmac, UuidText, !JsonScalars, RecordCodec, Base64Std}.

Lemma validated_loads t io utf8 s walk v :
  validate t io utf8 s walk = Ok v → is_ok (authorizer_new t io utf8 s walk) = true.
Proof.
  unfold validate, authorizer_new. intros ([set srcs] & -> & (schema & -> & _)%bind_Ok)%bind_Ok. done.
Qed.

(** A diagnosis without failures means what it says: the store opened, its policies parse one
    by one, load and validate, an authorizer can be built from them, the audit log could be
    opened when it is there, and the hash chain verified under the configured secret. *)
Theorem doctor_sound root audit secret fresh e w r t w' :
  doctor_run dir root audit secret fresh e w = (r, t, w') → has_failures r = false →
  ∃ s v a, policy_store_open root (pv_tree e) (pv_io e) = (Ok s, t) ∧
    validate t (pv_io e) (pv_utf8 e) s (pv_walk e) = Ok v ∧ errors v = [] ∧
    authorizer_new t (pv_io e) (pv_utf8 e) s (pv_walk e) = Ok a ∧
    (∀ w1, fs_exists audit w = (Ok true, w1) → (fs_append_existing audit w1).1 = Ok tt) ∧
    (∀ p key w2 b, secret = Some p → fs_read p (audit_check audit w).2 = (Ok key, w2) →
       decode_chain_secret key = Some b → ∃ id, log_verify_chain dir audit b fresh w2 = (Ok id, w')).
Proof.
  unfold doctor_run. destruct (policy_store_open _ _ _) as [[s|err] t0]; [|by intros [= <- <- <-]].
  destruct (validate _ _ _ _ _) as [v|err] eqn:Hv; [|intros [= <- <- <-]; unfold has_failures; simpl; by case_match].
  destruct (audit_check audit w) as [st1 w1] eqn:Ha. destruct (chain_check dir audit secret fresh w1) as [st2 w2] eqn:Hc.
  pose proof (validated_loads _ _ _ _ _ _ Hv) as Hauth.
  destruct (authorizer_new t0 _ _ s _) as [a|] eqn:Hn; [|done].
  intros [= <- <- <-]. unfold has_failures. simpl. rewrite !orb_false_iff. intros (_ & Hp & Hst1 & Hst2 & _).
  exists s, v, a. split_and!; try done.
  - unfold policies_status, report_is_ok in Hp. case_bool_decide as Hl; [|done]. by destruct (errors v).
  - intros u1 Hex. unfold audit_check in Ha. rewrite Hex in Ha. simpl in Ha.
    destruct (fs_append_existing audit u1) as [[[]|er] u3]; [done|]. by injection Ha as <- <-.
  - intros p key u2 b -> Hr Hb. unfold chain_check in Hc. simpl in Hr. rewrite Hr, Hb in Hc.
    destruct (log_verify_chain dir audit b fresh u2) as [[id|er] u3]; injection Hc as <- <-; [by eauto|done].
Qed.

(** A deployment whose log has no record yet is diagnosed as broken once a chain secret is
    configured: the log is fine, as its directory is there, and its chain is not, as the file
    is missing. *)
Lemma doctor_fails_fresh audit p key b fresh m :
  audit ≠ "" → m !! audit = None → m !! p = Some (Regular key) → decode_chain_secret key = Some b →
  no_rotations audit m →
  audit_check audit (mkWorld m []) = (CheckOk, mkWorld m []) ∧
  ∃ msg, chain_check dir audit (Some p) fresh (mkWorld m []) = (CheckFail msg, mkWorld m []).
Proof.
  intros Hne Hm Hp Hb Hno.
  assert (Hstat : fs_stat audit (mkWorld m []) = (Err NotFound, mkWorld m [])).
  { unfold fs_stat. rewrite syscall_calm. simpl. by rewrite Hm. }
  assert (Hread : fs_read p (mkWorld m []) = (Ok key, mkWorld m [])).
  { unfold fs_read. rewrite syscall_calm. simpl. by rewrite Hp. }
  split.
  - unfold audit_check, fs_exists, fs_try. rewrite fs_bind_eq, Hstat. cbn [mret fs_ret is_ok answered_yes].
    rewrite bool_decide_eq_false_2 by done. by rewrite fs_sync_calm.
  - unfold chain_check. rewrite Hread, Hb. unfold log_verify_chain, verify_chain_paths.
    rewrite logm_bind_eq, (lift_Ok _ _ _ _ (rotated_logs_none _ _ Hno)).
    cbn [app verify_files]. unfold open_existing_audit_file, validate_audit_path, fs_try.
    rewrite !logm_bind_eq. unfold lift, lift_with. rewrite !fs_bind_eq, Hstat.
    assert (Hnone : fs_read audit (mkWorld m []) = (Err NotFound, mkWorld m [])).
    { unfold fs_read. rewrite syscall_calm. simpl. by rewrite Hm. }
    cbn [mret fs_ret]. rewrite fs_bind_eq, Hnone. by eexists.
Qed.

(** A link or a device in the place of the log passes, though the log refuses to open it. *)
Lemma doctor_accepts_special audit m rot fresh uuid :
  m !! audit = Some Special →
  audit_check audit (mkWorld m []) = (CheckOk, mkWorld m []) ∧
  ∃ e, (open_internal dir audit None rot fresh uuid (mkWorld m [])).1 = Err e.
Proof.
  intros Hm.
  assert (Hstat : fs_stat audit (mkWorld m []) = (Ok Special, mkWorld m [])).
  { unfold fs_stat. rewrite syscall_calm. simpl. by rewrite Hm. }
  split.
  - unfold audit_check, fs_exists, fs_try. rewrite fs_bind_eq, Hstat.
    cbn [mret fs_ret is_ok answered_yes]. unfold fs_append_existing. rewrite syscall_calm. simpl. by rewrite Hm.
  - unfold open_internal, open_audit_file, validate_audit_path, fs_try.
    rewrite logm_bind_eq, (lift_Ok _ _ _ _ (fs_sync_calm m)). rewrite logm_bind_eq. unfold lift, lift_with.
    rewrite !fs_bind_eq, Hstat. simpl. by eexists.
Qed.
End diagnosis.
