(* ===== verification/CliGen.v ===== *)
(** * Generated policies ([agentguard-cli/src/commands/gen.rs])

    A language model is asked for policies, and what it answers is parsed, validated and
    written to the store.  The model is an argument: what each attempt to send a request
    gives. *)

From S2P Require Import Prelude Json CoreError AuthKeys AuthError Crypto Trace Request DecisionRecord HashChain Canonical AuditFs AuditLog ApiKey Cache Engine Text PolicyStore ChainSecret Formatter CliKeys CliAudit CliDelegate CliPolicy.

(** ** The request *)

Record ChatMsg : Type := mkChatMsg { msg_role : string; msg_content : string }.
(** The temperature is the constant [0.0], an [f32]; its 64 bits are all zero. *)
Record GenRequest : Type := mkGenRequest {
  gr_model : string;
  gr_messages : list ChatMsg;
  gr_temperature : Z;
}.

Definition SYSTEM_PROMPT : string := join (String newline "")
  ["You are an expert at writing Cedar authorization policies for AI agent systems."; "";
   "Output ONLY valid Cedar policy syntax. No commentary, no markdown fences."; ""; "Rules:";
   "1. Use `permit` for allow rules and `forbid` for deny rules.";
   "2. Reference entities/types that exist in the provided schema.";
   "3. Reference actions in the form `Action::" +:+ quoted "ToolCall::<tool>" +:+ "`.";
   "4. Use `when { ... }` and `unless { ... }` for conditions.";
   "5. Use `principal in Group::" +:+ quoted "..." +:+ "` or `principal == User::" +:+ quoted "..."
     +:+ "` for principal constraints.";
   "6. Keep policies minimal and composable."; "7. Always output at least one policy."].

Definition user_prompt (schema_text description : string) : string := join (String newline "")
  ["Schema:"; "```cedarschema"; schema_text; "```"; ""; "Requirement:"; description; "";
   "Write 1-3 Cedar policies that implement this requirement."].

Definition gen_body (model schema_text description : string) : GenRequest :=
  mkGenRequest model [mkChatMsg "system" SYSTEM_PROMPT; mkChatMsg "user" (user_prompt schema_text description)] 0.

(** [RequestBuilder::bearer_auth] *)
Definition bearer_auth (token : string) : string * string := ("authorization", "Bearer " +:+ token).

(** The address and the headers; other providers were refused before. *)
Definition gen_target (provider api_key : string) : string * list (string * string) :=
  if bool_decide (provider = "anthropic") then
    ("https://api.anthropic.com/v1/messages",
     [("content-type", "application/json"); ("x-api-key", api_key); ("anthropic-version", "2023-06-01")])
  else
    ("https://api.openai.com/v1/chat/completions",
     [("content-type", "application/json"); bearer_auth ("Bearer " +:+ api_key)]).

(** ** Sending *)

(** A response with its status and its body, or the error of an attempt. *)
Inductive send_outcome : Type :=
| Response (status : Z) (body : result string bytes)
| SendError (is_timeout is_connect : bool) (text : string).

Definition is_success (status : Z) : bool := (200 <=? status) && (status <? 300).
Definition is_server_error (status : Z) : bool := (500 <=? status) && (status <? 600).

(** [attempt += 1] on a [u32], and [250u64 * (1u64 << (attempt - 1))], with the wrap-around of
    a release build. *)
Definition next_attempt (attempt : Z) : Z := (attempt + 1) mod 2 ^ 32.
Definition base_ms (attempt : Z) : Z := u64_wrap (250 * 2 ^ (((attempt - 1) mod 2 ^ 32) mod 64)).

(** [&&] binds tighter than [||]. *)
Definition retried (attempt : Z) (o : send_outcome) : bool :=
  match o with
  | Response status _ => negb (is_success status) && (is_server_error status && (attempt <? 3))
  | SendError is_timeout is_connect _ => is_timeout || is_connect && (attempt <? 3)
  end.

Section sending.
(** [Display] of a status; what the n-th attempt gives *)
Context (show_status : Z → string) (send : nat → send_outcome).

(** How the loop ends with an outcome that it does not retry. *)
Definition loop_exit (attempt : Z) (o : send_outcome) : result anyhow (result string bytes) :=
  match o with
  | Response status body =>
      if is_success status then Ok body
      else Err ["LLM API error " +:+ show_status status +:+ " after " +:+ pretty attempt +:+ " attempts: "
                +:+ default "" (to_ok body)]
  | SendError _ _ text => Err ["LLM request failed after " +:+ pretty attempt +:+ " attempts: " +:+ text]
  end.

(** The response or the error, and the sleeps in milliseconds; [None] when the loop goes on
    after this many attempts. *)
Fixpoint send_loop (fuel n : nat) (attempt : Z) : option (result anyhow (result string bytes) * list Z) :=
  match fuel with
  | O => None
  | S fuel =>
      let attempt := next_attempt attempt in
      if retried attempt (send n) then
        '(r, sleeps) ← send_loop fuel (S n) attempt; Some (r, base_ms attempt :: sleeps)
      else Some (loop_exit attempt (send n), [])
  end.
End sending.

(** ** The answer *)

(** [Value::get] with an index *)
Definition get_index (i : nat) (v : Value) : option Value :=
  match v with VArray items => items !! i | _ => None end.

Definition extract_content (v : Value) (provider : string) : option string :=
  if bool_decide (provider = "openai") then
    v ← get v "choices"; v ← get_index 0 v; v ← get v "message"; v ← get v "content"; as_str v
  else if bool_decide (provider = "anthropic") then
    v ← get v "content"; v ← get_index 0 v; v ← get v "text"; as_str v
  else None.

(** [s.rfind(p)]: the text before the last occurrence. *)
Definition before_last (p s : string) : option string :=
  (λ '(_, rest), str_rev rest) <$> split_once (str_rev p) (str_rev s).

Definition strip_fences (s : string) : string :=
  let s := trim s in
  let fenced p := strip_prefix p s ≫= before_last "```" in
  match fenced "```cedar" with
  | Some body => trim body
  | None => match fenced "```" with Some body => trim body | None => s end
  end.

(** ** The command *)

Record gen_options : Type := mkGenOptions {
  go_description : string;
  go_name : option string;
  go_provider : string;
  go_model : string;
  go_dry_run : bool;
  go_confirm : bool;
}.

(** The environment variables, the model behind the address, and the first byte of standard
    input, if there is one. *)
Record gen_env : Type := mkGenEnv {
  ge_var : string → option string;
  ge_send : string * list (string * string) → GenRequest → nat → send_outcome;
  ge_answer : option ascii;
}.

Section gen.
Context `{CedarStore, !Lru bytes (CachedDecision * Z), JsonText}.
Context (show_status : Z → string) (debug_issues : list (string * string) → string).

Definition api_key_of (provider : string) (var : string → option string) : result anyhow string :=
  if bool_decide (provider = "openai") then ok_or (var "OPENAI_API_KEY") ["set OPENAI_API_KEY env var"]
  else if bool_decide (provider = "anthropic")
  then ok_or (var "ANTHROPIC_API_KEY") ["set ANTHROPIC_API_KEY env var"]
  else Err ["unknown provider: " +:+ provider].

(** [read_to_string(..).unwrap_or_default()] *)
Definition schema_text (t : tree) (io : string → option string) (s : PolicyStore) : string :=
  match read_file t io (schema_path s) with
  | Ok text => if utf8_valid text then text else ""
  | Err _ => ""
  end.

Definition answer_text (provider : string) (body : result string bytes) : result anyhow string :=
  b ← map_err (λ e, [e]) body;
  json ← map_err (λ e, [e]) (json_from_slice b);
  content ← ok_or (extract_content json provider) ["could not parse LLM response: " +:+ json_to_vec json];
  Ok (strip_fences content).

(** The checks on the generated text. *)
Definition accept_generated (t : tree) (e : store_env) (s : PolicyStore) (cleaned : string) :
    result anyhow unit :=
  policies ← map_err (λ err, ["generated policies failed to parse: " +:+ err +:+ String newline "--- generated ---"
                              +:+ String newline cleaned]) (policy_set_from_str cleaned);
  match load_schema t (pv_io e) (pv_utf8 e) s with
  | Ok (Some (schema, _)) =>
      let errs := (validate_strict schema policies).1 in
      bail_if (negb (bool_decide (errs = []))) ["generated policies failed schema validation: " +:+ debug_issues errs]
  | _ => Ok tt
  end.

Definition confirmed (o : gen_options) (answer : option ascii) : bool :=
  negb (go_confirm o) ||
  match answer with Some c => bool_decide (c = "y"%char) || bool_decide (c = "Y"%char) | None => false end.

(** What happens with a text that passed. *)
Definition install_generated (o : gen_options) (g : gen_env) (e : store_env) (s : PolicyStore)
    (cleaned : string) (t : tree) : result anyhow (list string) * tree :=
  let fname := default "generated" (go_name o) in
  if go_dry_run o then
    (Ok ["--- generated policy (dry run, would write to policies/" +:+ fname +:+ ".cedar) ---"; cleaned], t)
  else if confirmed o (ge_answer g) then
    match write_policy s fname cleaned t (pv_canon e) (pv_io e) with
    | (Ok path, t) => (Ok ["wrote " +:+ path; "--- generated policy ---"; cleaned], t)
    | (Err err, t) => (Err (core_chain err), t)
    end
  else (Ok [], t).

(** [None]: still sending after [fuel] attempts. *)
Definition gen_run (fuel : nat) (root : string) (o : gen_options) (g : gen_env) (e : store_env) :
    option (result anyhow (list string) * tree) :=
  match policy_store_open root (pv_tree e) (pv_io e) with
  | (Err err, t) => Some (Err (core_chain err), t)
  | (Ok s, t) =>
      let body := gen_body (go_model o) (schema_text t (pv_io e) s) (go_description o) in
      match api_key_of (go_provider o) (ge_var g) with
      | Err err => Some (Err err, t)
      | Ok api_key =>
          '(response, _) ← send_loop show_status (ge_send g (gen_target (go_provider o) api_key) body) fuel 0 0;
          Some (match (b ← response; cleaned ← answer_text (go_provider o) b;
                       _ ← accept_generated t e s cleaned; Ok cleaned) with
                | Ok cleaned => install_generated o g e s cleaned t
                | Err err => (Err err, t)
                end)
      end
  end.
End gen.

(** ** When sending ends *)

Section ending.
Context (show_status : Z → string) (send : nat → send_outcome).

(** The number that the loop gives the (n+1)-th attempt. *)
Definition attempt_no (n : nat) : Z := Z.of_nat (S n) mod 2 ^ 32.

Lemma next_attempt_no n : next_attempt (Z.of_nat n mod 2 ^ 32) = attempt_no n.
Proof. unfold next_attempt, attempt_no. rewrite Z.add_mod_idemp_l by lia. f_equal. lia. Qed.

Lemma send_loop_S fuel n :
  send_loop show_status send (S fuel) n (Z.of_nat n mod 2 ^ 32) =
  if retried (attempt_no n) (send n) then
    '(r, sleeps) ← send_loop show_status send fuel (S n) (Z.of_nat (S n) mod 2 ^ 32);
    Some (r, base_ms (attempt_no n) :: sleeps)
  else Some (loop_exit show_status (attempt_no n) (send n), []).
Proof. simpl. by rewrite next_attempt_no. Qed.

(** The loop reaches an outcome that it does not retry, and ends. *)
Lemma send_loop_returns d : ∀ n,
  retried (attempt_no (n + d)) (send (n + d)) = false →
  is_Some (send_loop show_status send (S d) n (Z.of_nat n mod 2 ^ 32)).
Proof.
  induction d as [|d IH]; intros n Hend; rewrite send_loop_S.
  - rewrite Nat.add_0_r in Hend. by rewrite Hend.
  - destruct (retried (attempt_no n) (send n)); [|by eexists].
    destruct (IH (S n)) as [[r sleeps] ->]; [|by eexists]. by rewrite Nat.add_succ_comm.
Qed.

Lemma send_loop_returned fuel : ∀ n,
  is_Some (send_loop show_status send fuel n (Z.of_nat n mod 2 ^ 32)) →
  ∃ i, retried (attempt_no i) (send i) = false.
Proof.
  induction fuel as [|fuel IH]; intros n; [by intros []|]. rewrite send_loop_S.
  destruct (retried (attempt_no n) (send n)) eqn:Hr; [|by eauto].
  destruct (send_loop _ _ fuel _ _) as [[r sleeps]|] eqn:Hs; [|by intros []]. intros _. apply (IH (S n)).
  by rewrite Hs.
Qed.

(** C40: sending ends when, and only when, some outcome is not retried.  In particular it ends,
    after at most three attempts and 750 ms of sleep, when none of the first three outcomes
    is a timeout, and it never ends while the requests time out. *)
Theorem send_loop_terminates :
  ((∃ fuel, is_Some (send_loop show_status send fuel 0 0)) ↔ ∃ n, retried (attempt_no n) (send n) = false) ∧
  ((∀ n c e, (n < 3)%nat → send n ≠ SendError true c e) →
   ∃ r sleeps, send_loop show_status send 3 0 0 = Some (r, sleeps) ∧ foldr Z.add 0 sleeps ≤ 750) ∧
  ((∀ n, ∃ c e, send n = SendError true c e) → ∀ fuel, send_loop show_status send fuel 0 0 = None).
Proof.
  split_and!.
  - split; [intros [fuel Hs]; by apply (send_loop_returned fuel O)|].
    intros [n Hn]. exists (S n). by apply (send_loop_returns n O).
  - intros Hnot.
    assert (H3 : retried 3 (send 2%nat) = false).
    { specialize (Hnot 2%nat). destruct (send 2%nat) as [st b|[] c e]; simpl.
      - by rewrite !andb_false_r.
      - by destruct (Hnot c e); [lia|].
      - apply andb_false_r. }
    cbn [send_loop]. change (next_attempt 0) with 1. change (next_attempt 1) with 2. change (next_attempt 2) with 3.
    rewrite H3. destruct (retried 1 (send 0%nat)), (retried 2 (send 1%nat)); do 2 eexists; (split; [done|]); vm_compute; congruence.
  - intros Hall fuel. apply eq_None_not_Some. intros (i & Hi)%(send_loop_returned fuel O).
    destruct (Hall i) as (c & e & Hc). by rewrite Hc in Hi.
Qed.
End ending.

(** The key of the first provider is sent with its scheme twice. *)
Lemma openai_header_doubled api_key :
  gen_target "openai" api_key =
  ("https://api.openai.com/v1/chat/completions",
   [("content-type", "application/json"); ("authorization", "Bearer Bearer " +:+ api_key)]).
Proof. done. Qed.

(** ** What is written *)

Lemma before_last_end p s : before_last p (s +:+ p) = Some s.
Proof.
  unfold before_last. rewrite str_rev_app.
  assert (split_once (str_rev p) (str_rev p +:+ str_rev s) = Some ("", str_rev s)) as ->.
  { assert (strip_prefix (str_rev p) (str_rev p +:+ str_rev s) = Some (str_rev s)) as Hs by by apply strip_prefix_Some.
    destruct (str_rev p +:+ str_rev s); simpl; by rewrite Hs. }
  simpl. by rewrite str_rev_involutive.
Qed.

Lemma trim_fenced s : trim ("```" +:+ s +:+ "```") = "```" +:+ s +:+ "```".
Proof.
  unfold trim, trim_end, trim_start. rewrite (trim_fuel_id _ _ ("```" +:+ _)) by reflexivity.
  rewrite trim_fuel_id; [by rewrite str_rev_involutive|]. rewrite string_app_assoc, str_rev_app. reflexivity.
Qed.

(** A fenced block gives its body, whatever is in it, further fences included. *)
Theorem strip_fences_body body : strip_fences ("```cedar" +:+ body +:+ "```") = trim body.
Proof.
  unfold strip_fences. change ("```cedar" +:+ body +:+ "```") with ("```" +:+ ("cedar" +:+ body) +:+ "```").
  rewrite trim_fenced. change ("```" +:+ ("cedar" +:+ body) +:+ "```") with ("```cedar" +:+ body +:+ "```").
  rewrite (proj2 (strip_prefix_Some "```cedar" _ (body +:+ "```"))) by done.
  cbn [mbind option_bind]. by rewrite before_last_end.
Qed.

Section written.
Context `{CedarStore, !Lru bytes (CachedDecision * Z), JsonText}.
Context (show_status : Z → string) (debug_issues : list (string * string) → string).

Lemma write_policy_frame s name text t canon io q :
  let t' := (write_policy s name text t canon io).2 in
  t' !! q = t !! q ∨ q = policies_dir s ∨
  q = join_path (policies_dir s) (sanitize name +:+ ".cedar") ∧ t' !! q = Some (File text).
Proof.
  unfold write_policy. destruct (_ || _); [by left|].
  destruct (match canon _ with Ok c => _ | Err _ => _ end); [by left|].
  destruct (io (policies_dir s)); [by left|].
  destruct (decide (q = policies_dir s)); [by auto|]. destruct (io (join_path _ _)); simpl.
  - rewrite lookup_insert_ne by done. auto.
  - destruct (decide (q = join_path (policies_dir s) (sanitize name +:+ ".cedar"))) as [->|Hq].
    + rewrite lookup_insert_eq. auto.
    + rewrite !lookup_insert_ne by done. auto.
Qed.

Lemma accept_generated_Ok t e s cleaned :
  accept_generated debug_issues t e s cleaned = Ok tt ↔
  ∃ policies, policy_set_from_str cleaned = Ok policies ∧
    ∀ schema src, load_schema t (pv_io e) (pv_utf8 e) s = Ok (Some (schema, src)) →
                  (validate_strict schema policies).1 = [].
Proof.
  unfold accept_generated. split.
  - intros (policies & Hp & Hv)%bind_Ok. apply map_err_Ok in Hp. exists policies. split; [done|].
    intros schema src Hl. rewrite Hl in Hv. apply bail_if_Ok in Hv. by bool_inv.
  - intros (policies & -> & Hv). simpl. destruct (load_schema _ _ _ _) as [[[schema src]|]|]; [|done..].
    rewrite bail_if_pass; [done|]. by rewrite (Hv schema src), bool_decide_eq_true_2.
Qed.

(** With a schema that is there and cannot be read or parsed, nothing is validated. *)
Lemma unreadable_schema_accepts t e s cleaned policies err :
  load_schema t (pv_io e) (pv_utf8 e) s = Err err → policy_set_from_str cleaned = Ok policies →
  accept_generated debug_issues t e s cleaned = Ok tt.
Proof. intros Hl Hp. apply accept_generated_Ok. exists policies. split; [done|]. by rewrite Hl. Qed.

(** The command changes the store only with a text that parses as Cedar and that the schema,
    when it can be loaded, accepts; not in a dry run, and not without the answer when one is
    asked for; and then one file under [policies] changes, which holds the text. *)
Theorem gen_writes_checked fuel root o g e r t t' s :
  gen_run show_status debug_issues fuel root o g e = Some (r, t') →
  policy_store_open root (pv_tree e) (pv_io e) = (Ok s, t) →
  t' = t ∨
  ∃ cleaned policies, policy_set_from_str cleaned = Ok policies ∧
    (∀ schema src, load_schema t (pv_io e) (pv_utf8 e) s = Ok (Some (schema, src)) →
                   (validate_strict schema policies).1 = []) ∧
    go_dry_run o = false ∧ confirmed o (ge_answer g) = true ∧
    ∀ q, t' !! q = t !! q ∨ q = policies_dir s ∨
         q = join_path (policies_dir s) (sanitize (default "generated" (go_name o)) +:+ ".cedar") ∧
         t' !! q = Some (File cleaned).
Proof.
  unfold gen_run. intros Hrun Ho. rewrite Ho in Hrun.
  destruct (api_key_of _ _) as [key|]; [|injection Hrun as <- <-; by left].
  destruct (send_loop _ _ _ _ _) as [[response sleeps]|]; [|done]. simpl in Hrun. injection Hrun as Hrun.
  destruct (response ≫= _) as [cleaned|] eqn:Hc; [|injection Hrun as <- <-; by left].
  apply bind_Ok in Hc as (b & -> & (text & Ha & ([] & Hacc & [= <-])%bind_Ok)%bind_Ok).
  apply accept_generated_Ok in Hacc as (policies & Hp & Hv). unfold install_generated in Hrun.
  destruct (go_dry_run o); [injection Hrun as <- <-; by left|].
  destruct (confirmed o (ge_answer g)); [|injection Hrun as <- <-; by left].
  right. exists text, policies. split_and!; try done. intros q.
  pose proof (write_policy_frame s (default "generated" (go_name o)) text t (pv_canon e) (pv_io e) q) as Hf.
  by destruct (write_policy _ _ _ _ _ _) as [[path|er] t1]; injection Hrun as <- <-.
Qed.
End written.
