(* ===== verification/CliMain.v ===== *)
(** * The command line ([agentguard-cli/src/main.rs], [commands/authorize.rs], [sim.rs])

    The two commands that decide a request, and [main]: which command runs with which
    arguments, and the exit code it ends with.  The arguments are as [clap] delivers them. *)

From S2P Require Import Prelude Json CoreError AuthKeys AuthError Crypto Constraint Delegation Trace Request DecisionRecord HashChain Canonical AuditFs AuditLog ApiKey Cache Engine Text Metrics Semaphore AuthLayer PolicyStore AuthZen Pdp AuditPort Grpc ChainSecret Server Formatter CliKeys CliAudit CliDelegate CliPolicy CliGen.

(** [Deserialize for AgentRequest] *)
Class RequestCodec := { request_from_str : string → result string AgentRequest }.

(** ** Deciding a request *)

Section decide.
Context (dir : string).
Context `{CedarStore, !CedarBuild, !JsonText, !JsonScalars, !Hex, !Sha256, !Hmac, !UuidText}.
Context `{!RecordCodec, !ActorCodec, !Lru bytes (CachedDecision * Z), !Base64Std, !JsonList, !RequestCodec}.
(** [serde_json::to_string_pretty] of a decision *)
Context (pretty_decision : Decision → string).

(** The request, from standard input for ["-"]. *)
Definition read_request (request : string) (stdin : result string string) (w : world) :
    result anyhow AgentRequest * world :=
  let '(text, w) :=
    if bool_decide (request = "-") then (map_err (λ e, [e]) stdin, w)
    else let '(r, w) := fs_read_to_string request w in (map_err io_chain r, w) in
  (t ← text; map_err (λ e, [e]) (request_from_str t), w).

(** [AGENTGUARD_TRACEPARENT] wins when it is a trace context. *)
Definition apply_traceparent (tp : env_var) (req : AgentRequest) : AgentRequest :=
  match env_ok tp with
  | Some tp => match trace_from_str tp with Ok ctx => with_trace req ctx | Err _ => req end
  | None => req
  end.

Definition entities_of (describe : string → string) (text : string) : result anyhow Entities :=
  arr ← map_err (λ e, [describe e]) (values_from_str text);
  map_err core_chain (build_entities arr).

Definition load_entities (path : option string) (w : world) : result anyhow Entities * world :=
  let path := default ".agentguard/entities.json" path in
  let '(there, w) := fs_exists path w in
  if answered_yes there then
    let '(r, w) := fs_read_to_string path w in
    (text ← map_err io_chain r;
     entities_of (λ e, "entities file must be a JSON array of entity objects: " +:+ e) text, w)
  else (Ok no_entities, w).

(** On a fresh authorizer, which has no cache. *)
Definition decide_request (root : string) (req : AgentRequest) (ents : Entities) (e : store_env) :
    result anyhow Decision * tree :=
  match policy_store_open root (pv_tree e) (pv_io e) with
  | (Err err, t) => (Err (core_chain err), t)
  | (Ok s, t) =>
      (map_err core_chain
         (engine ← authorizer_new t (pv_io e) (pv_utf8 e) s (pv_walk e);
          (authorize engine req ents 0 0).1), t)
  end.

(** The log is opened for this decision, chained when there is a secret. *)
Definition audit_decision (audit : string) (secret_file : option string) (d : Decision)
    (fresh : ChainId) (uuid : string) (ld : log_draw) (w : world) : result anyhow unit * world :=
  let '(key, w) :=
    match secret_file with
    | Some p =>
        let '(r, w) := fs_read p w in
        (b ← map_err (λ e, ["read chain secret " +:+ debug_str p +:+ ": " +:+ io_display e]) r;
         k ← ok_or (decode_chain_secret b) ["chain secret file " +:+ debug_str p +:+ " is empty"];
         Ok (Some k), w)
    | None => (Ok None, w)
    end in
  match key with
  | Err e => (Err e, w)
  | Ok key =>
      match open_internal dir audit key None fresh uuid w with
      | (Err e, w) => (Err (core_chain e), w)
      | (Ok l, w) =>
          let '(r, (_, w)) := log_append_decision dir d ld (l, w) in (map_err core_chain r, w)
      end
  end.

Definition effect_upper (e : Effect) : string := match e with Allow => "ALLOW" | Deny => "DENY" end.

Definition decision_lines (d : Decision) (req : AgentRequest) (output : string) : list string :=
  if bool_decide (output = "json") then [pretty_decision d]
  else
    [String (ascii_of_nat 27) (match effect d with Allow => "[32m" | Deny => "[31m" end) +:+ " "
       +:+ effect_upper (effect d) +:+ String (ascii_of_nat 27) "[0m";
     "principal: " +:+ principal_display (principal req); "action:    " +:+ action_display (action req);
     "resource:  " +:+ resource_display (resource req)]
    ++ (match policies d with [] => [] | ps => ["policies:  " +:+ join ", " ps] end)
    ++ ((λ r, "  - " +:+ r) <$> reasons d).

(** What the process brings along: standard input, the environment, and what is drawn. *)
Record auth_env : Type := mkAuthEnv {
  ae_stdin : result string string;
  ae_traceparent : env_var;
  ae_fresh : ChainId;
  ae_uuid : string;
  ae_draw : log_draw;
}.

(** The decision and what is printed, the tree of the store, the directory of the files. *)
Definition authorize_run (root audit request : string) (entities_path : option string) (no_audit : bool)
    (output : string) (secret_file : option string) (a : auth_env) (e : store_env) (w : world) :
    result anyhow (Decision * list string) * tree * world :=
  match read_request request (ae_stdin a) w with
  | (Err err, w) => (Err err, pv_tree e, w)
  | (Ok req, w) =>
      let req := apply_traceparent (ae_traceparent a) req in
      match load_entities entities_path w with
      | (Err err, w) => (Err err, pv_tree e, w)
      | (Ok ents, w) =>
          match decide_request root req ents e with
          | (Err err, t) => (Err err, t, w)
          | (Ok d, t) =>
              let '(audited, w) :=
                if no_audit then (Ok tt, w)
                else audit_decision audit secret_file d (ae_fresh a) (ae_uuid a) (ae_draw a) w in
              (_ ← audited; Ok (d, decision_lines d req output), t, w)
          end
      end
  end.

Definition decision_was_allow (d : Decision) : bool := match effect d with Allow => true | Deny => false end.

(** ** [sim] *)

Definition sim_lines (d : Decision) (req : AgentRequest) (output : string) : list string :=
  if bool_decide (output = "json") then [pretty_decision d]
  else
    ((match effect d with Allow => "✓ ALLOW" | Deny => "✗ DENY " end) +:+ "  "
       +:+ principal_display (principal req) +:+ " → " +:+ action_display (action req) +:+ " on "
       +:+ resource_display (resource req))
    :: (match policies d with [] => [] | ps => ["    policies: " +:+ join ", " ps] end)
    ++ ((λ r, "    reason:   " +:+ r) <$> reasons d).

Definition sim_run (root request : string) (entities_path : option string) (output : string)
    (stdin : result string string) (e : store_env) (w : world) : result anyhow (list string) * tree * world :=
  match read_request request stdin w with
  | (Err err, w) => (Err err, pv_tree e, w)
  | (Ok req, w) =>
      let '(ents, w) :=
        match entities_path with
        | Some p =>
            let '(r, w) := fs_read_to_string p w in
            (text ← map_err io_chain r; entities_of id text, w)
        | None => (Ok no_entities, w)
        end in
      match ents with
      | Err err => (Err err, pv_tree e, w)
      | Ok ents =>
          let '(r, t) := decide_request root req ents e in
          (d ← r; Ok (sim_lines d req output), t, w)
      end
  end.
End decide.

(** ** [main] *)

Inductive ApiKeyCmd : Type :=
| KeyCreate (o : CreateKeyOptions)
| KeyList (key_store : string)
| KeyRevoke (key_store id : string).

Inductive LogCmd : Type :=
| LogTail (n : nat) (principal action : option string)
| LogDump.

Inductive AuditCmd : Type :=
| AuditVerify (audit : option string) (secret_file : string)
| AuditExport (audit : option string) (format : string) (out : option string)
| AuditSar (audit : option string) (subject_id : string)
| AuditErase (audit : option string) (subject_id salt_file : string) (out : option string)
| AuditRotate (audit : option string) (secret_file : option string).

Inductive Cmd : Type :=
| CmdInit (name : string)
| CmdValidate
| CmdAuthorize (request : string) (entities : option string) (skip_audit : bool)
| CmdSim (request : string) (entities : option string)
| CmdDelegate (from to_ : string) (actions resources : list string) (ttl : Z)
    (key_id key_file out : option string)
| CmdVerify (token keys : string)
| CmdApiKey (action : ApiKeyCmd)
| CmdSchema
| CmdLog (action : LogCmd)
| CmdAudit (action : AuditCmd)
| CmdGen (o : gen_options)
| CmdDoctor.

Record Cli : Type := mkCli {
  cli_store : string;
  cli_audit : string;
  cli_output : string;
  cli_secret_file : option string;
  cli_cmd : Cmd;
}.

(** What a process meets and draws. *)
Record main_env : Type := mkMainEnv {
  me_auth : auth_env;
  me_gen : gen_env;
  me_key : key_draw;
  me_mint : mint_draw;
  me_now : Z;
  me_temporary : string;
  me_rotate_ts : string;
  me_rotate_uuid : string;
}.

(** The texts that other crates produce. *)
Record renderers : Type := mkRenderers {
  rn_pretty : Value → string;
  rn_decision : Decision → string;
  rn_token : DelegationToken → string;
  rn_claims : DelegationClaims → string;
  rn_summary : SchemaSummary → string;
  rn_char : string → string;
  rn_status : Z → string;
  rn_issues : list (string * string) → string;
  rn_starter : string;
}.

(** The exit code, standard output, the store and the files. *)
Abbreviation exit_state := (Z * list string * tree * world)%type.

Definition finish (r : result anyhow (list string)) : Z * list string :=
  match r with Ok out => (0, out) | Err _ => (1, []) end.

Section main.
Context (dir : string) (rn : renderers).
Context `{CedarStore, !CedarBuild, !JsonText, !JsonScalars, !Hex, !Sha256, !Hmac, !UuidText}.
Context `{!RecordCodec, !ActorCodec, !Lru bytes (CachedDecision * Z), !Base64Std, !JsonList, !RequestCodec}.
Context `{!Argon2, !Base64, !ApiKeyCodec, !Ed25519Ops, !ClaimsCodec, !TimeFormat, !Display, !JsonWriter}.

Definition finish_tree (w : world) (rt : result anyhow (list string) * tree) : exit_state :=
  (finish rt.1, rt.2, w).
Definition finish_files (t : tree) (rw : result anyhow (list string) * world) : exit_state :=
  (finish rw.1, t, rw.2).

Definition run_key (m : main_env) (output : string) (c : ApiKeyCmd) : command (list string) :=
  match c with
  | KeyCreate o => apikey_create (rn_pretty rn) o output (me_key m)
  | KeyList p => apikey_list_keys (rn_pretty rn) p output
  | KeyRevoke p id => apikey_revoke_cmd p id output (me_now m) (me_temporary m)
  end.

Definition run_log (audit output : string) (c : LogCmd) : command (list string) :=
  match c with
  | LogTail n p a => log_tail dir (rn_pretty rn) audit n p a output
  | LogDump => log_dump dir (rn_pretty rn) audit output
  end.

Definition run_audit (m : main_env) (cli : Cli) (c : AuditCmd) : command (list string) :=
  let path audit := default (cli_audit cli) audit in
  let fresh := ae_fresh (me_auth m) in
  match c with
  | AuditVerify audit secret => audit_verify dir (path audit) secret (cli_output cli) fresh
  | AuditExport audit fmt out => audit_export dir (path audit) fmt out
  | AuditSar audit subject => audit_sar dir (rn_pretty rn) (path audit) subject (cli_output cli)
  | AuditErase audit subject salt out => audit_erase dir (path audit) subject salt out
  | AuditRotate audit secret =>
      audit_rotate dir (path audit) (match secret with Some s => Some s | None => cli_secret_file cli end)
        fresh (ae_uuid (me_auth m)) (me_rotate_ts m) (me_rotate_uuid m)
  end.

(** [None]: [gen] still sends after [fuel] attempts. *)
Definition main_run (fuel : nat) (cli : Cli) (m : main_env) (e : store_env) (w : world) : option exit_state :=
  let out := cli_output cli in
  let root := cli_store cli in
  let t := pv_tree e in
  match cli_cmd cli with
  | CmdInit name => Some (finish_tree w (init_run (rn_char rn) (rn_starter rn) root name e))
  | CmdValidate =>
      let '(r, t) := validate_run root e in
      Some (match r with
            | Ok (lines, failed) => (if failed : bool then 1 else 0, lines)
            | Err _ => (1, [])
            end, t, w)
  | CmdAuthorize request ents skip =>
      let '(r, t, w) := authorize_run dir (rn_decision rn) root (cli_audit cli) request ents skip out
                          (cli_secret_file cli) (me_auth m) e w in
      Some (match r with
            | Ok (d, lines) => (if decision_was_allow d then 0 else 2, lines)
            | Err _ => (1, [])
            end, t, w)
  | CmdSim request ents =>
      let '(r, t, w) := sim_run (rn_decision rn) root request ents out (ae_stdin (me_auth m)) e w in
      Some (finish r, t, w)
  | CmdDelegate from to_ actions resources ttl kid kf out_path =>
      Some (finish_files t (delegate_run (rn_token rn) from to_ actions resources ttl kid kf out_path out (me_mint m) w))
  | CmdVerify token keys => Some (finish_files t (delegate_verify (rn_claims rn) token keys out (me_now m) w))
  | CmdApiKey c => Some (finish_files t (run_key m out c w))
  | CmdSchema => Some (finish_tree w (schema_run (rn_summary rn) root out e))
  | CmdLog c => Some (finish_files t (run_log (cli_audit cli) out c w))
  | CmdAudit c => Some (finish_files t (run_audit m cli c w))
  | CmdGen o =>
      rt ← gen_run (rn_status rn) (rn_issues rn) fuel root o (me_gen m) e; Some (finish_tree w rt)
  | CmdDoctor =>
      let '(report, t, w) := doctor_run dir root (cli_audit cli) (cli_secret_file cli)
                               (ae_fresh (me_auth m)) e w in
      Some ((if has_failures report then 1 else if has_warnings report then 2 else 0, report_lines report), t, w)
  end.
End main.

(** ** What is on disk after a decision *)

Section recorded.
Context (dir : string).
Context `{CedarStore, !CedarBuild, !JsonText, !JsonScalars, !Hex, !Sha256, !Hmac, !UuidText}.
Context `{!RecordCodec, !ActorCodec, !Lru bytes (CachedDecision * Z), !Base64Std, !JsonList, !RequestCodec}.

Lemma keeps_open_existing name a : keeps name (open_existing_audit_file dir a).
Proof. unfold open_existing_audit_file, validate_audit_path, require_regular. keeps_tac. Qed.
Lemma keeps_rotated name a : keeps name (rotated_logs a).
Proof. unfold rotated_logs. keeps_tac. Qed.

Lemma keeps_new_sidecar name id uuid : keeps name (write_chain_id_sidecar (chain_id_sidecar_path name) id uuid).
Proof.
  unfold write_chain_id_sidecar, chain_id_sidecar_path.
  assert (Hs : name ≠ "." +:+ name +:+ ".chainid").
  { apply string_neq_length. simpl. rewrite string_length_app. simpl. lia. }
  assert (Ht : name ≠ "." +:+ ("." +:+ name +:+ ".chainid") +:+ "." +:+ uuid +:+ ".new").
  { apply string_neq_length. simpl. rewrite !string_length_app. simpl. lia. }
  keeps_tac.
Qed.

Lemma log_keeps_verify name k names : ∀ st, log_keeps name (verify_files dir k names st).
Proof.
  induction names as [|n ns IH]; intros st; simpl; [apply log_keeps_ret|].
  apply log_keeps_bind; [apply log_keeps_lift, keeps_open_existing|]. intros content.
  apply log_keeps_bind; [apply log_keeps_result|auto].
Qed.

(** The content that a log starts from: that of its file, or none. *)
Definition started (w : world) (name : string) (c : bytes) : Prop :=
  files w !! name = Some (Regular c) ∨ files w !! name = None ∧ c = "".

Lemma open_audit_file_Ok name w w' :
  open_audit_file dir name w = (Ok tt, w') → ∃ c, files w' !! name = Some (Regular c) ∧ started w name c.
Proof.
  unfold open_audit_file. rewrite fs_bind_eq.
  destruct (validate_audit_path dir name w) as [[[]|] w1] eqn:Hv; [|done].
  assert (Hk1 : files w1 !! name = files w !! name).
  { revert Hv. unfold validate_audit_path. apply (keeps_bind name (fs_try (fs_stat name)));
      [apply keeps_try, keeps_stat|]. intros [[]|[]]; eauto with agentguard. }
  rewrite fs_bind_eq. destruct (fs_open_append name w1) as [[[]|] w2] eqn:Ho; [|done].
  unfold fs_open_append in Ho. apply syscall_inv in Ho as [(e & [=] & _)|[= Ho]].
  rewrite fs_bind_eq. unfold require_regular. rewrite fs_bind_eq.
  destruct (fs_stat name w2) as [[[c|]|] w3] eqn:Hs; try done.
  pose proof (keeps_stat name name _ _ _ Hs) as Hk3.
  unfold fs_stat in Hs. apply syscall_inv in Hs as [(e & [=] & _)|Hs].
  intros Hf%(keeps_sync name). rewrite Hf, Hk3. exists c.
  destruct (files w2 !! name) as [x|] eqn:Hx; [|done]. injection Hs as <- _. split; [done|].
  rewrite Ho in Hx. unfold started. rewrite <-Hk1. destruct (files w1 !! name) as [y|] eqn:Hy.
  - left. congruence.
  - right. rewrite lookup_insert_eq in Hx. split; [done|congruence].
Qed.

(** Opening a log leaves the content of its file alone, or makes an empty one. *)
Lemma open_internal_file name key rot fresh uuid w l w' :
  open_internal dir name key rot fresh uuid w = (Ok l, w') →
  ∃ c, files w' !! name = Some (Regular c) ∧ started w name c.
Proof.
  unfold open_internal. intros ([] & w1 & Hsync & ([] & w2 & Hopen & Hrest)%logm_bind_inv)%logm_bind_inv.
  assert (Hk1 : files w1 !! name = files w !! name) by by eapply (log_keeps_lift name), Hsync; apply keeps_sync.
  assert (Ho : open_audit_file dir name w1 = (Ok tt, w2)).
  { unfold lift, lift_with in Hopen. destruct (open_audit_file dir name w1) as [[[]|] w0]; simpl in Hopen; congruence. }
  apply open_audit_file_Ok in Ho as (c & Hc & Hst). exists c. unfold started in *. rewrite Hk1 in Hst.
  split; [|done]. rewrite <-Hc. destruct key as [k|]; [|by injection Hrest as _ <-].
  revert Hrest. match goal with |- ?m w2 = _ → _ => assert (Hm : log_keeps name m); [|by apply Hm] end.
  clear. apply log_keeps_bind; [apply log_keeps_lift, keeps_rotated|intros persisted].
  apply log_keeps_bind.
  { intros w r w'. destruct (verify_chain_paths _ _ _ _ w) as [r1 w1] eqn:Hv. intros [= <- <-].
    revert Hv. unfold verify_chain_paths. apply log_keeps_bind; [apply log_keeps_verify|]. intros; apply log_keeps_ret. }
  intros _. apply log_keeps_bind; [apply log_keeps_lift; unfold is_empty_file; keeps_tac|intros empty].
  apply log_keeps_bind.
  { destruct empty; [|apply log_keeps_ret]. apply log_keeps_bind; [|intros; apply log_keeps_ret].
    apply log_keeps_lift. unfold latest_rotated_log. pose proof keeps_rotated. keeps_tac. }
  intros head_path. apply log_keeps_bind; [apply log_keeps_lift; unfold file_for_head; keeps_tac|intros file].
  apply log_keeps_bind; [apply log_keeps_result|intros chain].
  apply log_keeps_bind.
  { apply log_keeps_lift. unfold read_chain_id_sidecar. pose proof keeps_read_string. keeps_tac. }
  intros [id|]; apply log_keeps_bind; try (intros; apply log_keeps_ret).
  destruct (get_id chain fresh) as [id chain']. apply log_keeps_bind; [|intros; apply log_keeps_ret].
  apply log_keeps_lift, keeps_new_sidecar.
Qed.

(** The line of a record, in either format. *)
Definition line_of (rec : DecisionRecord) (line : bytes) : Prop :=
  line = plain_line rec ∨ ∃ prev hash id, line = chained_line (mkChainedRecord prev hash id rec).

Lemma written_line name line w w' c :
  files w !! name = Some (Regular c) → write_line_durably name line w = (Ok tt, w') →
  files w' !! name = Some (Regular (c +:+ line)).
Proof.
  intros Hc Hw. destruct (write_line_durably_inv _ _ _ _ _ _ Hc Hw) as (n & Hf & Hn).
  by rewrite Hn, substring_all in Hf.
Qed.

Lemma append_writes_line rec fresh ts u' u l w l' w' c :
  rotation l = None → files w !! path l = Some (Regular c) →
  log_append dir rec fresh ts u' u l w = (Ok tt, (l', w')) →
  ∃ line, line_of rec line ∧ files w' !! path l = Some (Regular (c +:+ line)).
Proof.
  intros Hrot Hc. unfold log_append, rotate_if_needed. rewrite Hrot.
  destruct (mode l) as [open|open chain].
  - unfold append_plain. destruct (negb open); [done|].
    destruct (write_line_durably _ _ w) as [[[]|] w1] eqn:Hw; [|done]. intros [= _ <-].
    exists (plain_line rec). split; [by left|]. by eapply written_line.
  - unfold append_chained. destruct (get_id chain fresh) as [id chain1].
    assert (Hp : path (set_chain l chain1) = path l) by (by destruct l as [[] ? ?]). rewrite Hp.
    destruct (ensure_sidecar (path l) id u w) as [[[]|] w1] eqn:Hs; [|done].
    apply (keeps_ensure_sidecar) in Hs. destruct (negb open); [done|]. unfold try_append_with_io.
    destruct (write_line_durably _ _ w1) as [[[]|] w2] eqn:Hw; [|done]. intros [= _ <-].
    eexists. split; [right; by do 3 eexists|]. eapply written_line; [|done]. by rewrite Hs.
Qed.

(** Storage may fail in any way: a decision that is reported as recorded is the last line of
    the log, after what was there before. *)
Lemma audit_decision_recorded audit secret d fresh uuid ld w w' :
  audit_decision dir audit secret d fresh uuid ld w = (Ok tt, w') →
  ∃ c line, started w audit c ∧ line_of (from_decision d None None (ld_id ld) (ld_now ld)) line ∧
    files w' !! audit = Some (Regular (c +:+ line)).
Proof.
  unfold audit_decision.
  destruct (match secret with Some p => _ | None => _ end) as [key w1] eqn:Hkey.
  assert (Hk : files w1 !! audit = files w !! audit).
  { destruct secret as [p|]; [|by injection Hkey as _ <-].
    destruct (fs_read p w) as [r w0] eqn:Hr. injection Hkey as _ <-. by eapply keeps_read. }
  destruct key as [key|]; [|done].
  destruct (open_internal dir audit key None fresh uuid w1) as [[l|] w2] eqn:Ho; [|done].
  pose proof (open_internal_mode _ _ _ _ _ _ _ _ _ Ho) as (_ & _ & Hrot & Hpath).
  apply open_internal_file in Ho as (c & Hc & Hst). unfold log_append_decision.
  destruct (log_append dir _ _ _ _ _ l w2) as [[[]|] [l3 w3]] eqn:Ha; [|done]. intros [= <-].
  rewrite <-Hpath in Hc. apply (append_writes_line _ _ _ _ _ _ _ _ _ c) in Ha as (line & Hline & Hf); [|done..].
  rewrite Hpath in Hf. exists c, line. unfold started in *. rewrite Hk in Hst. done.
Qed.

(** What a read of [p] gives: the content of the file, nothing from a device. *)
Definition readable (w : world) (p text : string) : Prop :=
  files w !! p = Some (Regular text) ∨ files w !! p = Some Special ∧ text = "".
(** Some call will fail. *)
Definition has_fault (w : world) : Prop := ∃ f, Some f ∈ faults w.

Lemma syscall_faults {A} (f : gmap string entry → result IoError A * gmap string entry) w r w' :
  syscall f w = (r, w') → has_fault w' → has_fault w.
Proof.
  unfold syscall, next_fault, has_fault. destruct (faults w) as [|[[e n]|] fl] eqn:Hfl; simpl.
  - destruct (f (files w)). intros [= <- <-]. simpl. by rewrite Hfl.
  - intros [= <- <-] [x Hx]. exists x. by apply list_elem_of_further.
  - destruct (f (files w)). intros [= <- <-] [x Hx]. exists x. by apply list_elem_of_further.
Qed.

Lemma read_to_string_inv p w r w' :
  fs_read_to_string p w = (r, w') →
  files w' = files w ∧ (has_fault w' → has_fault w) ∧ (∀ text, r = Ok text → readable w p text).
Proof.
  unfold fs_read_to_string. rewrite fs_bind_eq. destruct (fs_read p w) as [r1 w1] eqn:Hr.
  pose proof (syscall_faults _ _ _ _ Hr) as Hft.
  assert (Hf : files w1 = files w ∧ ∀ c, r1 = Ok c → readable w p c).
  { apply syscall_inv in Hr as [(e & -> & ->)|[= -> ->]]; [done|]. split; [done|]. unfold readable.
    destruct (files w !! p) as [[c|]|]; intros ? [= <-]; auto. }
  destruct Hf as [Hf Hc]. destruct r1 as [c|e]; [|by intros [= <- <-]].
  destruct (utf8_valid c); intros [= <- <-]; (split_and!; [done|done|]); intros ? [= <-]; auto.
Qed.

Definition request_source (request : string) (stdin : result string string) (w : world) (text : string) : Prop :=
  if bool_decide (request = "-") then stdin = Ok text else readable w request text.

Lemma read_request_source request stdin w r w' :
  read_request request stdin w = (r, w') →
  files w' = files w ∧ (has_fault w' → has_fault w) ∧
  (∀ req, r = Ok req → ∃ text, request_source request stdin w text ∧ request_from_str text = Ok req).
Proof.
  unfold read_request, request_source. case_bool_decide.
  - intros [= <- <-]. split_and!; [done|done|]. intros req (t & Ht & Hq)%bind_Ok.
    apply map_err_Ok in Ht, Hq. by exists t.
  - destruct (fs_read_to_string request w) as [r1 w1] eqn:Hr. intros [= <- <-].
    apply read_to_string_inv in Hr as (Hf & Hft & Hc). split_and!; [done|done|].
    intros req (t & Ht & Hq)%bind_Ok. apply map_err_Ok in Ht, Hq. exists t. auto.
Qed.

(** The entities of the file, or none when there is no such file or some call failed. *)
Definition entities_source (p : option string) (w : world) (es : Entities) : Prop :=
  let p := default ".agentguard/entities.json" p in
  (∃ text, readable w p text ∧
     entities_of (λ e, "entities file must be a JSON array of entity objects: " +:+ e) text = Ok es) ∨
  es = no_entities ∧ (files w !! p = None ∨ has_fault w).

Lemma exists_no p w there w' :
  fs_exists p w = (there, w') → files w' = files w ∧
  (answered_yes there = false → files w !! p = None ∨ has_fault w).
Proof.
  unfold fs_exists. rewrite fs_bind_eq. unfold fs_try, fs_stat, syscall, next_fault, has_fault.
  destruct (faults w) as [|[[e n]|] fl]; simpl.
  - intros [= <- <-]. split; [done|]. simpl. destruct (files w !! p); [done|by left].
  - intros [= <- <-]. split; [done|]. intros _. right. eexists. apply list_elem_of_here.
  - intros [= <- <-]. split; [done|]. simpl. destruct (files w !! p); [done|by left].
Qed.

Lemma load_entities_source p w r w' :
  load_entities p w = (r, w') → files w' = files w ∧ ∀ es, r = Ok es → entities_source p w es.
Proof.
  unfold load_entities, entities_source. destruct (fs_exists _ w) as [there w1] eqn:Hex.
  apply exists_no in Hex as [Hf1 Hno]. destruct (answered_yes there).
  - destruct (fs_read_to_string _ w1) as [r1 w2] eqn:Hr. intros [= <- <-].
    apply read_to_string_inv in Hr as (Hf & _ & Hc). split; [congruence|].
    intros es (t & Ht & He)%bind_Ok. apply map_err_Ok in Ht. left. exists t. split; [|done].
    unfold readable in *. rewrite <-Hf1. auto.
  - intros [= <- <-]. split; [done|]. intros es [= <-]. auto.
Qed.

(** The decision of a fresh authorizer is Cedar's on the store's policies. *)
Lemma decide_request_Ok root req ents e d t :
  decide_request root req ents e = (Ok d, t) →
  ∃ s a, policy_store_open root (pv_tree e) (pv_io e) = (Ok s, t) ∧
    authorizer_new t (pv_io e) (pv_utf8 e) s (pv_walk e) = Ok a ∧
    evaluate_request a req ents = Ok (effect d, policies d, reasons d).
Proof.
  unfold decide_request. destruct (policy_store_open _ _ _) as [[s|] t0]; [|done]. intros [= Hd <-].
  apply map_err_Ok, bind_Ok in Hd as (a & Ha & Hd). exists s, a. split; [done|]. split; [done|].
  assert (Hc : cache a = None).
  { unfold authorizer_new in Ha. apply bind_Ok in Ha as ([ps srcs] & _ & (sch & _ & [= <-])%bind_Ok). done. }
  unfold authorize, lookup_cached in Hd. rewrite Hc in Hd. simpl in Hd.
  destruct (evaluate_request a req ents) as [[[ef ps] rs]|]; [|done]. by injection Hd as <-.
Qed.

(** [sim] without [--entities] decides without entities, where [authorize] takes those of
    the default file. *)
Lemma sim_ignores_default_entities pretty root request output stdin e w req w1 text :
  read_request request stdin w = (Ok req, w1) → faults w1 = [] →
  files w1 !! ".agentguard/entities.json" = Some (Regular text) → utf8_valid text = true →
  (sim_run pretty root request None output stdin e w).1.1 =
    (d ← (decide_request root req no_entities e).1; Ok (sim_lines pretty d req output)) ∧
  (load_entities None w1).1 =
    entities_of (λ e, "entities file must be a JSON array of entity objects: " +:+ e) text.
Proof.
  intros Hreq Hcalm Hf Hu. split.
  - unfold sim_run. rewrite Hreq. by destruct (decide_request root req no_entities e).
  - destruct w1 as [m fl]. simpl in *. subst fl. unfold load_entities, fs_exists, fs_try. cbn [default from_option].
    assert (Hs : fs_stat ".agentguard/entities.json" (mkWorld m []) = (Ok (Regular text), mkWorld m [])).
    { unfold fs_stat. rewrite syscall_calm. simpl. by rewrite Hf. }
    rewrite fs_bind_eq, Hs. cbn [mret fs_ret is_ok answered_yes].
    by rewrite (read_to_string_calm _ _ _ Hf Hu).
Qed.
End recorded.

Section exits.
Context (dir : string) (rn : renderers).
Context `{CedarStore, !CedarBuild, !JsonText, !JsonScalars, !Hex, !Sha256, !Hmac, !UuidText}.
Context `{!RecordCodec, !ActorCodec, !Lru bytes (CachedDecision * Z), !Base64Std, !JsonList, !RequestCodec}.
Context `{!Argon2, !Base64, !ApiKeyCodec, !Ed25519Ops, !ClaimsCodec, !TimeFormat, !Display, !JsonWriter}.

(** C15: the exit code of [agentguard authorize] can be relied on.  It is 1, and nothing is
    printed; or it is 0 for an Allow and 2 for a Deny that Cedar gave on the store's policies,
    for the request that was read (with the trace of the environment) and the entities of the
    file (none when there is no file, or when a storage call failed); and then, unless auditing
    was switched off, the decision is the last line of the log, whatever storage faults there
    were. *)
Theorem authorize_exit fuel cli m e w code out t w' request ents skip :
  cli_cmd cli = CmdAuthorize request ents skip →
  main_run dir rn fuel cli m e w = Some (code, out, t, w') →
  code = 1 ∧ out = [] ∨
  ∃ text req0 req es d s a, code = (if decision_was_allow d then 0 else 2) ∧
    out = decision_lines (rn_decision rn) d req (cli_output cli) ∧
    request_source request (ae_stdin (me_auth m)) w text ∧ request_from_str text = Ok req0 ∧
    req = apply_traceparent (ae_traceparent (me_auth m)) req0 ∧ entities_source ents w es ∧
    policy_store_open (cli_store cli) (pv_tree e) (pv_io e) = (Ok s, t) ∧
    authorizer_new t (pv_io e) (pv_utf8 e) s (pv_walk e) = Ok a ∧
    evaluate_request a req es = Ok (effect d, policies d, reasons d) ∧
    (skip = false →
     ∃ c line, started w (cli_audit cli) c ∧
       line_of (from_decision d None None (ld_id (ae_draw (me_auth m))) (ld_now (ae_draw (me_auth m)))) line ∧
       files w' !! cli_audit cli = Some (Regular (c +:+ line))).
Proof.
  intros Hcmd. unfold main_run. rewrite Hcmd. unfold authorize_run.
  destruct (read_request request _ w) as [[req0|] w1] eqn:Hreq; [|intros [= <- <- _ _]; by left].
  apply read_request_source in Hreq as (Hf1 & Hft & Hreq). destruct (Hreq _ eq_refl) as (text & Htext & Hread).
  destruct (load_entities ents w1) as [[es|] w2] eqn:Hents; [|intros [= <- <- _ _]; by left].
  apply load_entities_source in Hents as [Hf2 Hents].
  destruct (decide_request _ _ es e) as [[d|] t1] eqn:Hd; [|intros [= <- <- _ _]; by left].
  apply decide_request_Ok in Hd as (s & a & Ho & Ha & Hev).
  destruct (if skip then _ else _) as [audited w3] eqn:Haud.
  destruct audited as [[]|]; [|intros [= <- <- _ _]; by left].
  intros [= <- <- <- <-]. right. exists text, req0. do 5 eexists.
  split_and!; [done|done|done|done|done| |done|done|exact Hev|].
  - specialize (Hents _ eq_refl). unfold entities_source, readable in *. rewrite Hf1 in Hents.
    destruct Hents as [?|(-> & [?|?])]; auto.
  - intros ->. apply audit_decision_recorded in Haud as (c & line & Hst & Hline & Hf).
    exists c, line. unfold started in *. by rewrite Hf2, Hf1 in Hst.
Qed.

(** Exit code 2 is an answer, not an error: only a denied request and a diagnosis with
    warnings give it. *)
Lemma exit_two fuel cli m e w out t w' :
  main_run dir rn fuel cli m e w = Some (2, out, t, w') →
  cli_cmd cli = CmdDoctor ∨ ∃ request ents skip, cli_cmd cli = CmdAuthorize request ents skip.
Proof.
  unfold main_run, finish_tree, finish_files, finish.
  destruct (cli_cmd cli); intros Hrun; eauto; exfalso; try (destruct (gen_run _ _ _ _ _ _ _); [|done]);
    cbn [mbind option_bind] in Hrun; repeat case_match; simplify_eq.
Qed.
End exits.
