(* ===== verification/ServerExamples.v ===== *)
(** * The server on concrete inputs

    Stand-ins for Cedar's parsers, addresses and the remaining external functions, a server
    on a chained decision log, and the theorems of [PolicyStore], [Pdp], [AuditPort], [Grpc],
    [Server], [Jwt], [Oidc] and [PolicyOps] applied to it. *)

From S2P Require Import Prelude Json Ids CoreError AuthError AuthKeys Crypto Replay Dpop Trace Request DecisionRecord HashChain Canonical AuditFs ApiKey AuditLog AuditExamples Cache Engine EngineExamples Text Rotation RotationFaults Metrics Semaphore AuthLayer PolicyStore AuthZen Pdp AuditPort Grpc ChainSecret Server Jwt Oidc PolicyOps.
Import Crypto.Concrete Canonical.Concrete ApiKey.Concrete ChainSecret.Concrete Metrics.Concrete.
Import Semaphore.Counting.

(** ** Stand-ins *)

(** A policy file has a policy [id:principal] on each line. *)
Definition parse_policy (line : string) : result string example_policy :=
  '(i, who) ← ok_or (split_once ":" line) "expected id:principal"; Ok (mkPolicy i who).
Definition parse_policies (text : string) : result string (list example_policy) :=
  try_map parse_policy (filter (λ l, l ≠ "") (split newline text)).

#[export] Instance cedar_store : CedarStore := {|
  policy_set_new := ([] : list example_policy);
  policy_set_from_str := parse_policies;
  policy_set_merge a b := Ok (a ++ b);
  policy_set_len ps := Z.of_nat (length ps);
  policy_parse _ text :=
    ps ← parse_policies text; bail_if (bool_decide (length ps ≠ 1%nat)) "expected one policy";
  schema_from_str _ := Ok tt;
  validate_strict _ _ := ([], []);
  schema_entity_types _ := [];
  schema_actions _ := [];
|}.
#[export] Instance cedar_build : CedarBuild := {|
  Entity := Value;
  entity_from_json_str := json_from_slice;
  entities_from_entities es := Ok (es : list Value);
|}.
#[export] Instance net : Net := {|
  socket_addr := string;
  parse_socket_addr s := Ok s;
  ip_is_loopback s := starts_with "127." s;
|}.
#[export] Instance actors : ActorCodec := {| actor_from_value := actor_of_value |}.
#[export] Instance durations : DurationText := {|
  humantime_from_str _ := Err "not a duration"; humantime_format _ := "" |}.
#[export] Instance json_list : JsonList := {|
  values_from_str s := v ← json_from_slice s; match v with VArray l => Ok l | _ => Err "not a list" end;
|}.

(** ** A policy directory *)

Definition disk : gmap string node :=
  {["s" := Directory; "s/policies" := Directory; "s/policies/b.cedar" := File "p1:bob";
    "s/policies/a.cedar" := File "p0:alice"; "s/policies/notes.txt" := File "x"]}.
Definition disk_walk : list string :=
  ["s/policies"; "s/policies/b.cedar"; "s/policies/a.cedar"; "s/policies/notes.txt"].
Definition no_io : string → option string := λ _, None.
Definition utf8_text : bytes → string := λ _, "invalid utf-8".
Definition both : PolicySet := ([mkPolicy "p0" "alice"; mkPolicy "p1" "bob"] : list example_policy).
Definition both_sources : list PolicySource :=
  [mkPolicySource "s/policies/a.cedar" "p0:alice"; mkPolicySource "s/policies/b.cedar" "p1:bob"].


(** The witness of [load_order_independent]. *)
Example load_order_independent_witness :
  load_policies disk no_io utf8_text (mkPolicyStore "s") (walked (rev disk_walk))
  = Ok (both, both_sources).
Proof.
  apply (load_order_independent disk no_io utf8_text (mkPolicyStore "s") disk_walk (rev disk_walk)
           (both, both_sources)).
  - apply (bool_decide_unpack _). vm_compute. exact I.
  - change (rev disk_walk) with (List.rev disk_walk). apply Permutation_rev.
  - vm_compute. reflexivity.
Defined.

(** The witness of [write_policy_contained]: a name that climbs is flattened. *)
Example write_policy_contained_witness :
  ∃ safe, split "/"%char "s/policies/a_.._x.cedar" = ["s"; "policies"] ++ [safe +:+ ".cedar"] ∧
    starts_with "." safe = false.
Proof.
  set (res := write_policy (mkPolicyStore "s") "a/../x" "p2:carol" disk Ok no_io).
  assert (Hres : res = (Ok "s/policies/a_.._x.cedar", res.2)).
  { rewrite (surjective_pairing res) at 1. apply f_equal2; [vm_compute; reflexivity|reflexivity]. }
  destruct (write_policy_contained (mkPolicyStore "s") "a/../x" "p2:carol" disk Ok no_io
    "s/policies/a_.._x.cedar" res.2) as (safe & Hs & _ & Hd & _).
  - exact Hres.
  - exists safe. split; [exact Hs|exact Hd].
Defined.

(** ** A caller *)

Definition alice : AuthenticatedIdentity :=
  mkIdentity (mkApiKeyIdentity "User" "alice" (Some "acme")) "uuid-1" false.
Definition sample_eval : EvaluationRequest :=
  mkEvaluationRequest (mkEntityRef "User" "alice") (mkEntityRef "Action" "ToolCall::s3::Put")
    (mkEntityRef "Bucket" "b") (VObject [("tenant_id", VString "acme"); ("size", VNumber (PosInt 3))])
    [VObject [("uid", VString "alice")]].

(** The witness of [caller_binding]. *)
Example caller_binding_witness :
  ∃ r, evaluation_request_for_caller sample_eval (Some alice) "r1" = Ok r ∧
    principal_id (principal r) = "alice" ∧ tenant_id r = Some "acme" ∧
    assoc "tenant_id" (to_json_object (context r)) = None.
Proof.
  eexists. split; [vm_compute; reflexivity|].
  match goal with |- principal_id (principal ?r) = _ ∧ _ =>
    destruct (caller_binding sample_eval alice "r1" r) as (Hp & _ & _ & Ht & _ & Hc & _) end.
  - apply wf_valueb_spec. vm_compute. reflexivity.
  - vm_compute. reflexivity.
  - destruct (Hp eq_refl) as [_ Hid]. split; [exact Hid|]. split; [exact Ht|exact Hc].
Defined.

(** ** A server on a chained log *)

#[local] Instance port : AuditAppender (DecisionLog * world) log_draw := decision_log_appender ".".
#[local] Instance port_laws : AppenderLaws := decision_log_laws "." "key" log_id zero_hash.

Definition log_world : world :=
  mkWorld {[name := Regular ""; chain_id_sidecar_path name := sidecar_file]} [].
Definition log_of (w : world) : option (AuditWriter (DecisionLog * world) Empty_set) :=
  Some (Sync (fresh_log, w)).
Definition handle : AuthorizerHandle := mkHandle {[0%nat := cached_authorizer]} 0 "s" None.
Definition state_on (w : world) (n : nat) : AppState (S := DecisionLog * world) (T := Empty_set) :=
  mkAppState handle (log_of w) (ReloadableApiKey "keys.json") one_store (free 2) metrics_new (free n).
Definition server_state := state_on log_world 4.

Definition draw : log_draw := mkLogDraw "id-1" "2026-01-01T00:00:00Z" log_id "ts" "u'" "u".
Definition calm : pdp_env := mkPdpEnv 1 2 5 false false draw.

Lemma log_world_holds : holds "key" log_id zero_hash fresh_log log_world [] "".
Proof. split; [done| |by vm_compute|done]. eexists. split_and!; done. Qed.

Lemma server_writer_ok : writer_ok (audit_appender server_state).
Proof. exists [], "". exact log_world_holds. Qed.

Definition plain_eval : EvaluationRequest :=
  set_ev_context sample_eval (VObject [("size", VNumber (PosInt 3))]).
Definition eval_job : pdp_job :=
  mkJob 0 sample (ev_entities sample_eval) (authenticated_actor (Some alice)).

(** One request, from admission to its answer. *)
Definition one_call := authorize_and_persist_decision server_state eval_job calm.
Definition answered_state := one_call.2.
Definition one_decision : Decision :=
  match one_call.1 with Ok (d, _) => d | Err _ => mkDecision Deny [] [] Null None false end.

Lemma one_call_run :
  rtc pdp_step (mkServer server_state ∅ []) (mkServer answered_state ∅ [(7%nat, Ok one_decision)]).
Proof.
  assert (Hc : one_call = (Ok (one_decision, 5), answered_state)).
  { unfold answered_state. rewrite (surjective_pairing one_call) at 1. apply f_equal2; [vm_compute; reflexivity|reflexivity]. }
  exact (handler_is_run server_state eval_job calm _ _ ∅ [] 7%nat (lookup_empty _) Hc).
Qed.

(** The witness of [decisions_are_audited]. *)
Example decisions_are_audited_witness :
  effect one_decision = Allow ∧ durable_in (audit_appender answered_state) one_decision.
Proof.
  split; [vm_compute; reflexivity|].
  exact (decisions_are_audited server_state _ 7%nat one_decision server_writer_ok one_call_run
           (list_elem_of_here _ _)).
Defined.

(** A server on a log that rotates at 100 bytes; the second of two requests rotates it. *)
Definition ticks (t : nat) : string :=
  if bool_decide (t = O) then "20260101T000000000000Z" else "20260101T000001000000Z".
#[local] Instance clock_port : AuditAppender (DecisionLog * world * nat) log_draw := clocked_appender "." ticks.
Definition rotating_state : AppState (S := DecisionLog * world * nat) (T := Empty_set) :=
  mkAppState handle (Some (Sync (new_log, mkWorld (new_files log_id name) [], O)))
    (ReloadableApiKey "keys.json") one_store (free 2) metrics_new (free 4).
Definition first_call := authorize_and_persist_decision rotating_state eval_job calm.
Definition second_call := authorize_and_persist_decision first_call.2 eval_job calm.




Example second_call_rotates :
  is_ok second_call.1 = true ∧
  match audit_appender second_call.2 with
  | Some (Sync (_, w, t)) => t = 2%nat ∧ length (segment_names name (files w)) = 1%nat
  | _ => False
  end.
Proof. split; vm_compute; [reflexivity|split; reflexivity]. Qed.

(** The witness of [pdp_work_ends]: a request in flight whose worker panics. *)
Example pdp_work_ends_witness :
  let s := mkServer (set_pdp_slots server_state (free 3)) {[7%nat := Evaluating eval_job]} [] in
  let s' := answer s (app s) 7 (Err Join) in
  (size (inflight s) ≤ 4)%nat ∧ inflight s' = ∅ ∧ (1 ≤ 8)%nat.
Proof.
  intros s s'.
  destruct (pdp_work_ends server_state s 1 s' draw) as (Hs & Hn & Hend).
  - reflexivity.
  - apply rtc_once. apply (ps_admitted (mkServer server_state ∅ []) 7%nat eval_job (free 3)); done.
  - apply nsteps_once. eapply ws_panicked. by apply lookup_singleton_eq.
  - split; [exact Hs|]. split; [|exact Hn]. apply Hend. intros s'' Hw.
    assert (He : inflight s' = ∅) by (cbn; apply delete_singleton_eq).
    destruct Hw as [? ? ? ? ? ? Hi|? ? ? ? ? ? Hi|? ? ? ? ? ? Hi|? ? Hi];
      rewrite He in Hi; by apply lookup_empty_Some in Hi.
Defined.

Definition eval_result := evaluation server_state (Some alice) sample_eval "r1" calm.
Definition allowed : EvaluationResponse := mkEvaluationResponse true None None.

Lemma eval_result_eq : eval_result = (mkResponse 200 (One allowed), eval_result.2).
Proof.
  rewrite (surjective_pairing eval_result) at 1. apply f_equal2; [vm_compute; reflexivity|reflexivity].
Qed.

(** The witness of [evaluation_audited]. *)
Example evaluation_audited_witness :
  ∃ d, durable_in (audit_appender eval_result.2) d ∧ allowed = response_of d.
Proof.
  destruct (evaluation_audited server_state (Some alice) sample_eval "r1" calm allowed eval_result.2
    server_writer_ok eval_result_eq) as (d & r & m & _ & Hd & Hr & _).
  by exists d.
Defined.

(** ** A batch *)

Definition bob_eval : EvaluationRequest :=
  mkEvaluationRequest (mkEntityRef "User" "bob") (ev_action sample_eval) (ev_resource sample_eval)
    (ev_context plain_eval) (ev_entities sample_eval).
Definition delegate : AuthenticatedIdentity :=
  mkIdentity (mkApiKeyIdentity "Agent" "gateway" None) "uuid-2" true.
(** Alice may, Bob may not, and the batch stops there. *)
Definition batch : BatchEvaluationRequest :=
  mkBatchRequest [plain_eval; bob_eval; plain_eval] (Some DenyOnFirstDeny) None None.
Definition reload_env : load_env := mkLoadEnv disk no_io utf8_text (walked disk_walk) 0 0 (2 ^ 63).
(** The policies are reloaded before the second item. *)
Definition batch_draws (n : nat) : item_draw :=
  mkItemDraw (pretty n)
    (mkPdpEnv (2 * Z.of_nat n) (2 * Z.of_nat n + 1) 5 false false
       (mkLogDraw ("id-" +:+ pretty n) "2026-01-01T00:00:00Z" log_id "ts" "u'" "u"))
    (λ st : AppState (S := DecisionLog * world) (T := Empty_set),
       if bool_decide (n = 1%nat) then app_reload st reload_env else st).
Definition batch_result := evaluations server_state (Some delegate) batch batch_draws.
Definition denied : EvaluationResponse := mkEvaluationResponse false None None.

Lemma batch_result_eq : batch_result = (mkResponse 200 (Batch [allowed; denied]), batch_result.2).
Proof.
  rewrite (surjective_pairing batch_result) at 1. apply f_equal2; [vm_compute; reflexivity|reflexivity].
Qed.

Lemma batch_meanwhile i st : meanwhile st (it_others (batch_draws i) st).
Proof.
  cbn [it_others batch_draws]. case_bool_decide.
  - exists ∅, [], ∅, []. apply rtc_once. exact (ps_reload (mkServer st ∅ []) reload_env).
  - exists ∅, [], ∅, []. apply rtc_refl.
Qed.

(** The witness of [batch_answers]. *)
Example batch_answers_witness :
  snapshot (authorizer batch_result.2) ≠ snapshot (authorizer server_state) ∧
  ∃ ds, [allowed; denied] = response_of <$> ds ∧
    batch_spec cached_authorizer server_state batch_result.2 DenyOnFirstDeny (Some delegate)
      (imap (λ i er, (er, batch_draws i)) (evaluations_of batch)) ds.
Proof.
  split; [vm_compute; discriminate|].
  destruct (batch_answers server_state (Some delegate) batch batch_draws cached_authorizer _ batch_result.2
    server_writer_ok eq_refl batch_meanwhile batch_result_eq) as (_ & ds & Hrs & Hspec).
  exists ds. split; [exact Hrs|exact Hspec].
Defined.

(** ** Reload *)

Definition broken_env : load_env :=
  mkLoadEnv (<["s/policies/c.cedar" := File "?"]> disk) no_io utf8_text
    (walked (disk_walk ++ ["s/policies/c.cedar"])) 0 0 (2 ^ 63).

(** The witness of [reload_keeps_last_good]: a good directory, and one with a broken file. *)
Example reload_keeps_last_good_witness :
  policy_reload_total (metrics (app_reload server_state reload_env)) = counter_inc (policy_reload_total metrics_new)
  ∧ app_reload server_state broken_env = server_state.
Proof.
  assert (Hcur : snapshots (authorizer server_state) !! current (authorizer server_state) ≠ None) by done.
  pose proof (reload_keeps_last_good server_state reload_env Hcur) as [Hgood _].
  pose proof (reload_keeps_last_good server_state broken_env Hcur) as [Hbad _].
  split.
  - match type of Hgood with match ?r with Ok _ => _ | Err _ => _ end =>
      assert (Hok : is_ok r = true) by (vm_compute; reflexivity); destruct r as [a|]; [|done] end.
    apply Hgood.
  - match type of Hbad with match ?r with Ok _ => _ | Err _ => _ end =>
      assert (Hok : is_ok r = false) by (vm_compute; reflexivity); destruct r as [a|]; [done|] end.
    exact Hbad.
Defined.

(** ** gRPC *)

Definition pb_request : PbRequest :=
  mkPbRequest (Some (mkEntityRef "User" "alice")) (Some (mkEntityRef "Action" "ToolCall::s3::Put"))
    (Some (mkEntityRef "Bucket" "b")) "" "".
Definition http_request : EvaluationRequest :=
  mkEvaluationRequest (mkEntityRef "User" "alice") (mkEntityRef "Action" "ToolCall::s3::Put")
    (mkEntityRef "Bucket" "b") (VObject []) [].
Definition metrics_order (m : Metrics) : iteration m :=
  mkIteration m _ _ _ _ (reflexivity _) (reflexivity _) (reflexivity _) (reflexivity _).
Definition exchange : http_env :=
  mkHttpEnv 2000 false batch_draws (mkResponse 404 (Text "")) draw draw metrics_order.

(** The witness of [transports_agree]. *)
Example transports_agree_witness :
  let g := grpc_evaluation server_state bearer_alice pb_request (he_now exchange) (he_panics exchange)
             "0" (it_env (batch_draws 0)) in
  let h := router server_state "POST" "/access/v1/evaluation" bearer_alice
             (Ok (PEvaluation http_request)) exchange in
  g.2 = h.2 ∧ same_outcome g.1 h.1.
Proof.
  assert (Hreq : http_style pb_request = Ok http_request) by (vm_compute; reflexivity).
  pose proof (transports_agree server_state bearer_alice pb_request http_request exchange "0"
                (it_env (batch_draws 0)) Hreq eq_refl eq_refl) as Ht.
  revert Ht. cbv zeta. generalize (grpc_evaluation server_state bearer_alice pb_request (he_now exchange)
    (he_panics exchange) "0" (it_env (batch_draws 0))).
  generalize (router server_state "POST" "/access/v1/evaluation" bearer_alice
    (Ok (PEvaluation http_request)) exchange).
  intros [h st2] [r st1] Ht. exact Ht.
Defined.

(** ** Starting *)

Definition config : ServerConfig :=
  mkServerConfig (Tcp ("127.0.0.1:8443" : socket_addr)) "s" (Some name) (Some "secret.key")
    (ConfigApiKey "keys.json") None.
Definition no_vars : run_vars :=
  mkRunVars EnvNotPresent EnvNotPresent EnvNotPresent EnvNotPresent EnvNotPresent.
Definition start : start_env :=
  mkStartEnv reload_env (mkWorld ∅ []) log_id "u0" (mkWorld ∅ [])
    (λ _, Ok (hex_encode (pad 32 "key"))) (λ _, Err "none").
Definition started : AppState (S := DecisionLog * world) (T := Empty_set) :=
  match startup "." config no_vars start with Ok st => st | Err _ => server_state end.

(** The witness of [startup_secure]. *)
Example startup_secure_witness :
  ∃ l w, audit_appender started = Some (Sync (l, w)) ∧ is_healthy l = true ∧ log_is_chained l = true.
Proof.
  assert (Hs : startup "." config no_vars start = Ok started).
  { unfold started. assert (Hok : is_ok (startup (T := Empty_set) "." config no_vars start) = true)
      by (vm_compute; reflexivity). by destruct (startup _ _ _ _). }
  destruct (startup_secure "." config no_vars start started Hs) as (_ & _ & _ & _ & Ha & _).
  exact Ha.
Defined.

(** ** The key watcher *)

Definition keys_world (c : string) : gmap string entry := {["keys.json" := Regular c]}.

(** The witness of [key_watcher_never_retries]. *)
Example key_watcher_never_retries_witness :
  let '(store', last', _) :=
    key_watcher_tick "keys.json" one_store None
      (mkWorld (keys_world "[]") [None; None; Some ("busy", 0%nat)]) in
  store' = one_store ∧ watch "keys.json" store' last' [keys_world "[]"; keys_world "[]"] = one_store.
Proof.
  apply (key_watcher_never_retries "keys.json" one_store None (keys_world "[]") "[]" "busy" 0
           [keys_world "[]"; keys_world "[]"]).
  - reflexivity.
  - done.
  - by repeat constructor.
Defined.

(** ** A JWKS refresh *)

Definition old_keys : KeyRegistry := AuthKeys.add registry_new "old" EdDSA (Ed25519 (pad 32 "old")).
Definition validator : JwtValidator :=
  mkJwtValidator (with_jwks_uri (jwt_config_new "iss" "aud") "https://idp/jwks") old_keys.
Definition new_key : JwksKey :=
  mkJwksKey (Some "OKP") None "EdDSA" (Some "new") None None (Some (b64_encode (pad 32 "new"))) None None.
(** The issuer now lists another key only. *)
Definition served_jwks : jwks_exchange :=
  mkExchange (Ok tt) (Ok (true, "200 OK", Ok "doc")) (λ _, Ok [new_key]).

(** The witness of [jwks_withdrawn_key_stays]. *)
Example jwks_withdrawn_key_stays_witness :
  get_keys (jwt_keys (refresh_jwks validator served_jwks).2) "old" EdDSA 5 = [Ed25519 (pad 32 "old")].
Proof.
  destruct (jwks_withdrawn_key_stays validator served_jwks (refresh_jwks validator served_jwks).1
    (refresh_jwks validator served_jwks).2 "old" EdDSA 5) as (_ & _ & Hk).
  - apply add_wf, with_cap_wf.
  - apply surjective_pairing.
  - rewrite (Hk [new_key]).
    + vm_compute. reflexivity.
    + vm_compute. reflexivity.
    + intros success status body [= <- <- <-]. reflexivity.
    + apply (bool_decide_unpack _). vm_compute. exact I.
    + apply (bool_decide_unpack _). vm_compute. exact I.
Defined.

(** ** OIDC discovery *)

Definition oidc : OidcConfig := oidc_config_new "https://idp/" "aud".
Definition metadata : OidcMetadata := mkOidcMetadata "https://idp/" "https://idp/jwks" None None None.
(** A server error first, then the document. *)
Definition idp : oidc_exchange :=
  mkOidcExchange (Ok tt)
    (λ url n, if bool_decide (url = "https://idp/.well-known/openid-configuration")
              then match n with 1%nat => ServerError "503" | _ => Success (Ok "doc") end
              else OtherStatus "404")
    (λ _, Ok metadata) (λ _, served_jwks).
Definition discovered : JwtValidator :=
  match discover 3 oidc idp with Some (Ok (v, _), _) => v | _ => validator end.

(** The witness of [discovery_pins_issuer]. *)
Example discovery_pins_issuer_witness :
  discover 3 oidc idp = Some (Ok (discovered, metadata), 2%nat) ∧
  ∃ body, ox_responses idp (discovery_url oidc) 2 = Success (Ok body) ∧ pinned oidc idp body discovered metadata.
Proof.
  assert (Hd : discover 3 oidc idp = Some (Ok (discovered, metadata), 2%nat)) by (vm_compute; reflexivity).
  split; [exact Hd|].
  destruct (discovery_pins_issuer 3 oidc idp (le_n 3)) as (r & n & Hr & _ & _ & _ & Hpin).
  rewrite Hd in Hr. injection Hr as <- <-. exact (Hpin _ _ eq_refl).
Defined.

(** ** Policy operations *)

(** The coarsest diff there is. *)
#[export] Instance whole_diff : TextDiff := {|
  from_lines old new :=
    if bool_decide (old = new) then (if bool_decide (old = "") then [] else [(TagEqual, old)])
    else (if bool_decide (old = "") then [] else [(TagDelete, old)])
         ++ (if bool_decide (new = "") then [] else [(TagInsert, new)]);
|}.
#[export] Instance whole_diff_laws : TextDiffLaws.
Proof.
  split; intros old new; simpl; repeat case_bool_decide; subst; simpl; try done; by repeat constructor.
Qed.

Definition bundle_with (ps : list NamedPolicy) : PolicyBundle :=
  mkBundle 1 "acme" "" "" 0 "test" None "entity User;" ps.
Definition old_bundle : PolicyBundle :=
  bundle_with [mkNamedPolicy "a" "p0:alice"; mkNamedPolicy "b" "p1:bob"].
Definition new_bundle : PolicyBundle := bundle_with [mkNamedPolicy "b" "p1:carol"].

(** The witness of [diff_lists_changes]: the policy that was removed. *)
Example diff_lists_changes_witness :
  ("a", "") ∈ diff_bundles old_bundle new_bundle (map_to_list (sources_of old_bundle)).*1
                (map_to_list (sources_of new_bundle)).
Proof.
  destruct (diff_lists_changes old_bundle new_bundle (map_to_list (sources_of old_bundle)).*1
    (map_to_list (sources_of new_bundle)) "a" (reflexivity _) (reflexivity _)) as (_ & Hr & _).
  apply Hr; [by eexists|reflexivity].
Defined.

Definition build_in (files : list string) : build_env :=
  mkBuildEnv (Ok "/tmp/x") no_io utf8_text (walked ("/tmp/x/policies" :: files)).
Definition old_env := build_in ["/tmp/x/policies/000_a.cedar"; "/tmp/x/policies/001_b.cedar"].
Definition new_env := build_in ["/tmp/x/policies/000_b.cedar"].
Definition replayed : ReplayRequest := mkReplay sample (ev_entities sample_eval) "allow".
Definition blast : BlastRadiusReport := mkBlastReport 0 1 0 0 [replayed] [].

(** The witness of [blast_radius_exact]: Alice loses her access. *)
Example blast_radius_exact_witness :
  report_total blast = 1 ∧ has_allow_to_deny blast = true.
Proof.
  assert (Hb : analyze old_bundle new_bundle [replayed] old_env new_env = Ok blast)
    by (vm_compute; reflexivity).
  destruct (blast_radius_exact old_bundle new_bundle [replayed] old_env new_env blast Hb)
    as (a & a' & effects & _ & _ & _ & _ & Ht & _).
  split; [exact Ht|reflexivity].
Defined.
