(* ===== verification/CliExamples.v ===== *)
(** * The commands on concrete inputs

    The remaining stand-ins for external functions, and the theorems of the [Cli] files
    applied to a small store and log. *)

From S2P Require Import Prelude Json CoreError AuthError AuthKeys Crypto Constraint Delegation DelegationExamples Trace Request DecisionRecord HashChain Canonical AuditFs ApiKey AuditLog AuditExamples Cache Engine EngineExamples Text Metrics Semaphore AuthLayer PolicyStore AuthZen Pdp AuditPort Grpc ChainSecret Server Formatter CliKeys CliAudit CliDelegate CliPolicy CliGen CliMain ServerExamples.
Import Crypto.Concrete Canonical.Concrete ApiKey.Concrete ChainSecret.Concrete Formatter.Concrete.

(** ** Stand-ins *)

(** A value is written in one piece. *)
#[export] Instance one_piece : JsonWriter := {| to_writer v := [json_to_vec v] |}.
#[export] Instance one_piece_laws : JsonWriterLaws.
Proof. split. intros v. exact (string_app_nil_r (json_to_vec v)). Qed.
#[export] Instance plain_display : Display := {|
  timestamp_key s := len s; show_time s := s; show_datetime s := s; to_uppercase s := s;
|}.
(** Every text is the sample request. *)
#[export] Instance fixed_request : RequestCodec := {| request_from_str _ := Ok sample |}.

(** ** Erasure *)

Definition salted : gmap string entry := {[name := Regular two_lines; "salt" := Regular "s"]}.

(** The witness of [erase_exact]: a log of two records about alice. *)
Example erase_exact_witness :
  ∃ lines m' records', audit_erase "." name "alice" "salt" None (mkWorld salted []) = (Ok lines, mkWorld m' []) ∧
    read_all_chained "." name (mkWorld m' []) = (Ok records', mkWorld m' []) ∧ length records' = 2%nat ∧
    Forall (λ cr, about_subject "alice" (c_record cr) = false) records'.
Proof.
  destruct (read_chained_lines (read_lines two_lines)) as [records|e] eqn:Hr; [|by vm_compute in Hr].
  destruct (erase_exact "." name "alice" "salt" "s" two_lines records salted None)
    as (lines & m' & records' & He & Hread & Hall & Hnone).
  - by vm_compute.
  - by vm_compute.
  - vm_compute. discriminate.
  - exact Hr.
  - vm_compute in Hr. injection Hr as <-. by repeat constructor.
  - exists lines, m', records'. split; [exact He|]. split; [exact Hread|]. split.
    + rewrite <-(Forall2_length _ _ _ Hall). vm_compute in Hr. by injection Hr as <-.
    + by apply Hnone.
Defined.

(** ** Deciding a request *)

Definition example_renderers : renderers :=
  mkRenderers (λ v, json_to_vec v) (λ _, "decision") (λ _, "token") (λ _, "claims") (λ _, "summary") (λ s, s)
    (λ _, "status") (λ _, "issues") "schema".
Definition example_auth : auth_env := mkAuthEnv (Ok "{}") EnvNotPresent log_id "u0" draw.
Definition example_main : main_env :=
  mkMainEnv example_auth (mkGenEnv (λ _, None) (λ _ _ _, SendError true false "timeout") None)
    (mkKeyDraw "k" "s" "salt" 0 "t") (mkMintDraw "key" "k" 0 "j") 0 "t" "ts" "u".
Definition example_cli (c : Cmd) : Cli := mkCli "s" name "pretty" (Some "secret") c.
Definition example_store : store_env := mkStoreEnv disk no_io utf8_text (walked disk_walk) Ok.
Definition example_files : gmap string entry :=
  {["secret" := Regular "key"; "ents" := Regular (json_to_vec (VArray [VObject [("uid", VString "alice")]]))]}.

Definition exit_code (r : option exit_state) : option Z := (λ x, x.1.1.1) <$> r.

(** The witness of [authorize_exit]: alice is allowed, and the new log has one line. *)
Example authorize_exit_witness :
  ∃ out t w' line, main_run "." example_renderers 0 (example_cli (CmdAuthorize "-" (Some "ents") false))
      example_main example_store (mkWorld example_files []) = Some (0, out, t, w') ∧
    files w' !! name = Some (Regular line) ∧ line ≠ "".
Proof.
  assert (Hcode : exit_code (main_run "." example_renderers 0 (example_cli (CmdAuthorize "-" (Some "ents") false))
      example_main example_store (mkWorld example_files [])) = Some 0) by (vm_compute; reflexivity).
  destruct (main_run _ _ _ _ _ _ _) as [[[[code out] t] w']|] eqn:Hrun; [|discriminate Hcode].
  injection Hcode as ->.
  destruct (authorize_exit "." example_renderers 0 (example_cli (CmdAuthorize "-" (Some "ents") false)) example_main
      example_store (mkWorld example_files []) 0 out t w' "-" (Some "ents") false eq_refl Hrun)
    as [[Hbad _]|(text & req0 & req & es & d & s & a & _ & _ & _ & _ & _ & _ & _ & _ & _ & Haud)]; [discriminate Hbad|].
  destruct (Haud eq_refl) as (c & line & Hst & Hline & Hf).
  exists out, t, w', (c +:+ line). split; [reflexivity|]. split; [exact Hf|].
  assert (Hc : c = "") by (destruct Hst as [Hst|[_ Hst]]; [by vm_compute in Hst|exact Hst]).
  rewrite Hc. by destruct Hline as [->|(p & h & i & ->)].
Defined.
